(* ===== verification/_CoqProject ===== *)
-Q . S2P
Prelude.v
Text.v
Errors.v
Providers.v
Externals.v
Paths.v
Keys.v
Effects.v
Streams.v
BlobStore.v
Objects.v
Service.v
Azure.v
S3.v
S3Errors.v
S3Server.v
S3Put.v
S3Content.v
S3Read.v
S3List.v
Fs.v
Local.v
LocalObjects.v
FsFacts.v
FsFrame.v
FsCalls.v
LocalBlob.v
LocalRead.v
ServiceFacts.v
History.v
S3Service.v
S3History.v
S3Memory.v
LocalService.v
LocalHistory.v
Tree.v
LocalList.v
LocalSweep.v
LocalUpload.v
LocalObjectRead.v
LocalObjectList.v
Tokens.v
Race.v
LocalRace.v
S3Race.v
S3Integrity.v
Smb.v
SmbStore.v
SmbFacts.v
Redaction.v
SmbServer.v
SmbCalls.v
SmbWrite.v
SmbPut.v
SmbRead.v
SmbCopy.v
SmbRace.v
SmbList.v
SmbProbe.v
SmbMemory.v
Witnesses.v
ObjectWitnesses.v
S3Witnesses.v
SmbWitnesses.v
