(* ===== verification/Prelude.v ===== *)
(** * Verification of graphql-orm-storage

    The crate stores blobs under slash-separated keys, and objects made of
    blobs, with one of several providers.  The development models its code
    file by file, as programs that make calls to an environment, and proves
    what each provider does when those calls succeed, fail, or succeed without
    an answer.

    ** The parts of the program, and where they are modelled

    - [error.rs], [backend.rs]: Errors.v ([StorageError], [is_retryable],
      messages) and Providers.v (names of providers and namespaces, parsing).
    - [key.rs] and the validators of [blob.rs] and [streaming_object.rs]:
      Keys.v ([build_storage_key], [file_extension], [validate_blob_key],
      [validate_blob_prefix], [validate_object_bucket]).
    - [blob.rs], [checksum.rs]: Streams.v (a boxed stream is a state and the
      program that polls it; [collect_storage_stream],
      [ranged_storage_stream]) and BlobStore.v (the data of the trait, the
      trait as a record of programs, its default methods, paging).
    - [object.rs], [streaming_object.rs]: Objects.v.  [service.rs]: Service.v
      ([ObjectStorage], [StorageService]).  [azure.rs]: Azure.v.
    - [local.rs]: Local.v (the blob store and the sweep of temporary files)
      and LocalObjects.v (the object stores and the multipart writer), over
      the file system of Fs.v, which models the calls of [tokio::fs].
    - [s3.rs]: S3.v, over the requests [s3E] of the SDK client; S3Errors.v says
      what its tests on the text of an error recognise.
    - [smb.rs]: Smb.v (configuration, names, error classes) and SmbStore.v
      (connections, permits, all operations, the probe), over the requests
      [smbE] of the [smb] crate.

    - The implementations of [Debug] that hide secrets: Redaction.v.

    Text.v and Paths.v hold the methods of [str] and [Path] the code calls;
    this file the results, machine integers and shared lemmas.  Externals.v
    names what comes from [uuid], [sha2] and [time] as a class, with the laws
    the theorems use and an instance for examples.

    ** How code is modelled

    Effects.v: an [async fn] is a [prog E A], a tree of calls of the effect
    type [E] of its provider with loops and panics; [let*], [let*?] and
    [let!?] are sequencing and the [?] operator, so a definition reads like
    the function it models, early returns included.  A [Handler E W] answers
    the calls on a state [W].  [runs p w a w'] says that [p] returns [a];
    [twp p Q w] that [p] returns and its result satisfies [Q].  There is no
    fuel in the programs: [run] bounds the rounds of each loop, [runs] says
    that some bound is enough, and every [twp] theorem proves one, so it
    includes termination.  The examples run with bounds of 60 to 100 rounds,
    more than any loop makes on their inputs.  [step1] cuts a program into
    calls, from which the interleavings of several programs are made.  Tokens.v
    is the method for them: a [Protocol] gives each program a token, what it
    may rely on in the state; a [Lawful] one keeps the tokens of the others at
    each call.  Race.v is the protocol of programs that contend for something
    that is there or not.

    Integers are [Z] with the width written out ([u64_saturating_add],
    [usize_add] modulo [2 ^ 64], [usize_try_from]); overflow wraps as in a
    release build.  A [panic!], a failed slice or an impossible allocation is
    [Panic], which has no result.

    ** The environments

    - Fs.v defines the file system; FsFacts.v, FsFrame.v and FsCalls.v give
      its invariant [wf], the frame relation [grows] and one specification
      per call.  Which calls fail, how far a failing call gets and how much a
      read returns are choices in the state, over which theorems quantify.
    - S3Server.v and SmbServer.v state the contracts of the services as type
      classes on an abstract state: [S3Service] and [Share].  A request that
      fails or times out may have taken effect.  What an error says is told by
      its documented status or error code ([NoSuchKey], 404, 412 and the like),
      never by the tests of the code.  The S3 provider searches the [Debug] text
      of an error instead: by the law [text_of] the text shows the code, and
      holds a documented code or status only if it is that of the error or
      stands in a name of the request.  That the provider tells errors apart is
      proved from this, for names without such words ([plain_name]); for others
      it need not, which is among the findings.  The proofs use the laws only;
      S3Memory.v and SmbMemory.v give concrete services that keep them, on
      which the witnesses run.
    - ServiceFacts.v states what [StorageService] needs of a provider as the
      class [BlobStoreSpec]; LocalService.v and S3Service.v are its instances.
    - History.v is the abstract specification of a blob store: a map from keys
      to contents, the requests of a client, and the answers each may have.
      [BlobStoreLaws] extends [BlobStoreSpec] by what a sequence of requests
      needs; [lossy] says that a request may take effect and fail (S3),
      [hierarchical] that keys can be in the way of each other (local files).
      SMB is no instance: a conditional put that fails may leave a part of the
      body, which the map has no place for.

    ** The theorems

    - Keys: validation accepts exactly plain relative paths, and generated
      keys are valid and unique (Keys.v).
    - Streams: collection and ranges deliver exactly the bytes, for every cut
      into chunks (Streams.v).
    - Local blobs: puts are atomic and conditional puts create once
      (LocalBlob.v), also when any number of them run interleaved with other
      operations (LocalRace.v); readers see the file they opened (LocalRead.v); pages,
      listings and sweeps (Tree.v, LocalList.v, LocalSweep.v).
    - Local objects: the multipart writer as a state machine and uploads
      (LocalUpload.v), reading, deleting and listing (LocalObjectRead.v,
      LocalObjectList.v).
    - Sequences: any list of requests on local files or on S3 returns, and has
      the answers and the effects of the reference map (History.v,
      LocalHistory.v, S3History.v).
    - The service: storing, reading and deleting objects against
      [BlobStoreSpec] (ServiceFacts.v).
    - S3: the streaming upload makes the requests of a reference that has the
      whole body (S3Put.v), and puts store all or nothing (S3Content.v);
      the errors it tells apart (S3Errors.v); naming, reads, ranges, copies and
      listings (S3Content.v, S3Read.v, S3List.v); conditional creates that run interleaved: who wins, among
      other operations (S3Race.v), and what is stored (S3Integrity.v).
    - SMB: configuration, temporary names and error classes (SmbFacts.v);
      reconnection ends (SmbCalls.v); [write_file] and the two puts, which
      publish by a rename or an exclusive create (SmbWrite.v, SmbPut.v);
      reads and deletion (SmbRead.v); copies and the permits they take
      (SmbCopy.v); conditional creates that run interleaved, which own the
      file they create (SmbRace.v); the walk of the directories and its pages
      (SmbList.v); the probe, which composes all of them, against a share and
      in any environment (SmbProbe.v).

    Witnesses.v, ObjectWitnesses.v, S3Witnesses.v and SmbWitnesses.v apply the
    theorems to concrete states, and hold runs that show where the code falls
    short of its documentation.

    ** What is not modelled

    - Re-exports and feature gates, the text of [Debug] output (Redaction.v has
      the fields that are printed), and building the S3 client from its
      configuration (calls of the SDK's builders only).
    - The file system has no symbolic links, no permissions, no names that are
      not UTF-8, and directories are not renamed.  Faults are errors other
      than [NotFound] and [AlreadyExists], which are facts of the state.
    - Theorems about single operations are about one operation at a time;
      interleavings are treated for conditional creates (LocalRace.v,
      S3Race.v, S3Integrity.v, SmbRace.v).
      Where a temporary name must be free, its UUID being new is a hypothesis.
    - The body of a put makes no calls of its own, polled or dropped
      ([body_of]), except where the code hands a stream on.
    - A stream has a destructor ([bs_drop]), which gives the permit of an SMB
      stream back; it runs where the SMB provider drops a stream, in its puts and
      so in copies.  A ranged stream that has delivered its range does not drop
      the stream it reads in the model, so the permit below a range on SMB that
      ends early is not accounted for; the streams of the other providers own
      nothing the model has.
    - Names on an SMB share are compared exactly, where many servers ignore the
      case: two keys that differ only in case are two files in the model.
    - The time a call takes; deadlines are choices of the environment. *)
From stdpp Require Export base gmap sets list strings sorting fin_maps.
From Stdlib Require Export ZArith Lia.
From Stdlib Require Ascii String.

#[global] Open Scope Z_scope.

(** ** Results

    Rust's [Result<T, E>] with its two constructors, and the [?] operator on
    pure results. *)

Inductive result (A E : Type) : Type :=
| Ok (a : A)
| Err (e : E).
Arguments Ok {A E} a.
Arguments Err {A E} e.

Declare Scope rust_scope.
Delimit Scope rust_scope with rust.
#[global] Open Scope rust_scope.

Notation "'let?' x ':=' r 'in' k" :=
  (match r with Ok x => k | Err e => Err e end)
  (at level 10, x pattern, r at level 100, k at level 200)
  : rust_scope.

(** ["is_ok()"], ["ok()"] and ["map_err"]. *)
Definition is_ok {A E} (r : result A E) : bool :=
  match r with Ok _ => true | Err _ => false end.

Definition result_ok {A E} (r : result A E) : option A :=
  match r with Ok a => Some a | Err _ => None end.

Definition map_err {A E F} (f : E → F) (r : result A E) : result A F :=
  match r with Ok a => Ok a | Err e => Err (f e) end.

Definition result_map {A B E} (f : A → B) (r : result A E) : result B E :=
  match r with Ok a => Ok (f a) | Err e => Err e end.

(** [r.and(s)]. *)
Definition result_and {A B E} (r : result A E) (s : result B E) : result B E :=
  match r with Ok _ => s | Err e => Err e end.

(** ** Machine integers

    [u64], [usize] and [i32] values are integers of [Z] inside the bounds
    below; the operations say what happens at the bounds. The model is that of
    a 64-bit target, where [usize] and [u64] have the same range. *)

Definition u64_MAX : Z := 2 ^ 64 - 1.
Definition usize_MAX : Z := 2 ^ 64 - 1.
Definition isize_MAX : Z := 2 ^ 63 - 1.
Definition i64_MAX : Z := 2 ^ 63 - 1.
Definition i32_MAX : Z := 2 ^ 31 - 1.

Definition u64_ok (n : Z) : Prop := 0 ≤ n ≤ u64_MAX.

Definition u64_saturating_add (a b : Z) : Z := Z.min (a + b) u64_MAX.
Definition u64_saturating_sub (a b : Z) : Z := Z.max (a - b) 0.

(** [u64::try_from(n)] for a [usize] [n]. *)
Definition u64_try_from (n : Z) : option Z :=
  if (0 <=? n) && (n <=? u64_MAX) then Some n else None.

(** [usize::try_from(n)] for a [u64] [n]. *)
Definition usize_try_from (n : Z) : option Z :=
  if (0 <=? n) && (n <=? usize_MAX) then Some n else None.

(** [i32::try_from(n)] for a [usize] [n]. *)
Definition i32_try_from (n : Z) : option Z :=
  if (0 <=? n) && (n <=? i32_MAX) then Some n else None.

(** [u64::try_from(len).unwrap_or(u64::MAX)]. *)
Definition u64_from_len {A} (l : list A) : Z :=
  default u64_MAX (u64_try_from (Z.of_nat (length l))).

(** [usize] addition in a release build wraps around. *)
Definition usize_add (a b : Z) : Z := (a + b) mod 2 ^ 64.

(** ** Tactics and hints *)

Create HintDb storage discriminated.
Create Rewrite HintDb storage_rw.

(** Unfold the bounds and call [lia]. *)
Ltac zbounds :=
  unfold u64_ok, u64_saturating_add, u64_saturating_sub, usize_add,
    u64_MAX, usize_MAX, isize_MAX, i64_MAX, i32_MAX in *; lia.

Ltac simpl_match :=
  repeat match goal with
  | H : Ok _ = Ok _ |- _ => injection H as H; subst
  | H : Err _ = Err _ |- _ => injection H as H; subst
  | H : Ok _ = Err _ |- _ => discriminate H
  | H : Err _ = Ok _ |- _ => discriminate H
  end.

(** Case analysis on the scrutinee of a [match] in the goal or a hypothesis. *)
Ltac case_scrut :=
  match goal with
  | |- context [match ?x with _ => _ end] =>
      lazymatch x with context [match _ with _ => _ end] => fail | _ => destruct x eqn:? end
  | H : context [match ?x with _ => _ end] |- _ =>
      lazymatch x with context [match _ with _ => _ end] => fail | _ => destruct x eqn:? end
  end.

(** ** Lemmas on integers and lists *)

Lemma u64_from_len_ok {A} (l : list A) : u64_ok (u64_from_len l).
Proof.
  unfold u64_from_len, u64_try_from.
  destruct ((0 <=? _) && _) eqn:E; simpl; [|zbounds].
  apply andb_prop in E as [??]; zbounds.
Qed.

Lemma u64_from_len_small {A} (l : list A) :
  Z.of_nat (length l) ≤ u64_MAX → u64_from_len l = Z.of_nat (length l).
Proof.
  intros. unfold u64_from_len, u64_try_from.
  rewrite (proj2 (Z.leb_le 0 _)) by lia. rewrite (proj2 (Z.leb_le _ _)) by lia. done.
Qed.

Lemma u64_from_len_min {A} (l : list A) :
  u64_from_len l = Z.min (Z.of_nat (length l)) u64_MAX.
Proof.
  destruct (Z.le_gt_cases (Z.of_nat (length l)) u64_MAX).
  - rewrite u64_from_len_small by done. lia.
  - unfold u64_from_len, u64_try_from.
    rewrite (proj2 (Z.leb_gt _ u64_MAX)) by lia. rewrite andb_false_r. simpl. zbounds.
Qed.

(** A prefix of a list with one more element. *)
Lemma prefix_app_cases {A} (p l : list A) (x : A) :
  p `prefix_of` l ++ [x] → p `prefix_of` l ∨ p = l ++ [x].
Proof.
  intros [q Hq]. destruct q as [|y q _] using rev_ind.
  - right. by rewrite app_nil_r in Hq.
  - left. rewrite app_assoc in Hq. apply app_inj_tail in Hq as [-> _]. by exists q.
Qed.

Lemma NoDup_flat_map {A B} (f : A → list B) l :
  NoDup l → (∀ a, a ∈ l → NoDup (f a)) →
  (∀ a b x, a ∈ l → b ∈ l → x ∈ f a → x ∈ f b → a = b) → NoDup (flat_map f l).
Proof.
  induction l as [|a l IH]; intros N Nf Hinj; simpl; [constructor|].
  apply NoDup_cons in N as [Ha N]. apply NoDup_app. split; [apply Nf; by left|]. split.
  - intros x Hx Hx'. apply list_elem_of_In, in_flat_map in Hx' as (b & Hb%list_elem_of_In & Hxb).
    apply list_elem_of_In in Hxb. apply Ha.
    by rewrite (Hinj a b x) by (by left || by right || done).
  - apply IH; [done|intros b Hb; apply Nf; by right|].
    intros b c x Hb Hc. apply Hinj; by right.
Qed.

Lemma NoDup_omap {A B} (f : A → option B) l :
  NoDup l → (∀ a b y, f a = Some y → f b = Some y → a = b) → NoDup (omap f l).
Proof.
  intros N Hf. induction N as [|a l Ha N IH]; simpl; [constructor|].
  destruct (f a) as [y|] eqn:E; [|done]. constructor; [|done].
  intros (b & Hb & E')%list_elem_of_omap. by rewrite (Hf _ _ _ E E') in Ha.
Qed.

Lemma elem_of_flat_map {A B} (f : A → list B) l x : x ∈ flat_map f l ↔ ∃ a, a ∈ l ∧ x ∈ f a.
Proof.
  rewrite list_elem_of_In, in_flat_map. by setoid_rewrite list_elem_of_In.
Qed.

Lemma usize_try_from_u64 n : u64_ok n → usize_try_from n = Some n.
Proof.
  intros. unfold usize_try_from.
  rewrite (proj2 (Z.leb_le 0 _)), (proj2 (Z.leb_le _ _)) by zbounds. done.
Qed.

Lemma concat_snoc {A} (ls : list (list A)) (l : list A) :
  concat (ls ++ [l]) = concat ls ++ l.
Proof. rewrite concat_app. simpl. by rewrite app_nil_r. Qed.

#[export] Hint Resolve u64_from_len_ok : storage.
#[export] Hint Rewrite @concat_snoc @app_nil_r : storage_rw.
