(* ===== verification/Text.v ===== *)
(** * Rust's [str] as byte strings

    A Rust [String] or [&str] is a UTF-8 byte sequence; the model keeps the
    bytes ([string], a list of [ascii]).  This file defines the [str] methods
    the crate calls, on bytes, and the lemmas the components share. *)
From S2P Require Import Prelude.
From Stdlib Require Import Ascii.

#[local] Open Scope Z_scope.

#[global] Arguments Ascii.eqb : simpl never.
#[global] Arguments String.eqb : simpl never.
#[global] Arguments String.leb : simpl never.
#[global] Arguments String.ltb : simpl never.

(** [s.contains(c)] for an ASCII character. *)
Fixpoint contains_char (c : ascii) (s : string) : bool :=
  match s with
  | EmptyString => false
  | String a s' => Ascii.eqb a c || contains_char c s'
  end.

(** [s.is_empty()]. *)
Definition str_is_empty (s : string) : bool := String.eqb s "".

(** [s.strip_prefix(p)]. *)
Fixpoint strip_prefix (p s : string) : option string :=
  match p, s with
  | EmptyString, _ => Some s
  | String a p', String b s' => if Ascii.eqb a b then strip_prefix p' s' else None
  | String _ _, EmptyString => None
  end.

(** [s.starts_with(p)]. *)
Definition starts_with (p s : string) : bool :=
  match strip_prefix p s with Some _ => true | None => false end.

(** [s.strip_suffix(p)]. *)
Fixpoint strip_suffix (p s : string) : option string :=
  if String.eqb s p then Some ""
  else match s with
       | EmptyString => None
       | String a s' => match strip_suffix p s' with
                        | Some r => Some (String a r)
                        | None => None
                        end
       end.

(** [s.ends_with(p)]. *)
Definition ends_with (p s : string) : bool :=
  match strip_suffix p s with Some _ => true | None => false end.

(** [s.contains(p)] for a string pattern. *)
Fixpoint contains_str (p s : string) : bool :=
  starts_with p s ||
  match s with
  | EmptyString => false
  | String _ s' => contains_str p s'
  end.

(** [s.split(c)], collected. *)
Fixpoint split (c : ascii) (s : string) : list string :=
  match s with
  | EmptyString => [""]
  | String a s' =>
      if Ascii.eqb a c then "" :: split c s'
      else match split c s' with
           | [] => [String a ""]
           | x :: xs => String a x :: xs
           end
  end.

(** [parts.join(sep)]. *)
Fixpoint join (sep : string) (l : list string) : string :=
  match l with
  | [] => ""
  | [x] => x
  | x :: xs => x +:+ sep +:+ join sep xs
  end.

(** [s.rsplit_once(c)]. *)
Fixpoint rsplit_once (c : ascii) (s : string) : option (string * string) :=
  match s with
  | EmptyString => None
  | String a s' =>
      match rsplit_once c s' with
      | Some (l, r) => Some (String a l, r)
      | None => if Ascii.eqb a c then Some ("", s') else None
      end
  end.

(** [c.to_ascii_lowercase()] and [s.to_ascii_lowercase()]. *)
Definition ascii_lower (c : ascii) : ascii :=
  let n := nat_of_ascii c in
  if (Nat.leb 65 n && Nat.leb n 90)%bool then ascii_of_nat (n + 32) else c.

Fixpoint to_ascii_lowercase (s : string) : string :=
  match s with
  | EmptyString => EmptyString
  | String a s' => String (ascii_lower a) (to_ascii_lowercase s')
  end.

(** [s.replace(c, d)] for single characters. *)
Fixpoint replace_char (c d : ascii) (s : string) : string :=
  match s with
  | EmptyString => EmptyString
  | String a s' => String (if Ascii.eqb a c then d else a) (replace_char c d s')
  end.

(** The characters with the Unicode [White_Space] property, which [str::trim]
    removes, by the length of their UTF-8 encoding. *)
Definition byte_is (c : ascii) (n : nat) : bool := Nat.eqb (nat_of_ascii c) n.

Definition byte_in (c : ascii) (lo hi : nat) : bool :=
  (Nat.leb lo (nat_of_ascii c) && Nat.leb (nat_of_ascii c) hi)%bool.

Definition ws1 (a : ascii) : bool := byte_in a 9 13 || byte_is a 32.

Definition ws2 (a b : ascii) : bool :=
  byte_is a 194 && (byte_is b 133 || byte_is b 160).

Definition ws3 (a b c : ascii) : bool :=
  (byte_is a 225 && byte_is b 154 && byte_is c 128) ||
  (byte_is a 226 && byte_is b 128 &&
     (byte_in c 128 138 || byte_is c 168 || byte_is c 169 || byte_is c 175)) ||
  (byte_is a 226 && byte_is b 129 && byte_is c 159) ||
  (byte_is a 227 && byte_is b 128 && byte_is c 128).

(** [s.trim_start()]. *)
Fixpoint trim_start (s : string) : string :=
  match s with
  | EmptyString => EmptyString
  | String a s1 =>
      if ws1 a then trim_start s1
      else match s1 with
           | EmptyString => s
           | String b s2 =>
               if ws2 a b then trim_start s2
               else match s2 with
                    | EmptyString => s
                    | String c s3 => if ws3 a b c then trim_start s3 else s
                    end
           end
  end.

(** [s.trim_end()]: drop the longest suffix made of white space. *)
Fixpoint trim_end (s : string) : string :=
  match s with
  | EmptyString => EmptyString
  | String a s' => if str_is_empty (trim_start s) then EmptyString else String a (trim_end s')
  end.

(** [s.trim()]. *)
Definition trim (s : string) : string := trim_end (trim_start s).

(** [s.trim_start_matches(c)], [s.trim_end_matches(c)] and [s.trim_matches(c)]. *)
Fixpoint trim_start_matches (c : ascii) (s : string) : string :=
  match s with
  | EmptyString => EmptyString
  | String a s' => if Ascii.eqb a c then trim_start_matches c s' else s
  end.

Fixpoint trim_end_matches (c : ascii) (s : string) : string :=
  match s with
  | EmptyString => EmptyString
  | String a s' =>
      let r := trim_end_matches c s' in
      if (Ascii.eqb a c && str_is_empty r)%bool then EmptyString else String a r
  end.

Definition trim_matches (c : ascii) (s : string) : string :=
  trim_end_matches c (trim_start_matches c s).

(** [a <= b] and [a < b] on [&str]: the byte-wise lexicographic order. *)
Definition str_leb (a b : string) : bool := String.leb a b.
Definition str_ltb (a b : string) : bool := String.ltb a b.

(** ** Lemmas *)

Lemma app_nil_l_str s : "" +:+ s = s.
Proof. done. Qed.

Lemma app_cons_str a s t : String a s +:+ t = String a (s +:+ t).
Proof. done. Qed.

Lemma app_nil_r_str s : s +:+ "" = s.
Proof. induction s as [|a s IH]; [done|]. rewrite app_cons_str. by f_equal. Qed.

Lemma app_assoc_str a b c : (a +:+ b) +:+ c = a +:+ b +:+ c.
Proof. induction a as [|x a IH]; [done|]. rewrite !app_cons_str. by f_equal. Qed.

#[export] Hint Rewrite app_nil_r_str app_assoc_str app_cons_str app_nil_l_str : storage_rw.

Lemma length_app_str s t : String.length (s +:+ t) = (String.length s + String.length t)%nat.
Proof. induction s as [|a s IH]; [done|]. rewrite app_cons_str. simpl. by f_equal. Qed.

Lemma str_is_empty_true s : str_is_empty s = true ↔ s = "".
Proof. apply String.eqb_eq. Qed.

Lemma str_is_empty_false s : str_is_empty s = false ↔ s ≠ "".
Proof. apply String.eqb_neq. Qed.

Lemma contains_char_app c s t :
  contains_char c (s +:+ t) = contains_char c s || contains_char c t.
Proof.
  induction s as [|a s IH]; [done|]. rewrite app_cons_str. simpl.
  by rewrite IH, orb_assoc.
Qed.

Lemma strip_prefix_app p s : strip_prefix p (p +:+ s) = Some s.
Proof.
  induction p as [|a p IH]; [done|]. rewrite app_cons_str. simpl.
  by rewrite Ascii.eqb_refl.
Qed.

Lemma strip_prefix_Some p s r : strip_prefix p s = Some r ↔ s = p +:+ r.
Proof.
  split; [|intros ->; apply strip_prefix_app].
  revert s; induction p as [|a p IH]; intros [|b s] H; simplify_eq/=; [done..|].
  destruct (Ascii.eqb_spec a b); simplify_eq/=. rewrite app_cons_str. f_equal. by apply IH.
Qed.

Lemma strip_suffix_Some p s r : strip_suffix p s = Some r ↔ s = r +:+ p.
Proof.
  split.
  - revert r; induction s as [|a s IH]; intros r; simpl.
    + destruct (String.eqb_spec "" p); intros; by simplify_eq.
    + destruct (String.eqb_spec (String a s) p); intros; simplify_eq; [done|].
      destruct (strip_suffix p s) as [q|]; simplify_eq.
      rewrite app_cons_str. f_equal. by apply IH.
  - intros ->. induction r as [|a r IH].
    + rewrite app_nil_l_str. destruct p; simpl; by rewrite ?String.eqb_refl.
    + rewrite app_cons_str. simpl.
      destruct (String.eqb_spec (String a (r +:+ p)) p) as [E|E].
      * exfalso. assert (L : String.length (String a (r +:+ p)) = String.length p) by by rewrite E.
        clear -L. revert L. simpl.
        rewrite length_app_str. lia.
      * by rewrite IH.
Qed.


(** *** [split] and [join] *)

Definition char_str (c : ascii) : string := String c "".

Lemma split_not_nil c s : split c s ≠ [].
Proof.
  induction s as [|a s IH]; simpl; [done|].
  destruct (Ascii.eqb a c); [done|]. by destruct (split c s).
Qed.

Lemma split_cons_sep c s : split c (String c s) = "" :: split c s.
Proof. simpl. by rewrite Ascii.eqb_refl. Qed.

Lemma join_cons sep x l : l ≠ [] → join sep (x :: l) = x +:+ sep +:+ join sep l.
Proof. by destruct l. Qed.

Lemma contains_str_self s : contains_str s s = true.
Proof.
  assert (starts_with s s = true) as E.
  { unfold starts_with. pose proof (strip_prefix_app s "") as E. by rewrite app_nil_r_str in E; rewrite E. }
  by destruct s; cbn [contains_str]; rewrite E.
Qed.

(** A pattern without [c] does not reach over a [c]. *)
Lemma starts_with_sep p c a b :
  contains_char c p = false → starts_with p (a +:+ String c b) = starts_with p a.
Proof.
  revert a. induction p as [|x p IH]; intros [|y a] Hp; try done; simpl in Hp;
    apply orb_false_iff in Hp as [Hx Hp]; unfold starts_with; simpl; [by rewrite Hx|].
  destruct (Ascii.eqb x y); [|done]. by apply IH.
Qed.

Lemma contains_str_sep p c a b :
  p ≠ "" → contains_char c p = false →
  contains_str p (a +:+ String c b) = contains_str p a || contains_str p b.
Proof.
  intros Hne Hp. induction a as [|x a IH].
  - destruct p as [|y p]; [done|]. simpl in Hp. apply orb_false_iff in Hp as [Hy _].
    simpl. unfold starts_with. simpl. by rewrite Hy.
  - change (String x a +:+ String c b) with (String x (a +:+ String c b)). cbn [contains_str].
    rewrite IH. change (String x (a +:+ String c b)) with (String x a +:+ String c b).
    by rewrite starts_with_sep, orb_assoc.
Qed.

Lemma contains_str_join p c l :
  p ≠ "" → contains_char c p = false →
  contains_str p (join (char_str c) l) = existsb (contains_str p) l.
Proof.
  intros Hne Hp. induction l as [|x l IH]; [by destruct p|]. cbn [existsb]. rewrite <- IH.
  destruct l as [|y l]; [simpl; destruct p; [done|by rewrite orb_false_r]|].
  change (join (char_str c) (x :: y :: l)) with (x +:+ String c (join (char_str c) (y :: l))).
  by apply contains_str_sep.
Qed.

Lemma join_split c s : join (char_str c) (split c s) = s.
Proof.
  induction s as [|a s IH]; [done|]. simpl.
  pose proof (split_not_nil c s) as Hn.
  destruct (Ascii.eqb_spec a c) as [->|Ha].
  - rewrite join_cons by done. by rewrite IH.
  - destruct (split c s) as [|x [|y l]]; [done| |]; simpl in *; by rewrite <- IH.
Qed.

Lemma split_no_sep c s : Forall (λ x, contains_char c x = false) (split c s).
Proof.
  induction s as [|a s IH]; simpl; [by repeat constructor|].
  destruct (Ascii.eqb a c) eqn:E; [by constructor|].
  destruct (split c s) as [|x l]; constructor; simpl; rewrite ?E; simpl;
    [done|done|by apply Forall_inv in IH|by apply Forall_inv_tail in IH].
Qed.

Lemma split_id c s : contains_char c s = false → split c s = [s].
Proof.
  induction s as [|a s IH]; simpl; [done|]. intros [H1 H2]%orb_false_iff.
  rewrite H1. by rewrite IH.
Qed.

Lemma split_app c a b : split c (a +:+ String c b) = split c a ++ split c b.
Proof.
  induction a as [|x a IH].
  - rewrite app_nil_l_str, split_cons_sep. done.
  - rewrite app_cons_str. simpl. rewrite IH.
    destruct (Ascii.eqb x c); [done|].
    pose proof (split_not_nil c a). by destruct (split c a).
Qed.

Lemma split_join c l :
  l ≠ [] → Forall (λ x, contains_char c x = false) l → split c (join (char_str c) l) = l.
Proof.
  intros Hn H. induction H as [|x l Hx Hl IH]; [done|].
  destruct l as [|y l]; [by apply split_id|].
  rewrite join_cons by done. unfold char_str at 1. rewrite app_cons_str, app_nil_l_str.
  rewrite split_app, (split_id c x) by done. by rewrite IH.
Qed.

(** *** [rsplit_once] *)

Lemma rsplit_once_None c s : rsplit_once c s = None ↔ contains_char c s = false.
Proof.
  induction s as [|a s IH]; simpl; [done|].
  destruct (rsplit_once c s) as [[l r]|].
  - split; [done|]. intros [_ H]%orb_false_iff. by apply IH in H.
  - rewrite (proj1 IH eq_refl), orb_false_r. by destruct (Ascii.eqb a c).
Qed.

Lemma rsplit_once_Some c s l r :
  rsplit_once c s = Some (l, r) ↔ s = l +:+ String c r ∧ contains_char c r = false.
Proof.
  split.
  - revert l r; induction s as [|a s IH]; simpl; intros l r; [done|].
    destruct (rsplit_once c s) as [[l' r']|] eqn:E.
    + intros; simplify_eq. destruct (IH _ _ eq_refl) as [-> ?]. done.
    + destruct (Ascii.eqb_spec a c); intros; simplify_eq.
      split; [done|]. by apply rsplit_once_None.
  - intros [-> Hr]. induction l as [|a l IH].
    + rewrite app_nil_l_str. simpl. rewrite (proj2 (rsplit_once_None _ _) Hr).
      by rewrite Ascii.eqb_refl.
    + rewrite app_cons_str. simpl. by rewrite IH.
Qed.

(** *** Trimming keeps a piece of the string *)

Lemma trim_start_suffix s : ∃ p, s = p +:+ trim_start s.
Proof.
  assert (H : ∀ n s, (String.length s <= n)%nat → ∃ p, s = p +:+ trim_start s);
    [|by eapply H].
  clear s. induction n as [|n IH]; intros s Hs.
  - destruct s; [by exists ""|simpl in Hs; lia].
  - destruct s as [|a s1]; [by exists ""|]. simpl in *.
    destruct (ws1 a).
    { destruct (IH s1) as [p Hp]; [lia|]. exists (String a p).
      rewrite app_cons_str. by f_equal. }
    destruct s1 as [|b s2]; [by exists ""|]. simpl in Hs.
    destruct (ws2 a b).
    { destruct (IH s2) as [p Hp]; [lia|]. exists (String a (String b p)).
      rewrite !app_cons_str. by do 2 f_equal. }
    destruct s2 as [|c s3]; [by exists ""|]. simpl in Hs.
    destruct (ws3 a b c); [|by exists ""].
    destruct (IH s3) as [p Hp]; [lia|]. exists (String a (String b (String c p))).
    rewrite !app_cons_str. by do 3 f_equal.
Qed.

Lemma trim_end_prefix s : ∃ q, s = trim_end s +:+ q.
Proof.
  induction s as [|a s [q Hq]]; [by exists ""|]. cbn [trim_end].
  destruct (str_is_empty (trim_start (String a s))).
  - exists (String a s). done.
  - exists q. rewrite app_cons_str. by f_equal.
Qed.

Lemma trim_infix s : ∃ p q, s = p +:+ trim s +:+ q.
Proof.
  destruct (trim_start_suffix s) as [p Hp].
  destruct (trim_end_prefix (trim_start s)) as [q Hq].
  exists p, q. unfold trim. by rewrite <- Hq.
Qed.

Lemma trim_contains c s : contains_char c s = false → contains_char c (trim s) = false.
Proof.
  destruct (trim_infix s) as (p & q & Hs). rewrite Hs at 1.
  rewrite !contains_char_app. by intros [_ [? _]%orb_false_iff]%orb_false_iff.
Qed.

(** *** ASCII case *)

Definition not_letter (c : ascii) : bool := negb (byte_in c 65 90) && negb (byte_in c 97 122).

Lemma ascii_lower_eqb a d : not_letter d = true → Ascii.eqb (ascii_lower a) d = Ascii.eqb a d.
Proof.
  unfold not_letter, byte_in, ascii_lower. intros [H1 H2]%andb_prop.
  destruct (Nat.leb_spec 65 (nat_of_ascii a)), (Nat.leb_spec (nat_of_ascii a) 90);
    simpl; try done.
  assert (E : nat_of_ascii (ascii_of_nat (nat_of_ascii a + 32)) = (nat_of_ascii a + 32)%nat)
    by (apply nat_ascii_embedding; lia).
  destruct (Ascii.eqb_spec (ascii_of_nat (nat_of_ascii a + 32)) d) as [E1|],
    (Ascii.eqb_spec a d) as [E2|]; try done; subst d.
  - rewrite E in H2. apply negb_true_iff, andb_false_iff in H2 as [?%Nat.leb_gt|?%Nat.leb_gt]; lia.
  - apply negb_true_iff, andb_false_iff in H1 as [?%Nat.leb_gt|?%Nat.leb_gt]; lia.
Qed.

Lemma lowercase_contains d s :
  not_letter d = true → contains_char d (to_ascii_lowercase s) = contains_char d s.
Proof.
  intros Hd. induction s as [|a s IH]; simpl; [done|]. by rewrite ascii_lower_eqb, IH.
Qed.

Lemma lowercase_length s : String.length (to_ascii_lowercase s) = String.length s.
Proof. induction s as [|a s IH]; simpl; by f_equal. Qed.

Lemma lowercase_empty s : to_ascii_lowercase s = "" ↔ s = "".
Proof. by destruct s. Qed.

(** *** The order *)

Lemma str_leb_le a b : str_leb a b = true ↔ String.le a b.
Proof. unfold String.le, str_leb. by rewrite Is_true_true. Qed.

Lemma str_ltb_leb a b : str_ltb a b = negb (str_leb b a).
Proof.
  unfold str_ltb, str_leb, String.ltb, String.leb.
  rewrite (String.compare_antisym b a). by destruct (String.compare a b).
Qed.

(** *** Comparing by prefixes *)

Lemma compare_app p a b : String.compare (p +:+ a) (p +:+ b) = String.compare a b.
Proof.
  induction p as [|c p IH]; [done|]. rewrite !app_cons_str. simpl.
  assert (Ascii.compare c c = Eq) as ->; [|done].
  pose proof (Ascii.compare_antisym c c) as H. by destruct (Ascii.compare c c).
Qed.

Lemma str_ltb_compare a b : str_ltb a b = true ↔ String.compare a b = Lt.
Proof. unfold str_ltb, String.ltb. by destruct (String.compare a b). Qed.

(** A smaller string is a proper prefix or smaller at the first difference. *)
Lemma str_leb_cases a b :
  str_leb a b = true → a ≠ b →
  (∃ ch rest, b = a +:+ String ch rest) ∨
  (∃ p c r d s, a = p +:+ String c r ∧ b = p +:+ String d s ∧ Ascii.compare c d = Lt).
Proof.
  unfold str_leb, String.leb. revert b.
  induction a as [|x a IH]; intros [|y b] H Hne; try done.
  - left. by exists y, b.
  - simpl in H. destruct (Ascii.compare x y) eqn:E; [| |done].
    + apply Ascii.compare_eq_iff in E as ->.
      destruct (IH b) as [(ch & rest & ->)|(p & c & r & d & s & -> & -> & Hc)];
        [done|congruence| |].
      * left. by exists ch, rest.
      * right. by exists (String y p), c, r, d, s.
    + right. by exists "", x, a, y, b.
Qed.

Lemma join_app sep d a x :
  join sep (d ++ a :: x) =
  (match d with [] => "" | _ => join sep d +:+ sep end) +:+ a +:+
  (match x with [] => "" | _ => sep +:+ join sep x end).
Proof.
  induction d as [|y d IH].
  - destruct x as [|z x]; simpl; [by rewrite app_nil_r_str|done].
  - change ((y :: d) ++ a :: x) with (y :: (d ++ a :: x)).
    rewrite join_cons by by destruct d. rewrite IH. destruct d as [|z d].
    + simpl. by rewrite !app_nil_l_str, !app_assoc_str.
    + rewrite (join_cons sep y) by done. by rewrite !app_assoc_str.
Qed.

Lemma replace_char_id c d s : contains_char c s = false → replace_char c d s = s.
Proof.
  induction s as [|a s IH]; simpl; [done|]. rewrite orb_false_iff. intros [Ha Hs].
  rewrite IH by done. by rewrite Ha.
Qed.
