(* ===== verification/Errors.v ===== *)
(** * The error model (src/src/error.rs)

    [StorageError] with its constructors and fields, [is_retryable], and the
    [Display] text [thiserror] derives from the [#[error(...)]] attributes. *)
From S2P Require Import Prelude Text.
(** [std::io::ErrorKind], as far as the crate and the file system name it. *)
Inductive ErrorKind : Type :=
| NotFound | PermissionDenied | ConnectionRefused | ConnectionReset | ConnectionAborted
| NotConnected | AddrInUse | BrokenPipe | AlreadyExists | WouldBlock | NotADirectory
| IsADirectory | DirectoryNotEmpty | ReadOnlyFilesystem | InvalidInput | InvalidData
| TimedOut | WriteZero | StorageFull | QuotaExceeded | Interrupted | Unsupported
| UnexpectedEof | OutOfMemory | Other.

#[export] Instance ErrorKind_eq_dec : EqDecision ErrorKind.
Proof. solve_decision. Defined.

(** [std::io::Error]: its kind and its text. *)
Record IoError : Type := mkIoError {
  io_kind : ErrorKind;
  io_text : string;
}.

#[export] Instance IoError_eq_dec : EqDecision IoError.
Proof. solve_decision. Defined.

(** [std::path::PathBuf] of an absolute Unix path: its components below [/]. *)
Abbreviation PathBuf := (list string).

(** [pub enum StorageProviderErrorKind]. *)
Inductive StorageProviderErrorKind : Type :=
| Connectivity
| Authentication
| SecurityNegotiation
| ContainerNotFound
| KindPermissionDenied
| RemotePathNotFound
| Capacity
| ConditionalCreateConflict
| Timeout
| ConnectionLost
| Protocol.

#[export] Instance StorageProviderErrorKind_eq_dec : EqDecision StorageProviderErrorKind.
Proof. solve_decision. Defined.

(** [pub enum StorageError]. *)
Inductive StorageError : Type :=
| UnsupportedBackend (backend : string)
| Provider (backend message : string) (retryable : bool)
| RemoteProvider (backend : string) (kind : StorageProviderErrorKind)
    (operation message : string) (retryable : bool)
| InvalidStorageKey (key : string)
| MissingBlob (key : string)
| PreconditionFailed (key condition : string)
| MissingParent (path : PathBuf)
| Io (path : PathBuf) (source : IoError).

#[export] Instance StorageError_eq_dec : EqDecision StorageError.
Proof. solve_decision. Defined.

Definition is_retryable (e : StorageError) : bool :=
  match e with
  | Provider _ _ retryable => retryable
  | RemoteProvider _ _ _ _ retryable => retryable
  | Io _ _ => true
  | UnsupportedBackend _ | InvalidStorageKey _ | MissingBlob _
  | PreconditionFailed _ _ | MissingParent _ => false
  end.

(** [StorageError::io(path, source)]. *)
Definition storage_io (path : PathBuf) (source : IoError) : StorageError := Io path source.

(** The derived [Display]; [path_debug] is [{path:?}] of the standard
    library. *)
Section Display.
Context (path_debug : PathBuf → string).

Definition error_to_string (e : StorageError) : string :=
  match e with
  | UnsupportedBackend backend => "unsupported storage backend: " +:+ backend
  | Provider backend message _ =>
      "storage provider error for " +:+ backend +:+ ": " +:+ message
  | RemoteProvider backend _ operation message _ =>
      "remote storage provider error for " +:+ backend +:+ " during " +:+ operation +:+
        ": " +:+ message
  | InvalidStorageKey key => "invalid storage key: " +:+ key
  | MissingBlob key => "storage blob is missing: " +:+ key
  | PreconditionFailed key condition =>
      "storage precondition failed for " +:+ key +:+ ": " +:+ condition
  | MissingParent path => "local storage path has no parent: " +:+ path_debug path
  | Io path _ => "storage io error at " +:+ path_debug path
  end.
End Display.

(** [Result<T, StorageError>]. *)
Abbreviation storage_result A := (result A StorageError).
Abbreviation io_result A := (result A IoError).
