(* ===== verification/Providers.v ===== *)
(** * Provider and namespace identifiers (src/src/backend.rs) *)
From S2P Require Import Prelude Text Errors.
(** [pub enum StorageBackend]. *)
Inductive StorageBackend : Type := Local | S3 | AzureBlob | Smb.

#[export] Instance StorageBackend_eq_dec : EqDecision StorageBackend.
Proof. solve_decision. Defined.

Definition backend_as_str (b : StorageBackend) : string :=
  match b with
  | Local => "local"
  | S3 => "s3"
  | AzureBlob => "azure_blob"
  | Smb => "smb"
  end.

(** [impl FromStr for StorageBackend]. *)
Definition backend_match (other : string) : storage_result StorageBackend :=
  if String.eqb other "local" then Ok Local
  else if String.eqb other "s3" || String.eqb other "s3-compatible"
          || String.eqb other "s3_compatible" then Ok S3
  else if String.eqb other "azure_blob" || String.eqb other "azure-blob"
          || String.eqb other "azureblob" then Ok AzureBlob
  else if String.eqb other "smb" || String.eqb other "smb2" || String.eqb other "smb3"
       then Ok Smb
  else Err (UnsupportedBackend other).

Definition backend_from_str (value : string) : storage_result StorageBackend :=
  backend_match (to_ascii_lowercase (trim value)).

(** [pub enum StorageNamespace]. *)
Inductive StorageNamespace : Type :=
  Originals | RecycleBin | Thumbnails | Derivatives | Exports | Temp.

#[export] Instance StorageNamespace_eq_dec : EqDecision StorageNamespace.
Proof. solve_decision. Defined.

Definition namespace_as_str (n : StorageNamespace) : string :=
  match n with
  | Originals => "originals"
  | RecycleBin => "recycle_bin"
  | Thumbnails => "thumbnails"
  | Derivatives => "derivatives"
  | Exports => "exports"
  | Temp => "temp"
  end.

Definition unsupported_backend (b : StorageBackend) : StorageError :=
  UnsupportedBackend (backend_as_str b).

(** The accepted spellings of each provider. *)
Definition backend_aliases (b : StorageBackend) : list string :=
  match b with
  | Local => ["local"]
  | S3 => ["s3"; "s3-compatible"; "s3_compatible"]
  | AzureBlob => ["azure_blob"; "azure-blob"; "azureblob"]
  | Smb => ["smb"; "smb2"; "smb3"]
  end.

Lemma backend_match_alias name b : name ∈ backend_aliases b → backend_match name = Ok b.
Proof.
  intros H%list_elem_of_In.
  destruct b; simpl in H; repeat (destruct H as [<-|H]; [done|]); done.
Qed.

Lemma backend_match_unknown name :
  (∀ b, name ∉ backend_aliases b) → backend_match name = Err (UnsupportedBackend name).
Proof.
  intros H. unfold backend_match.
  assert (N : ∀ b x, x ∈ backend_aliases b → String.eqb name x = false).
  { intros b x Hx. apply String.eqb_neq. intros ->. by apply (H b). }
  rewrite (N Local), (N S3 "s3"), (N S3 "s3-compatible"), (N S3 "s3_compatible"),
    (N AzureBlob "azure_blob"), (N AzureBlob "azure-blob"), (N AzureBlob "azureblob"),
    (N Smb "smb"), (N Smb "smb2"), (N Smb "smb3") by (simpl; rewrite ?elem_of_cons; tauto).
  done.
Qed.

(** Parsing a provider name accepts exactly the aliases of each provider,
    up to surrounding white space and ASCII case, and names the normalised
    text in the error otherwise. *)
Theorem backend_from_str_spec (value : string) :
  let name := to_ascii_lowercase (trim value) in
  (∀ b, backend_from_str value = Ok b ↔ name ∈ backend_aliases b) ∧
  (backend_from_str value = Err (UnsupportedBackend name) ↔ ∀ b, name ∉ backend_aliases b).
Proof.
  intros name. unfold backend_from_str. fold name.
  destruct (find (λ b, bool_decide (name ∈ backend_aliases b)) [Local; S3; AzureBlob; Smb])
    as [b|] eqn:E.
  - apply find_some in E as [_ Hb%bool_decide_eq_true_1].
    rewrite (backend_match_alias _ _ Hb). split.
    + intros c. split; [by intros [= ->]|]. intros Hc%backend_match_alias.
      rewrite <- Hc. symmetry. by apply backend_match_alias.
    + split; [done|]. intros H. by apply H in Hb.
  - assert (Hn : ∀ b, name ∉ backend_aliases b).
    { intros b Hb. eapply find_none with (x := b) in E; [|destruct b; simpl; tauto].
      by rewrite bool_decide_true in E. }
    rewrite (backend_match_unknown _ Hn). split; [|done].
    intros b. split; [done|]. intros Hb. by apply Hn in Hb.
Qed.

(** The persisted provider name parses back to the provider. *)
Theorem backend_str_roundtrip (b : StorageBackend) : backend_from_str (backend_as_str b) = Ok b.
Proof. by destruct b. Qed.

Lemma namespace_as_str_inj n m : namespace_as_str n = namespace_as_str m → n = m.
Proof. by destruct n, m. Qed.
