(* ===== verification/Externals.v ===== *)
(** * What the crate takes from its dependencies

    [uuid], [sha2] and [time] are not part of the repository: their types and
    functions are the fields of the class [Externals], and the documented
    behaviour the theorems rely on is the class [ExternalsLaws].  Nothing in
    the development defines them, except the concrete instance the witnesses
    use at the end of this file. *)
From S2P Require Import Prelude Text.
From Stdlib Require Import Ascii.

Abbreviation bytes := (list Byte.byte).

(** The hyphenated lower-case text form of a UUID: 8-4-4-4-12 hexadecimal
    digits. *)
Definition hex_digit (c : ascii) : bool := byte_in c 48 57 || byte_in c 97 102.

Fixpoint all_chars (P : ascii → bool) (s : string) : bool :=
  match s with
  | EmptyString => true
  | String a s' => P a && all_chars P s'
  end.

Definition hex_group (n : nat) (s : string) : bool :=
  Nat.eqb (String.length s) n && all_chars hex_digit s.

Definition uuid_hyphenated (s : string) : bool :=
  match split "-"%char s with
  | [a; b; c; d; e] =>
      hex_group 8 a && hex_group 4 b && hex_group 4 c && hex_group 4 d && hex_group 12 e
  | _ => false
  end.

Class Externals : Type := {
  (** [uuid::Uuid], [Uuid::to_string], [Uuid::parse_str(s).is_ok()] and
      [Uuid::as_bytes]. *)
  Uuid : Type;
  uuid_to_string : Uuid → string;
  uuid_parse_ok : string → bool;
  uuid_as_bytes : Uuid → bytes;
  (** [sha2::Sha256]: [new], [update], and [format!("{:x}", finalize())]. *)
  Sha256 : Type;
  sha256_new : Sha256;
  sha256_update : Sha256 → bytes → Sha256;
  sha256_finalize_hex : Sha256 → string;
  (** [time::OffsetDateTime] and its conversion from [SystemTime] (nanoseconds
      since the epoch). *)
  OffsetDateTime : Type;
  datetime_from : Z → OffsetDateTime;
}.

Class ExternalsLaws `{EX : Externals} : Prop := {
  uuid_text_shape : ∀ u : Uuid, uuid_hyphenated (uuid_to_string u) = true;
  uuid_text_inj : ∀ u v : Uuid, uuid_to_string u = uuid_to_string v → u = v;
  uuid_parse_text : ∀ u : Uuid, uuid_parse_ok (uuid_to_string u) = true;
  sha256_incremental : ∀ chunks : list bytes,
    sha256_finalize_hex (foldl sha256_update sha256_new chunks) =
    sha256_finalize_hex (sha256_update sha256_new (concat chunks));
}.

(** ** Facts about the text form *)

Lemma all_chars_contains P c s :
  all_chars P s = true → P c = false → contains_char c s = false.
Proof.
  intros H Hc. induction s as [|a s IH]; [done|]. simpl in *.
  apply andb_prop in H as [Ha Hs]. rewrite IH by done.
  destruct (Ascii.eqb_spec a c); [congruence|done].
Qed.

Lemma all_chars_app P s t : all_chars P (s +:+ t) = all_chars P s && all_chars P t.
Proof.
  induction s as [|a s IH]; [done|]. rewrite app_cons_str. simpl. by rewrite IH, andb_assoc.
Qed.

Definition uuid_char (c : ascii) : bool := hex_digit c || Ascii.eqb c "-".

Lemma all_chars_impl (P Q : ascii → bool) s :
  (∀ c, P c = true → Q c = true) → all_chars P s = true → all_chars Q s = true.
Proof.
  intros H. induction s as [|a s IH]; [done|]. simpl.
  intros [??]%andb_prop. by rewrite H, IH.
Qed.

(** A hyphenated UUID is [a-b-c-d-e] with an 8-digit first group. *)
Lemma uuid_hyphenated_inv s :
  uuid_hyphenated s = true →
  ∃ a r, s = a +:+ String "-" r ∧ hex_group 8 a = true ∧ all_chars uuid_char s = true ∧
    String.length s = 36%nat.
Proof.
  unfold uuid_hyphenated. intros H. pose proof (join_split "-" s) as J.
  destruct (split "-" s) as [|a [|b [|c [|d [|e [|? ?]]]]]]; try done.
  apply andb_prop in H as [H He]. apply andb_prop in H as [H Hd].
  apply andb_prop in H as [H Hc]. apply andb_prop in H as [Ha Hb]. simpl in J.
  exists a, (b +:+ "-" +:+ c +:+ "-" +:+ d +:+ "-" +:+ e). split_and!.
  - by rewrite <- J.
  - assumption.
  - assert (W : ∀ n x, hex_group n x = true → all_chars uuid_char x = true).
    { intros n x [_ Hx]%andb_prop. eapply all_chars_impl; [|exact Hx].
      intros ch Hch. unfold uuid_char. by rewrite Hch. }
    rewrite <- J. rewrite !all_chars_app.
    by rewrite (W _ _ Ha), (W _ _ Hb), (W _ _ Hc), (W _ _ Hd), (W _ _ He).
  - assert (W : ∀ n x, hex_group n x = true → String.length x = n)
      by (intros n x [?%Nat.eqb_eq _]%andb_prop; done).
    rewrite <- J. rewrite !length_app_str.
    by rewrite (W _ _ Ha), (W _ _ Hb), (W _ _ Hc), (W _ _ Hd), (W _ _ He).
Qed.

(** ** The instance the witnesses use

    A UUID is its text; the digest is the hexadecimal length of the input. *)
Module Concrete.
Definition uuid : Type := { s : string | uuid_hyphenated s = true }.

Definition text (u : uuid) : string := proj1_sig u.

Lemma text_inj (u v : uuid) : text u = text v → u = v.
Proof.
  destruct u as [s Hs], v as [t Ht]; simpl; intros ->.
  f_equal. apply (Eqdep_dec.UIP_dec bool_dec).
Qed.

(** A digest of 8 bits is enough for an example: the sum of the bytes in
    unary. *)
Fixpoint unary (n : nat) : string :=
  match n with 0%nat => "" | S n => String "1" (unary n) end.

#[export] Instance externals : Externals := {|
  Uuid := uuid;
  uuid_to_string := text;
  uuid_parse_ok := uuid_hyphenated;
  uuid_as_bytes := λ _, [];
  Sha256 := bytes;
  sha256_new := [];
  sha256_update := λ h b, h ++ b;
  sha256_finalize_hex := λ h, unary (length h);
  OffsetDateTime := Z;
  datetime_from := λ t, t;
|}.

#[export] Instance externals_laws : ExternalsLaws.
Proof.
  constructor.
  - by intros [s Hs].
  - apply text_inj.
  - by intros [s Hs].
  - intros chunks. cbn. do 2 f_equal.
    assert (G : ∀ h, foldl (λ h b : bytes, h ++ b) h chunks = h ++ concat chunks); [|by apply G].
    induction chunks as [|c cs IH]; intros h; simpl; [by rewrite app_nil_r|].
    by rewrite IH, <- app_assoc.
Qed.

Definition uuid1 : uuid := exist _ "6c57a6cc-09e6-4a7f-a320-2f2bde4cfd86" eq_refl.
Definition uuid2 : uuid := exist _ "aaaaaaaa-aaaa-4aaa-aaaa-aaaaaaaaaaaa" eq_refl.
End Concrete.
