(* ===== verification/Paths.v ===== *)
(** * Unix paths (std::path), as far as the crate uses them *)
From S2P Require Import Prelude Text Errors.
From Stdlib Require Import Ascii.

(** [std::path::Component]; the [Prefix] component exists on Windows only. *)
Inductive Component : Type :=
| RootDir
| CurDir
| ParentDir
| Normal (name : string).

(** [Path::is_absolute]. *)
Definition path_is_absolute (s : string) : bool := starts_with "/" s.

(** [Path::components]: repeated separators and inner [.] components vanish. *)
Definition component_of (x : string) : list Component :=
  if String.eqb x "" || String.eqb x "." then []
  else if String.eqb x ".." then [ParentDir]
  else [Normal x].

Definition path_components (s : string) : list Component :=
  if str_is_empty s then []
  else (if path_is_absolute s then [RootDir]
        else if String.eqb (default "" (head (split "/" s))) "." then [CurDir] else [])
       ++ concat (map component_of (split "/" s)).

(** The components of [s] as names; [..] is kept, as [PathBuf] keeps it. *)
Definition component_name (c : Component) : list string :=
  match c with
  | RootDir | CurDir => []
  | ParentDir => [".."]
  | Normal x => [x]
  end.

Definition path_names (s : string) : list string :=
  concat (map component_name (path_components s)).

(** [path.join(s)]: an absolute [s] replaces [path]. *)
Definition path_join (p : PathBuf) (s : string) : PathBuf :=
  if path_is_absolute s then path_names s else p ++ path_names s.

(** [path.parent()], [path.file_name()] (as a [&str]) and
    [path.with_file_name(n)]. *)
Definition path_parent (p : PathBuf) : option PathBuf :=
  match p with [] => None | _ => Some (removelast p) end.

Definition path_file_name (p : PathBuf) : option string :=
  match last p with
  | Some x => if String.eqb x ".." then None else Some x
  | None => None
  end.

Definition path_with_file_name (p : PathBuf) (n : string) : PathBuf :=
  match path_file_name p with
  | Some _ => removelast p ++ [n]
  | None => p ++ [n]
  end.

(** [path.strip_prefix(base)]. *)
Fixpoint path_strip_prefix (base p : PathBuf) : option PathBuf :=
  match base, p with
  | [], _ => Some p
  | x :: base', y :: p' => if String.eqb x y then path_strip_prefix base' p' else None
  | _ :: _, [] => None
  end.

(** [relative.to_string_lossy()] of a relative path. *)
Definition path_to_string (p : PathBuf) : string := join "/" p.

(** ** Lemmas *)

Lemma path_strip_prefix_app base p : path_strip_prefix base (base ++ p) = Some p.
Proof. induction base as [|x base IH]; simpl; [done|]. by rewrite String.eqb_refl. Qed.

Lemma path_strip_prefix_Some base p r : path_strip_prefix base p = Some r ↔ p = base ++ r.
Proof.
  split; [|intros ->; apply path_strip_prefix_app].
  revert p; induction base as [|x base IH]; intros [|y p]; simpl; intros; simplify_eq; [done..|].
  destruct (String.eqb_spec x y); simplify_eq. f_equal. by apply IH.
Qed.

Lemma path_file_name_snoc p x : x ≠ ".." → path_file_name (p ++ [x]) = Some x.
Proof.
  intros Hx. unfold path_file_name. rewrite last_snoc.
  by rewrite (proj2 (String.eqb_neq _ _)).
Qed.

Lemma removelast_snoc {A} (l : list A) x : removelast (l ++ [x]) = l.
Proof. rewrite removelast_app by done. simpl. by rewrite app_nil_r. Qed.

Lemma path_parent_snoc p x : path_parent (p ++ [x]) = Some p.
Proof.
  unfold path_parent. destruct (p ++ [x]) eqn:E; [by apply app_nil in E as [??]|].
  by rewrite <- E, removelast_snoc.
Qed.

Lemma path_with_file_name_snoc p x n :
  x ≠ ".." → path_with_file_name (p ++ [x]) n = p ++ [n].
Proof.
  intros. unfold path_with_file_name. by rewrite path_file_name_snoc, removelast_snoc.
Qed.

#[export] Hint Rewrite @removelast_snoc path_parent_snoc path_strip_prefix_app : storage_rw.
