(* ===== verification/Keys.v ===== *)
(** * Keys: generation and validation

    src/src/key.rs ([build_storage_key], [file_extension]), the validators of
    src/src/blob.rs ([validate_blob_key], [validate_blob_prefix]) and of
    src/src/streaming_object.rs ([validate_object_bucket]). *)
From S2P Require Import Prelude Text Errors Providers Externals Paths.
From Stdlib Require Import Ascii.

Definition NUL : ascii := "000"%char.
Definition BACKSLASH : ascii := "092"%char.

(** [&s[i..j]]: [None] is the panic on a range that is out of bounds or not on
    a character boundary. *)
Definition is_char_boundary (s : string) (i : nat) : bool :=
  Nat.eqb i 0 || Nat.eqb i (String.length s) ||
  match String.get i s with Some c => negb (byte_in c 128 191) | None => false end.

Definition str_slice (s : string) (i j : nat) : option string :=
  if Nat.leb i j && is_char_boundary s i && is_char_boundary s j
  then Some (String.substring i (j - i) s) else None.

Section Generation.
Context `{EX : Externals}.

(** [build_storage_key]; [None] is a slicing panic. *)
Definition build_storage_key (namespace : StorageNamespace) (object_id : Uuid)
    (extension : option string) : option string :=
  let object_text := uuid_to_string object_id in
  shard_a ← str_slice object_text 0 2;
  shard_b ← str_slice object_text 2 4;
  let file_name :=
    match extension with
    | Some ext => if negb (str_is_empty ext)
                  then object_text +:+ "." +:+ to_ascii_lowercase ext
                  else object_text
    | None => object_text
    end in
  Some (namespace_as_str namespace +:+ "/" +:+ shard_a +:+ "/" +:+ shard_b +:+ "/"
          +:+ file_name).
End Generation.

Definition file_extension (file_name : string) : option string :=
  match rsplit_once "."%char file_name with
  | None => None
  | Some (_, r) =>
      let candidate := trim r in
      if str_is_empty candidate || contains_char "/" candidate
         || contains_char BACKSLASH candidate || contains_char NUL candidate
      then None else Some candidate
  end.

(** ** Validation *)

Definition invalid_key {A} (key : string) : storage_result A := Err (InvalidStorageKey key).

Definition bad_segment (component : string) : bool :=
  str_is_empty component || String.eqb component "." || String.eqb component "..".

Definition is_normal (c : Component) : bool :=
  match c with Normal _ => true | _ => false end.

Definition validate_blob_key (key : string) : storage_result unit :=
  if str_is_empty key || contains_char BACKSLASH key || contains_char NUL key
     || existsb bad_segment (split "/" key)
  then invalid_key key
  else if path_is_absolute key then invalid_key key
  else if forallb is_normal (path_components key) then Ok tt
  else invalid_key key.

Definition validate_blob_prefix (prefix : string) : storage_result unit :=
  if str_is_empty prefix then Ok tt else validate_blob_key prefix.

Definition validate_object_bucket (bucket : string) : storage_result unit :=
  match validate_blob_key bucket with
  | Ok _ => if contains_char "/" bucket then invalid_key bucket else Ok tt
  | Err e => Err e
  end.

(** ** What the validators promise *)

(** A segment that names an entry of a directory and nothing else. *)
Definition safe_segment (x : string) : Prop :=
  x ≠ "" ∧ x ≠ "." ∧ x ≠ ".." ∧
  contains_char "/" x = false ∧ contains_char BACKSLASH x = false ∧ contains_char NUL x = false.

Definition key_safe (key : string) : Prop := Forall safe_segment (split "/" key).

Lemma bad_segment_false x : bad_segment x = false ↔ x ≠ "" ∧ x ≠ "." ∧ x ≠ "..".
Proof.
  unfold bad_segment. rewrite !orb_false_iff, str_is_empty_false, !String.eqb_neq. tauto.
Qed.

Lemma component_of_safe x : safe_segment x → component_of x = [Normal x].
Proof.
  intros (?&?&?&_). unfold component_of. by rewrite !(proj2 (String.eqb_neq _ _)).
Qed.

Lemma contains_split c x s :
  c ≠ "/"%char → contains_char c s = false → x ∈ split "/" s → contains_char c x = false.
Proof.
  intros Hc H Hx. rewrite <- (join_split "/" s) in H. revert H Hx.
  generalize (split "/" s) as l. induction l as [|y l IH]; [by intros _ ?%not_elem_of_nil|].
  destruct l as [|z l].
  - simpl. by intros ? ->%list_elem_of_singleton.
  - rewrite join_cons by done. rewrite !contains_char_app, !orb_false_iff.
    intros (?&_&?) [->|?]%elem_of_cons; [done|]. by apply IH.
Qed.

Lemma key_safe_nonempty s : key_safe s → s ≠ "".
Proof. intros Hk ->. by apply Forall_inv in Hk as [? _]. Qed.

Lemma key_safe_chars key c :
  key_safe key → c = BACKSLASH ∨ c = NUL → contains_char c key = false.
Proof.
  unfold key_safe. intros H Hc. rewrite <- (join_split "/" key).
  induction H as [|x l Hx Hl IH]; [done|].
  assert (contains_char c x = false) by (destruct Hx as (?&?&?&?&?&?), Hc as [->| ->]; done).
  destruct l as [|y l]; [done|]. rewrite join_cons by done.
  rewrite !contains_char_app. rewrite IH. destruct Hc as [->| ->]; by rewrite H.
Qed.

Lemma key_safe_head_not_slash key : key_safe key → path_is_absolute key = false.
Proof.
  unfold path_is_absolute, starts_with. destruct key as [|a s]; [done|]. intros H. simpl.
  destruct (Ascii.eqb_spec "/" a) as [<-|]; [|done].
  unfold key_safe in H. rewrite split_cons_sep in H. by apply Forall_inv in H as [? _].
Qed.

(** A safe key is its list of plain components. *)
Lemma key_safe_components key :
  key_safe key → path_components key = map Normal (split "/" key).
Proof.
  intros H. unfold path_components.
  pose proof (key_safe_head_not_slash _ H) as ->.
  destruct (str_is_empty key) eqn:E.
  { apply str_is_empty_true in E as ->. by apply Forall_inv in H as [? _]. }
  assert (S : String.eqb (default "" (head (split "/" key))) "." = false).
  { unfold key_safe in H. destruct (split "/" key) as [|x l]; [done|].
    apply Forall_inv in H as (?&?&_). by apply String.eqb_neq. }
  rewrite S. simpl. unfold key_safe in H. clear E S. revert H.
  generalize (split "/" key) as l. clear key. induction 1 as [|x l Hx Hl IH]; [done|].
  simpl. by rewrite component_of_safe, IH.
Qed.

Lemma path_names_safe key : key_safe key → path_names key = split "/" key.
Proof.
  intros H. unfold path_names. rewrite key_safe_components by done.
  induction (split "/" key) as [|x l IH]; [done|]. simpl. by f_equal.
Qed.

Lemma path_join_safe p key : key_safe key → path_join p key = p ++ split "/" key.
Proof.
  intros H. unfold path_join. by rewrite key_safe_head_not_slash, path_names_safe.
Qed.

Lemma split_inj c s t : split c s = split c t → s = t.
Proof. intros H. by rewrite <- (join_split c s), H, join_split. Qed.

Lemma key_safe_iff_checks key :
  key_safe key ↔
  str_is_empty key || contains_char BACKSLASH key || contains_char NUL key
     || existsb bad_segment (split "/" key) = false.
Proof.
  rewrite !orb_false_iff. split.
  - intros H. split_and!.
    + apply str_is_empty_false. intros ->. by apply Forall_inv in H as [? _].
    + apply key_safe_chars; auto.
    + apply key_safe_chars; auto.
    + unfold key_safe in H. induction H as [|x l Hx Hl IH]; [done|]. simpl.
      rewrite IH, orb_false_r. apply bad_segment_false. by destruct Hx as (?&?&?&_).
  - intros [[[_ Hb] Hn] He]. apply Forall_forall. intros x Hx.
    assert (B : bad_segment x = false).
    { destruct (bad_segment x) eqn:Eb; [|done]. rewrite <- He. symmetry. apply existsb_exists.
      exists x. split; [by apply list_elem_of_In|done]. }
    apply bad_segment_false in B as (?&?&?). split_and!; try done.
    + pose proof (split_no_sep "/" key) as Hs. by eapply Forall_forall in Hs.
    + by eapply contains_split.
    + by eapply contains_split.
Qed.

#[export] Instance key_safe_dec key : Decision (key_safe key).
Proof.
  refine (cast_if (decide
    (str_is_empty key || contains_char BACKSLASH key || contains_char NUL key
     || existsb bad_segment (split "/" key) = false))); by rewrite key_safe_iff_checks.
Defined.

Lemma validate_blob_key_safe key : key_safe key → validate_blob_key key = Ok tt.
Proof.
  intros H. unfold validate_blob_key. rewrite (proj1 (key_safe_iff_checks key) H).
  rewrite key_safe_head_not_slash, key_safe_components by done.
  assert (forallb is_normal (map Normal (split "/" key)) = true) as ->; [|done].
  by induction (split "/" key).
Qed.

Lemma validate_blob_key_unsafe key : ¬ key_safe key → validate_blob_key key = invalid_key key.
Proof.
  intros H. unfold validate_blob_key. rewrite key_safe_iff_checks in H.
  apply not_false_is_true in H. by rewrite H.
Qed.

Lemma validate_ok_iff key : validate_blob_key key = Ok tt ↔ key_safe key.
Proof.
  destruct (decide (key_safe key)) as [Hk|Hk].
  - by rewrite validate_blob_key_safe.
  - rewrite validate_blob_key_unsafe by done. done.
Qed.

Lemma validate_ok_safe key : validate_blob_key key = Ok tt → key_safe key.
Proof. apply validate_ok_iff. Qed.

(** C35: a key passes validation exactly when every ['/']-separated segment is
    non-empty, is not [.] or [..], and holds no backslash or NUL; otherwise the
    error carries the key.  An accepted key is a relative path of plain
    components that spells the key again, so joining it to a root stays below
    the root and different keys give different paths. *)
Theorem validate_blob_key_spec (key : string) :
  (validate_blob_key key = Ok tt ↔ key_safe key) ∧
  (¬ key_safe key → validate_blob_key key = Err (InvalidStorageKey key)) ∧
  (∀ root : PathBuf, validate_blob_key key = Ok tt →
     path_join root key = root ++ split "/" key ∧
     path_components key = map Normal (split "/" key) ∧
     join "/" (split "/" key) = key) ∧
  (∀ (root : PathBuf) key', validate_blob_key key = Ok tt → validate_blob_key key' = Ok tt →
     path_join root key = path_join root key' → key = key').
Proof.
  pose proof validate_ok_iff as I.
  split_and!.
  - apply I.
  - intros H. by apply validate_blob_key_unsafe.
  - intros root H%I. split_and!; [by apply path_join_safe|by apply key_safe_components|].
    apply (join_split "/").
  - intros root key' H%I H'%I. rewrite !path_join_safe by done.
    intros E%app_inv_head. by apply split_inj in E.
Qed.

(** ** Buckets *)

Lemma contains_split_single s : contains_char "/" s = false ↔ split "/" s = [s].
Proof.
  split; [apply split_id|]. intros H.
  pose proof (split_no_sep "/" s) as F. rewrite H in F. by apply Forall_inv in F.
Qed.

Lemma validate_object_bucket_ok bucket :
  validate_object_bucket bucket = Ok tt ↔ safe_segment bucket.
Proof.
  unfold validate_object_bucket. split.
  - destruct (validate_blob_key bucket) as [[]|] eqn:E; [|done].
    apply validate_ok_safe in E. destruct (contains_char "/" bucket) eqn:C; [done|]. intros _.
    apply contains_split_single in C. unfold key_safe in E. rewrite C in E.
    by apply Forall_inv in E.
  - intros H. assert (S : split "/" bucket = [bucket]) by (apply split_id, H).
    rewrite validate_blob_key_safe by (unfold key_safe; rewrite S; by constructor).
    destruct H as (?&?&?&->&_). done.
Qed.

(** A bucket name passes validation exactly when it is one plain path segment,
    and then [bucket] and [key] can be read off the object's path: two
    bucket/key pairs share a path only when they are the same pair. *)
Theorem validate_object_bucket_spec (bucket : string) :
  (validate_object_bucket bucket = Ok tt ↔ key_safe bucket ∧ split "/" bucket = [bucket]) ∧
  (validate_object_bucket bucket ≠ Ok tt →
     validate_object_bucket bucket = Err (InvalidStorageKey bucket)) ∧
  (∀ (root : PathBuf) bucket' key key',
     validate_object_bucket bucket = Ok tt → validate_object_bucket bucket' = Ok tt →
     validate_blob_key key = Ok tt → validate_blob_key key' = Ok tt →
     path_join (path_join root bucket) key = path_join (path_join root bucket') key' →
     bucket = bucket' ∧ key = key').
Proof.
  assert (I : ∀ b, validate_object_bucket b = Ok tt → key_safe b ∧ split "/" b = [b]).
  { intros b H%validate_object_bucket_ok.
    assert (S : split "/" b = [b]) by (apply split_id, H).
    split; [|done]. unfold key_safe. rewrite S. by constructor. }
  split_and!.
  - split; [apply I|]. intros [H S]. apply validate_object_bucket_ok.
    unfold key_safe in H. rewrite S in H. by apply Forall_inv in H.
  - unfold validate_object_bucket. destruct (decide (key_safe bucket)).
    + rewrite validate_blob_key_safe by done. by destruct (contains_char "/" bucket).
    + by rewrite validate_blob_key_unsafe.
  - intros root bucket' key key' [Hb Sb]%I [Hb' Sb']%I Hk%validate_ok_safe Hk'%validate_ok_safe.
    rewrite !path_join_safe, Sb, Sb', <- !(app_assoc root) by done.
    intros E%app_inv_head. simpl in E. injection E as -> E%split_inj. done.
Qed.

(** ** Extensions *)

Lemma file_extension_Some (file_name e : string) :
  file_extension file_name = Some e ↔
  ∃ stem raw, file_name = stem +:+ "." +:+ raw ∧ contains_char "." raw = false ∧
    e = trim raw ∧ e ≠ "" ∧ contains_char "/" e = false ∧
    contains_char BACKSLASH e = false ∧ contains_char NUL e = false.
Proof.
  unfold file_extension. split.
  - destruct (rsplit_once "." file_name) as [[stem raw]|] eqn:E; [|done].
    apply rsplit_once_Some in E as [-> Hr].
    destruct (_ || _) eqn:C; [done|]. intros [= <-].
    rewrite !orb_false_iff, str_is_empty_false in C. destruct C as [[[??]?]?].
    by exists stem, raw.
  - intros (stem & raw & -> & Hr & -> & He & Hs & Hb & Hn).
    rewrite (proj2 (rsplit_once_Some "." (stem +:+ "." +:+ raw) stem raw)) by done.
    by rewrite (proj2 (str_is_empty_false _)), Hs, Hb, Hn.
Qed.

(** The extension of a file name is the trimmed text after its last dot,
    when that is non-empty and free of separators and NUL; nothing else of the
    file name reaches the key, and a name without a dot has no extension. *)
Theorem file_extension_spec (file_name : string) :
  (∀ e, file_extension file_name = Some e ↔
     ∃ stem raw, file_name = stem +:+ "." +:+ raw ∧ contains_char "." raw = false ∧
       e = trim raw ∧ e ≠ "" ∧ contains_char "/" e = false ∧
       contains_char BACKSLASH e = false ∧ contains_char NUL e = false) ∧
  (contains_char "." file_name = false → file_extension file_name = None).
Proof.
  split; [intros e; apply file_extension_Some|]. intros H%rsplit_once_None.
  unfold file_extension. by rewrite H.
Qed.

Lemma file_extension_no_dot f e : file_extension f = Some e → contains_char "." e = false.
Proof. intros (stem & raw & _ & H & -> & _)%file_extension_spec. by apply trim_contains. Qed.

(** ** Generated keys *)

Lemma substring_ascii_slice s i j :
  all_chars uuid_char s = true → (i <= j <= String.length s)%nat →
  str_slice s i j = Some (String.substring i (j - i) s).
Proof.
  intros H Hij. assert (B : ∀ k, (k <= String.length s)%nat → is_char_boundary s k = true).
  { intros k Hk. unfold is_char_boundary.
    destruct (Nat.eqb_spec k (String.length s)); [by rewrite orb_true_r|].
    assert (Hlt : (k < String.length s)%nat) by lia. clear -H Hlt.
    destruct (String.get k s) as [c|] eqn:E.
    - assert (uuid_char c = true) as Hc.
      { revert k E Hlt. induction s as [|a s IH]; intros [|k] E Hlt; simplify_eq/=.
        - by apply andb_prop in H as [??].
        - apply andb_prop in H as [??]. eapply IH; try done. lia. }
      assert (byte_in c 128 191 = false) as ->; [|by rewrite orb_true_r].
      unfold uuid_char, hex_digit, byte_in in *.
      destruct (Nat.leb_spec 128 (nat_of_ascii c)) as [Hge|]; [|done]. exfalso.
      apply orb_prop in Hc as [Hc|Hc].
      + apply orb_prop in Hc as [[_ Hc%Nat.leb_le]%andb_prop|[_ Hc%Nat.leb_le]%andb_prop]; lia.
      + apply Ascii.eqb_eq in Hc as ->. vm_compute in Hge. lia.
    - exfalso. revert k E Hlt. induction s as [|a s IH]; intros [|k] E Hlt; simplify_eq/=; try lia.
      eapply IH; try done; [|lia]. by apply andb_prop in H as [??]. }
  unfold str_slice. rewrite !B by lia. by rewrite (proj2 (Nat.leb_le _ _)) by lia.
Qed.

Lemma all_chars_substring P i n s :
  all_chars P s = true → all_chars P (String.substring i n s) = true.
Proof.
  revert i n; induction s as [|a s IH]; intros [|i] [|n] H; simpl in *; try done;
    apply andb_prop in H as [Ha Hs]; rewrite ?Ha; simpl; by apply IH.
Qed.

Definition extension_suffix (extension : option string) : string :=
  match extension with
  | Some ext => if negb (str_is_empty ext) then "." +:+ to_ascii_lowercase ext else ""
  | None => ""
  end.

Lemma app_inj_length (a b c d : string) :
  String.length a = String.length c → a +:+ b = c +:+ d → a = c ∧ b = d.
Proof.
  revert c; induction a as [|x a IH]; intros [|y c]; try done; intros L E.
  rewrite !app_cons_str in E. injection E as -> E. simpl in L.
  destruct (IH c) as [-> ->]; auto.
Qed.

Section GenerationFacts.
Context `{EL : ExternalsLaws}.

Lemma uuid_text_chars u : all_chars uuid_char (uuid_to_string u) = true.
Proof. by destruct (uuid_hyphenated_inv _ (uuid_text_shape u)) as (?&?&?&?&?&?). Qed.

Lemma uuid_text_length u : String.length (uuid_to_string u) = 36%nat.
Proof. by destruct (uuid_hyphenated_inv _ (uuid_text_shape u)) as (?&?&?&?&?&?). Qed.

Lemma build_storage_key_eq ns u ext :
  let t := uuid_to_string u in
  build_storage_key ns u ext =
  Some (namespace_as_str ns +:+ "/" +:+ String.substring 0 2 t +:+ "/"
          +:+ String.substring 2 2 t +:+ "/" +:+ t +:+ extension_suffix ext).
Proof.
  intros t. unfold build_storage_key. fold t.
  pose proof (uuid_text_chars u) as C. pose proof (uuid_text_length u) as L. fold t in C, L.
  rewrite !substring_ascii_slice by (done || lia). simpl. do 6 f_equal.
  destruct ext as [e|]; simpl; [|by rewrite app_nil_r_str].
  destruct (negb (str_is_empty e)); [done|by rewrite app_nil_r_str].
Qed.

Lemma safe_segment_uuid x :
  x ≠ "" → all_chars uuid_char x = true → safe_segment x.
Proof.
  intros Hn H. pose proof (all_chars_contains uuid_char) as A.
  split_and!; [done| | |by eapply A|by eapply A|by eapply A];
    intros ->; by vm_compute in H.
Qed.

Lemma safe_segment_file u ext :
  (∀ e, ext = Some e → contains_char "/" e = false ∧ contains_char BACKSLASH e = false ∧
     contains_char NUL e = false) →
  safe_segment (uuid_to_string u +:+ extension_suffix ext).
Proof.
  intros He. pose proof (uuid_text_chars u) as C. pose proof (uuid_text_length u) as L.
  assert (S : ∀ c, c = "/"%char ∨ c = BACKSLASH ∨ c = NUL →
            contains_char c (extension_suffix ext) = false).
  { intros c Hc. destruct ext as [e|]; [|done]. simpl.
    destruct (negb (str_is_empty e)); [|done]. destruct (He e eq_refl) as (?&?&?).
    rewrite contains_char_app, lowercase_contains by (by destruct Hc as [->|[->| ->]]).
    by destruct Hc as [->|[->| ->]]. }
  assert (N : ∀ y, (String.length y < 36)%nat → uuid_to_string u +:+ extension_suffix ext ≠ y).
  { intros y Hy E. rewrite <- E, length_app_str, L in Hy. lia. }
  split_and!; try (apply N; simpl; lia); rewrite contains_char_app, S by auto;
    rewrite orb_false_r; by eapply all_chars_contains.
Qed.

Lemma substring_uuid_nonempty i u :
  (i < 36)%nat → String.substring i 2 (uuid_to_string u) ≠ "".
Proof.
  pose proof (uuid_text_length u) as L. revert L.
  generalize (uuid_to_string u) as s, 36%nat as m. intros s m L Hi E.
  revert m i L Hi E; induction s as [|a s IH]; intros m [|i] L Hi E; simpl in *; try lia; try done.
  eapply (IH (pred m) i); [lia|lia|done].
Qed.

Lemma generated_key_shape (ns : StorageNamespace) (u : Uuid) (file_name : option string) :
  let t := uuid_to_string u in
  ∃ key, build_storage_key ns u (file_name ≫= file_extension) = Some key ∧
    validate_blob_key key = Ok tt ∧
    split "/" key = [namespace_as_str ns; String.substring 0 2 t; String.substring 2 2 t;
                     t +:+ extension_suffix (file_name ≫= file_extension)].
Proof.
  intros t. rewrite build_storage_key_eq. fold t. eexists. split; [done|].
  assert (E : ∀ e, file_name ≫= file_extension = Some e → contains_char "/" e = false ∧
     contains_char BACKSLASH e = false ∧ contains_char NUL e = false).
  { intros e He. destruct file_name as [f|]; [|done]. simpl in He.
    apply file_extension_Some in He as (?&?&?&?&?&?&?&?&?). done. }
  pose proof (safe_segment_file u _ E) as Sf. fold t in Sf.
  assert (Sa : safe_segment (String.substring 0 2 t)).
  { apply safe_segment_uuid; [apply substring_uuid_nonempty; lia|].
    apply all_chars_substring, uuid_text_chars. }
  assert (Sb : safe_segment (String.substring 2 2 t)).
  { apply safe_segment_uuid; [apply substring_uuid_nonempty; lia|].
    apply all_chars_substring, uuid_text_chars. }
  assert (Sn : safe_segment (namespace_as_str ns)) by by destruct ns.
  match goal with |- _ ∧ split _ ?k = ?l =>
    assert (S : split "/" k = l); [|split; [|done]] end.
  { rewrite !app_cons_str, !app_nil_l_str, !split_app.
    rewrite (split_id _ (namespace_as_str ns)) by apply Sn.
    rewrite (split_id _ (String.substring 0 2 t)) by apply Sa.
    rewrite (split_id _ (String.substring 2 2 t)) by apply Sb.
    by rewrite split_id by apply Sf. }
  apply validate_blob_key_safe. unfold key_safe. rewrite S. by rewrite !Forall_cons, Forall_nil.
Qed.

(** C36: every key the service generates passes validation, whatever the
    uploaded file name: it is the namespace, two two-character shards of the
    UUID, and the UUID with the lower-cased extension, if there is one; so its
    path is four plain components below any root. *)
Theorem generated_key_valid (ns : StorageNamespace) (u : Uuid) (file_name : option string) :
  let t := uuid_to_string u in
  ∃ key, build_storage_key ns u (file_name ≫= file_extension) = Some key ∧
    validate_blob_key key = Ok tt ∧
    ∀ root : PathBuf, path_join root key =
      root ++ [namespace_as_str ns; String.substring 0 2 t; String.substring 2 2 t;
               t +:+ extension_suffix (file_name ≫= file_extension)].
Proof.
  intros t. destruct (generated_key_shape ns u file_name) as (key & Hb & Hv & Hs).
  exists key. split_and!; [done|done|]. intros root.
  by rewrite path_join_safe, Hs by by apply validate_ok_safe.
Qed.

(** Generated keys are unique: a key determines its namespace and UUID,
    whatever the extensions. *)
Theorem generated_key_unique (ns ns' : StorageNamespace) (u u' : Uuid)
    (ext ext' : option string) :
  build_storage_key ns u ext = build_storage_key ns' u' ext' → ns = ns' ∧ u = u'.
Proof.
  rewrite !build_storage_key_eq. intros [= E].
  pose proof (uuid_text_length u) as L. pose proof (uuid_text_length u') as L'.
  assert (N : ∀ n, contains_char "/" (namespace_as_str n) = false) by by intros [].
  assert (En : ns = ns').
  { apply namespace_as_str_inj. apply (f_equal (λ s, hd "" (split "/" s))) in E.
    rewrite !app_cons_str, !app_nil_l_str, !(split_app _ (namespace_as_str _)) in E.
    by rewrite !(split_id _ (namespace_as_str _)) in E by apply N. }
  subst ns'. split; [done|]. apply uuid_text_inj.
  assert (LS : ∀ i v, (i <= 34)%nat → String.length (String.substring i 2 (uuid_to_string v)) = 2%nat).
  { intros i v Hi. pose proof (uuid_text_length v) as Lv. revert Lv Hi.
    generalize (uuid_to_string v) as s. intros s Ls Hi.
    assert (Hs : (i + 2 <= String.length s)%nat) by lia. clear -Hs. revert i Hs.
    induction s as [|a s IH]; intros [|i] Hs; simpl in *; try lia.
    - f_equal. destruct s as [|b s]; simpl in *; [lia|]. f_equal. by destruct s.
    - apply IH. lia. }
  apply app_inj_length in E as [_ E]; [|done].
  apply app_inj_length in E as [_ E]; [|done].
  apply app_inj_length in E as [_ E]; [|by rewrite !LS by lia].
  apply app_inj_length in E as [_ E]; [|done].
  apply app_inj_length in E as [_ E]; [|by rewrite !LS by lia].
  apply app_inj_length in E as [_ E]; [|done].
  apply app_inj_length in E as [E _]; [done|lia].
Qed.
End GenerationFacts.

(** *** Witnesses *)

Module Witnesses.
Import Concrete.

Lemma generated_key_valid_witness :
  ∃ key, build_storage_key Originals Concrete.uuid1 (Some "photo.JPG" ≫= file_extension) = Some key ∧
    validate_blob_key key = Ok tt ∧
    ∀ root : PathBuf, path_join root key =
      root ++ ["originals"; "6c"; "57"; "6c57a6cc-09e6-4a7f-a320-2f2bde4cfd86.jpg"].
Proof. exact (generated_key_valid Originals Concrete.uuid1 (Some "photo.JPG")). Defined.

Lemma generated_key_unique_witness :
  Originals = Originals ∧ Concrete.uuid1 = Concrete.uuid1.
Proof.
  exact (generated_key_unique Originals Originals Concrete.uuid1 Concrete.uuid1 None None eq_refl).
Defined.
End Witnesses.
