(* ===== verification/Effects.v ===== *)
(** * Effectful code as programs over calls

    An [async fn] of the crate is a program: a tree of calls to its
    environment ([E X] is a call that answers with an [X]), with loops and
    panics.  The environment is a handler on a state [W], a parameter of every
    execution, so the programs say only which calls the code makes, in which
    order, and what it does with each answer.

    [run] executes a program with a bound on the iterations of each loop;
    [runs p w a w'] says that some bound suffices.  A panic, or a loop that
    does not end, has no result, so a statement that [p] runs says that it
    returns.  [twp p Q w] is total correctness: [p] returns from [w] and the
    result satisfies [Q].  [step1] is the small-step view, from which
    interleavings of several programs are made. *)
From S2P Require Import Prelude Errors.
Section Prog.
Context (E : Type → Type).

Inductive prog (A : Type) : Type :=
| Ret (a : A)
| Vis {X : Type} (e : E X) (k : X → prog A)
| Iter {S B : Type} (body : S → prog (S + B)) (s : S) (k : B → prog A)
| Panic (msg : string).
End Prog.
Arguments Ret {E A} a.
Arguments Vis {E A X} e k.
Arguments Iter {E A S B} body s k.
Arguments Panic {E A} msg.

Fixpoint bind {E A B} (p : prog E A) (f : A → prog E B) : prog E B :=
  match p with
  | Ret a => f a
  | Vis e k => Vis e (λ x, bind (k x) f)
  | Iter body s k => Iter body s (λ b, bind (k b) f)
  | Panic msg => Panic msg
  end.

Definition call {E : Type → Type} {X} (e : E X) : prog E X := Vis e Ret.

(** [loop { ... }]: [Continue] goes round with the new state, [Break] leaves. *)
Definition loop {E S B} (body : S → prog E (S + B)) (s : S) : prog E B := Iter body s Ret.
Definition Continue {E} {S B : Type} (s : S) : prog E (S + B) := Ret (inl s).
Definition Break {E} {S B : Type} (b : B) : prog E (S + B) := Ret (inr b).

Notation "'let*' x ':=' p 'in' k" := (bind p (λ x, k))
  (at level 10, x name, p at level 100, k at level 200) : rust_scope.
Notation "'let*' ' x ':=' p 'in' k" := (bind p (λ x, k))
  (at level 10, x strict pattern, p at level 100, k at level 200) : rust_scope.

(** The [?] operator on the result of an awaited call ([let*?]) and on a pure
    result ([let!?]). *)
Notation "'let*?' x ':=' p 'in' k" :=
  (bind p (λ r, match r with Ok x => k | Err e => Ret (Err e) end))
  (at level 10, x pattern, p at level 100, k at level 200) : rust_scope.
Notation "'let!?' x ':=' r 'in' k" :=
  (match r with Ok x => k | Err e => Ret (Err e) end)
  (at level 10, x pattern, r at level 100, k at level 200) : rust_scope.

Class Handler (E : Type → Type) (W : Type) := handle : ∀ X : Type, E X → W → X * W.
Arguments handle {E W _ X} e w.

Section Run.
Context {E : Type → Type} {W : Type} `{H : Handler E W}.

Fixpoint iterate {S B} (n : nat) (f : S → W → option ((S + B) * W)) (s : S) (w : W) :
    option (B * W) :=
  match n with
  | 0%nat => None
  | S n => match f s w with
           | Some (inl s', w') => iterate n f s' w'
           | Some (inr b, w') => Some (b, w')
           | None => None
           end
  end.

Fixpoint run {A} (n : nat) (p : prog E A) (w : W) {struct p} : option (A * W) :=
  match p with
  | Ret a => Some (a, w)
  | Vis e k => let '(x, w') := handle e w in run n (k x) w'
  | Iter body s k =>
      match iterate n (λ s w, run n (body s) w) s w with
      | Some (b, w') => run n (k b) w'
      | None => None
      end
  | Panic _ => None
  end.

Definition runs {A} (p : prog E A) (w : W) (a : A) (w' : W) : Prop :=
  ∃ n, run n p w = Some (a, w').

Definition twp {A} (p : prog E A) (Q : A → W → Prop) (w : W) : Prop :=
  ∃ a w', runs p w a w' ∧ Q a w'.

(** ** Fuel *)

Lemma iterate_mono {S B} (f g : S → W → option ((S + B) * W)) n m s w r :
  (∀ s w r, f s w = Some r → g s w = Some r) → (n <= m)%nat →
  iterate n f s w = Some r → iterate m g s w = Some r.
Proof.
  intros Hfg. revert m s w. induction n as [|n IH]; intros [|m] s w Hnm; simpl; try done; [lia|].
  destruct (f s w) as [[[s'|b] w']|] eqn:Ef; [| |done]; rewrite (Hfg _ _ _ Ef).
  - apply IH. lia.
  - done.
Qed.

Lemma run_mono {A} (p : prog E A) n m w r :
  (n <= m)%nat → run n p w = Some r → run m p w = Some r.
Proof.
  intros Hnm. revert w r. induction p as [A a|A X e k IH|A S B body IHb s k IHk|A msg];
    intros w r; simpl; try done.
  - destruct (handle e w) as [x w']. apply IH.
  - destruct (iterate n _ s w) as [[b w']|] eqn:Ei; [|done].
    eapply (iterate_mono _ (λ s w, run m (body s) w) n m) in Ei; [|intros ???; apply IHb|done].
    rewrite Ei. apply IHk.
Qed.

Lemma run_le {A} (p : prog E A) n m w r :
  run n p w = Some r → (n <= m)%nat → run m p w = Some r.
Proof. intros. by eapply run_mono. Qed.

Lemma run_bind {A B} (p : prog E A) (f : A → prog E B) n w :
  run n (bind p f) w = match run n p w with Some (a, w') => run n (f a) w' | None => None end.
Proof.
  revert w. induction p as [A a|A X e k IH|A S C body IHb s k IHk|A msg]; intros w; simpl;
    try done.
  - destruct (handle e w) as [x w']. apply IH.
  - destruct (iterate n _ s w) as [[b w']|]; [|done]. apply IHk.
Qed.

(** ** [runs] *)

Lemma runs_det {A} (p : prog E A) w a1 w1 a2 w2 :
  runs p w a1 w1 → runs p w a2 w2 → a1 = a2 ∧ w1 = w2.
Proof.
  intros [n Hn] [m Hm].
  apply (run_mono _ _ (n + m)) in Hn; [|lia]. apply (run_mono _ _ (n + m)) in Hm; [|lia].
  by simplify_eq.
Qed.

Lemma runs_ret {A} (a : A) w a' w' : runs (Ret a) w a' w' ↔ a' = a ∧ w' = w.
Proof. split; [intros [n Hn]; by simplify_eq/=|intros [-> ->]; by exists 0%nat]. Qed.

Lemma runs_vis {A X} (e : E X) (k : X → prog E A) w a w' :
  runs (Vis e k) w a w' ↔ runs (k (handle e w).1) (handle e w).2 a w'.
Proof. unfold runs; simpl. by destruct (handle e w). Qed.

Lemma runs_bind {A B} (p : prog E A) (f : A → prog E B) w b w' :
  runs (bind p f) w b w' ↔ ∃ a w1, runs p w a w1 ∧ runs (f a) w1 b w'.
Proof.
  split.
  - intros [n Hn]. rewrite run_bind in Hn. destruct (run n p w) as [[a w1]|] eqn:Ep; [|done].
    exists a, w1. split; by exists n.
  - intros (a & w1 & [n Hn] & [m Hm]). exists (n + m)%nat. rewrite run_bind.
    rewrite (run_le _ _ _ _ _ Hn) by lia. by rewrite (run_le _ _ _ _ _ Hm) by lia.
Qed.

Definition iter_next {A S B} (body : S → prog E (S + B)) (k : B → prog E A) (r : S + B) :
    prog E A :=
  match r with inl s' => Iter body s' k | inr b => k b end.

Lemma runs_iter {A S B} (body : S → prog E (S + B)) (k : B → prog E A) s w a w' :
  runs (Iter body s k) w a w' ↔ runs (bind (body s) (iter_next body k)) w a w'.
Proof.
  rewrite runs_bind. split.
  - intros [n Hn]. simpl in Hn. destruct n as [|n]; [done|]. cbn [iterate] in Hn.
    destruct (run (Datatypes.S n) (body s) w) as [[[s'|b] w1]|] eqn:Eb; [| |done].
    + exists (inl s'), w1. split; [by exists (Datatypes.S n)|]. exists (Datatypes.S n).
      cbn [iter_next run]. destruct (iterate n _ s' w1) as [[b w2]|] eqn:Ei; [|done].
      eapply (iterate_mono _ (λ s w, run (Datatypes.S n) (body s) w) n (Datatypes.S n)) in Ei;
        [by rewrite Ei|done|lia].
    + exists (inr b), w1. split; by exists (Datatypes.S n).
  - intros ([s'|b] & w1 & [n Hn] & [m Hm]); simpl in *.
    + destruct (iterate m _ s' w1) as [[b w2]|] eqn:Ei; [|done].
      exists (Datatypes.S (n + m)). simpl.
      rewrite (run_le _ _ _ _ _ Hn) by lia.
      eapply (iterate_mono _ (λ s w, run (Datatypes.S (n + m)) (body s) w) m (n + m)) in Ei;
        [rewrite Ei|intros ???; apply run_mono; lia|lia].
      apply (run_mono _ m); [lia|done].
    + exists (Datatypes.S (n + m)). simpl. rewrite (run_le _ _ _ _ _ Hn) by lia.
      apply (run_mono _ m); [lia|done].
Qed.

(** A loop whose invariant makes it go on never returns. *)
Lemma iter_never {A S B} (I : S → W → Prop) (body : S → prog E (S + B)) (k : B → prog E A) s w :
  I s w →
  (∀ s w r w1, I s w → runs (body s) w r w1 → ∃ s', r = inl s' ∧ I s' w1) →
  ∀ a w', ¬ runs (Iter body s k) w a w'.
Proof.
  intros HI Hbody a w' [n Hn]. cbn [run] in Hn.
  assert (G : ∀ m s w, I s w → iterate m (λ s w, run n (body s) w) s w = None).
  { induction m as [|m IH]; intros s0 w0 H0; [done|]. cbn [iterate].
    destruct (run n (body s0) w0) as [[r w1]|] eqn:Eb; [|done].
    destruct (Hbody s0 w0 r w1 H0) as (s1 & -> & H1); [by exists n|]. by apply IH. }
  by rewrite G in Hn.
Qed.

(** ** Total correctness *)

Lemma twp_ret {A} (a : A) (Q : A → W → Prop) w : Q a w → twp (Ret a) Q w.
Proof. intros HQ. exists a, w. split; [by apply runs_ret|done]. Qed.

Lemma twp_vis {A X} (e : E X) (k : X → prog E A) (Q : A → W → Prop) w :
  twp (k (handle e w).1) Q (handle e w).2 → twp (Vis e k) Q w.
Proof. intros (a & w' & Hr & HQ). exists a, w'. split; [by apply runs_vis|done]. Qed.

Lemma twp_vis_eq {A X} (e : E X) (k : X → prog E A) (Q : A → W → Prop) w x w1 :
  handle e w = (x, w1) → twp (k x) Q w1 → twp (Vis e k) Q w.
Proof. intros Eh. intros H1. apply twp_vis. by rewrite Eh. Qed.

Lemma twp_mono {A} (p : prog E A) (Q R : A → W → Prop) w :
  twp p Q w → (∀ a w', Q a w' → R a w') → twp p R w.
Proof. intros (a & w' & ? & ?) HQR. exists a, w'. auto. Qed.

Lemma twp_bind {A B} (p : prog E A) (f : A → prog E B) (Q : B → W → Prop) w :
  twp p (λ a w', twp (f a) Q w') w → twp (bind p f) Q w.
Proof.
  intros (a & w1 & Hp & b & w2 & Hf & HQ). exists b, w2. split; [|done].
  apply runs_bind. eauto.
Qed.

Lemma twp_bind_inv {A B} (p : prog E A) (f : A → prog E B) (Q : B → W → Prop) w :
  twp (bind p f) Q w → twp p (λ a w', twp (f a) Q w') w.
Proof.
  intros (b & w2 & (a & w1 & Hp & Hf)%runs_bind & HQ). exists a, w1. split; [done|].
  exists b, w2. auto.
Qed.

Lemma twp_iter {A S B} (body : S → prog E (S + B)) (k : B → prog E A) s (Q : A → W → Prop) w :
  twp (body s) (λ r w', twp (iter_next body k r) Q w') w → twp (Iter body s k) Q w.
Proof.
  intros (r & w1 & Hb & a & w' & Hk & HQ). exists a, w'. split; [|done].
  apply runs_iter, runs_bind. eauto.
Qed.

(** A loop with an invariant and a measure. *)
Lemma twp_iter_inv {A S B} (I : S → W → Prop) (m : S → W → nat)
    (body : S → prog E (S + B)) (k : B → prog E A) s (Q : A → W → Prop) w :
  I s w →
  (∀ s w, I s w → twp (body s) (λ r w', match r with
      | inl s' => I s' w' ∧ (m s' w' < m s w)%nat
      | inr b => twp (k b) Q w'
      end) w) →
  twp (Iter body s k) Q w.
Proof.
  intros HI Hbody. remember (m s w) as d eqn:Ed. revert s w HI Ed.
  induction d as [d IH] using lt_wf_ind. intros s w HI ->.
  apply twp_iter. eapply twp_mono; [by apply Hbody|].
  intros [s'|b] w' Hr; [|done]. destruct Hr as [HI' Hm]. by eapply IH.
Qed.

Lemma twp_runs {A} (p : prog E A) (Q : A → W → Prop) w a w' :
  twp p Q w → runs p w a w' → Q a w'.
Proof. intros (a1 & w1 & H1 & HQ) H2. by destruct (runs_det _ _ _ _ _ _ H1 H2) as [-> ->]. Qed.

(** A property of states that every call keeps is kept by every program. *)
Lemma runs_invariant {A} (I : W → Prop) (p : prog E A) w a w' :
  (∀ X (e : E X) w, I w → I (handle e w).2) → runs p w a w' → I w → I w'.
Proof.
  intros HI [n Hn]. revert w a w' Hn.
  induction p as [A a|A X e k IH|A S B body IHb s k IHk|A msg]; intros w r w'; simpl; try done.
  - by intros [= <- <-].
  - specialize (HI _ e w). destruct (handle e w) as [x w1]. simpl in *. intros Hn Hw.
    eapply IH; [exact Hn|by apply HI].
  - destruct (iterate n _ s w) as [[b w1]|] eqn:Ei; [|done]. intros Hn Hw.
    eapply IHk; [exact Hn|]. clear Hn.
    assert (G : ∀ m s w, iterate m (λ s w, run n (body s) w) s w = Some (b, w1) → I w → I w1);
      [|by eapply G].
    induction m as [|m IHm]; intros s0 w0; simpl; [done|].
    destruct (run n (body s0) w0) as [[[s1|b1] w2]|] eqn:Eb; [| |done].
    + intros Hi H0. eapply IHm; [exact Hi|]. by eapply IHb.
    + intros [= -> ->] H0. by eapply IHb.
Qed.

(** ** Programs with the same runs

    Coarser than equality: how a program groups its steps does not matter. *)

Definition same_runs {A} (p q : prog E A) : Prop :=
  ∀ w a w', runs p w a w' ↔ runs q w a w'.

#[export] Instance same_runs_equivalence {A} : Equivalence (same_runs (A := A)).
Proof.
  split.
  - by intros p w a w'.
  - intros p q H1 w a w'. symmetry. apply H1.
  - intros p q r H1 H2 w a w'. etrans; [apply H1|apply H2].
Qed.

#[export] Instance bind_same_runs {A B} :
  Proper (same_runs ==> pointwise_relation A same_runs ==> same_runs) (bind (E := E) (B := B)).
Proof.
  intros p q Hp f g Hf w b w'. rewrite !runs_bind.
  split; intros (a & w1 & H1 & H2); exists a, w1; (split; [by apply Hp|by apply Hf]).
Qed.

Lemma same_runs_iter {A S B} (body : S → prog E (S + B)) (k : B → prog E A) s :
  same_runs (Iter body s k) (bind (body s) (iter_next body k)).
Proof. intros w a w'. apply runs_iter. Qed.

Lemma same_runs_bind_bind {A B C} (p : prog E A) (f : A → prog E B) (g : B → prog E C) :
  same_runs (bind (bind p f) g) (bind p (λ a, bind (f a) g)).
Proof.
  intros w c w'. rewrite !runs_bind. split.
  - intros (b & w1 & (a & w2 & Hp & Hf)%runs_bind & Hg). exists a, w2. split; [done|].
    apply runs_bind. by exists b, w1.
  - intros (a & w2 & Hp & (b & w1 & Hf & Hg)%runs_bind). exists b, w1. split; [|done].
    apply runs_bind. by exists a, w2.
Qed.

(** A program that always returns [a] and leaves the state alone. *)
Lemma same_runs_ret {A} (p : prog E A) a :
  (∀ w, runs p w a w) → same_runs p (Ret a).
Proof.
  intros Hp w b w'. rewrite runs_ret. split.
  - intros Hb. by destruct (runs_det _ _ _ _ _ _ Hb (Hp w)) as [-> ->].
  - intros [-> ->]. apply Hp.
Qed.

Lemma same_runs_twp {A} (p q : prog E A) Q w : same_runs p q → twp q Q w → twp p Q w.
Proof. intros H1 (a & w' & Hr & HQ). exists a, w'. split; [by apply H1|done]. Qed.

(** ** Small steps and interleavings *)

Definition step1 {A} (p : prog E A) (w : W) : option (prog E A * W) :=
  match p with
  | Ret _ | Panic _ => None
  | Vis e k => let '(x, w') := handle e w in Some (k x, w')
  | Iter body s k => Some (bind (body s) (iter_next body k), w)
  end.

(** One thread of the pool makes a step. *)
Inductive pool_step {A} : list (prog E A) * W → list (prog E A) * W → Prop :=
| pool_step_intro ps i p p' w w' :
    ps !! i = Some p → step1 p w = Some (p', w') → pool_step (ps, w) (<[i:=p']> ps, w').

(** A schedule names the thread of each step; a thread that cannot step is
    passed over. *)
Fixpoint schedule {A} (turns : list nat) (c : list (prog E A) * W) : list (prog E A) * W :=
  match turns with
  | [] => c
  | i :: turns =>
      schedule turns
        match c.1 !! i ≫= λ p, step1 p c.2 with
        | Some (p', w') => (<[i:=p']> c.1, w')
        | None => c
        end
  end.

Lemma schedule_steps {A} turns (c : list (prog E A) * W) : rtc pool_step c (schedule turns c).
Proof.
  revert c. induction turns as [|i turns IH]; intros [ps w]; simpl; [done|].
  destruct (ps !! i) as [p|] eqn:Ei; simpl; [|apply IH].
  destruct (step1 p w) as [[p' w']|] eqn:Es; [|apply IH].
  eapply rtc_l; [by econstructor|apply IH].
Qed.

Lemma step1_runs {A} (p p' : prog E A) w w1 a w' :
  step1 p w = Some (p', w1) → runs p w a w' ↔ runs p' w1 a w'.
Proof.
  destruct p as [a0|X e k|S B body s k|msg]; simpl; try done.
  - rewrite runs_vis. destruct (handle e w). by intros; simplify_eq.
  - rewrite runs_iter. by intros; simplify_eq.
Qed.
End Run.

Lemma bind_ret_l {E A B} (a : A) (f : A → prog E B) : bind (Ret a) f = f a.
Proof. done. Qed.

Ltac wp_bind := apply twp_bind.
Ltac wp_ret := apply twp_ret.
Ltac wp_vis x w E := apply twp_vis; destruct (handle _ _) as [x w] eqn:E; simpl.
