(* ===== verification/Streams.v ===== *)
(** * Byte streams (src/src/blob.rs)

    [StorageByteStream], [collect_storage_stream] and [ranged_storage_stream].
    A boxed stream is a current state, the program one [next().await] runs, and
    the program that runs when the stream is dropped in a state; both may make
    calls of the effect [E] of the provider. *)
From S2P Require Import Prelude Text Errors Externals Effects.
(** [pub type BoxedStorageStream]. *)
Record BoxedStorageStream (E : Type → Type) : Type := mkBoxedStream {
  bs_state : Type;
  bs_cur : bs_state;
  bs_next : bs_state → prog E (option (storage_result bytes) * bs_state);
  bs_drop : bs_state → prog E unit;
}.
Arguments mkBoxedStream {E} _ _ _ _.
Arguments bs_state {E} _.
Arguments bs_cur {E} _.
Arguments bs_next {E} _ _.
Arguments bs_drop {E} _ _.

(** [pub struct StorageByteStream]. *)
Record StorageByteStream (E : Type → Type) : Type := mkStorageByteStream {
  sbs_inner : BoxedStorageStream E;
  sbs_size_hint : option Z;
}.
Arguments mkStorageByteStream {E} _ _.
Arguments sbs_inner {E} _.
Arguments sbs_size_hint {E} _.

Section Streams.
Context {E : Type → Type}.

Definition stream_new (inner : BoxedStorageStream E) : StorageByteStream E :=
  mkStorageByteStream inner None.

Definition with_size_hint (inner : BoxedStorageStream E) (size_hint : Z) :
    StorageByteStream E :=
  mkStorageByteStream inner (Some size_hint).

Definition size_hint (s : StorageByteStream E) : option Z := sbs_size_hint s.

Definition into_inner (s : StorageByteStream E) : BoxedStorageStream E := sbs_inner s.

(** [stream::iter(items)], of which [stream::once] is the case of one item. *)
Definition iter_next_item (items : list (storage_result bytes)) :
    prog E (option (storage_result bytes) * list (storage_result bytes)) :=
  match items with
  | [] => Ret (None, [])
  | x :: items' => Ret (Some x, items')
  end.

Definition stream_iter (items : list (storage_result bytes)) : BoxedStorageStream E :=
  mkBoxedStream _ items iter_next_item (λ _, Ret tt).

Definition from_bytes (b : bytes) : StorageByteStream E :=
  let size_hint := u64_from_len b in
  with_size_hint (stream_iter [Ok b]) size_hint.

(** [stream::try_unfold(seed, f)]: an error is yielded once and ends the
    stream. *)
Definition try_unfold_next {S : Type} (f : S → prog E (storage_result (option (bytes * S))))
    (s : option S) : prog E (option (storage_result bytes) * option S) :=
  match s with
  | None => Ret (None, None)
  | Some s =>
      let* r := f s in
      match r with
      | Ok (Some (item, s')) => Ret (Some (Ok item), Some s')
      | Ok None => Ret (None, None)
      | Err e => Ret (Some (Err e), None)
      end
  end.

(** [drop_state] drops a state that is still there. *)
Definition try_unfold {S : Type} (seed : S)
    (f : S → prog E (storage_result (option (bytes * S)))) (drop_state : S → prog E unit) :
    BoxedStorageStream E :=
  mkBoxedStream (option S) (Some seed) (try_unfold_next f)
    (λ s, match s with Some s => drop_state s | None => Ret tt end).

(** [collect_storage_stream]: allocating more than [isize::MAX] bytes
    panics. *)
Definition collect_step (inner : BoxedStorageStream E) '(st, buffer) :
    prog E (bs_state inner * bytes + storage_result bytes) :=
  let* ' (chunk, st') := bs_next inner st in
  match chunk with
  | Some (Ok chunk) => Continue (st', buffer ++ chunk)
  | Some (Err e) => Break (Err e)
  | None => Break (Ok buffer)
  end.

Definition collect_storage_stream (stream : StorageByteStream E) :
    prog E (storage_result bytes) :=
  let capacity := default 0 (size_hint stream ≫= usize_try_from) in
  if isize_MAX <? capacity then Panic "capacity overflow"
  else
    let inner := into_inner stream in
    loop (collect_step inner) (bs_cur inner, []).

(** [chunk.slice(start..end)]; [None] is the out-of-range panic. *)
Definition bytes_slice (b : bytes) (start end_ : Z) : option bytes :=
  if (0 <=? start) && (start <=? end_) && (end_ <=? Z.of_nat (length b))
  then Some (take (Z.to_nat (end_ - start)) (drop (Z.to_nat start) b)) else None.

(** The closure of [ranged_storage_stream]: the [while] loop over the inner
    stream with the bytes still to skip. *)
Definition ranged_loop (inner : BoxedStorageStream E) (remaining : Z) '(st, skip) :
    prog E (bs_state inner * Z +
            storage_result (option (bytes * (bs_state inner * Z * Z)))) :=
  let* ' (chunk, st') := bs_next inner st in
  match chunk with
  | None => Break (Ok None)
  | Some (Err e) => Break (Err e)
  | Some (Ok chunk) =>
      let chunk_len := u64_from_len chunk in
      if chunk_len <=? skip then Continue (st', skip - chunk_len)
      else
        match usize_try_from skip with
        | None => Break (Err (PreconditionFailed "" "range start cannot fit in memory"))
        | Some start =>
            let take_len := Z.min (chunk_len - skip) remaining in
            match usize_try_from take_len with
            | None => Break (Err (PreconditionFailed "" "range length cannot fit in memory"))
            | Some n =>
                match bytes_slice chunk start (start + n) with
                | None => Panic "range out of bounds"
                | Some output =>
                    Break (Ok (Some (output, (st', 0, remaining - take_len))))
                end
            end
        end
  end.

Definition ranged_step (inner : BoxedStorageStream E) '(st, skip, remaining) :
    prog E (storage_result (option (bytes * (bs_state inner * Z * Z)))) :=
  if remaining =? 0 then Ret (Ok None)
  else loop (ranged_loop inner remaining) (st, skip).

Definition ranged_storage_stream (body : StorageByteStream E) (skip length : Z) :
    StorageByteStream E :=
  let size_hint := (λ hint, Z.min (u64_saturating_sub hint skip) length) <$> size_hint body in
  let inner := into_inner body in
  let stream := try_unfold (bs_cur inner, skip, length) (ranged_step inner)
                  (λ '(st, _, _), bs_drop inner st) in
  match size_hint with
  | Some size_hint => with_size_hint stream size_hint
  | None => stream_new stream
  end.
End Streams.

(** ** What a stream delivers *)

(** A Rust allocation never exceeds [isize::MAX] bytes. *)
Definition chunk_ok (c : bytes) : Prop := Z.of_nat (length c) ≤ isize_MAX.

Section Delivery.
Context {E : Type → Type} {W : Type} `{H : Handler E W}.

(** From state [st] in the environment [w], polling yields the chunks [cs]
    and then the end of the stream ([None]) or an error. *)
Inductive drains {St : Type} (next : St → prog E (option (storage_result bytes) * St)) :
    St → W → list bytes → option StorageError → W → Prop :=
| drains_end st w st' w' :
    runs (next st) w (None, st') w' → drains next st w [] None w'
| drains_err st w e st' w' :
    runs (next st) w (Some (Err e), st') w' → drains next st w [] (Some e) w'
| drains_chunk st w c st' w1 cs oe w' :
    runs (next st) w (Some (Ok c), st') w1 → drains next st' w1 cs oe w' →
    drains next st w (c :: cs) oe w'.

Definition delivers (s : BoxedStorageStream E) (w : W) (cs : list bytes)
    (oe : option StorageError) (w' : W) : Prop :=
  drains (bs_next s) (bs_cur s) w cs oe w'.

(** A poll and what follows it. *)
Lemma drains_twp {St : Type} (next : St → prog E (option (storage_result bytes) * St)) st w
    (P : list bytes → option StorageError → W → Prop) :
  twp (next st) (λ r w1, match r with
    | (None, _) => P [] None w1
    | (Some (Err e), _) => P [] (Some e) w1
    | (Some (Ok c), st') => ∃ cs oe w', drains next st' w1 cs oe w' ∧ P (c :: cs) oe w'
    end) w →
  ∃ cs oe w', drains next st w cs oe w' ∧ P cs oe w'.
Proof.
  intros ([[[c|e]|] st'] & w1 & Hr & HP).
  - destruct HP as (cs & oe & w' & D & HP). exists (c :: cs), oe, w'. split; [|done].
    by eapply drains_chunk.
  - exists [], (Some e), w1. split; [by eapply drains_err|done].
  - exists [], None, w1. split; [by eapply drains_end|done].
Qed.

Lemma drains_iter_ok chunks w :
  drains iter_next_item (map Ok chunks) w chunks None w.
Proof.
  induction chunks as [|c cs IH]; simpl.
  - eapply drains_end. by apply runs_ret.
  - eapply drains_chunk; [|exact IH]. by apply runs_ret.
Qed.

Lemma drains_iter_err chunks e items w :
  drains iter_next_item (map Ok chunks ++ Err e :: items) w chunks (Some e) w.
Proof.
  induction chunks as [|c cs IH]; simpl.
  - eapply drains_err. by apply runs_ret.
  - eapply drains_chunk; [|exact IH]. by apply runs_ret.
Qed.

(** A stream whose polls leave the environment alone, in every environment. *)
Inductive supplies {St : Type} (next : St → prog E (option (storage_result bytes) * St)) :
    St → list bytes → option StorageError → Prop :=
| supplies_end st st' :
    (∀ w, runs (next st) w (None, st') w) → supplies next st [] None
| supplies_err st e st' :
    (∀ w, runs (next st) w (Some (Err e), st') w) → supplies next st [] (Some e)
| supplies_chunk st c st' cs oe :
    (∀ w, runs (next st) w (Some (Ok c), st') w) → supplies next st' cs oe →
    supplies next st (c :: cs) oe.

(** The body a caller hands over: it makes no calls of its own, when it is
    polled or dropped. *)
Definition body_of (s : StorageByteStream E) (cs : list bytes) (oe : option StorageError) :
    Prop :=
  supplies (bs_next (into_inner s)) (bs_cur (into_inner s)) cs oe ∧
  ∀ st w, runs (bs_drop (into_inner s) st) w tt w.

Lemma supplies_iter_ok chunks : supplies iter_next_item (map Ok chunks) chunks None.
Proof.
  induction chunks as [|c cs IH]; simpl.
  - eapply supplies_end. intros w. by apply runs_ret.
  - eapply supplies_chunk; [|exact IH]. intros w. by apply runs_ret.
Qed.

Lemma body_of_from_bytes (b : bytes) : body_of (from_bytes b) [b] None.
Proof. split; [apply (supplies_iter_ok [b])|]. intros st w. by apply runs_ret. Qed.

(** *** Collecting *)

Definition capacity_ok (hint : option Z) : Prop :=
  match hint with Some n => 0 ≤ n ≤ isize_MAX | None => True end.

Lemma collect_loop_runs (s : BoxedStorageStream E) st w cs oe w' buffer :
  drains (bs_next s) st w cs oe w' →
  runs (loop (collect_step s) (st, buffer)) w
    (match oe with None => Ok (buffer ++ concat cs) | Some e => Err e end) w'.
Proof.
  intros D. revert buffer.
  induction D as [st w st' w' Hn|st w e st' w' Hn|st w c st' w1 cs oe w' Hn D IH]; intros buffer;
    apply runs_iter; apply runs_bind.
  - exists (inr (Ok buffer)), w'. split.
    + apply runs_bind. eexists _, _. split; [exact Hn|]. by apply runs_ret.
    + simpl. rewrite app_nil_r. by apply runs_ret.
  - exists (inr (Err e)), w'. split.
    + apply runs_bind. eexists _, _. split; [exact Hn|]. by apply runs_ret.
    + by apply runs_ret.
  - exists (inl (st', buffer ++ c)), w1. split.
    + apply runs_bind. eexists _, _. split; [exact Hn|]. by apply runs_ret.
    + specialize (IH (buffer ++ c)). simpl. destruct oe; [done|].
      by rewrite app_assoc.
Qed.

Lemma collect_runs (s : StorageByteStream E) w cs oe w' :
  delivers (into_inner s) w cs oe w' → capacity_ok (size_hint s) →
  runs (collect_storage_stream s) w
    (match oe with None => Ok (concat cs) | Some e => Err e end) w'.
Proof.
  intros D Hc. unfold collect_storage_stream.
  assert ((isize_MAX <? default 0 (size_hint s ≫= usize_try_from)) = false) as ->.
  { apply Z.ltb_ge. destruct (size_hint s) as [n|]; simpl in *; [|zbounds].
    rewrite usize_try_from_u64 by zbounds. simpl. zbounds. }
  by apply (collect_loop_runs _ _ _ _ _ _ []).
Qed.

Lemma collect_capacity_panic (s : StorageByteStream E) n w a w' :
  size_hint s = Some n → isize_MAX < n ≤ usize_MAX → ¬ runs (collect_storage_stream s) w a w'.
Proof.
  intros Hs Hn. unfold collect_storage_stream. rewrite Hs. simpl.
  rewrite usize_try_from_u64 by zbounds. simpl.
  rewrite (proj2 (Z.ltb_lt _ _)) by lia. by intros [m Hm].
Qed.
(** C35: collecting a stream returns the concatenation of its chunks, or its
    first error, as long as the size hint is at most [isize::MAX]; with a
    larger hint it panics on the allocation, whatever the stream holds. *)
Theorem collect_storage_stream_spec (s : StorageByteStream E) w cs oe w' :
  delivers (into_inner s) w cs oe w' →
  (capacity_ok (size_hint s) →
   runs (collect_storage_stream s) w
     (match oe with None => Ok (concat cs) | Some e => Err e end) w') ∧
  (∀ n, size_hint s = Some n → isize_MAX < n ≤ usize_MAX →
   ∀ a w'', ¬ runs (collect_storage_stream s) w a w'').
Proof.
  intros D. split; [by apply collect_runs|]. intros n Hn Hm a w''.
  by apply (collect_capacity_panic s n).
Qed.
End Delivery.

(** ** Ranges *)

(** The bytes of a range: [length] bytes after the first [skip]. *)
Definition byte_range (skip length : Z) (b : bytes) : bytes :=
  take (Z.to_nat length) (drop (Z.to_nat skip) b).

Lemma byte_range_skip skip len c rest :
  Z.of_nat (length c) ≤ skip →
  byte_range skip len (c ++ rest) = byte_range (skip - Z.of_nat (length c)) len rest.
Proof.
  intros. unfold byte_range. rewrite drop_app_ge by lia. do 2 f_equal. lia.
Qed.

Lemma byte_range_split skip len c rest n :
  0 ≤ skip < Z.of_nat (length c) → 0 ≤ len → n = Z.min (Z.of_nat (length c) - skip) len →
  byte_range skip len (c ++ rest) =
  take (Z.to_nat n) (drop (Z.to_nat skip) c) ++ byte_range 0 (len - n) rest.
Proof.
  intros Hs Hl ->. unfold byte_range. rewrite drop_app_le by lia. rewrite take_app.
  rewrite length_drop. f_equal.
  - destruct (Z.le_gt_cases len (Z.of_nat (length c) - skip)).
    + by rewrite Z.min_r by lia.
    + rewrite Z.min_l by lia. rewrite !take_ge by (rewrite length_drop; lia). done.
  - change (Z.to_nat 0) with 0%nat. rewrite drop_0. f_equal. lia.
Qed.

Lemma byte_range_nil skip len : byte_range skip len [] = [].
Proof. unfold byte_range. by rewrite drop_nil, take_nil. Qed.

Lemma byte_range_zero skip b : byte_range skip 0 b = [].
Proof. done. Qed.

Lemma bytes_slice_ok (c : bytes) skip n :
  0 ≤ skip → 0 ≤ n → skip + n ≤ Z.of_nat (length c) →
  bytes_slice c skip (skip + n) = Some (take (Z.to_nat n) (drop (Z.to_nat skip) c)).
Proof.
  intros. unfold bytes_slice.
  rewrite (proj2 (Z.leb_le 0 skip)), (proj2 (Z.leb_le skip _)), (proj2 (Z.leb_le (skip + n) _))
    by lia.
  simpl. by replace (skip + n - skip) with n by lia.
Qed.

Section RangeDelivery.
Context {E : Type → Type} {W : Type} `{H : Handler E W}.
Context (inner : BoxedStorageStream E).

Lemma drains_poll_impl {St} (next : St → prog E (option (storage_result bytes) * St))
    s1 s2 w1 w2 cs oe w' :
  (∀ r wr, runs (next s1) w1 r wr → runs (next s2) w2 r wr) →
  drains next s1 w1 cs oe w' → drains next s2 w2 cs oe w'.
Proof.
  intros Hp D. destruct D; [eapply drains_end|eapply drains_err|eapply drains_chunk]; eauto.
Qed.

Lemma ranged_step_skip st st' skip remaining c w w1 r wr :
  remaining ≠ 0 → u64_from_len c ≤ skip → runs (bs_next inner st) w (Some (Ok c), st') w1 →
  runs (ranged_step inner (st', skip - u64_from_len c, remaining)) w1 r wr →
  runs (ranged_step inner (st, skip, remaining)) w r wr.
Proof.
  intros Hr Hs Hn. unfold ranged_step. rewrite (proj2 (Z.eqb_neq _ _)) by done. intros Hl.
  apply runs_iter, runs_bind. eexists (inl _), w1. split; [|exact Hl].
  apply runs_bind. eexists _, _. split; [exact Hn|]. simpl.
  rewrite (proj2 (Z.leb_le _ _)) by done. by apply runs_ret.
Qed.

Lemma ranged_step_done st st' skip remaining w w1 e :
  remaining ≠ 0 → runs (bs_next inner st) w (e, st') w1 → (∀ c, e ≠ Some (Ok c)) →
  runs (ranged_step inner (st, skip, remaining)) w
    (match e with Some (Err e) => Err e | _ => Ok None end) w1.
Proof.
  intros Hr Hn He. unfold ranged_step. rewrite (proj2 (Z.eqb_neq _ _)) by done.
  apply runs_iter, runs_bind.
  exists (inr (match e with Some (Err e) => Err e | _ => Ok None end)), w1.
  split; [|by apply runs_ret]. apply runs_bind. eexists _, _. split; [exact Hn|].
  destruct e as [[c|e]|]; [by destruct (He c)|by apply runs_ret|by apply runs_ret].
Qed.

Lemma ranged_step_chunk st st' skip remaining c w w1 :
  0 ≤ skip ≤ u64_MAX → 0 < remaining ≤ u64_MAX → chunk_ok c →
  skip < Z.of_nat (length c) → runs (bs_next inner st) w (Some (Ok c), st') w1 →
  let n := Z.min (Z.of_nat (length c) - skip) remaining in
  runs (ranged_step inner (st, skip, remaining)) w
    (Ok (Some (take (Z.to_nat n) (drop (Z.to_nat skip) c), (st', 0, remaining - n)))) w1.
Proof.
  intros Hs Hr Hc Hl Hn n. unfold ranged_step. rewrite (proj2 (Z.eqb_neq _ _)) by lia.
  apply runs_iter, runs_bind. eexists (inr _), w1. split; [|by apply runs_ret].
  apply runs_bind. eexists _, _. split; [exact Hn|]. simpl.
  unfold chunk_ok in Hc. rewrite u64_from_len_small by zbounds.
  rewrite (proj2 (Z.leb_gt _ _)) by lia. fold n.
  rewrite !usize_try_from_u64 by (subst n; zbounds).
  rewrite bytes_slice_ok by (subst n; lia). by apply runs_ret.
Qed.

Definition range_error (skip remaining : Z) (cs : list bytes) (oe : option StorageError) :
    option StorageError :=
  if (remaining =? 0) || (skip + remaining <=? Z.of_nat (length (concat cs)))
  then None else oe.

Lemma ranged_drains st w cs oe w' :
  drains (bs_next inner) st w cs oe w' → Forall chunk_ok cs →
  ∀ skip remaining, u64_ok skip → u64_ok remaining →
  ∃ outs w'', drains (try_unfold_next (ranged_step inner)) (Some (st, skip, remaining)) w
                outs (range_error skip remaining cs oe) w'' ∧
    concat outs = byte_range skip remaining (concat cs).
Proof.
  assert (Z0 : ∀ st skip w cs oe, ∃ outs w'',
    drains (try_unfold_next (ranged_step inner)) (Some (st, skip, 0)) w
      outs (range_error skip 0 cs oe) w'' ∧ concat outs = byte_range skip 0 (concat cs)).
  { intros st0 skip w0 cs0 oe0. exists [], w0. split; [|done].
    eapply drains_end. apply runs_bind. exists (Ok None), w0. split; by apply runs_ret. }
  induction 1 as [st w st' w' Hn|st w e st' w' Hn|st w c st' w1 cs oe w' Hn D IH];
    intros Hok skip remaining Hs Hr;
    (destruct (Z.eq_dec remaining 0) as [->|Hz]; [apply Z0|]).
  - exists [], w'. rewrite byte_range_nil. split; [|done].
    assert (range_error skip remaining [] None = None) as ->
      by (unfold range_error; by destruct (_ || _)).
    eapply drains_end. apply runs_bind. eexists _, _.
    split; [by eapply ranged_step_done|by apply runs_ret].
  - exists [], w'. rewrite byte_range_nil. split; [|done].
    assert (range_error skip remaining [] (Some e) = Some e) as ->.
    { unfold range_error. rewrite (proj2 (Z.eqb_neq _ _)) by done. simpl.
      by rewrite (proj2 (Z.leb_gt _ _)) by zbounds. }
    eapply drains_err. apply runs_bind. eexists _, _.
    split; [by eapply (ranged_step_done _ _ _ _ _ _ (Some (Err e)))|by apply runs_ret].
  - apply Forall_cons in Hok as [Hc Hok]. simpl.
    pose proof (u64_from_len_small c) as Lc. unfold chunk_ok in Hc.
    destruct (Z.le_gt_cases (Z.of_nat (length c)) skip) as [Hle|Hgt].
    + destruct (IH Hok (skip - u64_from_len c) remaining) as (outs & w'' & D' & Hcat);
        [rewrite Lc by zbounds; zbounds|done|].
      exists outs, w''. split.
      * assert (range_error skip remaining (c :: cs) oe =
                range_error (skip - u64_from_len c) remaining cs oe) as ->.
        { unfold range_error. simpl. rewrite length_app, Lc by zbounds.
          destruct (remaining =? 0); [done|]. simpl.
          destruct (Z.leb_spec (skip + remaining) (Z.of_nat (length c + length (concat cs)))),
            (Z.leb_spec (skip - Z.of_nat (length c) + remaining) (Z.of_nat (length (concat cs))));
            done || lia. }
        eapply drains_poll_impl; [|exact D']. intros r wr (r' & wr' & Hr1 & Hr2)%runs_bind.
        apply runs_bind. exists r', wr'. split; [|done].
        eapply ranged_step_skip; try done. rewrite Lc by zbounds. lia.
      * rewrite Hcat, Lc by zbounds. by rewrite byte_range_skip.
    + set (n := Z.min (Z.of_nat (length c) - skip) remaining).
      destruct (IH Hok 0 (remaining - n)) as (outs & w'' & D' & Hcat);
        [zbounds|subst n; zbounds|].
      exists (take (Z.to_nat n) (drop (Z.to_nat skip) c) :: outs), w''. split.
      * assert (range_error skip remaining (c :: cs) oe =
                range_error 0 (remaining - n) cs oe) as ->.
        { unfold range_error. cbn [concat]. rewrite length_app.
          destruct (Z.eqb_spec remaining 0); [done|].
          destruct (Z.eqb_spec (remaining - n) 0);
            destruct (Z.leb_spec (skip + remaining) (Z.of_nat (length c + length (concat cs)))),
            (Z.leb_spec (0 + (remaining - n)) (Z.of_nat (length (concat cs))));
            done || (exfalso; unfold u64_ok in *; subst n; lia). }
        eapply drains_chunk; [|exact D']. apply runs_bind. eexists _, _.
        split; [apply ranged_step_chunk; try done; zbounds|by apply runs_ret].
      * simpl. rewrite Hcat. symmetry. apply byte_range_split; [unfold u64_ok in *; lia| |done].
        unfold u64_ok in *. lia.
Qed.
End RangeDelivery.

Lemma ranged_size_hint {E} (body : StorageByteStream E) skip len :
  size_hint (ranged_storage_stream body skip len) =
  (λ hint, Z.min (u64_saturating_sub hint skip) len) <$> size_hint body.
Proof. unfold ranged_storage_stream. by destruct (size_hint body). Qed.

Lemma byte_range_length skip len b :
  0 ≤ skip → 0 ≤ len →
  Z.of_nat (length (byte_range skip len b)) =
  Z.min (u64_saturating_sub (Z.of_nat (length b)) skip) len.
Proof.
  intros. unfold byte_range. rewrite length_take, length_drop. zbounds.
Qed.

Section RangedSpec.
Context {E : Type → Type} {W : Type} `{H : Handler E W}.

Lemma ranged_collect_runs (body : StorageByteStream E) w cs oe w' skip len :
  delivers (into_inner body) w cs oe w' → Forall chunk_ok cs →
  u64_ok skip → u64_ok len → capacity_ok (size_hint body) →
  ∃ w'', runs (collect_storage_stream (ranged_storage_stream body skip len)) w
     (match range_error skip len cs oe with
      | None => Ok (byte_range skip len (concat cs))
      | Some e => Err e
      end) w''.
Proof.
  intros D Hok Hs Hl Hc.
  destruct (ranged_drains (into_inner body) _ _ _ _ _ D Hok skip len Hs Hl)
    as (outs & w'' & D' & Hcat).
  exists w''. rewrite <- Hcat. apply collect_runs.
  - unfold delivers, ranged_storage_stream. by destruct (_ <$> size_hint body).
  - rewrite ranged_size_hint. destruct (size_hint body) as [n|]; simpl in *; [|done].
    zbounds.
Qed.

(** Where a prefix of [d] is all that was delivered, but the range is complete,
    it is the range of [d]. *)
Lemma range_of_prefix skip len cs oe (d : bytes) :
  u64_ok skip → u64_ok len → concat cs `prefix_of` d → (oe = None → concat cs = d) →
  range_error skip len cs oe = None → byte_range skip len (concat cs) = byte_range skip len d.
Proof.
  intros Hs Hl [rest ->] Hd. unfold range_error, byte_range, u64_ok in *.
  destruct (Z.eqb_spec len 0) as [->|]; [done|]. simpl.
  destruct (Z.leb_spec (skip + len) (Z.of_nat (length (concat cs)))); [|by intros ->; rewrite <- Hd].
  intros _. rewrite drop_app_le by lia. rewrite take_app_le; [done|]. rewrite length_drop. lia.
Qed.

(** C37: reading a range of any stream by [ranged_storage_stream] gives
    exactly the bytes of the range that the stream has, however the stream is
    cut into chunks; an error of the stream shows only when it comes before
    the range is complete; and the size hint is exact when the hint of the
    stream is. *)
Theorem ranged_storage_stream_spec (body : StorageByteStream E) w cs oe w' skip len :
  delivers (into_inner body) w cs oe w' → Forall chunk_ok cs →
  u64_ok skip → u64_ok len → capacity_ok (size_hint body) →
  (∃ w'', runs (collect_storage_stream (ranged_storage_stream body skip len)) w
     (match range_error skip len cs oe with
      | None => Ok (byte_range skip len (concat cs))
      | Some e => Err e
      end) w'') ∧
  (size_hint body = Some (Z.of_nat (length (concat cs))) →
   size_hint (ranged_storage_stream body skip len) =
   Some (Z.of_nat (length (byte_range skip len (concat cs))))).
Proof.
  intros D Hok Hs Hl Hc. split; [by eapply ranged_collect_runs|].
  intros Hb. rewrite ranged_size_hint, Hb. simpl. by rewrite byte_range_length by zbounds.
Qed.
End RangedSpec.
