(* ===== verification/BlobStore.v ===== *)
(** * The [BlobStore] contract (src/src/blob.rs)

    The data of the trait, the trait as a record of programs over the calls
    [E] of a provider, and its default methods. *)
From S2P Require Import Prelude Text Errors Providers Externals Effects Streams.
(** [pub struct BlobWriteOutcome]. *)
Record BlobWriteOutcome : Type := mkBlobWriteOutcome {
  bwo_size_bytes : Z;
  bwo_sha256_hex : string;
}.

(** [pub struct BlobPutOptions] and its [Default]. *)
Record BlobPutOptions : Type := mkBlobPutOptions {
  bpo_content_type : option string;
}.
Definition default_put_options : BlobPutOptions := mkBlobPutOptions None.

(** [pub struct BlobListPage]. *)
Record BlobListPage : Type := mkBlobListPage {
  blp_keys : list string;
  blp_next_continuation : option string;
}.

Section Data.
Context `{EX : Externals}.

(** [pub struct BlobMetadata]. *)
Record BlobMetadata : Type := mkBlobMetadata {
  bm_key : string;
  bm_size_bytes : option Z;
  bm_sha256_hex : option string;
  bm_etag : option string;
  bm_last_modified : option OffsetDateTime;
}.

(** [pub struct BlobBody]. *)
Record BlobBody (E : Type → Type) : Type := mkBlobBody {
  bb_key : string;
  bb_metadata : option BlobMetadata;
  bb_body : StorageByteStream E;
}.
End Data.
Arguments mkBlobBody {EX E} _ _ _.
Arguments bb_key {EX E} _.
Arguments bb_metadata {EX E} _.
Arguments bb_body {EX E} _.

(** The outcome a provider computes for the chunks of a body: it adds up sizes
    and feeds the hasher chunk by chunk. *)
Section Outcome.
Context `{EX : Externals}.

Definition size_of (chunks : list bytes) : Z :=
  foldl (λ n c, u64_saturating_add n (u64_from_len c)) 0 chunks.

Definition sha256_of (chunks : list bytes) : string :=
  sha256_finalize_hex (foldl sha256_update sha256_new chunks).

Definition outcome_of (chunks : list bytes) : BlobWriteOutcome :=
  mkBlobWriteOutcome (size_of chunks) (sha256_of chunks).

(** The digest of a whole body. *)
Definition sha256_hex (b : bytes) : string :=
  sha256_finalize_hex (sha256_update sha256_new b).

Lemma sha256_of_concat `{XL : !ExternalsLaws} chunks :
  sha256_of chunks = sha256_hex (concat chunks).
Proof. apply sha256_incremental. Qed.

Lemma size_of_concat chunks : size_of chunks = Z.min (Z.of_nat (length (concat chunks))) u64_MAX.
Proof.
  unfold size_of.
  assert (G : ∀ n, 0 ≤ n → foldl (λ n c, u64_saturating_add n (u64_from_len c))
      (Z.min n u64_MAX) chunks = Z.min (n + Z.of_nat (length (concat chunks))) u64_MAX).
  { induction chunks as [|c cs IH]; intros n Hn; cbn [foldl concat].
    - simpl. by rewrite Z.add_0_r.
    - rewrite length_app, u64_from_len_min.
      assert (u64_saturating_add (Z.min n u64_MAX) (Z.min (Z.of_nat (length c)) u64_MAX) =
              Z.min (n + Z.of_nat (length c)) u64_MAX) as -> by zbounds.
      rewrite IH by lia. f_equal. lia. }
  apply (G 0). lia.
Qed.
End Outcome.

Section Trait.
Context `{EX : Externals} {E : Type → Type}.

(** [std::ops::Range<u64>]. *)
Record Range : Type := mkRange { range_start : Z; range_end : Z }.

(** [pub trait BlobStore]. *)
Class BlobStore : Type := mkBlobStore {
  bs_backend : StorageBackend;
  put_blob : string → StorageByteStream E → BlobPutOptions →
    prog E (storage_result BlobWriteOutcome);
  put_blob_if_not_exists : string → StorageByteStream E → BlobPutOptions →
    prog E (storage_result (option BlobWriteOutcome));
  get_blob : string → prog E (storage_result (BlobBody E));
  get_blob_range : string → Range → prog E (storage_result (BlobBody E));
  blob_exists : string → prog E (storage_result bool);
  head_blob : string → prog E (storage_result (option BlobMetadata));
  list_blobs_page : string → option string → Z → prog E (storage_result BlobListPage);
  list_blobs : string → prog E (storage_result (list string));
  copy_blob : string → string → prog E (storage_result unit);
  delete_blob : string → prog E (storage_result unit);
}.

(** *** Default methods, from the required ones they call *)

Definition default_put_blob_if_not_exists
    (blob_exists : string → prog E (storage_result bool))
    (put_blob : string → StorageByteStream E → BlobPutOptions →
       prog E (storage_result BlobWriteOutcome))
    (key : string) (body : StorageByteStream E) (options : BlobPutOptions) :
    prog E (storage_result (option BlobWriteOutcome)) :=
  let*? exists_ := blob_exists key in
  if (exists_ : bool) then Ret (Ok None)
  else
    let* r := put_blob key body options in
    Ret (result_map Some r).

Definition default_get_blob_range
    (get_blob : string → prog E (storage_result (BlobBody E)))
    (key : string) (range : Range) : prog E (storage_result (BlobBody E)) :=
  if range_end range <? range_start range
  then Ret (Err (PreconditionFailed key "range end is before range start"))
  else
    let length := range_end range - range_start range in
    let*? blob := get_blob key in
    Ret (Ok (mkBlobBody (bb_key blob) (bb_metadata blob)
               (ranged_storage_stream (bb_body blob) (range_start range) length))).

Definition list_step
    (list_blobs_page : string → option string → Z → prog E (storage_result BlobListPage))
    (prefix : string) '(keys, continuation) :
    prog E (list string * option string + storage_result (list string)) :=
  let* r := list_blobs_page prefix continuation 1000 in
  match r with
  | Err e => Break (Err e)
  | Ok page =>
      let keys := keys ++ blp_keys page in
      match blp_next_continuation page with
      | None => Break (Ok keys)
      | Some c => Continue (keys, Some c)
      end
  end.

Definition default_list_blobs
    (list_blobs_page : string → option string → Z → prog E (storage_result BlobListPage))
    (prefix : string) : prog E (storage_result (list string)) :=
  loop (list_step list_blobs_page prefix) ([], None).

Definition default_copy_blob
    (get_blob : string → prog E (storage_result (BlobBody E)))
    (put_blob : string → StorageByteStream E → BlobPutOptions →
       prog E (storage_result BlobWriteOutcome))
    (from to : string) : prog E (storage_result unit) :=
  let*? blob := get_blob from in
  let*? _ := put_blob to (bb_body blob) default_put_options in
  Ret (Ok tt).
End Trait.
Arguments BlobStore {EX} E.

(** ** Draining pages *)

Section Paging.
Context `{EX : Externals} {E : Type → Type} {W : Type} `{H : Handler E W}.
Context (page : string → option string → Z → prog E (storage_result BlobListPage)).

(** From the continuation [c], the pages hold the keys [ks] and then end
    ([Ok]) or fail. *)
Inductive pages (prefix : string) : option string → W → list string →
    option StorageError → W → Prop :=
| pages_last c w ks w' :
    runs (page prefix c 1000) w (Ok (mkBlobListPage ks None)) w' →
    pages prefix c w ks None w'
| pages_fail c w e w' :
    runs (page prefix c 1000) w (Err e) w' → pages prefix c w [] (Some e) w'
| pages_more c w ks t w1 ks' oe w' :
    runs (page prefix c 1000) w (Ok (mkBlobListPage ks (Some t))) w1 →
    pages prefix (Some t) w1 ks' oe w' → pages prefix c w (ks ++ ks') oe w'.

Lemma list_loop_runs prefix c w ks oe w' acc :
  pages prefix c w ks oe w' →
  runs (loop (list_step page prefix) (acc, c)) w
    (match oe with None => Ok (acc ++ ks) | Some e => Err e end) w'.
Proof.
  intros P. revert acc.
  induction P as [c w ks w' Hp|c w e w' Hp|c w ks t w1 ks' oe w' Hp P IH]; intros acc;
    apply runs_iter; apply runs_bind.
  - eexists (inr _), w'. split; [|by apply runs_ret].
    apply runs_bind. eexists _, _. split; [exact Hp|]. by apply runs_ret.
  - eexists (inr _), w'. split; [|by apply runs_ret].
    apply runs_bind. eexists _, _. split; [exact Hp|]. by apply runs_ret.
  - eexists (inl _), w1. split.
    + apply runs_bind. eexists _, _. split; [exact Hp|]. by apply runs_ret.
    + specialize (IH (acc ++ ks)). simpl. destruct oe; [done|]. by rewrite app_assoc.
Qed.

(** [list_blobs] returns the keys of all pages in order, or the error of
    the first page that fails. *)
Theorem list_blobs_drains (prefix : string) w ks oe w' :
  pages prefix None w ks oe w' →
  runs (default_list_blobs page prefix) w
    (match oe with None => Ok ks | Some e => Err e end) w'.
Proof. apply (list_loop_runs prefix None w ks oe w' []). Qed.
End Paging.

(** ** Pages of a sorted listing

    A provider that lists a strictly increasing sequence of keys and continues
    after the last key of a page. *)

Definition after_token (c : option string) (key : string) : bool :=
  match c with Some t => str_ltb t key | None => true end.

Definition page_of (limit : nat) (ks : list string) : BlobListPage :=
  if Nat.ltb limit (length ks)
  then mkBlobListPage (take limit ks) (last (take limit ks))
  else mkBlobListPage ks None.

Definition str_lt (a b : string) : Prop := str_ltb a b = true.

#[export] Instance str_lt_trans : Transitive str_lt.
Proof.
  intros a b c. unfold str_lt. rewrite !str_ltb_leb, !negb_true_iff. intros Hab Hbc.
  destruct (str_leb c a) eqn:E; [|done]. apply str_leb_le in E.
  assert (String.le a b) as Hle.
  { destruct (total String.le a b) as [|Hba]; [done|]. apply str_leb_le in Hba. congruence. }
  assert (String.le c b) as Hcb by by etrans. apply str_leb_le in Hcb. congruence.
Qed.

#[export] Instance str_lt_irrefl : Irreflexive str_lt.
Proof.
  intros a. unfold complement, str_lt. rewrite str_ltb_leb, negb_true_iff. intros E.
  assert (String.le a a) as Hle by done. apply str_leb_le in Hle. congruence.
Qed.

Definition sorted_keys (ks : list string) : Prop := StronglySorted str_lt ks.

Lemma filter_all {A} (f : A → bool) l : Forall (λ x, f x = true) l → List.filter f l = l.
Proof. induction 1 as [|x l Hx Hl IH]; simpl; [done|]. by rewrite Hx, IH. Qed.

Lemma filter_none {A} (f : A → bool) l : Forall (λ x, f x = false) l → List.filter f l = [].
Proof. induction 1 as [|x l Hx Hl IH]; simpl; [done|]. by rewrite Hx. Qed.

Lemma sorted_app_inv (l1 l2 : list string) :
  sorted_keys (l1 ++ l2) →
  sorted_keys l2 ∧ ∀ x y, x ∈ l1 → y ∈ l2 → str_lt x y.
Proof.
  unfold sorted_keys. induction l1 as [|a l1 IH]; simpl; intros S.
  - split; [done|]. by intros x y ?%not_elem_of_nil.
  - apply StronglySorted_inv in S as [S F]. destruct (IH S) as [S2 HL]. split; [done|].
    intros x y [->|Hx]%elem_of_cons Hy; [|by apply HL].
    rewrite Forall_forall in F. apply F. apply elem_of_app. by right.
Qed.

Lemma sorted_filter_after ks1 t ks2 :
  sorted_keys (ks1 ++ [t] ++ ks2) →
  List.filter (after_token (Some t)) (ks1 ++ [t] ++ ks2) = ks2.
Proof.
  intros S. rewrite List.filter_app.
  assert (S' : sorted_keys ([t] ++ ks2)) by apply (sorted_app_inv _ _ S).
  rewrite filter_none; [|].
  - simpl. pose proof (str_lt_irrefl t) as I. unfold complement, str_lt in I.
    destruct (str_ltb t t); [done|]. apply filter_all, Forall_forall. intros x Hx.
    apply StronglySorted_inv in S' as [_ F]. rewrite Forall_forall in F. by apply F.
  - apply Forall_forall. intros x Hx. simpl.
    assert (str_lt x t) as Hl.
    { apply sorted_app_inv in S as [_ S]. apply S; [done|]. set_solver. }
    destruct (str_ltb t x) eqn:E; [|done]. exfalso. apply (str_lt_irrefl x). by etrans.
Qed.

(** A sorted list without repetition is strictly increasing. *)
Lemma sorted_keys_sort (ks : list string) : NoDup ks → sorted_keys (merge_sort String.le ks).
Proof.
  intros N. assert (S : StronglySorted String.le (merge_sort String.le ks))
    by (apply StronglySorted_merge_sort; apply _).
  rewrite <- (merge_sort_Permutation String.le ks) in N. unfold sorted_keys.
  induction S as [|a l S IH F]; [constructor|]. apply NoDup_cons in N as [Ha N].
  constructor; [by apply IH|]. apply Forall_forall. intros b Hb. rewrite Forall_forall in F.
  unfold str_lt. rewrite str_ltb_leb, negb_true_iff. destruct (str_leb b a) eqn:E; [|done].
  apply str_leb_le in E. assert (a = b) by (apply (anti_symm String.le); [by apply F|done]).
  by subst b.
Qed.

Lemma sorted_keys_nodup ks : sorted_keys ks → NoDup ks.
Proof.
  induction 1 as [|a l S IH F]; constructor; [|done]. intros Ha. rewrite Forall_forall in F.
  by apply (str_lt_irrefl a), F.
Qed.

(** A strictly increasing list is determined by its elements. *)
Lemma sorted_keys_unique ks ks' :
  sorted_keys ks → sorted_keys ks' → (∀ k, k ∈ ks ↔ k ∈ ks') → ks = ks'.
Proof.
  intros S S' E. apply (StronglySorted_unique_strong str_lt); [|done|done|].
  - intros a b _ _ Hab Hba. by destruct (str_lt_irrefl a (transitivity Hab Hba)).
  - apply NoDup_Permutation; [by apply sorted_keys_nodup..|done].
Qed.

Lemma sorted_keys_filter f ks : sorted_keys ks → sorted_keys (List.filter f ks).
Proof.
  induction 1 as [|a l S IH F]; simpl; [constructor|]. destruct (f a); [|done].
  constructor; [done|]. rewrite Forall_forall in F |- *. intros x Hx. apply F.
  apply list_elem_of_In, filter_In in Hx as [Hx _]. by apply list_elem_of_In.
Qed.

Lemma filter_and {A} (f g : A → bool) l :
  List.filter (λ x, f x && g x) l = List.filter g (List.filter f l).
Proof.
  induction l as [|x l IH]; simpl; [done|]. destruct (f x); simpl; [|done]. by destruct (g x); rewrite IH.
Qed.

Section SortedPaging.
Context `{EX : Externals} {E : Type → Type} {W : Type} `{H : Handler E W}.
Context (page : string → option string → Z → prog E (storage_result BlobListPage)).

(** If every page is a page of the keys of a strictly increasing list after
    the token, in every state of [Q], draining the pages gives the list. *)
Lemma sorted_pages (Q : W → Prop) (prefix : string) ks :
  sorted_keys ks →
  (∀ c w, Q w → ∃ w', runs (page prefix c 1000) w
     (Ok (page_of (Z.to_nat 1000) (List.filter (after_token c) ks))) w' ∧ Q w') →
  ∀ w, Q w → ∃ w', pages page prefix None w ks None w' ∧ Q w'.
Proof.
  intros S Hp.
  assert (G : ∀ n rest done_ c w, length rest = n → ks = done_ ++ rest →
    List.filter (after_token c) ks = rest → Q w →
    ∃ w', pages page prefix c w rest None w' ∧ Q w').
  { induction n as [n IH] using lt_wf_ind. intros rest done_ c w Hn Hks Hf HQ.
    destruct (Hp c w HQ) as (w1 & Hr & HQ1). rewrite Hf in Hr. unfold page_of in Hr.
    destruct (Nat.ltb_spec (Z.to_nat 1000) (length rest)) as [Hlt|Hge].
    - assert (∃ l t, take (Z.to_nat 1000) rest = l ++ [t]) as (l & t & Ht).
      { destruct (take (Z.to_nat 1000) rest) as [|x q] eqn:Et using rev_ind.
        - apply (f_equal length) in Et. rewrite length_take in Et. cbn [length] in Et. lia.
        - eauto. }
      rewrite Ht, last_snoc in Hr.
      assert (∃ d, rest = (l ++ [t]) ++ d ∧ (length d < n)%nat) as (d & -> & Hd).
      { exists (drop (Z.to_nat 1000) rest). split; [by rewrite <- Ht, take_drop|].
        rewrite length_drop. lia. }
      destruct (IH (length d) Hd d (done_ ++ l ++ [t]) (Some t) w1) as (w2 & P & HQ2);
        [done| | |done|].
      + by rewrite Hks, !app_assoc.
      + rewrite Hks in S |- *. rewrite <- !app_assoc, app_assoc in S.
        rewrite <- !app_assoc, app_assoc. by apply sorted_filter_after.
      + exists w2. split; [|done]. by eapply pages_more.
    - exists w1. split; [|done]. by eapply pages_last. }
  intros w. apply (G (length ks) ks [] None); [done|done|]. by apply filter_all, Forall_true.
Qed.

(** The same where a page may fail: the listing is the list or an error. *)
Lemma sorted_pages_twp (Q : W → Prop) (prefix : string) ks :
  sorted_keys ks →
  (∀ c w, Q w → twp (page prefix c 1000) (λ r w', Q w' ∧
     ∀ p, r = Ok p → p = page_of (Z.to_nat 1000) (List.filter (after_token c) ks)) w) →
  ∀ w, Q w → twp (default_list_blobs page prefix) (λ r w', Q w' ∧ ∀ l, r = Ok l → l = ks) w.
Proof.
  intros S Hp w HQ. unfold default_list_blobs, loop.
  apply (twp_iter_inv (λ '(keys, c) w, Q w ∧ ks = keys ++ List.filter (after_token c) ks)
    (λ '(keys, c) _, length (List.filter (after_token c) ks))).
  { split; [done|]. symmetry. by apply filter_all, Forall_true. }
  clear w HQ. intros [keys c] w [HQ Hks]. unfold list_step. apply twp_bind.
  eapply twp_mono; [by apply Hp|]. intros [p|e] w1 [HQ1 Hpage]; [|apply twp_ret; by apply twp_ret].
  rewrite (Hpage p eq_refl). clear Hpage. set (rest := List.filter (after_token c) ks) in *.
  unfold page_of. destruct (Nat.ltb_spec (Z.to_nat 1000) (length rest)) as [Hlt|Hge].
  2: { apply twp_ret. simpl. apply twp_ret. split; [done|]. intros l [= <-]. done. }
  assert (∃ l t, take (Z.to_nat 1000) rest = l ++ [t]) as (l & t & Ht).
  { destruct (take (Z.to_nat 1000) rest) as [|x q] eqn:Et using rev_ind; [|eauto].
    apply (f_equal length) in Et. rewrite length_take in Et. cbn [length] in Et. lia. }
  assert (Hrest : rest = (l ++ [t]) ++ drop (Z.to_nat 1000) rest) by by rewrite <- Ht, take_drop.
  cbn [blp_keys blp_next_continuation]. rewrite Ht, last_snoc. apply twp_ret.
  assert (Hnext : List.filter (after_token (Some t)) ks = drop (Z.to_nat 1000) rest).
  { assert (Hks2 : ks = (keys ++ l) ++ [t] ++ drop (Z.to_nat 1000) rest)
      by (rewrite Hks at 1; rewrite Hrest at 1; by rewrite !app_assoc).
    rewrite Hks2. apply sorted_filter_after. by rewrite <- Hks2. }
  split; [split; [done|]|].
  - rewrite Hnext. rewrite <- app_assoc, <- Hrest. done.
  - rewrite Hnext, length_drop. lia.
Qed.
End SortedPaging.
