(* ===== verification/Objects.v ===== *)
(** * Object data and the two object-level contracts

    src/src/object.rs (the records of [StorageService]) and
    src/src/streaming_object.rs (the records and traits of the bucket/key
    API). *)
From S2P Require Import Prelude Text Errors Providers Externals Effects Streams BlobStore.
(** [pub type ObjectMetadata = BTreeMap<String, String>]. *)
Abbreviation ObjectMetadata := (gmap string string).

Section Records.
Context `{EX : Externals}.

(** ** object.rs *)

Record StoragePutRequest : Type := mkStoragePutRequest {
  spr_namespace : StorageNamespace;
  spr_file_name : option string;
  spr_mime_type : option string;
  spr_bytes : bytes;
}.

Record StoragePutStreamRequest (E : Type → Type) : Type := mkStoragePutStreamRequest {
  sps_namespace : StorageNamespace;
  sps_file_name : option string;
  sps_mime_type : option string;
  sps_body : StorageByteStream E;
}.

Record StoredObject : Type := mkStoredObject {
  so_object_id : Uuid;
  so_namespace : StorageNamespace;
  so_backend : StorageBackend;
  so_storage_key : string;
  so_original_file_name : option string;
  so_mime_type : option string;
  so_size_bytes : Z;
  so_sha256_hex : string;
  so_created_at : OffsetDateTime;
}.

Record StorageObjectBody : Type := mkStorageObjectBody {
  sob_object : StoredObject;
  sob_bytes : bytes;
}.

Record StorageObjectStream (E : Type → Type) : Type := mkStorageObjectStream {
  sos_object : StoredObject;
  sos_body : StorageByteStream E;
}.

(** ** streaming_object.rs *)

Record ObjectInfo : Type := mkObjectInfo {
  oi_bucket : string;
  oi_key : string;
  oi_content_type : option string;
  oi_metadata : ObjectMetadata;
  oi_size_bytes : Z;
  oi_sha256_hex : string;
  oi_etag : option string;
  oi_last_modified : OffsetDateTime;
}.

Record ObjectContentRange : Type := mkObjectContentRange {
  ocr_start : Z;
  ocr_end : Z;
  ocr_total_size : Z;
}.

(** [len]: an unchecked [u64] subtraction. *)
Definition ocr_len (r : ObjectContentRange) : Z := (ocr_end r - ocr_start r) mod 2 ^ 64.

Definition ocr_is_empty (r : ObjectContentRange) : bool := ocr_start r =? ocr_end r.

Record ObjectRangeBody (E : Type → Type) : Type := mkObjectRangeBody {
  orb_object : ObjectInfo;
  orb_range : ObjectContentRange;
  orb_content_length : Z;
  orb_body : StorageByteStream E;
}.

(** [Box<dyn MultipartWriter>]: a state with the three methods;
    [write_chunk] borrows it, [complete] and [abort] consume it. *)
Record MultipartWriter (E : Type → Type) : Type := mkMultipartWriter {
  mw_state : Type;
  mw_cur : mw_state;
  mw_write_chunk : mw_state → bytes → prog E (storage_result unit * mw_state);
  mw_complete : mw_state → prog E (storage_result ObjectInfo);
  mw_abort : mw_state → prog E (storage_result unit);
}.

(** [pub trait StreamingObjectStore]. *)
Class StreamingObjectStore (E : Type → Type) : Type := mkStreamingObjectStore {
  put_object_stream : string → string → option string → ObjectMetadata →
    StorageByteStream E → prog E (storage_result ObjectInfo);
  create_multipart_object : string → string → option string → ObjectMetadata →
    prog E (storage_result (MultipartWriter E));
  get_object_range : string → string → Range → prog E (storage_result (ObjectRangeBody E));
  get_object_metadata : string → string → prog E (storage_result ObjectInfo);
  list_objects : string → string → prog E (storage_result (list ObjectInfo));
  delete_object : string → string → prog E (storage_result unit);
}.
End Records.

Arguments mkStoragePutStreamRequest {E} _ _ _ _.
Arguments sps_namespace {E} _.
Arguments sps_file_name {E} _.
Arguments sps_mime_type {E} _.
Arguments sps_body {E} _.
Arguments mkStorageObjectStream {EX E} _ _.
Arguments sos_object {EX E} _.
Arguments sos_body {EX E} _.
Arguments mkObjectRangeBody {EX E} _ _ _ _.
Arguments orb_object {EX E} _.
Arguments orb_range {EX E} _.
Arguments orb_content_length {EX E} _.
Arguments orb_body {EX E} _.
Arguments mkMultipartWriter {EX E} _ _ _ _ _.
Arguments mw_state {EX E} _.
Arguments mw_cur {EX E} _.
Arguments mw_write_chunk {EX E} _ _ _.
Arguments mw_complete {EX E} _ _.
Arguments mw_abort {EX E} _ _.

(** [serde_json::to_vec] and [serde_json::from_slice] at [ObjectInfo], whose
    serde implementations are derived. *)
Class SerdeJson `{EX : Externals} : Type := {
  json_to_vec : ObjectInfo → result bytes string;
  json_from_slice : bytes → result ObjectInfo string;
}.

(** Serialization of [ObjectInfo] succeeds and is read back. *)
Class SerdeJsonLaws `{SJ : SerdeJson} : Prop := {
  json_roundtrip : ∀ o : ObjectInfo, ∃ b, json_to_vec o = Ok b ∧ json_from_slice b = Ok o;
}.
