(* ===== verification/Service.v ===== *)
(** * The storage service (src/src/service.rs): the code

    The [ObjectStorage] trait and [StorageService].  The service makes two
    calls of its own, [Uuid::new_v4] and [OffsetDateTime::now_utc], which the
    class [ServiceCalls] names among the calls of the environment. *)
From S2P Require Import Prelude Text Errors Providers Externals Keys Effects Streams BlobStore Objects.
Class ServiceCalls `{EX : Externals} (E : Type → Type) : Type := {
  new_v4 : E Uuid;
  now_utc : E OffsetDateTime;
}.

(** [pub trait ObjectStorage: BlobStore]. *)
Class ObjectStorage `{EX : Externals} (E : Type → Type) : Type := mkObjectStorage {
  object_blob_store :: BlobStore E;
  put_object : StoredObject → bytes → prog E (storage_result StoredObject);
  get_object : StoredObject → prog E (storage_result StorageObjectBody);
  delete_object : StoredObject → prog E (storage_result unit);
}.

Section Build.
Context `{EX : Externals} {E : Type → Type} `{SC : !ServiceCalls E}.

Definition build_stream_stored_object (backend : StorageBackend)
    (request : StoragePutStreamRequest E) : prog E StoredObject :=
  let* object_id := call new_v4 in
  let extension := sps_file_name request ≫= file_extension in
  match build_storage_key (sps_namespace request) object_id extension with
  | None => Panic "byte index is not a char boundary"
  | Some storage_key =>
      let* created_at := call now_utc in
      Ret (mkStoredObject object_id (sps_namespace request) backend storage_key
             (sps_file_name request) (sps_mime_type request) 0 "" created_at)
  end.
End Build.

Module StorageService.
Section Code.
Context `{EX : Externals} {E : Type → Type} `{SC : !ServiceCalls E} `{OS : !ObjectStorage E}.

Definition backend : StorageBackend := bs_backend.

Definition put_object_stream (request : StoragePutStreamRequest E) :
    prog E (storage_result StoredObject) :=
  let* object := build_stream_stored_object bs_backend request in
  let options := mkBlobPutOptions (sps_mime_type request) in
  let*? outcome := put_blob (so_storage_key object) (sps_body request) options in
  Ret (Ok (mkStoredObject (so_object_id object) (so_namespace object) (so_backend object)
             (so_storage_key object) (so_original_file_name object) (so_mime_type object)
             (bwo_size_bytes outcome) (bwo_sha256_hex outcome) (so_created_at object))).

Definition put_object (request : StoragePutRequest) : prog E (storage_result StoredObject) :=
  put_object_stream
    (mkStoragePutStreamRequest (spr_namespace request) (spr_file_name request)
       (spr_mime_type request) (from_bytes (spr_bytes request))).

Definition get_object_stream (object : StoredObject) :
    prog E (storage_result (StorageObjectStream E)) :=
  let*? body := get_blob (so_storage_key object) in
  Ret (Ok (mkStorageObjectStream object (bb_body body))).

Definition get_object (object : StoredObject) : prog E (storage_result StorageObjectBody) :=
  let*? object_stream := get_object_stream object in
  let*? b := collect_storage_stream (sos_body object_stream) in
  Ret (Ok (mkStorageObjectBody (sos_object object_stream) b)).

Definition get_object_range_stream (object : StoredObject) (range : Range) :
    prog E (storage_result (StorageObjectStream E)) :=
  let*? body := get_blob_range (so_storage_key object) range in
  Ret (Ok (mkStorageObjectStream object (bb_body body))).

Definition delete_object (object : StoredObject) : prog E (storage_result unit) :=
  Service.delete_object object.

Definition object_exists (object : StoredObject) : prog E (storage_result bool) :=
  blob_exists (so_storage_key object).

Definition object_backend_metadata (object : StoredObject) :
    prog E (storage_result (option BlobMetadata)) :=
  head_blob (so_storage_key object).
End Code.
End StorageService.
