(* ===== verification/Azure.v ===== *)
(** * The Azure placeholder (src/src/azure.rs)

    Every operation of [AzureBlobStorageBackend] is the error of an
    unsupported backend; the listing of all keys is the default method. *)
From S2P Require Import Prelude Text Errors Providers Externals Effects Streams BlobStore Objects Service.
(** [pub struct AzureBlobStorageConfig] and the backend that keeps it. *)
Record AzureBlobStorageConfig : Type := mkAzureConfig {
  az_account : option string;
  az_connection_string : option string;
  az_container : string;
  az_key_prefix : option string;
  az_credential : option string;
}.

Record AzureBlobStorageBackend : Type := mkAzure { config : AzureBlobStorageConfig }.

Definition azure_new (config : AzureBlobStorageConfig) : AzureBlobStorageBackend :=
  mkAzure config.

Section Azure.
Context `{EX : Externals} {E : Type → Type}.

Definition unsupported {A} : prog E (storage_result A) :=
  Ret (Err (unsupported_backend AzureBlob)).

Definition azure_blob_store (self : AzureBlobStorageBackend) : BlobStore E := {|
  bs_backend := AzureBlob;
  put_blob _key _body _options := unsupported;
  put_blob_if_not_exists _key _body _options := unsupported;
  get_blob _key := unsupported;
  get_blob_range _key _range := unsupported;
  blob_exists _key := unsupported;
  head_blob _key := unsupported;
  list_blobs_page _prefix _continuation _limit := unsupported;
  list_blobs := default_list_blobs (λ _prefix _continuation _limit, unsupported);
  copy_blob _from _to := unsupported;
  delete_blob _key := unsupported;
|}.

Definition azure_object_storage (self : AzureBlobStorageBackend) : ObjectStorage E := {|
  object_blob_store := azure_blob_store self;
  Service.put_object _object _bytes := unsupported;
  Service.get_object _object := unsupported;
  Service.delete_object _object := unsupported;
|}.
End Azure.

Section AzureSpec.
Context `{EX : Externals} {E : Type → Type} `{SC : !ServiceCalls E}
  {W : Type} `{H : Handler E W}.

(** Running [p] from any state gives the error of the unsupported backend and
    leaves the state alone. *)
Definition refuses {A} (p : prog E (storage_result A)) : Prop :=
  ∀ w, runs p w (Err (UnsupportedBackend "azure_blob")) w.

(** C40: every operation of the Azure placeholder returns
    [UnsupportedBackend] with the name of the backend and makes no call; that
    includes listing all keys, the object operations, and reading, checking
    and deleting through a [StorageService] on top of it. *)
Theorem azure_unsupported (self : AzureBlobStorageBackend) :
  let OS := azure_object_storage self in
  (∀ k b o, refuses (put_blob k b o)) ∧ (∀ k b o, refuses (put_blob_if_not_exists k b o)) ∧
  (∀ k, refuses (get_blob k)) ∧ (∀ k r, refuses (get_blob_range k r)) ∧
  (∀ k, refuses (blob_exists k)) ∧ (∀ k, refuses (head_blob k)) ∧
  (∀ p c l, refuses (list_blobs_page p c l)) ∧ (∀ p, refuses (list_blobs p)) ∧
  (∀ k k', refuses (copy_blob k k')) ∧ (∀ k, refuses (delete_blob k)) ∧
  (∀ o b, refuses (put_object o b)) ∧
  (∀ o, refuses (StorageService.get_object o) ∧ refuses (StorageService.delete_object o) ∧
        refuses (StorageService.object_exists o) ∧
        refuses (StorageService.object_backend_metadata o)) ∧
  is_retryable (unsupported_backend AzureBlob) = false.
Proof.
  intros OS. split_and!; intros; split_and?; try done; intros w; by exists 1%nat.
Qed.
End AzureSpec.
