(* ===== verification/S3.v ===== *)
(** * The S3 provider (src/src/s3.rs): the code

    The client of the AWS SDK is not part of the repository: a call [s3E] is
    one request, with the fields the code sets, and its answer is what the code
    reads of the response.  The code looks only at the [Debug] text of an
    [SdkError]; the HTTP status and the error code it stands for are what the
    documentation of the service speaks of (S3Errors.v, S3Server.v). *)
From stdpp Require Import pretty.
From S2P Require Import Prelude Text Errors Providers Externals Keys Effects Streams BlobStore Objects Service.
From Stdlib Require Import Ascii.

Definition MULTIPART_PART_SIZE : Z := 8 * 1024 * 1024.

(** [pub struct S3StorageConfig] and the backend, which keeps it beside the
    client. *)
Record S3StorageConfig : Type := mkS3Config {
  s3_endpoint_url : string;
  s3_region : string;
  s3_bucket : string;
  s3_key_prefix : option string;
  s3_access_key_id : string;
  s3_secret_access_key : string;
  s3_path_style : bool;
}.

Record S3StorageBackend : Type := mkS3 { s3_config : S3StorageConfig }.

(** What the code takes from the SDK: errors with their [Debug] text, and the
    readers of response bodies.  An error that is a response has an HTTP status
    and an error code, which the code never asks for. *)
Class S3Sdk : Type := {
  SdkError : Type;
  sdk_debug : SdkError → string;
  sdk_status : SdkError → option Z;
  sdk_code : SdkError → option string;
  ResponseBody : Type;
}.

(** ** Keys *)

Definition provider_key (self : S3StorageBackend) (key : string) : storage_result string :=
  let? _ := validate_blob_key key in
  match s3_key_prefix (s3_config self) with
  | None => Ok key
  | Some prefix =>
      let prefix := trim_matches "/" prefix in
      if str_is_empty prefix then Ok key
      else let? _ := validate_blob_key prefix in Ok (prefix +:+ "/" +:+ key)
  end.

Definition strip_provider_prefix (self : S3StorageBackend) (provider_key : string) : string :=
  match s3_key_prefix (s3_config self) with
  | None => provider_key
  | Some prefix =>
      let prefix := trim_matches "/" prefix in
      default provider_key (strip_prefix prefix provider_key ≫= strip_prefix "/")
  end.

(** ** Errors *)

Definition is_retryable_s3_message (message : string) : bool :=
  let lower := to_ascii_lowercase message in
  contains_str "timeout" lower || contains_str "timed out" lower ||
  contains_str "dispatch" lower || contains_str "connection" lower ||
  contains_str "throttl" lower || contains_str "slowdown" lower ||
  contains_str "temporarily" lower || contains_str "status: 5" lower ||
  contains_str "code: 5" lower.

Section Sdk.
Context `{EX : Externals} `{SDK : S3Sdk} (path_debug : PathBuf → string).

Definition is_missing_error (err : SdkError) : bool :=
  let error := sdk_debug err in
  contains_str "NoSuchKey" error || contains_str "NotFound" error ||
  contains_str "Not Found" error || contains_str "status: 404" error ||
  contains_str "code: 404" error.

Definition is_precondition_error (err : StorageError) : bool :=
  let message := error_to_string path_debug err in
  contains_str "PreconditionFailed" message || contains_str "Precondition Failed" message ||
  contains_str "status: 412" message || contains_str "code: 412" message.

Definition map_s3_error (err : SdkError) : StorageError :=
  let message := sdk_debug err in
  let retryable := is_retryable_s3_message message in
  Provider (backend_as_str S3) message retryable.

(** ** Requests *)

Record CompletedPart : Type := mkCompletedPart {
  part_e_tag : option string;
  part_number : Z;
}.

(** Of [GetObjectOutput] and [HeadObjectOutput]: [content_length] (an [i64]),
    [e_tag] and the body. *)
Record ObjectOutput (B : Type) : Type := mkObjectOutput {
  out_content_length : option Z;
  out_e_tag : option string;
  out_body : B;
}.

Record ListOutput : Type := mkListOutput {
  out_contents : list (option string);
  out_next_token : option string;
}.

Abbreviation sdk_result A := (result A SdkError).

Inductive s3E : Type → Type :=
| PutObject (bucket key : string) (body : bytes) (content_type if_none_match : option string) :
    s3E (sdk_result unit)
| CreateMultipartUpload (bucket key : string) (content_type : option string) :
    s3E (sdk_result (option string))
| UploadPart (bucket key upload_id : string) (number : Z) (body : bytes) :
    s3E (sdk_result (option string))
| CompleteMultipartUpload (bucket key upload_id : string) (parts : list CompletedPart)
    (if_none_match : option string) : s3E (sdk_result unit)
| AbortMultipartUpload (bucket key upload_id : string) : s3E (sdk_result unit)
| GetObject (bucket key : string) (range : option string) :
    s3E (sdk_result (ObjectOutput ResponseBody))
| ReadBody (body : ResponseBody) : s3E (option (result bytes string) * ResponseBody)
| HeadObject (bucket key : string) : s3E (sdk_result (ObjectOutput unit))
| ListObjectsV2 (bucket prefix : string) (token : option string) (max_keys : Z) :
    s3E (sdk_result ListOutput)
| CopyObject (bucket key copy_source : string) : s3E (sdk_result unit)
| DeleteObject (bucket key : string) : s3E (sdk_result unit)
| S3NewV4 : s3E Uuid
| S3NowUtc : s3E OffsetDateTime.
End Sdk.
Arguments mkObjectOutput {B} _ _ _.
Arguments out_content_length {B} _.
Arguments out_e_tag {B} _.
Arguments out_body {B} _.

#[export] Instance s3_service_calls `{EX : Externals} `{SDK : S3Sdk} : ServiceCalls s3E := {|
  new_v4 := S3NewV4;
  now_utc := S3NowUtc;
|}.

(** ** Writing *)

Section Put.
Context `{EX : Externals} `{SDK : S3Sdk} (path_debug : PathBuf → string).
Context (self : S3StorageBackend).

Definition bucket_name : string := s3_bucket (s3_config self).

Record MultipartUploadState : Type := mkMultipartUploadState {
  mus_upload_id : string;
  mus_next_part_number : Z;
  mus_completed_parts : list CompletedPart;
}.

(** [i32] addition in a release build wraps around. *)
Definition i32_add (a b : Z) : Z := (a + b + 2 ^ 31) mod 2 ^ 32 - 2 ^ 31.

Definition when_condition (if_not_exists : bool) : option string :=
  if if_not_exists then Some "*" else None.

Definition put_single_blob (provider_key : string) (b : bytes) (options : BlobPutOptions)
    (if_not_exists : bool) : prog s3E (storage_result unit) :=
  let* r := call (PutObject bucket_name provider_key b (bpo_content_type options)
                    (when_condition if_not_exists)) in
  Ret (map_err map_s3_error r).

Definition create_multipart_upload (provider_key : string) (options : BlobPutOptions) :
    prog s3E (storage_result MultipartUploadState) :=
  let* r := call (CreateMultipartUpload bucket_name provider_key (bpo_content_type options)) in
  let!? upload_id := map_err map_s3_error r in
  match upload_id with
  | None => Ret (Err (Provider (backend_as_str S3)
                        "S3 multipart upload did not return an upload id" true))
  | Some upload_id => Ret (Ok (mkMultipartUploadState upload_id 1 []))
  end.

Definition upload_part (provider_key : string) (state : MultipartUploadState) (b : bytes) :
    prog s3E (storage_result MultipartUploadState) :=
  let part_number := mus_next_part_number state in
  let* r := call (UploadPart bucket_name provider_key (mus_upload_id state) part_number b) in
  let!? e_tag := map_err map_s3_error r in
  Ret (Ok (mkMultipartUploadState (mus_upload_id state) (i32_add part_number 1)
             (mus_completed_parts state ++ [mkCompletedPart e_tag part_number]))).

Definition complete_multipart_upload (provider_key : string) (state : MultipartUploadState)
    (if_not_exists : bool) : prog s3E (storage_result unit) :=
  let upload_id := mus_upload_id state in
  let* r := call (CompleteMultipartUpload bucket_name provider_key upload_id
                    (mus_completed_parts state) (when_condition if_not_exists)) in
  match map_err map_s3_error r with
  | Ok _ => Ret (Ok tt)
  | Err err =>
      let* _ := call (AbortMultipartUpload bucket_name provider_key upload_id) in
      Ret (Err err)
  end.

(** The inner loop of [put_blob_inner]: upload full parts while the buffer has
    one. *)
Definition flush_step (provider_key : string) (options : BlobPutOptions) '(buffer, multipart) :
    prog s3E (bytes * option MultipartUploadState +
              storage_result (bytes * option MultipartUploadState)) :=
  if Z.of_nat (length buffer) <? MULTIPART_PART_SIZE then Break (Ok (buffer, multipart))
  else
    let* state := match multipart with
                  | Some state => Ret (Ok state)
                  | None => create_multipart_upload provider_key options
                  end in
    match state with
    | Err e => Break (Err e)
    | Ok state =>
        let part := take (Z.to_nat MULTIPART_PART_SIZE) buffer in
        let buffer := drop (Z.to_nat MULTIPART_PART_SIZE) buffer in
        let* r := upload_part provider_key state part in
        match r with
        | Err e => Break (Err e)
        | Ok state => Continue (buffer, Some state)
        end
    end.

(** The loop over the body. *)
Definition body_step (provider_key : string) (options : BlobPutOptions)
    (stream : BoxedStorageStream s3E) '(st, buffer, hasher, size_bytes, multipart) :
    prog s3E (bs_state stream * bytes * Sha256 * Z * option MultipartUploadState +
              storage_result (bytes * Sha256 * Z * option MultipartUploadState)) :=
  let* ' (chunk, st') := bs_next stream st in
  match chunk with
  | None => Break (Ok (buffer, hasher, size_bytes, multipart))
  | Some (Err e) => Break (Err e)
  | Some (Ok chunk) =>
      let size_bytes := u64_saturating_add size_bytes (u64_from_len chunk) in
      let hasher := sha256_update hasher chunk in
      let buffer := buffer ++ chunk in
      let* r := loop (flush_step provider_key options) (buffer, multipart) in
      match r with
      | Err e => Break (Err e)
      | Ok (buffer, multipart) => Continue (st', buffer, hasher, size_bytes, multipart)
      end
  end.

(** The end of [put_blob_inner]: a collision of a conditional put is [None]. *)
Definition put_outcome (if_not_exists : bool) (outcome : BlobWriteOutcome)
    (r : storage_result unit) : storage_result (option BlobWriteOutcome) :=
  match r with
  | Ok _ => Ok (Some outcome)
  | Err err => if if_not_exists && is_precondition_error path_debug err then Ok None else Err err
  end.

Definition put_blob_inner (key : string) (body : StorageByteStream s3E)
    (options : BlobPutOptions) (if_not_exists : bool) :
    prog s3E (storage_result (option BlobWriteOutcome)) :=
  let!? provider_key := provider_key self key in
  let stream := into_inner body in
  let*? (buffer, hasher, size_bytes, multipart) :=
    loop (body_step provider_key options stream) (bs_cur stream, [], sha256_new, 0, None) in
  let outcome := mkBlobWriteOutcome size_bytes (sha256_finalize_hex hasher) in
  match multipart with
  | Some state =>
      let*? state := match buffer with
                     | [] => Ret (Ok state)
                     | _ => upload_part provider_key state buffer
                     end in
      let* r := complete_multipart_upload provider_key state if_not_exists in
      Ret (put_outcome if_not_exists outcome r)
  | None =>
      let* r := put_single_blob provider_key buffer options if_not_exists in
      Ret (put_outcome if_not_exists outcome r)
  end.
End Put.

(** ** Reading, listing and the rest of [BlobStore] *)

Section Store.
Context `{EX : Externals} `{SDK : S3Sdk} (path_debug : PathBuf → string).
Context (self : S3StorageBackend).

Definition put_blob (key : string) (body : StorageByteStream s3E) (options : BlobPutOptions) :
    prog s3E (storage_result BlobWriteOutcome) :=
  let*? outcome := put_blob_inner path_debug self key body options false in
  match outcome with
  | Some outcome => Ret (Ok outcome)
  | None => Ret (Err (PreconditionFailed key "blob unexpectedly already exists"))
  end.

Definition put_blob_if_not_exists (key : string) (body : StorageByteStream s3E)
    (options : BlobPutOptions) : prog s3E (storage_result (option BlobWriteOutcome)) :=
  put_blob_inner path_debug self key body options true.

(** The metadata of a response. *)
Definition output_metadata {B} (key : string) (output : ObjectOutput B) : BlobMetadata :=
  mkBlobMetadata key (out_content_length output ≫= u64_try_from) None (out_e_tag output) None.

(** [ReaderStream::new(output.body.into_async_read())] with the errors mapped;
    [what] names the stream in the message. *)
Definition body_next (what key : string) (st : option ResponseBody) :
    prog s3E (option (storage_result bytes) * option ResponseBody) :=
  match st with
  | None => Ret (None, None)
  | Some body =>
      let* ' (chunk, body) := call (ReadBody body) in
      match chunk with
      | None => Ret (None, None)
      | Some (Ok b) => Ret (Some (Ok b), Some body)
      | Some (Err source) =>
          Ret (Some (Err (Provider (backend_as_str S3)
                 (what +:+ " failed for " +:+ key +:+ ": " +:+ source) true)), None)
      end
  end.

Definition body_stream (what key : string) (body : ResponseBody) : BoxedStorageStream s3E :=
  mkBoxedStream _ (Some body) (body_next what key) (λ _, Ret tt).

Abbreviation sdk_result A := (result A SdkError).

(** A request for one key: a response that says the key is missing becomes
    [missing]. *)
Definition found_or {A B} (missing : storage_result B) (r : sdk_result A)
    (k : A → storage_result B) : storage_result B :=
  match r with
  | Ok output => k output
  | Err err => if is_missing_error err then missing else Err (map_s3_error err)
  end.

Definition get_blob (key : string) : prog s3E (storage_result (BlobBody s3E)) :=
  let!? provider_key := provider_key self key in
  let* r := call (GetObject (bucket_name self) provider_key None) in
  Ret (found_or (Err (MissingBlob key)) r (λ output,
         Ok (mkBlobBody key (Some (output_metadata key output))
               (stream_new (body_stream "S3 object stream" key (out_body output)))))).

Definition head_blob (key : string) : prog s3E (storage_result (option BlobMetadata)) :=
  let!? provider_key := provider_key self key in
  let* r := call (HeadObject (bucket_name self) provider_key) in
  Ret (found_or (Ok None) r (λ output, Ok (Some (output_metadata key output)))).

Definition range_header (range : Range) : string :=
  "bytes=" +:+ pretty (range_start range) +:+ "-" +:+ pretty (range_end range - 1).

Definition get_blob_range (key : string) (range : Range) :
    prog s3E (storage_result (BlobBody s3E)) :=
  if range_end range <? range_start range
  then Ret (Err (PreconditionFailed key "range end is before range start"))
  else if range_start range =? range_end range
  then
    let*? metadata := head_blob key in
    Ret (Ok (mkBlobBody key metadata (from_bytes [])))
  else
    let!? provider_key := provider_key self key in
    let* r := call (GetObject (bucket_name self) provider_key (Some (range_header range))) in
    Ret (found_or (Err (MissingBlob key)) r (λ output,
           Ok (mkBlobBody key (Some (output_metadata key output))
                 (with_size_hint (body_stream "S3 object range stream" key (out_body output))
                    (range_end range - range_start range))))).

Definition blob_exists (key : string) : prog s3E (storage_result bool) :=
  let*? metadata := head_blob key in
  Ret (Ok (bool_decide (is_Some metadata))).

Definition list_blobs_page (prefix : string) (continuation : option string) (limit : Z) :
    prog s3E (storage_result BlobListPage) :=
  if limit =? 0
  then Ret (Err (PreconditionFailed prefix "list limit must be greater than zero"))
  else
    let!? provider_prefix :=
      if str_is_empty prefix
      then Ok (default "" (trim_matches "/" <$> s3_key_prefix (s3_config self)))
      else provider_key self prefix in
    let* r := call (ListObjectsV2 (bucket_name self) provider_prefix continuation
                      (default i32_MAX (i32_try_from limit))) in
    let!? output := map_err map_s3_error r in
    let keys := List.filter (λ key, negb (str_is_empty key))
                  (map (strip_provider_prefix self) (omap id (out_contents output))) in
    Ret (Ok (mkBlobListPage keys (out_next_token output))).

Definition copy_blob (from to : string) : prog s3E (storage_result unit) :=
  let!? from_key := provider_key self from in
  let!? to_key := provider_key self to in
  let copy_source := bucket_name self +:+ "/" +:+ from_key in
  let* r := call (CopyObject (bucket_name self) to_key copy_source) in
  Ret (found_or (Err (MissingBlob from)) r Ok).

Definition delete_blob (key : string) : prog s3E (storage_result unit) :=
  let!? provider_key := provider_key self key in
  let* r := call (DeleteObject (bucket_name self) provider_key) in
  Ret (map_err map_s3_error r).

Definition s3_blob_store : BlobStore s3E := {|
  bs_backend := Providers.S3;
  BlobStore.put_blob := put_blob;
  BlobStore.put_blob_if_not_exists := put_blob_if_not_exists;
  BlobStore.get_blob := get_blob;
  BlobStore.get_blob_range := get_blob_range;
  BlobStore.blob_exists := blob_exists;
  BlobStore.head_blob := head_blob;
  BlobStore.list_blobs_page := list_blobs_page;
  BlobStore.list_blobs := default_list_blobs list_blobs_page;
  BlobStore.copy_blob := copy_blob;
  BlobStore.delete_blob := delete_blob;
|}.

Definition put_object (object : StoredObject) (b : bytes) :
    prog s3E (storage_result StoredObject) :=
  let*? _ := put_blob (so_storage_key object) (from_bytes b)
               (mkBlobPutOptions (so_mime_type object)) in
  Ret (Ok object).

Definition get_object (object : StoredObject) : prog s3E (storage_result StorageObjectBody) :=
  let*? body := get_blob (so_storage_key object) in
  let*? b := collect_storage_stream (bb_body body) in
  Ret (Ok (mkStorageObjectBody object b)).

Definition delete_object (object : StoredObject) : prog s3E (storage_result unit) :=
  delete_blob (so_storage_key object).

Definition s3_object_storage : ObjectStorage s3E := {|
  object_blob_store := s3_blob_store;
  Service.put_object := put_object;
  Service.get_object := get_object;
  Service.delete_object := delete_object;
|}.
End Store.
