(* ===== verification/S3Errors.v ===== *)
(** * The errors of the S3 service (src/src/s3.rs: is_missing_error, is_precondition_error)

    The code tells errors apart by searching their [Debug] text, while the
    service documents error codes and HTTP statuses.  [text_of] says how the
    text of an error relates to both: it shows the code, and a documented code
    or status is found in it only if it is that of the error or stands in a
    name of the request, which a service may repeat in its answer.  The theorems
    say which answers the tests recognise, and for which names they do. *)
From stdpp Require Import pretty.
From S2P Require Import Prelude Text Errors Providers Externals Keys Effects Streams BlobStore S3.
From Stdlib Require Import Ascii.

(** Error codes that the service documents. *)
Definition error_codes : list string :=
  ["NoSuchKey"; "NotFound"; "NoSuchBucket"; "NoSuchUpload"; "AccessDenied"; "PreconditionFailed";
   "InvalidRange"; "InternalError"; "SlowDown"].

(** How a text writes an HTTP status. *)
Definition status_words (status : Z) : list string :=
  if (100 <=? status) && (status <=? 599) then
    ["status: " +:+ pretty status; "code: " +:+ pretty status] ++
    (if status =? 404 then ["Not Found"] else []) ++
    (if status =? 412 then ["Precondition Failed"] else [])
  else [].

(** The words that the code searches for. *)
Definition error_words : list string :=
  ["NoSuchKey"; "NotFound"; "Not Found"; "status: 404"; "code: 404";
   "PreconditionFailed"; "Precondition Failed"; "status: 412"; "code: 412"].

(** A name that holds none of them. *)
Definition plain_name (name : string) : bool :=
  forallb (λ word, negb (contains_str word name)) error_words.

Definition named (word : string) (names : list string) : bool := existsb (contains_str word) names.

Lemma plain_not_named word names :
  word ∈ error_words → Forall (λ n, plain_name n = true) names → named word names = false.
Proof.
  intros Hw Hn. induction Hn as [|n names Hp _ IH]; [done|]. cbn. unfold named in IH.
  rewrite IH, orb_false_r. unfold plain_name in Hp. rewrite forallb_forall in Hp.
  apply negb_true_iff, Hp. by apply list_elem_of_In.
Qed.

(** Names that are joined by a slash. *)
Lemma plain_name_slash a b :
  plain_name a = true → plain_name b = true → plain_name (a +:+ "/" +:+ b) = true.
Proof.
  unfold plain_name. rewrite !forallb_forall. intros Ha Hb word Hw.
  specialize (Ha word Hw). specialize (Hb word Hw). apply negb_true_iff in Ha, Hb.
  change (a +:+ "/" +:+ b) with (a +:+ String "/" b). apply negb_true_iff.
  rewrite contains_str_sep, Ha, Hb; [done| |];
    revert Hw; clear; rewrite <- list_elem_of_In; revert word; apply Forall_forall;
    by repeat constructor.
Qed.

Section Errors.
Context `{SDK : S3Sdk}.

(** What the [Debug] text of an answer to a request with these names holds. *)
Record text_of (names : list string) (err : SdkError) : Prop := {
  text_shows : ∀ c, sdk_code err = Some c → contains_str c (sdk_debug err) = true;
  text_code : ∀ c, c ∈ error_codes → contains_str c (sdk_debug err) = true →
    sdk_code err = Some c ∨ named c names = true;
  text_status : ∀ s word, word ∈ status_words s → contains_str word (sdk_debug err) = true →
    sdk_status err = Some s ∨ named word names = true;
}.

(** There is no object: by the code, or by the code or the status. *)
Definition missing_code (err : SdkError) : Prop :=
  sdk_code err = Some "NoSuchKey" ∨ sdk_code err = Some "NotFound".

Definition not_found (err : SdkError) : Prop := missing_code err ∨ sdk_status err = Some 404.

(** The condition of a conditional request does not hold. *)
Definition condition_failed (err : SdkError) : Prop :=
  sdk_code err = Some "PreconditionFailed" ∨ sdk_status err = Some 412.

Lemma word_of_code names err c :
  text_of names err → Forall (λ n, plain_name n = true) names →
  c ∈ error_words → c ∈ error_codes → contains_str c (sdk_debug err) = true → sdk_code err = Some c.
Proof.
  intros T Hn Hw Hc Ht. destruct (text_code _ _ T c Hc Ht) as [|Hx]; [done|].
  by rewrite plain_not_named in Hx.
Qed.

Lemma word_of_status names err s word :
  text_of names err → Forall (λ n, plain_name n = true) names →
  word ∈ error_words → word ∈ status_words s → contains_str word (sdk_debug err) = true →
  sdk_status err = Some s.
Proof.
  intros T Hn Hw Hs Ht. destruct (text_status _ _ T s word Hs Ht) as [|Hx]; [done|].
  by rewrite plain_not_named in Hx.
Qed.

(** The text test of [is_missing_error] finds every missing object that the
    service reports by its code, and, for plain names, only those it reports by
    code or status. *)
Lemma missing_code_found names err :
  text_of names err → missing_code err → is_missing_error err = true.
Proof.
  intros T [Hc|Hc]; apply (text_shows _ _ T) in Hc; unfold is_missing_error; cbn zeta;
    rewrite Hc; by rewrite ?orb_true_r.
Qed.

Lemma found_not_found names err :
  text_of names err → Forall (λ n, plain_name n = true) names →
  is_missing_error err = true → not_found err.
Proof.
  intros T Hn. unfold is_missing_error, not_found, missing_code. cbn zeta. rewrite !orb_true_iff.
  intros [[[[Hc|Hc]|Hc]|Hc]|Hc];
    first [apply (word_of_code names) in Hc; [by auto|done|done|set_solver|set_solver]
          |apply (word_of_status names err 404) in Hc; [by auto|done|done|set_solver|by repeat constructor]].
Qed.

End Errors.

Section Conditions.
Context `{SDK : S3Sdk} (path_debug : PathBuf → string).

(** The message of a provider error shows the text and adds no word. *)
Lemma message_word word err :
  word ∈ ["PreconditionFailed"; "Precondition Failed"; "status: 412"; "code: 412"] →
  contains_str word (error_to_string path_debug (map_s3_error err)) =
    contains_str word (sdk_debug err).
Proof.
  unfold map_s3_error. cbn zeta. cbn [error_to_string backend_as_str].
  generalize (sdk_debug err) as t. intros t Hw. revert word Hw. apply Forall_forall.
  by repeat constructor.
Qed.

Lemma is_precondition_text err :
  is_precondition_error path_debug (map_s3_error err) =
    contains_str "PreconditionFailed" (sdk_debug err) ||
    contains_str "Precondition Failed" (sdk_debug err) ||
    contains_str "status: 412" (sdk_debug err) || contains_str "code: 412" (sdk_debug err).
Proof. unfold is_precondition_error. cbn zeta. by rewrite !message_word by set_solver. Qed.

(** The same for [is_precondition_error]. *)
Lemma condition_code_found names err :
  text_of names err → sdk_code err = Some "PreconditionFailed" →
  is_precondition_error path_debug (map_s3_error err) = true.
Proof. intros T Hc%(text_shows _ _ T). rewrite is_precondition_text, Hc. done. Qed.

Lemma found_condition_failed names err :
  text_of names err → Forall (λ n, plain_name n = true) names →
  is_precondition_error path_debug (map_s3_error err) = true → condition_failed err.
Proof.
  intros T Hn. rewrite is_precondition_text, !orb_true_iff. unfold condition_failed.
  intros [[[Hc|Hc]|Hc]|Hc];
    first [apply (word_of_code names) in Hc; [by auto|done|done|set_solver|set_solver]
          |apply (word_of_status names err 412) in Hc; [by auto|done|done|set_solver|by repeat constructor]].
Qed.
End Conditions.
