(* ===== verification/S3Server.v ===== *)
(** * What the S3 provider relies on: the service

    The object store behind the client, as the S3 documentation describes it:
    [S3View] is what a state of the service holds (the objects of each bucket,
    the multipart uploads in progress, the bytes a response still delivers),
    and [S3Service] what each request may answer and do to it.  A request that
    fails may or may not have taken effect, which is all that is known when a
    connection breaks or times out; what a failure says is told by its error
    code or HTTP status, and its text shows these as S3Errors.v says. *)
From stdpp Require Import pretty.
From S2P Require Import Prelude Text Errors Providers Externals Effects Streams BlobStore S3 S3Errors.
From Stdlib Require Import Ascii.

(** A multipart upload in progress: the parts by number, each with the tag the
    service answered. *)
Record Upload : Type := mkUpload {
  up_bucket : string;
  up_key : string;
  up_parts : gmap Z (option string * bytes);
}.

Abbreviation s3_objects := (gmap (string * string) bytes).

(** The keys of a bucket that start with a prefix, in the order of the
    service. *)
Definition bucket_keys (o : s3_objects) (bucket prefix : string) : list string :=
  merge_sort String.le
    (omap (λ x, if bool_decide (x.1.1 = bucket) && starts_with prefix x.1.2
                then Some x.1.2 else None) (map_to_list o)).

(** The requests that only read. *)
Definition read_only `{EX : Externals} `{SDK : S3Sdk} {X} (e : s3E X) : bool :=
  match e with
  | GetObject _ _ _ | ReadBody _ | HeadObject _ _ | ListObjectsV2 _ _ _ _ | S3NewV4
  | S3NowUtc => true
  | _ => false
  end.

(** The names that a caller chooses in a request, which an error may repeat.
    The identifiers and tokens that the service itself gives out are taken to
    hold no error word. *)
Definition request_names `{EX : Externals} `{SDK : S3Sdk} {X} (e : s3E X) : list string :=
  match e with
  | PutObject b k _ _ _ | CreateMultipartUpload b k _ | UploadPart b k _ _ _
  | CompleteMultipartUpload b k _ _ _ | AbortMultipartUpload b k _ | GetObject b k _
  | HeadObject b k | ListObjectsV2 b k _ _ | DeleteObject b k => [b; k]
  | CopyObject b k source => [b; k; source]
  | ReadBody _ | S3NewV4 | S3NowUtc => []
  end.

(** ["err()"]. *)
Definition err_of {A E} (r : result A E) : option E :=
  match r with Ok _ => None | Err e => Some e end.

(** The error that answers a request. *)
Definition answered_error `{EX : Externals} `{SDK : S3Sdk} {X} (e : s3E X) : X → option SdkError :=
  match e in s3E X return X → option SdkError with
  | PutObject _ _ _ _ _ | CreateMultipartUpload _ _ _ | UploadPart _ _ _ _ _
  | CompleteMultipartUpload _ _ _ _ _ | AbortMultipartUpload _ _ _ | GetObject _ _ _
  | HeadObject _ _ | ListObjectsV2 _ _ _ _ | CopyObject _ _ _ | DeleteObject _ _ => err_of
  | ReadBody _ | S3NewV4 | S3NowUtc => λ _, None
  end.

Class S3View `{SDK : S3Sdk} (W : Type) : Type := {
  objects : W → s3_objects;
  uploads : W → gmap string Upload;
  (** The identifiers of uploads given out so far. *)
  issued : W → gset string;
  response : ResponseBody → bytes;
  (** Of a continuation token: the key the page ended with. *)
  token_key : string → string;
  (** The decoding of a copy source header. *)
  url_decode : string → string;
}.

Section Laws.
Context `{EX : Externals} `{SDK : S3Sdk}.

(** A request that puts [content] at [at_] under the condition of its
    [If-None-Match] header: a failure may come after the effect, and the
    failure [PreconditionFailed] (status 412) means that there is an object. *)
Definition write_effect (at_ : string * string) (content : bytes) (condition : option string)
    (r : result unit SdkError) (o o' : s3_objects) : Prop :=
  let written := o' = <[at_:=content]> o ∧ (condition = Some "*" → o !! at_ = None) in
  match r with
  | Ok _ => written
  | Err e => (o' = o ∨ written) ∧
      (condition = Some "*" → condition_failed e → is_Some (o' !! at_))
  end.

(** The content of the listed parts, if all of them were uploaded. *)
Definition listed (u : Upload) (parts : list CompletedPart) (contents : list bytes) : Prop :=
  Forall2 (λ p c, up_parts u !! part_number p = Some (part_e_tag p, c)) parts contents.

Class S3Service (W : Type) `{!Handler s3E W} `{!S3View W} : Prop := {
  (** What the text of an error holds. *)
  law_text : ∀ X (e : s3E X) w x w', handle e w = (x, w') →
    ∀ err, answered_error e x = Some err → text_of (request_names e) err;
  law_put : ∀ b k body ct cond w r w', handle (PutObject b k body ct cond) w = (r, w') →
    uploads w' = uploads w ∧ write_effect (b, k) body cond r (objects w) (objects w');
  law_create : ∀ b k ct w r w', handle (CreateMultipartUpload b k ct) w = (r, w') →
    objects w' = objects w ∧
    match r with
    | Ok (Some id) => uploads w !! id = None ∧ uploads w' = <[id:=mkUpload b k ∅]> (uploads w)
    | _ => uploads w ⊆ uploads w'
    end;
  (** An identifier is given out once. *)
  law_new_id : ∀ b k ct w id w', handle (CreateMultipartUpload b k ct) w = (Ok (Some id), w') →
    (id ∉ issued w) ∧ id ∈ issued w';
  law_issued : ∀ X (e : s3E X) w x w', handle e w = (x, w') → issued w ⊆ issued w';
  (** Part numbers are limited to 10000. *)
  law_upload_part : ∀ b k id n body w r w',
    handle (UploadPart b k id n body) w = (r, w') →
    objects w' = objects w ∧
    ∀ u, uploads w !! id = Some u →
      delete id (uploads w') = delete id (uploads w) ∧
      match r with
      | Ok tag => 1 ≤ n ≤ 10000 ∧
          uploads w' !! id = Some (mkUpload (up_bucket u) (up_key u) (<[n:=(tag, body)]> (up_parts u)))
      | Err _ => is_Some (uploads w' !! id)
      end;
  (** Completing writes the object of the request or nothing, under the
      condition; for an upload of that object, the parts it lists. *)
  law_complete : ∀ b k id parts cond w r w',
    handle (CompleteMultipartUpload b k id parts cond) w = (r, w') →
    (∃ content, write_effect (b, k) content cond r (objects w) (objects w')) ∧
    ∀ u, uploads w !! id = Some u → up_bucket u = b → up_key u = k →
      delete id (uploads w') = delete id (uploads w) ∧
      (uploads w' !! id = None ∨ uploads w' !! id = Some u) ∧
      (is_ok r = true → uploads w' !! id = None ∧ ∃ contents, listed u parts contents) ∧
      ∀ contents, listed u parts contents →
        write_effect (b, k) (concat contents) cond r (objects w) (objects w');
  law_abort : ∀ b k id w r w', handle (AbortMultipartUpload b k id) w = (r, w') →
    objects w' = objects w ∧ delete id (uploads w') = delete id (uploads w) ∧
    (uploads w' !! id = None ∨ uploads w' !! id = uploads w !! id) ∧
    (is_ok r = true → uploads w' !! id = None);
  law_read_only : ∀ X (e : s3E X) w x w', handle e w = (x, w') → read_only e = true →
    objects w' = objects w ∧ uploads w' = uploads w;
  (** A range is clamped at the end of the object. *)
  law_get : ∀ b k range w out w', handle (GetObject b k range) w = (Ok out, w') →
    ∃ c, objects w !! (b, k) = Some c ∧
      out_content_length out = Some (Z.of_nat (length (response (out_body out)))) ∧
      match range with
      | None => response (out_body out) = c
      | Some header => ∀ s e : Z, 0 ≤ s ≤ e →
          header = "bytes=" +:+ pretty s +:+ "-" +:+ pretty e →
          s < Z.of_nat (length c) ∧ response (out_body out) = byte_range s (e - s + 1) c
      end;
  (** The answer [NoSuchKey] or 404 means that there is no object. *)
  law_get_missing : ∀ b k range w e w', handle (GetObject b k range) w = (Err e, w') →
    not_found e → objects w !! (b, k) = None;
  law_head : ∀ b k w r w', handle (HeadObject b k) w = (r, w') →
    match r with
    | Ok out => ∃ c, objects w !! (b, k) = Some c ∧
        out_content_length out = Some (Z.of_nat (length c))
    | Err e => not_found e → objects w !! (b, k) = None
    end;
  law_read_body : ∀ body w r body' w', handle (ReadBody body) w = ((r, body'), w') →
    match r with
    | Some (Ok c) => c ≠ [] ∧ response body = c ++ response body'
    | Some (Err _) => True
    | None => response body = []
    end;
  (** A page: the next keys, at most [max_keys] of them and at least one. *)
  law_list : ∀ b prefix token max_keys w out w',
    handle (ListObjectsV2 b prefix token max_keys) w = (Ok out, w') →
    let ks := List.filter (after_token (token_key <$> token))
                (bucket_keys (objects w) b prefix) in
    ∃ n, Z.of_nat n ≤ max_keys ∧ out_contents out = map Some (take n ks) ∧
      match out_next_token out with
      | None => (length ks <= n)%nat
      | Some t => (0 < n < length ks)%nat ∧ last (take n ks) = Some (token_key t)
      end;
  (** The copy source is [bucket/key], decoded; only the target is written. *)
  law_url_decode : ∀ s, contains_char "%" s = false → contains_char "+" s = false →
    url_decode s = s;
  law_copy : ∀ b k source w r w', handle (CopyObject b k source) w = (r, w') →
    uploads w' = uploads w ∧
    (objects w' = objects w ∨ ∃ c, objects w' = <[(b, k):=c]> (objects w)) ∧
    ∀ sb sk, contains_char "/" sb = false → url_decode source = sb +:+ "/" +:+ sk →
      match r with
      | Ok _ => ∃ c, objects w !! (sb, sk) = Some c ∧ objects w' = <[(b, k):=c]> (objects w)
      | Err e => (sb = b → not_found e → objects w !! (sb, sk) = None) ∧
          (objects w' = objects w ∨
           ∃ c, objects w !! (sb, sk) = Some c ∧ objects w' = <[(b, k):=c]> (objects w))
      end;
  law_delete : ∀ b k w r w', handle (DeleteObject b k) w = (r, w') →
    uploads w' = uploads w ∧
    match r with
    | Ok _ => objects w' = delete (b, k) (objects w)
    | Err _ => objects w' = objects w ∨ objects w' = delete (b, k) (objects w)
    end;
}.
End Laws.
