(* ===== verification/S3Put.v ===== *)
(** * Writing to S3 (src/src/s3.rs): the streaming upload

    [put_blob_inner] uploads parts while the body arrives; [put_whole] is the
    reference that has the whole body at hand.  They make the same requests. *)
From S2P Require Import Prelude Text Errors Providers Externals Keys Effects Streams BlobStore S3.
From Stdlib Require Import Ascii.

(** ** Cutting a body into parts *)

Definition PART : nat := Z.to_nat MULTIPART_PART_SIZE.

Lemma PART_Z : Z.of_nat PART = MULTIPART_PART_SIZE.
Proof. unfold PART. by rewrite Z2Nat.id. Qed.

Lemma PART_pos : (0 < PART)%nat.
Proof. pose proof PART_Z. unfold MULTIPART_PART_SIZE in *. lia. Qed.

Lemma PART_take (b : bytes) : take (Z.to_nat MULTIPART_PART_SIZE) b = take PART b.
Proof. unfold PART. reflexivity. Qed.

Lemma PART_drop (b : bytes) : drop (Z.to_nat MULTIPART_PART_SIZE) b = drop PART b.
Proof. unfold PART. reflexivity. Qed.

#[global] Opaque PART MULTIPART_PART_SIZE.

Fixpoint parts_of (fuel : nat) (b : bytes) : list bytes :=
  match fuel with
  | O => []
  | S fuel => if Nat.ltb (length b) PART then [] else take PART b :: parts_of fuel (drop PART b)
  end.

(** The full parts of a body, and the rest, which is shorter than a part; the
    length of the body is enough fuel. *)
Definition full_parts (b : bytes) : list bytes := parts_of (length b) b.

Definition rest_of (b : bytes) : bytes := drop (length (concat (full_parts b))) b.

Lemma parts_of_fuel n m b :
  (length b <= n)%nat → (length b <= m)%nat → parts_of n b = parts_of m b.
Proof.
  revert m b. induction n as [|n IH]; intros m b Hn Hm.
  - destruct m as [|m]; [done|]. simpl. rewrite (proj2 (Nat.ltb_lt _ _)); [done|].
    pose proof PART_pos. lia.
  - destruct m as [|m]; simpl.
    + rewrite (proj2 (Nat.ltb_lt _ _)); [done|]. pose proof PART_pos. lia.
    + destruct (Nat.ltb_spec (length b) PART); [done|]. f_equal. pose proof PART_pos.
      apply IH; rewrite length_drop; lia.
Qed.

Lemma full_parts_short b : (length b < PART)%nat → full_parts b = [].
Proof.
  intros Hb. unfold full_parts. destruct (length b) eqn:E; [done|]. simpl.
  rewrite E. by rewrite (proj2 (Nat.ltb_lt _ _)).
Qed.

Lemma full_parts_long b :
  (PART <= length b)%nat → full_parts b = take PART b :: full_parts (drop PART b).
Proof.
  intros Hb. pose proof PART_pos. unfold full_parts at 1. destruct (length b) eqn:E; [lia|].
  cbn [parts_of]. rewrite (proj2 (Nat.ltb_ge _ _)) by lia. f_equal.
  apply parts_of_fuel; rewrite length_drop; lia.
Qed.

Lemma rest_of_short b : (length b < PART)%nat → rest_of b = b.
Proof. intros Hb. unfold rest_of. by rewrite full_parts_short. Qed.

Lemma rest_of_long b : (PART <= length b)%nat → rest_of b = rest_of (drop PART b).
Proof.
  intros Hb. unfold rest_of at 1. rewrite full_parts_long by done. cbn [concat].
  rewrite length_app, length_take_le, <- drop_drop by done. done.
Qed.

(** Cutting the first part off, as an induction. *)
Lemma parts_ind (P : bytes → Prop) :
  (∀ b, (length b < PART)%nat → P b) →
  (∀ b, (PART <= length b)%nat → P (drop PART b) → P b) → ∀ b, P b.
Proof.
  intros H1 H2 b. remember (length b) as n eqn:E. revert b E.
  induction n as [n IH] using lt_wf_ind. intros b ->.
  destruct (Nat.lt_ge_cases (length b) PART) as [Hb|Hb]; [by apply H1|].
  apply H2; [done|]. eapply IH; [|done]. rewrite length_drop. pose proof PART_pos. lia.
Qed.

Lemma parts_concat b : concat (full_parts b) ++ rest_of b = b.
Proof.
  induction b as [b Hb|b Hb IH] using parts_ind.
  - by rewrite full_parts_short, rest_of_short.
  - rewrite full_parts_long, rest_of_long by done. simpl.
    by rewrite <- app_assoc, IH, take_drop.
Qed.

Lemma rest_of_length b : (length (rest_of b) < PART)%nat.
Proof.
  induction b as [b Hb|b Hb IH] using parts_ind; [by rewrite rest_of_short|].
  by rewrite rest_of_long.
Qed.

Lemma full_parts_length b : Forall (λ p, length p = PART) (full_parts b).
Proof.
  induction b as [b Hb|b Hb IH] using parts_ind; [by rewrite full_parts_short|].
  rewrite full_parts_long by done. constructor; [|done]. by rewrite length_take_le.
Qed.

(** Bytes that arrive later are cut after the rest. *)
Lemma full_parts_app b c :
  full_parts (b ++ c) = full_parts b ++ full_parts (rest_of b ++ c) ∧
  rest_of (b ++ c) = rest_of (rest_of b ++ c).
Proof.
  induction b as [b Hb|b Hb IH] using parts_ind.
  - by rewrite (full_parts_short b), (rest_of_short b).
  - rewrite (full_parts_long (b ++ c)), (rest_of_long (b ++ c)) by (rewrite length_app; lia).
    rewrite take_app_le, drop_app_le by done.
    rewrite (full_parts_long b), (rest_of_long b) by done. destruct IH as [E1 E2].
    by rewrite E1, E2.
Qed.

(** ** The reference *)

Section Reference.
Context `{EX : Externals} `{SDK : S3Sdk} (path_debug : PathBuf → string).
Context (self : S3StorageBackend).

(** Upload parts one after the other; the first one starts the upload. *)
Fixpoint push_parts (provider_key : string) (options : BlobPutOptions)
    (multipart : option MultipartUploadState) (parts : list bytes) :
    prog s3E (storage_result (option MultipartUploadState)) :=
  match parts with
  | [] => Ret (Ok multipart)
  | part :: parts =>
      let*? state := match multipart with
                     | Some state => Ret (Ok state)
                     | None => create_multipart_upload self provider_key options
                     end in
      let*? state := upload_part self provider_key state part in
      push_parts provider_key options (Some state) parts
  end.

(** After the last chunk: the rest is the last part, or the whole body. *)
Definition finish (provider_key : string) (options : BlobPutOptions) (if_not_exists : bool)
    (outcome : BlobWriteOutcome) (rest : bytes) (multipart : option MultipartUploadState) :
    prog s3E (storage_result (option BlobWriteOutcome)) :=
  match multipart with
  | Some state =>
      let*? state := match rest with
                     | [] => Ret (Ok state)
                     | _ => upload_part self provider_key state rest
                     end in
      let* r := complete_multipart_upload self provider_key state if_not_exists in
      Ret (put_outcome path_debug if_not_exists outcome r)
  | None =>
      let* r := put_single_blob self provider_key rest options if_not_exists in
      Ret (put_outcome path_debug if_not_exists outcome r)
  end.

(** Put a body that is at hand: a body shorter than a part in one request,
    any other as a multipart upload of its full parts and the rest. *)
Definition put_whole (key : string) (b : bytes) (options : BlobPutOptions)
    (if_not_exists : bool) : prog s3E (storage_result (option BlobWriteOutcome)) :=
  let!? provider_key := provider_key self key in
  let outcome := mkBlobWriteOutcome (Z.min (Z.of_nat (length b)) u64_MAX) (sha256_hex b) in
  let*? multipart := push_parts provider_key options None (full_parts b) in
  finish provider_key options if_not_exists outcome (rest_of b) multipart.

(** A body that fails after the bytes [b]. *)
Definition put_interrupted (key : string) (b : bytes) (options : BlobPutOptions)
    (e : StorageError) : prog s3E (storage_result (option BlobWriteOutcome)) :=
  let!? provider_key := provider_key self key in
  let*? _ := push_parts provider_key options None (full_parts b) in
  Ret (Err e).
End Reference.

(** ** The loops *)

Section Equivalence.
Context `{EX : Externals} `{SDK : S3Sdk} {W : Type} `{H : !Handler s3E W}.
Context (path_debug : PathBuf → string) (self : S3StorageBackend).

Lemma push_parts_app key options m ps qs :
  same_runs (push_parts self key options m (ps ++ qs))
    (let*? m := push_parts self key options m ps in push_parts self key options m qs).
Proof.
  revert m. induction ps as [|p ps IH]; intros m; cbn [app push_parts]; [done|].
  etrans; [|symmetry; apply same_runs_bind_bind].
  apply bind_same_runs; [done|]. intros [st|e]; [|done].
  etrans; [|symmetry; apply same_runs_bind_bind].
  apply bind_same_runs; [done|]. intros [st'|e]; [|done]. apply IH.
Qed.

(** The inner loop uploads the full parts of the buffer. *)
Lemma flush_loop key options buffer m :
  same_runs (loop (flush_step self key options) (buffer, m))
    (let*? m := push_parts self key options m (full_parts buffer) in
     Ret (Ok (rest_of buffer, m))).
Proof.
  revert m. induction buffer as [b Hb|b Hb IH] using parts_ind; intros m;
    (etrans; [apply same_runs_iter|]); unfold flush_step at 1;
    rewrite ?PART_take, ?PART_drop, <- PART_Z.
  - rewrite full_parts_short, rest_of_short by done.
    by destruct (Z.ltb_spec (Z.of_nat (length b)) (Z.of_nat PART)); [|lia].
  - rewrite full_parts_long, rest_of_long by done.
    destruct (Z.ltb_spec (Z.of_nat (length b)) (Z.of_nat PART)); [lia|]. cbn [push_parts].
    do 2 (etrans; [apply same_runs_bind_bind|]; etrans; [|symmetry; apply same_runs_bind_bind];
      apply bind_same_runs; [done|]; intros [?|e]; [|done]).
    apply IH.
Qed.

(** The outer loop, from a buffer shorter than a part. *)
Lemma body_loop key options (stream : BoxedStorageStream s3E) st cs oe :
  supplies (bs_next stream) st cs oe → ∀ buffer hasher size m, (length buffer < PART)%nat →
  same_runs (loop (body_step self key options stream) (st, buffer, hasher, size, m))
    (let*? m := push_parts self key options m (full_parts (buffer ++ concat cs)) in
     Ret (match oe with
          | Some e => Err e
          | None => Ok (rest_of (buffer ++ concat cs), foldl sha256_update hasher cs,
                        foldl (λ n c, u64_saturating_add n (u64_from_len c)) size cs, m)
          end)).
Proof.
  induction 1 as [st st' Hn|st e st' Hn|st c st' cs oe Hn _ IH]; intros buffer hasher size m Hb;
    unfold loop; rewrite same_runs_iter; unfold body_step at 1;
    rewrite same_runs_bind_bind, (same_runs_ret _ _ Hn), bind_ret_l.
  - simpl. rewrite app_nil_r, full_parts_short, rest_of_short by done. done.
  - simpl. rewrite app_nil_r, full_parts_short by done. done.
  - cbn [concat foldl]. rewrite app_assoc.
    destruct (full_parts_app (buffer ++ c) (concat cs)) as [E1 E2]. rewrite E1, E2.
    rewrite push_parts_app, flush_loop, !same_runs_bind_bind.
    apply bind_same_runs; [done|]. intros [m'|e]; [|done].
    cbn [bind]. apply IH, rest_of_length.
Qed.

Context `{XL : !ExternalsLaws}.

Lemma put_blob_inner_same key body cs oe options if_not_exists :
  body_of body cs oe →
  same_runs (put_blob_inner path_debug self key body options if_not_exists)
    match oe with
    | None => put_whole path_debug self key (concat cs) options if_not_exists
    | Some e => put_interrupted self key (concat cs) options e
    end.
Proof.
  intros Hb. unfold put_blob_inner, put_whole, put_interrupted.
  destruct (provider_key self key) as [pk|e]; [|by destruct oe].
  pose proof (body_loop pk options _ _ cs oe (proj1 Hb) [] sha256_new 0 None) as L.
  specialize (L PART_pos). cbn [app] in L.
  destruct oe as [e|]; (etrans; [apply (bind_same_runs _ _ L _ _ (λ r, reflexivity _))|];
    etrans; [apply same_runs_bind_bind|]; apply bind_same_runs; [done|]; intros [m|e'];
    [|done]); [done|].
  cbn [bind]. fold (size_of cs) (sha256_of cs). rewrite sha256_of_concat, size_of_concat.
  unfold finish. by destruct m.
Qed.

(** C14: [put_blob_inner], which uploads parts while the body arrives, makes the
    same requests with the same answers as the reference that has the whole
    body: for every cut of the body into chunks, in every environment, the same
    result in the same final state.  A body shorter than 8 MiB is one
    [PutObject]; any other is a multipart upload of 8 MiB parts and a shorter,
    possibly empty rest, which is a last part when it is not empty.  A body
    that fails is never completed: its full parts are uploaded and its error is
    returned. *)
Theorem put_blob_inner_whole key body cs oe options if_not_exists :
  body_of body cs oe →
  let p := put_blob_inner path_debug self key body options if_not_exists in
  let b := concat cs in
  match oe with
  | None => same_runs p (put_whole path_debug self key b options if_not_exists)
  | Some e => same_runs p (put_interrupted self key b options e)
  end ∧
  concat (full_parts b) ++ rest_of b = b ∧
  Forall (λ part, Z.of_nat (length part) = MULTIPART_PART_SIZE) (full_parts b) ∧
  Z.of_nat (length (rest_of b)) < MULTIPART_PART_SIZE ∧
  (Z.of_nat (length b) < MULTIPART_PART_SIZE ↔ full_parts b = []).
Proof.
  intros Hb p b. split_and!.
  - pose proof (put_blob_inner_same key body cs oe options if_not_exists Hb). by destruct oe.
  - apply parts_concat.
  - eapply Forall_impl; [apply full_parts_length|]. intros part Hp. by rewrite Hp, PART_Z.
  - rewrite <- PART_Z. pose proof (rest_of_length b). lia.
  - rewrite <- PART_Z. split; [intros ?; apply full_parts_short; lia|].
    destruct (Nat.lt_ge_cases (length b) PART) as [|Hl]; [lia|]. by rewrite full_parts_long.
Qed.
End Equivalence.
