(* ===== verification/S3Content.v ===== *)
(** * Writing to S3: what is stored

    Against the service of S3Server.v: a put stores the whole body under the
    key or, when it fails, nothing of it or all of it. *)
From S2P Require Import Prelude Text Errors Providers Externals Paths Keys Effects Streams BlobStore S3 S3Errors S3Server S3Put.
From Stdlib Require Import Ascii.

Section Names.
Context (self : S3StorageBackend).

(** The name of a blob in the bucket. *)
Definition object_name (key : string) : string :=
  match s3_key_prefix (s3_config self) with
  | None => key
  | Some prefix =>
      let prefix := trim_matches "/" prefix in
      if str_is_empty prefix then key else prefix +:+ "/" +:+ key
  end.

(** The configured prefix is usable: absent, empty between slashes, or a valid
    key between slashes. *)
Definition prefix_ok : Prop :=
  match s3_key_prefix (s3_config self) with
  | None => True
  | Some prefix => let prefix := trim_matches "/" prefix in prefix = "" ∨ key_safe prefix
  end.

Definition object_at (key : string) : string * string := (bucket_name self, object_name key).

(** The names a request for a blob carries hold no error word. *)
Definition plain_key (key : string) : Prop :=
  plain_name (bucket_name self) = true ∧ plain_name (object_name key) = true.

Lemma plain_key_names key :
  plain_key key → Forall (λ n, plain_name n = true) [bucket_name self; object_name key].
Proof. intros [Hb Hk]. by repeat constructor. Qed.

Lemma provider_key_Ok key pk :
  provider_key self key = Ok pk ↔ key_safe key ∧ prefix_ok ∧ pk = object_name key.
Proof.
  unfold provider_key, prefix_ok, object_name. rewrite <- validate_ok_iff.
  destruct (validate_blob_key key) as [[]|e]; [|by split; [|intros [? _]]].
  destruct (s3_key_prefix _) as [p|]; [|split; [by intros [= <-]|by intros (_ & _ & ->)]].
  cbn zeta. destruct (str_is_empty (trim_matches "/" p)) eqn:E.
  - apply str_is_empty_true in E. split; [intros [= <-]; eauto|by intros (_ & _ & ->)].
  - apply str_is_empty_false in E. rewrite <- validate_ok_iff.
    destruct (validate_blob_key (trim_matches "/" p)) as [[]|e].
    + split; [intros [= <-]; eauto|by intros (_ & _ & ->)].
    + split; [done|by intros (_ & [?|?] & _)].
Qed.

Lemma provider_key_Err key e :
  provider_key self key = Err e → (∃ k, e = InvalidStorageKey k) ∧ ¬ (key_safe key ∧ prefix_ok).
Proof.
  intros He. split.
  - revert He. unfold provider_key.
    destruct (decide (key_safe key)) as [Hk|Hk].
    + rewrite (validate_blob_key_safe _ Hk). destruct (s3_key_prefix _) as [p|]; [|done].
      cbn zeta. destruct (str_is_empty _); [done|].
      destruct (decide (key_safe (trim_matches "/" p))) as [Hp|Hp].
      * by rewrite (validate_blob_key_safe _ Hp).
      * rewrite (validate_blob_key_unsafe _ Hp). intros [= <-]. eauto.
    + rewrite (validate_blob_key_unsafe _ Hk). intros [= <-]. eauto.
  - intros [Hk Hp]. assert (provider_key self key = Ok (object_name key)) as E
      by by apply provider_key_Ok. congruence.
Qed.
Lemma strip_object_name key :
  key_safe key → strip_provider_prefix self (object_name key) = key.
Proof.
  intros Hk. unfold strip_provider_prefix, object_name. cbn zeta.
  destruct (s3_key_prefix _) as [p|]; [|done].
  destruct (str_is_empty (trim_matches "/" p)) eqn:E.
  - apply str_is_empty_true in E. rewrite E. simpl.
    pose proof (key_safe_head_not_slash _ Hk) as Ha. unfold path_is_absolute, starts_with in Ha.
    change (default key (strip_prefix "/" key) = key). by destruct (strip_prefix "/" key).
  - by rewrite strip_prefix_app.
Qed.
(** C26: the name of a blob in the bucket determines its key.  [provider_key]
    accepts exactly the valid keys, under a usable key prefix; the name it makes
    is a valid key itself, [strip_provider_prefix] gives the key back, and
    different keys have different names. *)
Theorem s3_key_roundtrip key :
  match provider_key self key with
  | Ok name => key_safe key ∧ prefix_ok ∧ validate_blob_key name = Ok tt ∧
      strip_provider_prefix self name = key ∧
      (∀ key', provider_key self key' = Ok name → key' = key)
  | Err e => ¬ (key_safe key ∧ prefix_ok) ∧ ∃ k, e = InvalidStorageKey k
  end.
Proof.
  destruct (provider_key self key) as [name|e] eqn:E; [|by apply provider_key_Err in E as [??]].
  apply provider_key_Ok in E as (Hk & Hp & ->). split_and!; [done|done| |by apply strip_object_name|].
  - apply validate_ok_iff. revert Hp. unfold prefix_ok, object_name. cbn zeta.
    destruct (s3_key_prefix _) as [p|]; [|done]. intros [->|Hs]; [done|].
    destruct (str_is_empty _); [done|].
    change (?a +:+ "/" +:+ key) with (a +:+ String "/" key). unfold key_safe.
    rewrite split_app. by apply Forall_app.
  - intros key' (Hk' & _ & E)%provider_key_Ok.
    by rewrite <- (strip_object_name key Hk), E, strip_object_name.
Qed.
End Names.

Section Writing.
Context `{EX : Externals} `{XL : !ExternalsLaws} `{SDK : S3Sdk} (path_debug : PathBuf → string).
Context {W : Type} `{H : !Handler s3E W} `{V : !S3View W} `{S : !S3Service W}.
Context (self : S3StorageBackend).

(** The upload of [m] holds [parts] and nothing else changed since [w0]. *)
Definition uploading (w0 : W) (pk : string) (m : option MultipartUploadState)
    (parts : list bytes) (w : W) : Prop :=
  objects w = objects w0 ∧
  match m with
  | None => parts = [] ∧ uploads w = uploads w0
  | Some st => uploads w0 !! mus_upload_id st = None ∧
      mus_next_part_number st = Z.of_nat (length parts) + 1 ∧
      (∀ i p, mus_completed_parts st !! i = Some p → part_number p = Z.of_nat i + 1) ∧
      ∃ u, uploads w = <[mus_upload_id st:=u]> (uploads w0) ∧
        up_bucket u = bucket_name self ∧ up_key u = pk ∧ listed u (mus_completed_parts st) parts
  end.

(** No object changed, and no upload of others. *)
Definition untouched (w0 w : W) : Prop := objects w = objects w0 ∧ uploads w0 ⊆ uploads w.

(** What a failing request of a put leaves. *)
Definition failed (w0 : W) (e : StorageError) (w : W) : Prop :=
  untouched w0 w ∧ ∃ b m r, e = Provider b m r.

Lemma s3_create_spec pk options w0 w :
  uploading w0 pk None [] w →
  twp (create_multipart_upload self pk options) (λ r w', match r with
    | Ok st => uploading w0 pk (Some st) [] w'
    | Err e => failed w0 e w'
    end) w.
Proof.
  intros (Ho & _ & Hu). unfold create_multipart_upload. wp_vis x w1 E.
  apply law_create in E as [Ho1 Hr].
  destruct x as [[id|]|e]; simpl; wp_ret;
    [|(split; [split; [congruence|by rewrite <- Hu]|by do 3 eexists])..].
  destruct Hr as [Hid Hu1]. split; [congruence|]. simpl. rewrite <- Hu.
  split_and!; [done|done|by intros i p Hi; rewrite lookup_nil in Hi|].
  exists (mkUpload (bucket_name self) pk ∅). split_and!; [done..|constructor].
Qed.
Lemma listed_insert u b k parts contents n x :
  listed u parts contents → (∀ p, p ∈ parts → part_number p ≠ n) →
  listed (mkUpload b k (<[n:=x]> (up_parts u))) parts contents.
Proof.
  unfold listed. induction 1 as [|p c parts contents Hp _ IH]; intros Hn; [by constructor|].
  constructor; simpl.
  - rewrite lookup_insert_ne; [done|]. symmetry. apply Hn. by left.
  - apply IH. intros q Hq. apply Hn. by right.
Qed.

(** Of every part that is uploaded the number and the tag are kept. *)
Lemma upload_part_spec pk w0 st parts part w :
  uploading w0 pk (Some st) parts w →
  twp (upload_part self pk st part) (λ r w', match r with
    | Ok st' => uploading w0 pk (Some st') (parts ++ [part]) w'
    | Err e => failed w0 e w'
    end) w.
Proof.
  intros (Ho & Hid & Hn & Hc & u & Hu & Hub & Huk & Hl). unfold upload_part. wp_vis x w1 E.
  assert (Hlook : uploads w !! mus_upload_id st = Some u) by by rewrite Hu, lookup_insert_eq.
  apply law_upload_part in E as [Ho1 L]. destruct (L u Hlook) as [Hd Hr].
  rewrite Hu, delete_insert_id in Hd by done.
  destruct x as [tag|e]; simpl; wp_ret.
  - destruct Hr as [Hb Hu1]. split; [congruence|]. simpl. split_and!; [done| | |].
    + unfold i32_add. rewrite Hn, Z.mod_small by lia. rewrite length_app. simpl. lia.
    + intros i p [Hi|[Hi [Hj <-]%list_lookup_singleton_Some]]%lookup_app_Some; [by apply Hc|].
      simpl. pose proof (Forall2_length _ _ _ Hl). lia.
    + exists (mkUpload (up_bucket u) (up_key u)
        (<[mus_next_part_number st:=(tag, part)]> (up_parts u))). split_and!; [|done..|].
      * by rewrite <- Hd, insert_delete_id.
      * apply Forall2_app; [|by constructor; [apply lookup_insert_eq|]].
        apply listed_insert; [done|]. intros p Hp.
        apply list_elem_of_lookup in Hp as [i Hi]. rewrite (Hc i p Hi).
        apply lookup_lt_Some in Hi. pose proof (Forall2_length _ _ _ Hl). lia.
  - split; [split; [congruence|]|by do 3 eexists]. rewrite <- Hd. apply delete_subseteq.
Qed.
Lemma push_parts_spec pk options w0 parts : ∀ m done_ w,
  uploading w0 pk m done_ w →
  twp (push_parts self pk options m parts) (λ r w', match r with
    | Ok m' => uploading w0 pk m' (done_ ++ parts) w'
    | Err e => failed w0 e w'
    end) w.
Proof.
  induction parts as [|part parts IH]; intros m done_ w Hm; cbn [push_parts].
  - wp_ret. by rewrite app_nil_r.
  - wp_bind. eapply (twp_mono _ (λ r w', match r with
      | Ok st => uploading w0 pk (Some st) done_ w'
      | Err e => failed w0 e w'
      end)).
    + destruct m as [st|]; [by wp_ret|]. assert (done_ = []) as -> by apply Hm.
      by apply s3_create_spec.
    + intros [st|e] w1 H1; [|by wp_ret]. wp_bind.
      eapply twp_mono; [by apply upload_part_spec|]. intros [st'|e] w2 H2; [|by wp_ret].
      eapply twp_mono; [by apply IH|]. intros [m'|e] w3 H3; [|done].
      by rewrite <- app_assoc in H3.
Qed.

(** What the last request of a put leaves: the whole body under the key, or,
    after an error, possibly nothing. *)
Definition put_end (w0 : W) (pk : string) (b : bytes) (if_not_exists : bool)
    (r : storage_result unit) (w : W) : Prop :=
  let at_ := (bucket_name self, pk) in
  let written := objects w = <[at_:=b]> (objects w0) ∧
    (if_not_exists = true → objects w0 !! at_ = None) in
  match r with
  | Ok _ => written ∧ uploads w = uploads w0
  | Err e => (objects w = objects w0 ∨ written) ∧ uploads w0 ⊆ uploads w ∧
      (if_not_exists = true → is_precondition_error path_debug e = true →
       plain_name (bucket_name self) = true → plain_name pk = true → is_Some (objects w !! at_))
  end.

Lemma write_effect_end pk b c r o o' :
  let at_ := (bucket_name self, pk) in
  (∀ err, r = Err err → text_of [bucket_name self; pk] err) →
  write_effect at_ b (when_condition c) r o o' →
  let written := o' = <[at_:=b]> o ∧ (c = true → o !! at_ = None) in
  match r with
  | Ok _ => written
  | Err e => (o' = o ∨ written) ∧
      (c = true → is_precondition_error path_debug (map_s3_error e) = true →
       plain_name (bucket_name self) = true → plain_name pk = true → is_Some (o' !! at_))
  end.
Proof.
  assert (Hc : c = true → when_condition c = Some "*") by by intros ->.
  unfold write_effect. cbn zeta. intros T. destruct r as [[]|e]; [intuition auto|].
  intros [Hw Hm]. split; [intuition auto|]. intros Hct He Hb Hk. apply Hm; [by apply Hc|].
  eapply found_condition_failed; [by apply T| |exact He]. by repeat constructor.
Qed.

Lemma single_spec pk b options if_not_exists w0 w :
  objects w = objects w0 → uploads w = uploads w0 →
  twp (put_single_blob self pk b options if_not_exists) (put_end w0 pk b if_not_exists) w.
Proof.
  intros Ho Hu. unfold put_single_blob. wp_vis x w1 E.
  pose proof (law_text _ _ _ _ _ E) as T. apply law_put in E as [Hu1 Hw].
  apply write_effect_end in Hw; [|intros err ->; by apply T].
  rewrite Ho in Hw. wp_ret. destruct x as [[]|e]; simpl in *; [by rewrite Hu1|].
  destruct Hw as [Hw Hp]. by rewrite Hu1, Hu.
Qed.

Lemma s3_complete_spec pk if_not_exists w0 st parts w :
  uploading w0 pk (Some st) parts w →
  twp (complete_multipart_upload self pk st if_not_exists)
    (put_end w0 pk (concat parts) if_not_exists) w.
Proof.
  intros (Ho & Hid & Hn & Hc & u & Hu & Hub & Huk & Hl). unfold complete_multipart_upload.
  wp_vis x w1 E.
  assert (Hlook : uploads w !! mus_upload_id st = Some u) by by rewrite Hu, lookup_insert_eq.
  pose proof (law_text _ _ _ _ _ E) as T. apply law_complete in E as [_ L].
  destruct (L u Hlook Hub Huk) as (Hd & Hex & Hok & Hw).
  specialize (Hw _ Hl). apply write_effect_end in Hw; [|intros err ->; by apply T].
  rewrite Ho in Hw.
  rewrite Hu, delete_insert_id in Hd by done. destruct x as [[]|e]; simpl.
  - wp_ret. split; [done|]. destruct (Hok eq_refl) as [Hnone _].
    by rewrite <- Hd, delete_id.
  - wp_vis y w2 E2. apply law_abort in E2 as (Ho2 & Hd2 & _). wp_ret.
    destruct Hw as [Hw Hp]. simpl. rewrite Ho2.
    split_and!; [done| |done]. rewrite <- Hd, <- Hd2. apply delete_subseteq.
Qed.

(** After the last chunk. *)
Lemma finish_spec pk options if_not_exists outcome w0 m parts rest w :
  uploading w0 pk m parts w →
  twp (finish path_debug self pk options if_not_exists outcome rest m) (λ r w',
    (∃ e, r = Err e ∧ untouched w0 w') ∨
    ∃ r', put_end w0 pk (concat parts ++ rest) if_not_exists r' w' ∧
      r = put_outcome path_debug if_not_exists outcome r') w.
Proof.
  intros Hm. unfold finish. destruct m as [st|].
  - wp_bind. eapply (twp_mono _ (λ r w', match r with
      | Ok st => ∃ parts', uploading w0 pk (Some st) parts' w' ∧
                 concat parts' = concat parts ++ rest
      | Err e => failed w0 e w'
      end)).
    + destruct rest as [|x rest]; [wp_ret; exists parts; by rewrite app_nil_r|].
      eapply twp_mono; [by apply upload_part_spec|]. intros [st'|e] w1 H1; [|done].
      exists (parts ++ [x :: rest]). by rewrite concat_snoc.
    + intros [st'|e] w1 H1; [|wp_ret; left; destruct H1; eauto]. destruct H1 as (parts' & H1 & E). rewrite <- E.
      wp_bind. eapply twp_mono; [by apply s3_complete_spec|]. intros r w2 H2. wp_ret. eauto.
  - destruct Hm as (Ho & -> & Hu). wp_bind. eapply twp_mono; [by apply single_spec|].
    intros r w1 H1. wp_ret. eauto.
Qed.
(** What a put of [b] under a key does: [Some] means that the key now holds
    the body, under a condition that it held nothing before; [None] only
    answers a conditional put, and then a plain key holds something; after an error
    the key holds what it held, or the whole body. *)
Definition put_effect (key : string) (b : bytes) (oe : option StorageError)
    (if_not_exists : bool) (w : W) (r : storage_result (option BlobWriteOutcome)) (w' : W) : Prop :=
  let at_ := object_at self key in
  let written := oe = None ∧ objects w' = <[at_:=b]> (objects w) ∧
    (if_not_exists = true → objects w !! at_ = None) in
  match r with
  | Ok (Some o) => key_safe key ∧ prefix_ok self ∧ written ∧ uploads w' = uploads w ∧
      o = mkBlobWriteOutcome (Z.min (Z.of_nat (length b)) u64_MAX) (sha256_hex b)
  | Ok None => if_not_exists = true ∧ (plain_key self key → is_Some (objects w' !! at_)) ∧
      (objects w' = objects w ∨ written) ∧ uploads w ⊆ uploads w'
  | Err e => (objects w' = objects w ∨ written) ∧ uploads w ⊆ uploads w' ∧
      (¬ (key_safe key ∧ prefix_ok self) → w' = w ∧ ∃ k, e = InvalidStorageKey k)
  end.

Lemma put_blob_inner_effect key body cs oe options if_not_exists w :
  body_of body cs oe →
  twp (put_blob_inner path_debug self key body options if_not_exists)
    (put_effect key (concat cs) oe if_not_exists w) w.
Proof.
  intros Hb. eapply same_runs_twp; [by apply put_blob_inner_same|].
  unfold put_whole, put_interrupted. destruct (provider_key self key) as [pk|e] eqn:Ek.
  2: { apply provider_key_Err in Ek as [[k ->] _]. destruct oe; wp_ret; simpl; eauto 6. }
  apply provider_key_Ok in Ek as (Hk & Hp & ->).
  assert (U : uploading w (object_name self key) None [] w) by done.
  destruct oe as [e|]; wp_bind; (eapply twp_mono; [by apply push_parts_spec|]);
    intros [m|e'] w1 H1; try (wp_ret; destruct H1 as [[??] _]; simpl; tauto).
  - wp_ret. destruct H1 as [Ho Hm]. simpl. split; [by left|]. split; [|tauto].
    destruct m as [st|]; [|by destruct Hm as [_ ->]].
    destruct Hm as (Hid & _ & _ & u & -> & _). by apply insert_subseteq.
  - eapply twp_mono; [by apply finish_spec|].
    intros r w2 [(e & -> & Ho & Hu)|(r' & Hr & ->)]; [simpl; tauto|].
    rewrite app_nil_l, parts_concat in Hr. destruct r' as [[]|e]; simpl in *; [tauto|].
    destruct Hr as (Ho & Hu & Hpre). destruct (if_not_exists && _) eqn:Ec; simpl.
    + apply andb_prop in Ec as [-> Ec]. split_and!; [done| |tauto|done].
      intros [Pb Pk]. by apply Hpre.
    + tauto.
Qed.

Lemma s3_put_effect key body cs oe options w :
  body_of body cs oe →
  twp (put_blob path_debug self key body options) (λ r w',
    put_effect key (concat cs) oe false w (result_map Some r) w') w.
Proof.
  intros Hb. unfold put_blob. wp_bind. eapply twp_mono; [by apply put_blob_inner_effect|].
  intros [[o|]|e] w' He; wp_ret; [done|by destruct He|done].
Qed.

(** C13: on S3 a put is all or nothing.  [put_blob] that succeeds leaves the
    whole body under the key, with its size and digest, and no other object or
    upload changes; [put_blob_if_not_exists] does so only when there was no
    object, and answers [None] only when there is one, if the name of the key
    holds no error word.  After an error the key
    holds what it held before or, when the answer of the last request was lost,
    the whole body: never a part of it, and never a body that failed.  A failed
    put may leave an upload in progress behind.  An invalid key is refused
    before any request, and every put ends. *)
Theorem s3_put_spec key body cs oe options w :
  body_of body cs oe →
  twp (put_blob path_debug self key body options) (λ r w',
    put_effect key (concat cs) oe false w (result_map Some r) w') w ∧
  twp (put_blob_if_not_exists path_debug self key body options)
    (put_effect key (concat cs) oe true w) w.
Proof.
  intros Hb. split; [by apply s3_put_effect|by apply put_blob_inner_effect].
Qed.
(** A body that fails after 8 MiB leaves a multipart upload behind: the
    put returns the error of the body without aborting the upload it started,
    and nobody else knows its id. *)
Theorem s3_failed_body_leaves_upload key body cs e options if_not_exists w :
  body_of body cs (Some e) → MULTIPART_PART_SIZE ≤ Z.of_nat (length (concat cs)) →
  key_safe key → prefix_ok self → (∀ b m r, e ≠ Provider b m r) →
  twp (put_blob_inner path_debug self key body options if_not_exists) (λ r w',
    r = Err e → ∃ id, uploads w !! id = None ∧ is_Some (uploads w' !! id)) w.
Proof.
  intros Hb Hl Hk Hp He. eapply same_runs_twp; [by apply put_blob_inner_same|].
  unfold put_interrupted. rewrite (proj2 (provider_key_Ok self key _)) by done. wp_bind.
  assert (U : uploading w (object_name self key) None [] w) by done.
  eapply twp_mono; [by apply push_parts_spec|]. intros [m|e'] w1 H1; wp_ret.
  - intros _. destruct H1 as [_ Hm]. destruct m as [st|].
    + destruct Hm as (Hid & _ & _ & u & -> & _). exists (mus_upload_id st).
      split; [done|]. rewrite lookup_insert_eq. by eexists.
    + destruct Hm as [Hm _]. rewrite app_nil_l in Hm. rewrite full_parts_long in Hm; [done|].
      pose proof PART_Z. lia.
  - intros [= ->]. destruct H1 as (_ & b & m & r & ->). by destruct (He b m r).
Qed.
End Writing.
