(* ===== verification/S3Read.v ===== *)
(** * Reading from S3

    The reads, the deletion and the copy against the service of S3Server.v, and
    how their errors are told apart (S3Errors.v). *)
From stdpp Require Import pretty.
From S2P Require Import Prelude Text Errors Providers Externals Paths Keys Effects Streams BlobStore S3 S3Errors S3Server S3Put S3Content.
From Stdlib Require Import Ascii.

Section Reading.
Context `{EX : Externals} `{SDK : S3Sdk}.
Context {W : Type} `{H : !Handler s3E W} `{V : !S3View W} `{S : !S3Service W}.
Context (self : S3StorageBackend).

Definition kept (w w' : W) : Prop := objects w' = objects w ∧ uploads w' = uploads w.

(** The body delivers [c], however often it is asked and in whatever state:
    all of it, or a first part of it and then a retryable error. *)
Definition serves (body : StorageByteStream s3E) (c : bytes) : Prop :=
  ∀ w, ∃ cs oe w', delivers (into_inner body) w cs oe w' ∧ kept w w' ∧
    concat cs `prefix_of` c ∧ (oe = None → concat cs = c) ∧
    (∀ e, oe = Some e → is_retryable e = true).

Lemma s3_kept_trans w1 w2 w3 : kept w1 w2 → kept w2 w3 → kept w1 w3.
Proof. unfold kept. intuition congruence. Qed.

Lemma kept_read {X} (e : s3E X) w x w' : handle e w = (x, w') → read_only e = true → kept w w'.
Proof. intros E He. by eapply law_read_only. Qed.

Lemma body_drains what key body w :
  ∃ cs oe w', drains (body_next what key) (Some body) w cs oe w' ∧ kept w w' ∧
    concat cs `prefix_of` response body ∧ (oe = None → concat cs = response body) ∧
    (∀ e, oe = Some e → is_retryable e = true).
Proof.
  remember (length (response body)) as n eqn:En. revert body w En.
  induction n as [n IH] using lt_wf_ind. intros body w ->.
  destruct (handle (ReadBody body) w) as [[r body'] w1] eqn:E.
  pose proof (kept_read _ _ _ _ E eq_refl) as K.
  assert (Hstep : ∀ x, (match r with
      | None => (None, None)
      | Some (Ok b) => (Some (Ok b), Some body')
      | Some (Err source) => (Some (Err (Provider (backend_as_str Providers.S3)
          (what +:+ " failed for " +:+ key +:+ ": " +:+ source) true)), None)
      end) = x → runs (body_next what key (Some body)) w x w1).
  { intros x <-. apply runs_vis. rewrite E. simpl. by destruct r as [[|]|]; apply runs_ret. }
  pose proof (law_read_body _ _ _ _ _ E) as L.
  destruct r as [[c|source]|].
  - destruct L as [Hc Hr]. destruct (IH (length (response body'))) with (body := body') (w := w1)
      as (cs & oe & w2 & D & K2 & Hp & Hall & He); [|done|].
    { rewrite Hr, length_app. destruct c; [done|]. simpl. lia. }
    exists (c :: cs), oe, w2. split_and!; [by eapply drains_chunk; [apply Hstep|]| | | |done].
    + by eapply s3_kept_trans.
    + rewrite Hr. by apply prefix_app.
    + intros Ho. simpl. by rewrite Hr, Hall.
  - eexists [], _, w1. split_and!; [by eapply drains_err, Hstep|done|apply prefix_nil|done|].
    by intros e [= <-].
  - exists [], None, w1. split_and!; [by eapply drains_end, Hstep|done|apply prefix_nil| |done].
    by rewrite L.
Qed.

Lemma body_serves what key body hint :
  serves (mkStorageByteStream (body_stream what key body) hint) (response body).
Proof. intros w. apply body_drains. Qed.

Lemma empty_serves : serves (from_bytes []) [].
Proof.
  intros w. exists [[]], None, w. split_and!; [|done|done|done|done].
  apply (drains_iter_ok [[]]).
Qed.

(** A key that the backend refuses. *)
Definition refused (key : string) (w : W) (e : StorageError) (w' : W) : Prop :=
  ¬ (key_safe key ∧ prefix_ok self) → w' = w ∧ ∃ k, e = InvalidStorageKey k.

Lemma refused_valid key w e w' : key_safe key → prefix_ok self → refused key w e w'.
Proof. intros Hk Hp []. done. Qed.

(** How the answer to a request becomes a result: the error codes of a missing
    object become [missing]; an error that is neither these nor a 404 is passed
    on with its text, if no name of the request holds an error word. *)
Definition reports {A B} (request : s3E (result A SdkError)) (plain : Prop)
    (missing : storage_result B) (w : W) (r : storage_result B) : Prop :=
  match (handle request w).1 with
  | Ok _ => is_ok r = true
  | Err err => (missing_code err → r = missing) ∧
      (plain → ¬ not_found err →
       r = Err (Provider "s3" (sdk_debug err) (is_retryable_s3_message (sdk_debug err))))
  end.

Lemma found_or_reports {A B} (request : s3E (result A SdkError)) (plain : Prop)
    (missing : storage_result B) (k : A → storage_result B) w x w1 :
  handle request w = (x, w1) → (∀ a, is_ok (k a) = true) →
  (∀ err, x = Err err → ∃ names, text_of names err ∧
     (plain → Forall (λ n, plain_name n = true) names)) →
  reports request plain missing w (found_or missing x k).
Proof.
  intros E Hk Ht. unfold reports. rewrite E. simpl. destruct x as [a|err]; simpl; [apply Hk|].
  destruct (Ht err eq_refl) as (names & T & Hp). split.
  - intros Hm. by rewrite (missing_code_found names).
  - intros Hplain Hn. destruct (is_missing_error err) eqn:Em; [|done].
    destruct Hn. by apply (found_not_found names); [|apply Hp|].

Qed.

(** An error taken for a missing object, for plain names. *)
Lemma missing_not_found b k err :
  text_of [b; k] err → is_missing_error err = true → plain_name b = true → plain_name k = true →
  not_found err.
Proof. intros T Em Hb Hk. apply (found_not_found [b; k]); [done|by repeat constructor|done]. Qed.

Abbreviation get_request key range :=
  (GetObject (bucket_name self) (object_name self key) range).

Lemma s3_get_ok key w :
  twp (get_blob self key) (λ r w', kept w w' ∧
    (key_safe key → prefix_ok self →
     reports (get_request key None) (plain_key self key) (Err (MissingBlob key)) w r) ∧
    match r with
    | Ok body => key_safe key ∧ prefix_ok self ∧ ∃ c, objects w !! object_at self key = Some c ∧
        bb_key body = key ∧ sbs_size_hint (bb_body body) = None ∧
        (bb_metadata body ≫= bm_size_bytes) = u64_try_from (Z.of_nat (length c)) ∧
        serves (bb_body body) c
    | Err e => refused key w e w' ∧
        (plain_key self key → e = MissingBlob key → objects w !! object_at self key = None)
    end) w.
Proof.
  unfold get_blob. destruct (provider_key self key) as [pk|e] eqn:Ek.
  2: { apply provider_key_Err in Ek as [[k ->] Hn]. wp_ret. split; [done|]. split; [tauto|].
       split; [intros _; eauto|done]. }
  apply provider_key_Ok in Ek as (Hk & Hp & ->). wp_vis x w1 E. wp_ret.
  split; [by eapply kept_read|]. pose proof (law_text _ _ _ _ _ E) as T. split.
  - intros _ _. eapply found_or_reports; [done|done|]. intros err ->. eexists.
    split; [by apply T|apply plain_key_names].
  - destruct x as [out|e]; simpl.
    + destruct (law_get _ _ _ _ _ _ E) as (c & Hc & Hlen & Hr). rewrite Hr in Hlen.
      split_and!; [done|done|]. exists c. split_and!; [done|done|done| |].
      * simpl. by rewrite Hlen.
      * rewrite <- Hr. apply body_serves.
    + destruct (is_missing_error e) eqn:Em; (split; [by apply refused_valid|]); [|done].
      intros [Pb Pk] _. eapply law_get_missing; [exact E|].
      by eapply missing_not_found; [apply T| | |].
Qed.

Lemma s3_head_ok key w :
  twp (head_blob self key) (λ r w', kept w w' ∧
    (key_safe key → prefix_ok self →
     reports (HeadObject (bucket_name self) (object_name self key)) (plain_key self key) (Ok None) w r) ∧
    match r with
    | Ok (Some m) => key_safe key ∧ prefix_ok self ∧
        ∃ c, objects w !! object_at self key = Some c ∧ bm_key m = key ∧
          bm_size_bytes m = u64_try_from (Z.of_nat (length c))
    | Ok None => key_safe key ∧ prefix_ok self ∧
        (plain_key self key → objects w !! object_at self key = None)
    | Err e => refused key w e w' ∧ ∀ k, e ≠ MissingBlob k
    end) w.
Proof.
  unfold head_blob. destruct (provider_key self key) as [pk|e] eqn:Ek.
  2: { apply provider_key_Err in Ek as [[k ->] Hn]. wp_ret. split; [done|]. split; [tauto|].
       split; [intros _; eauto|done]. }
  apply provider_key_Ok in Ek as (Hk & Hp & ->). wp_vis x w1 E. wp_ret.
  split; [by eapply kept_read|]. pose proof (law_text _ _ _ _ _ E) as T. split.
  - intros _ _. eapply found_or_reports; [done|done|]. intros err ->. eexists.
    split; [by apply T|apply plain_key_names].
  - pose proof (law_head _ _ _ _ _ E) as L. destruct x as [out|e]; simpl.
    + destruct L as (c & Hc & Hlen). split_and!; [done|done|]. exists c. simpl. by rewrite Hlen.
    + destruct (is_missing_error e) eqn:Em; [|split; [by apply refused_valid|done]].
      split_and!; [done..|]. intros [Pb Pk]. apply L.
      by eapply missing_not_found; [apply T| | |].
Qed.

Lemma range_header_eq range :
  range_header range = "bytes=" +:+ pretty (range_start range) +:+ "-" +:+
                       pretty (range_end range - 1).
Proof. done. Qed.

Lemma s3_range_ok key range w :
  u64_ok (range_start range) → u64_ok (range_end range) →
  range_start range ≤ range_end range →
  twp (get_blob_range self key range) (λ r w', kept w w' ∧
    (key_safe key → prefix_ok self → range_start range < range_end range →
     reports (get_request key (Some (range_header range))) (plain_key self key)
       (Err (MissingBlob key)) w r) ∧
    match r with
    | Ok body => ∃ c, c = default [] (objects w !! object_at self key) ∧
        serves (bb_body body) (byte_range (range_start range)
          (range_end range - range_start range) c) ∧
        (range_start range < range_end range →
         is_Some (objects w !! object_at self key) ∧
         range_start range < Z.of_nat (length c) ∧
         size_hint (bb_body body) = Some (range_end range - range_start range))
    | Err e => refused key w e w' ∧
        (plain_key self key → e = MissingBlob key → objects w !! object_at self key = None)
    end) w.
Proof.
  intros Hs He Hle. unfold get_blob_range. rewrite (proj2 (Z.ltb_ge _ _)) by done.
  destruct (Z.eqb_spec (range_start range) (range_end range)) as [Heq|Hne].
  - wp_bind. eapply twp_mono; [apply s3_head_ok|].
    intros [m|e] w1 (K & _ & Hr); wp_ret; (split; [done|]); (split; [lia|]).
    + eexists. split; [done|]. rewrite Heq, Z.sub_diag, byte_range_zero.
      split; [apply empty_serves|lia].
    + destruct Hr as [Hr Hm]. split; [done|]. intros _ ->. by destruct (Hm key).
  - destruct (provider_key self key) as [pk|e] eqn:Ek.
    2: { apply provider_key_Err in Ek as [[k ->] Hn]. wp_ret. split; [done|]. split; [tauto|].
         split; [intros _; eauto|done]. }
    apply provider_key_Ok in Ek as (Hk & Hp & ->). wp_vis x w1 E. wp_ret.
    split; [by eapply kept_read|]. pose proof (law_text _ _ _ _ _ E) as T. split.
    + intros _ _ _. eapply found_or_reports; [done|done|]. intros err ->. eexists.
      split; [by apply T|apply plain_key_names].
    + destruct x as [out|e]; simpl.
      * destruct (law_get _ _ _ _ _ _ E) as (c & Hc & Hlen & Hr).
        destruct (Hr (range_start range) (range_end range - 1)) as [Hlt Hb];
          [unfold u64_ok in *; lia|apply range_header_eq|].
        fold (object_at self key) in Hc. exists c. rewrite Hc. split_and!; [done| |done].
        replace (range_end range - range_start range)
          with (range_end range - 1 - range_start range + 1) by lia.
        rewrite <- Hb. apply body_serves.
      * destruct (is_missing_error e) eqn:Em; (split; [by apply refused_valid|]); [|done].
        intros [Pb Pk] _. eapply law_get_missing; [exact E|].
        by eapply missing_not_found; [apply T| | |].
Qed.

(** C16: a read from S3 delivers the object.  The body of [get_blob] delivers
    the content the key had, in chunks of any size, or a first part of it and
    then a retryable error, and always ends.  The body of [get_blob_range]
    does so for exactly the bytes of the range that the object has; a range
    that starts at or after the end of the object is an error of the service,
    an inverted one is refused without a request, and an empty one reads
    nothing, of a missing blob too.  An answer [NoSuchKey] or [NotFound] becomes
    [MissingBlob]; where no name of the request holds an error word,
    [MissingBlob] means that there is no object, and every error but these and
    404 is passed on with its text and whether it can be retried.  Nothing
    changes. *)
Theorem s3_get_spec key range w :
  u64_ok (range_start range) → u64_ok (range_end range) →
  twp (get_blob self key) (λ r w', kept w w' ∧
    (key_safe key → prefix_ok self →
     reports (get_request key None) (plain_key self key) (Err (MissingBlob key)) w r) ∧
    match r with
    | Ok body => ∃ c, objects w !! object_at self key = Some c ∧ serves (bb_body body) c ∧
        (bb_metadata body ≫= bm_size_bytes) = u64_try_from (Z.of_nat (length c))
    | Err e => refused key w e w' ∧
        (plain_key self key → e = MissingBlob key → objects w !! object_at self key = None)
    end) w ∧
  (range_end range < range_start range →
   runs (get_blob_range self key range) w
     (Err (PreconditionFailed key "range end is before range start")) w) ∧
  (range_start range ≤ range_end range →
   twp (get_blob_range self key range) (λ r w', kept w w' ∧
     (key_safe key → prefix_ok self → range_start range < range_end range →
      reports (get_request key (Some (range_header range))) (plain_key self key)
        (Err (MissingBlob key)) w r) ∧
     match r with
     | Ok body => ∃ c, c = default [] (objects w !! object_at self key) ∧
         serves (bb_body body) (byte_range (range_start range)
           (range_end range - range_start range) c) ∧
         (range_start range < range_end range →
          is_Some (objects w !! object_at self key) ∧
          range_start range < Z.of_nat (length c) ∧
          size_hint (bb_body body) = Some (range_end range - range_start range))
     | Err e => refused key w e w' ∧
         (plain_key self key → e = MissingBlob key → objects w !! object_at self key = None)
     end) w).
Proof.
  intros Hs He. split_and!.
  - eapply twp_mono; [apply s3_get_ok|].
    intros [body|e] w' (K & Hrep & Hr); (split; [done|]); (split; [done|]); [|done].
    destruct Hr as (_ & _ & c & Hc & _ & _ & Hm & Hb). eauto.
  - intros Hlt. unfold get_blob_range. rewrite (proj2 (Z.ltb_lt _ _)) by done. by apply runs_ret.
  - by apply s3_range_ok.
Qed.

(** ** Existence, deletion and copies *)

(** A name the copy source header carries unencoded. *)
Definition header_safe (s : string) : Prop :=
  contains_char "%" s = false ∧ contains_char "+" s = false.

Definition bucket_ok : Prop :=
  contains_char "/" (bucket_name self) = false ∧ header_safe (bucket_name self).

Lemma copy_source_decodes name :
  bucket_ok → header_safe name →
  url_decode (bucket_name self +:+ "/" +:+ name) = bucket_name self +:+ "/" +:+ name.
Proof.
  intros (_ & B1 & B2) [N1 N2].
  apply law_url_decode; rewrite !contains_char_app; simpl.
  - by rewrite B1, N1.
  - by rewrite B2, N2.
Qed.

Abbreviation head_request key := (HeadObject (bucket_name self) (object_name self key)).

Abbreviation copy_request key to :=
  (CopyObject (bucket_name self) (object_name self to)
     (bucket_name self +:+ "/" +:+ object_name self key)).

Lemma copy_names key to :
  plain_key self key → plain_key self to →
  Forall (λ n, plain_name n = true) (request_names (copy_request key to)).
Proof. intros [Hb Hk] [_ Ht]. repeat constructor; [done..|by apply plain_name_slash]. Qed.

Lemma s3_exists_ok key w :
  twp (blob_exists self key) (λ r w', kept w w' ∧
    (key_safe key → prefix_ok self →
     reports (head_request key) (plain_key self key) (Ok false) w r) ∧
    ∀ b, r = Ok b →
      (b = true → is_Some (objects w !! object_at self key)) ∧
      (plain_key self key → b = false → objects w !! object_at self key = None)) w.
Proof.
  unfold blob_exists. wp_bind. eapply twp_mono; [apply s3_head_ok|].
  intros r w' (K & Hrep & Hr). assert (Hx : key_safe key → prefix_ok self →
    reports (head_request key) (plain_key self key) (Ok false) w
      (result_map (λ m, bool_decide (is_Some m)) r)).
  { intros Hk Hp. specialize (Hrep Hk Hp). revert Hrep. unfold reports.
    destruct (handle _ w).1 as [o|err]; [by destruct r|].
    intros [Hm Hn]. split; intros; [by rewrite Hm|by rewrite Hn]. }
  destruct r as [[m|]|e]; wp_ret; (split; [done|]); (split; [exact Hx|]); [| |done];
    intros b [= <-]; (split; [|done]) || (split; [done|]).
  - intros _. destruct Hr as (_ & _ & c & Hc & _). by rewrite Hc.
  - intros Hp _. by apply Hr.
Qed.

Lemma s3_delete_ok key w :
  twp (delete_blob self key) (λ r w', uploads w' = uploads w ∧
    match r with
    | Ok _ => objects w' = delete (object_at self key) (objects w)
    | Err e => refused key w e w' ∧
        (objects w' = objects w ∨ objects w' = delete (object_at self key) (objects w))
    end) w.
Proof.
  unfold delete_blob. destruct (provider_key self key) as [pk|e] eqn:Ek.
  2: { apply provider_key_Err in Ek as [[k ->] _]. wp_ret. split; [done|].
       split; [intros _; eauto|by left]. }
  apply provider_key_Ok in Ek as (Hk & Hp & ->). wp_vis x w1 E. wp_ret.
  apply law_delete in E as [Hu Hr]. split; [done|].
  destruct x as [[]|e]; simpl; [done|]. split; [by apply refused_valid|done].
Qed.

Lemma s3_copy_ok key to w :
  bucket_ok → header_safe (object_name self key) →
  twp (copy_blob self key to) (λ r w', uploads w' = uploads w ∧
    (key_safe key → key_safe to → prefix_ok self →
     reports (copy_request key to) (plain_key self key ∧ plain_key self to) (Err (MissingBlob key)) w r) ∧
    let copied := ∃ c, objects w !! object_at self key = Some c ∧
      objects w' = <[object_at self to:=c]> (objects w) in
    match r with
    | Ok _ => copied
    | Err e => (objects w' = objects w ∨ copied) ∧
        (plain_key self key → plain_key self to → e = MissingBlob key →
         objects w !! object_at self key = None)
    end) w.
Proof.
  intros Hb Hn. unfold copy_blob. destruct (provider_key self key) as [pk|e] eqn:Ek.
  2: { apply provider_key_Err in Ek as [[k ->] Hx]. wp_ret. split; [done|]. split; [tauto|]. by split; [left|]. }
  apply provider_key_Ok in Ek as (Hk & Hp & ->).
  destruct (provider_key self to) as [pk|e] eqn:Et.
  2: { apply provider_key_Err in Et as [[k ->] Hx]. wp_ret. split; [done|]. split; [tauto|]. by split; [left|]. }
  apply provider_key_Ok in Et as (Ht & _ & ->). wp_vis x w1 E. wp_ret.
  pose proof (copy_source_decodes _ Hb Hn) as Hd. pose proof (law_text _ _ _ _ _ E) as T.
  pose proof E as E1. apply law_copy in E as (Hu & _ & L).
  pose proof (L _ _ (proj1 Hb) Hd) as Hr. split; [done|]. split.
  - intros _ _ _. eapply found_or_reports; [exact E1|done|]. intros err ->. eexists.
    split; [by apply T|]. intros [Pk Pt]. by apply copy_names.
  - destruct x as [[]|e]; simpl; [done|]. destruct Hr as [Hm Hr].
    destruct (is_missing_error e) eqn:Em; (split; [done|]); [|done].
    intros Pk Pt _. apply Hm; [done|]. eapply found_not_found; [by apply T| |done].
    by apply copy_names.
Qed.

(** A deleted object is not found. *)
Lemma deleted_absent key w w' :
  objects w' = delete (object_at self key) (objects w) →
  twp (blob_exists self key) (λ r _, ∀ b, r = Ok b → b = false) w'.
Proof.
  intros Ho. eapply twp_mono; [apply s3_exists_ok|]. intros r w2 (_ & _ & Hb) b Hr.
  destruct (Hb b Hr) as [Ht _]. destruct b; [|done]. destruct (Ht eq_refl) as [c Hc].
  by rewrite Ho, lookup_delete_eq in Hc.
Qed.

Lemma get_serves key c w :
  objects w !! object_at self key = Some c →
  twp (get_blob self key) (λ r _, ∀ body, r = Ok body → serves (bb_body body) c) w.
Proof.
  intros Hc. eapply twp_mono; [apply s3_get_ok|]. intros r w2 (_ & _ & Hr) body ->.
  destruct Hr as (_ & _ & d & Hd & _ & _ & _ & Hs). by assert (c = d) as -> by congruence.
Qed.

End Reading.
