(* ===== verification/S3List.v ===== *)
(** * Listing S3 blobs

    The pages of the service are drained to the keys below a prefix. *)
From S2P Require Import Prelude Text Errors Providers Externals Paths Keys Effects Streams BlobStore S3 S3Server S3Put S3Content S3Read.
From Stdlib Require Import Ascii.

(** ** The keys of a bucket *)

Lemma starts_with_iff p s : starts_with p s = true ↔ ∃ r, s = p +:+ r.
Proof.
  unfold starts_with. destruct (strip_prefix p s) as [r|] eqn:E.
  - apply strip_prefix_Some in E. split; eauto.
  - split; [done|]. intros [r ->]. by rewrite strip_prefix_app in E.
Qed.

Lemma elem_of_bucket_keys (o : s3_objects) b p k :
  k ∈ bucket_keys o b p ↔ is_Some (o !! (b, k)) ∧ starts_with p k = true.
Proof.
  unfold bucket_keys. rewrite merge_sort_Permutation, list_elem_of_omap. split.
  - intros ([[b' k'] c] & Hin & Hk). simpl in Hk. apply elem_of_map_to_list in Hin.
    destruct (bool_decide_reflect (b' = b)) as [->|]; [|done]. simpl in Hk.
    destruct (starts_with p k') eqn:E; [|done]. injection Hk as ->. eauto.
  - intros [[c Hc] Hp]. exists (b, k, c). split; [by apply elem_of_map_to_list|].
    simpl. by rewrite bool_decide_eq_true_2, Hp.
Qed.

Lemma NoDup_bucket_keys (o : s3_objects) b p : NoDup (bucket_keys o b p).
Proof.
  unfold bucket_keys. rewrite merge_sort_Permutation.
  pose proof (NoDup_fst_map_to_list o) as N. induction (map_to_list o) as [|[[b' k'] c] l IH];
    simpl; [constructor|].
  apply NoDup_cons in N as [N1 N2]. destruct (bool_decide_reflect (b' = b)) as [->|]; [|by apply IH].
  simpl. destruct (starts_with p k'); [|by apply IH]. apply NoDup_cons. split; [|by apply IH].
  intros ([[b2 k2] c2] & Hin & Hk)%list_elem_of_omap. simpl in Hk.
  destruct (bool_decide_reflect (b2 = b)) as [->|]; [|done]. simpl in Hk.
  destruct (starts_with p k2); [|done]. injection Hk as ->. apply N1.
  apply list_elem_of_fmap. by exists (b, k', c2).
Qed.

Lemma sorted_bucket_keys (o : s3_objects) b p : sorted_keys (bucket_keys o b p).
Proof.
  pose proof (NoDup_bucket_keys o b p) as N.
  assert (S : StronglySorted String.le (bucket_keys o b p))
    by apply (StronglySorted_merge_sort String.le).
  unfold sorted_keys. induction S as [|k l S IH F]; [constructor|].
  apply NoDup_cons in N as [Hk N]. constructor; [by apply IH|].
  rewrite Forall_forall in F |- *. intros x Hx. unfold str_lt. rewrite str_ltb_leb.
  apply negb_true_iff. destruct (str_leb x k) eqn:E; [|done]. exfalso. apply Hk.
  apply str_leb_le in E. assert (x = k) as -> by (apply (anti_symm String.le); auto). done.
Qed.

(** ** Names and keys *)

Section Names.
Context (self : S3StorageBackend).

(** What [list_blobs_page] sends as the prefix. *)
Definition list_prefix (prefix : string) : string :=
  if str_is_empty prefix then default "" (trim_matches "/" <$> s3_key_prefix (s3_config self))
  else object_name self prefix.

(** What a page makes of the names it is sent. *)
Definition page_keys (names : list string) : list string :=
  List.filter (λ key, negb (str_is_empty key)) (map (strip_provider_prefix self) names).

Lemma page_keys_app a b : page_keys (a ++ b) = page_keys a ++ page_keys b.
Proof. unfold page_keys. by rewrite map_app, List.filter_app. Qed.

(** Of the names below a prefix every one is that of a key, unless the listing
    is of everything and a key prefix is configured: then names of siblings of
    the key prefix start with it too. *)
Definition exact (prefix : string) : Prop :=
  key_safe prefix ∨ (prefix = "" ∧ s3_key_prefix (s3_config self) = None).

Lemma object_name_app key r :
  object_name self (key +:+ r) = object_name self key +:+ r.
Proof.
  unfold object_name. destruct (s3_key_prefix _) as [p|]; [|done]. cbn zeta.
  destruct (str_is_empty _); [done|]. by rewrite <- !app_assoc_str.
Qed.

Lemma strip_object_name_app key r :
  key_safe key → strip_provider_prefix self (object_name self key +:+ r) = key +:+ r.
Proof.
  intros Hk. rewrite <- object_name_app. unfold strip_provider_prefix, object_name. cbn zeta.
  destruct (s3_key_prefix _) as [p|]; [|done].
  destruct (str_is_empty (trim_matches "/" p)) eqn:E.
  - apply str_is_empty_true in E. rewrite E.
    pose proof (key_safe_head_not_slash _ Hk) as Ha. unfold path_is_absolute, starts_with in Ha.
    change (default (key +:+ r) (strip_prefix "/" (key +:+ r)) = key +:+ r).
    destruct (strip_prefix "/" (key +:+ r)) as [s|] eqn:Es; [|done]. exfalso.
    apply strip_prefix_Some in Es. destruct key as [|a key]; [by destruct (key_safe_nonempty _ Hk)|].
    rewrite app_cons_str in Es. by injection Es as -> _.
  - by rewrite strip_prefix_app.
Qed.

(** In an exact listing stripping is the inverse of naming. *)
Lemma exact_strip prefix name :
  exact prefix → starts_with (list_prefix prefix) name = true →
  name = object_name self (strip_provider_prefix self name) ∧
  starts_with prefix (strip_provider_prefix self name) = true.
Proof.
  intros [Hk|[-> Hp]] [r ->]%starts_with_iff; unfold list_prefix.
  - assert (prefix ≠ "") as Hne%str_is_empty_false by by apply key_safe_nonempty.
    rewrite Hne, strip_object_name_app by done. split; [by rewrite object_name_app|].
    apply starts_with_iff. eauto.
  - unfold object_name, strip_provider_prefix. simpl. by rewrite Hp.
Qed.
Lemma object_name_lt a b : str_lt (object_name self a) (object_name self b) ↔ str_lt a b.
Proof.
  unfold object_name, str_lt. destruct (s3_key_prefix _) as [p|]; [|done]. cbn zeta.
  destruct (str_is_empty _); [done|]. by rewrite !str_ltb_compare, !compare_app.
Qed.

(** An exact page is sorted, and its keys are those of the names. *)
Lemma exact_page_keys prefix names :
  exact prefix → Forall (λ name, starts_with (list_prefix prefix) name = true) names →
  sorted_keys names →
  sorted_keys (page_keys names) ∧
  ∀ key, key ∈ page_keys names → object_name self key ∈ names ∧ starts_with prefix key = true.
Proof.
  intros He Hf Hs. induction Hs as [|name names Hs IH F].
  - split; [constructor|]. by intros key ?%not_elem_of_nil.
  - apply Forall_cons in Hf as [Hn Hf]. destruct (IH Hf) as [S1 S2]. clear IH.
    apply exact_strip in Hn as [Hn Hst]; [|done]. unfold page_keys. simpl.
    fold (page_keys names). destruct (str_is_empty _) eqn:Ee; simpl.
    + split; [done|]. intros key Hk. destruct (S2 key Hk) as [? ?]. split; [by right|done].
    + split.
      * constructor; [done|]. rewrite Forall_forall in F |- *. intros key Hk.
        destruct (S2 key Hk) as [Hin _]. apply object_name_lt. rewrite <- Hn. by apply F.
      * intros key [->|Hk]%elem_of_cons; [rewrite <- Hn; split; [by left|done]|].
        destruct (S2 key Hk) as [? ?]. split; [by right|done].
Qed.
End Names.

(** ** Pages *)

Section Listing.
Context `{EX : Externals} `{SDK : S3Sdk}.
Context {W : Type} `{H : !Handler s3E W} `{V : !S3View W} `{S : !S3Service W}.
Context (self : S3StorageBackend).

Lemma omap_id_Some {A} (l : list A) : omap id (map Some l) = l.
Proof.
  induction l as [|x l IH]; [done|].
  change (x :: omap id (map Some l) = x :: l). by rewrite IH.
Qed.

(** The names that are still to come after a continuation token. *)
Definition names_after (o : s3_objects) (prefix : string) (c : option string) : list string :=
  List.filter (after_token (token_key <$> c))
    (bucket_keys o (bucket_name self) (list_prefix self prefix)).

Lemma list_page_ok prefix c limit w :
  0 < limit →
  twp (list_blobs_page self prefix c limit) (λ r w', kept w w' ∧
    match r with
    | Ok page => (prefix ≠ "" → key_safe prefix) ∧
        let names := names_after (objects w) prefix c in
        ∃ n, Z.of_nat n ≤ limit ∧ blp_keys page = page_keys self (take n names) ∧
          match blp_next_continuation page with
          | None => (length names <= n)%nat
          | Some t => (0 < n < length names)%nat ∧ last (take n names) = Some (token_key t)
          end
    | Err _ => True
    end) w.
Proof.
  intros Hl. unfold list_blobs_page. rewrite (proj2 (Z.eqb_neq _ _)) by lia.
  assert (Hpre : ∀ pp, (if str_is_empty prefix
      then Ok (default "" (trim_matches "/" <$> s3_key_prefix (s3_config self)))
      else provider_key self prefix) = Ok pp →
    pp = list_prefix self prefix ∧ (prefix ≠ "" → key_safe prefix)).
  { unfold list_prefix. destruct (str_is_empty prefix) eqn:E; intros pp.
    - apply str_is_empty_true in E. by intros [= <-].
    - by intros (Hk & _ & ->)%provider_key_Ok. }
  destruct (if str_is_empty prefix then _ else _) as [pp|e]; [|by wp_ret].
  destruct (Hpre pp eq_refl) as [-> Hk]. clear Hpre. wp_vis x w1 E.
  assert (K : kept w w1) by by eapply kept_read.
  destruct x as [out|e]; simpl; wp_ret; (split; [done|]); [|done]. split; [done|].
  destruct (law_list _ _ _ _ _ _ _ E) as (n & Hn & Hc & Ht).
  exists n. fold (names_after (objects w) prefix c) in Hc, Ht. split_and!; [|by rewrite Hc, omap_id_Some|done].
  revert Hn. unfold i32_try_from. rewrite (proj2 (Z.leb_le 0 limit)) by lia.
  destruct (Z.leb_spec limit i32_MAX); simpl; lia.
Qed.
(** A page advances: its names, and then those after its token. *)
Lemma names_after_more o prefix c n t :
  (0 < n < length (names_after o prefix c))%nat →
  last (take n (names_after o prefix c)) = Some (token_key t) →
  names_after o prefix (Some t) = drop n (names_after o prefix c).
Proof.
  intros Hn Hlast. unfold names_after in *.
  set (all := bucket_keys o (bucket_name self) (list_prefix self prefix)) in *.
  pose proof (sorted_bucket_keys o (bucket_name self) (list_prefix self prefix)) as Sall.
  fold all in Sall. clearbody all.
  assert (Hsplit : ∃ before, all = before ++ List.filter (after_token (token_key <$> c)) all).
  { destruct c as [t0|]; simpl; [|exists []; by rewrite filter_all by (by apply Forall_true)].
    clear -Sall. induction Sall as [|k all Sall IH F]; [by exists []|]. simpl.
    destruct (str_ltb (token_key t0) k) eqn:E.
    - exists []. simpl. f_equal. symmetry. apply filter_all. eapply Forall_impl; [exact F|].
      intros x Hx. simpl. change (str_lt (token_key t0) x). by trans k.
    - destruct IH as [before E2]. exists (k :: before). simpl. by f_equal. }
  destruct Hsplit as [before E]. set (rest := List.filter _ all) in *.
  apply last_Some in Hlast as [l Hl].
  assert (E2 : all = (before ++ l) ++ [token_key t] ++ drop n rest).
  { rewrite E at 1. rewrite <- (take_drop n rest) at 1. by rewrite Hl, <- !app_assoc. }
  clearbody rest. clear E. simpl (_ <$> _). subst all. by apply sorted_filter_after.
Qed.

(** Draining the pages: all names, for the state of the start. *)
Lemma list_blobs_names prefix w :
  twp (default_list_blobs (list_blobs_page self) prefix) (λ r w', kept w w' ∧
    ∀ ks, r = Ok ks → (prefix ≠ "" → key_safe prefix) ∧
      ks = page_keys self (bucket_keys (objects w) (bucket_name self) (list_prefix self prefix)))
    w.
Proof.
  set (all := bucket_keys _ _ _). unfold default_list_blobs, loop.
  apply (twp_iter_inv
    (λ '(keys, c) w1, kept w w1 ∧ ∃ before, all = before ++ names_after (objects w) prefix c ∧
       keys = page_keys self before)
    (λ '(_, c) _, length (names_after (objects w) prefix c))).
  - split; [done|]. exists []. unfold names_after. simpl.
    by rewrite filter_all by (by apply Forall_true).
  - intros [keys c] w1 (K & before & Hall & ->). unfold list_step. wp_bind.
    eapply twp_mono; [by apply list_page_ok|]. intros [page|e] w2 [K2 Hp].
    2: { wp_ret. wp_ret. split; [by eapply s3_kept_trans|done]. }
    destruct Hp as (Hk & n & Hn & Hkeys & Hnext). rewrite (proj1 K) in *.
    destruct (blp_next_continuation page) as [t|]; wp_ret.
    + destruct Hnext as [Hlt Hlast]. pose proof (names_after_more _ _ _ _ _ Hlt Hlast) as Hmore.
      split; [|rewrite Hmore, length_drop; lia]. split; [by eapply s3_kept_trans|].
      exists (before ++ take n (names_after (objects w) prefix c)). split.
      * by rewrite Hmore, <- app_assoc, take_drop.
      * by rewrite Hkeys, page_keys_app.
    + wp_ret. split; [by eapply s3_kept_trans|]. intros ks [= <-]. split; [done|].
      by rewrite Hall, page_keys_app, Hkeys, take_ge.
Qed.
(** C15: [list_blobs] on S3 ends, whatever pages the service cuts the listing
    into, changes nothing, and lists every stored blob whose key starts with
    the prefix.  The listing is exact - strictly sorted, and every key in it is
    that of a stored blob and starts with the prefix - for every prefix but the
    empty one, and for that too when no key prefix is configured. *)
Theorem s3_list_blobs_spec prefix w :
  twp (default_list_blobs (list_blobs_page self) prefix) (λ r w', kept w w' ∧
    ∀ ks, r = Ok ks →
      (∀ key, key_safe key → is_Some (objects w !! object_at self key) →
         starts_with prefix key = true → key ∈ ks) ∧
      (prefix ≠ "" ∨ s3_key_prefix (s3_config self) = None →
       sorted_keys ks ∧
       ∀ key, key ∈ ks → is_Some (objects w !! object_at self key) ∧
         starts_with prefix key = true)) w.
Proof.
  eapply twp_mono; [apply list_blobs_names|]. intros r w' [K Hr]. split; [done|].
  intros ks ->. destruct (Hr ks eq_refl) as [Hpre ->]. clear Hr. split.
  - intros key Hk Hkey Hst. unfold page_keys. apply list_elem_of_In, List.filter_In.
    split; [|apply negb_true_iff, str_is_empty_false; by apply key_safe_nonempty].
    rewrite <- list_elem_of_In. apply list_elem_of_fmap. exists (object_name self key).
    split; [by rewrite strip_object_name|]. apply elem_of_bucket_keys. split; [done|].
    unfold list_prefix. apply starts_with_iff in Hst as [r ->]. destruct (str_is_empty prefix) eqn:E.
    + unfold object_name. destruct (s3_key_prefix _) as [p|]; simpl; [|done].
      destruct (str_is_empty (trim_matches "/" p)) eqn:Ep.
      * apply str_is_empty_true in Ep. by rewrite Ep.
      * apply starts_with_iff. eauto.
    + apply starts_with_iff. exists r. apply object_name_app.
  - intros He. assert (Hex : exact self prefix).
    { unfold exact. destruct (decide (prefix = "")) as [->|]; [|by left; apply Hpre].
      right. by destruct He. }
    destruct (exact_page_keys self prefix
      (bucket_keys (objects w) (bucket_name self) (list_prefix self prefix)))
      as [S1 S2]; [done| |apply sorted_bucket_keys|].
    + apply Forall_forall. by intros name [_ Hn]%elem_of_bucket_keys.
    + split; [done|]. intros key [Hin Hst]%S2. by apply elem_of_bucket_keys in Hin as [? _].
Qed.
End Listing.
