(* ===== verification/Fs.v ===== *)
(** * The file system the local provider runs on

    The calls [osE] are the [tokio::fs] and [tokio::io] calls of local.rs,
    which are the asynchronous forms of the standard library's [std::fs]; they
    act on a [World]: names (directories and hard links), inodes, a clock and
    the supply of UUIDs.  A handle keeps its inode when its name is renamed,
    replaced or removed.

    The world also holds the choices of the environment, one per call: whether
    the call fails and with which error, how much of its effect happened when
    it fails, how much a read returns, and how far the clock moves.  Theorems
    quantify over the choices, so they cover every pattern of failures. *)
From S2P Require Import Prelude Text Errors Externals Paths Effects.
(** A directory entry: a directory, or a link to an inode. *)
Inductive Entry : Type := DirEntry | FileEntry (ino : nat).

#[export] Instance Entry_eq_dec : EqDecision Entry.
Proof. solve_decision. Defined.

Record Inode : Type := mkInode { i_data : bytes; i_mtime : Z }.

(** [std::fs::Metadata], as far as local.rs reads it. *)
Record Metadata : Type := mkMetadata {
  md_is_file : bool;
  md_len : Z;
  md_modified : option Z;
}.

(** An open file and its position. *)
Record File : Type := mkFile { f_entry : Entry; f_pos : Z }.

Record Choice : Type := mkChoice {
  ch_fault : option IoError;
  ch_amount : nat;
  ch_tick : Z;
}.

(** The failure of a call that its environment causes.  Whether a name exists is
    a fact of the state, so these failures are neither [NotFound] nor
    [AlreadyExists]. *)
Definition state_kind (k : ErrorKind) : bool :=
  bool_decide (k = NotFound) || bool_decide (k = AlreadyExists).

Definition fault (c : Choice) : option IoError :=
  match ch_fault c with
  | Some e => if state_kind (io_kind e) then None else Some e
  | None => None
  end.

(** The choice once the list is used up: the call succeeds. *)
Definition no_fault : Choice := mkChoice None 4095 1.

Section Os.
Context `{EX : Externals}.

Inductive osE : Type → Type :=
| FsMetadata (p : PathBuf) : osE (io_result Metadata)
| FsReadDir (p : PathBuf) : osE (io_result (list (io_result PathBuf)))
| FsRemoveFile (p : PathBuf) : osE (io_result unit)
| FsCreateDirAll (p : PathBuf) : osE (io_result unit)
| FsCreate (p : PathBuf) : osE (io_result File)
| FsOpen (p : PathBuf) : osE (io_result File)
| FsWriteAll (f : File) (b : bytes) : osE (io_result File)
| FsFlush (f : File) : osE (io_result unit)
| FsSeek (f : File) (n : Z) : osE (io_result File)
| FsReadChunk (f : File) (limit : option Z) : osE (io_result (bytes * File))
| FsRename (p q : PathBuf) : osE (io_result unit)
| FsHardLink (p q : PathBuf) : osE (io_result unit)
| FsCopy (p q : PathBuf) : osE (io_result unit)
| FsRead (p : PathBuf) : osE (io_result bytes)
| FsWrite (p : PathBuf) (b : bytes) : osE (io_result unit)
| UuidNewV4 : osE Uuid
| NowUtc : osE OffsetDateTime
| SystemTimeNow : osE Z.

Record World : Type := mkWorld {
  w_names : gmap PathBuf Entry;
  w_inodes : gmap nat Inode;
  w_next : nat;
  w_choices : list Choice;
  w_uuids : nat → Uuid;
  w_uuid_next : nat;
  w_clock : Z;
  w_dir_stat : Z * Z;
}.

Definition set_names (w : World) (m : gmap PathBuf Entry) : World :=
  mkWorld m (w_inodes w) (w_next w) (w_choices w) (w_uuids w) (w_uuid_next w) (w_clock w)
    (w_dir_stat w).
Definition set_inodes (w : World) (m : gmap nat Inode) : World :=
  mkWorld (w_names w) m (w_next w) (w_choices w) (w_uuids w) (w_uuid_next w) (w_clock w)
    (w_dir_stat w).
Definition set_next (w : World) (n : nat) : World :=
  mkWorld (w_names w) (w_inodes w) n (w_choices w) (w_uuids w) (w_uuid_next w) (w_clock w)
    (w_dir_stat w).

Definition next_choice (w : World) : Choice * World :=
  let '(c, cs) := match w_choices w with [] => (no_fault, []) | c :: cs => (c, cs) end in
  (c, mkWorld (w_names w) (w_inodes w) (w_next w) cs (w_uuids w) (w_uuid_next w)
        (w_clock w + ch_tick c) (w_dir_stat w)).

Definition io_err {A} (k : ErrorKind) : io_result A := Err (mkIoError k "").

(** *** Path resolution *)

Definition entry_at (w : World) (p : PathBuf) : option Entry :=
  match p with [] => Some DirEntry | _ => w_names w !! p end.

(** The prefixes of a path, shortest first, without the root. *)
Definition prefixes (p : PathBuf) : list PathBuf :=
  map (λ n, take n p) (seq 1 (length p)).

Definition is_file_at (m : gmap PathBuf Entry) (p : PathBuf) : bool :=
  match m !! p with Some (FileEntry _) => true | _ => false end.

(** The error for a path without an entry: [ENOTDIR] below a file, [ENOENT]
    otherwise. *)
Definition missing_kind (w : World) (p : PathBuf) : ErrorKind :=
  if existsb (is_file_at (w_names w)) (removelast (prefixes p))
  then NotADirectory else NotFound.

Definition parent_is_dir (w : World) (p : PathBuf) : bool :=
  match path_parent p with
  | Some q => match entry_at w q with Some DirEntry => true | _ => false end
  | None => false
  end.

(** *** Operations that succeed or fail by the state alone *)

Definition fs_metadata (p : PathBuf) (w : World) : io_result Metadata :=
  match entry_at w p with
  | Some DirEntry => Ok (mkMetadata false (w_dir_stat w).1 (Some (w_dir_stat w).2))
  | Some (FileEntry i) =>
      match w_inodes w !! i with
      | Some nd => Ok (mkMetadata true (Z.of_nat (length (i_data nd))) (Some (i_mtime nd)))
      | None => io_err NotFound
      end
  | None => io_err (missing_kind w p)
  end.

(** The entries of a directory, as full paths, in no particular order. *)
Definition children (w : World) (p : PathBuf) : list PathBuf :=
  List.filter (λ q, bool_decide (path_parent q = Some p)) (map fst (map_to_list (w_names w))).

Definition fs_read_dir (p : PathBuf) (w : World) : io_result (list PathBuf) :=
  match entry_at w p with
  | Some DirEntry => Ok (children w p)
  | Some (FileEntry _) => io_err NotADirectory
  | None => io_err (missing_kind w p)
  end.

Definition fs_remove_file (p : PathBuf) (w : World) : io_result unit * World :=
  match entry_at w p with
  | Some DirEntry => (io_err IsADirectory, w)
  | Some (FileEntry _) => (Ok tt, set_names w (delete p (w_names w)))
  | None => (io_err (missing_kind w p), w)
  end.

Definition make_dirs (ps : list PathBuf) (m : gmap PathBuf Entry) : gmap PathBuf Entry :=
  foldl (λ m q, match m !! q with Some _ => m | None => <[q:=DirEntry]> m end) m ps.

Definition dirs_error (w : World) (p : PathBuf) : option ErrorKind :=
  if is_file_at (w_names w) p then Some AlreadyExists
  else if existsb (is_file_at (w_names w)) (prefixes p) then Some NotADirectory
  else None.

Definition fs_create_dir_all (p : PathBuf) (w : World) : io_result unit * World :=
  match dirs_error w p with
  | Some k => (io_err k, w)
  | None => (Ok tt, set_names w (make_dirs (prefixes p) (w_names w)))
  end.

(** [File::create]: truncates an existing file through all its links. *)
Definition fs_create (p : PathBuf) (w : World) : io_result File * World :=
  match entry_at w p with
  | Some DirEntry => (io_err IsADirectory, w)
  | Some (FileEntry i) =>
      (Ok (mkFile (FileEntry i) 0),
       set_inodes w (<[i:=mkInode [] (w_clock w)]> (w_inodes w)))
  | None =>
      if parent_is_dir w p then
        let i := w_next w in
        (Ok (mkFile (FileEntry i) 0),
         set_next (set_inodes (set_names w (<[p:=FileEntry i]> (w_names w)))
                     (<[i:=mkInode [] (w_clock w)]> (w_inodes w))) (S i))
      else (io_err (missing_kind w p), w)
  end.

Definition fs_open (p : PathBuf) (w : World) : io_result File :=
  match entry_at w p with
  | Some e => Ok (mkFile e 0)
  | None => io_err (missing_kind w p)
  end.

(** Writing at a position, with zeros in a gap. *)
Definition overlay (data : bytes) (pos : nat) (b : bytes) : bytes :=
  take pos data ++ replicate (pos - length data) Byte.x00 ++ b ++ drop (pos + length b) data.

Definition fs_write_at (f : File) (b : bytes) (w : World) : io_result File * World :=
  match f_entry f with
  | DirEntry => (io_err IsADirectory, w)
  | FileEntry i =>
      match w_inodes w !! i with
      | Some nd =>
          (Ok (mkFile (FileEntry i) (f_pos f + Z.of_nat (length b))),
           set_inodes w (<[i:=mkInode (overlay (i_data nd) (Z.to_nat (f_pos f)) b)
                                (w_clock w)]> (w_inodes w)))
      | None => (io_err NotFound, w)
      end
  end.

(** [lseek] refuses an offset beyond [i64::MAX]. *)
Definition fs_seek (f : File) (n : Z) : io_result File :=
  if i64_MAX <? n then io_err InvalidInput else Ok (mkFile (f_entry f) n).

(** One read of at most [k] bytes, [k > 0]. *)
Definition fs_read_at (f : File) (k : nat) (w : World) : io_result (bytes * File) :=
  match f_entry f with
  | DirEntry => io_err IsADirectory
  | FileEntry i =>
      match w_inodes w !! i with
      | Some nd =>
          let rest := if Z.of_nat (length (i_data nd)) <=? f_pos f then []
                      else drop (Z.to_nat (f_pos f)) (i_data nd) in
          let out := take k rest in
          Ok (out, mkFile (f_entry f) (f_pos f + Z.of_nat (length out)))
      | None => io_err NotFound
      end
  end.

(** [rename] of a file, which replaces a file at the target; two links to the
    same inode stay as they are.  The code renames files only. *)
Definition fs_rename (p q : PathBuf) (w : World) : io_result unit * World :=
  match entry_at w p with
  | None => (io_err (missing_kind w p), w)
  | Some DirEntry => (io_err Other, w)
  | Some (FileEntry i) =>
      match entry_at w q with
      | Some DirEntry => (io_err IsADirectory, w)
      | Some (FileEntry j) =>
          if Nat.eqb i j then (Ok tt, w)
          else (Ok tt, set_names w (<[q:=FileEntry i]> (delete p (w_names w))))
      | None =>
          if parent_is_dir w q
          then (Ok tt, set_names w (<[q:=FileEntry i]> (delete p (w_names w))))
          else (io_err (missing_kind w q), w)
      end
  end.

Definition fs_hard_link (p q : PathBuf) (w : World) : io_result unit * World :=
  match entry_at w p with
  | None => (io_err (missing_kind w p), w)
  | Some e =>
      match entry_at w q with
      | Some _ => (io_err AlreadyExists, w)
      | None =>
          if parent_is_dir w q then
            match e with
            | DirEntry => (io_err PermissionDenied, w)
            | FileEntry i => (Ok tt, set_names w (<[q:=FileEntry i]> (w_names w)))
            end
          else (io_err (missing_kind w q), w)
      end
  end.

Definition fs_read (p : PathBuf) (w : World) : io_result bytes :=
  match entry_at w p with
  | Some DirEntry => io_err IsADirectory
  | Some (FileEntry i) =>
      match w_inodes w !! i with Some nd => Ok (i_data nd) | None => io_err NotFound end
  | None => io_err (missing_kind w p)
  end.

(** [fs::write]: create or truncate, then write. *)
Definition fs_write (p : PathBuf) (b : bytes) (w : World) : io_result unit * World :=
  match fs_create p w with
  | (Err e, w') => (Err e, w')
  | (Ok f, w') => let '(r, w'') := fs_write_at f b w' in (result_map (λ _, tt) r, w'')
  end.

(** [fs::copy] of a file. *)
Definition fs_copy (p q : PathBuf) (w : World) : io_result unit * World :=
  match entry_at w p with
  | None => (io_err (missing_kind w p), w)
  | Some DirEntry => (io_err InvalidInput, w)
  | Some (FileEntry _) =>
      match fs_read p w with
      | Ok b => fs_write q b w
      | Err e => (Err e, w)
      end
  end.

(** *** A failing call: the part of its effect that happened *)

Definition fail_write_at (f : File) (b : bytes) (n : nat) (w : World) : World :=
  (fs_write_at f (take n b) w).2.

Definition fail_write (p : PathBuf) (b : bytes) (n : nat) (w : World) : World :=
  match n with O => w | S n => (fs_write p (take n b) w).2 end.

Definition fail_copy (p q : PathBuf) (n : nat) (w : World) : World :=
  match fs_read p w with Ok b => fail_write q b n w | Err _ => w end.

Definition fail_create_dir_all (p : PathBuf) (n : nat) (w : World) : World :=
  match dirs_error w p with
  | Some _ => w
  | None => set_names w (make_dirs (take n (prefixes p)) (w_names w))
  end.

Definition read_dir_answer (c : Choice) (p : PathBuf) (w : World) :
    io_result (list (io_result PathBuf)) :=
  match fault c with
  | None => result_map (map Ok) (fs_read_dir p w)
  | Some e =>
      match ch_amount c with
      | O => Err e
      | S n => result_map (λ l, map Ok (take n l) ++ [Err e]) (fs_read_dir p w)
      end
  end.

(** How much a read asks for. *)
Definition read_size (amount : nat) (limit : option Z) : nat :=
  match limit with
  | None => S amount
  | Some l => Z.to_nat (Z.min (Z.of_nat (S amount)) l)
  end.

Definition fresh_uuid (w : World) : Uuid * World :=
  (w_uuids w (w_uuid_next w),
   mkWorld (w_names w) (w_inodes w) (w_next w) (w_choices w) (w_uuids w) (S (w_uuid_next w))
     (w_clock w) (w_dir_stat w)).

(** [pure_call]: a call that reads; [effect_call]: a call that changes the
    world, or part of it when it fails. *)
Definition pure_call {A} (f : Choice → World → io_result A) (w : World) : io_result A * World :=
  let '(c, w) := next_choice w in
  match fault c with Some e => (Err e, w) | None => (f c w, w) end.

Definition effect_call {A} (partial : nat → World → World)
    (f : World → io_result A * World) (w : World) : io_result A * World :=
  let '(c, w) := next_choice w in
  match fault c with Some e => (Err e, partial (ch_amount c) w) | None => f w end.

#[export] Instance os_handler : Handler osE World := λ X e,
  match e in osE X return World → X * World with
  | FsMetadata p => pure_call (λ _, fs_metadata p)
  | FsReadDir p => λ w, let '(c, w) := next_choice w in (read_dir_answer c p w, w)
  | FsRemoveFile p => effect_call (λ _ w, w) (fs_remove_file p)
  | FsCreateDirAll p => effect_call (fail_create_dir_all p) (fs_create_dir_all p)
  | FsCreate p => effect_call (λ _ w, w) (fs_create p)
  | FsOpen p => pure_call (λ _, fs_open p)
  | FsWriteAll f b => effect_call (fail_write_at f b) (fs_write_at f b)
  | FsFlush f => pure_call (λ _ _, Ok tt)
  | FsSeek f n => pure_call (λ _ _, fs_seek f n)
  | FsReadChunk f limit =>
      pure_call (λ c, fs_read_at f (read_size (ch_amount c) limit))
  | FsRename p q => effect_call (λ _ w, w) (fs_rename p q)
  | FsHardLink p q => effect_call (λ _ w, w) (fs_hard_link p q)
  | FsCopy p q => effect_call (fail_copy p q) (fs_copy p q)
  | FsRead p => pure_call (λ _, fs_read p)
  | FsWrite p b => effect_call (fail_write p b) (fs_write p b)
  | UuidNewV4 => fresh_uuid
  | NowUtc => λ w, (datetime_from (w_clock w), w)
  | SystemTimeNow => λ w, (w_clock w, w)
  end.
End Os.
