(* ===== verification/Local.v ===== *)
(** * The local file system provider (src/src/local.rs): the code

    [LocalStorageBackend] with its implementations of [BlobStore],
    [ObjectStorage] and [StreamingObjectStore], [LocalMultipartWriter], and the
    helper functions, as programs over the file system calls of Fs.v. *)
From S2P Require Import Prelude Text Errors Providers Externals Paths Keys Effects Streams BlobStore Objects Fs.
From Stdlib Require Import Ascii.

Definition INTERNAL_STORAGE_DIR : string := ".graphql-orm-storage".
Definition OBJECT_METADATA_DIR : string := "object-metadata".

(** The order of [PathBuf]: component by component. *)
Fixpoint path_leb (p q : PathBuf) : bool :=
  match p, q with
  | [], _ => true
  | _ :: _, [] => false
  | x :: p', y :: q' => if String.eqb x y then path_leb p' q' else str_leb x y
  end.

Definition path_le (p q : PathBuf) : Prop := path_leb p q = true.

#[export] Instance path_le_dec : RelDecision path_le.
Proof. intros p q. unfold path_le. apply _. Defined.

Record LocalStorageBackend : Type := mkLocal { root : PathBuf }.

(** ** Paths *)

Definition path_for (self : LocalStorageBackend) (key : string) : storage_result PathBuf :=
  match validate_blob_key key with
  | Ok _ => Ok (path_join (root self) key)
  | Err e => Err e
  end.

Definition object_path_for (self : LocalStorageBackend) (bucket key : string) :
    storage_result PathBuf :=
  match validate_object_bucket bucket with
  | Err e => Err e
  | Ok _ =>
      match validate_blob_key key with
      | Err e => Err e
      | Ok _ => Ok (path_join (path_join (root self) bucket) key)
      end
  end.

Definition object_metadata_path_for (self : LocalStorageBackend) (bucket key : string) :
    storage_result PathBuf :=
  match validate_object_bucket bucket with
  | Err e => Err e
  | Ok _ =>
      match validate_blob_key key with
      | Err e => Err e
      | Ok _ =>
          let path := path_join (path_join (path_join (path_join (root self)
                        INTERNAL_STORAGE_DIR) OBJECT_METADATA_DIR) bucket) key in
          match path_file_name path with
          | None => Err (InvalidStorageKey key)
          | Some file_name => Ok (path_with_file_name path (file_name +:+ ".metadata.json"))
          end
      end
  end.

Definition is_uploading_temp_file (path : PathBuf) : bool :=
  match path_file_name path with
  | Some name => ends_with ".uploading" name
  | None => false
  end.

Definition is_internal_storage_path (root path : PathBuf) : bool :=
  match path_strip_prefix root path with
  | Some (component :: _) => String.eqb component INTERNAL_STORAGE_DIR
  | _ => false
  end.

(** [older_than] and times in nanoseconds. *)
Definition is_older_than (metadata : Metadata) (now older_than : Z) : bool :=
  match md_modified metadata with
  | Some modified => if modified <=? now then older_than <=? now - modified else false
  | None => false
  end.

Definition key_for_path (self : LocalStorageBackend) (path : PathBuf) : option string :=
  (λ relative, replace_char BACKSLASH "/" (path_to_string relative))
    <$> path_strip_prefix (root self) path.

Definition key_for_bucket_path (self : LocalStorageBackend) (bucket : string) (path : PathBuf) :
    option string :=
  (λ relative, replace_char BACKSLASH "/" (path_to_string relative))
    <$> path_strip_prefix (path_join (root self) bucket) path.

Section Code.
Context `{EX : Externals}.

Abbreviation os := (prog osE).

(** ** Helpers *)

Definition create_parent_dir (path : PathBuf) : os (storage_result unit) :=
  match path_parent path with
  | None => Ret (Err (MissingParent path))
  | Some parent =>
      let* r := call (FsCreateDirAll parent) in
      Ret (map_err (storage_io parent) r)
  end.

Definition temp_path_for (path : PathBuf) (key : string) : os (storage_result PathBuf) :=
  match path_file_name path with
  | None => Ret (Err (InvalidStorageKey key))
  | Some file_name =>
      let* u := call UuidNewV4 in
      Ret (Ok (path_with_file_name path
                 (file_name +:+ "." +:+ uuid_to_string u +:+ ".uploading")))
  end.

(** [let _ = tokio::fs::remove_file(path).await]. *)
Definition discard_file (path : PathBuf) : os unit :=
  let* _ := call (FsRemoveFile path) in Ret tt.

Definition write_step (temp_path : PathBuf) (stream : BoxedStorageStream osE)
    '(st, file, hasher, size_bytes) :
    os (bs_state stream * File * Sha256 * Z + storage_result (File * Sha256 * Z)) :=
  let* ' (chunk, st') := bs_next stream st in
  match chunk with
  | None => Break (Ok (file, hasher, size_bytes))
  | Some (Err e) => Break (Err e)
  | Some (Ok chunk) =>
      let size_bytes := u64_saturating_add size_bytes (u64_from_len chunk) in
      let hasher := sha256_update hasher chunk in
      let* r := call (FsWriteAll file chunk) in
      match r with
      | Err source => Break (Err (storage_io temp_path source))
      | Ok file => Continue (st', file, hasher, size_bytes)
      end
  end.

Definition write_stream_to_temp (temp_path : PathBuf) (body : StorageByteStream osE) :
    os (storage_result BlobWriteOutcome) :=
  let* r := call (FsCreate temp_path) in
  let!? file := map_err (storage_io temp_path) r in
  let stream := into_inner body in
  let*? (file, hasher, size_bytes) :=
    loop (write_step temp_path stream) (bs_cur stream, file, sha256_new, 0) in
  let* r := call (FsFlush file) in
  let!? _ := map_err (storage_io temp_path) r in
  Ret (Ok (mkBlobWriteOutcome size_bytes (sha256_finalize_hex hasher))).

(** Sorting the entries of a directory; the first failing entry fails the
    call. *)
Fixpoint collect_entries (path : PathBuf) (entries : list (io_result PathBuf)) :
    storage_result (list PathBuf) :=
  match entries with
  | [] => Ok []
  | Err source :: _ => Err (storage_io path source)
  | Ok p :: entries => let? ps := collect_entries path entries in Ok (p :: ps)
  end.

Definition sorted_child_paths (path : PathBuf) : os (storage_result (list PathBuf)) :=
  let* r := call (FsReadDir path) in
  let!? entries := map_err (storage_io path) r in
  let!? paths := collect_entries path entries in
  Ret (Ok (merge_sort path_le paths)).

(** [ReaderStream::new(file)] or [ReaderStream::new(file.take(limit))], with
    the errors mapped; it ends at the end of the file or after an error. *)
Definition reader_next (path : PathBuf) (st : option (File * option Z)) :
    os (option (storage_result bytes) * option (File * option Z)) :=
  match st with
  | None => Ret (None, None)
  | Some (file, limit) =>
      if decide (limit = Some 0) then Ret (None, None)
      else
        let* r := call (FsReadChunk file limit) in
        match r with
        | Err source => Ret (Some (Err (storage_io path source)), None)
        | Ok ([], _) => Ret (None, None)
        | Ok (b, file) =>
            Ret (Some (Ok b),
                 Some (file, (λ l, l - Z.of_nat (length b)) <$> limit))
        end
  end.

Definition reader_stream (path : PathBuf) (file : File) (limit : option Z) :
    BoxedStorageStream osE :=
  mkBoxedStream _ (Some (file, limit)) (reader_next path) (λ _, Ret tt).

(** ** [impl BlobStore for LocalStorageBackend] *)

Definition put_blob (self : LocalStorageBackend) (key : string)
    (body : StorageByteStream osE) (_options : BlobPutOptions) :
    os (storage_result BlobWriteOutcome) :=
  let!? path := path_for self key in
  let*? _ := create_parent_dir path in
  let*? temp_path := temp_path_for path key in
  let* write_result := write_stream_to_temp temp_path body in
  match write_result with
  | Err err =>
      let* _ := discard_file temp_path in
      Ret (Err err)
  | Ok outcome =>
      let* r := call (FsRename temp_path path) in
      match r with
      | Err source =>
          let* _ := discard_file temp_path in
          Ret (Err (storage_io path source))
      | Ok _ => Ret (Ok outcome)
      end
  end.

Definition put_blob_if_not_exists (self : LocalStorageBackend) (key : string)
    (body : StorageByteStream osE) (_options : BlobPutOptions) :
    os (storage_result (option BlobWriteOutcome)) :=
  let!? path := path_for self key in
  let*? _ := create_parent_dir path in
  let*? temp_path := temp_path_for path key in
  let* write_result := write_stream_to_temp temp_path body in
  match write_result with
  | Err err =>
      let* _ := discard_file temp_path in
      Ret (Err err)
  | Ok outcome =>
      let* r := call (FsHardLink temp_path path) in
      match r with
      | Ok _ =>
          let* _ := discard_file temp_path in
          Ret (Ok (Some outcome))
      | Err err =>
          let* _ := discard_file temp_path in
          if decide (io_kind err = AlreadyExists) then Ret (Ok None)
          else Ret (Err (storage_io path err))
      end
  end.

Definition head_blob (self : LocalStorageBackend) (key : string) :
    os (storage_result (option BlobMetadata)) :=
  let!? path := path_for self key in
  let* r := call (FsMetadata path) in
  match r with
  | Ok metadata =>
      Ret (Ok (Some (mkBlobMetadata key (Some (md_len metadata)) None None
                       (datetime_from <$> md_modified metadata))))
  | Err err =>
      if decide (io_kind err = NotFound) then Ret (Ok None)
      else Ret (Err (storage_io path err))
  end.

(** [File::open], with [NotFound] turned into [MissingBlob]. *)
Definition open_blob (path : PathBuf) (missing : string) : os (storage_result File) :=
  let* r := call (FsOpen path) in
  match r with
  | Ok file => Ret (Ok file)
  | Err err =>
      if decide (io_kind err = NotFound) then Ret (Err (MissingBlob missing))
      else Ret (Err (storage_io path err))
  end.

Definition get_blob (self : LocalStorageBackend) (key : string) :
    os (storage_result (BlobBody osE)) :=
  let!? path := path_for self key in
  let*? file := open_blob path key in
  let*? metadata := head_blob self key in
  Ret (Ok (mkBlobBody key metadata (stream_new (reader_stream path file None)))).

Definition get_blob_range (self : LocalStorageBackend) (key : string) (range : Range) :
    os (storage_result (BlobBody osE)) :=
  if range_end range <? range_start range
  then Ret (Err (PreconditionFailed key "range end is before range start"))
  else
    let!? path := path_for self key in
    let*? file := open_blob path key in
    let* r := call (FsSeek file (range_start range)) in
    let!? file := map_err (storage_io path) r in
    let length := range_end range - range_start range in
    let*? metadata := head_blob self key in
    Ret (Ok (mkBlobBody key metadata
               (with_size_hint (reader_stream path file (Some length)) length))).

Definition blob_exists (self : LocalStorageBackend) (key : string) :
    os (storage_result bool) :=
  let!? path := path_for self key in
  let* r := call (FsMetadata path) in
  match r with
  | Ok metadata => Ret (Ok (md_is_file metadata))
  | Err err =>
      if decide (io_kind err = NotFound) then Ret (Ok false)
      else Ret (Err (storage_io path err))
  end.

(** [tokio::fs::metadata] in the directory walks: a missing path is
    skipped. *)
Definition walk_metadata (path : PathBuf) : os (storage_result (option Metadata)) :=
  let* r := call (FsMetadata path) in
  match r with
  | Ok metadata => Ret (Ok (Some metadata))
  | Err err =>
      if decide (io_kind err = NotFound) then Ret (Ok None)
      else Ret (Err (storage_io path err))
  end.

(** The stack of the walks is a list whose head is the top.  One turn of the
    [while] loop of [collect_blob_page]. *)
Definition page_step (self : LocalStorageBackend) (continuation : option string) (limit : Z)
    '(page, stack) : os (list string * list PathBuf + storage_result (list string)) :=
  match stack with
  | [] => Break (Ok page)
  | path :: stack =>
      if Z.of_nat (length page) =? limit then Break (Ok page)
      else if is_internal_storage_path (root self) path then Continue (page, stack)
      else
        let* r := walk_metadata path in
        match r with
        | Err e => Break (Err e)
        | Ok None => Continue (page, stack)
        | Ok (Some metadata) =>
            if md_is_file metadata then
              if is_uploading_temp_file path then Continue (page, stack)
              else match key_for_path self path with
                   | Some key =>
                       if match continuation with
                          | Some token => str_leb key token
                          | None => false
                          end
                       then Continue (page, stack)
                       else Continue (page ++ [key], stack)
                   | None => Continue (page, stack)
                   end
            else
              let* entries := sorted_child_paths path in
              match entries with
              | Err e => Break (Err e)
              | Ok entries => Continue (page, entries ++ stack)
              end
        end
  end.

(** [Vec::with_capacity(limit)] of 24-byte strings panics beyond
    [isize::MAX] bytes. *)
Definition collect_blob_page (self : LocalStorageBackend) (prefix : string)
    (continuation : option string) (limit : Z) : os (storage_result (list string)) :=
  let!? _ := validate_blob_prefix prefix in
  let start := if str_is_empty prefix then root self else path_join (root self) prefix in
  if isize_MAX <? 24 * limit then Panic "capacity overflow"
  else loop (page_step self continuation limit) ([], [start]).

Definition list_blobs_page (self : LocalStorageBackend) (prefix : string)
    (continuation : option string) (limit : Z) : os (storage_result BlobListPage) :=
  if limit =? 0
  then Ret (Err (PreconditionFailed prefix "list limit must be greater than zero"))
  else
    let*? page_keys := collect_blob_page self prefix continuation (usize_add limit 1) in
    if limit <? Z.of_nat (length page_keys)
    then let page_keys := take (Z.to_nat limit) page_keys in
         Ret (Ok (mkBlobListPage page_keys (last page_keys)))
    else Ret (Ok (mkBlobListPage page_keys None)).

Definition copy_blob (self : LocalStorageBackend) (from to : string) :
    os (storage_result unit) :=
  let!? from_path := path_for self from in
  let!? to_path := path_for self to in
  let*? _ := create_parent_dir to_path in
  let*? temp_path := temp_path_for to_path to in
  let* r := call (FsCopy from_path temp_path) in
  match r with
  | Err err =>
      let* _ := discard_file temp_path in
      if decide (io_kind err = NotFound) then Ret (Err (MissingBlob from))
      else Ret (Err (storage_io from_path err))
  | Ok _ =>
      let* r := call (FsRename temp_path to_path) in
      match r with
      | Err source =>
          let* _ := discard_file temp_path in
          Ret (Err (storage_io to_path source))
      | Ok _ => Ret (Ok tt)
      end
  end.

(** [remove_file] where a missing file is success. *)
Definition remove_if_present (path : PathBuf) : os (storage_result unit) :=
  let* r := call (FsRemoveFile path) in
  match r with
  | Ok _ => Ret (Ok tt)
  | Err err =>
      if decide (io_kind err = NotFound) then Ret (Ok tt)
      else Ret (Err (storage_io path err))
  end.

Definition delete_blob (self : LocalStorageBackend) (key : string) :
    os (storage_result unit) :=
  let!? path := path_for self key in
  remove_if_present path.

#[export] Instance local_blob_store (self : LocalStorageBackend) : BlobStore osE := {|
  bs_backend := Providers.Local;
  BlobStore.put_blob := put_blob self;
  BlobStore.put_blob_if_not_exists := put_blob_if_not_exists self;
  BlobStore.get_blob := get_blob self;
  BlobStore.get_blob_range := get_blob_range self;
  BlobStore.blob_exists := blob_exists self;
  BlobStore.head_blob := head_blob self;
  BlobStore.list_blobs_page := list_blobs_page self;
  BlobStore.list_blobs := default_list_blobs (list_blobs_page self);
  BlobStore.copy_blob := copy_blob self;
  BlobStore.delete_blob := delete_blob self;
|}.

(** ** Sweeping stale temporary files *)

Definition sweep_step (now older_than : Z) '(removed, stack) :
    os (Z * list PathBuf + storage_result Z) :=
  match stack with
  | [] => Break (Ok removed)
  | path :: stack =>
      let* r := walk_metadata path in
      match r with
      | Err e => Break (Err e)
      | Ok None => Continue (removed, stack)
      | Ok (Some metadata) =>
          if md_is_file metadata then
            if is_uploading_temp_file path && is_older_than metadata now older_than then
              let* r := call (FsRemoveFile path) in
              match r with
              | Err source => Break (Err (storage_io path source))
              | Ok _ => Continue (removed + 1, stack)
              end
            else Continue (removed, stack)
          else
            let* entries := sorted_child_paths path in
            match entries with
            | Err e => Break (Err e)
            | Ok entries => Continue (removed, rev entries ++ stack)
            end
      end
  end.

Definition sweep_temp_files (self : LocalStorageBackend) (older_than : Z) :
    os (storage_result Z) :=
  let* now := call SystemTimeNow in
  loop (sweep_step now older_than) (0, [root self]).
End Code.
