(* ===== verification/LocalObjects.v ===== *)
(** * The local provider's object API (src/src/local.rs): the code

    [impl ObjectStorage] and [impl StreamingObjectStore] of
    [LocalStorageBackend] and [LocalMultipartWriter], as programs over the
    file system calls of Fs.v. *)
From S2P Require Import Prelude Text Errors Providers Externals Paths Keys Effects Streams BlobStore Objects Service Fs Local.
From Stdlib Require Import Ascii.

#[export] Instance os_service_calls `{EX : Externals} : ServiceCalls osE := {|
  new_v4 := UuidNewV4;
  now_utc := NowUtc;
|}.

(** ** [impl ObjectStorage for LocalStorageBackend] *)

Section ObjectStorageImpl.
Context `{EX : Externals} (self : LocalStorageBackend).

Definition put_object (object : StoredObject) (b : bytes) :
    prog osE (storage_result StoredObject) :=
  let*? _ := put_blob self (so_storage_key object) (from_bytes b) default_put_options in
  Ret (Ok object).

Definition get_object (object : StoredObject) : prog osE (storage_result StorageObjectBody) :=
  let*? body := get_blob self (so_storage_key object) in
  let*? b := collect_storage_stream (bb_body body) in
  Ret (Ok (mkStorageObjectBody object b)).

Definition delete_stored_object (object : StoredObject) : prog osE (storage_result unit) :=
  delete_blob self (so_storage_key object).

#[export] Instance local_object_storage : ObjectStorage osE := {|
  object_blob_store := local_blob_store self;
  Service.put_object := put_object;
  Service.get_object := get_object;
  Service.delete_object := delete_stored_object;
|}.
End ObjectStorageImpl.

Section Code.
Context `{EX : Externals} `{SJ : !SerdeJson}.

(** ** [LocalMultipartWriter] *)

Record LocalMultipartWriter : Type := mkLocalMultipartWriter {
  lmw_bucket : string;
  lmw_key : string;
  lmw_content_type : option string;
  lmw_metadata : ObjectMetadata;
  lmw_object_path : PathBuf;
  lmw_temp_path : PathBuf;
  lmw_metadata_path : PathBuf;
  lmw_metadata_temp_path : PathBuf;
  lmw_file : File;
  lmw_hasher : Sha256;
  lmw_size_bytes : Z;
}.

Definition lmw_advance (self : LocalMultipartWriter) (file : File) (hasher : Sha256)
    (size_bytes : Z) : LocalMultipartWriter :=
  mkLocalMultipartWriter (lmw_bucket self) (lmw_key self) (lmw_content_type self)
    (lmw_metadata self) (lmw_object_path self) (lmw_temp_path self) (lmw_metadata_path self)
    (lmw_metadata_temp_path self) file hasher size_bytes.

Definition write_chunk (self : LocalMultipartWriter) (b : bytes) :
    prog osE (storage_result unit * LocalMultipartWriter) :=
  let size_bytes := u64_saturating_add (lmw_size_bytes self) (u64_from_len b) in
  let hasher := sha256_update (lmw_hasher self) b in
  let* r := call (FsWriteAll (lmw_file self) b) in
  match r with
  | Ok file => Ret (Ok tt, lmw_advance self file hasher size_bytes)
  | Err source => Ret (Err (storage_io (lmw_temp_path self) source),
                       lmw_advance self (lmw_file self) hasher size_bytes)
  end.

Definition write_object_metadata (path : PathBuf) (object : ObjectInfo) :
    prog osE (storage_result unit) :=
  match json_to_vec object with
  | Err source =>
      Ret (Err (Provider (backend_as_str Providers.Local)
                  ("local object metadata could not be serialized: " +:+ source) false))
  | Ok b =>
      let* r := call (FsWrite path b) in
      Ret (map_err (storage_io path) r)
  end.

Definition complete (self : LocalMultipartWriter) : prog osE (storage_result ObjectInfo) :=
  let* r := call (FsFlush (lmw_file self)) in
  let!? _ := map_err (storage_io (lmw_temp_path self)) r in
  let sha256_hex := sha256_finalize_hex (lmw_hasher self) in
  let* last_modified := call NowUtc in
  let object := mkObjectInfo (lmw_bucket self) (lmw_key self) (lmw_content_type self)
    (lmw_metadata self) (lmw_size_bytes self) sha256_hex (Some sha256_hex) last_modified in
  let*? _ := write_object_metadata (lmw_metadata_temp_path self) object in
  let* r := call (FsRename (lmw_temp_path self) (lmw_object_path self)) in
  match r with
  | Err source =>
      let* _ := discard_file (lmw_temp_path self) in
      let* _ := discard_file (lmw_metadata_temp_path self) in
      Ret (Err (storage_io (lmw_object_path self) source))
  | Ok _ =>
      let* r := call (FsRename (lmw_metadata_temp_path self) (lmw_metadata_path self)) in
      match r with
      | Err source =>
          let* _ := discard_file (lmw_metadata_temp_path self) in
          Ret (Err (storage_io (lmw_metadata_path self) source))
      | Ok _ => Ret (Ok object)
      end
  end.

Definition removed_or_missing (path : PathBuf) (r : io_result unit) : storage_result unit :=
  match r with
  | Ok _ => Ok tt
  | Err err => if decide (io_kind err = NotFound) then Ok tt else Err (storage_io path err)
  end.

Definition abort (self : LocalMultipartWriter) : prog osE (storage_result unit) :=
  let* temp_result := call (FsRemoveFile (lmw_temp_path self)) in
  let* metadata_result := call (FsRemoveFile (lmw_metadata_temp_path self)) in
  let!? _ := removed_or_missing (lmw_temp_path self) temp_result in
  Ret (removed_or_missing (lmw_metadata_temp_path self) metadata_result).

Definition local_writer (w : LocalMultipartWriter) : MultipartWriter osE :=
  mkMultipartWriter LocalMultipartWriter w write_chunk complete abort.

(** ** [impl StreamingObjectStore for LocalStorageBackend] *)

Definition create_multipart_writer (self : LocalStorageBackend) (bucket key : string)
    (content_type : option string) (metadata : ObjectMetadata) :
    prog osE (storage_result LocalMultipartWriter) :=
  let!? object_path := object_path_for self bucket key in
  let!? metadata_path := object_metadata_path_for self bucket key in
  let*? _ := create_parent_dir object_path in
  let*? _ := create_parent_dir metadata_path in
  let*? temp_path := temp_path_for object_path key in
  let*? metadata_temp_path := temp_path_for metadata_path key in
  let* r := call (FsCreate temp_path) in
  let!? file := map_err (storage_io temp_path) r in
  Ret (Ok (mkLocalMultipartWriter bucket key content_type metadata object_path temp_path
             metadata_path metadata_temp_path file sha256_new 0)).

Definition create_multipart_object (self : LocalStorageBackend) (bucket key : string)
    (content_type : option string) (metadata : ObjectMetadata) :
    prog osE (storage_result (MultipartWriter osE)) :=
  let* r := create_multipart_writer self bucket key content_type metadata in
  Ret (result_map local_writer r).

Definition object_stream_step (stream : BoxedStorageStream osE) '(st, writer) :
    prog osE (bs_state stream * LocalMultipartWriter + storage_result ObjectInfo) :=
  let* ' (chunk, st') := bs_next stream st in
  match chunk with
  | None =>
      let* r := complete writer in
      Break r
  | Some (Ok b) =>
      let* ' (r, writer) := write_chunk writer b in
      match r with
      | Ok _ => Continue (st', writer)
      | Err err =>
          let* _ := abort writer in
          Break (Err err)
      end
  | Some (Err err) =>
      let* _ := abort writer in
      Break (Err err)
  end.

Definition put_object_stream (self : LocalStorageBackend) (bucket key : string)
    (content_type : option string) (metadata : ObjectMetadata)
    (stream : StorageByteStream osE) : prog osE (storage_result ObjectInfo) :=
  let*? writer := create_multipart_writer self bucket key content_type metadata in
  let stream := into_inner stream in
  loop (object_stream_step stream) (bs_cur stream, writer).

Definition get_object_metadata (self : LocalStorageBackend) (bucket key : string) :
    prog osE (storage_result ObjectInfo) :=
  let!? metadata_path := object_metadata_path_for self bucket key in
  let* r := call (FsRead metadata_path) in
  match r with
  | Err err =>
      if decide (io_kind err = NotFound)
      then Ret (Err (MissingBlob (bucket +:+ "/" +:+ key)))
      else Ret (Err (storage_io metadata_path err))
  | Ok b =>
      Ret (map_err (λ source, Provider (backend_as_str Providers.Local)
             ("local object metadata is invalid: " +:+ source) false) (json_from_slice b))
  end.

Definition get_object_range (self : LocalStorageBackend) (bucket key : string) (range : Range) :
    prog osE (storage_result (ObjectRangeBody osE)) :=
  if range_end range <? range_start range
  then Ret (Err (PreconditionFailed (bucket +:+ "/" +:+ key)
                   "range end is before range start"))
  else
    let*? object := get_object_metadata self bucket key in
    if oi_size_bytes object <? range_start range
    then Ret (Err (PreconditionFailed (bucket +:+ "/" +:+ key)
                     "range start is beyond object size"))
    else
      let end_ := Z.min (range_end range) (oi_size_bytes object) in
      let length := u64_saturating_sub end_ (range_start range) in
      let!? object_path := object_path_for self bucket key in
      let*? file := open_blob object_path (bucket +:+ "/" +:+ key) in
      let* r := call (FsSeek file (range_start range)) in
      let!? file := map_err (storage_io object_path) r in
      Ret (Ok (mkObjectRangeBody object
                 (mkObjectContentRange (range_start range) end_ (oi_size_bytes object))
                 length
                 (with_size_hint (reader_stream object_path file (Some length)) length))).

Definition objects_step (self : LocalStorageBackend) (bucket prefix : string)
    '(objects, stack) :
    prog osE (list ObjectInfo * list PathBuf + storage_result (list ObjectInfo)) :=
  match stack with
  | [] => Break (Ok objects)
  | path :: stack =>
      let* r := walk_metadata path in
      match r with
      | Err e => Break (Err e)
      | Ok None => Continue (objects, stack)
      | Ok (Some metadata) =>
          if md_is_file metadata then
            if is_uploading_temp_file path then Continue (objects, stack)
            else match key_for_bucket_path self bucket path with
                 | None => Continue (objects, stack)
                 | Some key =>
                     if negb (starts_with prefix key) then Continue (objects, stack)
                     else
                       let* r := get_object_metadata self bucket key in
                       match r with
                       | Ok info => Continue (objects ++ [info], stack)
                       | Err _ => Continue (objects, stack)
                       end
                 end
          else
            let* entries := sorted_child_paths path in
            match entries with
            | Err e => Break (Err e)
            | Ok entries => Continue (objects, entries ++ stack)
            end
      end
  end.

Definition object_key_le (left right : ObjectInfo) : Prop :=
  str_leb (oi_key left) (oi_key right) = true.

#[export] Instance object_key_le_dec : RelDecision object_key_le.
Proof. intros l r. unfold object_key_le. apply _. Defined.

(** [sort_by] is stable; [merge_sort] is too. *)
Definition list_objects (self : LocalStorageBackend) (bucket prefix : string) :
    prog osE (storage_result (list ObjectInfo)) :=
  let!? _ := validate_object_bucket bucket in
  let!? _ := validate_blob_prefix prefix in
  let start := if str_is_empty prefix then path_join (root self) bucket
               else path_join (path_join (root self) bucket) prefix in
  let*? objects := loop (objects_step self bucket prefix) ([], [start]) in
  Ret (Ok (merge_sort object_key_le objects)).

Definition delete_object (self : LocalStorageBackend) (bucket key : string) :
    prog osE (storage_result unit) :=
  let!? object_path := object_path_for self bucket key in
  let!? metadata_path := object_metadata_path_for self bucket key in
  let*? _ := remove_if_present object_path in
  remove_if_present metadata_path.

#[export] Instance local_streaming_store (self : LocalStorageBackend) :
    StreamingObjectStore osE := {|
  Objects.put_object_stream := put_object_stream self;
  Objects.create_multipart_object := create_multipart_object self;
  Objects.get_object_range := get_object_range self;
  Objects.get_object_metadata := get_object_metadata self;
  Objects.list_objects := list_objects self;
  Objects.delete_object := delete_object self;
|}.
End Code.
