(* ===== verification/FsFacts.v ===== *)
(** * The file system: invariants and frame lemmas

    [wf] is the shape every call keeps, failing or not.  [grows P w w'] says
    that going from [w] to [w'] only names in [P] changed their file, that no
    existing inode was touched and that directories were at most added; it is
    the frame condition of all operations of the local provider. *)
From S2P Require Import Prelude Text Errors Externals Paths Effects Fs.
Section Facts.
Context `{EX : Externals}.

(** The inode and the content of the file at a path. *)
Definition file_at (w : World) (p : PathBuf) : option nat :=
  match w_names w !! p with Some (FileEntry i) => Some i | _ => None end.

Definition is_dir (w : World) (p : PathBuf) : Prop := entry_at w p = Some DirEntry.

Definition inode_data (w : World) (i : nat) : option bytes := i_data <$> w_inodes w !! i.

Definition content (w : World) (p : PathBuf) : option bytes := file_at w p ≫= inode_data w.

Record wf (w : World) : Prop := mkWf {
  wf_root : w_names w !! [] = None;
  wf_parents : ∀ p e, w_names w !! p = Some e → is_dir w (removelast p);
  wf_links : ∀ p i, w_names w !! p = Some (FileEntry i) → is_Some (w_inodes w !! i);
  wf_inodes : ∀ i, is_Some (w_inodes w !! i) → (i < w_next w)%nat;
}.

(** The worlds differ in the clock and the choices at most. *)
Record same_fs (w w' : World) : Prop := mkSameFs {
  sf_names : w_names w' = w_names w;
  sf_inodes : w_inodes w' = w_inodes w;
  sf_next : w_next w' = w_next w;
  sf_uuids : w_uuids w' = w_uuids w;
  sf_uuid_next : w_uuid_next w' = w_uuid_next w;
}.

Definition no_faults (w : World) : Prop := Forall (λ c, fault c = None) (w_choices w).

Lemma fault_kind c e : fault c = Some e → state_kind (io_kind e) = false.
Proof.
  unfold fault. destruct (ch_fault c) as [e'|]; [|done].
  destruct (state_kind (io_kind e')) eqn:E; [done|]. by intros [= ->].
Qed.

Lemma next_choice_spec w :
  same_fs w (next_choice w).2 ∧
  (no_faults w → fault (next_choice w).1 = None ∧ no_faults (next_choice w).2).
Proof.
  unfold next_choice, no_faults. destruct (w_choices w) as [|c cs]; simpl; split.
  - done.
  - done.
  - done.
  - by intros [??]%Forall_cons.
Qed.

(** ** Directories *)

Lemma entry_at_ne w p : p ≠ [] → entry_at w p = w_names w !! p.
Proof. by destruct p. Qed.

Lemma entry_at_file w p i : wf w → entry_at w p = Some (FileEntry i) ↔ file_at w p = Some i.
Proof.
  intros Hw. unfold file_at. destruct p as [|x p]; simpl.
  - rewrite (wf_root w Hw). done.
  - destruct (w_names w !! (x :: p)) as [[|j]|]; split; intros; simplify_eq; done.
Qed.

Lemma file_not_nil w p i : wf w → file_at w p = Some i → p ≠ [].
Proof. intros Hw Hf ->. unfold file_at in Hf. by rewrite (wf_root w Hw) in Hf. Qed.

Lemma parent_is_dir_true w p : parent_is_dir w p = true ↔ p ≠ [] ∧ is_dir w (removelast p).
Proof.
  unfold parent_is_dir, is_dir, path_parent. destruct p as [|x p]; [naive_solver|].
  destruct (entry_at w (removelast (x :: p))) as [[|i]|]; naive_solver.
Qed.

Lemma make_dirs_lookup ps m q :
  make_dirs ps m !! q =
  match m !! q with Some e => Some e | None => if decide (q ∈ ps) then Some DirEntry else None end.
Proof.
  unfold make_dirs. revert m. induction ps as [|p ps IH]; intros m; cbn [foldl].
  - destruct (m !! q); [done|]. by destruct (decide _) as [?%not_elem_of_nil|].
  - rewrite IH. destruct (m !! p) as [e|] eqn:Ep.
    + destruct (m !! q) eqn:Eq; [done|]. assert (q ≠ p) by naive_solver.
      destruct (decide (q ∈ ps)), (decide (q ∈ p :: ps)) as [Hd|Hd]; try done;
        rewrite elem_of_cons in Hd; naive_solver.
    + destruct (decide (q = p)) as [->|Hq].
      * rewrite lookup_insert_eq, Ep. destruct (decide (p ∈ p :: ps)) as [|Hd]; [done|].
        rewrite elem_of_cons in Hd; naive_solver.
      * rewrite lookup_insert_ne by done. destruct (m !! q); [done|].
        destruct (decide (q ∈ ps)), (decide (q ∈ p :: ps)) as [Hd|Hd]; try done;
          rewrite elem_of_cons in Hd; naive_solver.
Qed.

Lemma elem_of_prefixes p q : q ∈ prefixes p ↔ ∃ k, (1 <= k <= length p)%nat ∧ q = take k p.
Proof.
  unfold prefixes. rewrite list_elem_of_fmap. setoid_rewrite elem_of_seq. split.
  - intros (k & -> & ?). exists k. split; [lia|done].
  - intros (k & ? & ->). exists k. split; [done|lia].
Qed.

Lemma elem_of_take_prefixes n p q :
  q ∈ take n (prefixes p) ↔ ∃ k, (1 <= k <= length p)%nat ∧ (k <= n)%nat ∧ q = take k p.
Proof.
  unfold prefixes. rewrite <- fmap_take, take_seq, list_elem_of_fmap. setoid_rewrite elem_of_seq.
  split.
  - intros (k & -> & ?). exists k. split_and!; [lia..|done].
  - intros (k & ? & ? & ->). exists k. split; [done|lia].
Qed.

Lemma removelast_take {A} k (p : list A) :
  (1 <= k <= length p)%nat → removelast (take k p) = take (pred k) p.
Proof.
  intros Hk. rewrite removelast_firstn_len, length_take. 
  rewrite take_take. f_equal. lia.
Qed.

Lemma take_not_nil {A} k (p : list A) : (1 <= k <= length p)%nat → take k p ≠ [].
Proof. intros Hk E. apply (f_equal length) in E. rewrite length_take in E. simpl in E. lia. Qed.

Lemma dirs_error_None w p :
  wf w → dirs_error w p = None ↔ ∀ q, q ∈ prefixes p → is_file_at (w_names w) q = false.
Proof.
  intros Hw. unfold dirs_error. split.
  - destruct (is_file_at (w_names w) p); [done|].
    destruct (existsb _ _) eqn:E; [done|]. intros _ q Hq.
    destruct (is_file_at (w_names w) q) eqn:Eq; [|done].
    rewrite <- E. symmetry. apply existsb_exists. exists q. by rewrite <- list_elem_of_In.
  - intros H. destruct (is_file_at (w_names w) p) eqn:Ep.
    + destruct (decide (p = [])) as [->|Hp].
      * unfold is_file_at in Ep. by rewrite (wf_root w Hw) in Ep.
      * rewrite H in Ep; [done|]. apply elem_of_prefixes. exists (length p).
        rewrite take_ge by done. destruct p; simpl; [done|]. split; [lia|done].
    + destruct (existsb _ _) eqn:E; [|done].
      apply existsb_exists in E as (q & Hq%list_elem_of_In & E). by rewrite H in E.
Qed.

(** ** [wf] and the primitive changes of the world *)

Lemma wf_same_fs w w' : same_fs w w' → wf w → wf w'.
Proof.
  intros [Hn Hi Hx _ _] [W1 W2 W3 W4].
  constructor; unfold is_dir, entry_at in *; rewrite ?Hn, ?Hi, ?Hx; eauto.
Qed.

Lemma is_dir_names w w' p :
  (∀ q, w_names w !! q = Some DirEntry → w_names w' !! q = Some DirEntry) →
  is_dir w p → is_dir w' p.
Proof. unfold is_dir. destruct p as [|x p]; [done|]. simpl. auto. Qed.

Lemma wf_make_dirs w p n :
  wf w → dirs_error w p = None →
  wf (set_names w (make_dirs (take n (prefixes p)) (w_names w))).
Proof.
  intros Hw Hd. pose proof (proj1 (dirs_error_None w p Hw) Hd) as Hf.
  assert (D : ∀ q, is_dir w q →
    is_dir (set_names w (make_dirs (take n (prefixes p)) (w_names w))) q).
  { intros q. apply is_dir_names. simpl. intros r Hr. by rewrite make_dirs_lookup, Hr. }
  constructor; simpl.
  - rewrite make_dirs_lookup, (wf_root w Hw). destruct (decide _) as [Hq|]; [|done].
    apply elem_of_take_prefixes in Hq as (k & Hk & _ & E). symmetry in E.
    by apply take_not_nil in E.
  - intros q e. rewrite make_dirs_lookup. destruct (w_names w !! q) as [e'|] eqn:Eq.
    { intros _. apply D. by eapply wf_parents. }
    destruct (decide _) as [Hq|]; [|done]. intros _.
    apply elem_of_take_prefixes in Hq as (k & Hk & Hn & ->).
    rewrite removelast_take by done. destruct k as [|k]; [lia|]. cbn [pred].
    destruct k as [|k]; [done|]. unfold is_dir.
    rewrite entry_at_ne by (apply take_not_nil; lia). simpl. rewrite make_dirs_lookup.
    specialize (Hf (take (S k) p)). unfold is_file_at in Hf.
    destruct (w_names w !! take (S k) p) as [[|j]|] eqn:Ek; [done| |].
    + discriminate Hf. apply elem_of_prefixes. exists (S k). split; [lia|done].
    + rewrite decide_True; [done|]. apply elem_of_take_prefixes.
      exists (S k). split_and!; [lia..|done].
  - intros q i. rewrite make_dirs_lookup. destruct (w_names w !! q) as [e'|] eqn:Eq.
    + intros [= ->]. by eapply wf_links.
    + by destruct (decide _).
  - apply (wf_inodes w Hw).
Qed.

Lemma wf_unlink w p i :
  wf w → w_names w !! p = Some (FileEntry i) → wf (set_names w (delete p (w_names w))).
Proof.
  intros Hw Hp. constructor; simpl.
  - rewrite lookup_delete_ne; [apply (wf_root w Hw)|].
    intros ->. by rewrite (wf_root w Hw) in Hp.
  - intros q e [Hq He]%lookup_delete_Some. pose proof (wf_parents w Hw q e He) as Hd.
    revert Hd. unfold is_dir. destruct (removelast q) as [|x r] eqn:Er; [done|]. simpl.
    intros Hd. rewrite lookup_delete_ne; [done|]. naive_solver.
  - intros q j [_ Hj]%lookup_delete_Some. by eapply wf_links.
  - apply (wf_inodes w Hw).
Qed.

Lemma wf_link w p i :
  wf w → is_Some (w_inodes w !! i) → p ≠ [] → is_dir w (removelast p) →
  w_names w !! p ≠ Some DirEntry → wf (set_names w (<[p:=FileEntry i]> (w_names w))).
Proof.
  intros Hw Hi Hp Hd Hn. constructor; simpl.
  - rewrite lookup_insert_ne by done. apply (wf_root w Hw).
  - intros q e Hq. assert (Hd' : is_dir w (removelast q)).
    { apply lookup_insert_Some in Hq as [[-> _]|[_ Hq]]; [done|]. by eapply wf_parents. }
    revert Hd'. unfold is_dir. destruct (removelast q) as [|x r]; [done|]. simpl.
    intros Hd'. rewrite lookup_insert_ne; [done|]. naive_solver.
  - intros q j [[_ [= <-]]|[_ Hj]]%lookup_insert_Some; [done|]. by eapply wf_links.
  - apply (wf_inodes w Hw).
Qed.

Lemma wf_write w i nd :
  wf w → is_Some (w_inodes w !! i) → wf (set_inodes w (<[i:=nd]> (w_inodes w))).
Proof.
  intros Hw Hi. constructor; simpl.
  - apply (wf_root w Hw).
  - apply (wf_parents w Hw).
  - intros p j Hp. apply lookup_insert_is_Some'. right. by eapply wf_links.
  - intros j [<-|Hj]%lookup_insert_is_Some'; by apply (wf_inodes w Hw).
Qed.

(** A new inode with a name. *)
Definition alloc (w : World) (p : PathBuf) (nd : Inode) : World :=
  set_next (set_inodes (set_names w (<[p:=FileEntry (w_next w)]> (w_names w)))
              (<[w_next w:=nd]> (w_inodes w))) (S (w_next w)).

Lemma inode_fresh w i : wf w → is_Some (w_inodes w !! i) → i ≠ w_next w.
Proof. intros Hw Hi. pose proof (wf_inodes w Hw i Hi). lia. Qed.

Lemma wf_alloc w p nd :
  wf w → p ≠ [] → is_dir w (removelast p) → w_names w !! p = None → wf (alloc w p nd).
Proof.
  intros Hw Hp Hd Hn. constructor; simpl.
  - rewrite lookup_insert_ne by done. apply (wf_root w Hw).
  - intros q e Hq. assert (Hd' : is_dir w (removelast q)).
    { apply lookup_insert_Some in Hq as [[-> _]|[_ Hq]]; [done|]. by eapply wf_parents. }
    revert Hd'. unfold is_dir. destruct (removelast q) as [|x r]; [done|]. simpl.
    intros Hd'. rewrite lookup_insert_ne; [done|]. naive_solver.
  - intros q j Hq. apply lookup_insert_is_Some'.
    apply lookup_insert_Some in Hq as [[_ [= <-]]|[_ Hj]]; [by left|]. right.
    by eapply wf_links.
  - intros j [<-|Hj]%lookup_insert_is_Some'; [lia|]. pose proof (wf_inodes w Hw j Hj). lia.
Qed.

(** ** Every call keeps [wf] *)

Lemma entry_file_name w p i :
  wf w → entry_at w p = Some (FileEntry i) → w_names w !! p = Some (FileEntry i) ∧ p ≠ [].
Proof. intros Hw. destruct p as [|x p]; [done|]. by intros. Qed.

Lemma entry_none_name w p : entry_at w p = None → w_names w !! p = None ∧ p ≠ [].
Proof. by destruct p. Qed.

Lemma wf_remove_file w p : wf w → wf (fs_remove_file p w).2.
Proof.
  intros Hw. unfold fs_remove_file. destruct (entry_at w p) as [[|i]|] eqn:E; [done| |done].
  apply entry_file_name in E as [E _]; [|done]. by eapply wf_unlink.
Qed.

Lemma wf_create w p : wf w → wf (fs_create p w).2.
Proof.
  intros Hw. unfold fs_create. destruct (entry_at w p) as [[|i]|] eqn:E; [done| |].
  - apply entry_file_name in E as [E _]; [|done]. simpl. apply wf_write; [done|].
    by eapply wf_links.
  - destruct (parent_is_dir w p) eqn:Ep; [|done]. apply entry_none_name in E as [E _].
    apply parent_is_dir_true in Ep as [??]. by apply (wf_alloc w p).
Qed.

Lemma wf_write_at w f b : wf w → wf (fs_write_at f b w).2.
Proof.
  intros Hw. unfold fs_write_at. destruct (f_entry f) as [|i]; [done|].
  destruct (w_inodes w !! i) eqn:E; [|done]. by apply wf_write.
Qed.

Lemma wf_fs_write w p b : wf w → wf (fs_write p b w).2.
Proof.
  intros Hw. unfold fs_write. pose proof (wf_create w p Hw) as Hc.
  destruct (fs_create p w) as [[f|e] w']; [|done]. simpl in Hc.
  pose proof (wf_write_at w' f b Hc). by destruct (fs_write_at f b w') as [r w''].
Qed.

Lemma wf_rename w p q : wf w → wf (fs_rename p q w).2.
Proof.
  intros Hw. unfold fs_rename. destruct (entry_at w p) as [[|i]|] eqn:E; [done| |done].
  apply entry_file_name in E as [E Hp]; [|done]. pose proof (wf_unlink w p i Hw E) as Hu.
  assert (L : q ≠ [] → is_dir w (removelast q) → w_names w !! q ≠ Some DirEntry →
    wf (set_names w (<[q:=FileEntry i]> (delete p (w_names w))))).
  { intros Hq Hd Hn.
    pose proof (wf_link (set_names w (delete p (w_names w))) q i Hu) as L.
    unfold set_names in L. simpl in L. apply L; try done.
    - by eapply wf_links.
    - revert Hd. unfold is_dir. destruct (removelast q) as [|x r]; [done|]. simpl.
      intros Hd. rewrite lookup_delete_ne; [done|]. naive_solver.
    - rewrite lookup_delete_Some. naive_solver. }
  destruct (entry_at w q) as [[|j]|] eqn:Eq; [done| |].
  - destruct (Nat.eqb i j); [done|]. apply entry_file_name in Eq as [Eq Hq]; [|done].
    apply L; [done|by eapply wf_parents|congruence].
  - destruct (parent_is_dir w q) eqn:Ep; [|done]. apply parent_is_dir_true in Ep as [??].
    apply entry_none_name in Eq as [Eq _]. apply L; [done|done|congruence].
Qed.

Lemma wf_hard_link w p q : wf w → wf (fs_hard_link p q w).2.
Proof.
  intros Hw. unfold fs_hard_link. destruct (entry_at w p) as [e|] eqn:E; [|done].
  destruct (entry_at w q) as [|] eqn:Eq; [done|].
  destruct (parent_is_dir w q) eqn:Ep; [|done]. destruct e as [|i]; [done|].
  apply parent_is_dir_true in Ep as [??]. apply entry_none_name in Eq as [Eq _].
  apply entry_file_name in E as [E _]; [|done].
  apply wf_link; try done; [by eapply wf_links|congruence].
Qed.

Lemma wf_fail_write w p b n : wf w → wf (fail_write p b n w).
Proof. intros Hw. destruct n; simpl; [done|]. by apply wf_fs_write. Qed.

Lemma wf_fs_copy w p q : wf w → wf (fs_copy p q w).2.
Proof.
  intros Hw. unfold fs_copy. destruct (entry_at w p) as [[|i]|]; try done.
  destruct (fs_read p w); [|done]. by apply wf_fs_write.
Qed.

Lemma wf_fail_copy w p q n : wf w → wf (fail_copy p q n w).
Proof.
  intros Hw. unfold fail_copy. destruct (fs_read p w); [|done]. by apply wf_fail_write.
Qed.

Lemma prefixes_length p : length (prefixes p) = length p.
Proof. unfold prefixes. by rewrite length_map, length_seq. Qed.

Lemma wf_create_dir_all w p : wf w → wf (fs_create_dir_all p w).2.
Proof.
  intros Hw. unfold fs_create_dir_all. destruct (dirs_error w p) eqn:E; [done|]. simpl.
  pose proof (wf_make_dirs w p (length (prefixes p)) Hw E) as H.
  by rewrite take_ge in H by done.
Qed.

Lemma wf_fail_create_dir_all w p n : wf w → wf (fail_create_dir_all p n w).
Proof.
  intros Hw. unfold fail_create_dir_all. destruct (dirs_error w p) eqn:E; [done|].
  by apply wf_make_dirs.
Qed.

Lemma pure_call_world {A} (f : Choice → World → io_result A) w :
  (pure_call f w).2 = (next_choice w).2.
Proof. unfold pure_call. destruct (next_choice w) as [c w']. by destruct (fault c). Qed.

Lemma wf_effect_call {A} partial (f : World → io_result A * World) w :
  (∀ w n, wf w → wf (partial n w)) → (∀ w, wf w → wf (f w).2) →
  wf w → wf (effect_call partial f w).2.
Proof.
  intros Hp Hf Hw. unfold effect_call. pose proof (proj1 (next_choice_spec w)) as Hs.
  destruct (next_choice w) as [c w']. simpl in Hs.
  destruct (fault c); simpl; [apply Hp|apply Hf]; by eapply wf_same_fs.
Qed.

Lemma wf_handle X (e : osE X) w : wf w → wf (handle e w).2.
Proof.
  intros Hw. unfold handle. destruct e; unfold os_handler;
    try (rewrite pure_call_world; eapply wf_same_fs; [apply next_choice_spec|done]);
    try (apply wf_effect_call; [intros ??|intros ?|done]);
    eauto using wf_remove_file, wf_create, wf_write_at, wf_rename, wf_hard_link, wf_fs_copy,
      wf_fail_copy, wf_fs_write, wf_fail_write, wf_create_dir_all, wf_fail_create_dir_all.
  - pose proof (proj1 (next_choice_spec w)) as Hs. destruct (next_choice w).
    by eapply wf_same_fs.
  - destruct Hw. by constructor.
Qed.

Lemma wf_runs {A} (p : prog osE A) w a w' : runs p w a w' → wf w → wf w'.
Proof. apply runs_invariant. intros X e w1. apply wf_handle. Qed.

(** ** The supply of UUIDs *)

Lemma uuids_create p w : w_uuid_next (fs_create p w).2 = w_uuid_next w.
Proof. unfold fs_create. by repeat case_match. Qed.

Lemma uuids_write_at f b w : w_uuid_next (fs_write_at f b w).2 = w_uuid_next w.
Proof. unfold fs_write_at. by repeat case_match. Qed.

Lemma uuids_write p b w : w_uuid_next (fs_write p b w).2 = w_uuid_next w.
Proof.
  unfold fs_write. pose proof (uuids_create p w). destruct (fs_create p w) as [[f|e] w']; [|done].
  pose proof (uuids_write_at f b w'). destruct (fs_write_at f b w'). simpl in *. congruence.
Qed.

Lemma uuids_fail_write p b n w : w_uuid_next (fail_write p b n w) = w_uuid_next w.
Proof. destruct n; simpl; [done|apply uuids_write]. Qed.

Lemma uuids_effect {A} partial (f : World → io_result A * World) w :
  (∀ w n, w_uuid_next (partial n w) = w_uuid_next w) → (∀ w, w_uuid_next (f w).2 = w_uuid_next w) →
  w_uuid_next (effect_call partial f w).2 = w_uuid_next w.
Proof.
  intros Hp Hf. unfold effect_call. pose proof (sf_uuid_next _ _ (proj1 (next_choice_spec w))) as Hs.
  destruct (next_choice w) as [c w']. simpl in Hs.
  destruct (fault c); simpl; by rewrite ?Hp, ?Hf.
Qed.

(** UUIDs are drawn by [UuidNewV4] only. *)
Lemma uuids_handle X (e : osE X) w : (w_uuid_next w <= w_uuid_next (handle e w).2)%nat.
Proof.
  assert (E : ∀ w', w_uuid_next w' = w_uuid_next w → (w_uuid_next w <= w_uuid_next w')%nat)
    by (intros; lia).
  pose proof (sf_uuid_next _ _ (proj1 (next_choice_spec w))) as Hs.
  unfold handle. destruct e; unfold os_handler; try (rewrite pure_call_world; auto; fail);
    try (apply E, uuids_effect; intros; auto using uuids_create, uuids_write_at, uuids_write,
           uuids_fail_write; fail).
  - destruct (next_choice w). by apply E.
  - apply E, uuids_effect; intros; [done|]. unfold fs_remove_file. by repeat case_match.
  - apply E, uuids_effect; intros; unfold fail_create_dir_all, fs_create_dir_all;
      by repeat case_match.
  - apply E, uuids_effect; intros; unfold fail_write_at; apply uuids_write_at.
  - apply E, uuids_effect; intros; [done|]. unfold fs_rename. by repeat case_match.
  - apply E, uuids_effect; intros; [done|]. unfold fs_hard_link. by repeat case_match.
  - apply E, uuids_effect; intros; unfold fail_copy, fs_copy; repeat case_match;
      auto using uuids_write, uuids_fail_write.
  - simpl. lia.
  - done.
  - done.
Qed.

Lemma uuids_runs {A} (p : prog osE A) w a w' :
  runs p w a w' → (w_uuid_next w <= w_uuid_next w')%nat.
Proof.
  intros Hr. refine (runs_invariant (λ w', w_uuid_next w <= w_uuid_next w')%nat p w a w' _ Hr _); [|done].
  intros X e w1 H. pose proof (uuids_handle X e w1). lia.
Qed.
End Facts.
