(* ===== verification/FsFrame.v ===== *)
(** * The file system: what an operation leaves alone

    The frame relation [grows], total-correctness rules for the calls, and the
    specifications of single calls from which Local operations are put
    together. *)
From S2P Require Import Prelude Text Errors Externals Paths Effects Fs FsFacts.
(** No path. *)
Definition nowhere (p : PathBuf) : Prop := False.

Section Frame.
Context `{EX : Externals}.

(** From [w] to [w'], files changed at [P] only, directories appeared at [D]
    only, at most [u] UUIDs were drawn, and nothing happened to an inode that
    existed: an open handle reads on as before. *)
Record grows (u : nat) (P D : PathBuf → Prop) (w w' : World) : Prop := mkGrows {
  gr_next : (w_next w <= w_next w')%nat;
  gr_inodes : ∀ i, (i < w_next w)%nat → w_inodes w' !! i = w_inodes w !! i;
  gr_files : ∀ p, ¬ P p → file_at w' p = file_at w p;
  gr_dirs : ∀ p, is_dir w p → is_dir w' p;
  gr_newdirs : ∀ p, is_dir w' p → is_dir w p ∨ D p;
  gr_uuids : w_uuids w' = w_uuids w;
  gr_uuid_next : (w_uuid_next w <= w_uuid_next w' <= w_uuid_next w + u)%nat;
  gr_faults : no_faults w → no_faults w';
}.

#[export] Instance grows_refl u P D : Reflexive (grows u P D).
Proof. intros w. constructor; auto. lia. Qed.

Lemma grows_trans u u1 u2 (P D P1 D1 P2 D2 : PathBuf → Prop) w w1 w2 :
  grows u1 P1 D1 w w1 → grows u2 P2 D2 w1 w2 →
  (∀ p, P1 p ∨ P2 p → P p) → (∀ p, D1 p ∨ D2 p → D p) → (u1 + u2 <= u)%nat →
  grows u P D w w2.
Proof.
  intros G1 G2 HP HD Hu. constructor.
  - pose proof (gr_next _ _ _ _ _ G1). pose proof (gr_next _ _ _ _ _ G2). lia.
  - intros i Hi. pose proof (gr_next _ _ _ _ _ G1).
    rewrite (gr_inodes _ _ _ _ _ G2) by lia. by apply (gr_inodes _ _ _ _ _ G1).
  - intros p Hp. rewrite (gr_files _ _ _ _ _ G2) by naive_solver.
    apply (gr_files _ _ _ _ _ G1). naive_solver.
  - intros p Hp. by apply (gr_dirs _ _ _ _ _ G2), (gr_dirs _ _ _ _ _ G1).
  - intros p Hp. apply (gr_newdirs _ _ _ _ _ G2) in Hp as [Hp|Hp]; [|auto].
    apply (gr_newdirs _ _ _ _ _ G1) in Hp as [Hp|Hp]; auto.
  - by rewrite (gr_uuids _ _ _ _ _ G2), (gr_uuids _ _ _ _ _ G1).
  - pose proof (gr_uuid_next _ _ _ _ _ G1). pose proof (gr_uuid_next _ _ _ _ _ G2). lia.
  - intros Hf. by apply (gr_faults _ _ _ _ _ G2), (gr_faults _ _ _ _ _ G1).
Qed.

Lemma grows_file u D w w' p : grows u nowhere D w w' → file_at w' p = file_at w p.
Proof. intros G. apply (gr_files _ _ _ _ _ G). by intros []. Qed.

Lemma grows_weaken u u1 (P D P1 D1 : PathBuf → Prop) w w' :
  grows u1 P1 D1 w w' → (∀ p, P1 p → P p) → (∀ p, D1 p → D p) → (u1 <= u)%nat →
  grows u P D w w'.
Proof.
  intros G HP HD Hu.
  eapply (grows_trans u u1 0 P D P1 D1 P D); [exact G|reflexivity|naive_solver..|lia].
Qed.

Lemma file_at_links w p i : wf w → file_at w p = Some i → ∃ nd, w_inodes w !! i = Some nd.
Proof.
  unfold file_at. intros Hw. destruct (w_names w !! p) as [[|j]|] eqn:E; intros; simplify_eq.
  by eapply wf_links.
Qed.

(** Files outside [P] keep their content. *)
Lemma grows_content u P D w w' p :
  wf w → grows u P D w w' → ¬ P p → content w' p = content w p.
Proof.
  intros Hw G Hp. unfold content, inode_data. rewrite (gr_files _ _ _ _ _ G) by done.
  destruct (file_at w p) as [i|] eqn:E; [|done]. simpl.
  destruct (file_at_links w p i Hw E) as [nd Hi]. rewrite (gr_inodes _ _ _ _ _ G); [done|].
  apply (wf_inodes w Hw). by eexists.
Qed.

(** An inode that existed keeps its data. *)
Lemma grows_data u P D w w' i b :
  wf w → grows u P D w w' → inode_data w i = Some b → inode_data w' i = Some b.
Proof.
  intros Hw G. unfold inode_data. destruct (w_inodes w !! i) as [nd|] eqn:E; [|done].
  intros. rewrite (gr_inodes _ _ _ _ _ G); [by rewrite E|]. apply (wf_inodes w Hw). by eexists.
Qed.

Lemma same_fs_grows u P D w w' :
  same_fs w w' → (no_faults w → no_faults w') → grows u P D w w'.
Proof.
  intros [Hn Hi Hx Hu Hv] Hf.
  constructor; unfold file_at, is_dir, entry_at; rewrite ?Hn, ?Hi, ?Hx, ?Hu, ?Hv; auto; lia.
Qed.

Lemma content_Some w p b :
  content w p = Some b ↔ ∃ i, file_at w p = Some i ∧ inode_data w i = Some b.
Proof. unfold content. destruct (file_at w p); simpl; naive_solver. Qed.

(** ** Rules for the calls *)

Lemma twp_wf {A} (p : prog osE A) (Q : A → World → Prop) w :
  wf w → twp p Q w → twp p (λ a w', wf w' ∧ Q a w') w.
Proof.
  intros Hw (a & w' & Hr & HQ). exists a, w'. split; [done|]. split; [|done].
  by eapply wf_runs.
Qed.

(** Sequencing two specifications. *)
Lemma twp_seq {A B} (p : prog osE A) (f : A → prog osE B) (R : A → World → Prop)
    (Q : B → World → Prop) w :
  wf w → twp p R w → (∀ a w', wf w' → R a w' → twp (f a) Q w') → twp (bind p f) Q w.
Proof.
  intros Hw Hp Hf. wp_bind. eapply twp_mono; [by apply twp_wf|].
  intros a w' [??]. by apply Hf.
Qed.

Lemma twp_effect {A} (e : osE (io_result A)) partial f (Q : io_result A → World → Prop) w :
  handle e = effect_call partial f →
  (∀ w1, same_fs w w1 → (no_faults w → no_faults w1) → Q (f w1).1 (f w1).2) →
  (∀ w1 err n, same_fs w w1 → state_kind (io_kind err) = false → ¬ no_faults w → Q (Err err) (partial n w1)) →
  twp (call e) Q w.
Proof.
  intros Hh H1 H2. apply twp_vis. rewrite Hh. unfold effect_call.
  pose proof (next_choice_spec w) as [Hs Hf]. destruct (next_choice w) as [c w1]. simpl in *.
  destruct (fault c) as [err|] eqn:Ec; simpl; apply twp_ret.
  - apply H2; [done|by eapply fault_kind|]. intros [??]%Hf. done.
  - apply H1; [done|]. tauto.
Qed.

Lemma twp_pure {A} (e : osE (io_result A)) f (Q : io_result A → World → Prop) w :
  handle e = pure_call f →
  (∀ c w1, same_fs w w1 → (no_faults w → no_faults w1) → Q (f c w1) w1) →
  (∀ w1 err, same_fs w w1 → state_kind (io_kind err) = false → ¬ no_faults w → Q (Err err) w1) →
  twp (call e) Q w.
Proof.
  intros Hh H1 H2. apply twp_vis. rewrite Hh. unfold pure_call.
  pose proof (next_choice_spec w) as [Hs Hf]. destruct (next_choice w) as [c w1]. simpl in *.
  destruct (fault c) as [err|] eqn:Ec; simpl; apply twp_ret.
  - apply H2; [done|by eapply fault_kind|]. intros [??]%Hf. done.
  - apply H1; [done|]. tauto.
Qed.

Lemma same_file_at w w' p : same_fs w w' → file_at w' p = file_at w p.
Proof. intros Hs. unfold file_at. by rewrite (sf_names _ _ Hs). Qed.

Lemma same_entry_at w w' p : same_fs w w' → entry_at w' p = entry_at w p.
Proof. intros Hs. unfold entry_at. by rewrite (sf_names _ _ Hs). Qed.

(** ** Frames of the primitive changes *)

Lemma is_dir_not_file w p i : w_names w !! p = Some (FileEntry i) → p ≠ [] → ¬ is_dir w p.
Proof. unfold is_dir. destruct p; [done|]. simpl. intros ->. done. Qed.

Lemma grows_unlink w p i :
  wf w → w_names w !! p = Some (FileEntry i) →
  grows 0 (eq p) nowhere w (set_names w (delete p (w_names w))).
Proof.
  intros Hw Hp. constructor; simpl; auto; try lia.
  - intros q Hq. unfold file_at. simpl. by rewrite lookup_delete_ne.
  - intros q. unfold is_dir. destruct q as [|x q]; [done|]. simpl.
    intros Hd. rewrite lookup_delete_ne; [done|]. naive_solver.
  - intros q. unfold is_dir. destruct q as [|x q]; [by left|]. simpl. left.
    by apply lookup_delete_Some in H as [??].
Qed.

Lemma grows_link w p i :
  w_names w !! p ≠ Some DirEntry → p ≠ [] →
  grows 0 (eq p) nowhere w (set_names w (<[p:=FileEntry i]> (w_names w))).
Proof.
  intros Hp Hn. constructor; simpl; auto; try lia.
  - intros q Hq. unfold file_at. simpl. by rewrite lookup_insert_ne.
  - intros q. unfold is_dir. destruct q as [|x q]; [done|]. simpl.
    intros Hd. rewrite lookup_insert_ne; [done|]. naive_solver.
  - intros q. unfold is_dir. destruct q as [|x q]; [by left|]. simpl. left.
    apply lookup_insert_Some in H as [[? ?]|[??]]; done.
Qed.

Lemma grows_alloc w p nd :
  wf w → w_names w !! p = None → p ≠ [] → grows 0 (eq p) nowhere w (alloc w p nd).
Proof.
  intros Hw Hp Hn. constructor; simpl; auto; try lia.
  - intros i Hi. rewrite lookup_insert_ne; [done|lia].
  - intros q Hq. unfold file_at. simpl. by rewrite lookup_insert_ne.
  - intros q. unfold is_dir. destruct q as [|x q]; [done|]. simpl.
    intros Hd. rewrite lookup_insert_ne; [done|]. naive_solver.
  - intros q. unfold is_dir. destruct q as [|x q]; [by left|]. simpl. left.
    apply lookup_insert_Some in H as [[? ?]|[??]]; done.
Qed.

Lemma grows_write u P D w w1 i nd :
  grows u P D w w1 → (w_next w <= i)%nat → grows u P D w (set_inodes w1 (<[i:=nd]> (w_inodes w1))).
Proof.
  intros [] Hi. constructor; simpl; auto; try lia.
  intros j Hj. rewrite lookup_insert_ne; [auto|lia].
Qed.

Lemma grows_make_dirs w n p :
  wf w → dirs_error w p = None →
  grows 0 nowhere (λ q, q ∈ prefixes p) w
    (set_names w (make_dirs (take n (prefixes p)) (w_names w))).
Proof.
  intros Hw Hd. constructor; simpl; auto; try lia.
  - intros q _. unfold file_at. simpl. rewrite make_dirs_lookup.
    destruct (w_names w !! q) as [e|]; [done|]. by destruct (decide _).
  - intros q. apply is_dir_names. simpl. intros r Hr. by rewrite make_dirs_lookup, Hr.
  - intros q. unfold is_dir. destruct q as [|x q]; [by left|]. simpl.
    rewrite make_dirs_lookup. destruct (w_names w !! (x :: q)) as [e|]; [by left|].
    destruct (decide _) as [Hq|]; [|done]. right. apply elem_of_take_prefixes in Hq.
    apply elem_of_prefixes. naive_solver.
Qed.
End Frame.
