(* ===== verification/FsCalls.v ===== *)
(** * The file system: what one call does

    A total-correctness specification for each call of [osE] that the local
    provider makes, failing or not. *)
From S2P Require Import Prelude Text Errors Externals Paths Effects Fs FsFacts FsFrame.
(** Side conditions on the paths of a composed frame. *)
Ltac frame_side :=
  first
    [ lia
    | let H := fresh "Hq" in intros ? [H|H];
      first [by destruct H | assumption | naive_solver] ].

Section Calls.
Context `{EX : Externals}.

Lemma entry_no_file w p : wf w → (∀ i, entry_at w p ≠ Some (FileEntry i)) → file_at w p = None.
Proof.
  intros Hw He. destruct (file_at w p) as [i|] eqn:Ef; [|done].
  apply entry_at_file in Ef; [|done]. by apply He in Ef.
Qed.

(** The state a call acts on is the state before it, up to choices and
    clock. *)
Record reached (w w1 : World) : Prop := mkReached {
  rc_wf : wf w1;
  rc_grows : ∀ u P D, grows u P D w w1;
  rc_file : ∀ p, file_at w1 p = file_at w p;
  rc_entry : ∀ p, entry_at w1 p = entry_at w p;
  rc_data : ∀ i, inode_data w1 i = inode_data w i;
  rc_next : w_next w1 = w_next w;
  rc_uuid_next : w_uuid_next w1 = w_uuid_next w;
  rc_faults : no_faults w → no_faults w1;
}.

Lemma same_reached w w1 :
  wf w → same_fs w w1 → (no_faults w → no_faults w1) → reached w w1.
Proof.
  intros Hw Hs Hf. constructor; auto.
  - by eapply wf_same_fs.
  - intros. by apply same_fs_grows.
  - intros. by apply same_file_at.
  - intros. by apply same_entry_at.
  - intros i. unfold inode_data. by rewrite (sf_inodes _ _ Hs).
  - apply (sf_next _ _ Hs).
  - apply (sf_uuid_next _ _ Hs).
Qed.

Lemma effect_spec {A} (e : osE (io_result A)) partial f (Q : io_result A → World → Prop) w :
  handle e = effect_call partial f → wf w →
  (∀ w1, reached w w1 → Q (f w1).1 (f w1).2) →
  (∀ w1 err n, reached w w1 → state_kind (io_kind err) = false → ¬ no_faults w →
     Q (Err err) (partial n w1)) →
  twp (call e) Q w.
Proof.
  intros Hh Hw H1 H2. eapply twp_effect; [done| |].
  - intros. by apply H1, same_reached.
  - intros. apply H2; [by apply same_reached|done|done].
Qed.

Lemma pure_spec {A} (e : osE (io_result A)) f (Q : io_result A → World → Prop) w :
  handle e = pure_call f → wf w →
  (∀ c w1, reached w w1 → Q (f c w1) w1) →
  (∀ w1 err, reached w w1 → state_kind (io_kind err) = false → ¬ no_faults w →
     Q (Err err) w1) →
  twp (call e) Q w.
Proof.
  intros Hh Hw H1 H2. eapply twp_pure; [done| |].
  - intros. by apply H1, same_reached.
  - intros. apply H2; [by apply same_reached|done|done].
Qed.

Lemma reached_no_file w w1 p :
  reached w w1 → (∀ i, entry_at w1 p ≠ Some (FileEntry i)) → file_at w p = None.
Proof. intros R He. rewrite <- (rc_file _ _ R). apply entry_no_file; [apply R|done]. Qed.

Lemma reached_missing_kind w w1 p : wf w → reached w w1 → missing_kind w1 p = missing_kind w p.
Proof.
  intros Hw R. unfold missing_kind.
  enough (existsb (is_file_at (w_names w1)) (removelast (prefixes p)) =
          existsb (is_file_at (w_names w)) (removelast (prefixes p))) as -> by done.
  induction (removelast (prefixes p)) as [|q l IH]; simpl; [done|]. f_equal; [|done].
  pose proof (rc_file _ _ R q) as Hf. unfold file_at in Hf. unfold is_file_at.
  by destruct (w_names w1 !! q) as [[|i]|], (w_names w !! q) as [[|j]|].
Qed.

Lemma remove_spec p w :
  wf w →
  twp (call (FsRemoveFile p)) (λ r w', grows 0 (eq p) nowhere w w' ∧
    match r with
    | Ok _ => is_Some (file_at w p) ∧ file_at w' p = None
    | Err e => reached w w' ∧
               (no_faults w ∨ io_kind e = NotFound → file_at w p = None) ∧
               (no_faults w → entry_at w p = None → io_kind e = missing_kind w p)
    end) w.
Proof.
  intros Hw. eapply effect_spec; [done|done|..].
  - intros w1 R. pose proof (reached_no_file w w1 p R) as Hn.
    unfold fs_remove_file. destruct (entry_at w1 p) as [[|i]|] eqn:E; simpl.
    + split; [apply R|]. split_and!; [exact R|auto|]. intros _.
      rewrite <- (rc_entry _ _ R). congruence.
    + pose proof (proj1 (entry_at_file w1 p i (rc_wf _ _ R)) E) as Ef.
      apply entry_file_name in E as [E _]; [|apply R].
      split; [|split].
      * eapply grows_trans; [apply (rc_grows _ _ R 0 nowhere nowhere)
          |eapply grows_unlink; [apply R|done]|frame_side..].
      * rewrite <- (rc_file _ _ R). by eexists.
      * unfold file_at. simpl. by rewrite lookup_delete_eq.
    + split; [apply R|]. split_and!; [exact R|auto|]. intros _ _.
      by apply reached_missing_kind.
  - intros w1 err n R Hk Hf. split; [apply R|].
    split_and!; [exact R| |done]. intros [?|E]; [done|]. by rewrite E in Hk.
Qed.

(** Creating a file under a free name. *)
Definition created (w w' : World) (p : PathBuf) (b : bytes) : Prop :=
  ∃ i, file_at w' p = Some i ∧ (w_next w <= i)%nat ∧ inode_data w' i = Some b.

Definition no_room (w : World) (p : PathBuf) : Prop := is_dir w p ∨ ¬ is_dir w (removelast p).

Lemma fs_create_new p w :
  wf w → file_at w p = None →
  (∃ f, fs_create p w = (Ok f, alloc w p (mkInode [] (w_clock w))) ∧
     f = mkFile (FileEntry (w_next w)) 0 ∧ w_names w !! p = None ∧ p ≠ []) ∨
  (∃ e, fs_create p w = (Err e, w) ∧ no_room w p).
Proof.
  intros Hw Hp. unfold fs_create. destruct (entry_at w p) as [[|i]|] eqn:E.
  - right. eexists. split; [done|]. by left.
  - apply entry_at_file in E; [|done]. congruence.
  - destruct (parent_is_dir w p) eqn:Ep.
    + left. apply parent_is_dir_true in Ep as [Hne Hd]. apply entry_none_name in E as [E _].
      eexists. by split_and!.
    + right. eexists. split; [done|]. right. intros Hd.
      enough (parent_is_dir w p = true) by congruence. apply parent_is_dir_true.
      split; [by apply entry_none_name in E as [_ ?]|done].
Qed.

Lemma alloc_created w p nd : created w (alloc w p nd) p (i_data nd).
Proof.
  exists (w_next w). split_and!; [|done|].
  - unfold file_at. simpl. by rewrite lookup_insert_eq.
  - unfold inode_data. simpl. by rewrite lookup_insert_eq.
Qed.

Lemma reached_no_room w w1 p : reached w w1 → no_room w1 p → no_room w p.
Proof. intros R. unfold no_room, is_dir. by rewrite !(rc_entry _ _ R). Qed.

Lemma reached_created w w1 w' p b : reached w w1 → created w1 w' p b → created w w' p b.
Proof. intros R (i & ? & Hi & ?). exists i. by rewrite (rc_next _ _ R) in Hi. Qed.

Lemma reached_grows u w w1 w' P D : reached w w1 → grows u P D w1 w' → grows u P D w w'.
Proof.
  intros R G. eapply grows_trans; [apply (rc_grows _ _ R 0 P D)|exact G|frame_side..].
Qed.

Lemma create_spec p w :
  wf w → file_at w p = None →
  twp (call (FsCreate p)) (λ r w', grows 0 (eq p) nowhere w w' ∧
    match r with
    | Ok f => ∃ i, f = mkFile (FileEntry i) 0 ∧ file_at w' p = Some i ∧
              (w_next w <= i)%nat ∧ inode_data w' i = Some []
    | Err e => reached w w' ∧ (no_faults w → no_room w p)
    end) w.
Proof.
  intros Hw Hp. eapply effect_spec; [done|done|..].
  - intros w1 R. destruct (fs_create_new p w1) as [(f & -> & -> & Hn & Hne)|(e & -> & Hr)];
      [apply R|by rewrite (rc_file _ _ R)|..]; simpl.
    + split; [eapply reached_grows; [done|apply grows_alloc; [apply R|done..]]|].
      pose proof (alloc_created w1 p (mkInode [] (w_clock w1))) as C.
      apply (reached_created w) in C as (i & Hf & Hi & Hd); [|done]. exists i.
      split_and!; [|done..]. unfold file_at in Hf. simpl in Hf.
      rewrite lookup_insert_eq in Hf. by simplify_eq.
    + split; [apply R|]. split; [exact R|]. intros _. by eapply reached_no_room.
  - intros w1 err n R _ Hf. split; [apply R|]. split; [exact R|]. done.
Qed.

(** Changes of one inode of a file that was created in [w0] or later. *)
Definition writes (i : nat) (w w' : World) : Prop :=
  (∀ u P D w0, grows u P D w0 w → (w_next w0 <= i)%nat → grows u P D w0 w') ∧
  (∀ q, file_at w' q = file_at w q) ∧ (∀ q, entry_at w' q = entry_at w q) ∧
  (∀ j, j ≠ i → inode_data w' j = inode_data w j).

Lemma overlay_end (d b : bytes) : overlay d (length d) b = d ++ b.
Proof.
  unfold overlay. rewrite take_ge by done. rewrite Nat.sub_diag. simpl.
  rewrite drop_ge by lia. by rewrite app_nil_r.
Qed.

Lemma writes_at w w1 i d b :
  reached w w1 → inode_data w i = Some d →
  writes i w (fs_write_at (mkFile (FileEntry i) (Z.of_nat (length d))) b w1).2 ∧
  inode_data (fs_write_at (mkFile (FileEntry i) (Z.of_nat (length d))) b w1).2 i
    = Some (d ++ b) ∧
  (fs_write_at (mkFile (FileEntry i) (Z.of_nat (length d))) b w1).1 =
    Ok (mkFile (FileEntry i) (Z.of_nat (length (d ++ b)))).
Proof.
  intros R Hd. rewrite <- (rc_data _ _ R) in Hd. unfold inode_data in Hd.
  unfold fs_write_at. simpl. destruct (w_inodes w1 !! i) as [nd|] eqn:E; simplify_eq/=.
  split; [split|split].
  - intros u P D w0 G Hi. apply grows_write; [|done].
    eapply grows_trans; [exact G|apply (rc_grows _ _ R 0 P D)|frame_side..].
  - split_and!; intros q; [apply (rc_file _ _ R)|apply (rc_entry _ _ R)|].
    intros Hq. rewrite <- (rc_data _ _ R). unfold inode_data. simpl. by rewrite lookup_insert_ne.
  - unfold inode_data. simpl. rewrite lookup_insert_eq. simpl.
    by rewrite Nat2Z.id, overlay_end.
  - rewrite length_app. do 2 f_equal. lia.
Qed.

Lemma write_all_spec i d b w :
  wf w → inode_data w i = Some d →
  twp (call (FsWriteAll (mkFile (FileEntry i) (Z.of_nat (length d))) b)) (λ r w',
    writes i w w' ∧
    match r with
    | Ok f => f = mkFile (FileEntry i) (Z.of_nat (length (d ++ b))) ∧
              inode_data w' i = Some (d ++ b)
    | Err _ => ¬ no_faults w
    end) w.
Proof.
  intros Hw Hd. eapply effect_spec; [done|done|..].
  - intros w1 R. destruct (writes_at w w1 i d b R Hd) as (Hg & Hb & ->). done.
  - intros w1 err n R _ Hf. unfold fail_write_at. split; [|done].
    by apply (writes_at w w1 i d (take n b)).
Qed.

Lemma flush_spec f w :
  wf w →
  twp (call (FsFlush f)) (λ r w', reached w w' ∧ (no_faults w → r = Ok tt)) w.
Proof. intros Hw. eapply pure_spec; [done|done|..]; intros; by split. Qed.

Lemma rename_spec p q i w :
  wf w → file_at w p = Some i →
  twp (call (FsRename p q)) (λ r w', grows 0 (λ x, x = p ∨ x = q) nowhere w w' ∧
    match r with
    | Ok _ => file_at w' q = Some i ∧ (file_at w q ≠ Some i → file_at w' p = None)
    | Err e => reached w w' ∧
               (no_faults w → is_dir w q ∨ ¬ is_dir w (removelast q))
    end) w.
Proof.
  intros Hw Hp. eapply effect_spec; [done|done|..].
  - intros w1 R. unfold fs_rename.
    rewrite (proj2 (entry_at_file w1 p i (rc_wf _ _ R))) by by rewrite (rc_file _ _ R).
    assert (Hp1 : w_names w1 !! p = Some (FileEntry i)).
    { apply entry_file_name; [apply R|]. apply entry_at_file; [apply R|].
      by rewrite (rc_file _ _ R). }
    assert (M : q ≠ [] → w_names w1 !! q ≠ Some DirEntry → file_at w q ≠ Some i →
      let w2 := set_names w1 (<[q:=FileEntry i]> (delete p (w_names w1))) in
      grows 0 (λ x, x = p ∨ x = q) nowhere w w2 ∧
      file_at w2 q = Some i ∧ (file_at w q ≠ Some i → file_at w2 p = None)).
    { intros Hq Hn Hi. split; [|split].
      - eapply grows_trans; [apply (rc_grows _ _ R 0 nowhere nowhere)| |intros x [[]|H]; exact H
            |intros x [[]|H]; exact H|by apply Nat.le_refl].
        eapply (grows_trans 0 0 0 _ _ (eq p) nowhere (eq q) nowhere);
          [eapply grows_unlink; [apply R|done]| |frame_side..].
        pose proof (grows_link (set_names w1 (delete p (w_names w1))) q i) as L.
        unfold set_names in L |- *. simpl in L |- *. apply L; [|done].
        rewrite lookup_delete_Some. naive_solver.
      - unfold file_at. simpl. by rewrite lookup_insert_eq.
      - intros _. unfold file_at. simpl.
        assert (q ≠ p) by (intros ->; congruence).
        rewrite lookup_insert_ne, lookup_delete_eq by done. done. }
    destruct (entry_at w1 q) as [[|j]|] eqn:Eq; simpl.
    + split; [apply R|]. split; [exact R|]. left. by rewrite (rc_entry _ _ R) in Eq.
    + pose proof (proj1 (entry_at_file w1 q j (rc_wf _ _ R)) Eq) as Ef.
      rewrite (rc_file _ _ R) in Ef. apply entry_file_name in Eq as [Eq Hq]; [|apply R].
      destruct (Nat.eqb_spec i j) as [->|Hij]; simpl.
      * split; [apply R|]. rewrite (rc_file _ _ R). done.
      * apply M; congruence.
    + destruct (parent_is_dir w1 q) eqn:Ed; simpl.
      * apply M; [by apply entry_none_name in Eq as [_ ?]| |].
        -- apply entry_none_name in Eq as [-> _]. done.
        -- rewrite (reached_no_file w w1 q R); [done|congruence].
      * split; [apply R|]. split; [exact R|]. intros _. right. intros Hd.
        enough (parent_is_dir w1 q = true) by congruence. apply parent_is_dir_true.
        split; [by apply entry_none_name in Eq as [_ ?]|]. unfold is_dir in *.
        by rewrite (rc_entry _ _ R).
  - intros w1 err n R _ Hf. split; [apply R|]. split; [exact R|]. done.
Qed.

Lemma hard_link_spec p q i w :
  wf w → file_at w p = Some i →
  twp (call (FsHardLink p q)) (λ r w', grows 0 (eq q) nowhere w w' ∧
    match r with
    | Ok _ => entry_at w q = None ∧ file_at w' q = Some i
    | Err e => reached w w' ∧
               (io_kind e = AlreadyExists → entry_at w q ≠ None) ∧
               (no_faults w → io_kind e = AlreadyExists ∨ ¬ is_dir w (removelast q))
    end) w.
Proof.
  intros Hw Hp. eapply effect_spec; [done|done|..].
  - intros w1 R. unfold fs_hard_link.
    rewrite (proj2 (entry_at_file w1 p i (rc_wf _ _ R))) by by rewrite (rc_file _ _ R).
    destruct (entry_at w1 q) as [e|] eqn:Eq; simpl.
    + split; [apply R|]. split_and!; [exact R| |by left].
      rewrite <- (rc_entry _ _ R). intros _. congruence.
    + destruct (parent_is_dir w1 q) eqn:Ed; simpl.
      * rewrite <- (rc_entry _ _ R), Eq. apply entry_none_name in Eq as [Eq Hq]. split.
        -- eapply grows_trans; [apply (rc_grows _ _ R 0 nowhere nowhere)|eapply grows_link; [by rewrite Eq|done]
              |frame_side..].
        -- split; [done|]. unfold file_at. simpl. by rewrite lookup_insert_eq.
      * split; [apply R|]. split_and!; [exact R| |].
        -- unfold missing_kind. by destruct (existsb _ _).
        -- intros _. right. intros Hd.
           enough (parent_is_dir w1 q = true) by congruence. apply parent_is_dir_true.
           split; [by apply entry_none_name in Eq as [_ ?]|]. unfold is_dir in *.
           by rewrite (rc_entry _ _ R).
  - intros w1 err n R Hk Hf. split; [apply R|]. split_and!; [exact R| |done].
    intros E. by rewrite E in Hk.
Qed.

(** A file where a directory above the path is needed. *)
Definition blocked (w : World) (p : PathBuf) : Prop :=
  ∃ q, q ∈ prefixes p ∧ is_Some (file_at w q).

Lemma dirs_error_blocked w p k : wf w → dirs_error w p = Some k → blocked w p.
Proof.
  intros Hw Hk. destruct (existsb (is_file_at (w_names w)) (prefixes p)) eqn:E.
  - apply existsb_exists in E as (q & Hq%list_elem_of_In & E). exists q. split; [done|].
    unfold is_file_at in E. unfold file_at. by destruct (w_names w !! q) as [[|i]|].
  - assert (dirs_error w p = None); [|congruence].
    apply dirs_error_None; [done|]. intros q Hq.
    destruct (is_file_at (w_names w) q) eqn:Eq; [|done]. rewrite <- E. symmetry.
    apply existsb_exists. exists q. by rewrite <- list_elem_of_In.
Qed.

Lemma create_dir_all_spec p w :
  wf w →
  twp (call (FsCreateDirAll p)) (λ r w', grows 0 nowhere (λ q, q ∈ prefixes p) w w' ∧
    w_uuid_next w' = w_uuid_next w ∧
    match r with Ok _ => is_dir w' p | Err _ => no_faults w → blocked w p end) w.
Proof.
  intros Hw. eapply effect_spec; [done|done|..].
  - intros w1 R. unfold fs_create_dir_all. destruct (dirs_error w1 p) as [k|] eqn:E; simpl.
    + split; [apply R|]. split; [apply R|]. intros _. apply dirs_error_blocked in E as (q & Hq & Hf); [|apply R].
      exists q. by rewrite <- (rc_file _ _ R).
    + pose proof (grows_make_dirs w1 (length (prefixes p)) p (rc_wf _ _ R) E) as G.
      rewrite take_ge in G by done. split; [|split; [apply R|]].
      * eapply grows_trans; [by apply (rc_grows _ _ R 0 nowhere nowhere)|exact G|frame_side..].
      * unfold is_dir. destruct p as [|x p]; [done|]. rewrite entry_at_ne by done.
        change (make_dirs (prefixes (x :: p)) (w_names w1) !! (x :: p) = Some DirEntry).
        rewrite make_dirs_lookup.
        pose proof (proj1 (dirs_error_None w1 _ (rc_wf _ _ R)) E (x :: p)) as Hf.
        assert (Hx : (x :: p) ∈ prefixes (x :: p)).
        { apply elem_of_prefixes. exists (length (x :: p)).
          rewrite take_ge by done. simpl. split; [lia|done]. }
        unfold is_file_at in Hf. destruct (w_names w1 !! (x :: p)) as [[|i]|]; [done| |].
        -- by discriminate Hf.
        -- by rewrite decide_True.
  - intros w1 err n R _ Hf. split; [|split; [|done]]; unfold fail_create_dir_all;
      destruct (dirs_error w1 p) eqn:E; try apply R.
    eapply grows_trans; [by apply (rc_grows _ _ R 0 nowhere nowhere)
      |apply grows_make_dirs; [apply R|done]|frame_side..].
Qed.

(** What a failing lookup of a path says about the state. *)
Definition lookup_error (w : World) (p : PathBuf) (e : IoError) : Prop :=
  (io_kind e = NotFound → entry_at w p = None) ∧
  (no_faults w → entry_at w p = None ∧ io_kind e = missing_kind w p).

Lemma lookup_missing w w1 p :
  wf w → reached w w1 → entry_at w1 p = None →
  lookup_error w p (mkIoError (missing_kind w1 p) "").
Proof.
  intros Hw R E. rewrite (rc_entry _ _ R) in E. split; [done|]. intros _. split; [done|].
  simpl. by apply reached_missing_kind.
Qed.

Lemma lookup_fault w p err :
  state_kind (io_kind err) = false → ¬ no_faults w → lookup_error w p err.
Proof. intros Hk Hf. split; [|done]. intros E. by rewrite E in Hk. Qed.

(** The metadata of an entry. *)
Definition metadata_of (w : World) (p : PathBuf) (md : Metadata) : Prop :=
  match entry_at w p with
  | Some DirEntry => md_is_file md = false
  | Some (FileEntry i) => ∃ nd, w_inodes w !! i = Some nd ∧
      md = mkMetadata true (Z.of_nat (length (i_data nd))) (Some (i_mtime nd))
  | None => False
  end.

Lemma entry_links w p i :
  wf w → entry_at w p = Some (FileEntry i) → ∃ nd, w_inodes w !! i = Some nd.
Proof. intros Hw E%entry_at_file; [|done]. by eapply file_at_links. Qed.

Lemma metadata_spec p w :
  wf w →
  twp (call (FsMetadata p)) (λ r w', reached w w' ∧
    match r with Ok md => metadata_of w' p md | Err e => lookup_error w p e end) w.
Proof.
  intros Hw. eapply pure_spec; [done|done|..].
  - intros c w1 R. split; [done|]. unfold fs_metadata.
    destruct (entry_at w1 p) as [[|i]|] eqn:E.
    + unfold metadata_of. by rewrite E.
    + destruct (entry_links w1 p i) as [nd Hi]; [apply R|done|]. rewrite Hi.
      unfold metadata_of. rewrite E. by exists nd.
    + by apply lookup_missing.
  - intros w1 err R Hk Hf. split; [done|]. by apply lookup_fault.
Qed.

Lemma open_spec p w :
  wf w →
  twp (call (FsOpen p)) (λ r w', reached w w' ∧
    match r with
    | Ok f => ∃ e, f = mkFile e 0 ∧ entry_at w p = Some e
    | Err e => lookup_error w p e
    end) w.
Proof.
  intros Hw. eapply pure_spec; [done|done|..].
  - intros c w1 R. split; [done|]. unfold fs_open. destruct (entry_at w1 p) as [e|] eqn:E.
    + exists e. by rewrite <- (rc_entry _ _ R).
    + by apply lookup_missing.
  - intros w1 err R Hk Hf. split; [done|]. by apply lookup_fault.
Qed.

Lemma seek_spec f n w :
  wf w →
  twp (call (FsSeek f n)) (λ r w', reached w w' ∧
    match r with
    | Ok f' => f' = mkFile (f_entry f) n ∧ n ≤ i64_MAX
    | Err e => no_faults w → i64_MAX < n
    end) w.
Proof.
  intros Hw. eapply pure_spec; [done|done|..].
  - intros c w1 R. split; [done|]. unfold fs_seek. destruct (Z.ltb_spec i64_MAX n) as [Hn|Hn].
    + by intros _.
    + by split.
  - intros w1 err R Hk Hf. by split.
Qed.

(** One read returns some of the bytes at the position, and none only at the
    end (or when no byte was asked for). *)
Lemma read_chunk_spec i pos limit d w :
  wf w → inode_data w i = Some d → 0 ≤ pos →
  twp (call (FsReadChunk (mkFile (FileEntry i) pos) limit)) (λ r w', reached w w' ∧
    match r with
    | Ok (b, f) => ∃ k, b = take (read_size k limit) (drop (Z.to_nat pos) d) ∧
                   f = mkFile (FileEntry i) (pos + Z.of_nat (length b))
    | Err e => ¬ no_faults w
    end) w.
Proof.
  intros Hw Hd Hpos. eapply pure_spec; [done|done|..].
  - intros c w1 R. split; [done|]. rewrite <- (rc_data _ _ R) in Hd.
    unfold fs_read_at. simpl. unfold inode_data in Hd.
    destruct (w_inodes w1 !! i) as [nd|]; simplify_eq/=. exists (ch_amount c).
    destruct (Z.leb_spec (Z.of_nat (length (i_data nd))) pos); [|done].
    rewrite (drop_ge (i_data nd)) by lia. done.
  - intros w1 err R Hk Hf. by split.
Qed.

Lemma read_spec p w :
  wf w →
  twp (call (FsRead p)) (λ r w', reached w w' ∧
    match r with
    | Ok b => content w p = Some b
    | Err e => (io_kind e = NotFound → entry_at w p = None) ∧
               (no_faults w → file_at w p = None)
    end) w.
Proof.
  intros Hw. eapply pure_spec; [done|done|..].
  - intros c w1 R. split; [done|]. unfold fs_read. destruct (entry_at w1 p) as [[|i]|] eqn:E.
    + split; [done|]. intros _. apply (reached_no_file w w1 p R). congruence.
    + destruct (entry_links w1 p i) as [nd Hi]; [apply R|done|]. rewrite Hi.
      apply content_Some. exists i. apply entry_at_file in E; [|apply R].
      rewrite <- (rc_file _ _ R), <- (rc_data _ _ R). unfold inode_data. by rewrite Hi.
    + rewrite <- (rc_entry _ _ R). split; [done|]. intros _.
      apply (reached_no_file w w1 p R). congruence.
  - intros w1 err R Hk Hf. split; [done|]. split; [|done]. intros E. by rewrite E in Hk.
Qed.

Lemma fs_write_new p b w :
  wf w → file_at w p = None →
  grows 0 (eq p) nowhere w (fs_write p b w).2 ∧
  match (fs_write p b w).1 with
  | Ok _ => created w (fs_write p b w).2 p b
  | Err _ => no_room w p
  end.
Proof.
  intros Hw Hp. unfold fs_write.
  destruct (fs_create_new p w) as [(f & -> & -> & Hn & Hne)|(e & -> & Hr)]; [done|done| |].
  - set (w' := alloc w p _).
    assert (G : grows 0 (eq p) nowhere w w') by by apply grows_alloc.
    assert (Hi : inode_data w' (w_next w) = Some [])
      by by (unfold inode_data; simpl; rewrite lookup_insert_eq).
    unfold fs_write_at. cbn [f_entry]. unfold inode_data in Hi.
    destruct (w_inodes w' !! w_next w) as [nd|]; [|done]. simpl in Hi. simpl.
    split; [by apply (grows_write 0 (eq p) nowhere w w')|].
    exists (w_next w). split_and!; [|done|].
    + unfold file_at. simpl. by rewrite lookup_insert_eq.
    + unfold inode_data. simpl. rewrite lookup_insert_eq. simpl.
      assert (i_data nd = []) as -> by congruence. unfold overlay. simpl.
      by rewrite drop_nil, app_nil_r.
  - simpl. split; [reflexivity|done].
Qed.

Lemma write_spec p b w :
  wf w → file_at w p = None →
  twp (call (FsWrite p b)) (λ r w', grows 0 (eq p) nowhere w w' ∧
    match r with Ok _ => created w w' p b | Err _ => no_faults w → no_room w p end) w.
Proof.
  intros Hw Hp. eapply effect_spec; [done|done|..].
  - intros w1 R. destruct (fs_write_new p b w1) as [G Hr];
      [apply R|by rewrite (rc_file _ _ R)|]. split; [by eapply reached_grows|].
    destruct (fs_write p b w1).1; [by eapply reached_created|]. intros _.
    by eapply reached_no_room.
  - intros w1 err n R _ Hf. split; [|done]. destruct n as [|n]; simpl; [apply R|].
    eapply reached_grows; [done|]. apply fs_write_new; [apply R|by rewrite (rc_file _ _ R)].
Qed.

Lemma fs_read_content p b w : wf w → fs_read p w = Ok b → content w p = Some b.
Proof.
  intros Hw. unfold fs_read. destruct (entry_at w p) as [[|i]|] eqn:E; [done| |done].
  destruct (entry_links w p i Hw E) as [nd Hi]. rewrite Hi. intros [= <-].
  apply content_Some. exists i. split; [by apply entry_at_file|].
  unfold inode_data. by rewrite Hi.
Qed.

Lemma reached_content w w1 p : reached w w1 → content w1 p = content w p.
Proof.
  intros R. unfold content. rewrite (rc_file _ _ R). destruct (file_at w p); [|done]. simpl.
  apply (rc_data _ _ R).
Qed.

Lemma copy_spec p q w :
  wf w → file_at w q = None →
  twp (call (FsCopy p q)) (λ r w', grows 0 (eq q) nowhere w w' ∧
    match r with
    | Ok _ => ∃ b, content w p = Some b ∧ created w w' q b
    | Err e => (no_faults w → entry_at w p = None ∧ io_kind e = missing_kind w p ∨
                  is_dir w p ∨ no_room w q)
    end) w.
Proof.
  intros Hw Hq. eapply effect_spec; [done|done|..].
  - intros w1 R. unfold fs_copy. destruct (entry_at w1 p) as [[|i]|] eqn:E; simpl.
    + split; [apply R|]. intros _. right. left. unfold is_dir. by rewrite <- (rc_entry _ _ R).
    + destruct (fs_read p w1) as [b|e] eqn:Er; simpl.
      * destruct (fs_write_new q b w1) as [G Hr];
          [apply R|by rewrite (rc_file _ _ R)|]. split; [by eapply reached_grows|].
        destruct (fs_write q b w1).1.
        -- exists b. split; [|by eapply reached_created].
           rewrite <- (reached_content w w1) by done. by apply fs_read_content; [apply R|].
        -- intros _. right. right. by eapply reached_no_room.
      * split; [apply R|]. intros _. exfalso. unfold fs_read in Er. rewrite E in Er.
        destruct (entry_links w1 p i) as [nd Hi]; [apply R|done|]. by rewrite Hi in Er.
    + split; [apply R|]. intros _. left. rewrite <- (rc_entry _ _ R). split; [done|].
      by apply reached_missing_kind.
  - intros w1 err n R _ Hf. split; [|done]. unfold fail_copy.
    destruct (fs_read p w1); [|apply R]. destruct n as [|n]; simpl; [apply R|].
    eapply reached_grows; [done|]. apply fs_write_new; [apply R|by rewrite (rc_file _ _ R)].
Qed.
End Calls.
