(* ===== verification/LocalBlob.v ===== *)
(** * The local provider's blobs (src/src/local.rs): correctness

    Every theorem is about an arbitrary well-formed world and arbitrary
    failures of the calls. *)
From S2P Require Import Prelude Text Errors Providers Externals Paths Keys Effects Streams BlobStore Objects Fs FsFacts FsFrame FsCalls Local.
From Stdlib Require Import Ascii.

Section Blobs.
Context `{EX : Externals}.

(** ** Helpers *)

Lemma create_parent_dir_spec path w :
  wf w → path ≠ [] →
  twp (create_parent_dir path) (λ r w',
    grows 0 nowhere (λ q, q ∈ prefixes (removelast path)) w w' ∧
    w_uuid_next w' = w_uuid_next w ∧
    match r with
    | Ok _ => is_dir w' (removelast path)
    | Err _ => no_faults w → blocked w (removelast path)
    end) w.
Proof.
  intros Hw Hp. unfold create_parent_dir, path_parent. destruct path as [|x p]; [done|].
  eapply twp_seq; [done|by apply create_dir_all_spec|].
  intros r w' _ (G & U & Hr). wp_ret. split; [done|]. split; [done|]. by destruct r.
Qed.

(** The temporary name for a file name and a UUID. *)
Definition temp_name (x : string) (u : Uuid) : string :=
  x +:+ "." +:+ uuid_to_string u +:+ ".uploading".

Lemma temp_path_for_spec d x key w :
  x ≠ ".." →
  twp (temp_path_for (d ++ [x]) key) (λ r w',
    r = Ok (d ++ [temp_name x (w_uuids w (w_uuid_next w))]) ∧
    grows 1 nowhere nowhere w w' ∧ w_uuid_next w' = S (w_uuid_next w)) w.
Proof.
  intros Hx. unfold temp_path_for. rewrite path_file_name_snoc by done.
  apply twp_vis. simpl. apply twp_ret. rewrite path_with_file_name_snoc by done.
  split; [done|]. split; [|done]. constructor; simpl; auto; lia.
Qed.

Lemma discard_file_spec path w :
  wf w →
  twp (discard_file path) (λ _ w', grows 0 (eq path) nowhere w w' ∧
    (no_faults w → file_at w' path = None)) w.
Proof.
  intros Hw. unfold discard_file. eapply twp_seq; [done|by apply remove_spec|].
  intros r w' _ [G Hr]. wp_ret. split; [done|]. intros Hf.
  destruct r as [|e]; [by destruct Hr|]. destruct Hr as (R & Hr & _). rewrite (rc_file _ _ R). auto.
Qed.

(** The loop, from the state after the chunks [done_]. *)
Lemma write_loop_spec w0 i temp (body : BoxedStorageStream osE) st cs oe :
  supplies (bs_next body) st cs oe →
  ∀ done_ w, wf w → grows 0 (eq temp) nowhere w0 w → (w_next w0 <= i)%nat →
  file_at w temp = Some i → inode_data w i = Some (concat done_) →
  twp (loop (write_step temp body)
         (st, mkFile (FileEntry i) (Z.of_nat (length (concat done_))),
          foldl sha256_update sha256_new done_, size_of done_))
    (λ r w', grows 0 (eq temp) nowhere w0 w' ∧ file_at w' temp = Some i ∧
      match r with
      | Ok (file, hasher, size_bytes) =>
          oe = None ∧ inode_data w' i = Some (concat (done_ ++ cs)) ∧
          sha256_finalize_hex hasher = sha256_of (done_ ++ cs) ∧ size_bytes = size_of (done_ ++ cs)
      | Err e => oe = Some e ∨ ¬ no_faults w0
      end) w.
Proof.
  induction 1 as [st st' Hn|st e st' Hn|st c st' cs oe Hn D IH];
    intros done_ w Hw G Hi Hf Hd; apply twp_iter; unfold write_step at 1; wp_bind;
    eexists _, _; (split; [apply Hn|]).
  - apply twp_ret. simpl. apply twp_ret. by rewrite app_nil_r.
  - apply twp_ret. simpl. apply twp_ret. split_and!; [done|done|by left].
  - eapply twp_seq; [done|by apply write_all_spec|]. intros r w' Hw' [[Gw [Hfw _]] Hr].
    destruct r as [f|e].
    + destruct Hr as [-> Hd']. apply twp_ret. cbn [iter_next].
      specialize (IH (done_ ++ [c]) w'). rewrite concat_snoc, !foldl_app in IH. simpl in IH.
      unfold size_of in *. rewrite foldl_app in IH. simpl in IH. rewrite <- app_assoc in IH.
      apply IH; [done|by apply Gw|done|by rewrite Hfw|done].
    + apply twp_ret. simpl. apply twp_ret. split_and!; [by apply Gw|by rewrite Hfw|].
      right. intros H0. apply Hr. by apply (gr_faults _ _ _ _ _ G).
Qed.

Lemma write_stream_to_temp_spec temp body cs oe w :
  wf w → body_of body cs oe → file_at w temp = None →
  twp (write_stream_to_temp temp body) (λ r w', grows 0 (eq temp) nowhere w w' ∧
    match r with
    | Ok o => oe = None ∧ created w w' temp (concat cs) ∧ o = outcome_of cs
    | Err e => oe = Some e ∨ (no_faults w → no_room w temp)
    end) w.
Proof.
  intros Hw D Hf. unfold write_stream_to_temp.
  eapply twp_seq; [done|by apply create_spec|]. intros [f|e] w1 Hw1 [G Hr]; cbn [map_err].
  2: { apply twp_ret. split; [done|]. right. apply Hr. }
  destruct Hr as (i & -> & Hf1 & Hi & Hd).
  eapply twp_seq; [done|by apply (write_loop_spec w i temp _ _ cs oe (proj1 D) [])|].
  intros [[[f h] n]|e] w2 Hw2 (G2 & Hf2 & Hr2).
  2: { apply twp_ret. split; [done|]. destruct Hr2 as [Hr2|Hr2]; [by left|by right]. }
  destruct Hr2 as (-> & Hd2 & Hh & ->).
  eapply twp_seq; [done|by apply flush_spec|]. intros r w3 Hw3 [R3 Hr3].
  assert (G3 : grows 0 (eq temp) nowhere w w3).
  { eapply grows_trans; [exact G2|apply (rc_grows _ _ R3 0 nowhere nowhere)|frame_side..]. }
  destruct r as [[]|e]; simpl; apply twp_ret; (split; [done|]).
  - split_and!; [done| |by unfold outcome_of; rewrite Hh]. exists i.
    split_and!; [by rewrite (rc_file _ _ R3)|done|by rewrite (rc_data _ _ R3)].
  - right. intros H0. by apply (gr_faults _ _ _ _ _ G2) in H0; apply Hr3 in H0.
Qed.

(** ** Keys and paths *)

Definition key_path (self : LocalStorageBackend) (key : string) : PathBuf :=
  root self ++ split "/" key.

Lemma path_for_safe self key : key_safe key → path_for self key = Ok (key_path self key).
Proof.
  intros H. unfold path_for. by rewrite validate_blob_key_safe, path_join_safe.
Qed.

Lemma path_for_unsafe self key :
  ¬ key_safe key → path_for self key = Err (InvalidStorageKey key).
Proof. intros H. unfold path_for. by rewrite validate_blob_key_unsafe. Qed.

Lemma key_path_snoc self key :
  key_safe key → ∃ d x, key_path self key = d ++ [x] ∧ safe_segment x.
Proof.
  unfold key_path, key_safe. intros H. pose proof (split_not_nil "/" key) as Hn.
  destruct (split "/" key) as [|x l _] using rev_ind; [done|].
  apply Forall_app in H as [_ H]. apply Forall_inv in H.
  exists (root self ++ l), x. by rewrite app_assoc.
Qed.

(** Keys whose file is not taken for a temporary file. *)
Definition plain_key (key : string) : Prop :=
  key_safe key ∧ is_uploading_temp_file (split "/" key) = false.

#[export] Instance plain_key_dec key : Decision (plain_key key).
Proof. unfold plain_key. apply _. Defined.

(** The name of the next temporary file for a path. *)
Definition temp_path (w : World) (path : PathBuf) : PathBuf :=
  removelast path ++ [temp_name (default "" (last path)) (w_uuids w (w_uuid_next w))].

Lemma temp_path_snoc w d x :
  temp_path w (d ++ [x]) = d ++ [temp_name x (w_uuids w (w_uuid_next w))].
Proof. unfold temp_path. by rewrite removelast_snoc, last_snoc. Qed.

(** The next [k] UUIDs are new: they differ from each other and no file has one
    of them in its temporary name. *)
Definition temp_of (u : Uuid) (p : PathBuf) : Prop := ∃ d x, p = d ++ [temp_name x u].

Record fresh (k : nat) (w : World) : Prop := mkFresh {
  fr_inj : ∀ n m, (w_uuid_next w <= n < w_uuid_next w + k)%nat →
           (w_uuid_next w <= m < w_uuid_next w + k)%nat →
           w_uuids w n = w_uuids w m → n = m;
  fr_new : ∀ n p i, (w_uuid_next w <= n < w_uuid_next w + k)%nat → file_at w p = Some i →
           ¬ temp_of (w_uuids w n) p;
}.

Lemma fresh_temp k w path : fresh (S k) w → file_at w (temp_path w path) = None.
Proof.
  intros F. destruct (file_at w (temp_path w path)) eqn:E; [|done]. exfalso.
  eapply (fr_new (S k) w F (w_uuid_next w)); [lia|exact E|]. by eexists _, _.
Qed.

Lemma temp_name_length x u : String.length (temp_name x u) =
  (String.length x + 1 + String.length (uuid_to_string u) + 10)%nat.
Proof. unfold temp_name. rewrite !length_app_str. simpl. lia. Qed.

Lemma temp_name_uploading x u : ends_with ".uploading" (temp_name x u) = true.
Proof.
  unfold ends_with, temp_name. rewrite <- !app_assoc_str.
  destruct (strip_suffix _ _) eqn:E; [done|].
  assert (strip_suffix ".uploading" (((x +:+ ".") +:+ uuid_to_string u) +:+ ".uploading")
          = Some ((x +:+ ".") +:+ uuid_to_string u)) by by apply strip_suffix_Some.
  congruence.
Qed.

Lemma temp_of_uploading u p : temp_of u p → is_uploading_temp_file p = true.
Proof.
  intros (d & x & ->). unfold is_uploading_temp_file.
  rewrite path_file_name_snoc; [apply temp_name_uploading|].
  intros E. apply (f_equal String.length) in E. rewrite temp_name_length in E. simpl in E. lia.
Qed.

Lemma temp_of_inj `{XL : !ExternalsLaws} u v p : temp_of u p → temp_of v p → u = v.
Proof.
  intros (d & x & ->) (d' & y & E). apply app_inj_tail in E as [_ E].
  pose proof (uuid_text_length u) as Lu. pose proof (uuid_text_length v) as Lv.
  assert (L : String.length x = String.length y).
  { apply (f_equal String.length) in E. rewrite !temp_name_length in E. lia. }
  unfold temp_name in E. apply app_inj_length in E as [_ E]; [|done].
  apply app_inj_length in E as [_ E]; [|done].
  apply app_inj_length in E as [E _]; [|congruence]. by apply uuid_text_inj.
Qed.

(** What an operation with the next UUIDs does keeps the later ones new. *)
Lemma fresh_grows `{XL : !ExternalsLaws} u k P D w w' :
  fresh (u + k) w → grows u P D w w' →
  (∀ p i, P p → file_at w' p = Some i → is_uploading_temp_file p = false ∨
     ∃ n, (w_uuid_next w <= n < w_uuid_next w')%nat ∧ temp_of (w_uuids w n) p) →
  fresh k w'.
Proof.
  intros [Fi Fn] G HP. pose proof (gr_uuid_next _ _ _ _ _ G) as Hu. constructor.
  - rewrite (gr_uuids _ _ _ _ _ G). intros n m Hn Hm. apply Fi; lia.
  - intros n p i Hn Hf Ht. rewrite (gr_uuids _ _ _ _ _ G) in Ht.
    assert (file_at w' p = file_at w p → False) as Hne.
    { intros E. rewrite E in Hf. eapply Fn; [|exact Hf|exact Ht]. lia. }
    apply Hne, (gr_files _ _ _ _ _ G). intros HPp.
    destruct (HP p i HPp Hf) as [Hu'|(m & Hm & Htm)].
    + apply temp_of_uploading in Ht. congruence.
    + assert (n = m); [|lia]. apply Fi; [lia|lia|]. by eapply temp_of_inj.
Qed.

Lemma fresh_weaken k k' w : fresh k w → (k' <= k)%nat → fresh k' w.
Proof.
  intros [Fi Fn] Hk. constructor.
  - intros n m Hn Hm. apply Fi; lia.
  - intros n p i Hn. apply Fn. lia.
Qed.

Lemma reached_fresh `{XL : !ExternalsLaws} k w w' : fresh k w → reached w w' → fresh k w'.
Proof.
  intros F R. eapply (fresh_grows 0); [exact F|apply (rc_grows _ _ R 0 nowhere nowhere)|].
  by intros ?? [].
Qed.

(** ** Writing through a temporary file *)

(** The directories an operation on a path may create. *)
Definition above (path q : PathBuf) : Prop := q ∈ prefixes (removelast path).

(** A file where a directory is needed, or a directory where a file is. *)
Definition obstructed (w : World) (path : PathBuf) : Prop :=
  blocked w (removelast path) ∨ is_dir w path ∨ is_dir w (temp_path w path).

Lemma above_length path q : above path q → (length q < length path)%nat ∨ path = [].
Proof.
  intros (k & Hk & ->)%elem_of_prefixes. rewrite length_take.
  destruct path as [|x p]; [by right|]. left.
  destruct (x :: p) as [|y l _] eqn:E using rev_ind; [done|]. rewrite removelast_snoc in *.
  rewrite length_app. simpl. lia.
Qed.

Lemma not_above_temp w path : path ≠ [] → ¬ above path (temp_path w path).
Proof.
  intros Hp H%above_length. destruct H as [H|]; [|done]. unfold temp_path in H.
  destruct path as [|y l _] using rev_ind; [done|]. rewrite removelast_snoc in H.
  rewrite !length_app in H. simpl in H. lia.
Qed.

(** The common part of [put_blob] and [put_blob_if_not_exists]. *)
Definition staged {A} (path : PathBuf) (key : string) (body : StorageByteStream osE)
    (k : PathBuf → BlobWriteOutcome → prog osE (storage_result A)) :
    prog osE (storage_result A) :=
  let*? _ := create_parent_dir path in
  let*? temp_path := temp_path_for path key in
  let* write_result := write_stream_to_temp temp_path body in
  match write_result with
  | Err err =>
      let* _ := discard_file temp_path in
      Ret (Err err)
  | Ok outcome => k temp_path outcome
  end.

(** After the temporary file is complete. *)
Record ready (w w' : World) (path : PathBuf) (cs : list bytes) : Prop := mkReady {
  rd_wf : wf w';
  rd_grows : grows 1 (eq (temp_path w path)) (above path) w w';
  rd_uuid : (w_uuid_next w < w_uuid_next w')%nat;
  rd_created : created w w' (temp_path w path) (concat cs);
  rd_parent : is_dir w' (removelast path);
}.

(** After an operation on [path] that failed. *)
Record undone (w w' : World) (path : PathBuf) : Prop := mkUndone {
  ud_wf : wf w';
  ud_grows : grows 1 (eq (temp_path w path)) (above path) w w';
  ud_uuid : file_at w' (temp_path w path) = None ∨ (w_uuid_next w < w_uuid_next w')%nat;
  ud_clean : no_faults w → file_at w' (temp_path w path) = None;
}.

(** The common beginning of the writes: the parent directories and the
    temporary name. *)
Definition prepared {A} (path : PathBuf) (key : string)
    (k : PathBuf → prog osE (storage_result A)) : prog osE (storage_result A) :=
  let*? _ := create_parent_dir path in
  let*? temp_path := temp_path_for path key in
  k temp_path.

(** The state in which the temporary file is about to be written. *)
Record roomy (w w' : World) (path : PathBuf) : Prop := mkRoomy {
  rm_wf : wf w';
  rm_grows : grows 1 nowhere (above path) w w';
  rm_uuid : (w_uuid_next w < w_uuid_next w')%nat;
  rm_parent : is_dir w' (removelast path);
  rm_free : file_at w' (temp_path w path) = None;
}.

Lemma prepared_spec {A} path d x key (k : PathBuf → prog osE (storage_result A)) Q w :
  wf w → fresh 1 w → path = d ++ [x] → x ≠ ".." →
  (∀ e w', undone w w' path → (no_faults w → obstructed w path) → Q (Err e) w') →
  (∀ w', roomy w w' path → twp (k (temp_path w path)) Q w') →
  twp (prepared path key k) Q w.
Proof.
  intros Hw F -> Hx HE HK. unfold prepared. set (path := d ++ [x]) in *.
  assert (Hp : path ≠ []) by (subst path; by destruct d).
  pose proof (fresh_temp 0 w path F) as Ft.
  eapply twp_seq; [done|by apply create_parent_dir_spec|]. intros [[]|e] w1 Hw1 (G1 & U1 & H1).
  2: { apply twp_ret. apply HE; [|intros; left; auto].
    constructor; [done|eapply grows_weaken; [exact G1|by intros ? []|done|lia]|left|intros _];
      by rewrite (grows_file _ _ _ _ _ G1). }
  assert (T1 : temp_path w1 path = temp_path w path)
    by (unfold temp_path; by rewrite (gr_uuids _ _ _ _ _ G1), U1).
  eapply twp_seq; [done|by apply (temp_path_for_spec d x key)|].
  intros r w2 Hw2 (-> & G2 & U2). rewrite <- temp_path_snoc. fold path. rewrite T1.
  assert (G12 : grows 1 nowhere (above path) w w2)
    by (eapply grows_trans; [exact G1|exact G2|frame_side..]).
  apply HK. constructor; [done|done|lia| |].
  - by apply (gr_dirs _ _ _ _ _ G2).
  - by rewrite (grows_file _ _ _ _ _ G12).
Qed.

(** Filling the temporary file: from [roomy] to [ready] or [undone]. *)
Lemma roomy_ready w w2 w3 path cs :
  roomy w w2 path → wf w3 → grows 0 (eq (temp_path w path)) nowhere w2 w3 →
  created w2 w3 (temp_path w path) (concat cs) → ready w w3 path cs.
Proof.
  intros R Hw3 G (i & Hi & Hn & Hd). constructor; [done| | | |].
  - eapply grows_trans; [apply R|exact G|frame_side..].
  - pose proof (gr_uuid_next _ _ _ _ _ G). pose proof (rm_uuid _ _ _ R). lia.
  - exists i. split_and!; [done| |done]. pose proof (gr_next _ _ _ _ _ (rm_grows _ _ _ R)). lia.
  - by apply (gr_dirs _ _ _ _ _ G), (rm_parent _ _ _ R).
Qed.

Lemma roomy_undone w w2 w3 path :
  roomy w w2 path → wf w3 → grows 0 (eq (temp_path w path)) nowhere w2 w3 →
  twp (discard_file (temp_path w path)) (λ _ w4, undone w w4 path) w3.
Proof.
  intros R Hw3 G. eapply twp_mono; [apply twp_wf; [|apply discard_file_spec]; done|].
  intros _ w4 (Hw4 & G4 & H4).
  assert (G34 : grows 0 (eq (temp_path w path)) nowhere w2 w4)
    by (eapply grows_trans; [exact G|exact G4|frame_side..]).
  constructor; [done| | |].
  - eapply grows_trans; [apply R|exact G34|frame_side..].
  - right. pose proof (gr_uuid_next _ _ _ _ _ G34). pose proof (rm_uuid _ _ _ R). lia.
  - intros Hf. by apply H4, (gr_faults _ _ _ _ _ G), (gr_faults _ _ _ _ _ (rm_grows _ _ _ R)).
Qed.

Lemma roomy_no_room w w2 path :
  path ≠ [] → roomy w w2 path → no_room w2 (temp_path w path) → obstructed w path.
Proof.
  intros Hp R [Ht|Ht].
  - apply (gr_newdirs _ _ _ _ _ (rm_grows _ _ _ R)) in Ht as [Ht|Ht]; [right; by right|].
    by apply not_above_temp in Ht.
  - exfalso. apply Ht. unfold temp_path. rewrite removelast_snoc. apply (rm_parent _ _ _ R).
Qed.

Lemma staged_spec {A} path d x key body cs oe
    (k : PathBuf → BlobWriteOutcome → prog osE (storage_result A)) Q w :
  wf w → fresh 1 w → path = d ++ [x] → x ≠ ".." → body_of body cs oe →
  (∀ e w', undone w w' path → oe = Some e ∨ (no_faults w → obstructed w path) →
     Q (Err e) w') →
  (∀ w', ready w w' path cs → oe = None → twp (k (temp_path w path) (outcome_of cs)) Q w') →
  twp (staged path key body k) Q w.
Proof.
  intros Hw F E Hx Hb HE HK. eapply (prepared_spec path d x); [done..| |].
  - intros e w' Un Ho. apply HE; [done|by right].
  - intros w2 R.
    eapply twp_seq; [apply R|apply write_stream_to_temp_spec; [apply R|exact Hb|apply R]|].
    intros [o|e] w3 Hw3 [G3 H3].
    + destruct H3 as (-> & Hc & ->). apply HK; [|done]. by eapply roomy_ready.
    + eapply twp_seq; [done|by eapply roomy_undone|]. intros ? w4 _ Un. apply twp_ret.
      apply HE; [done|]. destruct H3 as [H3|H3]; [by left|right]. intros Hf.
      eapply roomy_no_room; [|done|].
      * rewrite E. by destruct d.
      * by apply H3, (gr_faults _ _ _ _ _ (rm_grows _ _ _ R)).
Qed.

(** What every write to [path] promises: it stays well formed, only the file
    of [path] and the temporary file change, only the directories above
    [path] appear, and without failures no temporary file is left. *)
Record wrote (w w' : World) (path : PathBuf) : Prop := mkWrote {
  wr_wf : wf w';
  wr_fresh : ∀ k, fresh (S k) w → fresh k w';
  wr_grows : grows 1 (λ p, p = path ∨ p = temp_path w path) (above path) w w';
  wr_clean : no_faults w → file_at w' (temp_path w path) = None;
}.

Context `{XL : !ExternalsLaws}.

Lemma path_not_temp w path :
  is_uploading_temp_file path = false → path ≠ temp_path w path.
Proof.
  intros Hu E. rewrite E in Hu.
  rewrite (temp_of_uploading (w_uuids w (w_uuid_next w))) in Hu; [done|]. by eexists _, _.
Qed.

Lemma wrote_fresh k w w' path :
  fresh (S k) w → is_uploading_temp_file path = false →
  grows 1 (λ p, p = path ∨ p = temp_path w path) (above path) w w' →
  file_at w' (temp_path w path) = None ∨ (w_uuid_next w < w_uuid_next w')%nat → fresh k w'.
Proof.
  intros F Hu G Hn. eapply (fresh_grows 1); [done|exact G|].
  intros p i [->| ->] Hp; [by left|].
  right. destruct Hn as [Hn|Hn]; [congruence|]. exists (w_uuid_next w).
  split; [lia|]. by eexists _, _.
Qed.

Lemma undone_wrote w w' path :
  is_uploading_temp_file path = false → undone w w' path →
  wrote w w' path ∧ file_at w' path = file_at w path.
Proof.
  intros Hu [U1 U2 U3 U4].
  assert (G : grows 1 (λ p, p = path ∨ p = temp_path w path) (above path) w w')
    by (eapply grows_weaken; [exact U2|naive_solver|naive_solver|lia]).
  split; [constructor; [done|intros; by eapply wrote_fresh|done|done]|].
  apply (gr_files _ _ _ _ _ U2). intros E. by apply (path_not_temp w path Hu).
Qed.

Lemma is_uploading_snoc d x :
  x ≠ ".." → is_uploading_temp_file (d ++ [x]) = ends_with ".uploading" x.
Proof. intros Hx. unfold is_uploading_temp_file. by rewrite path_file_name_snoc. Qed.

Lemma plain_path self key :
  plain_key key → is_uploading_temp_file (key_path self key) = false.
Proof.
  intros [Hs Hu]. unfold key_path, key_safe in *. pose proof (split_not_nil "/" key) as Hn.
  destruct (split "/" key) as [|x l _] using rev_ind; [done|].
  apply Forall_app in Hs as [_ Hs]. apply Forall_inv in Hs as (_&_&Hs&_).
  rewrite app_assoc. by rewrite is_uploading_snoc in Hu |- *.
Qed.

Lemma safe_path_ne self key : key_safe key → key_path self key ≠ [].
Proof. intros H. destruct (key_path_snoc self key H) as (d & x & -> & _). by destruct d. Qed.

Lemma ready_file w w' path cs :
  wf w → ready w w' path cs → is_uploading_temp_file path = false →
  ∃ i, file_at w' (temp_path w path) = Some i ∧ inode_data w' i = Some (concat cs) ∧
    file_at w' path = file_at w path ∧ file_at w' path ≠ Some i.
Proof.
  intros Hw [R1 R2 R3 (i & Hi & Hn & Hd) R5] Hu. exists i.
  assert (E : file_at w' path = file_at w path).
  { apply (gr_files _ _ _ _ _ R2). intros E. by apply (path_not_temp w path Hu). }
  split_and!; try done. rewrite E. intros Hf.
  destruct (file_at_links w path i Hw Hf) as [nd Hnd].
  assert (i < w_next w)%nat by (apply (wf_inodes w Hw); by eexists). lia.
Qed.

(** Moving on from [ready]: frames of the last call. *)
Lemma ready_step w w1 w' path cs :
  is_uploading_temp_file path = false → ready w w1 path cs → wf w' →
  grows 0 (λ p, p = path ∨ p = temp_path w path) nowhere w1 w' →
  (no_faults w → file_at w' (temp_path w path) = None) → wrote w w' path.
Proof.
  intros Hu R Hw' G Hc.
  assert (G' : grows 1 (λ p, p = path ∨ p = temp_path w path) (above path) w w').
  { eapply grows_trans; [apply R|exact G|frame_side..]. }
  constructor; try done. intros k F. eapply wrote_fresh; try done. right.
  pose proof (rd_uuid _ _ _ _ R). pose proof (gr_uuid_next _ _ _ _ _ G). lia.
Qed.

(** Giving up after [ready]. *)
Lemma abandon_spec w w1 w2 path cs :
  wf w2 → ready w w1 path cs → reached w1 w2 →
  twp (discard_file (temp_path w path)) (λ _ w3, undone w w3 path) w2.
Proof.
  intros Hw2 R R2. eapply twp_mono; [apply twp_wf; [|apply discard_file_spec]; done|].
  intros _ w3 (Hw3 & G3 & H3).
  assert (G : grows 0 (eq (temp_path w path)) nowhere w1 w3) by by eapply reached_grows.
  constructor; [done| | |].
  - eapply grows_trans; [apply R|exact G|frame_side..].
  - right. pose proof (gr_uuid_next _ _ _ _ _ G). pose proof (rd_uuid _ _ _ _ R). lia.
  - intros Hf. by apply H3, (rc_faults _ _ R2), (gr_faults _ _ _ _ _ (rd_grows _ _ _ _ R)).
Qed.

Lemma ready_dir w w1 path cs : path ≠ [] → ready w w1 path cs → is_dir w1 path → is_dir w path.
Proof.
  intros Hp R Hd. apply (gr_newdirs _ _ _ _ _ (rd_grows _ _ _ _ R)) in Hd as [Hd|Hd]; [done|].
  apply above_length in Hd. destruct Hd; [lia|done].
Qed.

(** The end of [put_blob] and [copy_blob]. *)
Definition commit {A} (temp path : PathBuf) (outcome : A) : prog osE (storage_result A) :=
  let* r := call (FsRename temp path) in
  match r with
  | Err source =>
      let* _ := discard_file temp in
      Ret (Err (storage_io path source))
  | Ok _ => Ret (Ok outcome)
  end.

(** Nothing happened to the file of the path. *)
Definition kept (w w' : World) (path : PathBuf) : Prop :=
  file_at w' path = file_at w path ∧ content w' path = content w path.

Lemma undone_kept w w' path :
  wf w → is_uploading_temp_file path = false → undone w w' path →
  wrote w w' path ∧ kept w w' path.
Proof.
  intros Hw Hu Un. pose proof (undone_wrote w w' path Hu Un) as [? ?]. split_and!; [done|].
  split; [done|]. eapply grows_content; [done|apply Un|]. intros E'.
  by apply (path_not_temp w path Hu).
Qed.

Lemma commit_spec {A} w w1 path cs (outcome : A) :
  wf w → path ≠ [] → is_uploading_temp_file path = false → ready w w1 path cs →
  twp (commit (temp_path w path) path outcome) (λ r w', wrote w w' path ∧
    match r with
    | Ok o => o = outcome ∧ content w' path = Some (concat cs)
    | Err e => kept w w' path ∧ (no_faults w → is_dir w path)
    end) w1.
Proof.
  intros Hw Hp Hu R. destruct (ready_file w w1 path cs Hw R Hu) as (i & Hi & Hd & Hf & Hne).
  eapply twp_seq; [apply R|by apply rename_spec; [apply R|]|].
  intros [[]|e] w2 Hw2 [G2 H2].
  - destruct H2 as [Hq Hn]. apply twp_ret. split; [|split; [done|]].
    + eapply ready_step; [done..|eapply grows_weaken; [exact G2|naive_solver|naive_solver|done]|auto].
    + apply content_Some. exists i. split; [done|].
      by eapply (grows_data _ _ _ w1); [apply R|done|].
  - destruct H2 as [R2 Hn].
    eapply twp_seq; [done|by eapply abandon_spec|]. intros ? w3 Hw3 Un. apply twp_ret.
    destruct (undone_kept w w3 path Hw Hu Un). split_and!; [done..|]. intros Hnf.
    destruct Hn as [Hd'|Hd']; [by apply (gr_faults _ _ _ _ _ (rd_grows _ _ _ _ R))| |].
    + by eapply ready_dir.
    + by destruct (Hd' (rd_parent _ _ _ _ R)).
Qed.

Lemma put_blob_spec self key body cs oe options w :
  wf w → fresh 1 w → body_of body cs oe → plain_key key →
  twp (put_blob self key body options) (λ r w', wrote w w' (key_path self key) ∧
    match r with
    | Ok outcome => oe = None ∧ content w' (key_path self key) = Some (concat cs) ∧
                    outcome = outcome_of cs
    | Err e => kept w w' (key_path self key) ∧
               (oe = Some e ∨ (no_faults w → obstructed w (key_path self key)))
    end) w.
Proof.
  intros Hw F Hb Hk. pose proof (plain_path self key Hk) as Hu. destruct Hk as [Hs _].
  unfold put_blob. rewrite path_for_safe by done.
  pose proof (safe_path_ne self key Hs) as Hp.
  destruct (key_path_snoc self key Hs) as (d & x & E & _&_&Hx&_).
  eapply (staged_spec _ d x key body cs oe); [done..| |].
  - intros e w' Un He. by destruct (undone_kept w w' _ Hw Hu Un).
  - intros w1 R ->. eapply twp_mono; [by apply (commit_spec w w1 _ cs)|].
    intros [o|e] w2 [Hwr Hr]; (split; [done|]).
    + by destruct Hr as [-> ?].
    + destruct Hr as [? Hr]. split; [done|]. right. intros Hf. right. left. auto.
Qed.

Lemma ready_entry w w1 path cs :
  wf w → path ≠ [] → is_uploading_temp_file path = false → ready w w1 path cs →
  entry_at w1 path = None ↔ entry_at w path = None.
Proof.
  intros Hw Hp Hu R. pose proof (rd_grows _ _ _ _ R) as G.
  assert (E : file_at w1 path = file_at w path).
  { apply (gr_files _ _ _ _ _ G). intros E. by apply (path_not_temp w path Hu). }
  split; intros H.
  - destruct (entry_at w path) as [[|i]|] eqn:Ee; [|exfalso|done].
    + apply (gr_dirs _ _ _ _ _ G) in Ee. unfold is_dir in Ee. congruence.
    + apply entry_at_file in Ee; [|done]. rewrite <- E in Ee.
      apply entry_at_file in Ee; [congruence|apply R].
  - destruct (entry_at w1 path) as [[|i]|] eqn:Ee; [|exfalso|done].
    + pose proof (ready_dir w w1 path cs Hp R Ee) as Hd. unfold is_dir in Hd. congruence.
    + apply entry_at_file in Ee; [|apply R]. rewrite E in Ee.
      apply entry_at_file in Ee; [congruence|done].
Qed.

Lemma create_blob_spec self key body cs oe options w :
  wf w → fresh 1 w → body_of body cs oe → plain_key key →
  twp (put_blob_if_not_exists self key body options) (λ r w',
    wrote w w' (key_path self key) ∧
    match r with
    | Ok (Some outcome) =>
        oe = None ∧ entry_at w (key_path self key) = None ∧
        content w' (key_path self key) = Some (concat cs) ∧ outcome = outcome_of cs
    | Ok None =>
        entry_at w (key_path self key) ≠ None ∧
        kept w w' (key_path self key)
    | Err e =>
        kept w w' (key_path self key) ∧
        (oe = Some e ∨ (no_faults w → obstructed w (key_path self key)))
    end) w.
Proof.
  intros Hw F Hb Hk. pose proof (plain_path self key Hk) as Hu. destruct Hk as [Hs _].
  unfold put_blob_if_not_exists. rewrite path_for_safe by done.
  set (path := key_path self key) in *.
  pose proof (safe_path_ne self key Hs) as Hp. fold path in Hp.
  destruct (key_path_snoc self key Hs) as (d & x & E & _&_&Hx&_).
  eapply (staged_spec path d x key body cs oe); [done..| |].
  - intros e w' Un He. by destruct (undone_kept w w' path Hw Hu Un).
  - intros w1 R ->. destruct (ready_file w w1 path cs Hw R Hu) as (i & Hi & Hd & Hf & Hne).
    eapply twp_seq; [apply R|by apply hard_link_spec; [apply R|]|].
    intros [[]|e] w2 Hw2 [G2 H2].
    + destruct H2 as [Hq Hn].
      eapply twp_seq; [done|by apply discard_file_spec|]. intros _ w3 Hw3 [G3 H3].
      apply twp_ret. split; [|split_and!; [done| | |done]].
      * eapply ready_step; [done..| |].
        -- eapply grows_trans; [exact G2|exact G3|frame_side..].
        -- intros Hnf. by apply H3, (gr_faults _ _ _ _ _ G2), (gr_faults _ _ _ _ _ (rd_grows _ _ _ _ R)).
      * by apply (ready_entry w w1 path cs).
      * apply content_Some. exists i. split.
        -- rewrite (gr_files _ _ _ _ _ G3); [done|]. intros E'. by apply (path_not_temp w path Hu).
        -- eapply (grows_data _ _ _ w2); [done|exact G3|].
           by eapply (grows_data _ _ _ w1); [apply R|exact G2|].
    + destruct H2 as (R2 & Hex & Hn).
      eapply twp_seq; [done|by eapply abandon_spec|]. intros ? w3 Hw3 Un.
      destruct (undone_kept w w3 path Hw Hu Un).
      destruct (decide (io_kind e = AlreadyExists)) as [Hk|Hk]; apply twp_ret;
        split_and!; try done.
      * intros E'. apply Hex; [done|]. by apply (ready_entry w w1 path cs).
      * right. intros Hnf. destruct Hn as [Hd'|Hd'];
          [by apply (gr_faults _ _ _ _ _ (rd_grows _ _ _ _ R))|done|exfalso].
        destruct Hd'. apply (rd_parent _ _ _ _ R).
Qed.

(** The blobs of other keys are as they were. *)
Definition others_kept (self : LocalStorageBackend) (key : string) (w w' : World) : Prop :=
  ∀ k, plain_key k → k ≠ key → content w' (key_path self k) = content w (key_path self k).

Lemma key_path_inj self k k' : key_path self k = key_path self k' → k = k'.
Proof. unfold key_path. intros E%app_inv_head. by apply split_inj in E. Qed.

Lemma wrote_others self key w w' :
  wf w → wrote w w' (key_path self key) → others_kept self key w w'.
Proof.
  intros Hw Wr k Hk Hne. eapply grows_content; [done|apply (wr_grows _ _ _ Wr)|].
  intros [E|E]; [by apply key_path_inj in E|].
  pose proof (plain_path self k Hk) as Hu. rewrite E in Hu.
  rewrite (temp_of_uploading (w_uuids w (w_uuid_next w))) in Hu; [done|].
  by eexists _, _.
Qed.

(** C2: [put_blob_if_not_exists] writes only where nothing was: [Some] means
    that the key had no entry and its file now holds the body; [None] means
    that it had one, and nothing changed; an error changes nothing either.
    No other blob changes.  The rest is as for [put_blob], and a key that fails
    validation makes no call. *)
Theorem put_blob_if_not_exists_spec self key body cs oe options w :
  wf w → fresh 1 w → body_of body cs oe →
  (¬ key_safe key →
   runs (put_blob_if_not_exists self key body options) w (Err (InvalidStorageKey key)) w) ∧
  (plain_key key →
   twp (put_blob_if_not_exists self key body options) (λ r w',
     wrote w w' (key_path self key) ∧ others_kept self key w w' ∧
     match r with
     | Ok (Some outcome) =>
         oe = None ∧ entry_at w (key_path self key) = None ∧
         content w' (key_path self key) = Some (concat cs) ∧
         bwo_size_bytes outcome = Z.min (Z.of_nat (length (concat cs))) u64_MAX ∧
         bwo_sha256_hex outcome = sha256_hex (concat cs)
     | Ok None => entry_at w (key_path self key) ≠ None ∧ kept w w' (key_path self key)
     | Err e => kept w w' (key_path self key) ∧
                (oe = Some e ∨ (no_faults w → obstructed w (key_path self key)))
     end) w).
Proof.
  intros Hw F Hb. split.
  - intros H. unfold put_blob_if_not_exists. rewrite path_for_unsafe by done. by apply runs_ret.
  - intros Hk. eapply twp_mono; [by apply create_blob_spec|]. intros r w' [Wr Hr].
    split_and!; [done|by apply wrote_others|]. destruct r as [[o|]|e]; [|done..].
    destruct Hr as (? & ? & ? & ->). split_and!; [done..| |].
    + apply size_of_concat.
    + apply sha256_of_concat.
Qed.

(** C1: [put_blob] replaces the blob atomically, whatever fails: on success
    the file of the key holds the concatenation of the chunks and the outcome
    is their size and digest; on failure the file of the key is what it was.
    Either way no other blob changes and no inode that existed is written to,
    so a reader that has the old blob open reads the old blob; without
    failures no temporary file is left.  The error is the error of the body,
    or some call failed, or a file stands where a directory is needed or a
    directory where the file is.  [put_blob] always returns, and a key that
    fails validation makes no call at all. *)
Theorem put_blob_atomic self key body cs oe options w :
  wf w → fresh 1 w → body_of body cs oe →
  (¬ key_safe key → runs (put_blob self key body options) w (Err (InvalidStorageKey key)) w) ∧
  (plain_key key →
   twp (put_blob self key body options) (λ r w',
     wrote w w' (key_path self key) ∧ others_kept self key w w' ∧
     match r with
     | Ok outcome => oe = None ∧ content w' (key_path self key) = Some (concat cs) ∧
                     bwo_size_bytes outcome = Z.min (Z.of_nat (length (concat cs))) u64_MAX ∧
                     bwo_sha256_hex outcome = sha256_hex (concat cs)
     | Err e => kept w w' (key_path self key) ∧
                (oe = Some e ∨ (no_faults w → obstructed w (key_path self key)))
     end) w).
Proof.
  intros Hw F Hb. split.
  - intros H. unfold put_blob. rewrite path_for_unsafe by done. by apply runs_ret.
  - intros Hk. eapply twp_mono; [by apply put_blob_spec|]. intros r w' [Wr Hr].
    split_and!; [done|by apply wrote_others|]. destruct r as [o|e]; [|done].
    destruct Hr as (? & ? & ->). split_and!; [done..| |].
    + apply size_of_concat.
    + apply sha256_of_concat.
Qed.

Lemma roomy_content w w2 path p : wf w → roomy w w2 path → content w2 p = content w p.
Proof. intros Hw R. eapply grows_content; [done|apply (rm_grows _ _ _ R)|by intros []]. Qed.

Lemma copy_blob_ok self from to w :
  wf w → fresh 1 w → key_safe from → plain_key to →
  twp (copy_blob self from to) (λ r w', wrote w w' (key_path self to) ∧
    match r with
    | Ok _ => ∃ b, content w (key_path self from) = Some b ∧
                   content w' (key_path self to) = Some b
    | Err e => kept w w' (key_path self to) ∧
               (no_faults w → content w (key_path self from) = None ∨
                              obstructed w (key_path self to))
    end) w.
Proof.
  intros Hw F Hfrom Hk. pose proof (plain_path self to Hk) as Hu. destruct Hk as [Hs _].
  unfold copy_blob. rewrite !path_for_safe by done. set (path := key_path self to) in *.
  pose proof (safe_path_ne self to Hs) as Hp. fold path in Hp.
  destruct (key_path_snoc self to Hs) as (d & x & E & _&_&Hx&_).
  eapply (prepared_spec path d x to); [done..| |].
  - intros e w' Un He. destruct (undone_kept w w' path Hw Hu Un). split_and!; auto.
  - intros w2 R. eapply twp_seq; [apply R|apply copy_spec; apply R|].
    intros [[]|e] w3 Hw3 [G3 H3].
    + destruct H3 as (b & Hb & Hc).
      rewrite (roomy_content w w2 path) in Hb by done.
      eapply twp_mono; [apply (commit_spec w w3 path [b] tt); try done|].
      { eapply roomy_ready; [done|done|done|]. simpl. by rewrite app_nil_r. }
      intros [o|e] w4 [Hwr Hr]; (split; [done|]).
      * destruct Hr as [_ Hr]. simpl in Hr. rewrite app_nil_r in Hr. by exists b.
      * destruct Hr as [? Hr]. split; [done|]. intros Hf. right. right. left. auto.
    + eapply twp_seq; [done|by eapply roomy_undone|]. intros ? w4 _ Un.
      destruct (undone_kept w w4 path Hw Hu Un).
      assert (Hn : no_faults w → content w (key_path self from) = None ∨ obstructed w path).
      { intros Hf. apply (gr_faults _ _ _ _ _ (rm_grows _ _ _ R)) in Hf.
        rewrite <- (roomy_content w w2 path) by done.
        assert (Hnf : (∀ i, entry_at w2 (key_path self from) ≠ Some (FileEntry i)) →
                  content w2 (key_path self from) = None).
        { intros He. unfold content. by rewrite entry_no_file; [|apply R|]. }
        destruct (H3 Hf) as [[He _]|[He|Hr]].
        - left. apply Hnf. congruence.
        - left. apply Hnf. unfold is_dir in He. congruence.
        - right. by eapply roomy_no_room. }
      destruct (decide (io_kind e = NotFound)); apply twp_ret; by split_and!.
Qed.


Lemma delete_blob_ok self key w :
  wf w → key_safe key →
  twp (delete_blob self key) (λ r w', wf w' ∧ (∀ k, fresh k w → fresh k w') ∧
    grows 0 (eq (key_path self key)) nowhere w w' ∧
    (no_faults w → content w' (key_path self key) = None) ∧
    match r with
    | Ok _ => content w' (key_path self key) = None
    | Err e => reached w w'
    end) w.
Proof.
  intros Hw Hs. unfold delete_blob. rewrite path_for_safe by done.
  set (path := key_path self key). unfold remove_if_present.
  assert (Hf : ∀ w', file_at w' path = None → content w' path = None)
    by (unfold content; by intros w' ->).
  assert (Hfr : ∀ w', grows 0 (eq path) nowhere w w' →
    (file_at w' path = None ∨ reached w w') → ∀ k, fresh k w → fresh k w').
  { intros w' G [Hn|R] k F; [|by eapply reached_fresh].
    eapply (fresh_grows 0); [exact F|exact G|]. intros p i <-. congruence. }
  eapply twp_seq; [done|by apply remove_spec|]. intros [[]|e] w1 Hw1 [G Hr].
  - destruct Hr as [_ Hn]. apply twp_ret. split_and!; auto.
  - destruct Hr as (R & Hn & _).
    assert (Hc : no_faults w ∨ io_kind e = NotFound → content w1 path = None).
    { intros Hx. apply Hf. rewrite (rc_file _ _ R). auto. }
    destruct (decide (io_kind e = NotFound)); apply twp_ret; split_and!; auto.
Qed.

(** [delete_blob] removes the file of the key and nothing else, and a key
    without a file is success: after an [Ok] the key has no file, and deleting
    again is [Ok] and changes nothing unless a call fails or a file stands
    above the key.  An error means that nothing changed; unless a call fails,
    the key has no file afterwards whatever the answer. *)
Theorem delete_blob_spec self key w :
  wf w →
  (¬ key_safe key → runs (delete_blob self key) w (Err (InvalidStorageKey key)) w) ∧
  (key_safe key →
   twp (delete_blob self key) (λ r w', wf w' ∧ (∀ k, fresh k w → fresh k w') ∧
     grows 0 (eq (key_path self key)) nowhere w w' ∧ others_kept self key w w' ∧
     (no_faults w → content w' (key_path self key) = None) ∧
     match r with
     | Ok _ => content w' (key_path self key) = None ∧
         twp (delete_blob self key) (λ r2 w2, reached w' w2 ∧
           (entry_at w' (key_path self key) = None → no_faults w' →
            missing_kind w' (key_path self key) = NotFound → r2 = Ok tt)) w'
     | Err e => reached w w'
     end) w).
Proof.
  intros Hw. split.
  { intros H. unfold delete_blob. rewrite path_for_unsafe by done. by apply runs_ret. }
  intros Hs. eapply twp_mono; [by apply delete_blob_ok|].
  intros r w1 (Hw1 & F1 & G & Hc & Hr). split_and!; [done..| |done|].
  { intros k Hk Hne. eapply grows_content; [done|exact G|]. intros E.
    by apply key_path_inj in E. }
  destruct r as [[]|e]; [|done]. split; [done|].
  unfold delete_blob. rewrite path_for_safe by done. unfold remove_if_present.
  set (path := key_path self key) in *.
  assert (Hf : file_at w1 path = None).
  { unfold content in Hr. destruct (file_at w1 path) as [i|] eqn:E; [|done]. simpl in Hr.
    destruct (file_at_links w1 path i Hw1 E) as [nd Hi]. unfold inode_data in Hr.
    by rewrite Hi in Hr. }
  eapply twp_seq; [done|by apply remove_spec|]. intros [[]|e] w2 Hw2 [_ Hr2].
  - destruct Hr2 as [[? ?] _]. congruence.
  - destruct Hr2 as (R2 & _ & Hk). destruct (decide (io_kind e = NotFound)) as [|Hne];
      apply twp_ret; (split; [done|]); intros He Hnf Hm; [done|].
    exfalso. apply Hne. by rewrite Hk.
Qed.
End Blobs.
