(* ===== verification/LocalRead.v ===== *)
(** * The local provider's readers (src/src/local.rs): correctness

    [get_blob], [get_blob_range], [head_blob], [blob_exists], [delete_blob] and
    [copy_blob]. *)
From S2P Require Import Prelude Text Errors Providers Externals Paths Keys Effects Streams BlobStore Objects Fs FsFacts FsFrame FsCalls Local LocalBlob.
From Stdlib Require Import Ascii.

Section Reading.
Context `{EX : Externals}.

Lemma reached_refl w : wf w → reached w w.
Proof. intros Hw. by apply same_reached. Qed.

Lemma reached_trans w w1 w2 : reached w w1 → reached w1 w2 → reached w w2.
Proof.
  intros R1 R2. constructor.
  - apply R2.
  - intros u P D. eapply reached_grows; [done|apply R2].
  - intros p. by rewrite (rc_file _ _ R2), (rc_file _ _ R1).
  - intros p. by rewrite (rc_entry _ _ R2), (rc_entry _ _ R1).
  - intros i. by rewrite (rc_data _ _ R2), (rc_data _ _ R1).
  - by rewrite (rc_next _ _ R2), (rc_next _ _ R1).
  - by rewrite (rc_uuid_next _ _ R2), (rc_uuid_next _ _ R1).
  - intros. by apply (rc_faults _ _ R2), (rc_faults _ _ R1).
Qed.

(** A path below a file. *)
Definition misplaced (w : World) (p : PathBuf) : Prop :=
  entry_at w p = None ∧ missing_kind w p = NotADirectory.

(** ** The stream of an open file *)

(** What the stream still has to deliver. *)
Definition remaining (pos : Z) (limit : option Z) (d : bytes) : bytes :=
  match limit with
  | None => drop (Z.to_nat pos) d
  | Some l => byte_range pos l d
  end.

Definition limit_ok (limit : option Z) : Prop :=
  match limit with Some l => 0 ≤ l | None => True end.

Lemma read_size_pos k limit : limit_ok limit → limit ≠ Some 0 → (0 < read_size k limit)%nat.
Proof.
  intros Hl Hz. unfold read_size. destruct limit as [l|]; [|lia]. simpl in Hl.
  assert (l ≠ 0) by naive_solver. lia.
Qed.

(** One read takes a front of what remains; an empty one means that nothing
    remains. *)
Lemma remaining_split pos limit d k :
  0 ≤ pos → limit_ok limit → limit ≠ Some 0 →
  let b := take (read_size k limit) (drop (Z.to_nat pos) d) in
  let limit' := (λ l, l - Z.of_nat (length b)) <$> limit in
  limit_ok limit' ∧
  remaining pos limit d = b ++ remaining (pos + Z.of_nat (length b)) limit' d ∧
  (b = [] → remaining pos limit d = []).
Proof.
  intros Hp Hl Hz. pose proof (read_size_pos k limit Hl Hz) as Hk. cbv zeta.
  set (n := read_size k limit) in *. set (rest := drop (Z.to_nat pos) d).
  assert (Hlen : length (take n rest) = min n (length rest)) by apply length_take.
  assert (Hdrop : drop (Z.to_nat (pos + Z.of_nat (length (take n rest)))) d
                  = drop (length (take n rest)) rest).
  { unfold rest. rewrite drop_drop. f_equal. lia. }
  assert (Hsplit : rest = take n rest ++ drop (length (take n rest)) rest).
  { rewrite Hlen. destruct (Nat.le_gt_cases (length rest) n).
    - rewrite !take_ge, Nat.min_r, drop_ge, app_nil_r by lia. done.
    - rewrite Nat.min_l by lia. by rewrite take_drop. }
  destruct limit as [l|]; simpl in *.
  - assert (Hn : (n <= Z.to_nat l)%nat) by (unfold n, read_size; lia).
    split_and!; [lia| |].
    + unfold byte_range. fold rest. rewrite Hdrop. rewrite Hsplit at 1.
      rewrite take_app. f_equal.
      * rewrite take_ge; [done|]. rewrite length_take. lia.
      * f_equal. lia.
    + intros E. apply (f_equal length) in E. rewrite Hlen in E. simpl in E.
      unfold byte_range. fold rest. destruct rest; [by rewrite take_nil|simpl in E; lia].
  - split_and!; [done| |].
    + rewrite Hdrop. exact Hsplit.
    + intros E. apply (f_equal length) in E. rewrite Hlen in E. simpl in E.
      fold rest. destruct rest; [done|simpl in E; lia].
Qed.

(** Reading an open file to its end: the chunks are the rest of the inode, or
    a front of it when a read fails. *)
Lemma reader_drains path i d :
  ∀ n pos limit w, wf w → inode_data w i = Some d → 0 ≤ pos → limit_ok limit →
  n = length (remaining pos limit d) →
  ∃ cs oe w', drains (reader_next path) (Some (mkFile (FileEntry i) pos, limit)) w cs oe w' ∧
    reached w w' ∧ concat cs `prefix_of` remaining pos limit d ∧
    (oe = None → concat cs = remaining pos limit d) ∧ (no_faults w → oe = None).
Proof.
  induction n as [n IH] using lt_wf_ind. intros pos limit w Hw Hd Hp Hl Hn.
  destruct (decide (limit = Some 0)) as [Hz|Hz].
  { exists [], None, w. split_and!; [|by apply reached_refl|apply prefix_nil| |done].
    - eapply drains_end. simpl. rewrite decide_True by done. by apply runs_ret.
    - intros _. rewrite Hz. done. }
  destruct (read_chunk_spec i pos limit d w Hw Hd Hp) as (r & w1 & Hr & R & Hres).
  assert (Step : ∀ a, runs (match r with
        | Err source => Ret (Some (Err (storage_io path source)), None)
        | Ok ([], _) => Ret (None, None)
        | Ok (b, file) => Ret (Some (Ok b), Some (file, (λ l, l - Z.of_nat (length b)) <$> limit))
        end) w1 a w1 →
      runs (reader_next path (Some (mkFile (FileEntry i) pos, limit))) w a w1).
  { intros a Ha. simpl. rewrite decide_False by done. apply runs_vis.
    apply runs_vis in Hr. apply runs_ret in Hr as [-> <-]. exact Ha. }
  destruct r as [[b f]|e].
  - destruct Hres as (k & Hb & ->).
    destruct (remaining_split pos limit d k Hp Hl Hz) as (Hl' & Hsp & Hnil).
    rewrite <- Hb in Hl', Hsp, Hnil. destruct b as [|x b].
    + exists [], None, w1. split_and!; [|done|apply prefix_nil| |done].
      * eapply drains_end, Step. by apply runs_ret.
      * intros _. by rewrite Hnil.
    + destruct (IH (length (remaining (pos + Z.of_nat (length (x :: b)))
                   ((λ l, l - Z.of_nat (length (x :: b))) <$> limit) d)))
        with (pos := pos + Z.of_nat (length (x :: b)))
             (limit := (λ l, l - Z.of_nat (length (x :: b))) <$> limit) (w := w1)
        as (cs & oe & w' & D & R' & Hpre & Hok & Hnf); try done.
      * rewrite Hn, Hsp, length_app. simpl. lia.
      * apply R.
      * by rewrite (rc_data _ _ R).
      * lia.
      * exists ((x :: b) :: cs), oe, w'. split_and!.
        -- eapply drains_chunk; [apply Step; by apply runs_ret|exact D].
        -- by eapply reached_trans.
        -- rewrite Hsp. simpl. by apply (prefix_app (x :: b)).
        -- intros Ho. rewrite Hsp. simpl. by rewrite Hok.
        -- intros Hf. by apply Hnf, (rc_faults _ _ R).
  - exists [], (Some (storage_io path e)), w1. split_and!; [|done|apply prefix_nil|done|done].
    eapply drains_err, Step. by apply runs_ret.
Qed.

(** A body that reads an inode: in every state in which the inode holds [d],
    collecting it gives [rest], or an error when a call fails. *)
Definition reads (body : StorageByteStream osE) (w : World) (rest : bytes) : Prop :=
  twp (collect_storage_stream body) (λ r w', reached w w' ∧
    (∀ b, r = Ok b → b = rest) ∧ (no_faults w → r = Ok rest)) w.

Lemma reader_reads path i pos limit hint d w :
  wf w → inode_data w i = Some d → 0 ≤ pos → limit_ok limit → capacity_ok hint →
  reads (mkStorageByteStream (reader_stream path (mkFile (FileEntry i) pos) limit) hint) w
    (remaining pos limit d).
Proof.
  intros Hw Hd Hp Hl Hc.
  destruct (reader_drains path i d _ pos limit w Hw Hd Hp Hl eq_refl)
    as (cs & oe & w' & D & R & _ & Hok & Hnf).
  eexists _, w'. split; [by apply collect_runs|]. split; [done|].
  destruct oe as [e|]; split; try done.
  - intros Hf. by apply Hnf in Hf.
  - intros b [= <-]. by apply Hok.
  - intros _. f_equal. by apply Hok.
Qed.

(** Collecting a body that cannot be read ends with an error. *)
Definition fails (body : StorageByteStream osE) (w : World) : Prop :=
  twp (collect_storage_stream body) (λ r w', reached w w' ∧ ∀ b, r ≠ Ok b) w.

(** A directory can be opened, but not read. *)
Lemma directory_fails path pos limit hint w :
  wf w → limit ≠ Some 0 → capacity_ok hint →
  fails (mkStorageByteStream (reader_stream path (mkFile DirEntry pos) limit) hint) w.
Proof.
  intros Hw Hl Hc.
  assert (Hr : twp (reader_next path (Some (mkFile DirEntry pos, limit))) (λ r w',
    reached w w' ∧ ∃ e, r = (Some (Err e), None)) w).
  { unfold reader_next. rewrite decide_False by done. wp_bind.
    eapply pure_spec; [done|done|..].
    - intros c w1 R. apply twp_ret. split; [done|]. by eexists.
    - intros w1 e R _ _. apply twp_ret. split; [done|]. by eexists. }
  destruct Hr as (r & w' & Hr & R & e & ->).
  eexists _, w'. split; [apply collect_runs with (cs := []) (oe := Some e); [|done]|by split].
  by eapply drains_err.
Qed.

(** ** Lookups *)

Lemma lookup_error_content w p e : wf w → lookup_error w p e → no_faults w → content w p = None.
Proof.
  intros Hw [_ He] Hf. destruct (He Hf) as [E _]. unfold content, file_at.
  apply entry_none_name in E as [-> _]. done.
Qed.

Lemma exists_head_ok self key w :
  wf w → key_safe key →
  twp (blob_exists self key) (λ r w', reached w w' ∧
    match r with
    | Ok b => b = true ↔ is_Some (content w (key_path self key))
    | Err e => (∃ source, e = Io (key_path self key) source) ∧
               (no_faults w → entry_at w (key_path self key) = None ∧
                              missing_kind w (key_path self key) = NotADirectory)
    end) w ∧
  twp (head_blob self key) (λ r w', reached w w' ∧
    match r with
    | Ok None => entry_at w (key_path self key) = None
    | Ok (Some m) => bm_key m = key ∧ entry_at w (key_path self key) ≠ None ∧
        ∀ d, content w (key_path self key) = Some d →
             bm_size_bytes m = Some (Z.of_nat (length d))
    | Err e => (∃ source, e = Io (key_path self key) source) ∧
               (no_faults w → entry_at w (key_path self key) = None ∧
                              missing_kind w (key_path self key) = NotADirectory)
    end) w.
Proof.
  intros Hw Hs. unfold blob_exists, head_blob. rewrite path_for_safe by done.
  set (path := key_path self key).
  assert (M : ∀ w1 md, reached w w1 → metadata_of w1 path md →
    (md_is_file md = true ↔ is_Some (content w path)) ∧ entry_at w path ≠ None ∧
    ∀ d, content w path = Some d → md_len md = Z.of_nat (length d)).
  { intros w1 md R. rewrite <- (reached_content w w1), <- (rc_entry _ _ R) by done.
    unfold metadata_of, content. destruct (entry_at w1 path) as [[|i]|] eqn:E; [| |done].
    - rewrite (entry_no_file w1 path) by (apply R || congruence). intros ->.
      split_and!; [|done|done]. split; [done|]. by intros [? ?].
    - rewrite (proj1 (entry_at_file w1 path i (rc_wf _ _ R)) E).
      intros (nd & Hi & ->). simpl. unfold inode_data. rewrite Hi. simpl.
      split_and!; [|done|by intros ? [= <-]]. split; [by eexists|done]. }
  assert (L : ∀ e, lookup_error w path e → io_kind e ≠ NotFound →
    no_faults w → entry_at w path = None ∧ missing_kind w path = NotADirectory).
  { intros e [_ He] Hk Hf. destruct (He Hf) as [? Hm]. split; [done|]. rewrite Hm in Hk.
    unfold missing_kind in *. by destruct (existsb _ _). }
  split; (eapply twp_seq; [done|by apply metadata_spec|]; intros [md|e] w1 Hw1 [R Hr]).
  - apply twp_ret. split; [done|]. by apply (M w1 md).
  - destruct (decide (io_kind e = NotFound)) as [Hk|Hk]; apply twp_ret; split; try done.
    + apply Hr in Hk. split; [done|]. intros [? Hc%content_Some]. destruct Hc as (i & Hi & _).
      apply entry_at_file in Hi; [congruence|done].
    + split; [by eexists|by eapply L].
  - apply twp_ret. split; [done|]. simpl. destruct (M w1 md R Hr) as (_ & ? & Hlen).
    split_and!; [done..|]. intros d Hd. f_equal. by apply Hlen.
  - destruct (decide (io_kind e = NotFound)) as [Hk|Hk]; apply twp_ret; split; try done.
    + by apply (proj1 Hr).
    + split; [by eexists|by eapply L].
Qed.

Lemma open_blob_spec path missing w :
  wf w →
  twp (open_blob path missing) (λ r w', reached w w' ∧
    match r with
    | Ok f => ∃ e, f = mkFile e 0 ∧ entry_at w path = Some e
    | Err e => (e = MissingBlob missing → entry_at w path = None) ∧
               (no_faults w → entry_at w path = None)
    end) w.
Proof.
  intros Hw. unfold open_blob. eapply twp_seq; [done|by apply open_spec|].
  intros [f|e] w1 Hw1 [R Hr]; [by apply twp_ret|]. destruct Hr as [Hn Hf].
  destruct (decide (io_kind e = NotFound)) as [Hk|Hk]; apply twp_ret; (split; [done|]);
    (split; [|by intros [? _]%Hf]); auto. done.
Qed.

(** A later state, after any operations that write as the provider does. *)
Definition later (w w' : World) : Prop := wf w' ∧ ∃ u P D, grows u P D w w'.

Lemma reads_later body w w1 w2 path i pos limit hint d :
  body = mkStorageByteStream (reader_stream path (mkFile (FileEntry i) pos) limit) hint →
  wf w → inode_data w i = Some d → 0 ≤ pos → limit_ok limit → capacity_ok hint →
  reached w w1 → later w1 w2 → reads body w2 (remaining pos limit d).
Proof.
  intros -> Hw Hd Hp Hl Hc R [Hw2 (u & P & D & G)]. apply reader_reads; try done.
  eapply (grows_data u P D w1); [apply R|done|]. by rewrite (rc_data _ _ R).
Qed.

Lemma entry_content w path d :
  wf w → content w path = Some d →
  ∃ i, entry_at w path = Some (FileEntry i) ∧ inode_data w i = Some d.
Proof. intros Hw (i & Hi & Hd)%content_Some. exists i. by rewrite entry_at_file. Qed.

Lemma entry_directory w path e :
  wf w → content w path = None → entry_at w path = Some e → e = DirEntry.
Proof.
  intros Hw Hc He. destruct e as [|i]; [done|]. apply entry_at_file in He; [|done].
  destruct (file_at_links w path i Hw He) as [nd Hi].
  unfold content in Hc. rewrite He in Hc. simpl in Hc. unfold inode_data in Hc. by rewrite Hi in Hc.
Qed.

Lemma get_blob_ok self key w :
  wf w → key_safe key →
  twp (get_blob self key) (λ r w1, reached w w1 ∧
    match r with
    | Ok body => bb_key body = key ∧ entry_at w (key_path self key) ≠ None ∧
        size_hint (bb_body body) = None ∧
        (content w (key_path self key) = None →
          ∀ w2, later w1 w2 → fails (bb_body body) w2) ∧
        ∀ d, content w (key_path self key) = Some d →
          (bm_size_bytes <$> bb_metadata body) = Some (Some (Z.of_nat (length d))) ∧
          ∀ w2, later w1 w2 → reads (bb_body body) w2 d
    | Err e => (e = MissingBlob key → entry_at w (key_path self key) = None) ∧
               (no_faults w → content w (key_path self key) = None)
    end) w.
Proof.
  intros Hw Hs. unfold get_blob. rewrite path_for_safe by done.
  set (path := key_path self key).
  eapply twp_seq; [done|by apply open_blob_spec|]. intros [f|e] w1 Hw1 [R Hr].
  2: { apply twp_ret. split; [done|]. destruct Hr as [Hm Hf]. split; [done|].
       intros Hnf. specialize (Hf Hnf). unfold content, file_at.
       by apply entry_none_name in Hf as [-> _]. }
  destruct Hr as (e & -> & He).
  eapply twp_seq; [done|by apply exists_head_ok|]. intros [[m|]|err] w2 Hw2 [R2 Hr];
    apply twp_ret; (split; [by eapply reached_trans|]); fold path in Hr;
    rewrite !(rc_entry _ _ R) in Hr.
  - destruct Hr as (Hk & Hne & Hlen).
    do 3 (split; [done|]). split; [intros Hc w3 [Hw3 _]|intros d Hd; simpl].
    { apply entry_directory in He as ->; [|done..]. by apply directory_fails. }
    split; [rewrite (Hlen d); [done|by rewrite (reached_content w w1 path R)]|].
    destruct (entry_content w path d Hw Hd) as (i & Hi & Hdi). intros w3 H3.
    assert (e = FileEntry i) as -> by congruence.
    eapply (reads_later _ w w2 w3 path i 0 None None d); try done.
    by eapply reached_trans.
  - congruence.
  - destruct Hr as ([source ->] & Hr). split; [done|].
    intros Hnf. apply (rc_faults _ _ R) in Hnf. destruct (Hr Hnf). congruence.
Qed.

(** C10: [get_blob] opens a snapshot: the body delivers the content the key
    had when it was opened, in chunks of any size, in every later state,
    however often the key was replaced or deleted since; it fails only when a
    read fails.  The metadata has the length of that content.  [MissingBlob]
    means that the key has no entry, and a key with a file is found unless a
    call fails.  A key that fails validation makes no call. *)
Theorem get_blob_snapshot self key w :
  wf w →
  (¬ key_safe key → runs (get_blob self key) w (Err (InvalidStorageKey key)) w) ∧
  (key_safe key →
   twp (get_blob self key) (λ r w1, reached w w1 ∧
     match r with
     | Ok body => bb_key body = key ∧ size_hint (bb_body body) = None ∧
         ∀ d, content w (key_path self key) = Some d →
           (bm_size_bytes <$> bb_metadata body) = Some (Some (Z.of_nat (length d))) ∧
           ∀ w2, later w1 w2 → reads (bb_body body) w2 d
     | Err e => (e = MissingBlob key → entry_at w (key_path self key) = None) ∧
                (no_faults w → content w (key_path self key) = None)
     end) w).
Proof.
  intros Hw. split.
  - intros H. unfold get_blob. rewrite path_for_unsafe by done. by apply runs_ret.
  - intros Hs. eapply twp_mono; [by apply get_blob_ok|]. intros r w1 [R Hr].
    split; [done|]. destruct r as [body|e]; [|done]. destruct Hr as (? & ? & ? & _ & ?). done.
Qed.

Lemma get_blob_range_ok self key range w :
  wf w → key_safe key → u64_ok (range_start range) → u64_ok (range_end range) →
  twp (get_blob_range self key range) (λ r w1, reached w w1 ∧
    let length := range_end range - range_start range in
    match r with
    | Ok body => 0 ≤ length ∧ bb_key body = key ∧ size_hint (bb_body body) = Some length ∧
        (length ≤ isize_MAX → ∀ d, content w (key_path self key) = Some d → ∀ w2,
           later w1 w2 → reads (bb_body body) w2 (byte_range (range_start range) length d)) ∧
        (0 < length ≤ isize_MAX → content w (key_path self key) = None →
           ∀ w2, later w1 w2 → fails (bb_body body) w2) ∧
        (isize_MAX < length → ∀ w2 a w3, ¬ runs (collect_storage_stream (bb_body body)) w2 a w3)
    | Err e =>
        (length < 0 → e = PreconditionFailed key "range end is before range start") ∧
        (e = MissingBlob key → entry_at w (key_path self key) = None) ∧
        (no_faults w → content w (key_path self key) = None ∨ length < 0 ∨
                       i64_MAX < range_start range)
    end) w.
Proof.
  intros Hw Hs Hu1 Hu2. unfold get_blob_range.
  destruct (Z.ltb_spec (range_end range) (range_start range)) as [Hlt|Hge].
  { apply twp_ret. split; [by apply reached_refl|]. split_and!; [done|done|].
    intros _. right. left. lia. }
  rewrite path_for_safe by done. set (path := key_path self key).
  eapply twp_seq; [done|by apply open_blob_spec|]. intros [f|e] w1 Hw1 [R Hr].
  2: { apply twp_ret. split; [done|]. destruct Hr as [Hm Hf]. split_and!; [lia|done|].
       intros Hnf. left. specialize (Hf Hnf). unfold content, file_at.
       by apply entry_none_name in Hf as [-> _]. }
  destruct Hr as (e & -> & He).
  eapply twp_seq; [done|by apply seek_spec|]. intros [f|err] w2 Hw2 [R2 Hr]; cbn [map_err].
  2: { apply twp_ret. split; [by eapply reached_trans|]. split_and!; [lia|done|].
       intros Hnf. right. right. by apply Hr, (rc_faults _ _ R). }
  destruct Hr as [-> Hmax]. assert (R02 : reached w w2) by by eapply reached_trans.
  eapply twp_seq; [done|by apply exists_head_ok|]. intros [m|err] w3 Hw3 [R3 Hr];
    apply twp_ret; (split; [by eapply reached_trans|]); fold path in Hr.
  - split_and!; [lia|done|done| | |].
    + intros Hlen d Hd w4 H4. destruct (entry_content w path d Hw Hd) as (i & Hi & Hdi).
      assert (e = FileEntry i) as -> by congruence.
      eapply (reads_later _ w w3 w4 path i (range_start range)
                (Some (range_end range - range_start range))
                (Some (range_end range - range_start range)) d); try done.
      * unfold u64_ok in Hu1. lia.
      * simpl. lia.
      * simpl. lia.
      * by eapply reached_trans.
    + intros Hlen Hc w4 [Hw4 _]. apply entry_directory in He as ->; [|done..].
      apply directory_fails; [done|injection|simpl; lia]. lia.
    + intros Hlen w4 a w5. eapply collect_capacity_panic; [done|zbounds].
  - destruct Hr as ([source ->] & Hr). split_and!; [lia|done|].
    intros Hnf. left. apply (rc_faults _ _ R02) in Hnf. destruct (Hr Hnf) as [Hn _].
    rewrite (rc_entry _ _ R02) in Hn. congruence.
Qed.

(** C28: [get_blob_range] delivers exactly the bytes of the range that the
    file has, from the same kind of snapshot, with the length of the range as
    its size hint; a range whose end is before its start is refused before
    any call. *)
Theorem get_blob_range_spec self key range w :
  wf w → key_safe key → u64_ok (range_start range) → u64_ok (range_end range) →
  twp (get_blob_range self key range) (λ r w1, reached w w1 ∧
    let length := range_end range - range_start range in
    match r with
    | Ok body => 0 ≤ length ∧ bb_key body = key ∧ size_hint (bb_body body) = Some length ∧
        (length ≤ isize_MAX → ∀ d, content w (key_path self key) = Some d → ∀ w2,
           later w1 w2 → reads (bb_body body) w2 (byte_range (range_start range) length d)) ∧
        (isize_MAX < length → ∀ w2 a w3, ¬ runs (collect_storage_stream (bb_body body)) w2 a w3)
    | Err e =>
        (length < 0 → e = PreconditionFailed key "range end is before range start") ∧
        (e = MissingBlob key → entry_at w (key_path self key) = None) ∧
        (no_faults w → content w (key_path self key) = None ∨ length < 0 ∨
                       i64_MAX < range_start range)
    end) w.
Proof.
  intros Hw Hs Hu1 Hu2. eapply twp_mono; [by apply get_blob_range_ok|].
  intros [body|e] w1 [R Hr]; (split; [done|]); [|done].
  destruct Hr as (? & ? & ? & ? & _ & ?). by split_and!.
Qed.

(** [blob_exists] says whether the key has a file, and [head_blob] whether
    it has an entry, with the length of the file; both leave the file system
    alone and are errors only when a call fails or a file stands where a
    directory of the key is needed.  They differ on directories: for a key
    that names one, [blob_exists] is [false] and [head_blob] is [Some]. *)
Theorem exists_head_spec self key w :
  wf w → key_safe key →
  twp (blob_exists self key) (λ r w', reached w w' ∧
    match r with
    | Ok b => b = true ↔ is_Some (content w (key_path self key))
    | Err e => no_faults w → misplaced w (key_path self key)
    end) w ∧
  twp (head_blob self key) (λ r w', reached w w' ∧
    match r with
    | Ok None => entry_at w (key_path self key) = None
    | Ok (Some m) => bm_key m = key ∧ entry_at w (key_path self key) ≠ None ∧
        ∀ d, content w (key_path self key) = Some d →
             bm_size_bytes m = Some (Z.of_nat (length d))
    | Err e => no_faults w → misplaced w (key_path self key)
    end) w ∧
  (is_dir w (key_path self key) → no_faults w →
   twp (blob_exists self key) (λ r _, r = Ok false) w ∧
   twp (head_blob self key) (λ r _, ∃ m, r = Ok (Some m)) w).
Proof.
  intros Hw Hs. destruct (exists_head_ok self key w Hw Hs) as [He Hh]. split_and!.
  - eapply twp_mono; [exact He|]. intros r w' [R Hr]. split; [done|].
    destruct r; [done|apply Hr].
  - eapply twp_mono; [exact Hh|]. intros r w' [R Hr]. split; [done|].
    destruct r; [done|apply Hr].
  - intros Hd Hnf. split.
    + eapply twp_mono; [exact He|]. intros r w' [R Hr]. destruct r as [[]|e]; [|done|].
      * destruct (proj1 Hr eq_refl) as [d Hc]. destruct (entry_content _ _ _ Hw Hc) as (i & Hi & _).
        unfold is_dir in Hd. congruence.
      * destruct Hr as [_ Hr]. destruct (Hr Hnf) as [Hn _]. unfold is_dir in Hd. congruence.
    + eapply twp_mono; [exact Hh|]. intros r w' [R Hr]. destruct r as [[m|]|e]; [by exists m| |].
      * unfold is_dir in Hd. congruence.
      * destruct Hr as [_ Hr]. destruct (Hr Hnf) as [Hn _]. unfold is_dir in Hd. congruence.
Qed.
End Reading.
