(* ===== verification/ServiceFacts.v ===== *)
(** * The storage service: correctness against an interface

    [BlobStoreSpec] states what a provider promises to [StorageService]: an
    invariant of its states and the content of every blob as a [view], and what
    each operation does to the view.  The theorems about the service are proved
    from the promises alone; LocalService.v shows that the local provider keeps
    them. *)
From S2P Require Import Prelude Text Errors Providers Externals Keys Effects Streams BlobStore Objects Service.
Section Interface.
Context `{EX : Externals} {E : Type → Type} {W : Type} `{H : Handler E W}.
Context `{SC : !ServiceCalls E} `{OS : !ObjectStorage E}.

(** [I n] holds of the states between operations in which [n] more UUIDs are
    known to be new; [view w key] is the content of a blob; the promises are
    about the keys of [ok_key].  A provider is [lossy] if an operation that
    took effect may be reported as failed, because its answer was lost. *)
Class BlobStoreSpec (I : nat → W → Prop) (view : W → string → option bytes)
    (ok_key : string → Prop) (lossy : Prop) : Prop := {
  spec_new_v4 : ∀ n w, I (S n) w →
    twp (call new_v4) (λ _ w', I n w' ∧ ∀ k, view w' k = view w k) w;
  spec_now_utc : ∀ n w, I n w →
    twp (call now_utc) (λ _ w', I n w' ∧ ∀ k, view w' k = view w k) w;
  spec_put_blob : ∀ n key body cs oe options w,
    I (S n) w → ok_key key → body_of body cs oe →
    twp (put_blob key body options) (λ r w', I n w' ∧
      (∀ k, ok_key k → k ≠ key → view w' k = view w k) ∧
      match r with
      | Ok o => oe = None ∧ view w' key = Some (concat cs) ∧ o = outcome_of cs
      | Err _ => view w' key = view w key ∨
          (lossy ∧ oe = None ∧ view w' key = Some (concat cs))
      end) w;
  spec_get_blob : ∀ n key w, I n w → ok_key key →
    twp (get_blob key) (λ r w', I n w' ∧ (∀ k, view w' k = view w k) ∧
      match r with
      | Ok body => ∀ d, view w key = Some d →
          twp (collect_storage_stream (bb_body body)) (λ r w'', I n w'' ∧
            (∀ k, view w'' k = view w k) ∧ ∀ b, r = Ok b → b = d) w'
      | Err e => e = MissingBlob key → view w key = None
      end) w;
  spec_blob_exists : ∀ n key w, I n w → ok_key key →
    twp (blob_exists key) (λ r w', I n w' ∧ (∀ k, view w' k = view w k) ∧
      ∀ b, r = Ok b → b = true ↔ is_Some (view w key)) w;
  spec_delete_object : ∀ n object w, I n w → ok_key (so_storage_key object) →
    twp (delete_object object) (λ r w', I n w' ∧
      (∀ k, ok_key k → k ≠ so_storage_key object → view w' k = view w k) ∧
      match r with
      | Ok _ => view w' (so_storage_key object) = None
      | Err _ => view w' (so_storage_key object) = view w (so_storage_key object) ∨
          (lossy ∧ view w' (so_storage_key object) = None)
      end) w;
}.

(** The promises about fewer keys. *)
Lemma spec_restrict (I : nat → W → Prop) (view : W → string → option bytes)
    (ok_key ok_key' : string → Prop) (lossy : Prop) :
  (∀ k, ok_key' k → ok_key k) →
  BlobStoreSpec I view ok_key lossy → BlobStoreSpec I view ok_key' lossy.
Proof.
  intros Hk [s1 s2 s3 s4 s5 s6]. constructor; [done|done|..].
  - intros n key body cs oe options w HI Hok Hb. eapply twp_mono; [by apply s3; auto|].
    intros r w' (? & Hs & ?). split_and!; auto.
  - auto.
  - auto.
  - intros n object w HI Hok. eapply twp_mono; [by apply s6; auto|].
    intros r w' (? & Hs & ?). split_and!; auto.
Qed.
End Interface.

Section Service.
Context `{EX : Externals} `{XL : !ExternalsLaws} {E : Type → Type} {W : Type} `{H : Handler E W}.
Context `{SC : !ServiceCalls E} `{OS : !ObjectStorage E}.
Context {I : nat → W → Prop} {view : W → string → option bytes} {ok_key : string → Prop}.
Context {lossy : Prop} `{BS : !BlobStoreSpec I view ok_key lossy}.

(** The keys the service may generate for a file name are keys the provider's
    promises are about. *)
Definition good_name (ns : StorageNamespace) (file_name : option string) : Prop :=
  ∀ u key, build_storage_key ns u (file_name ≫= file_extension) = Some key → ok_key key.

(** The record built for a request. *)
Definition record_of (request : StoragePutStreamRequest E) (object : StoredObject) : Prop :=
  so_namespace object = sps_namespace request ∧ so_backend object = bs_backend ∧
  so_original_file_name object = sps_file_name request ∧
  so_mime_type object = sps_mime_type request ∧
  build_storage_key (so_namespace object) (so_object_id object)
    (sps_file_name request ≫= file_extension) = Some (so_storage_key object).

Lemma build_stream_stored_object_spec n request w :
  I (S n) w →
  twp (build_stream_stored_object bs_backend request) (λ object w',
    I n w' ∧ (∀ k, view w' k = view w k) ∧ record_of request object) w.
Proof.
  intros HI. unfold build_stream_stored_object. wp_bind.
  eapply twp_mono; [by apply spec_new_v4|]. intros u w1 (HI1 & V1).
  destruct (generated_key_shape (sps_namespace request) u (sps_file_name request))
    as (key & Hk & _). rewrite Hk.
  wp_bind. eapply twp_mono; [by apply spec_now_utc|]. intros t w2 (HI2 & V2).
  wp_ret. split_and!; [done|by intros k; rewrite V2|by unfold record_of].
Qed.

(** C12: storing a stream through the service writes the whole body under a
    new valid key and records its size and SHA-256; no other blob changes.
    Reading the returned object gives the body back, unless the provider fails.
    An error leaves every blob as it was, but for a provider that may lose the
    answer of a successful put: then the whole body is under the new key. *)
Theorem service_put_stream n request cs oe w :
  I (S (S n)) w → good_name (sps_namespace request) (sps_file_name request) →
  body_of (sps_body request) cs oe →
  twp (StorageService.put_object_stream request) (λ r w1, I n w1 ∧
    match r with
    | Ok object =>
        oe = None ∧ record_of request object ∧
        validate_blob_key (so_storage_key object) = Ok tt ∧
        so_size_bytes object = Z.min (Z.of_nat (length (concat cs))) u64_MAX ∧
        so_sha256_hex object = sha256_hex (concat cs) ∧
        view w1 (so_storage_key object) = Some (concat cs) ∧
        (∀ k, ok_key k → k ≠ so_storage_key object → view w1 k = view w k) ∧
        twp (StorageService.get_object object) (λ r' w2, I n w2 ∧
          (∀ k, view w2 k = view w1 k) ∧
          ∀ body, r' = Ok body → body = mkStorageObjectBody object (concat cs)) w1
    | Err _ => ∃ object, record_of request object ∧
        (∀ k, ok_key k → k ≠ so_storage_key object → view w1 k = view w k) ∧
        (view w1 (so_storage_key object) = view w (so_storage_key object) ∨
         (lossy ∧ oe = None ∧ view w1 (so_storage_key object) = Some (concat cs)))
    end) w.
Proof.
  intros HI Hn Hb. unfold StorageService.put_object_stream. wp_bind.
  eapply twp_mono; [by apply build_stream_stored_object_spec|].
  intros object w1 (HI1 & V1 & Hrec).
  assert (Hrec' := Hrec). destruct Hrec' as (Hns & _ & _ & _ & Hkey).
  assert (Hok : ok_key (so_storage_key object)).
  { rewrite Hns in Hkey. by eapply Hn. }
  wp_bind. eapply twp_mono; [by apply spec_put_blob|].
  intros [o|e] w2 (HI2 & V2 & Hr); wp_ret; (split; [done|]).
  - destruct Hr as (-> & Hv & ->). simpl.
    split_and!; [done|exact Hrec| | | |done| |].
    + destruct (generated_key_shape (so_namespace object) (so_object_id object)
        (sps_file_name request)) as (key & Hk & Hval & _). congruence.
    + apply size_of_concat.
    + apply sha256_of_concat.
    + intros k Hk Hne. by rewrite V2, V1.
    + unfold StorageService.get_object, StorageService.get_object_stream. wp_bind. wp_bind.
      eapply twp_mono; [by apply (spec_get_blob n (so_storage_key object))|].
      intros [b|e] w3 (HI3 & V3 & Hg); wp_ret.
      * wp_bind. eapply twp_mono; [by apply Hg|]. intros [d|e] w4 (HI4 & V4 & Hd); wp_ret.
        -- split_and!; [done|done|]. intros body [= <-]. by rewrite (Hd d).
        -- by split_and!.
      * wp_ret. by split_and!.
  - exists object. rewrite V1 in Hr. split_and!; [done| |done].
    intros k Hk Hne. by rewrite V2, V1.
Qed.
End Service.
