(* ===== verification/History.v ===== *)
(** * Histories of a blob store

    A blob store, whatever the provider, is a map from keys to contents.  The
    reference [effect] says what each request does to the map; [step] adds what
    a provider may do besides: fail, and lose the answer of a request that took
    effect.  [BlobStoreLaws] is what the theorem needs of a provider, and the
    theorem says that a sequence of requests of any length is a path of the
    reference. *)
From S2P Require Import Prelude Text Errors Providers Externals Keys Effects Streams BlobStore Objects Service ServiceFacts.

(** ** The reference *)

Inductive request : Type :=
| Put (key : string) (chunks : list bytes) (failure : option StorageError)
| Create (key : string) (chunks : list bytes) (failure : option StorageError)
| Get (key : string)
| GetRange (key : string) (start end_ : Z)
| Exists (key : string)
| Delete (key : string)
| Copy (from to : string).

Inductive answer : Type :=
| Stored (outcome : BlobWriteOutcome)
| Taken
| Found (content : bytes)
| Missing
| Present (b : bool)
| Deleted
| Copied
| Failed.

Section Reference.
Context `{EX : Externals}.

Definition stored_if (failure : option StorageError) (key : string) (chunks : list bytes)
    (m : gmap string bytes) : answer * gmap string bytes :=
  match failure with
  | None => (Stored (outcome_of chunks), <[key:=concat chunks]> m)
  | Some _ => (Failed, m)
  end.

(** What a request does. *)
Definition effect (m : gmap string bytes) (r : request) : answer * gmap string bytes :=
  match r with
  | Put key chunks failure => stored_if failure key chunks m
  | Create key chunks failure =>
      match m !! key with Some _ => (Taken, m) | None => stored_if failure key chunks m end
  | Get key => (match m !! key with Some b => Found b | None => Missing end, m)
  | GetRange key start end_ =>
      (match m !! key with Some b => Found (byte_range start (end_ - start) b) | None => Missing end, m)
  | Exists key => (Present (bool_decide (is_Some (m !! key))), m)
  | Delete key => (Deleted, delete key m)
  | Copy from to => match m !! from with Some b => (Copied, <[to:=b]> m) | None => (Missing, m) end
  end.

Fixpoint effects (m : gmap string bytes) (rs : list request) : list answer * gmap string bytes :=
  match rs with
  | [] => ([], m)
  | r :: rs =>
      let '(a, m1) := effect m r in
      let '(l, m2) := effects m1 rs in (a :: l, m2)
  end.

(** What a provider does: it is [lossy] if a failure may follow the effect, and
    [hierarchical] if a key may be taken by a directory. *)
Inductive step (lossy hierarchical : Prop) (m : gmap string bytes) :
    request → answer → gmap string bytes → Prop :=
| step_done r : step lossy hierarchical m r (effect m r).1 (effect m r).2
| step_failed r : step lossy hierarchical m r Failed m
| step_lost r : lossy → step lossy hierarchical m r Failed (effect m r).2
| step_self key chunks failure : lossy →
    step lossy hierarchical m (Create key chunks failure) Taken
      (effect m (Create key chunks failure)).2
| step_directory key chunks failure : hierarchical →
    step lossy hierarchical m (Create key chunks failure) Taken m.

Inductive steps (lossy hierarchical : Prop) (m : gmap string bytes) :
    list request → list answer → gmap string bytes → Prop :=
| steps_nil : steps lossy hierarchical m [] [] m
| steps_cons r rs a l m1 m2 : step lossy hierarchical m r a m1 → steps lossy hierarchical m1 rs l m2 →
    steps lossy hierarchical m (r :: rs) (a :: l) m2.

(** A clear answer: neither a failure nor a refusal. *)
Definition clear (a : answer) : Prop := a ≠ Failed ∧ a ≠ Taken.

Lemma step_clear lossy hierarchical m r a m' :
  step lossy hierarchical m r a m' → clear a → effect m r = (a, m').
Proof. intros [] [Hf Ht]; [apply surjective_pairing|done..]. Qed.

(** Where every answer is clear the history is the reference's. *)
Lemma steps_effects lossy hierarchical m rs l m' :
  steps lossy hierarchical m rs l m' → Forall clear l → effects m rs = (l, m').
Proof.
  induction 1 as [|r rs a l m m1 m2 Hs _ IH]; intros Hc; [done|].
  apply Forall_cons in Hc as [Ha Hl]. simpl.
  by rewrite (step_clear _ _ _ _ _ _ Hs Ha), (IH Hl).
Qed.
End Reference.

(** ** What a provider does for a request *)

Section Perform.
Context `{EX : Externals} {E : Type → Type} `{BS : !BlobStore E}.

(** A body with the chunks, that may fail after them. *)
Definition request_body (chunks : list bytes) (failure : option StorageError) : StorageByteStream E :=
  stream_new (stream_iter (map Ok chunks ++ match failure with Some e => [Err e] | None => [] end)).

Definition read_body (key : string) (r : storage_result (BlobBody E)) : prog E answer :=
  match r with
  | Err (MissingBlob k) => Ret (if String.eqb k key then Missing else Failed)
  | Err _ => Ret Failed
  | Ok body =>
      let* b := collect_storage_stream (bb_body body) in
      Ret (match b with Ok b => Found b | Err _ => Failed end)
  end.

(** A client that issues a request and reads the whole answer. *)
Definition perform (r : request) : prog E answer :=
  match r with
  | Put key chunks failure =>
      let* o := put_blob key (request_body chunks failure) default_put_options in
      Ret (match o with Ok o => Stored o | Err _ => Failed end)
  | Create key chunks failure =>
      let* o := put_blob_if_not_exists key (request_body chunks failure) default_put_options in
      Ret (match o with Ok (Some o) => Stored o | Ok None => Taken | Err _ => Failed end)
  | Get key => let* body := get_blob key in read_body key body
  | GetRange key start end_ => let* body := get_blob_range key (mkRange start end_) in read_body key body
  | Exists key =>
      let* b := blob_exists key in
      Ret (match b with Ok b => Present b | Err _ => Failed end)
  | Delete key =>
      let* d := delete_blob key in
      Ret (match d with Ok _ => Deleted | Err _ => Failed end)
  | Copy from to =>
      let* c := copy_blob from to in
      Ret (match c with Ok _ => Copied | Err _ => Failed end)
  end.

Fixpoint perform_all (rs : list request) : prog E (list answer) :=
  match rs with
  | [] => Ret []
  | r :: rs =>
      let* a := perform r in
      let* l := perform_all rs in
      Ret (a :: l)
  end.
End Perform.

Lemma request_body_of `{EX : Externals} {E W} `{H : Handler E W} chunks failure :
  body_of (E := E) (W := W) (request_body chunks failure) chunks failure.
Proof.
  split; [|intros st w; by apply runs_ret].
  unfold request_body. simpl. induction chunks as [|c cs IH]; simpl.
  - destruct failure as [e|]; [eapply supplies_err|eapply supplies_end]; intros w; by apply runs_ret.
  - eapply supplies_chunk; [|exact IH]. intros w. by apply runs_ret.
Qed.

(** ** What the theorem needs of a provider *)

(** A range that holds at least a byte and can be collected. *)
Definition range_good (s e : Z) : Prop := 0 ≤ s < e ∧ e ≤ u64_MAX ∧ e - s ≤ isize_MAX.

Section Laws.
Context `{EX : Externals} {E : Type → Type} {W : Type} `{H : Handler E W}.
Context `{SC : !ServiceCalls E} `{OS : !ObjectStorage E}.

(** Every blob is as it was. *)
Definition same_view (view : W → string → option bytes) (w w' : W) : Prop := ∀ k, view w' k = view w k.

(** Every blob but that of the key is as it was. *)
Definition same_but (view : W → string → option bytes) (ok_key : string → Prop) (key : string)
    (w w' : W) : Prop :=
  ∀ k, ok_key k → k ≠ key → view w' k = view w k.

(** [BlobStoreSpec] and the rest of the trait's operations on one key. *)
Class BlobStoreLaws (I : nat → W → Prop) (view : W → string → option bytes)
    (ok_key : string → Prop) (lossy hierarchical : Prop) : Prop := {
  laws_service :: BlobStoreSpec I view ok_key lossy;
  laws_weaken : ∀ n w, I (S n) w → I n w;
  laws_create : ∀ n key body cs oe options w,
    I (S n) w → ok_key key → body_of body cs oe →
    twp (put_blob_if_not_exists key body options) (λ r w', I n w' ∧ same_but view ok_key key w w' ∧
      let written := oe = None ∧ view w key = None ∧ view w' key = Some (concat cs) in
      match r with
      | Ok (Some o) => written ∧ o = outcome_of cs
      | Ok None => (view w' key = view w key ∧ (is_Some (view w key) ∨ hierarchical)) ∨
          (lossy ∧ written)
      | Err _ => view w' key = view w key ∨ (lossy ∧ written)
      end) w;
  laws_get : ∀ n key w, I n w → ok_key key →
    twp (get_blob key) (λ r w', I n w' ∧ same_view view w w' ∧
      match r with
      | Ok body => twp (collect_storage_stream (bb_body body)) (λ r w'', I n w'' ∧
          same_view view w w'' ∧ ∀ b, r = Ok b → view w key = Some b) w'
      | Err e => e = MissingBlob key → view w key = None
      end) w;
  laws_range : ∀ n key s e w, I n w → ok_key key → range_good s e →
    twp (get_blob_range key (mkRange s e)) (λ r w', I n w' ∧ same_view view w w' ∧
      match r with
      | Ok body => twp (collect_storage_stream (bb_body body)) (λ r w'', I n w'' ∧
          same_view view w w'' ∧
          ∀ b, r = Ok b → ∃ d, view w key = Some d ∧ b = byte_range s (e - s) d) w'
      | Err e => e = MissingBlob key → view w key = None
      end) w;
  laws_delete : ∀ n key w, I n w → ok_key key →
    twp (delete_blob key) (λ r w', I n w' ∧ same_but view ok_key key w w' ∧
      match r with
      | Ok _ => view w' key = None
      | Err _ => view w' key = view w key ∨ (lossy ∧ view w' key = None)
      end) w;
  laws_copy : ∀ n from to w, I (S n) w → ok_key from → ok_key to →
    twp (copy_blob from to) (λ r w', I n w' ∧ same_but view ok_key to w w' ∧
      let copied := ∃ d, view w from = Some d ∧ view w' to = Some d in
      match r with
      | Ok _ => copied
      | Err _ => view w' to = view w to ∨ (lossy ∧ copied)
      end) w;
}.
End Laws.

(** ** Refinement *)

Section Refinement.
Context `{EX : Externals} {E : Type → Type} {W : Type} `{H : Handler E W}.
Context `{SC : !ServiceCalls E} `{OS : !ObjectStorage E}.
Context {I : nat → W → Prop} {view : W → string → option bytes} {ok_key : string → Prop}.
Context {lossy hierarchical : Prop} `{BL : !BlobStoreLaws I view ok_key lossy hierarchical}.

(** The keys of the requests are those the provider's promises are about. *)
Definition request_ok (r : request) : Prop :=
  match r with
  | Put k _ _ | Create k _ _ | Get k | Exists k | Delete k => ok_key k
  | GetRange k s e => ok_key k ∧ range_good s e
  | Copy from to => ok_key from ∧ ok_key to
  end.

(** The map holds the blobs of the state. *)
Definition represents (m : gmap string bytes) (w : W) : Prop := ∀ k, ok_key k → view w k = m !! k.

Lemma represents_same m w w' : represents m w → same_view view w w' → represents m w'.
Proof. intros R Hs k Hk. by rewrite Hs, R. Qed.

Lemma represents_kept m w w' key :
  represents m w → same_but view ok_key key w w' → view w' key = view w key → represents m w'.
Proof.
  intros R Hs He k Hk. destruct (decide (k = key)) as [->|Hne]; [by rewrite He, R|by rewrite Hs, R].
Qed.

Lemma represents_insert m w w' key d :
  represents m w → same_but view ok_key key w w' → view w' key = Some d → represents (<[key:=d]> m) w'.
Proof.
  intros R Hs He k Hk. destruct (decide (k = key)) as [->|Hne].
  - by rewrite He, lookup_insert_eq.
  - rewrite lookup_insert_ne by done. by rewrite Hs, R.
Qed.

Lemma represents_delete m w w' key :
  represents m w → same_but view ok_key key w w' → view w' key = None → represents (delete key m) w'.
Proof.
  intros R Hs He k Hk. destruct (decide (k = key)) as [->|Hne].
  - by rewrite He, lookup_delete_eq.
  - rewrite lookup_delete_ne by done. by rewrite Hs, R.
Qed.

(** A request ends in a state that the reference explains. *)
Definition explained (n : nat) (m : gmap string bytes) (r : request) (a : answer) (w' : W) : Prop :=
  I n w' ∧ ∃ m', step lossy hierarchical m r a m' ∧ represents m' w'.

Lemma explained_done n m r a m' w' :
  I n w' → effect m r = (a, m') → represents m' w' → explained n m r a w'.
Proof.
  intros HI He R. split; [done|]. exists m'. split; [|done].
  pose proof (step_done lossy hierarchical m r) as Hs. by rewrite He in Hs.
Qed.

Lemma explained_failed n m r w' : I n w' → represents m w' → explained n m r Failed w'.
Proof. intros HI R. split; [done|]. exists m. split; [by constructor|done]. Qed.

Lemma explained_lost n m r m' w' :
  lossy → I n w' → (effect m r).2 = m' → represents m' w' → explained n m r Failed w'.
Proof. intros L HI <- R. split; [done|]. eexists. split; [by apply step_lost|done]. Qed.

Lemma put_explained n m key cs oe w :
  I (S n) w → ok_key key → represents m w →
  twp (perform (Put key cs oe)) (explained n m (Put key cs oe)) w.
Proof.
  intros HI Hk R. simpl. wp_bind. eapply twp_mono.
  { apply spec_put_blob; [done|done|apply request_body_of]. }
  intros [o|e] w' (HI' & Hs & Hr); wp_ret.
  - destruct Hr as (-> & Hv & ->). eapply explained_done; [done|done|by eapply represents_insert].
  - destruct Hr as [Hv|(L & -> & Hv)].
    + apply explained_failed; [done|by eapply represents_kept].
    + eapply explained_lost; [done|done|done|by eapply represents_insert].
Qed.

Lemma create_explained n m key cs oe w :
  I (S n) w → ok_key key → represents m w →
  twp (perform (Create key cs oe)) (explained n m (Create key cs oe)) w.
Proof.
  intros HI Hk R. simpl. wp_bind. eapply twp_mono.
  { apply laws_create; [done|done|apply request_body_of]. }
  intros r w' (HI' & Hs & Hr); wp_ret.
  assert (Hw : oe = None ∧ view w key = None ∧ view w' key = Some (concat cs) →
    effect m (Create key cs oe) = (Stored (outcome_of cs), <[key:=concat cs]> m) ∧
    represents (<[key:=concat cs]> m) w').
  { intros (-> & Hn & Hv). simpl. rewrite <- R, Hn by done. split; [done|]. by eapply represents_insert. }
  assert (Hsame : view w' key = view w key → represents m w') by (intros; by eapply represents_kept).
  destruct r as [[o|]|e].
  - destruct Hr as [Hr ->]. apply Hw in Hr as [He R']. by eapply explained_done.
  - destruct Hr as [[Hv Ht]|[L Hr]].
    + split; [done|]. exists m. split; [|by apply Hsame]. destruct Ht as [[d Hd]|Ht]; [|by apply step_directory].
      rewrite R in Hd by done. pose proof (step_done lossy hierarchical m (Create key cs oe)) as Hs'.
      simpl in Hs'. by rewrite Hd in Hs'.
    + apply Hw in Hr as [He R']. split; [done|]. exists (<[key:=concat cs]> m). split; [|done].
      pose proof (step_self lossy hierarchical m key cs oe L) as Hs'. by rewrite He in Hs'.
  - destruct Hr as [Hv|[L Hr]]; [apply explained_failed; [done|by apply Hsame]|].
    apply Hw in Hr as [He R']. eapply explained_lost; [done|done| |done]. by rewrite He.
Qed.

(** A read of the whole answer. *)
Lemma read_explained n m r key body w w' :
  I n w → represents m w → (effect m r).2 = m → I n w' → same_view view w w' →
  match body with
  | Ok body => twp (collect_storage_stream (bb_body body)) (λ x w'', I n w'' ∧ same_view view w w'' ∧
      ∀ b, x = Ok b → (effect m r).1 = Found b) w'
  | Err e => e = MissingBlob key → (effect m r).1 = Missing
  end →
  twp (read_body key body) (explained n m r) w'.
Proof.
  intros HI R Hm HI' Hs Hb. destruct (effect m r) as [a m'] eqn:He. simpl in *. subst m'.
  assert (R' : represents m w') by by eapply represents_same.
  destruct body as [body|e]; cbn [read_body].
  - wp_bind. eapply twp_mono; [exact Hb|]. intros [b|e] w'' (HI2 & Hs2 & Hd); wp_ret.
    + specialize (Hd b eq_refl) as ->. eapply explained_done; [done|exact He|exact (represents_same _ _ _ R Hs2)].
    + apply explained_failed; [done|exact (represents_same _ _ _ R Hs2)].
  - destruct e; try (wp_ret; by apply explained_failed). wp_ret.
    destruct (String.eqb_spec key0 key) as [->|_]; [|by apply explained_failed].
    rewrite (Hb eq_refl) in He. by eapply explained_done.
Qed.

Lemma get_explained n m key w :
  I n w → ok_key key → represents m w → twp (perform (Get key)) (explained n m (Get key)) w.
Proof.
  intros HI Hk R. simpl. wp_bind. eapply twp_mono; [by apply laws_get|].
  intros r w' (HI' & Hs & Hr). apply (read_explained n m _ key r w w'); [done..|].
  destruct r as [body|e]; simpl; rewrite <- R by done.
  - eapply twp_mono; [exact Hr|]. intros x w'' (? & ? & Hb). split; [done|]. split; [done|].
    intros b ->. by rewrite (Hb b).
  - intros ->. by rewrite Hr.
Qed.

Lemma range_explained n m key s e w :
  I n w → ok_key key → range_good s e → represents m w →
  twp (perform (GetRange key s e)) (explained n m (GetRange key s e)) w.
Proof.
  intros HI Hk Hg R. simpl. wp_bind. eapply twp_mono; [by apply laws_range|].
  intros r w' (HI' & Hs & Hr). apply (read_explained n m _ key r w w'); [done..|].
  destruct r as [body|x]; simpl; rewrite <- R by done.
  - eapply twp_mono; [exact Hr|]. intros x w'' (? & ? & Hb). split; [done|]. split; [done|].
    intros b ->. destruct (Hb b eq_refl) as (d & -> & ->). done.
  - intros ->. by rewrite Hr.
Qed.

Lemma exists_explained n m key w :
  I n w → ok_key key → represents m w → twp (perform (Exists key)) (explained n m (Exists key)) w.
Proof.
  intros HI Hk R. simpl. wp_bind. eapply twp_mono; [by apply spec_blob_exists|].
  intros [b|e] w' (HI' & Hs & Hb); wp_ret; [|by apply explained_failed; [|eapply represents_same]].
  eapply explained_done; [done| |by eapply represents_same]. simpl. do 2 f_equal.
  specialize (Hb b eq_refl). rewrite R in Hb by done. destruct b; case_bool_decide; naive_solver.
Qed.

Lemma delete_explained n m key w :
  I n w → ok_key key → represents m w → twp (perform (Delete key)) (explained n m (Delete key)) w.
Proof.
  intros HI Hk R. simpl. wp_bind. eapply twp_mono; [by apply laws_delete|].
  intros [[]|e] w' (HI' & Hs & Hr); wp_ret.
  - eapply explained_done; [done|done|by eapply represents_delete].
  - destruct Hr as [Hv|[L Hv]].
    + apply explained_failed; [done|by eapply represents_kept].
    + eapply explained_lost; [done|done|done|by eapply represents_delete].
Qed.

Lemma copy_explained n m from to w :
  I (S n) w → ok_key from → ok_key to → represents m w →
  twp (perform (Copy from to)) (explained n m (Copy from to)) w.
Proof.
  intros HI Hf Ht R. simpl. wp_bind. eapply twp_mono; [by apply laws_copy|].
  intros r w' (HI' & Hs & Hr); wp_ret.
  assert (Hc : (∃ d, view w from = Some d ∧ view w' to = Some d) → ∃ d,
    effect m (Copy from to) = (Copied, <[to:=d]> m) ∧ represents (<[to:=d]> m) w').
  { intros (d & Hd & Hd'). exists d. simpl. rewrite <- R, Hd by done. split; [done|].
    by eapply represents_insert. }
  destruct r as [[]|e].
  - destruct (Hc Hr) as (d & He & R'). by eapply explained_done.
  - destruct Hr as [Hv|[L Hr]]; [apply explained_failed; [done|by eapply represents_kept]|].
    destruct (Hc Hr) as (d & He & R'). eapply explained_lost; [done|done| |done]. by rewrite He.
Qed.

Lemma perform_explained n m r w :
  I (S n) w → request_ok r → represents m w → twp (perform r) (explained n m r) w.
Proof.
  intros HI Hr R. pose proof (laws_weaken n w HI) as HI'.
  destruct r; simpl in Hr.
  - by apply put_explained.
  - by apply create_explained.
  - by apply get_explained.
  - destruct Hr. by apply range_explained.
  - by apply exists_explained.
  - by apply delete_explained.
  - destruct Hr. by apply copy_explained.
Qed.

(** Any provider that keeps its promises refines the reference: a client
    that issues any sequence of requests on valid keys gets all its answers,
    and the answers and the blobs are those of a path of the reference, in
    which a request that failed had no effect, or its whole effect on a provider
    that may lose an answer.  So if every answer is clear - no failure, and no
    refusal of a conditional put - the answers and the blobs are exactly those
    of the reference. *)
Lemma history_refines n m rs w :
  I (length rs + n)%nat w → Forall request_ok rs → represents m w →
  twp (perform_all rs) (λ answers w', I n w' ∧
    ∃ m', steps lossy hierarchical m rs answers m' ∧ represents m' w' ∧
      (Forall clear answers → effects m rs = (answers, m'))) w.
Proof.
  intros HI Hrs R.
  apply (twp_mono _ (λ answers w', I n w' ∧
    ∃ m', steps lossy hierarchical m rs answers m' ∧ represents m' w')).
  2: { intros l w' (HI' & m' & Hs & R'). split; [done|]. exists m'. split; [done|]. split; [done|].
       by eapply steps_effects. }
  revert m w HI R. induction Hrs as [|r rs Hr _ IH]; intros m w HI R; simpl.
  - wp_ret. split; [done|]. exists m. split; [constructor|done].
  - wp_bind. eapply twp_mono; [by apply (perform_explained (length rs + n))|].
    intros a w1 (HI1 & m1 & Hs1 & R1). wp_bind. eapply twp_mono; [by apply IH|].
    intros l w2 (HI2 & m2 & Hs2 & R2). wp_ret. split; [done|]. exists m2. split; [|done].
    by econstructor.
Qed.
End Refinement.
