(* ===== verification/S3Service.v ===== *)
(** * The S3 provider keeps the promises the service relies on

    The instance of [BlobStoreSpec] for [S3StorageBackend], which may lose the
    answer of a request that succeeded. *)
From S2P Require Import Prelude Text Errors Providers Externals Keys Effects Streams BlobStore Objects Service S3 S3Errors S3Server S3Put S3Content S3Read ServiceFacts.
From Stdlib Require Import Ascii.

Section S3Service.
Context `{EX : Externals} `{XL : !ExternalsLaws} `{SDK : S3Sdk} (path_debug : PathBuf → string).
Context {W : Type} `{H : !Handler s3E W} `{V : !S3View W} `{S : !S3Server.S3Service W}.
Context (self : S3StorageBackend).

Definition object_view (w : W) (key : string) : option bytes := objects w !! object_at self key.

(** Keys that the service tells apart in its errors. *)
Definition s3_key (key : string) : Prop := key_safe key ∧ prefix_ok self ∧ plain_key self key.

Lemma object_at_inj a b : key_safe a → key_safe b → object_at self a = object_at self b → a = b.
Proof.
  intros Ha Hb [= E]. rewrite <- (strip_object_name self a), <- (strip_object_name self b) by done.
  by rewrite E.
Qed.

Lemma kept_view w w' k : kept w w' → object_view w' k = object_view w k.
Proof. intros [Ho _]. unfold object_view. by rewrite Ho. Qed.

Lemma read_only_keeps {X} (e : s3E X) w :
  read_only e = true → twp (call e) (λ _ w', True ∧ ∀ k, object_view w' k = object_view w k) w.
Proof.
  intros He. unfold call. wp_vis x w1 E. wp_ret. split; [done|]. intros k.
  apply kept_view. by eapply kept_read.
Qed.

#[export] Instance s3_blob_store_spec :
  BlobStoreSpec (OS := s3_object_storage path_debug self) (λ _ _, True) object_view s3_key True.
Proof.
  constructor.
  - intros n w _. by apply read_only_keeps.
  - intros n w _. by apply read_only_keeps.
  - intros n key body cs oe options w _ (Hk & Hp & Hpl) Hb.
    eapply twp_mono; [by apply (s3_put_effect path_debug)|]. intros r w' He. split; [done|].
    unfold object_view. destruct r as [o|e]; simpl in He.
    + destruct He as (_ & _ & (-> & Ho & _) & _ & ->). rewrite Ho. split.
      * intros k (Hk' & _) Hne. rewrite lookup_insert_ne; [done|].
        intros E%object_at_inj; congruence.
      * rewrite lookup_insert_eq. split_and!; [done|done|].
        unfold outcome_of. by rewrite size_of_concat, sha256_of_concat.
    + destruct He as ([Ho|(-> & Ho & _)] & _ & _); rewrite Ho; [by split; [|left]|].
      split; [|right; by rewrite lookup_insert_eq].
      intros k (Hk' & _) Hne. rewrite lookup_insert_ne; [done|]. intros E%object_at_inj; congruence.
  - intros n key w _ (Hk & Hp & Hpl). eapply twp_mono; [apply s3_get_ok|].
    intros r w' (K & _ & Hr). split_and!; [done|intros; by apply kept_view|].
    destruct r as [body|e]; [|intros ->; by apply Hr].
    destruct Hr as (_ & _ & c & Hc & _ & Hh & _ & Hserve). intros d Hd.
    assert (c = d) as -> by (unfold object_view in Hd; congruence).
    destruct (Hserve w') as (cs & oe & w'' & D & K2 & _ & Hall & _).
    exists (match oe with None => Ok (concat cs) | Some e => Err e end), w''. split.
    + apply collect_runs; [done|]. unfold size_hint. by rewrite Hh.
    + split_and!; [done| |].
      * intros k. rewrite (kept_view w' w'') by done. by apply kept_view.
      * intros b. destruct oe; [done|]. intros [= <-]. by apply Hall.
  - intros n key w _ (Hk & Hp & Hpl). eapply twp_mono; [apply s3_exists_ok|].
    intros r w' (K & _ & Hb). split_and!; [done|intros; by apply kept_view|].
    intros b Hr. destruct (Hb b Hr) as [Ht Hf]. split; [done|]. destruct b; [done|].
    unfold object_view. rewrite Hf by done. by intros [].
  - intros n object w _ (Hk & Hp & Hpl). eapply twp_mono; [apply s3_delete_ok|].
    intros r w' [_ Hr]. split; [done|].
    assert (Hd : objects w' = delete (object_at self (so_storage_key object)) (objects w) →
      (∀ k, s3_key k → k ≠ so_storage_key object → object_view w' k = object_view w k) ∧
      object_view w' (so_storage_key object) = None).
    { intros Ho. unfold object_view. rewrite Ho. split; [|by apply lookup_delete_eq].
      intros k (Hk' & _) Hne. rewrite lookup_delete_ne; [done|].
      intros E%object_at_inj; congruence. }
    destruct r as [[]|e]; [by apply Hd|]. destruct Hr as [_ [Ho|Ho]].
    + unfold object_view. rewrite Ho. by split; [|left].
    + destruct (Hd Ho). by split; [|right].
Qed.
End S3Service.
