(* ===== verification/S3History.v ===== *)
(** * The S3 provider refines the reference store

    The instance of [BlobStoreLaws] for [S3StorageBackend], which may lose the
    answer of a request that took effect, and has no directories. *)
From S2P Require Import Prelude Text Errors Providers Externals Keys Effects Streams BlobStore Objects Service S3 S3Errors S3Server S3Put S3Content S3Read ServiceFacts History S3Service.
From Stdlib Require Import Ascii.

Section S3History.
Context `{EX : Externals} `{XL : !ExternalsLaws} `{SDK : S3Sdk} (path_debug : PathBuf → string).
Context {W : Type} `{H : !Handler s3E W} `{V : !S3View W} `{S : !S3Server.S3Service W}.
Context (self : S3StorageBackend) (B : bucket_ok self).

(** The keys whose object names are the same in a header, and that the service
    tells apart in its errors. *)
Definition copy_key (key : string) : Prop := s3_key self key ∧ header_safe (object_name self key).

Lemma written_view key b w w' (c : bool) (oe : option StorageError) :
  key_safe key →
  oe = None ∧ objects w' = <[object_at self key:=b]> (objects w) ∧
    (c = true → objects w !! object_at self key = None) →
  same_but (object_view self) copy_key key w w' ∧ object_view self w' key = Some b.
Proof.
  intros Hk (_ & Ho & _). unfold same_but, object_view. rewrite Ho. split; [|by apply lookup_insert_eq].
  intros k [(Hk' & _) _] Hne. rewrite lookup_insert_ne; [done|]. intros E%object_at_inj; congruence.
Qed.

Lemma same_objects key w w' : objects w' = objects w → same_but (object_view self) copy_key key w w'.
Proof. intros Ho k _ _. unfold object_view. by rewrite Ho. Qed.

(** A deletion, in the view. *)
Lemma removed_view key w w' :
  key_safe key → objects w' = delete (object_at self key) (objects w) →
  same_but (object_view self) copy_key key w w' ∧ object_view self w' key = None.
Proof.
  intros Hk Ho. unfold same_but, object_view. rewrite Ho. split; [|by apply lookup_delete_eq].
  intros k [(Hk' & _) _] Hne. rewrite lookup_delete_ne; [done|]. intros E%object_at_inj; congruence.
Qed.

(** The body of a read, collected. *)
Lemma collect_serves body c w w1 (P : bytes → Prop) :
  kept w w1 → serves body c → capacity_ok (size_hint body) → P c →
  twp (collect_storage_stream body) (λ r w2, True ∧ same_view (object_view self) w w2 ∧
    ∀ b, r = Ok b → P b) w1.
Proof.
  intros K Hs Hc HP. destruct (Hs w1) as (cs & oe & w2 & D & K2 & _ & Hall & _).
  exists (match oe with None => Ok (concat cs) | Some e => Err e end), w2.
  split; [by apply collect_runs|]. split; [done|]. split.
  - intros k. rewrite (kept_view self w1 w2) by done. by apply kept_view.
  - intros b. destruct oe; [done|]. intros [= <-]. by rewrite Hall.
Qed.

(** What a conditional create does to the view. *)
Definition created (key : string) (b : bytes) (oe : option StorageError) (w : W)
    (r : storage_result (option BlobWriteOutcome)) (w' : W) : Prop :=
  let made := oe = None ∧ object_view self w key = None ∧ object_view self w' key = Some b in
  match r with
  | Ok (Some o) => made ∧ o = mkBlobWriteOutcome (Z.min (Z.of_nat (length b)) u64_MAX) (sha256_hex b)
  | Ok None => object_view self w' key = object_view self w key ∧ is_Some (object_view self w key) ∨ made
  | Err e => object_view self w' key = object_view self w key ∨ made
  end.

Lemma create_view key b oe w r w' :
  copy_key key → put_effect self key b oe true w r w' →
  same_but (object_view self) copy_key key w w' ∧ created key b oe w r w'.
Proof.
  intros [(Hk & Hp & Hpl) _] He.
  assert (Hw : oe = None ∧ objects w' = <[object_at self key:=b]> (objects w) ∧
      (true = true → objects w !! object_at self key = None) →
    same_but (object_view self) copy_key key w w' ∧
    oe = None ∧ object_view self w key = None ∧ object_view self w' key = Some b).
  { intros Hw. destruct (written_view key b w w' true oe Hk Hw). destruct Hw as (-> & _ & Hn).
    split; [done|]. split; [done|]. split; [by apply Hn|done]. }
  destruct r as [[o|]|e]; simpl in He |- *.
  - destruct He as (_ & _ & Hwr & _ & ->). by destruct (Hw Hwr).
  - destruct He as (_ & Hsome & [Ho|Hwr] & _).
    + split; [by apply same_objects|]. left. specialize (Hsome Hpl). unfold object_view.
      by rewrite Ho in *.
    + destruct (Hw Hwr). tauto.
  - destruct He as ([Ho|Hwr] & _).
    + split; [by apply same_objects|]. left. unfold object_view. by rewrite Ho.
    + destruct (Hw Hwr). tauto.
Qed.

#[export] Instance s3_blob_store_laws :
  BlobStoreLaws (OS := s3_object_storage path_debug self) (λ _ _, True) (object_view self) copy_key
    True False.
Proof.
  constructor.
  - eapply spec_restrict; [by intros k [Hk _]|]. apply (s3_blob_store_spec path_debug).
  - done.
  - intros n key body cs oe options w _ Hk Hb.
    eapply twp_mono; [by apply (put_blob_inner_effect path_debug self key body cs oe options true w)|].
    intros r w' He. split; [done|]. apply create_view in He as [Hs Hc]; [|done].
    split; [done|]. destruct r as [[o|]|e]; simpl in Hc |- *; [|tauto..].
    unfold outcome_of. by rewrite size_of_concat, sha256_of_concat.
  - intros n key w _ [(Hk & Hp & Hpl) _]. eapply twp_mono; [apply s3_get_ok|].
    intros r w' (K & _ & Hr). split; [done|]. split; [intros k; by apply kept_view|].
    destruct r as [body|e]; [|intros ->; by apply Hr].
    destruct Hr as (_ & _ & c & Hc & _ & Hh & _ & Hserve).
    eapply collect_serves; [done|done|unfold size_hint; by rewrite Hh|done].
  - intros n key s e w _ [(Hk & Hp & Hpl) _] (Hse & He & Hlen).
    eapply twp_mono; [apply s3_range_ok; unfold u64_ok; simpl; lia|].
    intros r w' (K & _ & Hr). split; [done|]. split; [intros k; by apply kept_view|]. simpl in Hr.
    destruct r as [body|err]; [|intros ->; by apply Hr].
    destruct Hr as (c & -> & Hserve & Hb). destruct (Hb ltac:(lia)) as ([d Hd] & _ & Hh).
    rewrite Hd in Hserve. eapply collect_serves; [done|exact Hserve|rewrite Hh; simpl; lia|].
    by exists d.
  - intros n key w _ [(Hk & Hp & _) _]. eapply twp_mono; [apply s3_delete_ok|].
    intros r w' [_ Hr]. split; [done|].
    destruct r as [[]|e]; [by apply removed_view|]. destruct Hr as [_ [Ho|Ho]].
    + split; [by apply same_objects|]. left. unfold object_view. by rewrite Ho.
    + destruct (removed_view key w w' Hk Ho). split; [done|]. by right.
  - intros n from to w _ [_ Hh] [(Ht & _) _].
    eapply twp_mono; [by apply s3_copy_ok|]. intros r w' (_ & _ & Hr). split; [done|]. cbn zeta in *.
    assert (Hc : (∃ c, objects w !! object_at self from = Some c ∧
        objects w' = <[object_at self to:=c]> (objects w)) →
      same_but (object_view self) copy_key to w w' ∧
      ∃ d, object_view self w from = Some d ∧ object_view self w' to = Some d).
    { intros (c & Hc & Ho). destruct (written_view to c w w' false None Ht) as [Hs Hv]; [done|].
      split; [done|]. by exists c. }
    destruct r as [[]|e]; [by apply Hc|]. destruct Hr as [[Ho|Hr] _].
    + split; [by apply same_objects|]. left. unfold object_view. by rewrite Ho.
    + destruct (Hc Hr). split; [done|]. by right.
Qed.

(** C8: on S3 any sequence of requests on keys whose names need no encoding and
    hold no error word returns, and behaves as on a map from keys to contents: an answer is that
    of the map; a request that failed had no effect or its whole effect, as its
    answer may be lost; and a conditional put is refused where the map has the
    key, or after it took effect itself.  So a conditional put that is stored
    found the key free, and nothing is ever stored in part. *)
Theorem s3_history_refines m rs w :
  Forall (request_ok (ok_key := copy_key)) rs →
  (∀ key, copy_key key → objects w !! object_at self key = m !! key) →
  twp (perform_all (BS := s3_blob_store path_debug self) rs) (λ answers w',
    ∃ m', steps True False m rs answers m' ∧
      (∀ key, copy_key key → objects w' !! object_at self key = m' !! key) ∧
      (Forall clear answers → effects m rs = (answers, m'))) w.
Proof.
  intros Hrs R. eapply twp_mono.
  - exact (history_refines (OS := s3_object_storage path_debug self) 0 m rs w I Hrs R).
  - by intros l w' [_ Hr].
Qed.
End S3History.
