(* ===== verification/S3Memory.v ===== *)
(** * A service in memory

    A concrete service that keeps the promises of S3Server.v, on which the
    theorems about the S3 provider are applied.  Requests are numbered, and the
    state says which of them fail: such a request has no effect, but the one
    that completes or deletes, whose answer is lost.  An error shows its code,
    its status and the names of the request. *)
From stdpp Require Import pretty.
From S2P Require Import Prelude Text Errors Providers Externals Keys Effects Streams BlobStore S3 S3Errors S3Server S3Put S3List.
From Stdlib Require Import Ascii.

(** ** Decimal numbers *)

Definition digit (c : ascii) : option Z :=
  if byte_in c 48 57 then Some (Z.of_nat (nat_of_ascii c) - 48) else None.

(** The number at the front of a string, and what follows it. *)
Fixpoint parse_number (acc : Z) (s : string) : Z * string :=
  match s with
  | EmptyString => (acc, s)
  | String c s' => match digit c with
                   | Some d => parse_number (acc * 10 + d) s'
                   | None => (acc, s)
                   end
  end.

Lemma digit_pretty n : (n < 10)%N → digit (pretty_N_char n) = Some (Z.of_N n).
Proof.
  intros Hn. assert (n = 0 ∨ n = 1 ∨ n = 2 ∨ n = 3 ∨ n = 4 ∨ n = 5 ∨ n = 6 ∨ n = 7 ∨ n = 8
    ∨ n = 9)%N as Hc by lia. by repeat destruct Hc as [->|Hc]; [..|rewrite Hc].
Qed.

Lemma parse_pretty_go n s : parse_number 0 (pretty_N_go n s) = parse_number (Z.of_N n) s.
Proof.
  revert s. induction (N.lt_wf_0 n) as [n _ IH]. intros s.
  destruct (decide (n = 0)%N) as [->|Hn]; [done|].
  rewrite pretty_N_go_step by lia. rewrite IH by (apply N.div_lt; lia). simpl.
  rewrite digit_pretty by (apply N.mod_lt; lia). f_equal.
  rewrite N2Z.inj_div, N2Z.inj_mod. pose proof (Z.div_mod (Z.of_N n) 10). lia.
Qed.

Lemma pretty_go_app n s t : pretty_N_go n s +:+ t = pretty_N_go n (s +:+ t).
Proof.
  revert s. induction (N.lt_wf_0 n) as [n _ IH]. intros s.
  destruct (decide (n = 0)%N) as [->|Hn]; [done|].
  rewrite !(pretty_N_go_step n) by lia. rewrite IH by (apply N.div_lt; lia).
  by rewrite app_cons_str.
Qed.

Lemma parse_pretty (z : Z) t :
  0 ≤ z → parse_number 0 (pretty z +:+ t) = parse_number z t.
Proof.
  intros Hz. destruct z as [|p|p]; [done| |lia].
  change (pretty (Z.pos p)) with (pretty_N_go (Npos p) "").
  by rewrite pretty_go_app, parse_pretty_go.
Qed.

(** [bytes=s-e]. *)
Definition parse_range (header : string) : option (Z * Z) :=
  rest ← strip_prefix "bytes=" header;
  let '(s, rest) := parse_number 0 rest in
  rest ← strip_prefix "-" rest;
  let '(e, rest) := parse_number 0 rest in
  if str_is_empty rest then Some (s, e) else None.

Lemma parse_range_pretty (s e : Z) :
  0 ≤ s → 0 ≤ e → parse_range ("bytes=" +:+ pretty s +:+ "-" +:+ pretty e) = Some (s, e).
Proof.
  intros Hs He. unfold parse_range. rewrite strip_prefix_app. simpl.
  rewrite parse_pretty by done.
  pose proof (parse_pretty e "" He) as P. rewrite app_nil_r_str in P.
  revert P. generalize (pretty e) as t. intros t P.
  change ("-" +:+ t) with (String "-" t). simpl. by rewrite P.
Qed.

(** ** Errors *)

Record MemoryError : Type := mkMemoryError {
  me_code : option string;
  me_status : option Z;
  me_names : list string;
}.

(** The fields of an error that are not names. *)
Definition me_fields (e : MemoryError) : list string :=
  match me_code e with Some c => ["service error"; c] | None => ["dispatch failure: connection closed"] end ++
  match me_status e with Some s => ["status: " +:+ pretty s] | None => [] end.

Definition me_debug (e : MemoryError) : string := join ";" (me_fields e ++ me_names e).

#[export] Instance memory_sdk : S3Sdk := {|
  SdkError := MemoryError;
  sdk_debug := me_debug;
  sdk_status := me_status;
  sdk_code := me_code;
  ResponseBody := bytes;
|}.

(** The connection breaks. *)
Definition lost : MemoryError := mkMemoryError None None [].

(** The errors that the service answers. *)
Definition service_codes : list (string * Z) :=
  [("NoSuchKey", 404); ("NotFound", 404); ("NoSuchUpload", 404); ("PreconditionFailed", 412);
   ("InvalidRange", 416); ("InvalidPart", 400); ("InvalidArgument", 400); ("SlowDown", 503)].

Definition service_error (code : string) (status : Z) (bucket key : string) : MemoryError :=
  mkMemoryError (Some code) (Some status) [bucket; key].

(** ** The texts of the errors *)

(** Each field of an error that is not a name holds the words of its own code
    and status only. *)
Definition fields_say (e : MemoryError) : bool :=
  forallb (λ c, negb (existsb (contains_str c) (me_fields e)) || bool_decide (me_code e = Some c))
    error_codes &&
  forallb (λ n, let s := 100 + Z.of_nat n in
             forallb (λ word, negb (existsb (contains_str word) (me_fields e)) ||
                              bool_decide (me_status e = Some s))
               (status_words s))
    (seq 0 500).

Lemma lost_fields : fields_say lost = true.
Proof. by vm_compute. Qed.

Lemma service_fields code status bucket key :
  (code, status) ∈ service_codes → fields_say (service_error code status bucket key) = true.
Proof.
  intros Hc. revert code status Hc.
  assert (F : Forall (λ cs, fields_say (service_error cs.1 cs.2 bucket key) = true) service_codes)
    by (repeat (apply Forall_cons; split; [by vm_compute|]); constructor).
  intros code status Hc. rewrite Forall_forall in F. exact (F _ Hc).
Qed.

(** No word holds the separator of the fields. *)
Definition separated (word : string) : bool :=
  negb (str_is_empty word) && negb (contains_char ";" word).

Lemma separated_contains word e :
  separated word = true →
  contains_str word (me_debug e) =
    existsb (contains_str word) (me_fields e) || named word (me_names e).
Proof.
  unfold separated, me_debug, named. rewrite andb_true_iff, !negb_true_iff, str_is_empty_false.
  intros [Hne Hc]. change ";" with (char_str ";"). by rewrite contains_str_join, existsb_app.
Qed.

Lemma codes_separated c : c ∈ error_codes → separated c = true.
Proof. revert c. apply Forall_forall. by repeat constructor. Qed.

Lemma status_words_range s word : word ∈ status_words s → ∃ n, (n < 500)%nat ∧ s = 100 + Z.of_nat n.
Proof.
  unfold status_words. destruct ((100 <=? s) && (s <=? 599)) eqn:E; [|by intros ?%not_elem_of_nil].
  intros _. exists (Z.to_nat (s - 100)). lia.
Qed.

Lemma status_words_separated s word : word ∈ status_words s → separated word = true.
Proof.
  intros Hw. destruct (status_words_range s word Hw) as (n & Hn & ->).
  assert (F : forallb (λ n, forallb separated (status_words (100 + Z.of_nat n))) (seq 0 500) = true)
    by by vm_compute.
  rewrite forallb_forall in F. specialize (F n). rewrite forallb_forall in F. apply F.
  - apply in_seq. lia.
  - by apply list_elem_of_In.
Qed.

(** A word of an error is one of its fields or of its names. *)
Lemma word_of_fields e names word (P : Prop) `{Decision P} :
  separated word = true → (named word (me_names e) = true → named word names = true) →
  negb (existsb (contains_str word) (me_fields e)) || bool_decide P = true →
  contains_str word (me_debug e) = true → P ∨ named word names = true.
Proof.
  intros Hs Hn Hf. rewrite separated_contains by done.
  destruct (existsb _ (me_fields e)); simpl in *; [|by auto]. apply bool_decide_eq_true in Hf. auto.
Qed.

Lemma shown_code e c :
  me_code e = Some c → c ∈ service_codes.*1 → contains_str c (me_debug e) = true.
Proof.
  intros Hs Hc. assert (separated c = true) as Hsep
    by (clear Hs; revert c Hc; apply Forall_forall; by repeat constructor).
  rewrite separated_contains by done. unfold me_fields. rewrite Hs. cbn [existsb app].
  by rewrite contains_str_self, !orb_true_r.
Qed.

Lemma fields_text e names :
  fields_say e = true → (∀ c, me_code e = Some c → c ∈ service_codes.*1) →
  (∀ word, named word (me_names e) = true → named word names = true) → text_of names e.
Proof.
  intros [Fc Fs]%andb_prop Hc Hn. rewrite forallb_forall in Fc, Fs. split.
  - intros c Hs. apply shown_code; [done|]. by apply Hc.
  - intros c Hcode. apply (word_of_fields e names c (me_code e = Some c)); [by apply codes_separated|by apply Hn|].
    apply Fc. by apply list_elem_of_In.
  - intros s word Hw. apply (word_of_fields e names word (me_status e = Some s)); [by eapply status_words_separated|by apply Hn|].
    destruct (status_words_range s word Hw) as (n & Hlt & ->).
    assert (Hin : In n (seq 0 500)) by (apply in_seq; lia). specialize (Fs n Hin).
    rewrite forallb_forall in Fs. apply Fs. by apply list_elem_of_In.
Qed.

Lemma service_text code status b k names :
  (code, status) ∈ service_codes →
  (∀ word, named word [b; k] = true → named word names = true) →
  text_of names (service_error code status b k).
Proof.
  intros Hc Hn. apply fields_text; [by apply service_fields| |done].
  intros c [= <-]. apply list_elem_of_fmap. by exists (code, status).
Qed.

Lemma lost_text names : text_of names lost.
Proof. by apply fields_text; [apply lost_fields|..]. Qed.

(** ** The service *)

Record Memory : Type := mkMemory {
  mem_objects : s3_objects;
  mem_uploads : gmap string Upload;
  mem_clock : nat;
  mem_down : list nat;
}.

Section Memory.
Context `{EX : Externals} (new_v4_text : Uuid) (now : OffsetDateTime).

Definition set_objects (o : s3_objects) (w : Memory) : Memory :=
  mkMemory o (mem_uploads w) (mem_clock w) (mem_down w).
Definition set_uploads (u : gmap string Upload) (w : Memory) : Memory :=
  mkMemory (mem_objects w) u (mem_clock w) (mem_down w).
Definition tick (w : Memory) : Memory :=
  mkMemory (mem_objects w) (mem_uploads w) (S (mem_clock w)) (mem_down w).

Definition down (w : Memory) : bool := bool_decide (mem_clock w ∈ mem_down w).

(** The precondition of a request fails. *)
Definition exists_at (at_ : string * string) (condition : option string) (w : Memory) : bool :=
  bool_decide (condition = Some "*") && bool_decide (is_Some (mem_objects w !! at_)).

Definition put_at (at_ : string * string) (b : bytes) (condition : option string) (w : Memory) :
    result unit MemoryError * Memory :=
  if exists_at at_ condition w
  then (Err (service_error "PreconditionFailed" 412 at_.1 at_.2), w)
  else (if down w then Err lost else Ok tt, set_objects (<[at_:=b]> (mem_objects w)) w).

(** The content of the listed parts. *)
Definition gather (u : Upload) (parts : list CompletedPart) : option (list bytes) :=
  mapM (λ p, match up_parts u !! part_number p with
             | Some (tag, c) => if decide (tag = part_e_tag p) then Some c else None
             | None => None
             end) parts.

Definition PAGE : Z := 2.

(** The identifier of the upload that a request creates. *)
Definition upload_id (clock : nat) : string := "upload-" +:+ pretty clock.

Definition answer {X} (e : s3E X) (w : Memory) : X * Memory :=
  match e in s3E X return X * Memory with
  | PutObject b k body _ condition => put_at (b, k) body condition w
  | CreateMultipartUpload b k _ =>
      let id := upload_id (mem_clock w) in
      if down w || bool_decide (is_Some (mem_uploads w !! id)) then (Err lost, w)
      else (Ok (Some id), set_uploads (<[id:=mkUpload b k ∅]> (mem_uploads w)) w)
  | UploadPart b k id n body =>
      match mem_uploads w !! id with
      | Some u =>
          if down w || negb ((1 <=? n) && (n <=? 10000)) then (Err lost, w)
          else (Ok (Some "tag"), set_uploads (<[id:=mkUpload (up_bucket u) (up_key u)
                  (<[n:=(Some "tag", body)]> (up_parts u))]> (mem_uploads w)) w)
      | None => (Err (service_error "NoSuchUpload" 404 b k), w)
      end
  | CompleteMultipartUpload b k id parts condition =>
      match mem_uploads w !! id ≫= λ u, gather u parts with
      | Some contents =>
          let '(r, w') := put_at (b, k) (concat contents) condition w in
          (r, if exists_at (b, k) condition w then w'
              else set_uploads (delete id (mem_uploads w')) w')
      | None => (Err (service_error "InvalidPart" 400 b k), w)
      end
  | AbortMultipartUpload _ _ id =>
      if down w then (Err lost, w)
      else (Ok tt, set_uploads (delete id (mem_uploads w)) w)
  | GetObject b k range =>
      if down w then (Err (service_error "SlowDown" 503 b k), w) else
      match mem_objects w !! (b, k) with
      | None => (Err (service_error "NoSuchKey" 404 b k), w)
      | Some c =>
          let serve c := (Ok (mkObjectOutput (Some (Z.of_nat (length c))) None c), w) in
          match range with
          | None => serve c
          | Some header =>
              match parse_range header with
              | Some (s, e) => if s <? Z.of_nat (length c) then serve (byte_range s (e - s + 1) c)
                               else (Err (service_error "InvalidRange" 416 b k), w)
              | None => (Err (service_error "InvalidArgument" 400 b k), w)
              end
          end
      end
  | ReadBody body =>
      if down w then ((Some (Err "connection reset"), []), w) else
      match body with
      | [] => ((None, []), w)
      | _ => ((Some (Ok (take 4 body)), drop 4 body), w)
      end
  | HeadObject b k =>
      if down w then (Err (service_error "SlowDown" 503 b k), w) else
      match mem_objects w !! (b, k) with
      | None => (Err (service_error "NotFound" 404 b k), w)
      | Some c => (Ok (mkObjectOutput (Some (Z.of_nat (length c))) None tt), w)
      end
  | ListObjectsV2 b prefix token max_keys =>
      if down w || (max_keys <=? 0) then (Err lost, w) else
      let ks := List.filter (after_token token) (bucket_keys (mem_objects w) b prefix) in
      let page := take (Z.to_nat (Z.min max_keys PAGE)) ks in
      (Ok (mkListOutput (map Some page)
             (if Nat.ltb (Z.to_nat (Z.min max_keys PAGE)) (length ks) then last page else None)), w)
  | CopyObject b k source =>
      match split "/" source with
      | sb :: rest =>
          match mem_objects w !! (sb, join "/" rest) with
          | Some c => (if down w then Err lost else Ok tt,
                       set_objects (<[(b, k):=c]> (mem_objects w)) w)
          | None => (Err (service_error "NoSuchKey" 404 b k), w)
          end
      | [] => (Err lost, w)
      end
  | DeleteObject b k =>
      (if down w then Err lost else Ok tt, set_objects (delete (b, k) (mem_objects w)) w)
  | S3NewV4 => (new_v4_text, w)
  | S3NowUtc => (now, w)
  end.

#[export] Instance memory_handler : Handler s3E Memory :=
  λ X e w, let '(x, w') := answer e w in (x, tick w').

#[export] Instance memory_view : S3View Memory := {|
  objects := mem_objects;
  uploads := mem_uploads;
  issued := λ w, list_to_set (upload_id <$> seq 0 (mem_clock w));
  response := λ b, b;
  token_key := λ t, t;
  url_decode := λ s, s;
|}.
(** ** The promises *)

Ltac mem_step E :=
  unfold handle, memory_handler in E; simpl in E;
  repeat match type of E with
  | context [match ?x with _ => _ end] =>
      lazymatch x with context [match _ with _ => _ end] => fail | _ => destruct x eqn:? end;
      simpl in E
  end; simplify_eq/=.

Lemma put_at_effect at_ b condition w r w' :
  put_at at_ b condition w = (r, w') →
  mem_uploads w' = mem_uploads w ∧ mem_clock w' = mem_clock w ∧
  (exists_at at_ condition w = true → w' = w ∧ is_ok r = false) ∧
  write_effect (SDK := memory_sdk) at_ b condition r (mem_objects w) (mem_objects w').
Proof.
  unfold put_at, write_effect, exists_at. intros E.
  destruct (bool_decide_reflect (condition = Some "*")) as [Hc|Hc]; simpl in E |- *.
  - destruct (bool_decide_reflect (is_Some (mem_objects w !! at_))) as [Hs|Hs]; simplify_eq/=.
    + split_and!; [done..|by left|done].
    + apply eq_None_not_Some in Hs. destruct (down w); simplify_eq/=; split_and!; try done.
      * by right.
      * intros _ _. rewrite lookup_insert_eq. by eexists.
  - destruct (down w); simplify_eq/=; split_and!; try done. by right.
Qed.

Lemma gather_listed u parts contents : gather u parts = Some contents ↔ listed u parts contents.
Proof.
  unfold gather, listed. rewrite mapM_Some.
  assert (G : ∀ p c, match up_parts u !! part_number p with
      | Some (tag, c) => if decide (tag = part_e_tag p) then Some c else None
      | None => None
      end = Some c ↔ up_parts u !! part_number p = Some (part_e_tag p, c)).
  { intros p c. destruct (up_parts u !! part_number p) as [[tag d]|]; [|done].
    destruct (decide (tag = part_e_tag p)) as [->|Hne]; split; congruence. }
  split; intros F; (eapply Forall2_impl; [exact F|]); intros p c; apply G.
Qed.

Lemma memory_complete b k id parts cond w r w' :
  handle (CompleteMultipartUpload b k id parts cond) w = (r, w') →
  (∃ content, write_effect (b, k) content cond r (objects w) (objects w')) ∧
  ∀ u, uploads w !! id = Some u → up_bucket u = b → up_key u = k →
    delete id (uploads w') = delete id (uploads w) ∧
    (uploads w' !! id = None ∨ uploads w' !! id = Some u) ∧
    (is_ok r = true → uploads w' !! id = None ∧ ∃ contents, listed u parts contents) ∧
    ∀ contents, listed u parts contents →
      write_effect (b, k) (concat contents) cond r (objects w) (objects w').
Proof.
  intros E. unfold handle, memory_handler in E. simpl in E.
  destruct (mem_uploads w !! id ≫= λ u, gather u parts) as [l|] eqn:Eg.
  - destruct (put_at (b, k) (concat l) cond w) as [x m] eqn:Ep.
    apply put_at_effect in Ep as (Hum & _ & Hx & Hw).
    assert (Hu : ∀ u, mem_uploads w !! id = Some u → gather u parts = Some l).
    { intros u Hu. by rewrite Hu in Eg. }
    destruct (exists_at (b, k) cond w); simplify_eq/=; rewrite Hum;
      (split; [by exists (concat l)|]); intros u Hl _ _; pose proof (Hu u Hl) as El.
    + destruct (Hx eq_refl) as [-> Hok]. rewrite Hok. split_and!; [done| |done|].
      * by right.
      * intros contents Hc%gather_listed. congruence.
    + split_and!; [by rewrite delete_delete_eq|by left; apply lookup_delete_eq| |].
      * intros _. split; [apply lookup_delete_eq|]. exists l. by apply gather_listed.
      * intros contents Hc%gather_listed. congruence.
  - simplify_eq/=. split; [exists []; split; [by left|by intros _ []]|].
    intros u Hu _ _. rewrite Hu in Eg.
    split_and!; [done|by right|done|]. intros contents Hc%gather_listed. simpl in Eg. congruence.
Qed.

Lemma memory_get b k range w out w' :
  handle (GetObject b k range) w = (Ok out, w') →
  ∃ c, objects w !! (b, k) = Some c ∧
    out_content_length out = Some (Z.of_nat (length (response (out_body out)))) ∧
    match range with
    | None => response (out_body out) = c
    | Some header => ∀ s e : Z, 0 ≤ s ≤ e →
        header = "bytes=" +:+ pretty s +:+ "-" +:+ pretty e →
        s < Z.of_nat (length c) ∧ response (out_body out) = byte_range s (e - s + 1) c
    end.
Proof.
  intros E. unfold handle, memory_handler in E. simpl in E. destruct (down w); [done|].
  destruct (mem_objects w !! (b, k)) as [c|] eqn:Ec; [|done]. exists c. split; [done|].
  destruct range as [header|]; simpl in E; [|by simplify_eq/=].
  destruct (parse_range header) as [[s e]|] eqn:Ep; simpl in E; [|done].
  destruct (Z.ltb_spec s (Z.of_nat (length c))); simplify_eq/=. split; [done|].
  intros s' e' Hle ->. rewrite parse_range_pretty in Ep by lia. by simplify_eq.
Qed.

Lemma memory_list b prefix token max_keys w out w' :
  handle (ListObjectsV2 b prefix token max_keys) w = (Ok out, w') →
  let ks := List.filter (after_token (token_key <$> token)) (bucket_keys (objects w) b prefix) in
  ∃ n, Z.of_nat n ≤ max_keys ∧ out_contents out = map Some (take n ks) ∧
    match out_next_token out with
    | None => (length ks <= n)%nat
    | Some t => (0 < n < length ks)%nat ∧ last (take n ks) = Some (token_key t)
    end.
Proof.
  intros E ks. unfold handle, memory_handler in E. simpl in E.
  destruct (down w || (max_keys <=? 0)) eqn:Ed; [done|].
  apply orb_false_iff in Ed as [_ Hm%Z.leb_gt].
  assert (token_key <$> token = token) as Ht by by destruct token.
  subst ks. rewrite Ht. simpl. set (ks := List.filter _ _) in *. clearbody ks. simplify_eq/=.
  assert (Hn : (0 < Z.to_nat (Z.min max_keys PAGE))%nat) by (unfold PAGE; lia).
  exists (Z.to_nat (Z.min max_keys PAGE)). split_and!; [lia|done|].
  generalize dependent (Z.to_nat (Z.min max_keys PAGE)). intros n Hn.
  destruct (Nat.ltb_spec n (length ks)) as [Hlt|Hge]; [|done].
  destruct (last (take n ks)) as [t|] eqn:El; [done|].
  apply last_None in El. apply (f_equal length) in El. rewrite length_take in El. simpl in El. lia.
Qed.

Lemma memory_copy_target b k source w r w' :
  handle (CopyObject b k source) w = (r, w') →
  uploads w' = uploads w ∧
  (objects w' = objects w ∨ ∃ c, objects w' = <[(b, k):=c]> (objects w)).
Proof. intros E. mem_step E; auto; split; try done; right; by eexists. Qed.

Lemma memory_copy b k source sb sk w r w' :
  handle (CopyObject b k source) w = (r, w') →
  contains_char "/" sb = false → url_decode source = sb +:+ "/" +:+ sk →
  match r with
  | Ok _ => ∃ c, objects w !! (sb, sk) = Some c ∧ objects w' = <[(b, k):=c]> (objects w)
  | Err e => (sb = b → not_found e → objects w !! (sb, sk) = None) ∧
      (objects w' = objects w ∨
       ∃ c, objects w !! (sb, sk) = Some c ∧ objects w' = <[(b, k):=c]> (objects w))
  end.
Proof.
  intros E Hsb Hs. simpl in Hs. subst source. unfold handle, memory_handler in E. simpl in E.
  change (sb +:+ "/" +:+ sk) with (sb +:+ String "/" sk) in E.
  rewrite split_app, (split_id _ sb Hsb) in E. simpl in E.
  change "/" with (char_str "/") in E. rewrite join_split in E.
  destruct (mem_objects w !! (sb, sk)) as [c|] eqn:Ec; [|by simplify_eq/=; auto].
  destruct (down w); simplify_eq/=; [|by eauto].
  split; [by intros _ [[?|?]|?]|right; by eauto].
Qed.

Lemma answer_clock {X} (e : s3E X) w x w' : answer e w = (x, w') → mem_clock w' = mem_clock w.
Proof.
  intros E. destruct e; simpl in E; unfold put_at in E; repeat case_match; by simplify_eq/=.
Qed.

Lemma memory_issued X (e : s3E X) w x w' :
  handle e w = (x, w') → issued w' = issued w ∪ {[upload_id (mem_clock w)]}.
Proof.
  unfold handle, memory_handler. destruct (answer e w) as [y w1] eqn:E. intros [= _ <-].
  apply answer_clock in E. unfold tick. cbn [issued memory_view mem_clock].
  by rewrite E, seq_S, fmap_app, list_to_set_app_L; simpl; rewrite union_empty_r_L.
Qed.

Lemma memory_new_id b k ct w id w' :
  handle (CreateMultipartUpload b k ct) w = (Ok (Some id), w') → (id ∉ issued w) ∧ id ∈ issued w'.
Proof.
  intros E. rewrite (memory_issued _ _ _ _ _ E). assert (id = upload_id (mem_clock w)) as ->.
  { unfold handle, memory_handler in E. simpl in E. destruct (_ || _) in E; by simplify_eq/=. }
  split; [|set_solver]. simpl. rewrite elem_of_list_to_set, list_elem_of_fmap.
  intros (i & Hi & Hin%elem_of_seq). unfold upload_id in Hi. cbn in Hi.
  injection Hi as Hi. apply pretty_nat_inj in Hi. lia.
Qed.

Lemma put_at_text at_ b condition w r w' err :
  put_at at_ b condition w = (r, w') → err_of r = Some err → text_of [at_.1; at_.2] err.
Proof.
  unfold put_at. intros E Ha. destruct (exists_at at_ condition w); simplify_eq/=.
  - apply service_text; [set_solver|done].
  - destruct (down w); simplify_eq/=. apply lost_text.
Qed.

Lemma memory_text X (e : s3E X) w x w' err :
  handle e w = (x, w') → answered_error e x = Some err → text_of (request_names e) err.
Proof.
  intros E Ha. destruct e; simpl in Ha; mem_step E; simplify_eq/=;
    try apply lost_text; try (apply service_text; [set_solver|]; try done).
  - by apply (put_at_text _ _ _ _ _ _ _ Heqp).
  - by apply (put_at_text _ _ _ _ _ _ _ Heqp).
  - by apply (put_at_text _ _ _ _ _ _ _ Heqp).
  - intros word. unfold named. cbn [existsb]. rewrite !orb_true_iff. tauto.
Qed.

#[export] Instance memory_service : S3Service Memory.
Proof.
  constructor.
  - intros X e w x w' E err. by apply (memory_text _ _ _ _ _ err E).
  - intros b k body ct cond w r w' E. unfold handle, memory_handler in E. simpl in E.
    destruct (put_at (b, k) body cond w) as [x w1] eqn:Ep. simplify_eq/=.
    by apply put_at_effect in Ep as (? & _ & _ & ?).
  - intros b k ct w r w' E. mem_step E; [done|]. split; [done|].
    apply orb_false_iff in Heqb0 as [_ Hn]. apply bool_decide_eq_false, eq_None_not_Some in Hn.
    done.
  - apply memory_new_id.
  - intros X e w x w' ->%memory_issued. set_solver.
  - intros b k id n body w r w' E. mem_step E; (split; [done|]); intros u' Hu; simplify_eq/=.
    + split; [done|by eexists].
    + apply orb_false_iff in Heqb0 as [_ Hn]. apply negb_false_iff, andb_prop in Hn as [??].
      split_and!; [by rewrite delete_insert_eq|lia|lia|by rewrite lookup_insert_eq].
  - apply memory_complete.
  - intros b k id w r w' E. mem_step E.
    + split_and!; [done|done|by right|done].
    + split_and!; [done|by rewrite delete_delete_eq|left|intros _]; by rewrite lookup_delete_eq.
  - intros X e w x w' E He. unfold handle, memory_handler in E.
    destruct e; try done; mem_step E; done.
  - apply memory_get.
  - intros b k range w e w' E He. mem_step E; first [done|by destruct He as [[?|?]|?]].
  - intros b k w r w' E. mem_step E; first [by intros [[?|?]|?]|by eauto|done].
  - intros body w r body' w' E. mem_step E; try done. split; [done|]. by rewrite take_drop.
  - apply memory_list.
  - done.
  - intros b k source w r w' E. destruct (memory_copy_target b k source w r w' E). split_and!; [done..|].
    intros sb sk. by apply memory_copy.
  - intros b k w r w' E. mem_step E; [|done]. split; [done|]. by right.
Qed.
End Memory.
