(* ===== verification/LocalService.v ===== *)
(** * The local provider keeps the promises the service relies on

    The instance of [BlobStoreSpec] for [LocalStorageBackend], and what follows
    for a [StorageService] on a local directory. *)
From S2P Require Import Prelude Text Errors Providers Externals Paths Keys Effects Streams BlobStore Objects Service Fs FsFacts FsFrame FsCalls Local LocalObjects LocalBlob LocalRead ServiceFacts.
From Stdlib Require Import Ascii.

Section LocalService.
Context `{EX : Externals} `{XL : !ExternalsLaws}.
Variable self : LocalStorageBackend.

(** The states between operations. *)
Definition sound (n : nat) (w : World) : Prop := wf w ∧ fresh n w.

Definition blob_view (w : World) (key : string) : option bytes := content w (key_path self key).

Lemma reached_sound n w w' : fresh n w → reached w w' → sound n w'.
Proof. intros F R. split; [apply R|by eapply reached_fresh]. Qed.

Lemma reached_view w w' k : reached w w' → blob_view w' k = blob_view w k.
Proof. apply reached_content. Qed.

#[export] Instance local_blob_store_spec :
  BlobStoreSpec (OS := local_object_storage self) sound blob_view plain_key False.
Proof.
  constructor.
  - intros n w [Hw F]. apply twp_vis. simpl. apply twp_ret. split; [|done].
    assert (G : grows 1 nowhere nowhere w (fresh_uuid w).2) by (constructor; simpl; auto; lia).
    split; [by apply (wf_handle _ UuidNewV4)|].
    eapply (fresh_grows 1); [done|exact G|by intros ?? []].
  - intros n w [Hw F]. apply twp_vis. simpl. by apply twp_ret.
  - intros n key body cs oe options w [Hw F] Hk Hb.
    eapply twp_mono; [apply put_blob_spec; [done|eapply fresh_weaken; [done|lia]|done|done]|].
    intros r w' [Wr Hr].
    split; [split; [apply Wr|by apply (wr_fresh _ _ _ Wr)]|]. split; [intros k ? ?; by eapply wrote_others|].
    destruct r as [o|e]; [done|left; apply Hr].
  - intros n key w [Hw F] Hk.
    eapply twp_mono; [apply get_blob_ok; [done|apply Hk]|]. intros r w1 [R Hr].
    pose proof (reached_sound n w w1 F R) as [Hw1 F1].
    split_and!; [done|intros; by apply reached_view|]. destruct r as [body|e].
    + intros d Hd. destruct Hr as (_ & _ & _ & _ & Hr). destruct (Hr d Hd) as [_ Hreads].
      eapply twp_mono; [apply Hreads; split; [done|by exists 0%nat, nowhere, nowhere]|].
      intros r w2 (R2 & Hb & _). split_and!; [by eapply reached_sound| |done].
      intros k. rewrite (reached_view w1 w2) by done. by apply reached_view.
    + intros ->. destruct Hr as [Hm _]. unfold blob_view, content, file_at.
      by apply entry_none_name in Hm as [-> _].
  - intros n key w [Hw F] Hk. destruct (exists_head_ok self key w Hw (proj1 Hk)) as [He _].
    eapply twp_mono; [exact He|]. intros r w1 [R Hr].
    split_and!; [by eapply reached_sound|intros; by apply reached_view|].
    intros b ->. exact Hr.
  - intros n object w [Hw F] Hk.
    eapply twp_mono; [apply delete_blob_ok; [done|apply Hk]|].
    intros r w1 (Hw1 & F1 & G & _ & Hr). split_and!; [by split; auto| |].
    + intros k _ Hne. eapply grows_content; [done|exact G|]. intros E.
      by apply key_path_inj in E.
    + destruct r as [[]|e]; [done|]. left. by apply reached_view.
Qed.
End LocalService.

(** ** The generated keys *)

Section GoodNames.
Context `{EX : Externals} `{XL : !ExternalsLaws}.

Lemma ends_with_app p s : ends_with p (s +:+ p) = true.
Proof.
  unfold ends_with. destruct (strip_suffix p (s +:+ p)) eqn:E; [done|].
  assert (strip_suffix p (s +:+ p) = Some s) by by apply strip_suffix_Some. congruence.
Qed.

(** An upload whose extension is [uploading] gets a key that the provider
    takes for a temporary file; every other upload gets a plain key. *)
Lemma generated_plain ns file_name :
  (∀ e, file_name ≫= file_extension = Some e → to_ascii_lowercase e ≠ "uploading") →
  good_name (ok_key := plain_key) ns file_name.
Proof.
  intros He u key Hk. destruct (generated_key_shape ns u file_name) as (key' & Hk' & Hv & Hs).
  assert (key' = key) as -> by congruence. clear Hk'. split; [by apply validate_ok_safe|].
  rewrite Hs. set (t := uuid_to_string u).
  change [namespace_as_str ns; String.substring 0 2 t; String.substring 2 2 t;
          t +:+ extension_suffix (file_name ≫= file_extension)]
    with ([namespace_as_str ns; String.substring 0 2 t; String.substring 2 2 t] ++
          [t +:+ extension_suffix (file_name ≫= file_extension)]).
  rewrite is_uploading_snoc.
  2: { intros E. apply (f_equal String.length) in E. rewrite length_app_str in E.
       unfold t in E. rewrite uuid_text_length in E. simpl in E. lia. }
  destruct (ends_with ".uploading" _) eqn:Ee; [|done]. exfalso.
  unfold ends_with in Ee. destruct (strip_suffix _ _) as [r|] eqn:Er; [|done].
  apply strip_suffix_Some in Er.
  assert (Ht : contains_char "." t = false)
    by (eapply all_chars_contains; [apply uuid_text_chars|done]).
  destruct (file_name ≫= file_extension) as [e|] eqn:Ex; simpl in Er.
  - destruct file_name as [f|]; [|done]. simpl in Ex.
    apply file_extension_Some in Ex as (stem & raw & _ & Hdot & -> & Hne & _).
    rewrite (proj2 (str_is_empty_false _)) in Er by done. simpl in Er.
    specialize (He _ eq_refl).
    assert (Hl : contains_char "." (to_ascii_lowercase (trim raw)) = false)
      by (rewrite lowercase_contains by done; by apply trim_contains).
    pose proof (proj2 (rsplit_once_Some "." _ t (to_ascii_lowercase (trim raw)))
                  (conj eq_refl Hl)) as R1.
    pose proof (proj2 (rsplit_once_Some "." _ r "uploading") (conj eq_refl eq_refl)) as R2.
    apply (f_equal (rsplit_once ".")) in Er.
    change (r +:+ ".uploading") with (r +:+ String "." "uploading") in Er.
    rewrite R2 in Er. pose proof (eq_trans (eq_sym R1) Er) as E.
    by injection E.
  - rewrite app_nil_r_str in Er. rewrite Er in Ht. by rewrite contains_char_app, orb_true_r in Ht.
Qed.
End GoodNames.
