(* ===== verification/LocalHistory.v ===== *)
(** * The local provider refines the reference store

    The instance of [BlobStoreLaws] for [LocalStorageBackend]: the provider
    never loses an answer, and a directory can take a key. *)
From S2P Require Import Prelude Text Errors Providers Externals Paths Keys Effects Streams BlobStore Objects Service Fs FsFacts FsFrame FsCalls Local LocalObjects LocalBlob LocalRead ServiceFacts History LocalService.
From Stdlib Require Import Ascii.

Section LocalHistory.
Context `{EX : Externals} `{XL : !ExternalsLaws}.
Variable self : LocalStorageBackend.

Lemma entry_some_file w p : wf w → entry_at w p = None → content w p = None.
Proof. intros Hw E. unfold content, file_at. by apply entry_none_name in E as [-> _]. Qed.

(** Collecting a body that reads, or that fails. *)
Lemma collect_read n w w1 body (P : bytes → Prop) rest :
  fresh n w → reached w w1 → reads body w1 rest → P rest →
  twp (collect_storage_stream body) (λ r w2, sound n w2 ∧ same_view (blob_view self) w w2 ∧
    ∀ b, r = Ok b → P b) w1.
Proof.
  intros F R Hr HP. eapply twp_mono; [exact Hr|]. intros r w2 (R2 & Hb & _).
  assert (R02 : reached w w2) by by eapply reached_trans.
  split; [by eapply reached_sound|]. split; [intros k; by apply reached_view|].
  intros b E. by rewrite (Hb b E).
Qed.

Lemma collect_fail n w w1 body (P : bytes → Prop) :
  fresh n w → reached w w1 → fails body w1 →
  twp (collect_storage_stream body) (λ r w2, sound n w2 ∧ same_view (blob_view self) w w2 ∧
    ∀ b, r = Ok b → P b) w1.
Proof.
  intros F R Hr. eapply twp_mono; [exact Hr|]. intros r w2 (R2 & Hb).
  assert (R02 : reached w w2) by by eapply reached_trans.
  split; [by eapply reached_sound|]. split; [intros k; by apply reached_view|].
  intros b E. by destruct (Hb b).
Qed.

Lemma later_refl w : wf w → later w w.
Proof. intros Hw. split; [done|]. by exists 0%nat, nowhere, nowhere. Qed.

#[export] Instance local_blob_store_laws :
  BlobStoreLaws (OS := local_object_storage self) sound (blob_view self) plain_key False True.
Proof.
  constructor.
  - apply _.
  - intros n w [Hw F]. split; [done|]. eapply fresh_weaken; [done|lia].
  - intros n key body cs oe options w [Hw F] Hk Hb.
    eapply twp_mono; [apply create_blob_spec; [done|eapply fresh_weaken; [done|lia]|done|done]|].
    intros r w' [Wr Hr].
    split; [split; [apply Wr|by apply (wr_fresh _ _ _ Wr)]|]. split; [intros k ? ?; by eapply wrote_others|].
    cbn zeta. destruct r as [[o|]|e].
    + destruct Hr as (-> & He & Hc & ->). split; [|done]. split; [done|]. split; [|done].
      by apply entry_some_file.
    + left. split; [apply Hr|by right].
    + left. apply Hr.
  - intros n key w [Hw F] Hk. eapply twp_mono; [apply get_blob_ok; [done|apply Hk]|].
    intros r w1 [R Hr]. split; [by eapply reached_sound|]. split; [intros k; by apply reached_view|].
    destruct r as [body|e]; [|intros ->; apply entry_some_file; [done|by apply Hr]].
    assert (Hl : later w1 w1) by apply later_refl, R.
    destruct Hr as (_ & _ & _ & Hn & Hs). unfold blob_view.
    destruct (content w (key_path self key)) as [d|] eqn:Hc.
    + destruct (Hs d eq_refl) as [_ Hreads].
      eapply (collect_read n w w1 _ (λ b, Some d = Some b)); [done|done|by apply Hreads|done].
    + eapply (collect_fail n w w1); [done|done|by apply Hn].
  - intros n key s e w [Hw F] Hk (Hse & He & Hlen).
    eapply twp_mono; [apply get_blob_range_ok; [done|apply Hk|unfold u64_ok; simpl; lia..]|].
    intros r w1 [R Hr]. split; [by eapply reached_sound|]. split; [intros k; by apply reached_view|].
    simpl in Hr. destruct r as [body|err].
    2: { intros ->. apply entry_some_file; [done|]. by apply Hr. }
    assert (Hl : later w1 w1) by apply later_refl, R.
    destruct Hr as (_ & _ & _ & Hs & Hn & _). unfold blob_view.
    destruct (content w (key_path self key)) as [d|] eqn:Hc.
    + eapply (collect_read n w w1 _ (λ b, ∃ d0, Some d = Some d0 ∧ b = byte_range s (e - s) d0));
        [done|done|by apply (Hs ltac:(lia) d)|by exists d].
    + eapply (collect_fail n w w1); [done|done|apply Hn; [lia|done|done]].
  - intros n key w [Hw F] Hk. eapply twp_mono; [apply delete_blob_ok; [done|apply Hk]|].
    intros r w1 (Hw1 & F1 & G & _ & Hr). split; [by split; auto|]. split.
    + intros k _ Hne. eapply grows_content; [done|exact G|]. intros E. by apply key_path_inj in E.
    + destruct r as [[]|e]; [done|]. left. by apply reached_view.
  - intros n from to w [Hw F] Hf Ht.
    eapply twp_mono; [apply copy_blob_ok; [done|eapply fresh_weaken; [done|lia]|apply Hf|done]|].
    intros r w' [Wr Hr].
    split; [split; [apply Wr|by apply (wr_fresh _ _ _ Wr)]|]. split; [intros k ? ?; by eapply wrote_others|].
    cbn zeta. destruct r as [[]|e]; [done|left; apply Hr].
Qed.

(** C7: on a local directory any sequence of requests on plain keys - puts,
    conditional puts, reads, ranges, existence checks, deletions, copies -
    returns, whatever calls fail, and behaves as on a map from keys to
    contents: every answer is that of the map, a request that failed left every
    blob as it was, and a conditional put is refused only where the map has the
    key or a directory has its name. *)
Theorem local_history_refines n m rs w :
  wf w → fresh (length rs + n) w → Forall (request_ok (ok_key := plain_key)) rs →
  (∀ key, plain_key key → content w (key_path self key) = m !! key) →
  twp (perform_all (BS := local_blob_store self) rs) (λ answers w', wf w' ∧ fresh n w' ∧
    ∃ m', steps False True m rs answers m' ∧
      (∀ key, plain_key key → content w' (key_path self key) = m' !! key) ∧
      (Forall clear answers → effects m rs = (answers, m'))) w.
Proof.
  intros Hw F Hrs R. eapply twp_mono.
  - exact (history_refines (OS := local_object_storage self) n m rs w (conj Hw F) Hrs R).
  - intros l w' [[Hw' F'] Hr]. by split_and!.
Qed.
End LocalHistory.
