(* ===== verification/Tree.v ===== *)
(** * The tree of a world

    The order of paths is the order in which the directory walks of local.rs
    visit files: the files below a path, sorted, are the concatenation of the
    files below its sorted children. *)
From S2P Require Import Prelude Text Errors Externals Paths Effects Fs FsFacts Local.
From Stdlib Require Import Ascii.

(** ** The order of paths *)

Lemma str_leb_refl a : str_leb a a = true.
Proof. by apply str_leb_le. Qed.

Lemma str_leb_trans a b c : str_leb a b = true → str_leb b c = true → str_leb a c = true.
Proof. rewrite !str_leb_le. intros. by etrans. Qed.

Lemma str_leb_antisymm a b : str_leb a b = true → str_leb b a = true → a = b.
Proof. rewrite !str_leb_le. intros. by apply (anti_symm String.le). Qed.

Lemma str_leb_total a b : str_leb a b = true ∨ str_leb b a = true.
Proof. rewrite !str_leb_le. apply (total String.le). Qed.

#[export] Instance path_le_trans : Transitive path_le.
Proof.
  unfold path_le. intros p. induction p as [|x p IH]; intros [|y q] [|z r]; simpl; try done.
  destruct (String.eqb_spec x y) as [->|Hxy].
  - destruct (String.eqb_spec y z); [by apply IH|by intros].
  - destruct (String.eqb_spec y z) as [->|Hyz].
    + intros. by destruct (String.eqb_spec x z).
    + intros H1 H2. destruct (String.eqb_spec x z) as [->|_]; [|by eapply str_leb_trans].
      exfalso. apply Hxy. by apply str_leb_antisymm.
Qed.

#[export] Instance path_le_total : Total path_le.
Proof.
  unfold path_le. intros p. induction p as [|x p IH]; intros [|y q]; simpl; auto.
  rewrite (String.eqb_sym y x). destruct (String.eqb_spec x y); [apply IH|].
  apply str_leb_total.
Qed.

#[export] Instance path_le_antisymm : AntiSymm (=) path_le.
Proof.
  unfold path_le. intros p. induction p as [|x p IH]; intros [|y q]; simpl; try done.
  rewrite (String.eqb_sym y x). destruct (String.eqb_spec x y) as [->|Hxy].
  - intros. f_equal. by apply IH.
  - intros. by destruct Hxy; apply str_leb_antisymm.
Qed.

Lemma path_leb_app p q r : path_leb (p ++ q) (p ++ r) = path_leb q r.
Proof. induction p as [|x p IH]; simpl; [done|]. by rewrite String.eqb_refl. Qed.

(** ** What is below a path *)

Section Tree.
Context `{EX : Externals}.

Definition all_names (w : World) : list PathBuf := map fst (map_to_list (w_names w)).

Definition below (w : World) (p : PathBuf) : list PathBuf :=
  List.filter (λ q, bool_decide (p `prefix_of` q)) (all_names w).

(** The files at or below a path, in the order of paths. *)
Definition files_below (w : World) (p : PathBuf) : list PathBuf :=
  merge_sort path_le (List.filter (is_file_at (w_names w)) (below w p)).

Lemma elem_of_list_filter {A} (f : A → bool) l x : x ∈ List.filter f l ↔ f x = true ∧ x ∈ l.
Proof. rewrite !list_elem_of_In, List.filter_In. tauto. Qed.

Lemma NoDup_list_filter {A} (f : A → bool) l : NoDup l → NoDup (List.filter f l).
Proof.
  induction 1 as [|x l Hx Hl IH]; simpl; [constructor|]. destruct (f x); [|done].
  constructor; [|done]. rewrite elem_of_list_filter. tauto.
Qed.

Lemma elem_of_all_names w p : p ∈ all_names w ↔ is_Some (w_names w !! p).
Proof.
  unfold all_names. rewrite list_elem_of_fmap. split.
  - intros ([q e] & -> & H%elem_of_map_to_list). by eexists.
  - intros [e H]. exists (p, e). split; [done|]. by apply elem_of_map_to_list.
Qed.

Lemma NoDup_all_names w : NoDup (all_names w).
Proof. apply NoDup_fst_map_to_list. Qed.

Lemma elem_of_below w p q : q ∈ below w p ↔ p `prefix_of` q ∧ is_Some (w_names w !! q).
Proof. unfold below. by rewrite elem_of_list_filter, bool_decide_eq_true, elem_of_all_names. Qed.

Lemma elem_of_children w p q :
  q ∈ children w p ↔ path_parent q = Some p ∧ is_Some (w_names w !! q).
Proof.
  unfold children. rewrite elem_of_list_filter, bool_decide_eq_true.
  by rewrite <- elem_of_all_names.
Qed.

Lemma NoDup_children w p : NoDup (children w p).
Proof. apply NoDup_list_filter, NoDup_all_names. Qed.

Lemma path_parent_Some p q : path_parent q = Some p ↔ ∃ x, q = p ++ [x].
Proof.
  split.
  - destruct q as [|x q _] using rev_ind; [done|]. rewrite path_parent_snoc.
    intros [= <-]. by exists x.
  - intros [x ->]. apply path_parent_snoc.
Qed.

Lemma elem_of_files_below w p q :
  q ∈ files_below w p ↔ p `prefix_of` q ∧ is_file_at (w_names w) q = true.
Proof.
  unfold files_below. rewrite merge_sort_Permutation, elem_of_list_filter, elem_of_below.
  unfold is_file_at. destruct (w_names w !! q) as [[|i]|]; split; intros; try naive_solver.
Qed.

Lemma files_below_sorted w p : StronglySorted path_le (files_below w p).
Proof. apply StronglySorted_merge_sort; apply _. Qed.

(** The ancestors of an entry are directories. *)
Lemma ancestors_exist w p r :
  wf w → is_Some (w_names w !! (p ++ r)) → r ≠ [] → is_dir w p.
Proof.
  intros Hw. induction r as [|x r IH] using rev_ind; intros [e He] Hr; [done|].
  rewrite app_assoc in He. pose proof (wf_parents w Hw _ _ He) as Hd.
  rewrite removelast_snoc in Hd. destruct r as [|y r]; [by rewrite app_nil_r in Hd|].
  apply IH; [|done]. unfold is_dir in Hd. rewrite entry_at_ne in Hd by by destruct p. by eexists.
Qed.

Definition self_entry (w : World) (p : PathBuf) : list PathBuf :=
  if decide (is_Some (w_names w !! p)) then [p] else [].

Lemma below_leaf w p : wf w → ¬ is_dir w p → below w p ≡ₚ self_entry w p.
Proof.
  intros Hw Hd. apply NoDup_Permutation.
  - apply NoDup_list_filter, NoDup_all_names.
  - unfold self_entry. destruct (decide _); repeat constructor. by intros ?%not_elem_of_nil.
  - intros q. rewrite elem_of_below. unfold self_entry. split.
    + intros [[r ->] Hq]. destruct r as [|x r].
      * rewrite app_nil_r in Hq |- *. rewrite decide_True by done. by apply list_elem_of_singleton.
      * destruct Hd. by eapply ancestors_exist.
    + destruct (decide _) as [Hp|]; [|by intros ?%not_elem_of_nil].
      by intros ->%list_elem_of_singleton.
Qed.

Lemma children_disjoint w p c c' q :
  c ∈ children w p → c' ∈ children w p → c `prefix_of` q → c' `prefix_of` q → c = c'.
Proof.
  rewrite !elem_of_children, !path_parent_Some. intros [[x ->] _] [[y ->] _] [r ->] [r' E].
  rewrite <- !app_assoc in E. apply app_inv_head in E. simpl in E. by injection E as -> _.
Qed.

Lemma elem_of_concat_map {A B} (f : A → list B) l x :
  x ∈ concat (map f l) ↔ ∃ a, a ∈ l ∧ x ∈ f a.
Proof.
  rewrite list_elem_of_In, in_concat. split.
  - intros (k & Hk%list_elem_of_In & Hx). apply list_elem_of_fmap in Hk as (a & -> & Ha).
    exists a. split; [done|]. by apply list_elem_of_In.
  - intros (a & Ha & Hx). exists (f a). rewrite <- !list_elem_of_In.
    split; [by apply list_elem_of_fmap_2|done].
Qed.

Lemma NoDup_concat_below w l :
  NoDup l → (∀ c c' q, c ∈ l → c' ∈ l → c `prefix_of` q → c' `prefix_of` q → c = c') →
  NoDup (concat (map (below w) l)).
Proof.
  induction 1 as [|c l Hc Hl IH]; intros Hd; simpl; [constructor|].
  apply NoDup_app. split_and!.
  - apply NoDup_list_filter, NoDup_all_names.
  - intros q [Hq _]%elem_of_below (c' & Hc' & [Hq' _]%elem_of_below)%elem_of_concat_map.
    assert (c = c') as ->; [|done]. eapply Hd; [by left|by right|done|done].
  - apply IH. intros. eapply Hd; [by right|by right|done|done].
Qed.

Lemma below_dir w p :
  wf w → is_dir w p →
  below w p ≡ₚ self_entry w p ++ concat (map (below w) (merge_sort path_le (children w p))).
Proof.
  intros Hw Hd. set (cs := merge_sort path_le (children w p)).
  assert (Hcs : ∀ c, c ∈ cs ↔ c ∈ children w p)
    by (intros c; unfold cs; by rewrite merge_sort_Permutation).
  assert (Nc : NoDup cs) by (unfold cs; rewrite merge_sort_Permutation; apply NoDup_children).
  apply NoDup_Permutation; [apply NoDup_list_filter, NoDup_all_names| |].
  - apply NoDup_app. split_and!.
    + unfold self_entry. destruct (decide _); repeat constructor. by intros ?%not_elem_of_nil.
    + intros q. unfold self_entry. destruct (decide _); [|by intros ?%not_elem_of_nil].
      intros ->%list_elem_of_singleton (c & Hc & [Hq _]%elem_of_below)%elem_of_concat_map.
      apply Hcs, elem_of_children in Hc as [[x ->]%path_parent_Some _].
      by apply prefix_snoc_not in Hq.
    + apply NoDup_concat_below; [done|]. intros c c' q. rewrite !Hcs.
      apply children_disjoint.
  - intros q. rewrite elem_of_app, elem_of_concat_map, elem_of_below. split.
    + intros [[r ->] Hq]. destruct r as [|x r].
      * left. rewrite app_nil_r in Hq |- *. unfold self_entry. rewrite decide_True by done.
        by apply list_elem_of_singleton.
      * right. exists (p ++ [x]). change (x :: r) with ([x] ++ r) in *.
        rewrite app_assoc in *. rewrite Hcs, elem_of_children, elem_of_below. split_and!.
        -- by apply path_parent_snoc.
        -- destruct r as [|y r]; [by rewrite app_nil_r in Hq|].
           assert (Hx : is_dir w (p ++ [x])) by by eapply ancestors_exist.
           unfold is_dir in Hx. rewrite entry_at_ne in Hx by by destruct p. by eexists.
        -- by apply prefix_app_r.
        -- done.
    + intros [Hq|(c & Hc & Hq)].
      * unfold self_entry in Hq. destruct (decide _) as [Hp|]; [|by apply not_elem_of_nil in Hq].
        by apply list_elem_of_singleton in Hq as ->.
      * apply Hcs, elem_of_children in Hc as [[x ->]%path_parent_Some _].
        apply elem_of_below in Hq as [Hq ?]. split; [|done]. etrans; [|exact Hq].
        by apply prefix_app_r.
Qed.

Lemma filter_concat {A} (f : A → bool) (ls : list (list A)) :
  List.filter f (concat ls) = concat (map (List.filter f) ls).
Proof. induction ls as [|l ls IH]; simpl; [done|]. by rewrite List.filter_app, IH. Qed.

Lemma filter_perm {A} (f : A → bool) (l l' : list A) :
  l ≡ₚ l' → List.filter f l ≡ₚ List.filter f l'.
Proof.
  induction 1 as [|x l l' H IH|x y l|l l' l'' H1 IH1 H2 IH2]; simpl; [done| | |by etrans].
  - destruct (f x); [by constructor|done].
  - destruct (f x), (f y); (done || by constructor).
Qed.

Lemma concat_perm {A B} (f g : A → list B) l :
  (∀ a, f a ≡ₚ g a) → concat (map f l) ≡ₚ concat (map g l).
Proof. intros H. induction l as [|a l IH]; simpl; [done|]. by rewrite H, IH. Qed.

Lemma file_name_entry w p : wf w → is_file_at (w_names w) p = true ↔ is_Some (file_at w p).
Proof.
  intros Hw. unfold is_file_at, file_at. destruct (w_names w !! p) as [[|i]|]; split;
    try done; by intros [? ?].
Qed.

Lemma files_below_file w p : wf w → is_Some (file_at w p) → files_below w p = [p].
Proof.
  intros Hw Hf. pose proof (proj2 (file_name_entry w p Hw) Hf) as Hi.
  assert (¬ is_dir w p) as Hd.
  { destruct Hf as [i Hf]. apply entry_at_file in Hf; [|done]. unfold is_dir. congruence. }
  symmetry. apply Permutation_singleton_l. unfold files_below.
  rewrite merge_sort_Permutation.
  rewrite (filter_perm _ _ _ (below_leaf w p Hw Hd)). unfold self_entry.
  rewrite decide_True; simpl; [by rewrite Hi|].
  unfold is_file_at in Hi. destruct (w_names w !! p); [by eexists|done].
Qed.

Lemma files_below_missing w p : wf w → entry_at w p = None → files_below w p = [].
Proof.
  intros Hw He. symmetry. apply Permutation_nil_l. unfold files_below.
  rewrite merge_sort_Permutation.
  rewrite (filter_perm _ _ _ (below_leaf w p Hw ltac:(unfold is_dir; congruence))).
  unfold self_entry. apply entry_none_name in He as [-> _]. by rewrite decide_False by by intros [??].
Qed.

Lemma sorted_concat_files w p cs :
  StronglySorted path_le cs → NoDup cs → (∀ c, c ∈ cs → path_parent c = Some p) →
  StronglySorted path_le (concat (map (files_below w) cs)).
Proof.
  induction 1 as [|c cs Hs IH Hf]; intros Hn Hp; simpl; [constructor|].
  apply NoDup_cons in Hn as [Hc Hn]. apply StronglySorted_app_2.
  - intros q q' [[r ->] _]%elem_of_files_below
      (c' & Hc' & [[r' ->] _]%elem_of_files_below)%elem_of_concat_map.
    pose proof (proj1 (Forall_forall _ _) Hf c' Hc') as Hle.
    destruct (proj1 (path_parent_Some p c) (Hp c ltac:(by left))) as [x ->].
    destruct (proj1 (path_parent_Some p c') (Hp c' ltac:(by right))) as [y ->].
    unfold path_le in *. rewrite <- !app_assoc. rewrite path_leb_app in Hle |- *. simpl in *.
    destruct (String.eqb_spec x y) as [->|]; done.
  - apply files_below_sorted.
  - apply IH; [done|]. intros. apply Hp. by right.
Qed.

(** The walk: the files below a directory are those below its children, in
    order. *)
Lemma files_below_dir w p :
  wf w → is_dir w p →
  files_below w p = concat (map (files_below w) (merge_sort path_le (children w p))).
Proof.
  intros Hw Hd. apply (StronglySorted_unique path_le); [apply files_below_sorted| |].
  - apply sorted_concat_files with p; [apply StronglySorted_merge_sort; apply _| |].
    + rewrite merge_sort_Permutation. apply NoDup_children.
    + intros c. rewrite merge_sort_Permutation. by intros [??]%elem_of_children.
  - unfold files_below at 1. rewrite merge_sort_Permutation.
    rewrite (filter_perm _ _ _ (below_dir w p Hw Hd)), List.filter_app, filter_concat, map_map.
    assert (List.filter (is_file_at (w_names w)) (self_entry w p) = []) as ->.
    { unfold self_entry. destruct (decide _) as [[e He]|]; [|done]. simpl.
      unfold is_file_at. unfold is_dir in Hd. destruct p as [|x p].
      - by rewrite (wf_root w Hw).
      - simpl in Hd. by rewrite Hd. }
    simpl. apply concat_perm. intros c. unfold files_below. by rewrite merge_sort_Permutation.
Qed.

(** How many paths a walk takes from its stack. *)
Definition visits (w : World) (p : PathBuf) : nat :=
  length (below w p) + (if decide (is_Some (w_names w !! p)) then 0 else 1).

Lemma visits_pos w p : (1 <= visits w p)%nat.
Proof.
  unfold visits. destruct (decide _) as [Hp|]; [|lia].
  assert (p ∈ below w p) as H by by apply elem_of_below.
  destruct (below w p); [by apply not_elem_of_nil in H|simpl; lia].
Qed.

Lemma visits_dir w p :
  wf w → is_dir w p →
  visits w p = S (sum_list_with (visits w) (merge_sort path_le (children w p))).
Proof.
  intros Hw Hd. unfold visits at 1.
  rewrite (Permutation_length (below_dir w p Hw Hd)), length_app.
  assert (E : length (concat (map (below w) (merge_sort path_le (children w p)))) =
              sum_list_with (visits w) (merge_sort path_le (children w p))).
  { assert (Hcs : ∀ c, c ∈ merge_sort path_le (children w p) → is_Some (w_names w !! c))
      by (intros c; rewrite merge_sort_Permutation; by intros [??]%elem_of_children).
    induction (merge_sort path_le (children w p)) as [|c cs IH]; simpl; [done|].
    rewrite length_app, IH by (intros; apply Hcs; by right).
    unfold visits at 2. rewrite decide_True by (apply Hcs; by left). lia. }
  rewrite E. unfold self_entry. destruct (decide _); simpl; lia.
Qed.
End Tree.
