(* ===== verification/LocalList.v ===== *)
(** * The local provider's listing and sweeping (src/src/local.rs): correctness *)
From S2P Require Import Prelude Text Errors Providers Externals Paths Keys Effects Streams BlobStore Objects Fs FsFacts FsFrame FsCalls Local LocalBlob LocalRead Tree.
From Stdlib Require Import Ascii.

Section Walk.
Context `{EX : Externals}.

(** ** The calls of a walk *)

Lemma reached_names w w1 : wf w → reached w w1 → w_names w1 = w_names w.
Proof.
  intros Hw R. apply map_eq. intros [|x p].
  - by rewrite (wf_root w Hw), (wf_root w1 (rc_wf _ _ R)).
  - rewrite <- !entry_at_ne by done. apply (rc_entry _ _ R).
Qed.

Lemma names_files_below w w1 p : w_names w1 = w_names w → files_below w1 p = files_below w p.
Proof. intros E. unfold files_below, below, all_names. by rewrite E. Qed.

Lemma names_visits w w1 p : w_names w1 = w_names w → visits w1 p = visits w p.
Proof. intros E. unfold visits, below, all_names. by rewrite E. Qed.

Lemma collect_entries_ok path ps : collect_entries path (map Ok ps) = Ok ps.
Proof. induction ps as [|p ps IH]; simpl; [done|]. by rewrite IH. Qed.

Lemma collect_entries_err path ps e :
  collect_entries path (map Ok ps ++ [Err e]) = Err (storage_io path e).
Proof. induction ps as [|p ps IH]; simpl; [done|]. by rewrite IH. Qed.

Lemma sorted_child_paths_spec p w :
  wf w → is_dir w p →
  twp (sorted_child_paths p) (λ r w', reached w w' ∧
    match r with
    | Ok ps => ps = merge_sort path_le (children w p)
    | Err _ => ¬ no_faults w
    end) w.
Proof.
  intros Hw Hd. unfold sorted_child_paths. apply twp_vis. unfold handle, os_handler.
  pose proof (next_choice_spec w) as [Hs Hf]. destruct (next_choice w) as [c w1]. simpl in *.
  assert (R : reached w w1) by (apply same_reached; [done|done|tauto]).
  assert (Hrd : fs_read_dir p w1 = Ok (children w p)).
  { unfold fs_read_dir. rewrite (rc_entry _ _ R), Hd. unfold children.
    by rewrite (reached_names w w1). }
  unfold read_dir_answer. rewrite Hrd. destruct (fault c) as [e|] eqn:Ec.
  - assert (¬ no_faults w) as Hnf by (intros [??]%Hf; congruence).
    destruct (ch_amount c); simpl; [by apply twp_ret|].
    rewrite collect_entries_err. by apply twp_ret.
  - simpl. rewrite collect_entries_ok. by apply twp_ret.
Qed.

Lemma walk_metadata_spec p w :
  wf w →
  twp (walk_metadata p) (λ r w', reached w w' ∧
    match r with
    | Ok (Some md) => metadata_of w' p md
    | Ok None => entry_at w p = None
    | Err _ => no_faults w → misplaced w p
    end) w.
Proof.
  intros Hw. unfold walk_metadata. eapply twp_seq; [done|by apply metadata_spec|].
  intros [md|e] w1 Hw1 [R Hr]; [by apply twp_ret|].
  destruct (decide (io_kind e = NotFound)) as [Hk|Hk]; apply twp_ret; (split; [done|]).
  - by apply (proj1 Hr).
  - intros Hf. destruct Hr as [_ Hr]. destruct (Hr Hf) as [? Hm]. split; [done|].
    rewrite Hm in Hk. unfold missing_kind in *. by destruct (existsb _ _).
Qed.

(** ** Listing *)

Context (self : LocalStorageBackend).

(** The key listed for a file, if it is listed. *)
Definition listed (continuation : option string) (path : PathBuf) : option string :=
  if is_internal_storage_path (root self) path || is_uploading_temp_file path then None
  else key ← key_for_path self path;
       if match continuation with Some token => str_leb key token | None => false end
       then None else Some key.

(** The keys below a path, in the order of the walk. *)
Definition listing (w : World) (continuation : option string) (p : PathBuf) : list string :=
  omap (listed continuation) (files_below w p).

Lemma internal_below p q :
  is_internal_storage_path (root self) p = true → p `prefix_of` q →
  is_internal_storage_path (root self) q = true.
Proof.
  unfold is_internal_storage_path. intros Hp [r ->].
  destruct (path_strip_prefix (root self) p) as [[|c l]|] eqn:E; try done.
  apply path_strip_prefix_Some in E as ->. by rewrite <- app_assoc, path_strip_prefix_app.
Qed.

Lemma listing_internal w c p :
  is_internal_storage_path (root self) p = true → listing w c p = [].
Proof.
  intros Hi. unfold listing. assert (H : ∀ q, q ∈ files_below w p → listed c q = None).
  { intros q [Hq _]%elem_of_files_below. unfold listed. by rewrite (internal_below p q). }
  induction (files_below w p) as [|q l IH]; simpl; [done|].
  rewrite H by by left. apply IH. intros. apply H. by right.
Qed.

Lemma listing_dir w c p :
  wf w → is_dir w p →
  listing w c p = concat (map (listing w c) (merge_sort path_le (children w p))).
Proof.
  intros Hw Hd. unfold listing. rewrite files_below_dir by done.
  induction (merge_sort path_le (children w p)) as [|q l IH]; simpl; [done|].
  by rewrite omap_app, IH.
Qed.

Lemma names_listing w w1 c p : w_names w1 = w_names w → listing w1 c p = listing w c p.
Proof. intros E. unfold listing. by rewrite (names_files_below w w1). Qed.

Lemma take_app_full {A} n (l k : list A) : length l = n → take n (l ++ k) = l.
Proof. intros <-. by rewrite take_app_length. Qed.

Definition to_walk (w : World) (stack : list PathBuf) : nat := sum_list_with (visits w) stack.

Lemma names_to_walk w w1 stack : w_names w1 = w_names w → to_walk w1 stack = to_walk w stack.
Proof.
  intros E. unfold to_walk. induction stack as [|p stack IH]; simpl; [done|].
  by rewrite IH, (names_visits w w1).
Qed.

Lemma reached_misplaced w w1 p : wf w → reached w w1 → misplaced w1 p → misplaced w p.
Proof.
  intros Hw R. unfold misplaced. by rewrite (rc_entry _ _ R), (reached_missing_kind w w1).
Qed.

(** The keys of a stack. *)
Definition stack_listing (w : World) (c : option string) (stack : list PathBuf) : list string :=
  concat (map (listing w c) stack).

(** What a walk from [page] and [stack] gives. *)
Definition page_result (w : World) (c : option string) (limit : Z) (page : list string)
    (stack : list PathBuf) (r : storage_result (list string)) (w' : World) : Prop :=
  reached w w' ∧
  match r with
  | Ok ks => ks = take (Z.to_nat limit) (page ++ stack_listing w c stack)
  | Err _ => no_faults w → ∃ p, p ∈ stack ∧ misplaced w p
  end.

Lemma names_stack_listing w w1 c stack :
  w_names w1 = w_names w → stack_listing w1 c stack = stack_listing w c stack.
Proof.
  intros E. unfold stack_listing. induction stack as [|p l IH]; simpl; [done|].
  by rewrite IH, (names_listing w w1).
Qed.

(** A step of a walk keeps the result. *)
Lemma page_result_step w w1 c limit page page' stack stack' r w' :
  wf w → reached w w1 →
  page' ++ stack_listing w c stack' = page ++ stack_listing w c stack →
  (∀ p, p ∈ stack' → misplaced w p → p ∈ stack) →
  page_result w1 c limit page' stack' r w' → page_result w c limit page stack r w'.
Proof.
  intros Hw R E Hm [R' Hr]. split; [by eapply reached_trans|]. destruct r as [ks|e].
  - by rewrite Hr, (names_stack_listing w w1), E by by apply reached_names.
  - intros Hf. destruct Hr as (p & Hp & Hmis); [by apply (rc_faults _ _ R)|].
    apply (reached_misplaced w w1) in Hmis; [|done..]. exists p. auto.
Qed.

Lemma metadata_file w w1 p md :
  wf w → reached w w1 → metadata_of w1 p md →
  if md_is_file md then is_Some (file_at w p) else is_dir w p.
Proof.
  intros Hw R. unfold metadata_of. rewrite (rc_entry _ _ R).
  destruct (entry_at w p) as [[|i]|] eqn:E; [by intros ->| |done].
  intros (nd & _ & ->). simpl. exists i. by apply entry_at_file.
Qed.

Lemma listing_file w c p :
  wf w → is_Some (file_at w p) → listing w c p = option_list (listed c p).
Proof.
  intros Hw Hf. unfold listing. rewrite files_below_file by done. simpl.
  by destruct (listed c p).
Qed.

Lemma listing_missing w c p : wf w → entry_at w p = None → listing w c p = [].
Proof. intros Hw He. unfold listing. by rewrite files_below_missing. Qed.

Lemma page_loop_spec continuation limit :
  ∀ n page stack w, wf w → n = to_walk w stack → Z.of_nat (length page) ≤ limit →
  twp (loop (page_step self continuation limit) (page, stack))
    (page_result w continuation limit page stack) w.
Proof.
  induction n as [n IH] using lt_wf_ind. intros page stack w Hw Hn Hl.
  apply twp_iter. unfold page_step. destruct stack as [|path stack].
  { apply twp_ret. apply twp_ret. split; [by apply reached_refl|].
    unfold stack_listing. simpl. rewrite app_nil_r, take_ge by lia. done. }
  destruct (Z.eqb_spec (Z.of_nat (length page)) limit) as [He|He].
  { apply twp_ret. apply twp_ret. split; [by apply reached_refl|].
    rewrite take_app_full; [done|lia]. }
  pose proof (visits_pos w path) as Hv. unfold to_walk in Hn. simpl in Hn.
  assert (Go : ∀ page' stack' w1, reached w w1 → Z.of_nat (length page') ≤ limit →
    (to_walk w stack' < n)%nat →
    page' ++ stack_listing w continuation stack' =
      page ++ listing w continuation path ++ stack_listing w continuation stack →
    (∀ p, p ∈ stack' → misplaced w p → p ∈ path :: stack) →
    twp (loop (page_step self continuation limit) (page', stack'))
      (page_result w continuation limit page (path :: stack)) w1).
  { intros page' stack' w1 R Hl' Hlt E Hm. eapply twp_mono; [eapply (IH _ Hlt)|].
    - apply R.
    - by rewrite (names_to_walk w w1) by by apply reached_names.
    - done.
    - intros r w'. by eapply page_result_step. }
  assert (Skip : ∀ w1, reached w w1 → listing w continuation path = [] →
    twp (loop (page_step self continuation limit) (page, stack))
      (page_result w continuation limit page (path :: stack)) w1).
  { intros w1 R E. apply Go; [done|done|unfold to_walk; lia|by rewrite E|by right]. }
  destruct (is_internal_storage_path (root self) path) eqn:Ei.
  { apply twp_ret. apply Skip; [by apply reached_refl|by apply listing_internal]. }
  eapply twp_seq; [done|by apply walk_metadata_spec|]. intros [[md|]|e] w1 Hw1 [R Hr].
  2: { apply twp_ret. apply Skip; [done|by apply listing_missing]. }
  2: { apply twp_ret. apply twp_ret. split; [done|]. intros Hf. exists path.
       split; [by left|auto]. }
  pose proof (metadata_file w w1 path md Hw R Hr) as Hmd. destruct (md_is_file md).
  - pose proof (listing_file w continuation path Hw Hmd) as Hlf. unfold listed in Hlf.
    rewrite Ei in Hlf. simpl in Hlf. destruct (is_uploading_temp_file path).
    { apply twp_ret. by apply Skip. }
    destruct (key_for_path self path) as [key|]; [|apply twp_ret; by apply Skip].
    simpl in Hlf. destruct (match continuation with Some token => _ | None => _ end);
      [apply twp_ret; by apply Skip|].
    apply twp_ret. apply Go; [done| |unfold to_walk; lia| |by right].
    + rewrite length_app. simpl. lia.
    + rewrite Hlf. by rewrite <- app_assoc.
  - rewrite (listing_dir w continuation path Hw Hmd) in Go.
    assert (Hd1 : is_dir w1 path) by (unfold is_dir; by rewrite (rc_entry _ _ R)).
    eapply twp_seq; [done|by apply sorted_child_paths_spec|]. intros [ps|e] w2 Hw2 [R2 Hps].
    + assert (Hcs : children w1 path = children w path)
        by (unfold children; by rewrite (reached_names w w1)).
      rewrite Hcs in Hps. subst ps.
      apply twp_ret. apply Go; [by eapply reached_trans|done| | |].
      * unfold to_walk. rewrite sum_list_with_app, Hn, visits_dir by done. lia.
      * unfold stack_listing. by rewrite map_app, concat_app.
      * intros p [Hp|Hp]%elem_of_app Hmis; [|by right]. exfalso.
        rewrite merge_sort_Permutation in Hp. apply elem_of_children in Hp as [Hpar [e He']].
        destruct Hmis as [Hmis _]. apply entry_none_name in Hmis as [Hmis _]. congruence.
    + apply twp_ret. apply twp_ret. split; [by eapply reached_trans|]. intros Hf.
      destruct Hps. by apply (rc_faults _ _ R).
Qed.

(** ** Pages *)

(** Where a listing starts. *)
Definition start_path (prefix : string) : PathBuf :=
  if str_is_empty prefix then root self else path_join (root self) prefix.

(** All keys with a prefix, in the order of the walk. *)
Definition all_keys (w : World) (prefix : string) : list string :=
  listing w None (start_path prefix).

Lemma listing_after w c p :
  listing w c p = List.filter (after_token c) (listing w None p).
Proof.
  assert (E : ∀ q, listed c q = listed None q ≫= λ k, if after_token c k then Some k else None).
  { intros q. unfold listed.
    destruct (is_internal_storage_path (root self) q || is_uploading_temp_file q); [done|].
    destruct (key_for_path self q) as [key|]; simpl; [|done].
    destruct c as [t|]; simpl; [|done]. rewrite str_ltb_leb. by destruct (str_leb key t). }
  unfold listing. induction (files_below w p) as [|q l IH]; simpl; [done|].
  rewrite E. destruct (listed None q) as [k|]; simpl; [|exact IH].
  destruct (after_token c k); simpl; [by f_equal|exact IH].
Qed.

Lemma page_of_take limit (ks : list string) :
  page_of limit (take (S limit) ks) = page_of limit ks.
Proof.
  unfold page_of. rewrite length_take.
  destruct (Nat.ltb_spec limit (length ks)) as [H|H].
  - rewrite Nat.min_l by lia. rewrite (proj2 (Nat.ltb_lt _ _)) by lia.
    by rewrite take_take, Nat.min_l by lia.
  - rewrite Nat.min_r by lia. rewrite (proj2 (Nat.ltb_ge _ _)) by lia.
    by rewrite take_ge by lia.
Qed.

Lemma list_blobs_page_ok prefix continuation limit w :
  wf w → validate_blob_prefix prefix = Ok tt → 0 < limit → 24 * (limit + 1) ≤ isize_MAX →
  twp (list_blobs_page self prefix continuation limit) (λ r w', reached w w' ∧
    match r with
    | Ok page => page = page_of (Z.to_nat limit)
                          (List.filter (after_token continuation) (all_keys w prefix))
    | Err _ => no_faults w → misplaced w (start_path prefix)
    end) w.
Proof.
  intros Hw Hp H0 Hl. unfold list_blobs_page.
  rewrite (proj2 (Z.eqb_neq limit 0)) by lia.
  assert (Hadd : usize_add limit 1 = limit + 1) by (unfold usize_add; rewrite Z.mod_small; unfold isize_MAX in *; lia).
  rewrite Hadd. unfold collect_blob_page. rewrite Hp.
  rewrite (proj2 (Z.ltb_ge _ _)) by lia. fold (start_path prefix).
  eapply twp_seq; [done|eapply page_loop_spec; [done|reflexivity|simpl; lia]|].
  intros [ks|e] w1 _ [R Hr].
  - unfold stack_listing in Hr. simpl in Hr. rewrite app_nil_r, listing_after in Hr.
    fold (all_keys w prefix) in Hr.
    set (keys := List.filter (after_token continuation) (all_keys w prefix)) in *.
    replace (Z.to_nat (limit + 1)) with (S (Z.to_nat limit)) in Hr by lia.
    rewrite <- page_of_take, <- Hr. unfold page_of.
    destruct (Z.ltb_spec limit (Z.of_nat (length ks))) as [Hlt|Hge]; apply twp_ret;
      (split; [done|]).
    + by rewrite (proj2 (Nat.ltb_lt _ _)) by lia.
    + by rewrite (proj2 (Nat.ltb_ge _ _)) by lia.
  - apply twp_ret. split; [done|]. intros Hf. destruct (Hr Hf) as (p & Hp' & Hm).
    by apply list_elem_of_singleton in Hp' as ->.
Qed.

(** C32: a page holds the first [limit] keys after the token of the listing,
    and its continuation is the last of them, or nothing when there are no
    more; the listing is the keys of all files below the prefix, except
    temporary and internal ones, in the order of the walk: the order of
    paths, component by component.  A page is an error only when a call fails
    or the prefix lies below a file; nothing changes.  A limit of zero and a
    prefix that fails validation are refused before any call. *)
Theorem list_blobs_page_spec prefix continuation limit w :
  wf w → 0 ≤ limit → 24 * (limit + 1) ≤ isize_MAX →
  (limit = 0 → runs (list_blobs_page self prefix continuation limit) w
     (Err (PreconditionFailed prefix "list limit must be greater than zero")) w) ∧
  (0 < limit → prefix ≠ "" → ¬ key_safe prefix →
   runs (list_blobs_page self prefix continuation limit) w (Err (InvalidStorageKey prefix)) w) ∧
  (0 < limit → prefix = "" ∨ key_safe prefix →
   twp (list_blobs_page self prefix continuation limit) (λ r w', reached w w' ∧
     match r with
     | Ok page => page = page_of (Z.to_nat limit)
                           (List.filter (after_token continuation) (all_keys w prefix))
     | Err _ => no_faults w → misplaced w (start_path prefix)
     end) w).
Proof.
  intros Hw H0 Hl. split_and!.
  - intros ->. by apply runs_ret.
  - intros Hlt Hp Hs. unfold list_blobs_page. rewrite (proj2 (Z.eqb_neq _ _)) by lia.
    unfold collect_blob_page, validate_blob_prefix.
    rewrite (proj2 (str_is_empty_false prefix)), validate_blob_key_unsafe by done.
    by apply runs_ret.
  - intros Hlt Hp. apply list_blobs_page_ok; [done| |done|done].
    unfold validate_blob_prefix. destruct Hp as [->|Hp]; [done|].
    destruct (str_is_empty prefix); [done|]. by apply validate_blob_key_safe.
Qed.

(** ** Which keys are listed *)

Lemma key_for_key_path key : key_safe key → key_for_path self (key_path self key) = Some key.
Proof.
  intros H. unfold key_for_path, key_path. rewrite path_strip_prefix_app. simpl.
  unfold path_to_string. assert (join "/" (split "/" key) = key) as -> by apply (join_split "/").
  rewrite replace_char_id; [done|]. apply key_safe_chars; [done|by left].
Qed.

(** A key of the provider's own directory. *)
Definition internal_key (key : string) : bool :=
  match split "/" key with x :: _ => String.eqb x INTERNAL_STORAGE_DIR | [] => false end.

Lemma internal_key_path key :
  is_internal_storage_path (root self) (key_path self key) = internal_key key.
Proof.
  unfold is_internal_storage_path, internal_key, key_path.
  by rewrite path_strip_prefix_app.
Qed.

(** Every blob below the prefix is listed, and what is listed is the key of a
    file below the prefix. *)
Lemma all_keys_complete w prefix key :
  wf w → plain_key key → internal_key key = false → is_Some (content w (key_path self key)) →
  start_path prefix `prefix_of` key_path self key → key ∈ all_keys w prefix.
Proof.
  intros Hw Hk Hi Hc Hp. unfold all_keys, listing. apply list_elem_of_omap.
  exists (key_path self key). split.
  - apply elem_of_files_below. split; [done|]. apply file_name_entry; [done|].
    destruct Hc as [d (i & Hf & _)%content_Some]. by exists i.
  - unfold listed. rewrite internal_key_path, Hi, plain_path by done. simpl.
    by rewrite key_for_key_path by apply Hk.
Qed.

Lemma all_keys_sound w prefix key :
  wf w → key ∈ all_keys w prefix →
  ∃ path, key_for_path self path = Some key ∧ start_path prefix `prefix_of` path ∧
    is_Some (file_at w path) ∧ is_uploading_temp_file path = false ∧
    is_internal_storage_path (root self) path = false.
Proof.
  intros Hw (path & Hp & Hl)%list_elem_of_omap.
  apply elem_of_files_below in Hp as [Hp Hf]. exists path. unfold listed in Hl.
  destruct (is_internal_storage_path _ _), (is_uploading_temp_file _); try done. simpl in Hl.
  destruct (key_for_path self path); simplify_eq/=. split_and!; try done.
  by apply file_name_entry.
Qed.

(** ** When the order of paths is the order of keys *)

(** For siblings: the name of a directory is not continued by a character
    that sorts before the separator, and names have no backslash. *)
Definition sibling_ok (w : World) (p q : PathBuf) : bool :=
  match last p, last q with
  | Some a, Some b =>
      negb (contains_char BACKSLASH b) &&
      (if decide (removelast p = removelast q ∧ w_names w !! p = Some DirEntry)
       then match strip_prefix a b with
            | Some (String ch _) =>
                match Ascii.compare "/" ch with Lt => true | _ => false end
            | _ => true
            end
       else true)
  | _, _ => true
  end.

Definition orderly (w : World) : bool :=
  forallb (λ p, forallb (sibling_ok w p) (all_names w)) (all_names w).

Lemma orderly_spec w d a b :
  orderly w = true → is_Some (w_names w !! (d ++ [a])) → is_Some (w_names w !! (d ++ [b])) →
  contains_char BACKSLASH b = false ∧
  (w_names w !! (d ++ [a]) = Some DirEntry → ∀ ch rest, b = a +:+ String ch rest →
     Ascii.compare "/" ch = Lt).
Proof.
  intros Ho Ha Hb. unfold orderly in Ho. rewrite forallb_forall in Ho.
  specialize (Ho (d ++ [a])). rewrite <- list_elem_of_In, elem_of_all_names in Ho.
  specialize (Ho Ha). rewrite forallb_forall in Ho. specialize (Ho (d ++ [b])).
  rewrite <- list_elem_of_In, elem_of_all_names in Ho. specialize (Ho Hb).
  unfold sibling_ok in Ho. rewrite !last_snoc, !removelast_snoc in Ho.
  apply andb_prop in Ho as [H1 H2]. apply negb_true_iff in H1. split; [done|].
  intros Hd ch rest ->. rewrite decide_True, strip_prefix_app in H2 by done.
  by destruct (Ascii.compare "/" ch).
Qed.

Lemma path_leb_cases p q :
  path_leb p q = true → p ≠ q →
  (∃ x r, q = p ++ x :: r) ∨
  (∃ d a b x y, p = d ++ a :: x ∧ q = d ++ b :: y ∧ a ≠ b ∧ str_leb a b = true).
Proof.
  revert q. induction p as [|a p IH]; intros [|b q]; simpl; try done.
  - intros _ _. left. by exists b, q.
  - destruct (String.eqb_spec a b) as [->|Hab].
    + intros H Hne. destruct (IH q) as [(x & r & ->)|(d & a' & b' & x & y & -> & -> & ?)];
        [done|congruence| |].
      * left. by exists x, r.
      * right. by exists (b :: d), a', b', x, y.
    + intros H _. right. by exists [], a, b, p, q.
Qed.

Lemma prefix_exists w p x r :
  wf w → is_Some (w_names w !! (p ++ x :: r)) → is_Some (w_names w !! (p ++ [x])).
Proof.
  intros Hw. destruct r as [|y r]; [done|]. intros H.
  change (x :: y :: r) with ([x] ++ y :: r) in H. rewrite app_assoc in H.
  apply (ancestors_exist w (p ++ [x]) (y :: r) Hw) in H; [|done].
  unfold is_dir in H. rewrite entry_at_ne in H by by destruct p. by eexists.
Qed.

Lemma orderly_no_backslash w p rel :
  wf w → orderly w = true → is_Some (w_names w !! (p ++ rel)) → rel ≠ [] →
  contains_char BACKSLASH (join "/" rel) = false.
Proof.
  intros Hw Ho. revert p. induction rel as [|x rel IH]; intros p Hp Hne; [done|].
  assert (Hx : is_Some (w_names w !! (p ++ [x]))) by by eapply prefix_exists.
  destruct (orderly_spec w p x x Ho Hx Hx) as [Hb _].
  destruct rel as [|y rel]; [done|]. rewrite join_cons, !contains_char_app, Hb by done. simpl.
  apply (IH (p ++ [x])); [|done]. by rewrite <- app_assoc.
Qed.

(** Two files in the order of paths have keys in the order of strings. *)
Lemma orderly_keys w p q k k' :
  wf w → orderly w = true → path_le p q → p ≠ q →
  is_Some (file_at w p) → is_Some (file_at w q) →
  key_for_path self p = Some k → key_for_path self q = Some k' → str_lt k k'.
Proof.
  intros Hw Ho Hle Hne Hp Hq. unfold key_for_path.
  destruct (path_strip_prefix (root self) p) as [rp|] eqn:Ep; [|done].
  destruct (path_strip_prefix (root self) q) as [rq|] eqn:Eq; [|done]. simpl.
  apply path_strip_prefix_Some in Ep as ->. apply path_strip_prefix_Some in Eq as ->.
  assert (Hn : ∀ r, is_Some (file_at w r) → is_Some (w_names w !! r)).
  { intros r [i Hi]. unfold file_at in Hi. destruct (w_names w !! r); [by eexists|done]. }
  assert (Hpd : ¬ is_dir w (root self ++ rp)).
  { destruct Hp as [i Hi]. apply entry_at_file in Hi; [|done]. unfold is_dir. congruence. }
  unfold path_le in Hle. rewrite path_leb_app in Hle.
  destruct (path_leb_cases rp rq Hle) as [(x & r & ->)|(d & a & b & x & y & -> & -> & Hab & Hl)];
    [congruence| |].
  { exfalso. apply Hpd. apply Hn in Hq. rewrite app_assoc in Hq. by eapply ancestors_exist. }
  unfold path_to_string.
  rewrite !replace_char_id by
    (eapply orderly_no_backslash; [done|done|by apply Hn|by destruct d]).
  intros [= <-] [= <-]. unfold str_lt. rewrite !join_app. apply str_ltb_compare.
  rewrite compare_app.
  destruct (str_leb_cases a b Hl Hab) as [(ch & rest & ->)|(s & c & r & c' & r' & -> & -> & Hc)].
  - rewrite app_assoc_str, app_cons_str.
    assert (E : ∀ t, a +:+ t = a +:+ t) by done.
    destruct x as [|x1 x].
    + rewrite compare_app. done.
    + rewrite compare_app. simpl.
      assert (Hd : w_names w !! ((root self ++ d) ++ [a]) = Some DirEntry).
      { apply Hn in Hp. change (a :: x1 :: x) with ([a] ++ x1 :: x) in Hp.
        rewrite !app_assoc in Hp. apply (ancestors_exist w _ (x1 :: x)) in Hp; [|done..].
        unfold is_dir in Hp. by rewrite entry_at_ne in Hp by by destruct (root self ++ d). }
      apply Hn in Hq. rewrite app_assoc in Hq. apply prefix_exists in Hq; [|done].
      destruct (orderly_spec w (root self ++ d) a (a +:+ String ch rest) Ho) as [_ Ho'];
        [by eexists|done|]. by rewrite (Ho' Hd ch rest eq_refl).
  - rewrite !app_assoc_str, compare_app, !app_cons_str. simpl. by rewrite Hc.
Qed.

Lemma StronglySorted_omap {A B} (R : relation A) (S : relation B) (f : A → option B) l :
  StronglySorted R l → NoDup l →
  (∀ x y a b, x ∈ l → y ∈ l → R x y → x ≠ y → f x = Some a → f y = Some b → S a b) →
  StronglySorted S (omap f l).
Proof.
  induction 1 as [|x l Hs IH Hf]; intros Hn HS; simpl; [constructor|].
  apply NoDup_cons in Hn as [Hx Hn].
  assert (IH' : StronglySorted S (omap f l)).
  { apply IH; [done|]. intros y z a b Hy Hz. apply HS; by right. }
  destruct (f x) as [a|] eqn:E; [|done]. constructor; [done|].
  apply Forall_forall. intros b (y & Hy & Hb)%list_elem_of_omap.
  eapply HS; [by left|by right| |by intros ->|done|done].
  by eapply Forall_forall in Hf.
Qed.

Lemma orderly_sorted w prefix :
  wf w → orderly w = true → sorted_keys (all_keys w prefix).
Proof.
  intros Hw Ho. unfold all_keys, listing. eapply StronglySorted_omap.
  - apply files_below_sorted.
  - unfold files_below. rewrite merge_sort_Permutation.
    apply NoDup_list_filter, NoDup_list_filter, NoDup_all_names.
  - intros p q a b [_ Hp]%elem_of_files_below [_ Hq]%elem_of_files_below Hle Hne Ha Hb.
    apply file_name_entry in Hp; [|done]. apply file_name_entry in Hq; [|done].
    unfold listed in Ha, Hb.
    destruct (is_internal_storage_path _ p || _), (is_internal_storage_path _ q || _); try done.
    destruct (key_for_path self p) eqn:Ep, (key_for_path self q) eqn:Eq; simplify_eq/=.
    by eapply (orderly_keys w p q).
Qed.

(** C27: where the order of paths is the order of keys (no directory has a
    sibling whose name continues its name with a character below the
    separator), [list_blobs] returns the key of every blob below the prefix,
    in order and without repetition, however many pages that takes. *)
Theorem list_blobs_complete prefix w :
  wf w → no_faults w → validate_blob_prefix prefix = Ok tt → ¬ misplaced w (start_path prefix) →
  orderly w = true →
  ∃ w', runs (BlobStore.list_blobs (BlobStore := local_blob_store self) prefix) w
          (Ok (all_keys w prefix)) w' ∧ reached w w' ∧ sorted_keys (all_keys w prefix) ∧
    (∀ key, plain_key key → internal_key key = false →
       start_path prefix `prefix_of` key_path self key →
       is_Some (content w (key_path self key)) → key ∈ all_keys w prefix) ∧
    (∀ key, key ∈ all_keys w prefix → ∃ path, key_for_path self path = Some key ∧
       start_path prefix `prefix_of` path ∧ is_Some (file_at w path)).
Proof.
  intros Hw Hnf Hp Hm Ho. pose proof (orderly_sorted w prefix Hw Ho) as Hs.
  destruct (sorted_pages (list_blobs_page self) (reached w) prefix (all_keys w prefix) Hs)
    with (w := w) as (w' & P & R); [|by apply reached_refl|].
  - intros c w1 R1. destruct (list_blobs_page_ok prefix c 1000 w1) as (r & w2 & Hr & R2 & Hpg);
      [apply R1|done|lia|unfold isize_MAX; lia|].
    exists w2. split; [|by eapply reached_trans]. destruct r as [page|e].
    + rewrite Hpg in Hr. unfold all_keys in Hr |- *.
      by rewrite (names_listing w w1) in Hr by by apply reached_names.
    + exfalso. apply Hm. eapply reached_misplaced; [done|exact R1|]. by apply Hpg, (rc_faults _ _ R1).
  - exists w'. split; [|split_and!; [done|done| |]].
    + change (BlobStore.list_blobs prefix) with (default_list_blobs (list_blobs_page self) prefix).
      by apply (list_loop_runs _ _ _ _ _ None _ []).
    + intros. by apply all_keys_complete.
    + intros key Hk. destruct (all_keys_sound w prefix key Hw Hk) as (path & ? & ? & ? & _).
      by exists path.
Qed.
End Walk.
