(* ===== verification/LocalSweep.v ===== *)
(** * Sweeping stale temporary files (src/src/local.rs): correctness *)
From S2P Require Import Prelude Text Errors Providers Externals Paths Keys Effects Streams BlobStore Objects Fs FsFacts FsFrame FsCalls Local LocalBlob LocalRead Tree LocalList.
From Stdlib Require Import Ascii.

Section Sweep.
Context `{EX : Externals}.

(** The two worlds have the same entries at and below [p]. *)
Definition agree (w w1 : World) (p : PathBuf) : Prop :=
  ∀ q, p `prefix_of` q → w_names w1 !! q = w_names w !! q.

Lemma agree_below w w1 p : agree w w1 p → below w1 p ≡ₚ below w p.
Proof.
  intros H. apply NoDup_Permutation; [apply NoDup_list_filter, NoDup_all_names..|].
  intros q. rewrite !elem_of_below. split; intros [Hp Hq]; (split; [done|]);
    specialize (H q Hp); [by rewrite <- H|by rewrite H].
Qed.

Lemma agree_files_below w w1 p : agree w w1 p → files_below w1 p = files_below w p.
Proof.
  intros H. apply (StronglySorted_unique path_le); [apply files_below_sorted..|].
  apply NoDup_Permutation.
  - unfold files_below. rewrite merge_sort_Permutation.
    apply NoDup_list_filter, NoDup_list_filter, NoDup_all_names.
  - unfold files_below. rewrite merge_sort_Permutation.
    apply NoDup_list_filter, NoDup_list_filter, NoDup_all_names.
  - intros q. rewrite !elem_of_files_below. unfold is_file_at.
    split; intros [Hp Hq]; (split; [done|]); specialize (H q Hp);
      [by rewrite <- H|by rewrite H].
Qed.

Lemma agree_visits w w1 p : agree w w1 p → visits w1 p = visits w p.
Proof.
  intros H. unfold visits. rewrite (Permutation_length (agree_below w w1 p H)).
  by rewrite (H p).
Qed.

Lemma names_agree w w1 p : w_names w1 = w_names w → agree w w1 p.
Proof. intros E q _. by rewrite E. Qed.

(** Neither path is at or below the other. *)
Definition apart (p q : PathBuf) : Prop := ¬ p `prefix_of` q ∧ ¬ q `prefix_of` p.

Lemma apart_below p q r : apart p q → p `prefix_of` r → ¬ q `prefix_of` r.
Proof. intros [H1 H2] Hp Hq. destruct (prefix_weak_total p q r Hp Hq); auto. Qed.

(** ** What is removed *)

Context (now older_than : Z).

(** A temporary file that is old enough. *)
Definition stale (w : World) (path : PathBuf) : bool :=
  is_uploading_temp_file path &&
  match file_at w path ≫= λ i, w_inodes w !! i with
  | Some nd => (i_mtime nd <=? now) && (older_than <=? now - i_mtime nd)
  | None => false
  end.

Definition stale_below (w : World) (p : PathBuf) : list PathBuf :=
  List.filter (stale w) (files_below w p).

Definition stale_stack (w : World) (stack : list PathBuf) : list PathBuf :=
  concat (map (stale_below w) stack).

Lemma elem_of_stale_stack w stack q :
  wf w → q ∈ stale_stack w stack ↔
  ∃ p, p ∈ stack ∧ p `prefix_of` q ∧ is_Some (file_at w q) ∧ stale w q = true.
Proof.
  intros Hw. unfold stale_stack. rewrite elem_of_concat_map. f_equiv. intros p.
  unfold stale_below. rewrite elem_of_list_filter, elem_of_files_below, file_name_entry by done.
  tauto.
Qed.

(** The files of [S] are gone, all others are as they were. *)
Record swept (S : list PathBuf) (w w' : World) : Prop := mkSwept {
  sw_wf : wf w';
  sw_grows : grows 0 (.∈ S) nowhere w w';
  sw_gone : ∀ p, p ∈ S → file_at w' p = None;
}.

Lemma swept_nil w w1 : reached w w1 → swept [] w w1.
Proof. intros R. constructor; [apply R|apply R|by intros p ?%not_elem_of_nil]. Qed.

Lemma swept_app S1 S2 w w1 w2 :
  swept S1 w w1 → swept S2 w1 w2 → (∀ p, p ∈ S1 → p ∉ S2) → swept (S1 ++ S2) w w2.
Proof.
  intros H1 H2 Hd. constructor; [apply H2| |].
  - eapply grows_trans; [apply H1|apply H2|..].
    + intros p. cbv beta. rewrite elem_of_app. tauto.
    + by intros p [[]|[]].
    + done.
  - intros p [Hp|Hp]%elem_of_app; [|by apply (sw_gone _ _ _ H2)].
    rewrite (gr_files _ _ _ _ _ (sw_grows _ _ _ H2)) by by apply Hd.
    by apply (sw_gone _ _ _ H1).
Qed.

Lemma swept_perm S S' w w' : S ≡ₚ S' → swept S w w' → swept S' w w'.
Proof.
  intros E H. constructor; [apply H| |].
  - eapply grows_weaken; [apply H| |done|done]. intros p. cbv beta. by rewrite E.
  - intros p. rewrite <- E. apply H.
Qed.

Lemma NoDup_stale_stack w stack : StronglySorted apart stack → NoDup (stale_stack w stack).
Proof.
  induction 1 as [|p stack Hs IH Hf]; [constructor|]. unfold stale_stack. simpl.
  apply NoDup_app. split_and!; [| |done].
  - unfold stale_below, files_below. apply NoDup_list_filter. rewrite merge_sort_Permutation.
    apply NoDup_list_filter, NoDup_list_filter, NoDup_all_names.
  - intros q. unfold stale_below. rewrite elem_of_list_filter, elem_of_files_below.
    intros (_ & Hq & _) (p' & Hp' & Hq')%elem_of_concat_map.
    rewrite elem_of_list_filter, elem_of_files_below in Hq'. destruct Hq' as (_ & Hq' & _).
    eapply Forall_forall in Hf; [|exact Hp']. by apply (apart_below p p' q).
Qed.

Lemma stale_same w w1 P D p :
  wf w → grows 0 P D w w1 → ¬ P p → stale w1 p = stale w p.
Proof.
  intros Hw G Hp. unfold stale. f_equal. rewrite (gr_files _ _ _ _ _ G) by done.
  destruct (file_at w p) as [i|] eqn:E; [|done]. simpl.
  destruct (file_at_links w p i Hw E) as [nd Hi]. rewrite (gr_inodes _ _ _ _ _ G); [done|].
  apply (wf_inodes w Hw). by eexists.
Qed.

(** Removing files elsewhere does not change what is stale below a path. *)
Lemma stale_stack_same w w1 P D stack :
  wf w → grows 0 P D w w1 → (∀ p q, p ∈ stack → P q → ¬ p `prefix_of` q) →
  (∀ p, p ∈ stack → agree w w1 p) → stale_stack w1 stack = stale_stack w stack.
Proof.
  intros Hw G HP Ha. unfold stale_stack. induction stack as [|p stack IH]; simpl; [done|].
  rewrite IH; [|intros; apply HP; [by right|done]|intros; apply Ha; by right]. f_equal.
  unfold stale_below. rewrite (agree_files_below w w1) by (apply Ha; by left).
  assert (H : ∀ q, q ∈ files_below w p → stale w1 q = stale w q).
  { intros q [Hq _]%elem_of_files_below. eapply stale_same; [done|exact G|].
    intros HPq. eapply HP; [by left|exact HPq|done]. }
  induction (files_below w p) as [|q l IHl]; simpl; [done|].
  rewrite (H q) by by left. rewrite IHl; [done|]. intros. apply H. by right.
Qed.

Lemma children_apart w p c c' :
  c ∈ children w p → c' ∈ children w p → c ≠ c' → apart c c'.
Proof.
  rewrite !elem_of_children, !path_parent_Some. intros [[x ->] _] [[y ->] _] Hne.
  split; intros [r E]; rewrite <- app_assoc in E; apply app_inv_head in E; simpl in E;
    injection E as -> ?; done.
Qed.

Lemma child_apart w p q c : c ∈ children w p → apart p q → apart c q.
Proof.
  rewrite elem_of_children, path_parent_Some. intros [[x ->] _] [H1 H2]. split.
  - intros Hp. apply H1. etrans; [|exact Hp]. by apply prefix_app_r.
  - intros [r E]. destruct r as [|y r _] using rev_ind.
    + apply H1. rewrite app_nil_r in E. rewrite <- E. by apply prefix_app_r.
    + rewrite app_assoc in E. apply app_inj_tail in E as [-> _]. apply H2. by apply prefix_app_r.
Qed.

Lemma sorted_children_apart w l p :
  NoDup l → (∀ c, c ∈ l → c ∈ children w p) → StronglySorted apart l.
Proof.
  induction 1 as [|c l Hc Hl IH]; intros Hp; constructor.
  - apply IH. intros. apply Hp. by right.
  - apply Forall_forall. intros c' Hc'. eapply children_apart; [apply Hp; by left|..].
    + apply Hp. by right.
    + by intros ->.
Qed.

(** What a sweep from [stack] does. *)
Definition sweep_result (w : World) (stack : list PathBuf) (removed : Z)
    (r : storage_result Z) (w' : World) : Prop :=
  ∃ S, swept S w w' ∧
    match r with
    | Ok n => S ≡ₚ stale_stack w stack ∧ n = removed + Z.of_nat (length S)
    | Err _ => S ⊆ stale_stack w stack ∧
               (no_faults w → ∃ p, p ∈ stack ∧ misplaced w p)
    end.

Lemma sweep_result_step w w1 S0 stack stack' removed r w' :
  wf w → swept S0 w w1 → StronglySorted apart stack →
  stale_stack w stack ≡ₚ S0 ++ stale_stack w1 stack' →
  (∀ p, p ∈ stack' → misplaced w1 p → p ∈ stack ∧ misplaced w p) →
  sweep_result w1 stack' (removed + Z.of_nat (length S0)) r w' →
  sweep_result w stack removed r w'.
Proof.
  intros Hw H0 Hs E Hm (S & HS & Hr). exists (S0 ++ S).
  assert (Hn : NoDup (S0 ++ stale_stack w1 stack'))
    by (rewrite <- E; by apply NoDup_stale_stack).
  apply NoDup_app in Hn as (_ & Hd & _).
  destruct r as [n|e].
  - destruct Hr as [HE ->]. split; [|split].
    + eapply swept_app; [done|done|]. intros p. rewrite HE. apply Hd.
    + by rewrite HE, E.
    + rewrite length_app. lia.
  - destruct Hr as [HE Hmis]. split; [|split].
    + eapply swept_app; [done|done|]. intros p Hp Hp'. by apply (Hd p Hp), HE.
    + intros p. rewrite E, !elem_of_app. intros [?|?]; [by left|right; by apply HE].
    + intros Hf. destruct Hmis as (p & Hp & Hp'); [by apply (gr_faults _ _ _ _ _ (sw_grows _ _ _ H0))|].
      exists p. by apply Hm.
Qed.

Lemma agree_to_walk w w1 stack :
  (∀ p, p ∈ stack → agree w w1 p) → to_walk w1 stack = to_walk w stack.
Proof.
  intros Ha. unfold to_walk. induction stack as [|p stack IH]; simpl; [done|].
  rewrite IH by (intros; apply Ha; by right). by rewrite (agree_visits w w1) by (apply Ha; by left).
Qed.

Lemma to_walk_app w l l' : to_walk w (l ++ l') = (to_walk w l + to_walk w l')%nat.
Proof. apply sum_list_with_app. Qed.

Lemma to_walk_perm w l l' : l ≡ₚ l' → to_walk w l = to_walk w l'.
Proof. unfold to_walk. induction 1; simpl; lia. Qed.

Lemma stale_below_dir w p :
  wf w → is_dir w p →
  stale_below w p ≡ₚ stale_stack w (rev (merge_sort path_le (children w p))).
Proof.
  intros Hw Hd. unfold stale_below. rewrite files_below_dir by done.
  rewrite filter_concat, map_map. unfold stale_stack.
  induction (merge_sort path_le (children w p)) as [|c l IH]; simpl; [done|].
  rewrite map_app, concat_app. simpl. rewrite app_nil_r, <- IH.
  apply Permutation_app_comm.
Qed.

(** Removing one file leaves the rest of the walk as it is. *)
Lemma removed_agree w w1 path p :
  wf w → wf w1 → grows 0 (eq path) nowhere w w1 → apart path p → agree w w1 p.
Proof.
  intros Hw Hw1 G Ha q Hq.
  assert (Hne : path ≠ q) by (intros ->; by destruct Ha).
  pose proof (gr_files _ _ _ _ _ G q Hne) as Hf. unfold file_at in Hf.
  destruct q as [|x q]; [by rewrite (wf_root w Hw), (wf_root w1 Hw1)|].
  destruct (w_names w1 !! (x :: q)) as [[|i]|] eqn:E1,
    (w_names w !! (x :: q)) as [[|j]|] eqn:E2; try done; try congruence.
  - destruct (gr_newdirs _ _ _ _ _ G (x :: q)) as [Hd|[]]; [done|].
    unfold is_dir in Hd. simpl in Hd. congruence.
  - pose proof (gr_dirs _ _ _ _ _ G (x :: q) E2) as Hd.
    unfold is_dir in Hd. simpl in Hd. congruence.
Qed.

Lemma removed_misplaced w w1 path p :
  wf w → grows 0 (eq path) nowhere w w1 → file_at w1 path = None → agree w w1 p →
  misplaced w1 p → misplaced w p.
Proof.
  intros Hw G Hn Ha [He Hk]. destruct (entry_none_name _ _ He) as [Hp Hne].
  split; [by rewrite entry_at_ne, <- (Ha p)|].
  unfold missing_kind in *.
  destruct (existsb (is_file_at (w_names w1)) (removelast (prefixes p))) eqn:E; [|done].
  assert (existsb (is_file_at (w_names w)) (removelast (prefixes p)) = true) as ->; [|done].
  apply existsb_exists in E as (q & Hq & E). apply existsb_exists. exists q. split; [done|].
  assert (Hqp : path ≠ q).
  { intros <-. unfold file_at in Hn. unfold is_file_at in E.
    by destruct (w_names w1 !! path) as [[|i]|]. }
  pose proof (gr_files _ _ _ _ _ G q Hqp) as Hf. unfold file_at in Hf. unfold is_file_at in *.
  by destruct (w_names w1 !! q) as [[|i]|], (w_names w !! q) as [[|j]|].
Qed.

Lemma metadata_stale w w1 p md :
  wf w → reached w w1 → metadata_of w1 p md → md_is_file md = true →
  is_uploading_temp_file p && is_older_than md now older_than = stale w p.
Proof.
  intros Hw R. unfold metadata_of. rewrite (rc_entry _ _ R).
  destruct (entry_at w p) as [[|i]|] eqn:E; [by intros ->| |done].
  intros (nd & Hi & ->) _. unfold stale. f_equal.
  rewrite (proj1 (entry_at_file w p i Hw) E). simpl.
  assert (w_inodes w !! i = Some nd) as ->.
  { destruct (entry_links w p i Hw E) as [nd' Hi'].
    rewrite <- (gr_inodes 0 nowhere nowhere w w1) by
      first [apply R|apply (wf_inodes w Hw); by eexists]. done. }
  unfold is_older_than. simpl. by destruct (i_mtime nd <=? now).
Qed.

(** *** One turn of the loop *)

Section Turn.
Context (w : World) (Hw : wf w) (path : PathBuf) (stack : list PathBuf).
Context (Hs : StronglySorted apart (path :: stack)).

(** What a turn for [path] leaves: fewer entries to walk, the file it removed
    among the stale ones of before; or it ends with an error. *)
Definition turned (removed : Z) (r : Z * list PathBuf + storage_result Z) (w' : World) : Prop :=
  match r with
  | inl (removed', stack') => ∃ S0, swept S0 w w' ∧ StronglySorted apart stack' ∧
      (to_walk w' stack' < to_walk w (path :: stack))%nat ∧
      stale_stack w (path :: stack) ≡ₚ S0 ++ stale_stack w' stack' ∧
      (∀ p, p ∈ stack' → misplaced w' p → p ∈ path :: stack ∧ misplaced w p) ∧
      removed' = removed + Z.of_nat (length S0)
  | inr (Ok _) => False
  | inr (Err _) => reached w w' ∧ (no_faults w → misplaced w path)
  end.

Lemma stack_apart p : p ∈ stack → apart path p.
Proof. apply StronglySorted_inv in Hs as [_ Ha]. rewrite Forall_forall in Ha. apply Ha. Qed.

Lemma stack_sorted : StronglySorted apart stack.
Proof. by apply StronglySorted_inv in Hs as [? _]. Qed.

Lemma to_walk_path : to_walk w (path :: stack) = (visits w path + to_walk w stack)%nat.
Proof. done. Qed.

(** A path that holds no stale file. *)
Lemma turn_skip removed w1 :
  reached w w1 → stale_below w path = [] → turned removed (inl (removed, stack)) w1.
Proof.
  intros R E. pose proof (reached_names w w1 Hw R) as En. pose proof (visits_pos w path).
  exists []. split; [by apply swept_nil|]. split; [apply stack_sorted|].
  split; [rewrite to_walk_path, (names_to_walk w w1) by done; lia|].
  split; [|split; [|simpl; lia]].
  - unfold stale_stack at 1. simpl. rewrite E. simpl.
    rewrite (stale_stack_same w w1 nowhere nowhere); [done|done|apply R|by intros ??? []|].
    intros. by apply names_agree.
  - intros p Hp Hm. split; [by right|by eapply reached_misplaced].
Qed.

(** A stale file that was removed. *)
Lemma turn_removed removed w2 i :
  file_at w path = Some i → stale w path = true → wf w2 → grows 0 (eq path) nowhere w w2 →
  file_at w2 path = None → turned removed (inl (removed + 1, stack)) w2.
Proof.
  intros Hi Es Hw2 G Hn. pose proof (visits_pos w path).
  assert (Ag : ∀ p, p ∈ stack → agree w w2 p).
  { intros p Hp. eapply removed_agree; [done|done|exact G|by apply stack_apart]. }
  exists [path]. split; [|split; [apply stack_sorted|split; [|split; [|split; [|done]]]]].
  - constructor; [done| |].
    + eapply grows_weaken; [exact G| |done|done]. intros p <-. by apply list_elem_of_singleton.
    + by intros p ->%list_elem_of_singleton.
  - rewrite to_walk_path, (agree_to_walk w w2) by done. lia.
  - unfold stale_stack at 1. simpl. unfold stale_below at 1.
    rewrite (files_below_file w path) by eauto. simpl. rewrite Es. simpl.
    rewrite (stale_stack_same w w2 (eq path) nowhere); [done|done|done| |done].
    intros p q Hp <-. apply (stack_apart p Hp).
  - intros p Hp Hm. split; [by right|].
    eapply removed_misplaced; [done|exact G|done|by apply Ag|done].
Qed.

(** A directory, whose children come next. *)
Lemma turn_children removed w2 :
  is_dir w path → reached w w2 →
  turned removed (inl (removed, rev (merge_sort path_le (children w path)) ++ stack)) w2.
Proof.
  intros Hd R. pose proof (reached_names w w2 Hw R) as En.
  set (cs := merge_sort path_le (children w path)) in *.
  assert (Hc : ∀ c, c ∈ rev cs → c ∈ children w path)
    by (intros c; unfold cs; by rewrite <- Permutation_rev, merge_sort_Permutation).
  assert (Nc : NoDup cs) by (unfold cs; rewrite merge_sort_Permutation; apply NoDup_children).
  exists []. split; [by apply swept_nil|]. split; [|split; [|split; [|split; [|simpl; lia]]]].
  - apply StronglySorted_app_2; [| |apply stack_sorted].
    + intros c q Hc'%Hc Hq. eapply child_apart; [exact Hc'|by apply stack_apart].
    + eapply sorted_children_apart; [by rewrite <- Permutation_rev|]. intros c. apply Hc.
  - rewrite (names_to_walk w w2), to_walk_app by done.
    rewrite (to_walk_perm w _ cs) by by rewrite <- Permutation_rev.
    rewrite to_walk_path, visits_dir by done. fold cs. unfold to_walk. lia.
  - unfold stale_stack at 1. simpl. rewrite stale_below_dir by done. fold cs.
    rewrite (stale_stack_same w w2 nowhere nowhere) by
      (done || apply R || (by intros ??? []) || intros; by apply names_agree).
    unfold stale_stack. by rewrite map_app, concat_app.
  - intros p [Hp%Hc|Hp]%elem_of_app Hmis.
    + exfalso. apply elem_of_children in Hp as [_ [e He]].
      destruct Hmis as [Hmis _]. apply entry_none_name in Hmis as [Hmis _].
      rewrite En in Hmis. congruence.
    + split; [by right|by eapply reached_misplaced].
Qed.

(** A path that is a file. *)
Lemma turn_file removed w1 md i :
  wf w1 → reached w w1 → file_at w path = Some i →
  is_uploading_temp_file path && is_older_than md now older_than = stale w path →
  twp (if is_uploading_temp_file path && is_older_than md now older_than then
         let* r := call (FsRemoveFile path) in
         match r with
         | Err source => Break (Err (storage_io path source))
         | Ok _ => Continue (removed + 1, stack)
         end
       else Continue (removed, stack)) (turned removed) w1.
Proof.
  intros Hw1 R Hi ->. destruct (stale w path) eqn:Es.
  2: { apply twp_ret, turn_skip; [done|]. unfold stale_below.
       rewrite (files_below_file w path) by eauto. simpl. by rewrite Es. }
  eapply twp_seq; [done|by apply remove_spec|]. intros [[]|e] w2 Hw2 [G2 H2]; apply twp_ret.
  - eapply turn_removed; [done|done|done|by eapply reached_grows|apply H2].
  - destruct H2 as (R2 & H2 & _). split; [by eapply reached_trans|]. intros Hf. exfalso.
    rewrite (rc_file _ _ R), Hi in H2. assert (Some i = None); [|done].
    apply H2. left. by apply (rc_faults _ _ R).
Qed.

Lemma sweep_step_spec removed :
  twp (sweep_step now older_than (removed, path :: stack)) (turned removed) w.
Proof.
  unfold sweep_step.
  eapply twp_seq; [done|by apply walk_metadata_spec|]. intros [[md|]|e] w1 Hw1 [R Hr].
  2: { apply twp_ret, turn_skip; [done|]. unfold stale_below. by rewrite files_below_missing. }
  2: { apply twp_ret. split; [done|auto]. }
  pose proof (metadata_file w w1 path md Hw R Hr) as Hmd.
  pose proof (metadata_stale w w1 path md Hw R Hr) as Hst. destruct (md_is_file md).
  - destruct Hmd as [i Hi]. by eapply turn_file; [..|apply Hst].
  - assert (Hd1 : is_dir w1 path) by (unfold is_dir; by rewrite (rc_entry _ _ R)).
    eapply twp_seq; [done|by apply sorted_child_paths_spec|]. intros [ps|e] w2 Hw2 [R2 Hps];
      apply twp_ret.
    + assert (children w1 path = children w path) as E
        by (unfold children; by rewrite (reached_names w w1)).
      rewrite E in Hps. subst ps. apply turn_children; [done|by eapply reached_trans].
    + split; [by eapply reached_trans|]. intros Hf. destruct Hps. by apply (rc_faults _ _ R).
Qed.
End Turn.

Lemma sweep_loop_spec :
  ∀ n removed stack w, wf w → n = to_walk w stack → StronglySorted apart stack →
  twp (loop (sweep_step now older_than) (removed, stack)) (sweep_result w stack removed) w.
Proof.
  induction n as [n IH] using lt_wf_ind. intros removed stack w Hw -> Hs. apply twp_iter.
  destruct stack as [|path stack].
  { apply twp_ret. apply twp_ret. exists []. split; [by apply swept_nil, reached_refl|].
    split; [done|simpl; lia]. }
  eapply twp_mono; [by apply sweep_step_spec|]. intros [[removed' stack']|[k|e]] w1 Ht; [|done|].
  - destruct Ht as (S0 & H0 & Hs1 & Hlt & E & Hm & ->).
    eapply twp_mono; [eapply (IH _ Hlt); [apply H0|done|done]|].
    intros r w'. by eapply sweep_result_step.
  - destruct Ht as [R Hm]. apply twp_ret. exists []. split; [by apply swept_nil|].
    split; [by intros ? ?%not_elem_of_nil|]. intros Hf. exists path. split; [by left|auto].
Qed.

End Sweep.

(** C34: a sweep removes exactly the temporary files below the root that are at
    least [older_than] old, and counts them; nothing else changes, and it always
    ends.  It fails only when a call fails or the root lies below a file, having
    removed some of them. *)
Theorem sweep_temp_files_spec `{EX : Externals} self older_than w :
  wf w →
  twp (sweep_temp_files self older_than) (λ r w', ∃ S, swept S w w' ∧
    (∀ p, p ∈ S → root self `prefix_of` p ∧ stale (w_clock w) older_than w p = true) ∧
    match r with
    | Ok n => n = Z.of_nat (length S) ∧
        ∀ p, root self `prefix_of` p → is_Some (file_at w p) →
             stale (w_clock w) older_than w p = true → p ∈ S
    | Err _ => no_faults w → misplaced w (root self)
    end) w.
Proof.
  intros Hw. unfold sweep_temp_files. apply twp_vis.
  change (handle SystemTimeNow w) with (w_clock w, w). cbn [fst snd].
  assert (Hs : StronglySorted apart [root self]) by (repeat constructor).
  eapply twp_mono; [by eapply (sweep_loop_spec (w_clock w) older_than)|].
  intros r w' (S & HS & Hr). exists S. split; [done|].
  assert (Hin : ∀ p, p ∈ stale_stack (w_clock w) older_than w [root self] ↔
    root self `prefix_of` p ∧ is_Some (file_at w p) ∧ stale (w_clock w) older_than w p = true).
  { intros p. rewrite elem_of_stale_stack by done. split.
    - intros (q & ->%list_elem_of_singleton & ?). done.
    - intros ?. exists (root self). split; [by apply list_elem_of_singleton|done]. }
  destruct r as [n|e].
  - destruct Hr as [HE ->]. split_and!; [|done|].
    + intros p. rewrite HE, Hin. tauto.
    + intros p ???. by rewrite HE, Hin.
  - destruct Hr as [HE Hm]. split.
    + intros p Hp. apply HE, Hin in Hp. tauto.
    + intros Hf. destruct (Hm Hf) as (p & ->%list_elem_of_singleton & ?). done.
Qed.
