(* ===== verification/LocalUpload.v ===== *)
(** * Uploads of bucket objects (src/src/local.rs): correctness

    [LocalMultipartWriter] as a state machine ([writing] is its invariant, with
    [write_chunk], [complete] and [abort] as its transitions) and
    [put_object_stream] on top of it. *)
From S2P Require Import Prelude Text Errors Providers Externals Paths Keys Effects Streams BlobStore Objects Service Fs FsFacts FsFrame FsCalls Local LocalObjects LocalBlob LocalRead.
From Stdlib Require Import Ascii.

(** ** The paths of an object *)

Definition object_path (self : LocalStorageBackend) (bucket key : string) : PathBuf :=
  root self ++ bucket :: split "/" key.

Definition metadata_dir (self : LocalStorageBackend) : PathBuf :=
  root self ++ [INTERNAL_STORAGE_DIR; OBJECT_METADATA_DIR].

Definition metadata_path (self : LocalStorageBackend) (bucket key : string) : PathBuf :=
  let path := metadata_dir self ++ bucket :: split "/" key in
  removelast path ++ [default "" (last path) +:+ ".metadata.json"].

(** Names whose object file is not taken for a temporary file. *)
Definition plain_object (bucket key : string) : Prop := safe_segment bucket ∧ plain_key key.

Lemma snoc_key key (d : PathBuf) :
  key_safe key → ∃ l x, d ++ split "/" key = (d ++ l) ++ [x] ∧ safe_segment x ∧
    split "/" key = l ++ [x].
Proof.
  unfold key_safe. intros H. pose proof (split_not_nil "/" key) as Hn.
  destruct (split "/" key) as [|x l _] using rev_ind; [done|].
  apply Forall_app in H as [_ H]. apply Forall_inv in H. exists l, x. by rewrite app_assoc.
Qed.

Lemma object_path_snoc self bucket key :
  key_safe key → ∃ d x, object_path self bucket key = (root self ++ d) ++ [x] ∧
    metadata_path self bucket key = (metadata_dir self ++ d) ++ [x +:+ ".metadata.json"] ∧
    safe_segment x ∧ split "/" key = tl d ++ [x].
Proof.
  intros Hs. destruct (snoc_key key [] Hs) as (l & x & _ & Hx & Es).
  exists (bucket :: l), x. unfold object_path, metadata_path. rewrite Es.
  assert (E : ∀ r : PathBuf, r ++ bucket :: l ++ [x] = (r ++ bucket :: l) ++ [x])
    by by intros r; rewrite <- app_assoc.
  by rewrite !E, removelast_snoc, last_snoc.
Qed.

Lemma metadata_name_not_uploading x : ends_with ".uploading" (x +:+ ".metadata.json") = false.
Proof.
  unfold ends_with. destruct (strip_suffix _ _) as [a|] eqn:E; [exfalso|done].
  apply strip_suffix_Some in E.
  assert (L : String.length (x +:+ ".met") = String.length a).
  { apply (f_equal String.length) in E. rewrite !length_app_str in E. rewrite length_app_str.
    simpl in *. lia. }
  change ".metadata.json" with (".met" +:+ "adata.json") in E.
  rewrite <- app_assoc_str in E. by apply app_inj_length in E as [_ E].
Qed.

Lemma metadata_name_ne x : x +:+ ".metadata.json" ≠ "..".
Proof.
  intros E. apply (f_equal String.length) in E. rewrite length_app_str in E. simpl in E. lia.
Qed.

Lemma metadata_path_plain self bucket key :
  key_safe key → is_uploading_temp_file (metadata_path self bucket key) = false.
Proof.
  intros Hs. destruct (object_path_snoc self bucket key Hs) as (d & x & _ & -> & _).
  rewrite is_uploading_snoc by apply metadata_name_ne. apply metadata_name_not_uploading.
Qed.

Lemma object_path_plain self bucket key :
  plain_key key → is_uploading_temp_file (object_path self bucket key) = false.
Proof.
  intros [Hs Hu]. destruct (object_path_snoc self bucket key Hs) as (d & x & -> & _ & Hx & E).
  rewrite E in Hu. destruct Hx as (_&_&Hx&_). by rewrite is_uploading_snoc in Hu |- *.
Qed.

Lemma object_path_length self bucket key :
  key_safe key →
  length (metadata_path self bucket key) = (2 + length (object_path self bucket key))%nat.
Proof.
  intros Hs. destruct (object_path_snoc self bucket key Hs) as (d & x & -> & -> & _).
  unfold metadata_dir. rewrite !length_app. simpl. lia.
Qed.

Lemma object_path_for_safe self bucket key :
  safe_segment bucket → key_safe key →
  object_path_for self bucket key = Ok (object_path self bucket key).
Proof.
  intros Hb Hk. unfold object_path_for. pose proof (split_id _ _ (proj1 (proj2 (proj2 (proj2 Hb))))) as Sb.
  rewrite (proj2 (validate_object_bucket_ok bucket) Hb), validate_blob_key_safe by done.
  rewrite !path_join_safe, Sb; [by rewrite <- app_assoc|unfold key_safe; rewrite Sb; by constructor|done].
Qed.

Lemma object_metadata_path_for_safe self bucket key :
  safe_segment bucket → key_safe key →
  object_metadata_path_for self bucket key = Ok (metadata_path self bucket key).
Proof.
  intros Hb Hk. unfold object_metadata_path_for.
  pose proof (split_id _ _ (proj1 (proj2 (proj2 (proj2 Hb))))) as Sb.
  rewrite (proj2 (validate_object_bucket_ok bucket) Hb), validate_blob_key_safe by done.
  assert (E : path_join (path_join (path_join (path_join (root self) INTERNAL_STORAGE_DIR)
    OBJECT_METADATA_DIR) bucket) key = metadata_dir self ++ bucket :: split "/" key).
  { rewrite (path_join_safe _ key) by done.
    rewrite (path_join_safe _ bucket) by (unfold key_safe; rewrite Sb; by constructor).
    rewrite Sb. unfold metadata_dir.
    change (path_join (path_join (root self) INTERNAL_STORAGE_DIR) OBJECT_METADATA_DIR)
      with ((root self ++ [INTERNAL_STORAGE_DIR]) ++ [OBJECT_METADATA_DIR]).
    by rewrite <- !app_assoc. }
  rewrite E. unfold metadata_path.
  destruct (snoc_key key [] Hk) as (l & x & _ & (_&_&Hx&_) & ->).
  assert (El : metadata_dir self ++ bucket :: l ++ [x] = (metadata_dir self ++ bucket :: l) ++ [x])
    by by rewrite <- app_assoc.
  by rewrite El, path_file_name_snoc, path_with_file_name_snoc, removelast_snoc, last_snoc.
Qed.

Lemma object_names_refused self bucket key :
  ¬ (safe_segment bucket ∧ key_safe key) →
  ∃ e, object_path_for self bucket key = Err e ∧ object_metadata_path_for self bucket key = Err e ∧
       (e = InvalidStorageKey bucket ∨ e = InvalidStorageKey key).
Proof.
  intros H. unfold object_path_for, object_metadata_path_for.
  destruct (validate_object_bucket bucket) as [[]|e] eqn:Eb.
  - apply validate_object_bucket_ok in Eb. rewrite validate_blob_key_unsafe by tauto.
    eexists. split_and!; [done|done|by right].
  - exists e. split_and!; [done|done|]. left.
    unfold validate_object_bucket in Eb.
    destruct (decide (key_safe bucket)).
    + rewrite validate_blob_key_safe in Eb by done.
      destruct (contains_char "/" bucket); [|done]. by injection Eb as <-.
    + rewrite validate_blob_key_unsafe in Eb by done. by injection Eb as <-.
Qed.

(** ** The writer *)

Section Writer.
Context `{EX : Externals} `{SJ : !SerdeJson}.

(** The four files of a writer. *)
Definition writer_paths (self : LocalMultipartWriter) : list PathBuf :=
  [lmw_object_path self; lmw_temp_path self; lmw_metadata_path self; lmw_metadata_temp_path self].

(** The upload has written [cs] so far, in a file that was created since [w0];
    its frame from [w0] is [grows u P D]. *)
Record writing (u : nat) (P D : PathBuf → Prop) (w0 w : World) (self : LocalMultipartWriter)
    (cs : list bytes) : Prop := mkWriting {
  wg_wf : wf w;
  wg_grows : grows u P D w0 w;
  wg_paths : NoDup (writer_paths self);
  wg_file : ∃ i, lmw_file self = mkFile (FileEntry i) (Z.of_nat (length (concat cs))) ∧
    file_at w (lmw_temp_path self) = Some i ∧ (w_next w0 <= i)%nat ∧
    inode_data w i = Some (concat cs) ∧
    ∀ p, file_at w p = Some i → p = lmw_temp_path self;
  wg_hasher : lmw_hasher self = foldl sha256_update sha256_new cs;
  wg_size : lmw_size_bytes self = size_of cs;
  wg_free : file_at w (lmw_metadata_temp_path self) = None;
}.

(** After a failing write: enough to abort. *)
Record torn (u : nat) (P D : PathBuf → Prop) (w0 w : World) (self : LocalMultipartWriter) :
    Prop := mkTorn {
  tn_wf : wf w;
  tn_grows : grows u P D w0 w;
  tn_paths : NoDup (writer_paths self);
  tn_free : file_at w (lmw_metadata_temp_path self) = None;
}.

Lemma write_chunk_ok u P D w0 w self cs b :
  writing u P D w0 w self cs →
  twp (write_chunk self b) (λ '(r, self') w', writer_paths self' = writer_paths self ∧
    (∃ i, file_at w (lmw_temp_path self) = Some i ∧ writes i w w') ∧
    match r with
    | Ok _ => writing u P D w0 w' self' (cs ++ [b]) ∧
              self' = lmw_advance self (lmw_file self') (lmw_hasher self') (lmw_size_bytes self')
    | Err e => torn u P D w0 w' self' ∧ ¬ no_faults w
    end) w.
Proof.
  intros [Hw G Hp (i & Hf & Hi & Hn & Hd & Ho) Hh Hs Hm]. unfold write_chunk. rewrite Hf.
  eapply twp_seq; [done|by apply write_all_spec|]. intros [f|e] w1 Hw1 [Hwr Hr].
  - destruct Hr as [-> Hd1]. apply twp_ret. split; [done|]. split; [by exists i|].
    split; [|done]. destruct Hwr as [Hg [Hfw _]]. constructor; simpl; try done.
    + by apply Hg.
    + exists i. rewrite concat_snoc, Hfw. split_and!; try done. intros p. rewrite Hfw. auto.
    + by rewrite foldl_app, Hh.
    + unfold size_of. rewrite foldl_app. simpl. by rewrite Hs.
    + by rewrite Hfw.
  - apply twp_ret. split; [done|]. split; [by exists i|]. split; [|done].
    destruct Hwr as [Hg [Hfw _]]. constructor; try done; [by apply Hg|by simpl; rewrite Hfw].
Qed.

Lemma abort_ok self w :
  wf w →
  twp (abort self) (λ r w', wf w' ∧
    grows 0 (λ p, p = lmw_temp_path self ∨ p = lmw_metadata_temp_path self) nowhere w w' ∧
    (r = Ok tt ∨ no_faults w → file_at w' (lmw_temp_path self) = None ∧
                               file_at w' (lmw_metadata_temp_path self) = None)) w.
Proof.
  intros Hw. unfold abort.
  eapply twp_seq; [done|by apply remove_spec|]. intros r1 w1 Hw1 [G1 H1].
  eapply twp_seq; [done|by apply remove_spec|]. intros r2 w2 Hw2 [G2 H2].
  assert (G : grows 0 (λ p, p = lmw_temp_path self ∨ p = lmw_metadata_temp_path self) nowhere w w2)
    by (eapply grows_trans; [exact G1|exact G2|intros p [<-|<-]; auto|frame_side|done]).
  assert (S1 : removed_or_missing (lmw_temp_path self) r1 = Ok tt ∨ no_faults w →
    file_at w1 (lmw_temp_path self) = None).
  { destruct r1 as [|e]; [by destruct H1|]. destruct H1 as (R & Hr & _). rewrite (rc_file _ _ R).
    intros [Hx|Hx]; apply Hr; [right|by left]. simpl in Hx. by destruct (decide _). }
  assert (S2 : removed_or_missing (lmw_metadata_temp_path self) r2 = Ok tt ∨ no_faults w1 →
    file_at w2 (lmw_metadata_temp_path self) = None).
  { destruct r2 as [|e]; [by destruct H2|]. destruct H2 as (R & Hr & _). rewrite (rc_file _ _ R).
    intros [Hx|Hx]; apply Hr; [right|by left]. simpl in Hx. by destruct (decide _). }
  assert (S12 : file_at w1 (lmw_temp_path self) = None →
    file_at w2 (lmw_metadata_temp_path self) = None → file_at w2 (lmw_temp_path self) = None).
  { intros E1 E2. destruct (decide (lmw_metadata_temp_path self = lmw_temp_path self)) as [<-|Hne];
      [done|]. by rewrite (gr_files _ _ _ _ _ G2). }
  destruct (removed_or_missing (lmw_temp_path self) r1) as [[]|e] eqn:E1; apply twp_ret;
    (split; [done|]); (split; [done|]).
  - intros [Hx|Hx].
    + split; [apply S12; [by apply S1; left|]|]; by apply S2; left.
    + assert (Hf : no_faults w1) by by apply (gr_faults _ _ _ _ _ G1).
      split; [apply S12; [by apply S1; left|]|]; by apply S2; right.
  - intros [Hx|Hx]; [done|]. assert (Hf : no_faults w1) by by apply (gr_faults _ _ _ _ _ G1).
    split; [apply S12; [by apply S1; right|]|]; by apply S2; right.
Qed.

Lemma write_object_metadata_ok path info w :
  wf w → file_at w path = None →
  twp (write_object_metadata path info) (λ r w', grows 0 (eq path) nowhere w w' ∧
    match r with
    | Ok _ => ∃ b, json_to_vec info = Ok b ∧ created w w' path b
    | Err e => no_faults w → (∃ err, json_to_vec info = Err err) ∨ no_room w path
    end) w.
Proof.
  intros Hw Hf. unfold write_object_metadata. destruct (json_to_vec info) as [b|err] eqn:E.
  - eapply twp_seq; [done|by apply write_spec|]. intros [[]|e] w1 Hw1 [G H1]; apply twp_ret;
      (split; [done|]); simpl; [by exists b|auto].
  - apply twp_ret. split; [reflexivity|]. intros _. left. by eexists.
Qed.

(** What [complete] returns. *)
Record completed (self : LocalMultipartWriter) (cs : list bytes) (info : ObjectInfo) : Prop :=
  mkCompleted {
  cp_bucket : oi_bucket info = lmw_bucket self;
  cp_key : oi_key info = lmw_key self;
  cp_content_type : oi_content_type info = lmw_content_type self;
  cp_metadata : oi_metadata info = lmw_metadata self;
  cp_size : oi_size_bytes info = size_of cs;
  cp_sha256 : oi_sha256_hex info = sha256_of cs;
  cp_etag : oi_etag info = Some (sha256_of cs);
}.

Definition cleared (self : LocalMultipartWriter) (w : World) : Prop :=
  file_at w (lmw_temp_path self) = None ∧ file_at w (lmw_metadata_temp_path self) = None.

(** Renaming a file that was created over a path it is not linked to. *)
Lemma publish_spec p q i b w :
  wf w → file_at w p = Some i → inode_data w i = Some b → file_at w q ≠ Some i →
  twp (call (FsRename p q)) (λ r w', grows 0 (λ x, x = p ∨ x = q) nowhere w w' ∧
    match r with
    | Ok _ => content w' q = Some b ∧ file_at w' p = None
    | Err e => reached w w' ∧ (no_faults w → no_room w q)
    end) w.
Proof.
  intros Hw Hp Hd Hq. eapply twp_mono; [by apply rename_spec|]. intros [[]|e] w1 [G Hr].
  - destruct Hr as [Hq1 Hp1]. split; [done|]. split; [|auto].
    apply content_Some. exists i. split; [done|by eapply grows_data].
  - destruct Hr as [R Hr]. done.
Qed.

Lemma writer_paths_ne self :
  NoDup (writer_paths self) →
  lmw_object_path self ≠ lmw_temp_path self ∧
  lmw_object_path self ≠ lmw_metadata_path self ∧
  lmw_object_path self ≠ lmw_metadata_temp_path self ∧
  lmw_temp_path self ≠ lmw_metadata_path self ∧
  lmw_temp_path self ≠ lmw_metadata_temp_path self ∧
  lmw_metadata_path self ≠ lmw_metadata_temp_path self.
Proof.
  unfold writer_paths. rewrite !NoDup_cons. set_unfold. intros (H1 & H2 & H3 & _).
  split_and!; intros ?; naive_solver.
Qed.

Lemma grows_kept u P D w w' p : wf w → grows u P D w w' → ¬ P p → kept w w' p.
Proof.
  intros Hw G Hp. split; [by apply (gr_files _ _ _ _ _ G)|by eapply grows_content].
Qed.

(** The second rename and what follows it. *)
Definition publish_metadata (self : LocalMultipartWriter) (object : ObjectInfo) :
    prog osE (storage_result ObjectInfo) :=
  let* r := call (FsRename (lmw_metadata_temp_path self) (lmw_metadata_path self)) in
  match r with
  | Err source =>
      let* _ := discard_file (lmw_metadata_temp_path self) in
      Ret (Err (storage_io (lmw_metadata_path self) source))
  | Ok _ => Ret (Ok object)
  end.

Lemma publish_metadata_ok self object i b w :
  wf w → lmw_metadata_path self ≠ lmw_metadata_temp_path self →
  file_at w (lmw_metadata_temp_path self) = Some i → inode_data w i = Some b →
  file_at w (lmw_metadata_path self) ≠ Some i →
  twp (publish_metadata self object) (λ r w',
    grows 0 (λ p, p = lmw_metadata_path self ∨ p = lmw_metadata_temp_path self) nowhere w w' ∧
    match r with
    | Ok o => o = object ∧ content w' (lmw_metadata_path self) = Some b ∧
              file_at w' (lmw_metadata_temp_path self) = None
    | Err e => kept w w' (lmw_metadata_path self) ∧
               (no_faults w → no_room w (lmw_metadata_path self) ∧
                              file_at w' (lmw_metadata_temp_path self) = None)
    end) w.
Proof.
  intros Hw Hne Hf Hd Hm. unfold publish_metadata.
  eapply twp_seq; [done|by eapply publish_spec|]. intros [[]|e] w1 Hw1 [G1 H1].
  - apply twp_ret. destruct H1. split; [|done].
    eapply grows_weaken; [exact G1|naive_solver|done|lia].
  - destruct H1 as [R1 H1].
    eapply twp_seq; [done|by apply discard_file_spec|]. intros _ w2 Hw2 [G2 H2].
    apply twp_ret. assert (G : grows 0 (eq (lmw_metadata_temp_path self)) nowhere w w2)
      by by eapply reached_grows.
    split; [eapply grows_weaken; [exact G|naive_solver|done|lia]|]. split.
    + eapply grows_kept; [done|exact G|congruence].
    + intros Hnf. split; [auto|]. apply H2, (rc_faults _ _ R1), Hnf.
Qed.

(** Both renames, after the metadata file is written. *)
Definition publish (self : LocalMultipartWriter) (object : ObjectInfo) :
    prog osE (storage_result ObjectInfo) :=
  let* r := call (FsRename (lmw_temp_path self) (lmw_object_path self)) in
  match r with
  | Err source =>
      let* _ := discard_file (lmw_temp_path self) in
      let* _ := discard_file (lmw_metadata_temp_path self) in
      Ret (Err (storage_io (lmw_object_path self) source))
  | Ok _ => publish_metadata self object
  end.

Lemma publish_ok self object i j d b w :
  wf w → NoDup (writer_paths self) →
  file_at w (lmw_temp_path self) = Some i → inode_data w i = Some d →
  file_at w (lmw_object_path self) ≠ Some i →
  file_at w (lmw_metadata_temp_path self) = Some j → inode_data w j = Some b →
  file_at w (lmw_metadata_path self) ≠ Some j →
  twp (publish self object) (λ r w', grows 0 (λ p, p ∈ writer_paths self) nowhere w w' ∧
    match r with
    | Ok o => o = object ∧ content w' (lmw_object_path self) = Some d ∧
              content w' (lmw_metadata_path self) = Some b ∧ cleared self w'
    | Err e => kept w w' (lmw_metadata_path self) ∧
        (no_faults w → cleared self w') ∧
        (kept w w' (lmw_object_path self) ∧ (no_faults w → no_room w (lmw_object_path self)) ∨
         content w' (lmw_object_path self) = Some d ∧
           (no_faults w → no_room w (lmw_metadata_path self)))
    end) w.
Proof.
  intros Hw Hp Hi Hd Ho Hj Hb Hm. unfold publish.
  destruct (writer_paths_ne self Hp) as (N1 & N2 & N3 & N4 & N5 & N6).
  eapply twp_seq; [done|by eapply publish_spec|]. intros [[]|e] w1 Hw1 [G1 H1].
  - destruct H1 as [Hc Ht].
    assert (S1 : ∀ p, p ≠ lmw_temp_path self → p ≠ lmw_object_path self → file_at w1 p = file_at w p)
      by (intros p ??; apply (gr_files _ _ _ _ _ G1); naive_solver).
    eapply twp_mono; [apply (publish_metadata_ok self object j b w1); try done|].
    { by rewrite S1. }
    { by eapply (grows_data _ _ _ w). }
    { by rewrite S1. }
    intros r w2 [G2 H2].
    assert (G : grows 0 (λ p, p ∈ writer_paths self) nowhere w w2).
    { eapply grows_trans; [exact G1|exact G2| |frame_side|done].
      unfold writer_paths. intros p. set_unfold. naive_solver. }
    assert (Hc2 : content w2 (lmw_object_path self) = Some d).
    { rewrite <- Hc. eapply grows_content; [done|exact G2|naive_solver]. }
    assert (Ht2 : file_at w2 (lmw_temp_path self) = None).
    { rewrite <- Ht. apply (gr_files _ _ _ _ _ G2). naive_solver. }
    split; [done|]. destruct r as [o|e].
    + destruct H2 as (-> & ? & ?). by split_and!.
    + destruct H2 as [Hk H2]. split_and!.
      * pose proof (grows_kept _ _ _ w w1 (lmw_metadata_path self) Hw G1) as K.
        destruct K as [K1 K2]; [naive_solver|]. destruct Hk as [K3 K4].
        split; [by rewrite K3|by rewrite K4].
      * intros Hf. split; [done|]. by apply H2, (gr_faults _ _ _ _ _ G1).
      * right. split; [done|]. intros Hf. destruct H2 as [H2 _]; [by apply (gr_faults _ _ _ _ _ G1)|].
        destruct H2 as [H2|H2]; [left|right].
        -- apply (gr_newdirs _ _ _ _ _ G1) in H2 as [?|[]]. done.
        -- intros H3. by apply H2, (gr_dirs _ _ _ _ _ G1).
  - destruct H1 as [R1 H1].
    eapply twp_seq; [done|by apply discard_file_spec|]. intros _ w2 Hw2 [G2 H2].
    eapply twp_seq; [done|by apply discard_file_spec|]. intros _ w3 Hw3 [G3 H3]. apply twp_ret.
    assert (G : grows 0 (λ p, p = lmw_temp_path self ∨ p = lmw_metadata_temp_path self) nowhere w w3).
    { eapply reached_grows; [done|].
      eapply grows_trans; [exact G2|exact G3|intros p [<-|<-]; auto|frame_side|done]. }
    split; [|split_and!].
    + eapply grows_weaken; [exact G| |done|lia]. unfold writer_paths. intros p. set_unfold. naive_solver.
    + eapply grows_kept; [done|exact G|naive_solver].
    + intros Hf. apply (rc_faults _ _ R1) in Hf. split.
      * rewrite (gr_files _ _ _ _ _ G3) by congruence. auto.
      * apply H3. by apply (gr_faults _ _ _ _ _ G2).
    + left. split; [|done]. eapply grows_kept; [done|exact G|naive_solver].
Qed.

(** Why [complete] may fail when no call does. *)
Definition unpublishable (self : LocalMultipartWriter) (w : World) : Prop :=
  no_room w (lmw_object_path self) ∨ no_room w (lmw_metadata_path self).

Definition metadata_failure (self : LocalMultipartWriter) (w : World) : Prop :=
  (∃ info err, json_to_vec info = Err err) ∨ no_room w (lmw_metadata_temp_path self).

Lemma complete_ok u P D w0 w self cs :
  writing u P D w0 w self cs →
  twp (complete self) (λ r w', wf w' ∧
    grows 0 (λ p, p ∈ writer_paths self) nowhere w w' ∧
    match r with
    | Ok info => completed self cs info ∧ cleared self w' ∧
        content w' (lmw_object_path self) = Some (concat cs) ∧
        ∃ b, json_to_vec info = Ok b ∧ content w' (lmw_metadata_path self) = Some b
    | Err e => kept w w' (lmw_metadata_path self) ∧
        (kept w w' (lmw_object_path self) ∨
         content w' (lmw_object_path self) = Some (concat cs)) ∧
        (no_faults w → metadata_failure self w ∨ cleared self w' ∧ unpublishable self w)
    end) w.
Proof.
  intros [Hw _ Hp (i & Hfile & Hi & _ & Hd & Ho) Hh Hs Hm].
  destruct (writer_paths_ne self Hp) as (N1 & N2 & N3 & N4 & N5 & N6).
  assert (Hoi : file_at w (lmw_object_path self) ≠ Some i) by (intros E; by apply Ho in E).
  apply twp_wf; [done|]. unfold complete.
  assert (K : ∀ w', reached w w' → kept w w' (lmw_metadata_path self) ∧ kept w w' (lmw_object_path self)).
  { intros w' R. unfold kept. by rewrite !(rc_file _ _ R), !(reached_content w w') by done. }
  eapply twp_seq; [done|by apply flush_spec|]. intros [[]|e] w1 Hw1 [R1 H1]; cbn [map_err].
  2: { apply twp_ret. split; [apply R1|]. destruct (K w1 R1). split_and!; [done|by left|].
       intros Hf. by apply H1 in Hf. }
  apply twp_vis. cbn [handle os_handler fst snd]. set (object := mkObjectInfo _ _ _ _ _ _ _ _).
  eapply twp_seq; [done|apply write_object_metadata_ok; [done|by rewrite (rc_file _ _ R1)]|].
  intros [[]|e] w2 Hw2 [G2 H2].
  2: { apply twp_ret. assert (G : grows 0 (eq (lmw_metadata_temp_path self)) nowhere w w2)
         by by eapply reached_grows.
       split; [eapply grows_weaken; [exact G| |done|lia];
         unfold writer_paths; intros p <-; set_unfold; auto|].
       split_and!; [by eapply grows_kept|left; by eapply grows_kept|].
       intros Hf. left. apply (rc_faults _ _ R1) in Hf.
       destruct (H2 Hf) as [[err He]|Hr]; [left; by eexists _, _|right; by eapply reached_no_room]. }
  destruct H2 as (b & Hb & j & Hj & Hnj & Hdj). rewrite (rc_next _ _ R1) in Hnj.
  assert (S2 : ∀ p, p ≠ lmw_metadata_temp_path self → file_at w2 p = file_at w p).
  { intros p Hne. rewrite (gr_files _ _ _ _ _ G2), (rc_file _ _ R1); [done|congruence]. }
  eapply twp_mono; [apply (publish_ok self object i j (concat cs) b w2); try done|].
  - by rewrite S2.
  - eapply (grows_data _ _ _ w1); [done|done|]. by rewrite (rc_data _ _ R1).
  - by rewrite S2.
  - rewrite S2 by done. intros Hx. destruct (file_at_links w _ j Hw Hx) as [nd Hnd].
    assert (j < w_next w)%nat; [apply (wf_inodes w Hw); by eexists|lia].
  - intros r w3 [G3 H3].
    assert (G12 : grows 0 (eq (lmw_metadata_temp_path self)) nowhere w w2)
      by by eapply reached_grows.
    split.
    { eapply grows_trans; [exact G12|exact G3| |frame_side|done].
      intros p [<-|Hq]; [|done]. unfold writer_paths. set_unfold. auto. }
    assert (K2 : ∀ p, p ≠ lmw_metadata_temp_path self → kept w2 w3 p → kept w w3 p).
    { intros p Hne [K3 K4]. destruct (grows_kept _ _ _ w w2 p Hw G12) as [K5 K6]; [congruence|].
      split; [by rewrite K3|by rewrite K4]. }
    destruct r as [info|e].
    + destruct H3 as (-> & Hc & Hcm & Hcl). split_and!; [|done|done|by exists b].
      constructor; simpl; try done; unfold sha256_of; by rewrite Hh.
    + destruct H3 as (Hk & Hcl & Hobj). split_and!; [by apply K2| |].
      * destruct Hobj as [[? _]|[? _]]; [left; by apply K2|by right].
      * intros Hf. right. apply (rc_faults _ _ R1), (gr_faults _ _ _ _ _ G2) in Hf.
        split; [auto|].
        assert (NR : ∀ p, no_room w2 p → no_room w p).
        { intros p [Hx|Hx]; [left|right].
          - apply (gr_newdirs _ _ _ _ _ G12) in Hx as [?|[]]. done.
          - intros Hy. by apply Hx, (gr_dirs _ _ _ _ _ G12). }
        destruct Hobj as [[_ Hx]|[_ Hx]]; [left|right]; auto.
Qed.

(** ** Starting an upload *)

(** The name of the [n]-th next temporary file for a path. *)
Definition temp_at (n : nat) (w : World) (path : PathBuf) : PathBuf :=
  removelast path ++ [temp_name (default "" (last path)) (w_uuids w (n + w_uuid_next w))].

Definition upload_paths (self : LocalStorageBackend) (bucket key : string) (w : World) :
    list PathBuf :=
  [object_path self bucket key; temp_at 0 w (object_path self bucket key);
   metadata_path self bucket key; temp_at 1 w (metadata_path self bucket key)].

(** The directories an upload may create. *)
Definition upload_dirs (self : LocalStorageBackend) (bucket key : string) (q : PathBuf) : Prop :=
  above (object_path self bucket key) q ∨ above (metadata_path self bucket key) q.

(** A file where a directory is needed, or a directory where a file is. *)
Definition upload_obstructed (self : LocalStorageBackend) (bucket key : string) (w : World) :
    Prop :=
  blocked w (removelast (object_path self bucket key)) ∨
  blocked w (removelast (metadata_path self bucket key)) ∨
  ∃ p, p ∈ upload_paths self bucket key w ∧ (is_dir w p ∨ upload_dirs self bucket key p).

Lemma temp_at_of n w path : temp_of (w_uuids w (n + w_uuid_next w)) (temp_at n w path).
Proof. by eexists _, _. Qed.

Lemma temp_at_length n w path : path ≠ [] → length (temp_at n w path) = length path.
Proof.
  unfold temp_at. destruct path as [|x l _] using rev_ind; [done|]. intros _.
  by rewrite removelast_snoc, !length_app.
Qed.

Lemma object_path_ne self bucket key : object_path self bucket key ≠ [].
Proof. unfold object_path. by destruct (root self). Qed.

Lemma metadata_path_ne self bucket key : metadata_path self bucket key ≠ [].
Proof.
  unfold metadata_path. intros E. apply (f_equal length) in E. rewrite length_app in E.
  simpl in E. lia.
Qed.

Lemma uploading_ne p q :
  is_uploading_temp_file p = false → is_uploading_temp_file q = true → p ≠ q.
Proof. intros H1 H2 ->. congruence. Qed.

Lemma upload_paths_distinct self bucket key w :
  plain_key key → NoDup (upload_paths self bucket key w).
Proof.
  intros Hk. pose proof (object_path_length self bucket key (proj1 Hk)) as L.
  pose proof (temp_at_length 0 w _ (object_path_ne self bucket key)) as L0.
  pose proof (temp_at_length 1 w _ (metadata_path_ne self bucket key)) as L1.
  assert (U : ∀ n path, is_uploading_temp_file (temp_at n w path) = true)
    by (intros; eapply temp_of_uploading, temp_at_of).
  pose proof (uploading_ne _ _ (object_path_plain self bucket key Hk) (U 0%nat (object_path self bucket key))).
  pose proof (uploading_ne _ _ (metadata_path_plain self bucket key (proj1 Hk))
    (U 1%nat (metadata_path self bucket key))).
  assert (N : ∀ p q : PathBuf, length p ≠ length q → p ≠ q) by (intros p q ? ->; done).
  unfold upload_paths. rewrite !NoDup_cons. set_unfold.
  split_and!; [| | |naive_solver|apply NoDup_nil_2];
    intros H'; repeat destruct H' as [H'|H']; try done; revert H'; try apply N; try lia; done.
Qed.

(** The writer that [create_multipart_object] returns. *)
Record started (self : LocalStorageBackend) (bucket key : string) (content_type : option string)
    (metadata : ObjectMetadata) (w w' : World) (writer : LocalMultipartWriter) : Prop :=
  mkStarted {
  st_bucket : lmw_bucket writer = bucket;
  st_key : lmw_key writer = key;
  st_content_type : lmw_content_type writer = content_type;
  st_metadata : lmw_metadata writer = metadata;
  st_paths : writer_paths writer = upload_paths self bucket key w;
  st_uuids : w_uuid_next w' = (2 + w_uuid_next w)%nat;
  st_parents : is_dir w' (removelast (object_path self bucket key)) ∧
               is_dir w' (removelast (metadata_path self bucket key));
}.

Lemma blocked_grows u D w w' p : grows u nowhere D w w' → blocked w' p → blocked w p.
Proof.
  intros G (q & Hq & i & Hi). exists q. split; [done|]. exists i. by rewrite <- (grows_file u D w w').
Qed.

Lemma create_multipart_writer_ok self bucket key content_type metadata w :
  wf w → fresh 2 w → safe_segment bucket → plain_key key →
  twp (create_multipart_writer self bucket key content_type metadata) (λ r w',
    match r with
    | Ok writer =>
        started self bucket key content_type metadata w w' writer ∧
        writing 2 (eq (temp_at 0 w (object_path self bucket key))) (upload_dirs self bucket key)
          w w' writer []
    | Err e => wf w' ∧ grows 2 nowhere (upload_dirs self bucket key) w w' ∧
               (no_faults w → upload_obstructed self bucket key w)
    end) w.
Proof.
  intros Hw F Hb Hk. pose proof (upload_paths_distinct self bucket key w Hk) as Hdist.
  unfold create_multipart_writer.
  rewrite object_path_for_safe, object_metadata_path_for_safe by (done || apply Hk).
  destruct (object_path_snoc self bucket key (proj1 Hk)) as (d & x & Eo & Em & (_&_&Hx&_) & _).
  pose proof (metadata_name_ne x) as Hm.
  set (op := object_path self bucket key) in *. set (mp := metadata_path self bucket key) in *.
  assert (Hop : op ≠ []) by apply object_path_ne.
  assert (Hmp : mp ≠ []) by apply metadata_path_ne.
  eapply twp_seq; [done|by apply create_parent_dir_spec|]. intros [[]|e] w1 Hw1 (G1 & U1 & H1).
  2: { apply twp_ret. split_and!; [done| |by left; auto].
       eapply grows_weaken; [exact G1|done|by left|lia]. }
  eapply twp_seq; [done|by apply create_parent_dir_spec|]. intros [[]|e] w2 Hw2 (G2 & U2 & H2).
  2: { apply twp_ret. split_and!; [done| |].
       - eapply grows_trans; [exact G1|exact G2|frame_side|intros p [?|?]; [by left|by right]|lia].
       - intros Hf. right. left. eapply blocked_grows; [exact G1|].
         by apply H2, (gr_faults _ _ _ _ _ G1). }
  assert (G12 : grows 0 nowhere (upload_dirs self bucket key) w w2)
    by (eapply grows_trans; [exact G1|exact G2|frame_side|intros p [?|?]; [by left|by right]|lia]).
  rewrite Eo. eapply twp_seq; [done|by apply temp_path_for_spec|].
  intros r w3 Hw3 (-> & G3 & U3).
  rewrite Em. eapply twp_seq; [done|by apply temp_path_for_spec|].
  intros r w4 Hw4 (-> & G4 & U4). rewrite <- Eo, <- Em.
  assert (G34 : grows 2 nowhere nowhere w2 w4) by (eapply grows_trans; [exact G3|exact G4|frame_side..]).
  assert (E0 : (root self ++ d) ++ [temp_name x (w_uuids w2 (w_uuid_next w2))] = temp_at 0 w op).
  { unfold temp_at. rewrite Eo, removelast_snoc, last_snoc. simpl.
    by rewrite (gr_uuids _ _ _ _ _ G12), U2, U1. }
  assert (E1 : (metadata_dir self ++ d) ++
      [temp_name (x +:+ ".metadata.json") (w_uuids w3 (w_uuid_next w3))] = temp_at 1 w mp).
  { unfold temp_at. rewrite Em, removelast_snoc, last_snoc. simpl.
    by rewrite (gr_uuids _ _ _ _ _ G3), U3, (gr_uuids _ _ _ _ _ G12), U2, U1. }
  rewrite E0, E1.
  assert (G14 : grows 2 nowhere (upload_dirs self bucket key) w w4)
    by (eapply grows_trans; [exact G12|exact G34|frame_side..]).
  assert (Fr : ∀ n path, (n < 2)%nat → file_at w4 (temp_at n w path) = None).
  { intros n path Hn. rewrite (grows_file _ _ _ _ _ G14).
    destruct (file_at w (temp_at n w path)) eqn:E; [exfalso|done].
    eapply (fr_new 2 w F (n + w_uuid_next w)); [lia|exact E|apply temp_at_of]. }
  eapply twp_seq; [done|apply create_spec; [done|by apply Fr; lia]|].
  intros [f|e] w5 Hw5 [G5 H5]; cbn [map_err]; apply twp_ret.
  - destruct H5 as (i & -> & Hi & Hn & Hd). pose proof (gr_next _ _ _ _ _ G14). split.
    + assert (is_dir w4 (removelast op) ∧ is_dir w4 (removelast mp)) as [D1 D2].
      { split; apply (gr_dirs _ _ _ _ _ G34); [by apply (gr_dirs _ _ _ _ _ G2)|done]. }
      constructor; try done.
      * pose proof (gr_uuid_next _ _ _ _ _ G5). lia.
      * by split; apply (gr_dirs _ _ _ _ _ G5).
    + constructor; try done.
      * eapply grows_trans; [exact G14|exact G5|frame_side..].
      * exists i. split_and!; [done|done|lia|done|]. simpl. intros p E.
        destruct (decide (p = temp_at 0 w op)) as [|Hne]; [done|exfalso].
        rewrite (gr_files _ _ _ _ _ G5), (grows_file _ _ _ _ _ G14) in E by congruence.
        destruct (file_at_links w p i Hw E) as [nd Hnd].
        assert (i < w_next w)%nat; [apply (wf_inodes w Hw); by eexists|lia].
      * simpl. rewrite (gr_files _ _ _ _ _ G5); [by apply Fr; lia|].
        apply NoDup_cons in Hdist as [_ [Hdist _]%NoDup_cons]. set_unfold. naive_solver.
  - destruct H5 as [R5 H5]. split_and!; [done|by eapply grows_trans;
      [exact G14|apply (rc_grows _ _ R5 0 nowhere nowhere)|frame_side..]|].
    intros Hf. right. right. exists (temp_at 0 w op). split; [unfold upload_paths; set_unfold; auto|].
    destruct H5 as [H5|H5]; [by apply (gr_faults _ _ _ _ _ G14)| |].
    + apply (gr_newdirs _ _ _ _ _ G14) in H5 as [?|?]; auto.
    + exfalso. apply H5. unfold temp_at. rewrite removelast_snoc.
      apply (gr_dirs _ _ _ _ _ G34). by apply (gr_dirs _ _ _ _ _ G2).
Qed.

(** ** [put_object_stream] *)

Context `{SL : !SerdeJsonLaws}.

Lemma kept_trans w w1 w2 p : kept w w1 p → kept w1 w2 p → kept w w2 p.
Proof. intros [E1 E2] [E3 E4]. split; congruence. Qed.

(** A directory where one of the writer's files goes. *)
Definition dir_in_the_way (D : PathBuf → Prop) (w : World) (writer : LocalMultipartWriter) : Prop :=
  ∃ p, p ∈ writer_paths writer ∧ (is_dir w p ∨ D p).

Definition parents_exist (w : World) (writer : LocalMultipartWriter) : Prop :=
  ∀ p, p ∈ writer_paths writer → is_dir w (removelast p).

Lemma no_room_in_the_way u P D w0 w writer p :
  grows u P D w0 w → parents_exist w writer → p ∈ writer_paths writer → no_room w p →
  dir_in_the_way D w0 writer.
Proof.
  intros G Hp Hin [Hd|Hd]; [|by destruct Hd; apply Hp]. exists p. split; [done|].
  by apply (gr_newdirs _ _ _ _ _ G) in Hd.
Qed.

Lemma complete_from u P D w0 w writer cs :
  writing u P D w0 w writer cs → parents_exist w writer →
  ¬ P (lmw_object_path writer) → ¬ P (lmw_metadata_path writer) → wf w0 →
  twp (complete writer) (λ r w', wf w' ∧
    grows u (λ p, P p ∨ p ∈ writer_paths writer) D w0 w' ∧
    match r with
    | Ok info => completed writer cs info ∧ cleared writer w' ∧
        content w' (lmw_object_path writer) = Some (concat cs) ∧
        ∃ b, json_to_vec info = Ok b ∧ content w' (lmw_metadata_path writer) = Some b
    | Err e => kept w0 w' (lmw_metadata_path writer) ∧
        (kept w0 w' (lmw_object_path writer) ∨
         content w' (lmw_object_path writer) = Some (concat cs)) ∧
        (no_faults w0 → dir_in_the_way D w0 writer)
    end) w.
Proof.
  intros Wr Hp Ho Hm Hw0. pose proof (wg_grows _ _ _ _ _ _ _ Wr) as G0.
  eapply twp_mono; [by eapply complete_ok|]. intros r w' (Hw' & G & Hr).
  split_and!; [done| |].
  { eapply grows_trans; [exact G0|exact G|done| |lia]. by intros p [?|[]]. }
  destruct r as [info|e]; [done|]. destruct Hr as (K1 & K2 & Hx).
  split_and!.
  - eapply kept_trans; [by eapply grows_kept|done].
  - destruct K2; [left|by right]. eapply kept_trans; [by eapply grows_kept|done].
  - intros Hf. apply (gr_faults _ _ _ _ _ G0) in Hf.
    destruct (Hx Hf) as [[(info & err & He)|Hr]|[_ [Hr|Hr]]].
    + destruct (json_roundtrip info) as (b & Hb & _). congruence.
    + eapply no_room_in_the_way; [exact G0|done| |exact Hr]. unfold writer_paths. set_unfold. auto.
    + eapply no_room_in_the_way; [exact G0|done| |exact Hr]. unfold writer_paths. set_unfold. auto.
    + eapply no_room_in_the_way; [exact G0|done| |exact Hr]. unfold writer_paths. set_unfold. auto.
Qed.

(** Giving up: [abort], then the error. *)
Lemma abort_from {B} u P D w0 w writer (b : B) :
  torn u P D w0 w writer →
  ¬ P (lmw_object_path writer) → ¬ P (lmw_metadata_path writer) → wf w0 →
  twp (let* _ := abort writer in Ret b) (λ r w', r = b ∧ wf w' ∧
    grows u (λ p, P p ∨ p ∈ writer_paths writer) D w0 w' ∧
    kept w0 w' (lmw_metadata_path writer) ∧ kept w0 w' (lmw_object_path writer) ∧
    (no_faults w0 → cleared writer w')) w.
Proof.
  intros [Hw G0 Hd _] Ho Hm Hw0.
  destruct (writer_paths_ne writer Hd) as (N1 & N2 & N3 & N4 & N5 & N6).
  eapply twp_seq; [done|by apply abort_ok|]. intros r w' Hw' (_ & G & Hc). apply twp_ret.
  assert (K : ∀ p, ¬ P p → p ≠ lmw_temp_path writer → p ≠ lmw_metadata_temp_path writer → kept w0 w' p).
  { intros p Hp Hn1 Hn2. eapply kept_trans; [by eapply grows_kept|].
    eapply grows_kept; [done|exact G|naive_solver]. }
  split_and!; [done|done| |by apply K|by apply K|].
  - eapply grows_trans; [exact G0|exact G| | |lia]; [|by intros p [?|[]]].
    intros p [Hp|[->| ->]]; [by left|right..]; unfold writer_paths; set_unfold; auto.
  - intros Hf. apply Hc. right. by apply (gr_faults _ _ _ _ _ G0).
Qed.

Lemma writes_parents i w w' writer writer' :
  writes i w w' → writer_paths writer' = writer_paths writer → parents_exist w writer →
  parents_exist w' writer'.
Proof.
  intros [_ [_ [He _]]] E Hp p Hin. unfold is_dir. rewrite He. apply Hp. by rewrite <- E.
Qed.

Lemma writer_paths_eq writer writer' :
  writer_paths writer' = writer_paths writer →
  lmw_object_path writer' = lmw_object_path writer ∧
  lmw_temp_path writer' = lmw_temp_path writer ∧
  lmw_metadata_path writer' = lmw_metadata_path writer ∧
  lmw_metadata_temp_path writer' = lmw_metadata_temp_path writer.
Proof. unfold writer_paths. intros [= -> -> -> ->]. done. Qed.

Lemma completed_advance writer f h n cs info :
  completed (lmw_advance writer f h n) cs info → completed writer cs info.
Proof. by intros []. Qed.

(** What an upload that was to write [cs] and then meet [oe] returns, seen from
    the state [w0] before it. *)
Definition upload_result (D : PathBuf → Prop) (w0 : World) (writer : LocalMultipartWriter)
    (cs : list bytes) (oe : option StorageError) (r : storage_result ObjectInfo) (w' : World) :
    Prop :=
  match r with
  | Ok info => oe = None ∧ completed writer cs info ∧ cleared writer w' ∧
      content w' (lmw_object_path writer) = Some (concat cs) ∧
      ∃ b, json_to_vec info = Ok b ∧ content w' (lmw_metadata_path writer) = Some b
  | Err e => kept w0 w' (lmw_metadata_path writer) ∧
      (kept w0 w' (lmw_object_path writer) ∨
       oe = None ∧ content w' (lmw_object_path writer) = Some (concat cs)) ∧
      (no_faults w0 → oe = Some e ∧ cleared writer w' ∨ dir_in_the_way D w0 writer)
  end.

Lemma upload_loop u P D w0 (stream : BoxedStorageStream osE) st cs oe :
  supplies (bs_next stream) st cs oe →
  ∀ done_ writer w,
  writing u P D w0 w writer done_ → parents_exist w writer →
  ¬ P (lmw_object_path writer) → ¬ P (lmw_metadata_path writer) → wf w0 →
  twp (loop (object_stream_step stream) (st, writer)) (λ r w', wf w' ∧
    grows u (λ p, P p ∨ p ∈ writer_paths writer) D w0 w' ∧
    upload_result D w0 writer (done_ ++ cs) oe r w') w.
Proof.
  induction 1 as [st st' Hn|st e st' Hn|st c st' cs oe Hn Ds IH];
    intros done_ writer w Wr Hp Ho Hm Hw0; apply twp_iter; unfold object_stream_step at 1; wp_bind;
    eexists _, _; (split; [apply Hn|]).
  - eapply twp_seq; [apply Wr|by eapply complete_from|]. intros r w' _ (Hw' & G & Hr).
    apply twp_ret. simpl. apply twp_ret. split_and!; [done|done|]. rewrite app_nil_r.
    destruct r as [info|e]; [done|]. destruct Hr as (K1 & K2 & Hr). split_and!; [done| |by right; auto].
    destruct K2; [by left|by right].
  - assert (T : torn u P D w0 w writer) by (destruct Wr; by constructor).
    eapply twp_mono; [by eapply (abort_from u P D w0 w writer (inr (Err e)))|].
    intros ? w' (-> & Hw' & G & K1 & K2 & Hc). simpl. apply twp_ret.
    split_and!; [done|done|]. split_and!; [done|by left|]. intros Hf. left. auto.
  - eapply twp_seq; [apply Wr|by eapply write_chunk_ok|].
    intros [r writer'] w1 _ (Hpaths & (i & Hi & Hwr) & Hr).
    destruct (writer_paths_eq _ _ Hpaths) as (E1 & E2 & E3 & E4).
    destruct r as [[]|e].
    + destruct Hr as [Wr' Eadv]. apply twp_ret. simpl.
      eapply twp_mono; [apply (IH (done_ ++ [c]) writer' w1); try done|].
      { by eapply writes_parents. }
      { by rewrite E1. }
      { by rewrite E3. }
      intros r w' (Hw' & G & Hr). rewrite <- app_assoc in Hr. simpl in Hr.
      unfold upload_result, cleared, dir_in_the_way in *.
      rewrite Hpaths in G. rewrite Hpaths, E1, E2, E3, E4 in Hr.
      split_and!; [done|done|]. destruct r as [info|e]; [|done].
      destruct Hr as (? & Hc & ?). split_and!; [done| |naive_solver..].
      rewrite Eadv in Hc. by eapply completed_advance.
    + destruct Hr as [T Hf]. eapply twp_mono; [eapply (abort_from u P D w0 w1 writer' (inr (Err e)))|].
      { done. } { by rewrite E1. } { by rewrite E3. } { done. }
      intros ? w' (-> & Hw' & G & K1 & K2 & Hc). simpl. apply twp_ret. rewrite Hpaths in G.
      rewrite E3 in K1. rewrite E1 in K2.
      split_and!; [done|done|]. split_and!; [done|by left|]. intros H0. exfalso. apply Hf.
      by apply (gr_faults _ _ _ _ _ (wg_grows _ _ _ _ _ _ _ Wr)).
Qed.

(** ** The whole operation *)

Context `{XL : !ExternalsLaws}.

(** The object has the content [d] and the record [info]. *)
Definition object_stored (self : LocalStorageBackend) (w : World) (bucket key : string)
    (info : ObjectInfo) (d : bytes) : Prop :=
  content w (object_path self bucket key) = Some d ∧
  ∃ b, content w (metadata_path self bucket key) = Some b ∧ json_from_slice b = Ok info.

(** The record of an upload. *)
Definition describes (bucket key : string) (content_type : option string)
    (metadata : ObjectMetadata) (d : bytes) (info : ObjectInfo) : Prop :=
  oi_bucket info = bucket ∧ oi_key info = key ∧ oi_content_type info = content_type ∧
  oi_metadata info = metadata ∧ oi_size_bytes info = Z.min (Z.of_nat (length d)) u64_MAX ∧
  oi_sha256_hex info = sha256_hex d ∧ oi_etag info = Some (sha256_hex d).

(** What an upload promises whatever it returns: it changes the two files of
    the object and its two temporary files only. *)
Record uploaded (self : LocalStorageBackend) (bucket key : string) (w w' : World) : Prop :=
  mkUploaded {
  up_wf : wf w';
  up_fresh : ∀ k, fresh (2 + k) w → fresh k w';
  up_grows : grows 2 (λ p, p ∈ upload_paths self bucket key w) (upload_dirs self bucket key) w w';
  up_others : ∀ p, is_uploading_temp_file p = false → p ≠ object_path self bucket key →
    p ≠ metadata_path self bucket key → content w' p = content w p;
}.

Lemma uploaded_intro self bucket key w w' :
  plain_key key → wf w → wf w' →
  grows 2 (λ p, p ∈ upload_paths self bucket key w) (upload_dirs self bucket key) w w' →
  grows 2 nowhere (upload_dirs self bucket key) w w' ∨ w_uuid_next w' = (2 + w_uuid_next w)%nat →
  uploaded self bucket key w w'.
Proof.
  intros Hk Hw Hw' G Hu. constructor; [done| |done|].
  - intros k F. destruct Hu as [Hn|Hu]; [eapply (fresh_grows 2); [exact F|exact Hn|by intros ?? []]|].
    eapply (fresh_grows 2); [exact F|exact G|]. intros p i Hp _.
    unfold upload_paths in Hp. set_unfold.
    destruct Hp as [->|[->|[->|[->|[]]]]].
    + left. by apply object_path_plain.
    + right. exists (w_uuid_next w). split; [lia|apply (temp_at_of 0)].
    + left. apply metadata_path_plain, Hk.
    + right. exists (1 + w_uuid_next w)%nat. split; [lia|apply (temp_at_of 1)].
  - intros p Hp Ho Hm. eapply grows_content; [done|exact G|]. unfold upload_paths. set_unfold.
    assert (T : ∀ n q, p ≠ temp_at n w q)
      by (intros n q; apply uploading_ne; [done|eapply temp_of_uploading, temp_at_of]).
    intros [?|[?|[?|[?|[]]]]]; [done|by eapply (T 0%nat)|done|by eapply (T 1%nat)].
Qed.

Lemma upload_parents self bucket key w w' writer content_type metadata :
  started self bucket key content_type metadata w w' writer → parents_exist w' writer.
Proof.
  intros St p Hp. rewrite (st_paths _ _ _ _ _ _ _ _ St) in Hp.
  destruct (st_parents _ _ _ _ _ _ _ _ St) as [D1 D2].
  unfold upload_paths in Hp. set_unfold. destruct Hp as [->|[->|[->|[->|[]]]]]; try done;
    unfold temp_at; by rewrite removelast_snoc.
Qed.

(** A writer made by [create_multipart_writer] and its files. *)
Lemma started_paths self bucket key content_type metadata w w' writer :
  started self bucket key content_type metadata w w' writer →
  lmw_object_path writer = object_path self bucket key ∧
  lmw_temp_path writer = temp_at 0 w (object_path self bucket key) ∧
  lmw_metadata_path writer = metadata_path self bucket key ∧
  lmw_metadata_temp_path writer = temp_at 1 w (metadata_path self bucket key).
Proof. intros St. pose proof (st_paths _ _ _ _ _ _ _ _ St) as E. by injection E as -> -> -> ->. Qed.

Lemma started_completed self bucket key content_type metadata w w' writer cs info :
  started self bucket key content_type metadata w w' writer → completed writer cs info →
  describes bucket key content_type metadata (concat cs) info.
Proof.
  intros [E1 E2 E3 E4 _ _ _] [C1 C2 C3 C4 C5 C6 C7]. unfold describes.
  rewrite C1, C2, C3, C4, C5, C6, C7, E1, E2, E3, E4, size_of_concat, sha256_of_concat. done.
Qed.

(** What changed, from the frame of the loop. *)
Lemma upload_frame self bucket key content_type metadata w w1 w' writer :
  plain_key key → wf w → wf w' →
  started self bucket key content_type metadata w w1 writer →
  grows 2 (λ p, temp_at 0 w (object_path self bucket key) = p ∨ p ∈ writer_paths writer)
    (upload_dirs self bucket key) w w' →
  (w_uuid_next w1 <= w_uuid_next w')%nat → uploaded self bucket key w w'.
Proof.
  intros Hk Hw Hw' St G Hu. apply uploaded_intro; try done.
  - eapply grows_weaken; [exact G| |done|lia]. rewrite (st_paths _ _ _ _ _ _ _ _ St).
    intros p [<-|Hp]; [|done]. unfold upload_paths. set_unfold. auto.
  - right. pose proof (gr_uuid_next _ _ _ _ _ G). pose proof (st_uuids _ _ _ _ _ _ _ _ St). lia.
Qed.

Lemma twp_uuids {A} (p : prog osE A) (Q : A → World → Prop) w :
  twp p Q w → twp p (λ a w', (w_uuid_next w <= w_uuid_next w')%nat ∧ Q a w') w.
Proof.
  intros (a & w' & Hr & HQ). exists a, w'. split; [done|]. split; [by eapply uuids_runs|done].
Qed.

(** What [put_object_stream] and the end of a multipart upload return. *)
Definition put_result (self : LocalStorageBackend) (bucket key : string)
    (content_type : option string) (metadata : ObjectMetadata) (w w' : World) (cs : list bytes)
    (oe : option StorageError) (r : storage_result ObjectInfo) : Prop :=
  match r with
  | Ok info => oe = None ∧ describes bucket key content_type metadata (concat cs) info ∧
      object_stored self w' bucket key info (concat cs) ∧
      file_at w' (temp_at 0 w (object_path self bucket key)) = None ∧
      file_at w' (temp_at 1 w (metadata_path self bucket key)) = None
  | Err e => kept w w' (metadata_path self bucket key) ∧
      (kept w w' (object_path self bucket key) ∨
       oe = None ∧ content w' (object_path self bucket key) = Some (concat cs)) ∧
      (no_faults w →
         oe = Some e ∧ file_at w' (temp_at 0 w (object_path self bucket key)) = None ∧
                       file_at w' (temp_at 1 w (metadata_path self bucket key)) = None ∨
         upload_obstructed self bucket key w)
  end.

Lemma upload_put_result self bucket key content_type metadata w w1 w' writer cs oe r :
  started self bucket key content_type metadata w w1 writer →
  upload_result (upload_dirs self bucket key) w writer cs oe r w' →
  put_result self bucket key content_type metadata w w' cs oe r.
Proof.
  intros St Hr. destruct (started_paths _ _ _ _ _ _ _ _ St) as (P1 & P2 & P3 & P4).
  pose proof (st_paths _ _ _ _ _ _ _ _ St) as Hp.
  unfold upload_result, cleared, dir_in_the_way in Hr. rewrite P1, P2, P3, P4, Hp in Hr.
  unfold put_result. destruct r as [info|e].
  - destruct Hr as (Ho & Hc & [H1 H2] & Hd & b & Hb & Hm). split_and!; [done| | |done|done].
    + by eapply started_completed.
    + split; [done|]. exists b. split; [done|].
      destruct (json_roundtrip info) as (b' & Hb' & Hj). congruence.
  - destruct Hr as (K1 & K2 & Hr). split_and!; [done|done|]. intros Hf.
    destruct (Hr Hf) as [(? & ? & ?)|Hdir]; [by left|right]. right. by right.
Qed.

(** C9: [put_object_stream] stores an object, its content and its record, or
    reports an error.  Success means that the body ended without an error,
    that the object's file holds the concatenation of the chunks, that its
    metadata file is read back as the returned record, that the record has the
    names, type, metadata, size and digest of the upload, and that no temporary
    file is left.  After an error the record is the old one, and so is the
    content, unless the body was complete and the metadata could not be put in
    place: then the new content is under the old record.  An error of the body
    is returned as it is.  Whatever is returned, the files of the object and
    two temporary files are all that changes, and the operation ends.  Names
    that fail validation make no call. *)
Theorem put_object_stream_spec self bucket key content_type metadata stream cs oe w :
  wf w → fresh 2 w → body_of stream cs oe →
  (¬ (safe_segment bucket ∧ key_safe key) → ∃ e,
     (e = InvalidStorageKey bucket ∨ e = InvalidStorageKey key) ∧
     runs (put_object_stream self bucket key content_type metadata stream) w (Err e) w) ∧
  (plain_object bucket key →
   twp (put_object_stream self bucket key content_type metadata stream) (λ r w',
     uploaded self bucket key w w' ∧
     put_result self bucket key content_type metadata w w' cs oe r) w).
Proof.
  intros Hw F Hb. split.
  { intros H. destruct (object_names_refused self bucket key H) as (e & E1 & E2 & He).
    exists e. split; [done|]. unfold put_object_stream, create_multipart_writer. rewrite E1.
    by apply runs_ret. }
  intros [Hs Hk]. unfold put_object_stream.
  eapply twp_seq; [done|by apply create_multipart_writer_ok|]. intros [writer|e] w1 Hw1 Hr.
  2: { apply twp_ret. destruct Hr as (_ & G & Hr). split.
       - apply uploaded_intro; [done|done|done| |by left].
         eapply grows_weaken; [exact G|by intros ? []|done|lia].
       - assert (K : ∀ p, kept w w1 p) by (intros p; eapply grows_kept; [done|exact G|by intros []]).
         split_and!; [apply K|left; apply K|]. right. auto. }
  destruct Hr as [St Wr]. destruct (started_paths _ _ _ _ _ _ _ _ St) as (P1 & P2 & P3 & P4).
  pose proof (upload_paths_distinct self bucket key w Hk) as Hd.
  pose proof (wg_paths _ _ _ _ _ _ _ Wr) as Hne. apply writer_paths_ne in Hne.
  eapply twp_mono; [apply twp_uuids; eapply (upload_loop 2 _ _ w _ _ cs oe (proj1 Hb) [] writer w1 Wr)|].
  - by eapply upload_parents.
  - rewrite <- P2. by apply not_eq_sym, Hne.
  - rewrite <- P2. by apply Hne.
  - done.
  - intros r w' (Hu & Hw' & G & Hr). split; [by eapply upload_frame|].
    by eapply upload_put_result.
Qed.

(** ** A multipart upload as a state machine *)

(** [writer] is a writer of this object that has been given [cs]. *)
Definition session (self : LocalStorageBackend) (bucket key : string)
    (content_type : option string) (metadata : ObjectMetadata) (w : World)
    (writer : LocalMultipartWriter) (cs : list bytes) : Prop :=
  ∃ w0 w1 u P D, started self bucket key content_type metadata w0 w1 writer ∧
    writing u P D w0 w writer cs ∧ parents_exist w writer.

(** What others may do between two steps of an upload: anything that leaves its
    temporary files alone. *)
Definition interferes (writer : LocalMultipartWriter) (w w' : World) : Prop :=
  wf w' ∧ ∃ u P D, grows u P D w w' ∧
    (∀ p, P p → p ≠ lmw_temp_path writer ∧ p ≠ lmw_metadata_temp_path writer ∧
                file_at w' p ≠ file_at w (lmw_temp_path writer)).

Lemma started_advance self bucket key content_type metadata w0 w1 writer f h n :
  started self bucket key content_type metadata w0 w1 writer →
  started self bucket key content_type metadata w0 w1 (lmw_advance writer f h n).
Proof. by intros []. Qed.

Lemma writing_interfere u P D w0 w w' writer cs :
  writing u P D w0 w writer cs → parents_exist w writer → interferes writer w w' →
  ∃ u' P' D', writing u' P' D' w0 w' writer cs ∧ parents_exist w' writer.
Proof.
  intros [Hw G Hp (i & Hf & Hi & Hn & Hd & Ho) Hh Hs Hm] Hpar (Hw' & u1 & P1 & D1 & G1 & H1).
  assert (T1 : file_at w' (lmw_temp_path writer) = Some i).
  { rewrite (gr_files _ _ _ _ _ G1); [done|]. intros Hx. by destruct (H1 _ Hx). }
  exists (u + u1)%nat, (λ p, P p ∨ P1 p), (λ p, D p ∨ D1 p). split.
  - constructor; try done.
    + by eapply grows_trans.
    + exists i. split_and!; [done|done|done|by eapply (grows_data _ _ _ w)|].
      intros p Hx. destruct (decide (p = lmw_temp_path writer)) as [|Hne]; [done|]. apply Ho.
      rewrite <- Hx. symmetry. apply (gr_files _ _ _ _ _ G1). intros HP.
      destruct (H1 p HP) as (_ & _ & Hl). congruence.
    + rewrite (gr_files _ _ _ _ _ G1); [done|]. intros Hx. by destruct (H1 _ Hx) as (_ & ? & _).
  - intros p Hin. by apply (gr_dirs _ _ _ _ _ G1), Hpar.
Qed.

Lemma writes_content w w' i p q :
  writes i w w' → file_at w p = Some i → (∀ q, file_at w q = Some i → q = p) → q ≠ p →
  content w' q = content w q.
Proof.
  intros [_ [Hf [_ Hi]]] Hp Ho Hq. unfold content. rewrite Hf.
  destruct (file_at w q) as [j|] eqn:E; [|done]. simpl. apply Hi. intros ->. by apply Hq, Ho.
Qed.

Lemma session_write self bucket key content_type metadata w writer cs b :
  session self bucket key content_type metadata w writer cs →
  twp (write_chunk writer b) (λ '(r, writer') w',
    (∀ p, p ≠ lmw_temp_path writer → content w' p = content w p) ∧
    match r with
    | Ok _ => session self bucket key content_type metadata w' writer' (cs ++ [b])
    | Err e => ¬ no_faults w ∧ wf w'
    end) w.
Proof.
  intros (w0 & w1 & u & P & D & St & Wr & Hp). pose proof Wr as [_ _ _ (i & _ & Hi & _ & _ & Ho) _ _ _].
  eapply twp_mono; [by eapply write_chunk_ok|]. intros [r writer'] w' (Hpaths & (j & Hj & Hwr) & Hr).
  assert (j = i) as -> by congruence. split; [intros p Hne; by eapply writes_content|].
  destruct r as [[]|e].
  - destruct Hr as [Wr' Eadv]. exists w0, w1, u, P, D. split_and!; [|done|by eapply writes_parents].
    rewrite Eadv. by apply started_advance.
  - destruct Hr as [T Hf]. split; [done|apply T].
Qed.

Lemma session_complete self bucket key content_type metadata w writer cs :
  session self bucket key content_type metadata w writer cs →
  twp (complete writer) (λ r w', wf w' ∧ grows 0 (λ p, p ∈ writer_paths writer) nowhere w w' ∧
    match r with
    | Ok info => describes bucket key content_type metadata (concat cs) info ∧
        object_stored self w' bucket key info (concat cs) ∧ cleared writer w'
    | Err e => kept w w' (metadata_path self bucket key) ∧
        (kept w w' (object_path self bucket key) ∨
         content w' (object_path self bucket key) = Some (concat cs))
    end) w.
Proof.
  intros (w0 & w1 & u & P & D & St & Wr & Hp).
  destruct (started_paths _ _ _ _ _ _ _ _ St) as (P1 & P2 & P3 & P4).
  eapply twp_mono; [by eapply complete_ok|]. rewrite P1, P3.
  intros [info|e] w' (Hw' & G & Hr); split_and!; try done.
  - by eapply started_completed; [|apply Hr].
  - destruct Hr as (_ & _ & Hd & b & Hb & Hm). split; [done|]. exists b. split; [done|].
    destruct (json_roundtrip info) as (b' & Hb' & Hj). congruence.
  - apply Hr.
  - apply Hr.
  - apply Hr.
Qed.

(** C11: a multipart upload is invisible until it is completed, whatever
    happens between its steps.  [create_multipart_object] makes a writer whose
    [session] holds nothing; each [write_chunk] that succeeds appends its chunk
    and changes no file but the temporary one; operations of others that leave
    the temporary files alone keep the session; [complete] stores exactly the
    chunks under the record it returns, or leaves the old record, with the old
    content or the new one; [abort] changes the temporary files only, which are
    gone after it succeeds.  Every step ends. *)
Theorem multipart_upload_spec self bucket key content_type metadata w :
  wf w → fresh 2 w → plain_object bucket key →
  let S := session self bucket key content_type metadata in
  twp (create_multipart_object self bucket key content_type metadata) (λ r w',
    (∀ p, is_uploading_temp_file p = false → content w' p = content w p) ∧
    match r with
    | Ok m => ∃ writer, m = local_writer writer ∧ S w' writer []
    | Err e => no_faults w → upload_obstructed self bucket key w
    end) w ∧
  ∀ w1 writer cs, S w1 writer cs →
    (∀ b, twp (write_chunk writer b) (λ '(r, writer') w',
       (∀ p, p ≠ lmw_temp_path writer → content w' p = content w1 p) ∧
       match r with
       | Ok _ => S w' writer' (cs ++ [b])
       | Err e => ¬ no_faults w1 ∧ wf w'
       end) w1) ∧
    (∀ w2, interferes writer w1 w2 → S w2 writer cs) ∧
    twp (complete writer) (λ r w', wf w' ∧ grows 0 (λ p, p ∈ writer_paths writer) nowhere w1 w' ∧
      match r with
      | Ok info => describes bucket key content_type metadata (concat cs) info ∧
          object_stored self w' bucket key info (concat cs) ∧ cleared writer w'
      | Err e => kept w1 w' (metadata_path self bucket key) ∧
          (kept w1 w' (object_path self bucket key) ∨
           content w' (object_path self bucket key) = Some (concat cs))
      end) w1 ∧
    twp (abort writer) (λ r w', wf w' ∧
      grows 0 (λ p, p = lmw_temp_path writer ∨ p = lmw_metadata_temp_path writer) nowhere w1 w' ∧
      (r = Ok tt ∨ no_faults w1 → cleared writer w')) w1.
Proof.
  intros Hw F [Hs Hk] S. split.
  - unfold create_multipart_object.
    eapply twp_seq; [done|by apply create_multipart_writer_ok|]. intros [writer|e] w1 Hw1 Hr;
      apply twp_ret; simpl.
    + destruct Hr as [St Wr]. split.
      * intros p Hp. eapply grows_content; [done|apply Wr|]. intros E. revert Hp. rewrite <- E.
        by rewrite (temp_of_uploading _ _ (temp_at_of 0 w (object_path self bucket key))).
      * exists writer. split; [done|]. exists w, w1. eexists _, _, _.
        split_and!; [done|exact Wr|by eapply upload_parents].
    + destruct Hr as (_ & G & Hr). split; [|done]. intros p _.
      eapply grows_content; [done|exact G|by intros []].
  - intros w1 writer cs HS. split_and!.
    + intros b. by apply session_write.
    + intros w2 Hi. destruct HS as (w0 & w1' & u & P & D & St & Wr & Hp).
      destruct (writing_interfere _ _ _ _ _ _ _ _ Wr Hp Hi) as (u' & P' & D' & Wr' & Hp').
      by exists w0, w1', u', P', D'.
    + by apply session_complete.
    + destruct HS as (w0 & w1' & u & P & D & _ & Wr & _). apply abort_ok, Wr.
Qed.
End Writer.
