(* ===== verification/LocalObjectRead.v ===== *)
(** * Reading, deleting and listing bucket objects (src/src/local.rs): correctness *)
From S2P Require Import Prelude Text Errors Providers Externals Paths Keys Effects Streams BlobStore Objects Service Fs FsFacts FsFrame FsCalls Local LocalObjects LocalBlob LocalRead Tree LocalList LocalUpload.
From Stdlib Require Import Ascii.

Section ReadObjects.
Context `{EX : Externals} `{SJ : !SerdeJson}.
Context (self : LocalStorageBackend).

(** ** Metadata *)

(** The record in a metadata file. *)
Definition parse_info (b : bytes) : option ObjectInfo :=
  match json_from_slice b with Ok info => Some info | Err _ => None end.

Definition info_at (w : World) (bucket key : string) : option ObjectInfo :=
  match object_metadata_path_for self bucket key with
  | Ok path => content w path ≫= parse_info
  | Err _ => None
  end.

Definition object_label (bucket key : string) : string := bucket +:+ "/" +:+ key.

Lemma reached_info w w1 bucket key : reached w w1 → info_at w1 bucket key = info_at w bucket key.
Proof.
  intros R. unfold info_at. destruct (object_metadata_path_for self bucket key) as [p|]; [|done].
  by rewrite (reached_content w w1).
Qed.

Lemma entry_none_content w p : entry_at w p = None → content w p = None.
Proof. intros H. unfold content, file_at. by apply entry_none_name in H as [-> _]. Qed.

Lemma get_object_metadata_ok bucket key w :
  wf w →
  twp (get_object_metadata self bucket key) (λ r w', reached w w' ∧
    match r with
    | Ok info => info_at w bucket key = Some info
    | Err e => (e = MissingBlob (object_label bucket key) →
                  ∃ p, object_metadata_path_for self bucket key = Ok p ∧ entry_at w p = None) ∧
               (no_faults w → info_at w bucket key = None)
    end) w.
Proof.
  intros Hw. unfold get_object_metadata, info_at.
  destruct (object_metadata_path_for self bucket key) as [p|e] eqn:E.
  2: { apply twp_ret. split; [by apply reached_refl|]. split; [|done].
       intros ->. exfalso. destruct (decide (key_safe key)) as [Hk|Hk].
       - destruct (validate_object_bucket bucket) as [[]|] eqn:Eb.
         + apply validate_object_bucket_ok in Eb. by rewrite object_metadata_path_for_safe in E.
         + destruct (object_names_refused self bucket key) as (e' & _ & E2 & He).
           * intros [Hs _]. apply validate_object_bucket_ok in Hs. congruence.
           * destruct He; congruence.
       - destruct (object_names_refused self bucket key) as (e' & _ & E2 & He); [tauto|].
         destruct He; congruence. }
  eapply twp_seq; [done|by apply read_spec|]. intros [b|e] w1 Hw1 [R Hr].
  - apply twp_ret. split; [done|]. rewrite Hr. simpl. unfold parse_info.
    destruct (json_from_slice b); simpl; [done|]. by split.
  - destruct Hr as [Hn Hf].
    assert (Hc : no_faults w → content w p ≫= parse_info = None)
      by (intros H0; unfold content; by rewrite (Hf H0)).
    destruct (decide (io_kind e = NotFound)); apply twp_ret; (split; [done|]); split; try done.
    intros _. exists p. split; [done|auto].
Qed.

(** ** Ranges *)

(** C29: [get_object_range] delivers the part of the range that lies in the
    object: it checks the range against the recorded size, clamps its end,
    and the body delivers exactly those bytes of the content, with their number
    as its length and its size hint; when the recorded size is that of the
    content, the body has exactly that length.  A range whose end is before its
    start is refused before any call, and one that starts beyond the object
    after its record is read. *)
Theorem get_object_range_spec bucket key range info d w :
  wf w → safe_segment bucket → key_safe key →
  u64_ok (range_start range) → u64_ok (range_end range) → u64_ok (oi_size_bytes info) →
  object_stored self w bucket key info d →
  let size := oi_size_bytes info in
  let end_ := Z.min (range_end range) size in
  let length := end_ - range_start range in
  twp (get_object_range self bucket key range) (λ r w1, reached w w1 ∧
    match r with
    | Ok body => range_start range ≤ range_end range ∧ 0 ≤ length ∧
        orb_object body = info ∧
        orb_range body = mkObjectContentRange (range_start range) end_ size ∧
        orb_content_length body = length ∧ ocr_len (orb_range body) = length ∧
        size_hint (orb_body body) = Some length ∧
        (length ≤ isize_MAX → ∀ w2, later w1 w2 →
           reads (orb_body body) w2 (byte_range (range_start range) length d)) ∧
        (size = Z.of_nat (List.length d) →
           Z.of_nat (List.length (byte_range (range_start range) length d)) = length)
    | Err e =>
        (range_end range < range_start range →
           e = PreconditionFailed (object_label bucket key) "range end is before range start") ∧
        (range_start range ≤ range_end range → size < range_start range → no_faults w →
           e = PreconditionFailed (object_label bucket key) "range start is beyond object size") ∧
        (no_faults w → range_end range < range_start range ∨ size < range_start range ∨
                       i64_MAX < range_start range)
    end) w.
Proof.
  intros Hw Hb Hk Hu1 Hu2 Hu3 (Hd & b & Hm & Hj) size end_ length.
  assert (Hi : info_at w bucket key = Some info).
  { unfold info_at. rewrite object_metadata_path_for_safe by done. rewrite Hm. simpl.
    unfold parse_info. by rewrite Hj. }
  unfold get_object_range.
  destruct (Z.ltb_spec (range_end range) (range_start range)) as [Hlt|Hge].
  { apply twp_ret. split; [by apply reached_refl|]. split_and!; [done|lia|]. intros _. by left. }
  eapply twp_seq; [done|by apply get_object_metadata_ok|]. intros [o|e] w1 Hw1 [R Hr].
  2: { apply twp_ret. split; [done|]. destruct Hr as [_ Hr]. split_and!; [lia| |].
       - intros _ _ Hf. specialize (Hr Hf). congruence.
       - intros Hf. specialize (Hr Hf). congruence. }
  assert (o = info) as -> by congruence. fold size.
  destruct (Z.ltb_spec size (range_start range)) as [Hlt|Hle].
  { apply twp_ret. split; [done|]. split_and!; [lia|done|]. intros _. right. by left. }
  fold end_. rewrite object_path_for_safe by done.
  assert (Hsub : u64_saturating_sub end_ (range_start range) = length)
    by (unfold u64_saturating_sub, u64_ok in *; lia).
  rewrite Hsub. set (path := object_path self bucket key) in *.
  eapply twp_seq; [done|by apply open_blob_spec|]. intros [f|err] w2 Hw2 [R2 Hr2].
  2: { apply twp_ret. split; [by eapply reached_trans|]. split_and!; [lia|lia|].
       intros Hf. apply (rc_faults _ _ R) in Hf. destruct Hr2 as [_ Hr2]. specialize (Hr2 Hf).
       apply entry_none_content in Hr2. rewrite (reached_content w w1) in Hr2 by done. congruence. }
  destruct Hr2 as (en & -> & He). rewrite (rc_entry _ _ R) in He.
  eapply twp_seq; [done|by apply seek_spec|]. intros [f|err] w3 Hw3 [R3 Hr3]; cbn [map_err];
    apply twp_ret; (split; [by do 2 (eapply reached_trans; [done|])|]).
  2: { split_and!; [lia|lia|]. intros Hf. right. right.
       by apply Hr3, (rc_faults _ _ R2), (rc_faults _ _ R). }
  destruct Hr3 as [-> Hmax]. simpl.
  split_and!; try done; try lia.
  - unfold ocr_len. simpl. rewrite Z.mod_small; [done|]. unfold u64_ok, u64_MAX in *. lia.
  - intros Hlen w4 H4. destruct (entry_content w path d Hw Hd) as (i & Hie & Hdi).
    assert (en = FileEntry i) as -> by congruence.
    eapply (reads_later _ w w3 w4 path i (range_start range) (Some length) (Some length) d); try done.
    + unfold u64_ok in Hu1. lia.
    + simpl. lia.
    + simpl. lia.
    + by do 2 (eapply reached_trans; [done|]).
  - intros Hs. unfold u64_ok in *.
    rewrite byte_range_length by lia. unfold u64_saturating_sub. rewrite <- Hs. lia.
Qed.

(** ** Deletion *)

Lemma remove_if_present_ok p w :
  wf w →
  twp (remove_if_present p) (λ r w', wf w' ∧ grows 0 (eq p) nowhere w w' ∧
    (no_faults w → file_at w' p = None) ∧
    match r with
    | Ok _ => file_at w' p = None
    | Err e => reached w w' ∧ (no_faults w → is_dir w p ∨ misplaced w p)
    end) w.
Proof.
  intros Hw. apply twp_wf; [done|]. unfold remove_if_present.
  eapply twp_seq; [done|by apply remove_spec|]. intros [[]|e] w1 Hw1 [G Hr].
  { destruct Hr as [_ Hn]. apply twp_ret. by split_and!. }
  destruct Hr as (R & Hn & Hk). rewrite <- (rc_file _ _ R) in Hn.
  destruct (decide (io_kind e = NotFound)) as [E|E]; apply twp_ret; split_and!; auto.
  intros Hf. destruct (entry_at w p) as [[|i]|] eqn:Ee; [by left| |right].
  - apply entry_at_file in Ee; [|done]. rewrite (rc_file _ _ R) in Hn.
    specialize (Hn (or_introl Hf)). congruence.
  - split; [done|]. specialize (Hk Hf eq_refl). rewrite Hk in E.
    unfold missing_kind in *. by destruct (existsb _ _).
Qed.

Lemma misplaced_removed w w1 p q :
  wf w → wf w1 → grows 0 (eq q) nowhere w w1 → file_at w1 q = None → p ≠ q →
  misplaced w1 p → misplaced w p.
Proof.
  intros Hw Hw1 G Hq Hne [He Hm]. split.
  - destruct (entry_at w p) as [[|i]|] eqn:E; [| |done].
    + apply (gr_dirs _ _ _ _ _ G) in E. unfold is_dir in E. congruence.
    + apply entry_at_file in E; [|done]. rewrite <- (gr_files _ _ _ _ _ G) in E by congruence.
      apply entry_at_file in E; [congruence|done].
  - unfold missing_kind in *.
    destruct (existsb (is_file_at (w_names w1)) _) eqn:E1; [|done].
    apply existsb_exists in E1 as (r & Hr & Hf).
    assert (existsb (is_file_at (w_names w)) (removelast (prefixes p)) = true) as ->; [|done].
    apply existsb_exists. exists r. split; [done|].
    apply file_name_entry in Hf; [|done]. apply file_name_entry; [done|].
    rewrite <- (gr_files _ _ _ _ _ G); [done|]. intros ->. rewrite Hq in Hf. by destruct Hf.
Qed.

Lemma file_none_content w p : file_at w p = None → content w p = None.
Proof. unfold content. by intros ->. Qed.

(** C31: [delete_object] removes the content and the record of an object and
    nothing else.  After success both are gone, so that its metadata is not
    found; an object without files is success.  An error leaves the record, and
    the content is there as well or already gone; without failing calls it
    means that one of the two names is a directory or lies below a file. *)
Theorem delete_object_spec bucket key w :
  wf w →
  (¬ (safe_segment bucket ∧ key_safe key) → ∃ e,
     (e = InvalidStorageKey bucket ∨ e = InvalidStorageKey key) ∧
     runs (delete_object self bucket key) w (Err e) w) ∧
  (safe_segment bucket → key_safe key →
   let op := object_path self bucket key in
   let mp := metadata_path self bucket key in
   twp (delete_object self bucket key) (λ r w', wf w' ∧
     grows 0 (λ p, p = op ∨ p = mp) nowhere w w' ∧
     (no_faults w → content w' op = None) ∧
     match r with
     | Ok _ => content w' op = None ∧ content w' mp = None ∧ info_at w' bucket key = None
     | Err e => content w' mp = content w mp ∧ (content w' op = content w op ∨ content w' op = None) ∧
         (no_faults w → is_dir w op ∨ misplaced w op ∨ is_dir w mp ∨ misplaced w mp)
     end) w).
Proof.
  intros Hw. split.
  { intros H. destruct (object_names_refused self bucket key H) as (e & E1 & E2 & He).
    exists e. split; [done|]. unfold delete_object. rewrite E1. by apply runs_ret. }
  intros Hb Hk op mp. unfold delete_object.
  rewrite object_path_for_safe, object_metadata_path_for_safe by done. fold op mp.
  assert (Hne : op ≠ mp).
  { intros E. pose proof (object_path_length self bucket key Hk) as L. fold op mp in L.
    rewrite E in L. lia. }
  eapply twp_seq; [done|by apply remove_if_present_ok|]. intros [[]|e] w1 Hw1 (_ & G1 & F1 & H1).
  2: { apply twp_ret. destruct H1 as [R H1]. split_and!; [done| | | | |].
       - eapply grows_weaken; [exact G1|naive_solver|done|lia].
       - intros Hf. by apply file_none_content, F1.
       - by apply reached_content.
       - left. by apply reached_content.
       - intros Hf. destruct (H1 Hf); auto. }
  eapply twp_mono; [by apply remove_if_present_ok|]. intros r w2 (Hw2 & G2 & F2 & H2).
  assert (G : grows 0 (λ p, p = op ∨ p = mp) nowhere w w2)
    by (eapply grows_trans; [exact G1|exact G2|intros p [<-|<-]; auto|frame_side|done]).
  assert (Ho : content w2 op = None).
  { rewrite (grows_content 0 (eq mp) nowhere w1 w2 op) by (done || congruence).
    by apply file_none_content. }
  split_and!; [done|done|done|]. destruct r as [[]|e].
  - split_and!; [done|by apply file_none_content|]. unfold info_at.
    rewrite object_metadata_path_for_safe by done. fold mp. by rewrite file_none_content.
  - destruct H2 as [R2 H2]. split_and!; [|by right|].
    + rewrite (reached_content w1 w2) by done.
      eapply grows_content; [done|exact G1|]. congruence.
    + intros Hf. destruct H2 as [H2|H2]; [by apply (gr_faults _ _ _ _ _ G1)| |].
      * right. right. left. by apply (gr_newdirs _ _ _ _ _ G1) in H2 as [?|[]].
      * do 3 right. by apply (misplaced_removed w w1 mp op).
Qed.
End ReadObjects.
