(* ===== verification/LocalObjectList.v ===== *)
(** * Listing bucket objects (src/src/local.rs): correctness *)
From S2P Require Import Prelude Text Errors Providers Externals Paths Keys Effects Streams BlobStore Objects Service Fs FsFacts FsFrame FsCalls Local LocalObjects LocalBlob LocalRead Tree LocalList LocalUpload LocalObjectRead.
From Stdlib Require Import Ascii.

#[export] Instance object_key_le_trans `{EX : Externals} : Transitive object_key_le.
Proof. intros a b c. unfold object_key_le. apply str_leb_trans. Qed.

#[export] Instance object_key_le_total `{EX : Externals} : Total object_key_le.
Proof. intros a b. apply str_leb_total. Qed.

Section ListObjects.
Context `{EX : Externals} `{SJ : !SerdeJson}.
Context (self : LocalStorageBackend) (bucket prefix : string).

(** The record listed for a file, if one is. *)
Definition object_listed (w : World) (path : PathBuf) : option ObjectInfo :=
  if is_uploading_temp_file path then None
  else key ← key_for_bucket_path self bucket path;
       if starts_with prefix key then info_at self w bucket key else None.

Definition object_listing (w : World) (p : PathBuf) : list ObjectInfo :=
  omap (object_listed w) (files_below w p).

Definition stack_objects (w : World) (stack : list PathBuf) : list ObjectInfo :=
  concat (map (object_listing w) stack).

Lemma omap_ext_fun {A B} (f g : A → option B) (l : list A) : (∀ x, f x = g x) → omap f l = omap g l.
Proof. intros E. induction l as [|x l IH]; [done|]. cbn. rewrite E. destruct (g x); [f_equal|]; exact IH. Qed.

Lemma object_listing_dir w p :
  wf w → is_dir w p →
  object_listing w p = stack_objects w (merge_sort path_le (children w p)).
Proof.
  intros Hw Hd. unfold object_listing, stack_objects. rewrite files_below_dir by done.
  induction (merge_sort path_le (children w p)) as [|q l IH]; simpl; [done|].
  by rewrite omap_app, IH.
Qed.

Lemma reached_object_listing w w1 p :
  wf w → reached w w1 → object_listing w1 p = object_listing w p.
Proof.
  intros Hw R. unfold object_listing. rewrite (names_files_below w w1) by by apply reached_names.
  apply omap_ext_fun. intros q. unfold object_listed. destruct (is_uploading_temp_file q); [done|].
  destruct (key_for_bucket_path self bucket q); simpl; [|done]. by rewrite (reached_info self w w1).
Qed.

Lemma reached_stack_objects w w1 stack :
  wf w → reached w w1 → stack_objects w1 stack = stack_objects w stack.
Proof.
  intros Hw R. unfold stack_objects. induction stack as [|p l IH]; simpl; [done|].
  by rewrite IH, (reached_object_listing w w1).
Qed.

(** What a walk from [objects] and [stack] gives: the records of the files, of
    which some are left out when a call fails. *)
Definition objects_result (w : World) (objects : list ObjectInfo) (stack : list PathBuf)
    (r : storage_result (list ObjectInfo)) (w' : World) : Prop :=
  reached w w' ∧
  match r with
  | Ok os => ∃ l, os = objects ++ l ∧ l `sublist_of` stack_objects w stack ∧
                  (no_faults w → l = stack_objects w stack)
  | Err _ => no_faults w → ∃ p, p ∈ stack ∧ misplaced w p
  end.

Lemma objects_result_step w w1 objects l0 path stack stack' r w' :
  wf w → reached w w1 →
  stack_objects w (path :: stack) = l0 ++ stack_objects w stack' →
  (∀ p, p ∈ stack' → misplaced w p → p ∈ path :: stack) →
  objects_result w1 (objects ++ l0) stack' r w' → objects_result w objects (path :: stack) r w'.
Proof.
  intros Hw R E Hm [R' Hr]. split; [by eapply reached_trans|]. destruct r as [os|e].
  - destruct Hr as (l & -> & Hl & Hf). exists (l0 ++ l). rewrite E.
    rewrite (reached_stack_objects w w1) in Hl, Hf by done.
    split_and!; [by rewrite <- app_assoc|by apply sublist_app|].
    intros H. f_equal. by apply Hf, (rc_faults _ _ R).
  - intros Hf. destruct Hr as (p & Hp & Hmis); [by apply (rc_faults _ _ R)|].
    apply (reached_misplaced w w1) in Hmis; [|done..]. exists p. auto.
Qed.

(** A record that could not be read is left out. *)
Lemma objects_result_lost w w1 objects path stack r w' :
  wf w → reached w w1 → ¬ no_faults w →
  objects_result w1 objects stack r w' → objects_result w objects (path :: stack) r w'.
Proof.
  intros Hw R Hnf [R' Hr]. split; [by eapply reached_trans|]. destruct r as [os|e]; [|done].
  destruct Hr as (l & -> & Hl & _). exists l. rewrite (reached_stack_objects w w1) in Hl by done.
  split_and!; [done| |done]. unfold stack_objects. simpl. by apply sublist_inserts_l.
Qed.

Lemma objects_loop_spec :
  ∀ n objects stack w, wf w → n = to_walk w stack →
  twp (loop (objects_step self bucket prefix) (objects, stack)) (objects_result w objects stack) w.
Proof.
  induction n as [n IH] using lt_wf_ind. intros objects stack w Hw Hn.
  apply twp_iter. unfold objects_step. destruct stack as [|path stack].
  { apply twp_ret. apply twp_ret. split; [by apply reached_refl|]. exists [].
    by rewrite app_nil_r. }
  pose proof (visits_pos w path) as Hv. unfold to_walk in Hn. simpl in Hn.
  assert (Go : ∀ l0 stack' w1, reached w w1 → (to_walk w stack' < n)%nat →
    stack_objects w (path :: stack) = l0 ++ stack_objects w stack' →
    (∀ p, p ∈ stack' → misplaced w p → p ∈ path :: stack) →
    twp (loop (objects_step self bucket prefix) (objects ++ l0, stack'))
      (objects_result w objects (path :: stack)) w1).
  { intros l0 stack' w1 R Hlt E Hm. eapply twp_mono; [eapply (IH _ Hlt)|].
    - apply R.
    - by rewrite (names_to_walk w w1) by by apply reached_names.
    - intros r w'. by eapply objects_result_step. }
  assert (Skip : ∀ w1, reached w w1 → object_listing w path = [] →
    twp (loop (objects_step self bucket prefix) (objects, stack))
      (objects_result w objects (path :: stack)) w1).
  { intros w1 R E. pose proof (Go [] stack w1) as G. rewrite app_nil_r in G.
    apply G; [done|unfold to_walk; lia|unfold stack_objects; simpl; by rewrite E|by right]. }
  eapply twp_seq; [done|by apply walk_metadata_spec|]. intros [[md|]|e] w1 Hw1 [R Hr].
  2: { apply twp_ret. apply Skip; [done|]. unfold object_listing. by rewrite files_below_missing. }
  2: { apply twp_ret. apply twp_ret. split; [done|]. intros Hf. exists path.
       split; [by left|auto]. }
  pose proof (metadata_file w w1 path md Hw R Hr) as Hmd. destruct (md_is_file md).
  - assert (Hlf : object_listing w path = option_list (object_listed w path)).
    { unfold object_listing. rewrite files_below_file by done. simpl.
      by destruct (object_listed w path). }
    unfold object_listed in Hlf. destruct (is_uploading_temp_file path).
    { apply twp_ret. by apply Skip. }
    destruct (key_for_bucket_path self bucket path) as [key|]; [|apply twp_ret; by apply Skip].
    simpl in Hlf. destruct (starts_with prefix key); simpl; [|apply twp_ret; by apply Skip].
    eapply twp_seq; [done|by apply get_object_metadata_ok|]. intros [info|e] w2 Hw2 [R2 Hi].
    + rewrite (reached_info self w w1) in Hi by done. rewrite Hi in Hlf.
      apply twp_ret. apply Go; [by eapply reached_trans|unfold to_walk; lia| |by right].
      unfold stack_objects. simpl. by rewrite Hlf.
    + destruct Hi as [_ Hi]. apply twp_ret.
      destruct (info_at self w bucket key) as [info|] eqn:Ei.
      * eapply twp_mono; [eapply (IH (to_walk w stack)); [unfold to_walk; lia|done|]|].
        -- symmetry. apply names_to_walk, reached_names; [done|by eapply reached_trans].
        -- intros r w'. eapply objects_result_lost; [done|by eapply reached_trans|].
           intros Hf. apply (rc_faults _ _ R), Hi in Hf.
           rewrite (reached_info self w w1) in Hf by done. congruence.
      * apply Skip; [by eapply reached_trans|done].
  - assert (Hd1 : is_dir w1 path) by (unfold is_dir; by rewrite (rc_entry _ _ R)).
    eapply twp_seq; [done|by apply sorted_child_paths_spec|]. intros [ps|e] w2 Hw2 [R2 Hps].
    + assert (Hcs : children w1 path = children w path)
        by (unfold children; by rewrite (reached_names w w1)).
      rewrite Hcs in Hps. subst ps. apply twp_ret.
      pose proof (Go [] (merge_sort path_le (children w path) ++ stack) w2) as G.
      rewrite app_nil_r in G. apply G; [by eapply reached_trans| | |].
      * unfold to_walk. rewrite sum_list_with_app, Hn, visits_dir by done. lia.
      * unfold stack_objects at 1. simpl. rewrite object_listing_dir by done.
        unfold stack_objects. by rewrite map_app, concat_app.
      * intros p [Hp|Hp]%elem_of_app Hmis; [|by right]. exfalso.
        rewrite merge_sort_Permutation in Hp. apply elem_of_children in Hp as [Hpar [e He']].
        destruct Hmis as [Hmis _]. apply entry_none_name in Hmis as [Hmis _]. congruence.
    + apply twp_ret. apply twp_ret. split; [by eapply reached_trans|]. intros Hf.
      destruct Hps. by apply (rc_faults _ _ R).
Qed.

(** ** The whole operation *)

Definition objects_start : PathBuf :=
  if str_is_empty prefix then path_join (root self) bucket
  else path_join (path_join (root self) bucket) prefix.

(** The records below the start, in the order of the walk. *)
Definition all_objects (w : World) : list ObjectInfo := object_listing w objects_start.

Lemma key_for_object_path key :
  safe_segment bucket → key_safe key →
  key_for_bucket_path self bucket (object_path self bucket key) = Some key.
Proof.
  intros Hb Hk. unfold key_for_bucket_path, object_path.
  pose proof (split_id _ _ (proj1 (proj2 (proj2 (proj2 Hb))))) as Sb.
  rewrite path_join_safe, Sb by (unfold key_safe; rewrite Sb; by constructor).
  assert (root self ++ bucket :: split "/" key = (root self ++ [bucket]) ++ split "/" key) as ->
    by by rewrite <- app_assoc.
  rewrite path_strip_prefix_app. simpl. unfold path_to_string.
  assert (join "/" (split "/" key) = key) as -> by apply (join_split "/").
  rewrite replace_char_id; [done|]. apply key_safe_chars; [done|by left].
Qed.

Lemma all_objects_sound w info :
  info ∈ all_objects w → ∃ key, starts_with prefix key = true ∧ info_at self w bucket key = Some info.
Proof.
  unfold all_objects, object_listing. rewrite list_elem_of_omap. intros (p & _ & Hp).
  unfold object_listed in Hp. destruct (is_uploading_temp_file p); [done|].
  destruct (key_for_bucket_path self bucket p) as [key|]; simpl in Hp; [|done].
  destruct (starts_with prefix key) eqn:E; [|done]. by exists key.
Qed.

Lemma all_objects_complete w key info d :
  wf w → plain_object bucket key → starts_with prefix key = true →
  objects_start `prefix_of` object_path self bucket key →
  object_stored self w bucket key info d → info ∈ all_objects w.
Proof.
  intros Hw [Hb Hk] Hs Hp (Hd & b & Hm & Hj). unfold all_objects, object_listing.
  rewrite list_elem_of_omap. exists (object_path self bucket key). split.
  - apply elem_of_files_below. split; [done|]. apply file_name_entry; [done|].
    apply content_Some in Hd as (i & Hi & _). by exists i.
  - unfold object_listed. rewrite object_path_plain by done.
    rewrite key_for_object_path by (done || apply Hk). simpl. rewrite Hs. unfold info_at.
    rewrite object_metadata_path_for_safe by (done || apply Hk). rewrite Hm. simpl.
    unfold parse_info. by rewrite Hj.
Qed.

(** C30: [list_objects] returns records of objects of the bucket whose keys
    start with the prefix, sorted by key: every file below the prefix's path
    that is not a temporary file and has a readable record contributes that
    record, and when no call fails none is left out.  A stored object whose
    path lies below that of the prefix is therefore listed.  Nothing changes,
    the walk ends, and an error without failing calls means that the prefix lies
    below a file. *)
Theorem list_objects_spec w :
  wf w → validate_object_bucket bucket = Ok tt → validate_blob_prefix prefix = Ok tt →
  twp (list_objects self bucket prefix) (λ r w', reached w w' ∧
    match r with
    | Ok os => StronglySorted object_key_le os ∧ os ⊆+ all_objects w ∧
               (no_faults w → os ≡ₚ all_objects w)
    | Err _ => no_faults w → misplaced w objects_start
    end) w ∧
  (∀ info, info ∈ all_objects w →
     ∃ key, starts_with prefix key = true ∧ info_at self w bucket key = Some info) ∧
  (∀ key info d, plain_object bucket key → starts_with prefix key = true →
     objects_start `prefix_of` object_path self bucket key →
     object_stored self w bucket key info d → info ∈ all_objects w).
Proof.
  intros Hw Hb Hp. split; [|split; [apply all_objects_sound|
    intros; by eapply all_objects_complete]].
  unfold list_objects. rewrite Hb, Hp. fold objects_start.
  eapply twp_seq; [done|by eapply objects_loop_spec|]. intros [os|e] w1 _ [R Hr]; apply twp_ret;
    (split; [done|]).
  - destruct Hr as (l & -> & Hl & Hf). simpl. unfold stack_objects in *. simpl in *.
    rewrite app_nil_r in *. fold (all_objects w) in *. split_and!.
    + apply StronglySorted_merge_sort; apply _.
    + rewrite merge_sort_Permutation. by apply sublist_submseteq.
    + intros H. rewrite merge_sort_Permutation. by rewrite Hf.
  - intros Hf. destruct (Hr Hf) as (p & Hp' & Hm). by apply list_elem_of_singleton in Hp' as ->.
Qed.
End ListObjects.
