(* ===== verification/Tokens.v ===== *)
(** * Programs that run interleaved: tokens

    Any number of programs run interleaved, one call at a time, in one
    environment.  What a program has made of the state, and the others leave
    to it, is a token: [holds t w] is what the token says of the state, and two
    tokens that are [apart] can be held at a time.  A [Protocol] says which
    calls a program may make with a token, and which token it has after an
    answer.  [guards t p Q] says that [p] keeps to the protocol, from the token
    [t] to a result and a token in [Q]; loops are given an invariant.  [Lawful]
    says that a call which the protocol allows keeps the tokens of all other
    programs, so that what is proved of each program holds of all of them
    together. *)
From S2P Require Import Prelude Effects.

Record Protocol (E : Type → Type) (W : Type) : Type := mkProtocol {
  token : Type;
  holds : token → W → Prop;
  apart : token → token → Prop;
  allowed : ∀ {X}, token → E X → Prop;
  gives : ∀ {X}, token → E X → X → token → Prop;
}.
Arguments token {E W} _.
Arguments holds {E W _} _ _.
Arguments apart {E W _} _ _.
Arguments allowed {E W _} {X} _ _.
Arguments gives {E W _} {X} _ _ _ _.

Class Lawful {E : Type → Type} {W : Type} `{H : Handler E W} (P : Protocol E W) : Prop := {
  lawful_sym :: Symmetric (apart (p := P));
  lawful_call : ∀ X (e : E X) (t : token P) w, allowed t e → holds t w →
    ∃ t', gives t e (handle e w).1 t' ∧ holds t' (handle e w).2 ∧
      ∀ u, apart t u → holds u w → holds u (handle e w).2 ∧ apart t' u;
}.

Section Guards.
Context {E : Type → Type} {W : Type} (P : Protocol E W).

Fixpoint guards {A} (t : token P) (p : prog E A) (Q : A → token P → Prop) : Prop :=
  match p with
  | Ret a => Q a t
  | Panic _ => True
  | Vis e k => allowed t e ∧ ∀ x t', gives t e x t' → guards t' (k x) Q
  | Iter body s k =>
      ∃ I, I s t ∧ ∀ s t, I s t →
        guards t (body s) (λ r t', match r with
                                   | inl s' => I s' t'
                                   | inr b => guards t' (k b) Q
                                   end)
  end.

Lemma guards_mono {A} (p : prog E A) : ∀ t (Q Q' : A → token P → Prop),
  (∀ a u, Q a u → Q' a u) → guards t p Q → guards t p Q'.
Proof.
  induction p as [A a|A X e k IH|A S B body IHb s k IHk|A msg]; intros t Q Q' HQ; simpl; auto.
  - intros [? Hk]. split; [done|]. intros x t' Hg. by eapply IH, Hk.
  - intros (I & HI & Hb). exists I. split; [done|]. intros s' t' Hs.
    eapply IHb; [|by apply Hb]. intros [s''|b] u; [done|]. by apply IHk.
Qed.

Lemma guards_bind {A B} (p : prog E A) (f : A → prog E B) : ∀ t Q,
  guards t p (λ a u, guards u (f a) Q) → guards t (bind p f) Q.
Proof.
  induction p as [A a|A X e k IH|A S C body IHb s k IHk|A msg]; intros t Q; simpl; auto.
  - intros [? Hk]. split; [done|]. intros x t' Hg. by apply IH, Hk.
  - intros (I & HI & Hb). exists I. split; [done|]. intros s' t' Hs.
    eapply guards_mono; [|by apply Hb]. intros [s''|c] u; [done|]. by apply IHk.
Qed.

(** A part of a program, with what it ends with. *)
Lemma guards_then {A B} t (p : prog E A) (f : A → prog E B) (Q : A → token P → Prop) R :
  guards t p Q → (∀ a u, Q a u → guards u (f a) R) → guards t (bind p f) R.
Proof. intros Hp Hf. apply guards_bind. by eapply guards_mono. Qed.

Lemma guards_loop {S B} t (body : S → prog E (S + B)) s (I : S → token P → Prop) Q :
  I s t →
  (∀ s t, I s t → guards t (body s) (λ r u, match r with inl s' => I s' u | inr b => Q b u end)) →
  guards t (loop body s) Q.
Proof. intros HI Hb. by exists I. Qed.

(** ** Programs that leave their token alone *)

Definition passive {A} (p : prog E A) : Prop := ∀ t, guards t p (λ _ u, u = t).

Definition calm {X} (e : E X) : Prop := ∀ t : token P, allowed t e ∧ ∀ x u, gives t e x u → u = t.

Lemma passive_ret {A} (a : A) : passive (Ret a).
Proof. done. Qed.

Lemma passive_call {X} (e : E X) : calm e → passive (call e).
Proof. intros He t. destruct (He t). by split. Qed.

Lemma passive_bind {A B} (p : prog E A) (f : A → prog E B) :
  passive p → (∀ a, passive (f a)) → passive (bind p f).
Proof. intros Hp Hf t. eapply guards_then; [apply Hp|]. intros a u ->. apply Hf. Qed.

Lemma passive_loop {S B} (body : S → prog E (S + B)) s :
  (∀ s, passive (body s)) → passive (loop body s).
Proof.
  intros Hb t. apply (guards_loop t body s (λ _ u, u = t)); [done|]. intros s' u ->.
  eapply guards_mono; [|apply Hb]. by intros [s''|b] u ->.
Qed.

(** A passive part of a program that owns a token. *)
Lemma guards_passive {A B} t (p : prog E A) (f : A → prog E B) Q :
  passive p → (∀ a, guards t (f a) Q) → guards t (bind p f) Q.
Proof. intros Hp Hf. eapply guards_then; [apply Hp|]. intros a u ->. apply Hf. Qed.

(** ** Steps *)

Context `{HW : !Handler E W} `{LP : !Lawful P}.

Lemma guards_step {A} (p p' : prog E A) t w w' Q :
  guards t p Q → holds t w → step1 p w = Some (p', w') →
  ∃ t', guards t' p' Q ∧ holds t' w' ∧
    ∀ u, apart t u → holds u w → holds u w' ∧ apart t' u.
Proof.
  destruct p as [a|X e k|S B body s k|msg]; simpl; try done.
  - intros [Ha Hk] Ht. destruct (lawful_call X e t w Ha Ht) as (t' & Hg & Ht' & Hu).
    destruct (handle e w) as [x w1]. intros [= <- <-]. exists t'. split; [by apply Hk|done].
  - intros (I & HI & Hb) Ht [= <- <-]. exists t. split; [|done]. apply guards_bind.
    eapply guards_mono; [|by apply Hb]. intros [s'|b] u; [|done]. intros Hs. by exists I.
Qed.

(** ** Pools of programs *)

Record pool_ok {A} (Qs : nat → A → token P → Prop) (ts : list (token P)) (ps : list (prog E A))
    (w : W) : Prop := mkPoolOk {
  po_guards : ∀ i p, ps !! i = Some p → ∃ t, ts !! i = Some t ∧ guards t p (Qs i);
  po_holds : ∀ i t, ts !! i = Some t → holds t w;
  po_apart : ∀ i j t u, i ≠ j → ts !! i = Some t → ts !! j = Some u → apart t u;
}.

Lemma pool_ok_start {A} (Qs : nat → A → token P → Prop) ps t w :
  holds t w → apart t t → (∀ i p, ps !! i = Some p → guards t p (Qs i)) →
  pool_ok Qs (replicate (length ps) t) ps w.
Proof.
  intros Ht Hap Hg. constructor.
  - intros i p Hi. exists t. split; [|by apply Hg]. apply lookup_replicate. split; [done|].
    by eapply lookup_lt_Some.
  - by intros i u [-> _]%lookup_replicate.
  - by intros i j u v _ [-> _]%lookup_replicate [-> _]%lookup_replicate.
Qed.

Lemma pool_ok_step {A} (Qs : nat → A → token P → Prop) ts ps w ps' w' :
  pool_ok Qs ts ps w → pool_step (ps, w) (ps', w') → ∃ ts', pool_ok Qs ts' ps' w'.
Proof.
  intros [Hg Hh Ha] Hs. inversion Hs as [? i p p' ? ? Hi Hstep]; subst.
  destruct (Hg i p Hi) as (t & Ht & Hgt).
  destruct (guards_step p p' t w w' (Qs i) Hgt (Hh i t Ht) Hstep) as (t' & Hg' & Ht' & Hu).
  assert (Hlt : (i < length ts)%nat) by by eapply lookup_lt_Some.
  assert (Hlt' : (i < length ps)%nat) by by eapply lookup_lt_Some.
  exists (<[i:=t']> ts). constructor.
  - intros j q Hj. destruct (decide (i = j)) as [<-|Hne].
    + rewrite list_lookup_insert_eq in Hj by done. injection Hj as <-.
      exists t'. by rewrite list_lookup_insert_eq.
    + rewrite list_lookup_insert_ne in Hj by done. rewrite list_lookup_insert_ne by done. auto.
  - intros j u Hj. destruct (decide (i = j)) as [<-|Hne].
    + rewrite list_lookup_insert_eq in Hj by done. by injection Hj as <-.
    + rewrite list_lookup_insert_ne in Hj by done. apply Hu; eauto.
  - intros j k u v Hjk Hj Hk.
    destruct (decide (i = j)) as [<-|Hj'], (decide (i = k)) as [<-|Hk']; [done|..].
    + rewrite list_lookup_insert_eq in Hj by done. injection Hj as <-.
      rewrite list_lookup_insert_ne in Hk by done. apply Hu; eauto.
    + rewrite list_lookup_insert_eq in Hk by done. injection Hk as <-.
      rewrite list_lookup_insert_ne in Hj by done. symmetry. apply Hu; eauto.
    + rewrite list_lookup_insert_ne in Hj, Hk by done. eauto.
Qed.

Lemma pool_ok_steps {A} (Qs : nat → A → token P → Prop) ts c c' :
  pool_ok Qs ts c.1 c.2 → rtc pool_step c c' → ∃ ts', pool_ok Qs ts' c'.1 c'.2.
Proof.
  intros Hp Hr. revert ts Hp. induction Hr as [|[ps w] [ps' w'] c'' Hs _ IH]; intros ts Hp; [eauto|].
  destruct (pool_ok_step Qs ts ps w ps' w' Hp Hs) as [ts' Hp']. by eapply IH.
Qed.

(** The programs that have returned: each has a token, and they are apart. *)
Lemma pool_returned {A} (Qs : nat → A → token P → Prop) ts ps w i a :
  pool_ok Qs ts ps w → ps !! i = Some (Ret a) → ∃ t, ts !! i = Some t ∧ Qs i a t ∧ holds t w.
Proof.
  intros [Hg Hh _] Hi. destruct (Hg i _ Hi) as (t & Ht & Hq). exists t. eauto.
Qed.
End Guards.
