(* ===== verification/Race.v ===== *)
(** * Concurrent attempts at one thing

    Any number of programs run interleaved, one call at a time, in one
    environment.  They contend for something that is [present] in a state or
    not: a call may be an attempt ([links], with the answers that mean that it
    succeeded), and every other call is [harmless]: it does not make the thing
    go away.  [guarded won b p] follows the remaining program [p] of a thread:
    [b] says that its attempt succeeded, as it must have when [p] returns a
    result in [won].  At most one thread's ever does: the mark is the token of
    a protocol (Tokens.v). *)
From S2P Require Import Prelude Effects Tokens.

(** What is contended for, and the calls that matter. *)
Record Stakes (E : Type → Type) (W : Type) : Type := mkStakes {
  harmless : ∀ {X}, E X → Prop;
  links : ∀ {X}, E X → option (X → bool);
  present : W → Prop;
  harmless_links : ∀ {X} (e : E X), harmless e → links e = None;
}.
Arguments harmless {E W} _ {X}.
Arguments links {E W} _ {X}.
Arguments present {E W} _.
Arguments harmless_links {E W} _ {X}.

Class Contest {E : Type → Type} {W : Type} `{H : Handler E W} (St : Stakes E W) : Prop := {
  harmless_present : ∀ X (e : E X) w, harmless St e → present St w → present St (handle e w).2;
  links_present : ∀ X (e : E X) linked w, links St e = Some linked →
    (present St w → present St (handle e w).2) ∧
    (linked (handle e w).1 = true → ¬ present St w ∧ present St (handle e w).2);
}.

Section Race.
Context {E : Type → Type} {W : Type} (St : Stakes E W).

(** A program that makes harmless calls only. *)
Fixpoint quiet {A} (p : prog E A) : Prop :=
  match p with
  | Ret _ | Panic _ => True
  | Vis e k => harmless St e ∧ ∀ x, quiet (k x)
  | Iter body s k => (∀ s, quiet (body s)) ∧ ∀ b, quiet (k b)
  end.

Fixpoint guarded {A} (won : A → Prop) (b : bool) (p : prog E A) : Prop :=
  match p with
  | Ret a => won a → b = true
  | Panic _ => True
  | Vis e k =>
      match links St e with
      | Some linked => b = false ∧ ∀ x, guarded won (linked x) (k x)
      | None => harmless St e ∧ ∀ x, guarded won b (k x)
      end
  | Iter body s k => (∀ s, quiet (body s)) ∧ ∀ r, guarded won b (k r)
  end.

Lemma guarded_bind {A B} (won : B → Prop) b (p : prog E A) (f : A → prog E B) :
  quiet p → (∀ a, guarded won b (f a)) → guarded won b (bind p f).
Proof.
  intros Hp Hf. induction p as [A a|A X e k IH|A S C body IHb s k IHk|A msg]; simpl in *; auto.
  - destruct Hp as [He Hk]. rewrite harmless_links by done. split; [done|]. intros x. by apply IH.
  - destruct Hp as [Hb Hk]. split; [done|]. intros r. by apply IHk.
Qed.

Lemma quiet_bind {A B} (p : prog E A) (f : A → prog E B) :
  quiet p → (∀ a, quiet (f a)) → quiet (bind p f).
Proof.
  intros Hp Hf. induction p as [A a|A X e k IH|A S C body IHb s k IHk|A msg]; simpl in *; auto.
  - destruct Hp as [He Hk]. split; [done|]. intros x. by apply IH.
  - destruct Hp as [Hb Hk]. split; [done|]. intros r. by apply IHk.
Qed.

Lemma quiet_guarded {A} (won : A → Prop) b (p : prog E A) :
  quiet p → (∀ a, won a → b = true) → guarded won b p.
Proof.
  induction p as [A a|A X e k IH|A S C body IHb s k IHk|A msg]; simpl.
  - intros _ H. apply H.
  - intros [He Hk] Hw. rewrite harmless_links by done. split; [done|]. intros x. by apply IH.
  - intros [Hb Hk] Hw. split; [done|]. intros r. by apply IHk.
  - done.
Qed.

Lemma guarded_mono {A} (won won' : A → Prop) b (p : prog E A) :
  (∀ a, won a → won' a) → guarded won' b p → guarded won b p.
Proof.
  intros Hw. revert b.
  induction p as [A a|A X e k IH|A S C body IHb s k IHk|A msg]; intros b; simpl.
  - auto.
  - destruct (links St e); intros [? H]; (split; [done|]); intros x; by eapply IH.
  - intros [? H]. split; [done|]. intros r. by eapply IHk.
  - done.
Qed.

(** Results that count under a condition only. *)
Lemma guarded_when {A} (C : Prop) (won : A → Prop) b (p : prog E A) :
  (C → guarded won b p) → guarded (λ _, False) b p → guarded (λ a, C ∧ won a) b p.
Proof.
  revert b. induction p as [A a|A X e k IH|A S D body IHb s k IHk|A msg]; intros b; simpl.
  - intros H _ [HC Hw]. by apply H.
  - destruct (links St e); intros HC [? H]; (split; [done|]); intros x; apply IH; auto;
      intros c; by apply HC.
  - intros HC [? H]. split; [done|]. intros r. apply IHk; [|done]. intros c. by apply HC.
  - done.
Qed.

(** A program without an attempt, before one whose results do not count. *)
Lemma guarded_then {A B} (won : B → Prop) b (p : prog E A) (f : A → prog E B) :
  guarded (λ _, False) b p → (∀ a b', guarded won b' (f a)) → guarded won b (bind p f).
Proof.
  intros Hp Hf. revert b Hp.
  induction p as [A a|A X e k IH|A S C body IHb s k IHk|A msg]; intros b; simpl; auto.
  - destruct (links St e); intros [? Hk]; (split; [done|]); intros x; by apply IH.
  - intros [? Hk]. split; [done|]. intros r. by apply IHk.
Qed.

Lemma quiet_call {X} (e : E X) : harmless St e → quiet (call e).
Proof. by split. Qed.

(** The program is no attempt, and takes nothing away. *)
Definition respects {A} (p : prog E A) : Prop := guarded (λ _, False) false p.

Lemma respects_then {A B} (p : prog E A) (b : B) : respects p → respects (let* _ := p in Ret b).
Proof. intros Hp. apply guarded_then; [done|by intros a b' []]. Qed.

(** ** As a protocol

    The token of a program is its mark: when it is set, the thing was not
    there in the state [w0] the race began in, and is there now. *)

Definition race (w0 : W) : Protocol E W :=
  mkProtocol E W bool
    (λ b w, if (b : bool) then present St w ∧ ¬ present St w0 else present St w0 → present St w)
    (λ b c, b && c = false)
    (λ X b e, match links St e with Some _ => b = false | None => harmless St e end)
    (λ X b e x c, match links St e with Some linked => c = linked x | None => c = b end).

Lemma quiet_guards {A} w0 (p : prog E A) b : quiet p → guards (race w0) b p (λ _ c, c = b).
Proof.
  revert b. induction p as [A a|A X e k IH|A S C body IHb s k IHk|A msg]; intros b; simpl.
  - done.
  - intros [He Hk]. rewrite harmless_links by done. split; [done|]. intros x c ->. by apply IH.
  - intros [Hb Hk]. exists (λ _ c, c = b). split; [done|]. intros s' c ->.
    eapply guards_mono; [|by apply IHb]. intros [s''|r] c; [done|]. intros ->. by apply IHk.
  - done.
Qed.

Lemma guarded_guards {A} w0 (won : A → Prop) (p : prog E A) b :
  guarded won b p → guards (race w0) b p (λ a c, won a → c = true).
Proof.
  revert b. induction p as [A a|A X e k IH|A S C body IHb s k IHk|A msg]; intros b; simpl.
  - done.
  - destruct (links St e) as [linked|]; intros [He Hk]; (split; [done|]); intros x c ->; by apply IH.
  - intros [Hb Hk]. exists (λ _ c, c = b). split; [done|]. intros s' c ->.
    eapply guards_mono; [|by apply quiet_guards]. intros [s''|r] c; [done|]. intros ->. by apply IHk.
  - done.
Qed.

Context `{HW : !Handler E W} `{CT : !Contest St}.

#[export] Instance race_lawful w0 : Lawful (race w0).
Proof.
  split; [intros b c; simpl; by rewrite andb_comm|].
  intros X e b w. simpl. destruct (links St e) as [linked|] eqn:El.
  - intros -> Hw. destruct (links_present X e linked w El) as [Hp Hl].
    exists (linked (handle e w).1). split; [done|]. destruct (linked _).
    + destruct (Hl eq_refl) as [Hn Hy]. split; [by split; [|intros ?%Hw]|].
      intros [|] _; [by intros [? _]|]. split; auto.
    + split; [auto|]. intros [|] _; [intros [? ?]|intros ?]; (split; [|done]); auto.
  - intros He Hw. pose proof (harmless_present X e w He) as Hp. exists b. split; [done|].
    split; [destruct b; [destruct Hw|]; auto|].
    intros [|] Hb; [intros [? ?]|intros ?]; (split; [|done]); auto.
Qed.

(** Some threads make attempts, the others respect the thing: at most one
    attempt succeeds, and then the thing was not there and is there now. *)
Lemma one_winner {A} (creates : nat → Prop) (won : A → Prop) ps w ps' w' :
  (∀ i p, ps !! i = Some p → (creates i → guarded won false p) ∧ (creates i ∨ respects p)) →
  rtc pool_step (ps, w) (ps', w') →
  (∀ i j a a', creates i → creates j → won a → won a' → ps' !! i = Some (Ret a) →
     ps' !! j = Some (Ret a') → i = j) ∧
  (∀ i a, creates i → won a → ps' !! i = Some (Ret a) → ¬ present St w ∧ present St w').
Proof.
  intros Hps Hr.
  destruct (pool_ok_steps (race w) (λ i a c, creates i ∧ won a → c = true)
    (replicate (length ps) false) (ps, w) (ps', w')) as [ts Hok]; [|done|].
  - apply pool_ok_start; [by simpl|done|]. intros i p Hi. apply guarded_guards.
    destruct (Hps i p Hi) as [Hc [Hi'|Hres]]; [|by apply guarded_when].
    eapply guarded_mono; [|by apply Hc]. by intros a [_ ?].
  - assert (Win : ∀ i a, creates i → won a → ps' !! i = Some (Ret a) →
      ts !! i = Some true ∧ present St w' ∧ ¬ present St w).
    { intros i a Hc Hw Hi. destruct (pool_returned _ _ _ _ _ i a Hok Hi) as (t & Ht & Hq & Hh).
      rewrite (Hq (conj Hc Hw)) in Ht, Hh. by destruct Hh. }
    split.
    + intros i j a a' Ci Cj Wa Wa' Ei Ej. destruct (decide (i = j)) as [|Hne]; [done|].
      destruct (Win i a Ci Wa Ei) as [Ti _], (Win j a' Cj Wa' Ej) as [Tj _].
      by pose proof (po_apart _ _ _ _ _ Hok i j true true Hne Ti Tj).
    + intros i a Ci Wa Ei. by destruct (Win i a Ci Wa Ei) as (_ & ? & ?).
Qed.
End Race.
