(* ===== verification/LocalRace.v ===== *)
(** * Concurrent conditional creates (src/src/local.rs): correctness

    Any number of operations run interleaved, one call at a time, on one file
    system.  What they contend for (Race.v) is the entry of a path: an attempt
    is a hard link to it, and a call is harmless if it does not take the entry
    away. *)
From S2P Require Import Prelude Text Errors Providers Externals Paths Keys Effects Streams BlobStore Objects Fs FsFacts FsFrame FsCalls Local LocalBlob Race.
From Stdlib Require Import Ascii.

Section Entry.
Context `{EX : Externals}.
Context (path : PathBuf).

(** ** Calls that cannot remove the entry of the path *)

Definition spares {X} (e : osE X) : Prop :=
  match e with
  | FsRemoveFile p => p ≠ path
  | FsRename p q => p ≠ path
  | FsHardLink p q => q ≠ path
  | _ => True
  end.

(** A call that links a file to the path, with the answers that mean that it
    did. *)
Definition link_answers {X} (e : osE X) : option (X → bool) :=
  match e in osE X return option (X → bool) with
  | FsHardLink p q => if decide (q = path) then Some is_ok else None
  | _ => None
  end.

Lemma spares_links {X} (e : osE X) : spares e → link_answers e = None.
Proof. destruct e; simpl; try done. intros H. by rewrite decide_False. Qed.

(** ** What the calls do to the entry of the path *)

Definition has_entry (w : World) : Prop := entry_at w path ≠ None.

Lemma present_names w w' :
  (∀ e, w_names w !! path = Some e → is_Some (w_names w' !! path)) → has_entry w → has_entry w'.
Proof.
  unfold has_entry. destruct path as [|x p]; [done|]. simpl. intros H Hp.
  destruct (w_names w !! (x :: p)) as [e|] eqn:E; [|done].
  destruct (H e eq_refl) as [e' ->]. done.
Qed.

Lemma present_same w w' : w_names w' = w_names w → has_entry w → has_entry w'.
Proof. intros E. apply present_names. rewrite E. by eexists. Qed.

Lemma present_insert w q e :
  has_entry w → has_entry (set_names w (<[q:=e]> (w_names w))).
Proof. apply present_names. intros e' He. simpl. apply lookup_insert_is_Some'. right. by eexists. Qed.

Lemma present_delete w q :
  q ≠ path → has_entry w → has_entry (set_names w (delete q (w_names w))).
Proof. intros Hq. apply present_names. intros e' He. simpl. rewrite lookup_delete_ne; [by eexists|done]. Qed.

Lemma present_move w p q e :
  p ≠ path → has_entry w → has_entry (set_names w (<[q:=e]> (delete p (w_names w)))).
Proof.
  intros Hp. apply present_names. intros e' He. simpl. apply lookup_insert_is_Some'. right.
  rewrite lookup_delete_ne; [by eexists|done].
Qed.

Lemma present_dirs w ps : has_entry w → has_entry (set_names w (make_dirs ps (w_names w))).
Proof. apply present_names. intros e' He. simpl. rewrite make_dirs_lookup, He. by eexists. Qed.

Lemma present_create p w : has_entry w → has_entry (fs_create p w).2.
Proof.
  intros H. unfold fs_create. repeat case_match; simpl; try done; by apply (present_insert w p).
Qed.

Lemma present_write_at f b w : has_entry w → has_entry (fs_write_at f b w).2.
Proof. intros H. unfold fs_write_at. by repeat case_match. Qed.

Lemma present_write p b w : has_entry w → has_entry (fs_write p b w).2.
Proof.
  intros H. unfold fs_write. pose proof (present_create p w H) as Hc.
  destruct (fs_create p w) as [[f|e] w']; [|done].
  pose proof (present_write_at f b w' Hc). by destruct (fs_write_at f b w').
Qed.

Lemma present_fail_write p b n w : has_entry w → has_entry (fail_write p b n w).
Proof. destruct n; simpl; [done|apply present_write]. Qed.

Lemma present_rename p q w : p ≠ path → has_entry w → has_entry (fs_rename p q w).2.
Proof.
  intros Hp H. unfold fs_rename. repeat case_match; simpl; try done; by apply present_move.
Qed.

Lemma present_effect {A} partial (f : World → io_result A * World) w :
  (∀ w n, has_entry w → has_entry (partial n w)) → (∀ w, has_entry w → has_entry (f w).2) →
  has_entry w → has_entry (effect_call partial f w).2.
Proof.
  intros Hp Hf Hw. unfold effect_call. pose proof (sf_names _ _ (proj1 (next_choice_spec w))) as Hs.
  destruct (next_choice w) as [c w']. simpl in Hs. apply (present_same w w') in Hw; [|done].
  destruct (fault c); simpl; auto.
Qed.

Lemma present_pure {A} (f : Choice → World → io_result A) w :
  has_entry w → has_entry (pure_call f w).2.
Proof. rewrite pure_call_world. apply present_same, next_choice_spec. Qed.

Lemma spares_present X (e : osE X) w : spares e → has_entry w → has_entry (handle e w).2.
Proof.
  intros He Hw. unfold handle. destruct e; unfold os_handler; simpl in He;
    try (by apply present_pure); try done;
    try (apply present_effect; [intros ???|intros ??|done];
         auto using present_create, present_write_at, present_write, present_fail_write,
           present_rename, present_dirs; fail).
  - pose proof (sf_names _ _ (proj1 (next_choice_spec w))). destruct (next_choice w).
    by apply (present_same w).
  - apply present_effect; [done| |done]. intros w1 H. unfold fs_remove_file.
    repeat case_match; simpl; try done. by apply present_delete.
  - apply present_effect; [| |done]; intros; unfold fail_create_dir_all, fs_create_dir_all;
      repeat case_match; simpl; try done; by apply present_dirs.
  - apply present_effect; [intros; by apply present_write_at|intros; by apply present_write_at|done].
  - apply present_effect; [done| |done]. intros w1 H. unfold fs_hard_link.
    repeat case_match; simpl; try done. by apply present_insert.
  - apply present_effect; [| |done]; intros; unfold fail_copy, fs_copy; repeat case_match;
      simpl; auto using present_write, present_fail_write.
Qed.

Lemma link_present X (e : osE X) linked w :
  link_answers e = Some linked →
  (has_entry w → has_entry (handle e w).2) ∧
  (linked (handle e w).1 = true → ¬ has_entry w ∧ has_entry (handle e w).2).
Proof.
  destruct e; simpl; try done. destruct (decide (q = path)) as [->|]; [|done]. intros [= <-].
  unfold handle, os_handler, effect_call.
  pose proof (sf_names _ _ (proj1 (next_choice_spec w))) as Hs.
  destruct (next_choice w) as [c w']. simpl in Hs.
  assert (Hw : has_entry w ↔ has_entry w') by (split; by apply present_same).
  rewrite Hw. destruct (fault c); simpl; [done|].
  unfold fs_hard_link. destruct (entry_at w' p) as [en|]; [|done].
  destruct (entry_at w' path) as [e0|] eqn:E; [done|].
  destruct (parent_is_dir w' path) eqn:Ep; [|done].
  destruct en as [|i]; [done|]. simpl. split; [by apply present_insert|].
  intros _. split; [intros Hx; by apply Hx|].
  apply parent_is_dir_true in Ep as [Hne _]. unfold has_entry. rewrite entry_at_ne by done.
  simpl. by rewrite lookup_insert_eq.
Qed.

(** The entry of the path, as a contest. *)
Definition at_path : Stakes osE World := mkStakes osE World (@spares) (@link_answers) has_entry (@spares_links).

#[export] Instance at_path_contest : Contest at_path.
Proof. split; [apply spares_present|apply link_present]. Qed.
End Entry.

(** ** The operations of the provider *)

Section Operations.
Context `{EX : Externals} (self : LocalStorageBackend).

(** A body that makes harmless calls only; a body from memory makes none. *)
Definition quiet_stream (path : PathBuf) (body : StorageByteStream osE) : Prop :=
  ∀ st, quiet (at_path path) (bs_next (into_inner body) st).

Lemma quiet_from_bytes path b : quiet_stream path (from_bytes b).
Proof. intros st. unfold from_bytes, into_inner. simpl. by destruct st. Qed.

Lemma quiet_create_parent_dir path p : quiet (at_path path) (create_parent_dir p).
Proof. unfold create_parent_dir. by destruct (path_parent p). Qed.

Lemma quiet_discard path p : p ≠ path → quiet (at_path path) (discard_file p).
Proof. done. Qed.

Lemma quiet_write_step path temp body s :
  (∀ st, quiet (at_path path) (bs_next body st)) → quiet (at_path path) (write_step temp body s).
Proof.
  intros Hb. destruct s as [[[st file] hasher] n]. unfold write_step.
  apply quiet_bind; [apply Hb|]. intros [[[c|e]|] st']; try done.
  apply quiet_bind; [done|]. by intros [f|e].
Qed.

Lemma quiet_write_stream path temp body :
  quiet_stream path body → quiet (at_path path) (write_stream_to_temp temp body).
Proof.
  intros Hb. unfold write_stream_to_temp. apply quiet_bind; [done|]. intros [f|e]; [|done].
  cbn [map_err]. apply quiet_bind.
  - split; [|done]. intros s. by apply quiet_write_step.
  - intros [[[f' h] n]|e]; [|done]. apply quiet_bind; [done|]. by intros [[]|e].
Qed.

(** A path with a temporary name is not the path of a plain key. *)
Lemma temp_ne_path key d x u :
  plain_key key → d ++ [temp_name x u] ≠ key_path self key.
Proof.
  intros Hk E. pose proof (plain_path self key Hk) as Hu. rewrite <- E in Hu.
  rewrite (temp_of_uploading u) in Hu; [done|]. by eexists _, _.
Qed.

(** The programs that start by staging a temporary file. *)
Lemma guarded_staged {A} path (won : storage_result A → Prop) b key target body
    (k : PathBuf → BlobWriteOutcome → prog osE (storage_result A)) d x :
  target = d ++ [x] → x ≠ ".." → quiet_stream path body → (∀ e, ¬ won (Err e)) →
  (∀ u, d ++ [temp_name x u] ≠ path) →
  (∀ u o, guarded (at_path path) won b (k (d ++ [temp_name x u]) o)) →
  guarded (at_path path) won b (staged target key body k).
Proof.
  intros -> Hx Hb Hw Hne Hk. unfold staged. apply guarded_bind; [apply quiet_create_parent_dir|].
  intros [[]|e]; [|intros H; by apply Hw in H]. unfold temp_path_for.
  rewrite path_file_name_snoc by done. cbn [bind call guarded links at_path link_answers]. split; [done|]. intros u.
  rewrite path_with_file_name_snoc by done. fold (temp_name x u).
  apply guarded_bind; [by apply quiet_write_stream|]. intros [o|e]; [apply Hk|].
  apply guarded_bind; [by apply quiet_discard|]. intros _ H. by apply Hw in H.
Qed.

Lemma guarded_create key body options :
  plain_key key → quiet_stream (key_path self key) body →
  guarded (at_path (key_path self key)) (λ r, ∃ o, r = Ok (Some o)) false
    (put_blob_if_not_exists self key body options).
Proof.
  intros Hk Hb. unfold put_blob_if_not_exists. rewrite path_for_safe by apply Hk.
  destruct (key_path_snoc self key (proj1 Hk)) as (d & x & E & _&_&Hx&_).
  eapply (guarded_staged _ _ false key _ body _ d x); [done|done|done|by intros e [? ?]| |].
  - intros u. by apply temp_ne_path.
  - intros u o. cbn [bind call guarded links at_path link_answers]. rewrite decide_True by done. split; [done|].
    pose proof (temp_ne_path key d x u Hk) as Hne.
    intros [[]|e]; cbn [is_ok]; (apply guarded_bind; [by apply quiet_discard|]); intros _.
    + done.
    + destruct (decide (io_kind e = AlreadyExists)); by intros [? ?].
Qed.

Lemma respects_put_blob key key' body options :
  plain_key key → quiet_stream (key_path self key) body →
  respects (at_path (key_path self key)) (put_blob self key' body options).
Proof.
  intros Hk Hb. unfold put_blob. destruct (decide (key_safe key')) as [Hs|Hs];
    [rewrite path_for_safe by done|rewrite path_for_unsafe by done; by intros []].
  destruct (key_path_snoc self key' Hs) as (d & x & E & _&_&Hx&_).
  eapply (guarded_staged _ (λ _, False) false key' _ body _ d x); [done|done|done|by intros e []| |].
  - intros u. by apply temp_ne_path.
  - intros u o. cbn [bind call guarded links at_path link_answers]. pose proof (temp_ne_path key d x u Hk) as Hne.
    split; [done|]. intros [[]|e]; [by intros []|].
    apply guarded_bind; [by apply quiet_discard|by intros _ []].
Qed.

Lemma respects_delete_blob key key' :
  key_safe key' → key' ≠ key → respects (at_path (key_path self key)) (delete_blob self key').
Proof.
  intros Hs Hne. unfold delete_blob. rewrite path_for_safe by done. unfold remove_if_present.
  cbn [bind call]. unfold respects. cbn [guarded links at_path link_answers]. split.
  - intros E. by apply key_path_inj in E.
  - intros [[]|e]; [by intros []|]. destruct (decide _); by intros [].
Qed.

Lemma respects_get_blob key key' : respects (at_path (key_path self key)) (get_blob self key').
Proof.
  unfold get_blob, open_blob, head_blob. destruct (path_for self key') as [p|e]; [|by intros []].
  cbn [bind call]. split; [done|]. intros [f|e]; cbn [bind].
  2: { destruct (decide (io_kind e = NotFound)); by intros []. }
  split; [done|]. intros [md|e]; cbn [bind]; [by intros []|].
  destruct (decide (io_kind e = NotFound)); by intros [].
Qed.

(** C3: however conditional creates of one key are interleaved with each other
    and with operations that do not remove it (puts of this and other keys,
    reads, deletions of other keys), at most one of them ever returns [Some]:
    then the key had no entry when they started and has one now.  This holds in
    every reachable state and for every pattern of failures. *)
Theorem concurrent_creates_one_winner key (ps ps' : list (prog osE (storage_result (option BlobWriteOutcome)))) w w' :
  let creates i := ∃ body options, quiet_stream (key_path self key) body ∧
    ps !! i = Some (put_blob_if_not_exists self key body options) in
  plain_key key →
  (∀ i p, ps !! i = Some p → creates i ∨ respects (at_path (key_path self key)) p) →
  rtc pool_step (ps, w) (ps', w') →
  (∀ i j o o', creates i → creates j → ps' !! i = Some (Ret (Ok (Some o))) →
     ps' !! j = Some (Ret (Ok (Some o'))) → i = j) ∧
  (∀ i o, creates i → ps' !! i = Some (Ret (Ok (Some o))) →
     entry_at w (key_path self key) = None ∧ entry_at w' (key_path self key) ≠ None).
Proof.
  intros creates Hk Hps Hr. set (path := key_path self key) in *.
  destruct (one_winner (at_path path) creates (λ r, ∃ o, r = Ok (Some o)) ps w ps' w') as [Hone Hwon];
    [|done|].
  - intros i p Hi. split; [|by apply Hps]. intros (body & options & Hb & E).
    rewrite Hi in E. injection E as ->. by apply guarded_create.
  - split.
    + intros i j o o' Hi Hj. apply Hone; eauto.
    + intros i o Hi Ho. destruct (Hwon i (Ok (Some o))) as [Hn Hp]; [done|by exists o|done|].
      split; [|done]. simpl in Hn. unfold has_entry in Hn. by destruct (entry_at w path); [destruct Hn|].
Qed.
End Operations.
