(* ===== verification/S3Race.v ===== *)
(** * Concurrent conditional creates on S3 (src/src/s3.rs)

    What the operations contend for (Race.v) is the object of a key: an
    attempt is a [PutObject] or a [CompleteMultipartUpload] of it with
    [If-None-Match: *], and a request is harmless if it does not take the
    object away.  Requests that fail may have taken effect all the same, so an
    object may appear that nobody won; two winners never do. *)
From S2P Require Import Prelude Text Errors Providers Externals Paths Keys Effects Streams BlobStore S3 S3Server S3Put S3Content S3Read S3Service Race.
From Stdlib Require Import Ascii.

Section Object.
Context `{EX : Externals} `{SDK : S3Sdk} {W : Type} `{H : !Handler s3E W} `{V : !S3View W}.
Context `{SV : !S3Service W}.
Context (at_ : string * string).

Definition present_at (w : W) : Prop := is_Some (objects w !! at_).

(** The object that a request creates if it does not exist. *)
Definition creates_at {X} (e : s3E X) : option (string * string) :=
  match e with
  | PutObject b k _ _ (Some "*") | CompleteMultipartUpload b k _ _ (Some "*") => Some (b, k)
  | _ => None
  end.

Definition leaves_object {X} (e : s3E X) : Prop :=
  match e with
  | DeleteObject b k => (b, k) ≠ at_
  | _ => creates_at e ≠ Some at_
  end.

Definition create_answers {X} (e : s3E X) : option (X → bool) :=
  match e in s3E X return option (X → bool) with
  | PutObject b k body ct c => if decide ((b, k) = at_ ∧ c = Some "*") then Some is_ok else None
  | CompleteMultipartUpload b k id ps c =>
      if decide ((b, k) = at_ ∧ c = Some "*") then Some is_ok else None
  | _ => None
  end.

Lemma leaves_creates {X} (e : s3E X) : leaves_object e → create_answers e = None.
Proof.
  destruct e; simpl; try done; intros Hl; rewrite decide_False; try done; by intros [<- ->].
Qed.

Lemma present_insert_at w w' t c :
  objects w' = <[t:=c]> (objects w) → present_at w → present_at w'.
Proof. unfold present_at. intros -> Hp. apply lookup_insert_is_Some'. by right. Qed.

Lemma present_kept w w' : objects w' = objects w → present_at w → present_at w'.
Proof. unfold present_at. by intros ->. Qed.

(** A request that writes one object keeps the others, and keeps it. *)
Lemma present_written t content cond r w w' :
  write_effect t content cond r (objects w) (objects w') → present_at w → present_at w'.
Proof.
  intros Hw. destruct r as [[]|e]; simpl in Hw; [|destruct Hw as [[E|Hw] _]; [by apply present_kept|]];
    destruct Hw as [E _]; by eapply present_insert_at.
Qed.

(** One that succeeds with the condition made the object. *)
Lemma write_wins content r w w' :
  write_effect at_ content (Some "*") r (objects w) (objects w') →
  is_ok r = true → ¬ present_at w ∧ present_at w'.
Proof.
  destruct r as [[]|e]; [|done]. intros [E Hn] _. unfold present_at. rewrite E, (Hn eq_refl).
  split; [by intros []|]. rewrite lookup_insert_eq. by eexists.
Qed.

(** What a request does that writes. *)
Lemma handled {X} (e : s3E X) w : ∃ x w', handle e w = (x, w').
Proof. destruct (handle e w) as [x w']. eauto. Qed.

Lemma leaves_present X (e : s3E X) w : leaves_object e → present_at w → present_at (handle e w).2.
Proof.
  destruct (handled e w) as (x & w' & E). rewrite E. simpl. intros He Hp.
  destruct e; simpl in He;
    try (by destruct (law_read_only _ _ _ _ _ E eq_refl) as [? _]; eapply present_kept).
  - destruct (law_put _ _ _ _ _ _ _ _ E). by eapply present_written.
  - destruct (law_create _ _ _ _ _ _ E). by eapply present_kept.
  - destruct (law_upload_part _ _ _ _ _ _ _ _ E). by eapply present_kept.
  - destruct (law_complete _ _ _ _ _ _ _ _ E) as [[c ?] _]. by eapply present_written.
  - destruct (law_abort _ _ _ _ _ _ E). by eapply present_kept.
  - destruct (law_copy _ _ _ _ _ _ E) as (_ & [?|[c ?]] & _);
      [by eapply present_kept|by eapply present_insert_at].
  - destruct (law_delete _ _ _ _ _ E) as [_ Hr].
    assert (objects w' = objects w ∨ objects w' = delete (bucket, key) (objects w)) as [Eo|Eo]
      by (destruct x; auto); [by eapply present_kept|].
    unfold present_at. by rewrite Eo, lookup_delete_ne.
Qed.

Lemma create_present X (e : s3E X) linked w :
  create_answers e = Some linked →
  (present_at w → present_at (handle e w).2) ∧
  (linked (handle e w).1 = true → ¬ present_at w ∧ present_at (handle e w).2).
Proof.
  destruct (handled e w) as (x & w' & E). rewrite E. simpl.
  destruct e; simpl; try done; case_decide as Hd; try done; destruct Hd as [Ha ->]; intros [= <-].
  - destruct (law_put _ _ _ _ _ _ _ _ E) as [_ Hw]. rewrite Ha in Hw.
    split; [by eapply present_written|by eapply write_wins].
  - destruct (law_complete _ _ _ _ _ _ _ _ E) as [[c Hw] _]. rewrite Ha in Hw.
    split; [by eapply present_written|by eapply write_wins].
Qed.

(** The object, as a contest. *)
Definition at_object : Stakes s3E W :=
  mkStakes s3E W (@leaves_object) (@create_answers) present_at (@leaves_creates).

#[export] Instance at_object_contest : Contest at_object.
Proof. split; [apply leaves_present|apply create_present]. Qed.
End Object.

(** ** The operations of the provider *)

Section Operations.
Context `{EX : Externals} `{SDK : S3Sdk} {W : Type} `{H : !Handler s3E W} `{V : !S3View W}.
Context (path_debug : PathBuf → string) `{SV : !S3Service W}.
Context (self : S3StorageBackend) (key : string).

Abbreviation stakes := (at_object (W := W) (object_at self key)).

(** A body that makes harmless requests only; a body from memory makes none. *)
Definition quiet_body (body : StorageByteStream s3E) : Prop :=
  ∀ st, quiet stakes (bs_next (into_inner body) st).

Lemma quiet_body_from_bytes b : quiet_body (from_bytes b).
Proof. intros st. unfold from_bytes, into_inner. simpl. by destruct st. Qed.

Lemma quiet_create_upload pk options : quiet stakes (create_multipart_upload self pk options).
Proof. split; [done|]. by intros [[id|]|e]. Qed.

Lemma quiet_upload_part pk state b : quiet stakes (upload_part self pk state b).
Proof. split; [done|]. by intros [tag|e]. Qed.

Lemma quiet_flush_step pk options s : quiet stakes (flush_step self pk options s).
Proof.
  destruct s as [buffer multipart]. unfold flush_step. destruct (_ <? _); [done|].
  apply quiet_bind; [by destruct multipart; [|apply quiet_create_upload]|].
  intros [state|e]; [|done]. apply quiet_bind; [apply quiet_upload_part|]. by intros [state'|e].
Qed.

Lemma quiet_body_step pk options stream s :
  (∀ st, quiet stakes (bs_next stream st)) → quiet stakes (body_step self pk options stream s).
Proof.
  intros Hb. destruct s as [[[[st buffer] hasher] size] multipart]. unfold body_step.
  apply quiet_bind; [apply Hb|]. intros [[[c|e]|] st']; try done.
  apply quiet_bind; [|by intros [[b m]|e]]. split; [|done]. intros s. apply quiet_flush_step.
Qed.

(** Until its last request, which stores the body, a put is harmless. *)
Lemma guarded_put_inner (won : storage_result (option BlobWriteOutcome) → Prop) b key' body options c :
  quiet_body body → (∀ e, ¬ won (Err e)) →
  (∀ state outcome, guarded stakes won b
     (let* r := complete_multipart_upload self (object_name self key') state c in
      Ret (put_outcome path_debug c outcome r))) →
  (∀ rest outcome, guarded stakes won b
     (let* r := put_single_blob self (object_name self key') rest options c in
      Ret (put_outcome path_debug c outcome r))) →
  guarded stakes won b (put_blob_inner path_debug self key' body options c).
Proof.
  intros Hb Hw Hm Hs. unfold put_blob_inner.
  destruct (provider_key self key') as [pk|e] eqn:Ek; [|intros Hx; by apply Hw in Hx].
  apply provider_key_Ok in Ek as (_ & _ & ->).
  apply guarded_bind; [split; [|done]; intros s; by apply quiet_body_step|].
  intros [[[[buffer hasher] size] [state|]]|e]; [|apply Hs|intros Hx; by apply Hw in Hx].
  apply guarded_bind; [destruct buffer; [done|apply quiet_upload_part]|].
  intros [state'|e]; [apply Hm|intros Hx; by apply Hw in Hx].
Qed.

(** A conditional create returns [Some] only when its attempt succeeded. *)
Lemma s3_guarded_create body options :
  quiet_body body →
  guarded stakes (λ r, ∃ o, r = Ok (Some o)) false
    (put_blob_if_not_exists path_debug self key body options).
Proof.
  intros Hb. apply guarded_put_inner; [done|by intros e [? ?]| |].
  - intros state outcome. cbn. rewrite decide_True by done. split; [done|].
    intros [[]|e]; [done|]. split; [done|]. intros _. cbn. case_match; by intros [? ?].
  - intros rest outcome. cbn. rewrite decide_True by done. split; [done|].
    intros [[]|e]; [done|]. cbn. case_match; by intros [? ?].
Qed.

(** An unconditional put of any key, and a conditional one of another key. *)
Lemma respects_put_inner key' body options c :
  quiet_body body → (c = true → object_at self key' ≠ object_at self key) →
  respects stakes (put_blob_inner path_debug self key' body options c).
Proof.
  intros Hb Hc. apply guarded_put_inner; [done|by intros e []| |]; intros x outcome; cbn;
    (rewrite decide_False; [|by destruct c; [intros [E _]; by apply Hc in E|intros [_ ?]]]).
  - split; [|by intros [[]|e]; cbn; [|split]]. destruct c; [|done].
    intros E%(inj Some). by apply Hc in E.
  - split; [|by intros [[]|e]]. destruct c; [|done]. intros E%(inj Some). by apply Hc in E.
Qed.

Lemma s3_respects_put_blob key' body options :
  quiet_body body → respects stakes (put_blob path_debug self key' body options).
Proof.
  intros Hb. unfold put_blob, respects. apply guarded_then.
  - by apply respects_put_inner.
  - by intros [[o|]|e] b' [].
Qed.

Lemma s3_respects_delete_blob key' :
  key_safe key → key' ≠ key → respects stakes (delete_blob self key').
Proof.
  intros Hk Hne. unfold delete_blob.
  destruct (provider_key self key') as [pk|e] eqn:Ek; [|by intros []].
  apply provider_key_Ok in Ek as (Hk' & _ & ->). split; [|by intros x []].
  intros E. by apply object_at_inj in E.
Qed.

Lemma s3_respects_copy_blob from to : respects stakes (copy_blob self from to).
Proof.
  unfold copy_blob. destruct (provider_key self from) as [pk|e]; [|by intros []].
  destruct (provider_key self to) as [pk'|e]; [|by intros []]. split; [done|]. by intros x [].
Qed.

Lemma s3_respects_get_blob key' : respects stakes (get_blob self key').
Proof.
  unfold get_blob. destruct (provider_key self key') as [pk|e]; [|by intros []].
  split; [done|]. by intros x [].
Qed.

(** C4: however conditional creates of one key are interleaved with each other
    and with operations that do not remove its object (puts and copies of this
    and other keys, reads, deletions of other keys), at most one of them ever
    returns [Some], and then there was no object when they started and there
    is one now.  The creates may be single requests or multipart uploads, in
    any mixture, and any request may fail, before or after it took effect. *)
Theorem s3_concurrent_creates_one_winner
    (ps ps' : list (prog s3E (storage_result (option BlobWriteOutcome)))) (w w' : W) :
  let creates i := ∃ body options, quiet_body body ∧
    ps !! i = Some (put_blob_if_not_exists path_debug self key body options) in
  (∀ i p, ps !! i = Some p → creates i ∨ respects stakes p) →
  rtc pool_step (ps, w) (ps', w') →
  (∀ i j o o', creates i → creates j → ps' !! i = Some (Ret (Ok (Some o))) →
     ps' !! j = Some (Ret (Ok (Some o'))) → i = j) ∧
  (∀ i o, creates i → ps' !! i = Some (Ret (Ok (Some o))) →
     objects w !! object_at self key = None ∧ is_Some (objects w' !! object_at self key)).
Proof.
  intros creates Hps Hr.
  destruct (one_winner stakes creates (λ r, ∃ o, r = Ok (Some o)) ps w ps' w') as [Hone Hwon];
    [|done|].
  - intros i p Hi. split; [|by apply Hps]. intros (body & options & Hb & E).
    rewrite Hi in E. injection E as ->. by apply s3_guarded_create.
  - split.
    + intros i j o o' Hi Hj. apply Hone; eauto.
    + intros i o Hi Ho. destruct (Hwon i (Ok (Some o))) as [Hn Hp]; [done|by exists o|done|].
      split; [|done]. by apply eq_None_not_Some.
Qed.
End Operations.
