(* ===== verification/S3Integrity.v ===== *)
(** * Concurrent conditional creates on S3: what is stored

    S3Race.v shows that one create of a key wins.  Here what a create does is
    followed byte by byte: its token (Tokens.v) is the multipart upload it
    fills, with the content of each part, and in the end the object it made.
    With any number of conditional creates and readers at once, the object of
    a winner holds, to the end, the content it reported. *)
From S2P Require Import Prelude Text Errors Providers Externals Paths Keys Effects Streams BlobStore S3 S3Server S3Put S3Content S3Read Tokens.
From Stdlib Require Import Ascii.

(** What a program has made. *)
Inductive Stage : Type :=
| Idle
| Uploading (id bucket key : string) (parts : list CompletedPart) (contents : list bytes)
| Spent (id : string)
| Made (at_ : string * string) (content : bytes).

Definition upload_of (t : Stage) : option string :=
  match t with Uploading id _ _ _ _ | Spent id => Some id | _ => None end.

Definition object_of (t : Stage) : option (string * string) :=
  match t with Made at_ _ => Some at_ | _ => None end.

Section Stages.
Context `{EX : Externals} `{SDK : S3Sdk} {W : Type} `{H : !Handler s3E W} `{V : !S3View W}.
Context `{S : !S3Service W}.

Definition staged (t : Stage) (w : W) : Prop :=
  match t with
  | Idle => True
  | Uploading id b k parts contents => id ∈ issued w ∧
      ∃ u, uploads w !! id = Some u ∧ up_bucket u = b ∧ up_key u = k ∧ listed u parts contents
  | Spent id => id ∈ issued w
  | Made at_ content => objects w !! at_ = Some content
  end.

(** Different uploads and different objects. *)
Definition unrelated (t u : Stage) : Prop :=
  (∀ id, upload_of t = Some id → upload_of u ≠ Some id) ∧
  (∀ o, object_of t = Some o → object_of u ≠ Some o).

(** The requests of a conditional create, in their order. *)
Definition may_request {X} (t : Stage) (e : s3E X) : Prop :=
  match e with
  | PutObject _ _ _ _ c => t = Idle ∧ c = Some "*"
  | CreateMultipartUpload _ _ _ => t = Idle
  | UploadPart b k id n _ => ∃ ps cs, t = Uploading id b k ps cs ∧ ∀ p, p ∈ ps → part_number p ≠ n
  | CompleteMultipartUpload b k id ps c => ∃ cs, t = Uploading id b k ps cs ∧ c = Some "*"
  | AbortMultipartUpload _ _ id => upload_of t = Some id
  | CopyObject _ _ _ | DeleteObject _ _ => False
  | _ => True
  end.

Definition next_stage {X} (t : Stage) (e : s3E X) : X → Stage → Prop :=
  match e in s3E X return X → Stage → Prop with
  | PutObject b k body _ _ => λ x u, u = if is_ok x then Made (b, k) body else Idle
  | CreateMultipartUpload b k _ => λ x u, u =
      match x with Ok (Some id) => Uploading id b k [] [] | _ => Idle end
  | UploadPart b k id n body => λ x u, ∃ ps cs, t = Uploading id b k ps cs ∧
      match x with
      | Ok tag => 1 ≤ n ≤ 10000 ∧ u = Uploading id b k (ps ++ [mkCompletedPart tag n]) (cs ++ [body])
      | Err _ => u = Spent id
      end
  | CompleteMultipartUpload b k id ps _ => λ x u, ∃ cs, t = Uploading id b k ps cs ∧
      u = if is_ok x then Made (b, k) (concat cs) else Spent id
  | AbortMultipartUpload _ _ id => λ _ u, u = Spent id
  | _ => λ _ u, u = t
  end.

Definition stages : Protocol s3E W :=
  mkProtocol s3E W Stage staged unrelated (@may_request) (@next_stage).

(** ** The requests keep the stages of others *)

(** One upload at most has changed, and the objects only by an insertion. *)
Lemma staged_kept t w w' id :
  issued w ⊆ issued w' → delete id (uploads w') = delete id (uploads w) → upload_of t ≠ Some id →
  (∀ at_ c, objects w !! at_ = Some c → objects w' !! at_ = Some c) →
  staged t w → staged t w'.
Proof.
  intros Hi Hd Hne Ho. destruct t as [|id' b k ps cs|id'|at_ c]; simpl in *; [done| |by apply Hi|by apply Ho].
  intros [Hin (u & Hu & Hu')]. split; [by apply Hi|]. exists u. split; [|done].
  assert (id ≠ id') by congruence.
  rewrite <- (lookup_delete_ne (uploads w') id id'), Hd, lookup_delete_ne by done. done.
Qed.

Lemma staged_same t w w' :
  issued w ⊆ issued w' → uploads w' = uploads w →
  (∀ at_ c, objects w !! at_ = Some c → objects w' !! at_ = Some c) → staged t w → staged t w'.
Proof.
  intros Hi Hu Ho. destruct t as [|id b k ps cs|id|at_ c]; simpl; [done| |by apply Hi|by apply Ho].
  intros [Hin Hx]. split; [by apply Hi|]. by rewrite Hu.
Qed.

Lemma write_keeps at_ content r o o' at' c :
  write_effect at_ content (Some "*") r o o' → o !! at' = Some c → o' !! at' = Some c.
Proof.
  assert (Hw : o' = <[at_:=content]> o ∧ (Some "*" = Some "*" → o !! at_ = None) →
    o !! at' = Some c → o' !! at' = Some c).
  { intros [-> Hn] Hc. rewrite lookup_insert_ne; [done|]. intros ->. rewrite Hn in Hc; done. }
  destruct r as [[]|e]; simpl; [done|]. intros [[->|Hx] _]; [done|by apply Hw].
Qed.

(** An object that was made was not there. *)
Lemma write_made at_ content o o' :
  write_effect at_ content (Some "*") (Ok tt) o o' →
  o' !! at_ = Some content ∧ o !! at_ = None.
Proof. intros [-> Hn]. split; [apply lookup_insert_eq|by apply Hn]. Qed.

(** The step of one program, for its own stage and any other. *)
Definition advances (t t' : Stage) (w w' : W) : Prop :=
  staged t' w' ∧ ∀ u, unrelated t u → staged u w → staged u w' ∧ unrelated t' u.

(** The object that was made is nobody else's. *)
Lemma made_unrelated at_ content w u :
  objects w !! at_ = None → staged u w →
  ∀ o, object_of (Made at_ content) = Some o → object_of u ≠ Some o.
Proof.
  intros Hn Hs o [= <-]. destruct u as [| | |at' c]; try done. simpl in *. intros [= ->]. congruence.
Qed.

Lemma put_advances b k body ct w r w' :
  handle (PutObject b k body ct (Some "*")) w = (r, w') →
  advances Idle (if is_ok r then Made (b, k) body else Idle) w w'.
Proof.
  intros E. destruct (law_put _ _ _ _ _ _ _ _ E) as [Hu Hw].
  pose proof (law_issued _ _ _ _ _ E) as Hi.
  assert (Hk : ∀ u, staged u w → staged u w').
  { intros u. apply staged_same; [done|done|]. intros at_ c. by eapply write_keeps. }
  destruct r as [[]|e]; simpl; [|split; [done|auto]]. apply write_made in Hw as [Hm Hn].
  split; [done|]. intros u _ Hs. split; [by apply Hk|]. split; [done|]. by eapply made_unrelated.
Qed.

Lemma create_advances b k ct w r w' :
  handle (CreateMultipartUpload b k ct) w = (r, w') →
  advances Idle (match r with Ok (Some id) => Uploading id b k [] [] | _ => Idle end) w w'.
Proof.
  intros E. destruct (law_create _ _ _ _ _ _ E) as [Ho Hr].
  pose proof (law_issued _ _ _ _ _ E) as Hi.
  assert (Hk : uploads w ⊆ uploads w' → ∀ u, staged u w → staged u w').
  { intros Hsub [|id b' k' ps cs|id|at_ c]; simpl; [done| |by apply Hi|by rewrite Ho].
    intros [Hin (u & Hu & Hx)]. split; [by apply Hi|]. exists u. split; [|done].
    by eapply lookup_weaken. }
  destruct r as [[id|]|e]; [|split; [done|auto]..]. destruct Hr as [Hn Hu].
  destruct (law_new_id _ _ _ _ _ _ E) as [Hnew Hin].
  assert (Hsub : uploads w ⊆ uploads w') by (rewrite Hu; by apply insert_subseteq).
  split.
  - split; [done|]. rewrite Hu. eexists. split; [apply lookup_insert_eq|]. by repeat constructor.
  - intros u _ Hs. split; [by apply Hk|]. split; [|done]. intros id' [= <-].
    destruct u as [|id' b' k' ps cs|id'|]; simpl in *; try done; intros [= ->];
      [by destruct Hs|done].
Qed.

(** What the numbers of the parts allow: the next part is a new one. *)
Lemma part_advances b k id n body ps cs w r w' :
  handle (UploadPart b k id n body) w = (r, w') →
  staged (Uploading id b k ps cs) w → (∀ p, p ∈ ps → part_number p ≠ n) →
  ∃ t', match r with
        | Ok tag => 1 ≤ n ≤ 10000 ∧ t' = Uploading id b k (ps ++ [mkCompletedPart tag n]) (cs ++ [body])
        | Err _ => t' = Spent id
        end ∧ advances (Uploading id b k ps cs) t' w w'.
Proof.
  intros E [Hin (u & Hu & Hb & Hk & Hl)] Hps.
  destruct (law_upload_part _ _ _ _ _ _ _ _ E) as [Ho L]. destruct (L u Hu) as [Hd Hr].
  pose proof (law_issued _ _ _ _ _ E) as Hi.
  assert (Hoth : ∀ t v, upload_of t = Some id → object_of t = None →
    unrelated (Uploading id b k ps cs) v → staged v w → staged v w' ∧ unrelated t v).
  { intros t v Ht Hto [Hv _] Hs. split.
    - eapply (staged_kept v w w' id); [done|done|by apply Hv|by rewrite Ho|done].
    - split; [rewrite Ht; intros id' [= <-]; by apply Hv|by rewrite Hto]. }
  destruct r as [tag|e].
  - destruct Hr as [Hn Hu']. eexists. split; [by split|]. split; [|intros v; by apply Hoth].
    split; [by apply Hi|]. eexists. split; [exact Hu'|]. split; [done|]. split; [done|].
    apply Forall2_app; [by apply listed_insert|]. constructor; [apply lookup_insert_eq|constructor].
  - exists (Spent id). split; [done|]. split; [by apply Hi|intros v; by apply Hoth].
Qed.

Lemma complete_advances b k id ps cs w r w' :
  handle (CompleteMultipartUpload b k id ps (Some "*")) w = (r, w') →
  staged (Uploading id b k ps cs) w →
  advances (Uploading id b k ps cs) (if is_ok r then Made (b, k) (concat cs) else Spent id) w w'.
Proof.
  intros E [Hin (u & Hu & Hb & Hk & Hl)].
  destruct (law_complete _ _ _ _ _ _ _ _ E) as [_ L].
  destruct (L u Hu Hb Hk) as (Hd & _ & _ & Hw). specialize (Hw _ Hl).
  pose proof (law_issued _ _ _ _ _ E) as Hi.
  assert (Hkeep : ∀ v, unrelated (Uploading id b k ps cs) v → staged v w → staged v w').
  { intros v [Hv _]. apply (staged_kept v w w' id); [done|done|by apply Hv|].
    intros at_ c. by eapply write_keeps. }
  destruct r as [[]|e]; simpl.
  - apply write_made in Hw as [Hm Hn]. split; [done|]. intros v Hv Hs. split; [by apply Hkeep|].
    split; [done|]. by eapply made_unrelated.
  - split; [by apply Hi|]. intros v Hv Hs. split; [by apply Hkeep|exact Hv].
Qed.

Lemma abort_advances b k id t w r w' :
  handle (AbortMultipartUpload b k id) w = (r, w') → upload_of t = Some id → staged t w →
  advances t (Spent id) w w'.
Proof.
  intros E Ht Hs. destruct (law_abort _ _ _ _ _ _ E) as (Ho & Hd & _).
  pose proof (law_issued _ _ _ _ _ E) as Hi. split.
  - apply Hi. destruct t as [|id' b' k' ps cs|id'|]; simpl in *; try done; injection Ht as ->;
      [by destruct Hs|done].
  - intros v [Hv _] Hsv. split.
    + eapply (staged_kept v w w' id); [done|done|by apply Hv|by rewrite Ho|done].
    + split; [intros id' [= <-]; by apply Hv|done].
Qed.

#[export] Instance stages_lawful : Lawful stages.
Proof.
  split.
  - intros t u [H1 H2]. split; [intros id Hu Ht; by eapply H1|intros o Hu Ht; by eapply H2].
  - intros X e t w Ha Ht. destruct (handle e w) as [x w'] eqn:E. cbn [fst snd].
    assert (Hr : read_only e = true → advances t t w w').
    { intros He. destruct (law_read_only _ _ _ _ _ E He) as [Ho Hu].
      pose proof (law_issued _ _ _ _ _ E) as Hi.
      assert (Hk : ∀ u, staged u w → staged u w') by (intros u; apply staged_same; [done|done|by rewrite Ho]).
      split; [by apply Hk|auto]. }
    destruct e; simpl in Ha; try (by exists t; split; [done|by apply Hr]); try done.
    + destruct Ha as [-> ->]. eexists. split; [done|]. by eapply put_advances.
    + subst t. eexists. split; [done|]. by eapply create_advances.
    + destruct Ha as (ps & cs & -> & Hps). destruct (part_advances _ _ _ _ _ _ _ _ _ _ E Ht Hps) as (t' & Hg & Hadv).
      exists t'. split; [by exists ps, cs|done].
    + destruct Ha as (cs & -> & ->). eexists. split; [by exists cs|]. by eapply complete_advances.
    + eexists. split; [done|]. by eapply abort_advances.
Qed.
End Stages.

(** ** A conditional create *)

Section Create.
Context `{EX : Externals} `{XL : !ExternalsLaws} `{SDK : S3Sdk}.
Context {W : Type} `{H : !Handler s3E W} `{V : !S3View W}.
Context (path_debug : PathBuf → string) `{S : !S3Service W}.
Context (self : S3StorageBackend).

Abbreviation stages := (stages (W := W)).
Abbreviation guards := (guards stages).
Abbreviation passive := (passive stages).

(** The stage of an upload, as the program has it: the parts are numbered from
    one. *)
Definition filled (pk : string) (m : option MultipartUploadState) (contents : list bytes)
    (t : Stage) : Prop :=
  match m with
  | None => contents = [] ∧ t = Idle
  | Some st =>
      t = Uploading (mus_upload_id st) (bucket_name self) pk (mus_completed_parts st) contents ∧
      length (mus_completed_parts st) = length contents ∧
      mus_next_part_number st = Z.of_nat (length contents) + 1 ∧
      ∀ i p, mus_completed_parts st !! i = Some p → part_number p = Z.of_nat i + 1
  end.

Lemma guards_create_upload pk options :
  guards Idle (create_multipart_upload self pk options)
    (λ r u, ∀ st, r = Ok st → filled pk (Some st) [] u).
Proof.
  split; [done|]. intros x u ->. destruct x as [[id|]|e]; [|done..].
  intros st [= <-]. split_and!; [done..|]. intros i p Hi. simpl in Hi. by destruct i.
Qed.

Lemma guards_upload_part pk st contents part u :
  filled pk (Some st) contents u →
  guards u (upload_part self pk st part)
    (λ r u, ∀ st', r = Ok st' → filled pk (Some st') (contents ++ [part]) u).
Proof.
  intros (-> & Hlen & Hn & Hc). split.
  - exists (mus_completed_parts st), contents. split; [done|].
    intros p [i Hi]%list_elem_of_lookup. rewrite (Hc i p Hi), Hn.
    apply lookup_lt_Some in Hi. lia.
  - intros x u (ps & cs & [= <- <-] & Hx). destruct x as [tag|e]; [|done].
    destruct Hx as [Hr ->]. intros st' [= <-]. split; [done|]. simpl. rewrite !length_app. simpl.
    split_and!; [lia| |].
    + unfold i32_add. rewrite Hn in *. rewrite Z.mod_small by lia. lia.
    + intros i p [Hi|[Hi [Hj <-]%list_lookup_singleton_Some]]%lookup_app_Some; [by apply Hc|].
      simpl. rewrite Hn. lia.
Qed.

(** The full parts of the buffer. *)
Lemma guards_flush pk options total buffer m contents u :
  filled pk m contents u → concat contents ++ buffer = total →
  guards u (loop (flush_step self pk options) (buffer, m))
    (λ r u, ∀ buffer m, r = Ok (buffer, m) →
       ∃ contents, filled pk m contents u ∧ concat contents ++ buffer = total).
Proof.
  intros Hf Ht.
  apply (guards_loop stages u (flush_step self pk options) _
    (λ '(buffer, m) u, ∃ contents, filled pk m contents u ∧ concat contents ++ buffer = total)).
  { by exists contents. }
  clear contents u Hf Ht buffer m. intros [buffer m] u (contents & Hf & Ht). unfold flush_step.
  destruct (_ <? _); [intros b' m' [= <- <-]; by exists contents|].
  eapply (guards_then stages _ _ _ (λ r u, ∀ st, r = Ok st → filled pk (Some st) contents u)).
  - destruct m as [st|]; [by intros st' [= <-]|]. destruct Hf as [-> ->]. apply guards_create_upload.
  - intros [st|e] v Hst; [|done]. specialize (Hst st eq_refl).
    eapply guards_then; [by apply guards_upload_part|]. intros [st'|e] v' Hst'; [|done].
    exists (contents ++ [take (Z.to_nat MULTIPART_PART_SIZE) buffer]).
    split; [by apply Hst'|]. by rewrite concat_snoc, <- app_assoc, take_drop.
Qed.

Definition passive_body (body : StorageByteStream s3E) : Prop :=
  ∀ st, passive (bs_next (into_inner body) st).

(** What is uploaded and buffered, the digest and the size, after some chunks. *)
Definition taken (pk : string) (buffer : bytes) (h : Sha256) (size : Z)
    (m : option MultipartUploadState) (u : Stage) : Prop :=
  ∃ cs contents, filled pk m contents u ∧ concat contents ++ buffer = concat cs ∧
    h = foldl sha256_update sha256_new cs ∧
    size = foldl (λ n c, u64_saturating_add n (u64_from_len c)) 0 cs.

Lemma guards_body pk options stream st :
  (∀ st, passive (bs_next stream st)) →
  guards Idle (loop (body_step self pk options stream) (st, [], sha256_new, 0, None))
    (λ r u, ∀ buffer h size m, r = Ok (buffer, h, size, m) → taken pk buffer h size m u).
Proof.
  intros Hb.
  apply (guards_loop stages Idle (body_step self pk options stream) _
    (λ '(st, buffer, h, size, m) u, taken pk buffer h size m u)).
  { by exists [], []. }
  clear st. intros [[[[st buffer] h] size] m] u (cs & contents & Hf & Ht & Hh & Hs). unfold body_step.
  apply guards_passive; [apply Hb|]. intros [[[c|e]|] st']; [|done|].
  - eapply guards_then; [apply (guards_flush pk options (concat (cs ++ [c])) _ _ contents)|].
    + done.
    + by rewrite concat_snoc, app_assoc, Ht.
    + intros [[buffer' m']|e] v Hr; [|done]. destruct (Hr _ _ eq_refl) as (contents' & Hf' & Ht').
      exists (cs ++ [c]), contents'. by rewrite !foldl_app, <- Hh, <- Hs.
  - intros b' h' s' m' [= <- <- <- <-]. by exists cs, contents.
Qed.

(** The outcome and the object of a create that returns [Some]. *)
Definition made (key : string) (o : BlobWriteOutcome) (t : Stage) : Prop :=
  ∃ d, t = Made (object_at self key) d ∧
    o = mkBlobWriteOutcome (Z.min (Z.of_nat (length d)) u64_MAX) (sha256_hex d).

Lemma guards_complete pk st contents u outcome :
  filled pk (Some st) contents u →
  guards u (let* r := complete_multipart_upload self pk st true in
            Ret (put_outcome path_debug true outcome r))
    (λ r u, ∀ o, r = Ok (Some o) → o = outcome ∧ u = Made (bucket_name self, pk) (concat contents)).
Proof.
  intros (-> & _). split; [by exists contents|]. intros x u (cs & [= <-] & ->).
  destruct x as [[]|e]; [by intros o [= <-]|]. split; [done|]. intros y u ->. cbn. by case_match.
Qed.

Lemma guards_single pk b options outcome :
  guards Idle (let* r := put_single_blob self pk b options true in
               Ret (put_outcome path_debug true outcome r))
    (λ r u, ∀ o, r = Ok (Some o) → o = outcome ∧ u = Made (bucket_name self, pk) b).
Proof.
  split; [done|]. intros x u ->. destruct x as [[]|e]; [by intros o [= <-]|]. cbn. by case_match.
Qed.

Lemma guards_put key body options :
  passive_body body →
  guards Idle (put_blob_if_not_exists path_debug self key body options)
    (λ r u, ∀ o, r = Ok (Some o) → made key o u).
Proof.
  intros Hb. unfold put_blob_if_not_exists, put_blob_inner.
  destruct (provider_key self key) as [pk|e] eqn:Ek; [|done].
  apply provider_key_Ok in Ek as (_ & _ & ->).
  eapply guards_then; [by apply guards_body|].
  intros [[[[buffer h] size] m]|e] u Hr; [|done].
  destruct (Hr _ _ _ _ eq_refl) as (cs & contents & Hf & Ht & -> & ->). clear Hr.
  fold (size_of cs) (sha256_of cs). rewrite sha256_of_concat, size_of_concat.
  set (outcome := mkBlobWriteOutcome _ _).
  assert (Hmade : ∀ d (r : storage_result (option BlobWriteOutcome)) v, d = concat cs →
    (∀ o, r = Ok (Some o) → o = outcome ∧ v = Made (bucket_name self, object_name self key) d) →
    ∀ o, r = Ok (Some o) → made key o v).
  { intros d r v -> Hrv o Ho. destruct (Hrv o Ho) as [-> ->]. by exists (concat cs). }
  destruct m as [st|].
  - apply (guards_then stages _ _ _ (λ r u, ∀ st', r = Ok st' →
      ∃ contents, filled (object_name self key) (Some st') contents u ∧ concat contents = concat cs)).
    + destruct buffer as [|x buffer].
      * intros st' [= <-]. exists contents. by rewrite app_nil_r in Ht.
      * eapply guards_mono; [|by apply guards_upload_part]. intros r v Hv st' ->.
        exists (contents ++ [x :: buffer]). split; [by apply Hv|]. by rewrite concat_snoc.
    + intros [st'|e] v Hst; [|done]. destruct (Hst st' eq_refl) as (contents' & Hf' & Hc').
      eapply guards_mono; [|by apply guards_complete]. intros r v' Hv. by eapply Hmade.
  - destruct Hf as [-> ->]. eapply guards_mono; [|apply guards_single].
    intros r v Hv. by eapply Hmade.
Qed.

(** ** Readers *)

Lemma passive_reading {X} (e : s3E X) : read_only e = true → passive (call e).
Proof. intros He. apply passive_call. intros t. destruct e; try done; by split; [|intros x u]. Qed.

Lemma passive_request {X A} (e : s3E X) (f : X → A) :
  read_only e = true → passive (let* r := call e in Ret (f r)).
Proof. intros He. apply passive_bind; [by apply passive_reading|done]. Qed.

Lemma s3_passive_get_blob key : passive (get_blob self key).
Proof. unfold get_blob. destruct (provider_key self key); [by apply passive_request|done]. Qed.

Lemma s3_passive_head_blob key : passive (head_blob self key).
Proof. unfold head_blob. destruct (provider_key self key); [by apply passive_request|done]. Qed.

Lemma passive_body_next what key st : passive (body_next what key st).
Proof.
  destruct st as [b|]; [|done]. apply passive_bind; [by apply passive_reading|].
  by intros [[[c|e]|] b'].
Qed.

Lemma passive_list_page prefix continuation limit : passive (list_blobs_page self prefix continuation limit).
Proof.
  unfold list_blobs_page. destruct (limit =? 0); [done|].
  destruct (if str_is_empty prefix then _ else _) as [pk|]; [|done].
  apply passive_bind; [by apply passive_reading|]. by intros [out|e].
Qed.

Lemma passive_from_bytes b : passive_body (from_bytes b).
Proof. intros st. unfold from_bytes, into_inner. simpl. by destruct st. Qed.

(** ** Interleavings *)

(** C5: conditional creates of any keys run interleaved with each other and
    with readers, as single requests or as multipart uploads, where any request
    may fail before or after it took effect.  A create that returns [Some] has
    made the object of its key, which holds, as long as these programs run, a
    content of the size and SHA-256 it reported: uploads of others do not mix
    into it.  At most one create of a key returns [Some]. *)
Theorem s3_concurrent_creates_stored (keys : nat → option string)
    (ps ps' : list (prog s3E (storage_result (option BlobWriteOutcome)))) (w w' : W) :
  (∀ i p, ps !! i = Some p →
     match keys i with
     | Some key => ∃ body options, passive_body body ∧
         p = put_blob_if_not_exists path_debug self key body options
     | None => passive p
     end) →
  rtc pool_step (ps, w) (ps', w') →
  let won i key o := keys i = Some key ∧ ps' !! i = Some (Ret (Ok (Some o))) in
  (∀ i key o, won i key o → ∃ d, objects w' !! object_at self key = Some d ∧
     o = mkBlobWriteOutcome (Z.min (Z.of_nat (length d)) u64_MAX) (sha256_hex d)) ∧
  (∀ i j key o o', won i key o → won j key o' → i = j).
Proof.
  intros Hps Hr won.
  destruct (pool_ok_steps stages (λ i a u, ∀ key o, keys i = Some key → a = Ok (Some o) → made key o u)
    (replicate (length ps) Idle) (ps, w) (ps', w')) as [ts Hok]; [|done|].
  { apply pool_ok_start; [done|by split|]. intros i p Hi. specialize (Hps i p Hi).
    destruct (keys i) as [key|]; [|by eapply guards_mono; [|apply Hps]].
    destruct Hps as (body & options & Hb & ->).
    eapply guards_mono; [|by apply guards_put]. intros a u Hm key' o [= <-]. apply Hm. }
  assert (Win : ∀ i key o, won i key o → ∃ d, ts !! i = Some (Made (object_at self key) d) ∧
    objects w' !! object_at self key = Some d ∧
    o = mkBlobWriteOutcome (Z.min (Z.of_nat (length d)) u64_MAX) (sha256_hex d)).
  { intros i key o [Ek Hi]. destruct (pool_returned _ _ _ _ _ i _ Hok Hi) as (t & Ht & Hq & Hh).
    destruct (Hq key o Ek eq_refl) as (d & -> & ->). by exists d. }
  split.
  - intros i key o Hw. destruct (Win i key o Hw) as (d & _ & ? & ?). by exists d.
  - intros i j key o o' Hi Hj. destruct (decide (i = j)) as [|Hne]; [done|].
    destruct (Win i key o Hi) as (d & Td & _), (Win j key o' Hj) as (d' & Td' & _).
    destruct (po_apart _ _ _ _ _ Hok i j _ _ Hne Td Td') as [_ Hd]. by destruct (Hd _ eq_refl).
Qed.
End Create.
