(* ===== verification/Smb.v ===== *)
(** * The SMB provider (src/src/smb.rs): configuration, names and errors

    The pure part of the file.  Of the [smb] crate it uses the constructors of
    the errors it matches on; the texts and the status codes are parameters. *)
From S2P Require Import Prelude Text Errors Providers Externals Keys.
From Stdlib Require Import Ascii.

Definition DEFAULT_PORT : Z := 445.
Definition DEFAULT_TRANSFER_CONCURRENCY : Z := 8.
Definition READ_CHUNK_SIZE : Z := 256 * 1024.
Definition TEMP_SUFFIX : string := ".uploading".

(** [std::time::Duration], in nanoseconds. *)
Definition Duration : Type := Z.
Definition from_secs (n : Z) : Duration := n * 10 ^ 9.
Definition from_millis (n : Z) : Duration := n * 10 ^ 6.
Definition is_zero (d : Duration) : bool := d =? 0.

(** ** Dialects *)

(** [smb::Dialect]. *)
Inductive Dialect : Type := Smb0202 | Smb021 | Smb030 | Smb0302 | Smb0311.

(** [pub enum SmbDialect], in the order of its [PartialOrd]. *)
Inductive SmbDialect : Type := Smb2_0_2 | Smb2_1 | Smb3_0 | Smb3_0_2 | Smb3_1_1.

#[export] Instance SmbDialect_eq_dec : EqDecision SmbDialect.
Proof. solve_decision. Defined.

Definition default_dialect : SmbDialect := Smb3_0.

Definition dialect_rank (d : SmbDialect) : Z :=
  match d with Smb2_0_2 => 0 | Smb2_1 => 1 | Smb3_0 => 2 | Smb3_0_2 => 3 | Smb3_1_1 => 4 end.

Definition protocol (d : SmbDialect) : Dialect :=
  match d with
  | Smb2_0_2 => Smb0202
  | Smb2_1 => Smb021
  | Smb3_0 => Smb030
  | Smb3_0_2 => Smb0302
  | Smb3_1_1 => Smb0311
  end.

Definition from_protocol (value : Dialect) : SmbDialect :=
  match value with
  | Smb0202 => Smb2_0_2
  | Smb021 => Smb2_1
  | Smb030 => Smb3_0
  | Smb0302 => Smb3_0_2
  | Smb0311 => Smb3_1_1
  end.

(** ** Errors *)

Definition remote_error (kind : StorageProviderErrorKind) (operation message : string)
    (retryable : bool) : StorageError :=
  RemoteProvider (backend_as_str Smb) kind operation message retryable.

Definition timed_out (operation : string) : StorageError :=
  remote_error Timeout operation "operation timed out" true.

Definition is_not_found (error : StorageError) : bool :=
  match error with
  | RemoteProvider _ RemotePathNotFound _ _ _ => true
  | _ => false
  end.

Definition is_collision (error : StorageError) : bool :=
  match error with
  | RemoteProvider _ ConditionalCreateConflict _ _ _ => true
  | _ => false
  end.

(** [smb::transport::TransportError] and [smb::Error], as far as the code
    matches on them. *)
Inductive TransportError : Type :=
| TransportTimeout | TransportNotConnected | TransportIoError | TransportOther (text : string).

Inductive SmbError : Type :=
| UnexpectedMessageStatus (status : Z)
| ReceivedErrorMessage (status : Z)
| SmbTransportError (e : TransportError)
| OperationTimeout
| ConnectionStopped
| MessageProcessingError (message : string)
| SmbIoError
| SspiError
| NegotiationError
| SignatureVerificationFailed
| CryptoError
| OtherSmbError (text : string).

(** The status codes of the crate and the [Display] of its errors. *)
Class SmbCrate : Type := {
  LogonFailure : Z;
  AccessDenied : Z;
  BadNetworkName : Z;
  ObjectNameNotFound : Z;
  ObjectPathNotFound : Z;
  ObjectNameCollision : Z;
  IoTimeout : Z;
  NetworkNameDeleted : Z;
  UserSessionDeleted : Z;
  NetworkSessionExpired : Z;
  smb_error_to_string : SmbError → string;
}.

Section Errors.
Context `{SC : SmbCrate}.

Definition map_io_error (operation : string) (error : IoError) : StorageError :=
  let kind := match io_kind error with
              | TimedOut => Timeout
              | ConnectionAborted | ConnectionReset | BrokenPipe | NotConnected | UnexpectedEof =>
                  ConnectionLost
              | PermissionDenied => KindPermissionDenied
              | NotFound => RemotePathNotFound
              | StorageFull | QuotaExceeded => Capacity
              | _ => Protocol
              end in
  let retryable := match kind with Timeout | ConnectionLost | Connectivity => true | _ => false end in
  remote_error kind operation (io_text error) retryable.

(** The kind of an error without a status the code knows. *)
Definition error_kind (error : SmbError) : StorageProviderErrorKind :=
  match error with
  | SmbTransportError TransportTimeout | OperationTimeout => Timeout
  | SmbTransportError TransportNotConnected | ConnectionStopped => ConnectionLost
  | MessageProcessingError message =>
      if contains_str "Failed to send message to worker" message then ConnectionLost else Protocol
  | SmbTransportError TransportIoError | SmbIoError => Connectivity
  | SspiError => Authentication
  | NegotiationError | SignatureVerificationFailed | CryptoError => SecurityNegotiation
  | _ => Protocol
  end.

Definition map_smb_error (operation : string) (error : SmbError) : StorageError :=
  let status := match error with
                | UnexpectedMessageStatus status | ReceivedErrorMessage status => Some status
                | _ => None
                end in
  let kind :=
    match status with
    | Some value =>
        if value =? LogonFailure then Authentication
        else if value =? AccessDenied then KindPermissionDenied
        else if value =? BadNetworkName then ContainerNotFound
        else if (value =? ObjectNameNotFound) || (value =? ObjectPathNotFound)
        then RemotePathNotFound
        else if value =? ObjectNameCollision then ConditionalCreateConflict
        else if value =? IoTimeout then Timeout
        else if (value =? NetworkNameDeleted) || (value =? UserSessionDeleted) ||
                (value =? NetworkSessionExpired)
        then ConnectionLost
        else error_kind error
    | None => error_kind error
    end in
  let retryable := match kind with Connectivity | Timeout | ConnectionLost => true | _ => false end in
  remote_error kind operation (smb_error_to_string error) retryable.
End Errors.

(** ** Configuration *)

Record SmbStorageConfig : Type := mkSmbConfig {
  smb_server : string;
  smb_port : Z;
  smb_share : string;
  smb_root_prefix : option string;
  smb_username : string;
  smb_password : string;
  smb_domain : option string;
  smb_min_dialect : SmbDialect;
  smb_require_signing : bool;
  smb_require_encryption : bool;
  smb_connect_timeout : Duration;
  smb_operation_timeout : Duration;
  smb_max_transfer_concurrency : Z;
}.

Definition config_new (server share username password : string) : SmbStorageConfig :=
  mkSmbConfig server DEFAULT_PORT share None username password None default_dialect true false
    (from_secs 10) (from_secs 60) DEFAULT_TRANSFER_CONCURRENCY.

Definition invalid_config (message : string) : StorageError :=
  remote_error Protocol "configuration" message false.

(** [value.contains(['/', '\\', '\0'])]. *)
Definition has_separator (s : string) : bool :=
  contains_char "/" s || contains_char BACKSLASH s || contains_char NUL s.

Definition validate_server (server : string) : storage_result unit :=
  if str_is_empty server || negb (String.eqb (trim server) server) || has_separator server ||
     contains_str "://" server || String.eqb server "." || String.eqb server ".."
  then Err (invalid_config "server must be a DNS name or IP address without a scheme or path")
  else Ok tt.

Definition validate_component (name value : string) : storage_result unit :=
  if str_is_empty value || negb (String.eqb (trim value) value) || has_separator value ||
     String.eqb value "." || String.eqb value ".."
  then Err (invalid_config (name +:+ " is invalid"))
  else Ok tt.

Definition validate (self : SmbStorageConfig) : storage_result unit :=
  let? _ := validate_server (smb_server self) in
  let? _ := validate_component "share" (smb_share self) in
  let? _ := validate_component "username" (smb_username self) in
  if str_is_empty (smb_password self) then Err (invalid_config "password must not be empty") else
  let? _ := match smb_domain self with
            | Some domain => validate_component "domain" domain
            | None => Ok tt
            end in
  let? _ := match smb_root_prefix self with
            | Some prefix => validate_blob_key prefix
            | None => Ok tt
            end in
  if smb_port self =? 0 then Err (invalid_config "port must be greater than zero") else
  if is_zero (smb_connect_timeout self) || is_zero (smb_operation_timeout self)
  then Err (invalid_config "timeouts must be greater than zero") else
  if smb_max_transfer_concurrency self =? 0
  then Err (invalid_config "max transfer concurrency must be greater than zero") else
  if smb_require_encryption self && (dialect_rank (smb_min_dialect self) <? dialect_rank Smb3_0)
  then Err (invalid_config "SMB3 encryption requires a minimum dialect of SMB 3.0") else
  Ok tt.

Definition authenticated_username (self : SmbStorageConfig) : string :=
  match smb_domain self with
  | Some domain => domain +:+ char_str BACKSLASH +:+ smb_username self
  | None => smb_username self
  end.

(** ** Names *)

Definition mapped_key (config : SmbStorageConfig) (key : string) : storage_result string :=
  let? _ := validate_blob_key key in
  Ok (match smb_root_prefix config with
      | Some prefix => prefix +:+ "/" +:+ key
      | None => key
      end).

(** [temp_key] for the UUID it draws. *)
Definition temp_key_with `{EX : Externals} (uuid : Uuid) (key : string) : storage_result string :=
  let '(parent, name) := default ("", key) (rsplit_once "/" key) in
  let temp_name := "." +:+ name +:+ "." +:+ uuid_to_string uuid +:+ TEMP_SUFFIX in
  let temp := if str_is_empty parent then temp_name else parent +:+ "/" +:+ temp_name in
  let? _ := validate_blob_key temp in
  Ok temp.

Definition is_temp_key `{EX : Externals} (key : string) : bool :=
  match last (split "/" key) with
  | None => false
  | Some name =>
      match strip_suffix TEMP_SUFFIX name with
      | None => false
      | Some stem =>
          match rsplit_once "." stem with
          | Some (_, uuid) => uuid_parse_ok uuid
          | None => false
          end
      end
  end.

(** The key of an entry below the root prefix. *)
Definition entry_key (config : SmbStorageConfig) (child : string) : string :=
  match smb_root_prefix config with
  | Some root => default child (strip_prefix root child ≫= strip_prefix "/")
  | None => child
  end.
