(* ===== verification/SmbStore.v ===== *)
(** * The SMB provider (src/src/smb.rs): the operations

    A request to the server is an [smbR], through a client, a file or a
    directory handle of the [smb] crate; [Within d r] is
    [tokio::time::timeout(d, r)] ([None] when the deadline passes first) and
    [Await r] waits for [r] without one.  The state of a backend is behind calls
    too: the current client, the lock of reconnections and the semaphore of
    transfers.  Waiting for the lock or a permit is a loop that asks until it is
    granted; a guard or permit that goes out of scope is a call. *)
From S2P Require Import Prelude Text Errors Providers Externals Keys Effects Streams BlobStore Smb.
From Stdlib Require Import Ascii.

#[export] Instance byte_eq_dec : EqDecision Byte.byte := Byte.byte_eq_dec.

(** What the code takes from the [smb] crate beside its errors: paths, clients
    and handles. *)
Class SmbHandles : Type := {
  UncPath : Type;
  unc_new : string → result UncPath SmbError;
  with_share : UncPath → string → result UncPath SmbError;
  with_path : UncPath → string → UncPath;
  Client : Type;
  File : Type;
  Directory : Type;
  Pipe : Type;
  Entries : Type;
}.

Section Calls.
Context `{EX : Externals} `{SH : SmbHandles}.

(** [smb::Resource]. *)
Inductive Resource : Type :=
| ResourceFile (file : File)
| ResourceDirectory (directory : Directory)
| ResourcePipe (pipe : Pipe).

(** The fields of [smb::ConnectionConfig] that [connect_client] sets;
    [true] for [EncryptionMode::Required]. *)
Record ConnectionConfig : Type := mkConnectionConfig {
  cc_port : Z;
  cc_timeout : Duration;
  cc_min_dialect : Dialect;
  cc_encryption_required : bool;
  cc_allow_unsigned_guest_access : bool;
  cc_smb2_only_negotiate : bool;
}.

(** [FileAccessMask] and [DirAccessMask], by the bits the code sets. *)
Record Access : Type := mkAccess {
  generic_read : bool;
  access_delete : bool;
  list_directory : bool;
  synchronize : bool;
}.

Definition read_access : Access := mkAccess true false false false.
Definition delete_access : Access := mkAccess false true false false.
Definition rename_access : Access := mkAccess true true false false.
Definition directory_access : Access := mkAccess false false true true.

(** The [FileCreateArgs] the code builds: [make_open_existing],
    [make_create_new], [make_overwrite], and a directory with [OpenIf]. *)
Inductive FileCreateArgs : Type :=
| make_open_existing (access : Access)
| make_create_new
| make_overwrite
| open_if_directory (access : Access).

(** Of [FileFullDirectoryInformation]: the name and the directory
    attribute. *)
Record DirEntry : Type := mkDirEntry {
  de_file_name : string;
  de_directory : bool;
}.

Inductive smbR : Type → Type :=
| ShareConnect (connection : ConnectionConfig) (share : UncPath) (username password : string) :
    smbR (result Client SmbError)
| CreateFile (client : Client) (path : UncPath) (args : FileCreateArgs) :
    smbR (result Resource SmbError)
| Close (resource : Resource) : smbR (result unit SmbError)
| WriteBlock (file : File) (b : bytes) (offset : Z) : smbR (result Z IoError)
| Flush (file : File) : smbR (result unit IoError)
| ReadBlock (file : File) (len offset : Z) : smbR (result bytes IoError)
| SetRename (file : File) (replace_if_exists : bool) (file_name : string) :
    smbR (result unit SmbError)
| SetDisposition (file : File) : smbR (result unit SmbError)
| QueryEndOfFile (file : File) : smbR (result Z SmbError)
| QueryDirectory (directory : Directory) (pattern : string) : smbR (result Entries SmbError)
| NextEntry (entries : Entries) : smbR (option (result DirEntry SmbError) * Entries)
| GetConnection (client : Client) (server : string) : smbR (result (option Dialect) SmbError).

Inductive smbE : Type → Type :=
| Within {X : Type} (deadline : Duration) (r : smbR X) : smbE (option X)
| Await {X : Type} (r : smbR X) : smbE X
| Sleep (d : Duration) : smbE unit
| SmbNewV4 : smbE Uuid
| ReadClient : smbE Client
| WriteClient (client : Client) : smbE unit
| TryLockReconnect : smbE bool
| UnlockReconnect : smbE unit
| NewSemaphore (permits : Z) : smbE unit
| TryAcquire : smbE (option (result unit unit))
| ReleasePermit : smbE unit.
End Calls.

(** ** Connections *)

Section Connection.
Context `{EX : Externals} `{SC : SmbCrate} `{SH : SmbHandles}.

Definition connection_config (config : SmbStorageConfig) : ConnectionConfig :=
  mkConnectionConfig (smb_port config) (smb_connect_timeout config)
    (protocol (smb_min_dialect config)) (smb_require_encryption config) false true.

Definition unc_share (operation : string) (config : SmbStorageConfig) : storage_result UncPath :=
  map_err (map_smb_error operation)
    (let? path := unc_new (smb_server config) in with_share path (smb_share config)).

Definition connect_client (config : SmbStorageConfig) : prog smbE (storage_result Client) :=
  let connection := connection_config config in
  let!? share := unc_share "connect" config in
  let username := authenticated_username config in
  let* r := call (Within (smb_connect_timeout config)
              (ShareConnect connection share username (smb_password config))) in
  match r with
  | None => Ret (Err (remote_error Timeout "connect"
              "SMB negotiation, authentication, or share connection timed out" true))
  | Some r => Ret (map_err (map_smb_error "connect") r)
  end.

Definition close_resource (resource : Resource) : prog smbE (result unit SmbError) :=
  call (Await (Close resource)).

(** [lock().await] and [acquire_owned().await]. *)
Definition lock_reconnect : prog smbE unit :=
  loop (λ _ : unit, let* granted := call TryLockReconnect in
                    if (granted : bool) then Break tt else Continue tt) tt.

Definition acquire_owned : prog smbE (result unit unit) :=
  loop (λ _ : unit, let* r := call TryAcquire in
                    match r with Some r => Break r | None => Continue tt end) tt.

Definition transfer_permit : prog smbE (storage_result unit) :=
  let* r := acquire_owned in
  Ret (map_err (λ _, remote_error Protocol "transfer" "transfer limiter is closed" false) r).

(** A [Result] with a permit in scope, which goes out of scope at the end. *)
Definition with_permit {A} (p : prog smbE (storage_result A)) : prog smbE (storage_result A) :=
  let*? _ := transfer_permit in
  let* r := p in
  let* _ := call ReleasePermit in
  Ret r.
End Connection.

Record SmbStorageBackend : Type := mkSmb { smb_config : SmbStorageConfig }.

Section Backend.
Context `{EX : Externals} `{SC : SmbCrate} `{SH : SmbHandles}.

Definition connect (config : SmbStorageConfig) : prog smbE (storage_result SmbStorageBackend) :=
  let!? _ := validate config in
  let*? client := connect_client config in
  let* _ := call (WriteClient client) in
  let* _ := call (NewSemaphore (smb_max_transfer_concurrency config)) in
  Ret (Ok (mkSmb config)).

Context (self : SmbStorageBackend).

Definition config : SmbStorageConfig := smb_config self.
Definition operation_timeout : Duration := smb_operation_timeout config.

(** The loop of [reconnect_with_backoff] over the delays. *)
Fixpoint reconnect_attempts (delays : list Z) (last_error : option StorageError) :
    prog smbE (storage_result unit) :=
  match delays with
  | [] => Ret (Err (default (remote_error ConnectionLost "reconnect"
                               "reconnect attempts were exhausted" true) last_error))
  | delay :: delays =>
      let* uuid := call SmbNewV4 in
      let jitter := match uuid_as_bytes uuid with
                    | b :: _ => Z.of_N (Byte.to_N b) mod 75
                    | [] => 0
                    end in
      let* _ := call (Sleep (from_millis (delay + jitter))) in
      let* r := connect_client config in
      match r with
      | Ok client =>
          let* _ := call (WriteClient client) in
          Ret (Ok tt)
      | Err error =>
          if negb (is_retryable error) then Ret (Err error)
          else reconnect_attempts delays (Some error)
      end
  end.

Definition reconnect_with_backoff : prog smbE (storage_result unit) :=
  let* _ := lock_reconnect in
  let* r := reconnect_attempts [100; 250; 500] None in
  let* _ := call UnlockReconnect in
  Ret r.

Definition share_path : storage_result UncPath := unc_share "path" config.

Definition remote_path (key : string) : storage_result UncPath :=
  let? share := share_path in
  let? mapped := mapped_key config key in
  Ok (with_path share mapped).

Definition with_timeout {A} (operation : string) (r : smbR (result A SmbError)) :
    prog smbE (storage_result A) :=
  let* r := call (Within operation_timeout r) in
  match r with
  | None => Ret (Err (timed_out operation))
  | Some r => Ret (map_err (map_smb_error operation) r)
  end.

Fixpoint ensure_segments (client : Client) (base : UncPath) (current : string)
    (segments : list string) : prog smbE (storage_result unit) :=
  match segments with
  | [] => Ret (Ok tt)
  | segment :: segments =>
      let current := if str_is_empty current then segment else current +:+ "/" +:+ segment in
      let target := with_path base current in
      let*? resource := with_timeout "create_directory"
                          (CreateFile client target (open_if_directory directory_access)) in
      let* r := close_resource resource in
      let!? _ := map_err (map_smb_error "close") r in
      ensure_segments client base current segments
  end.

Definition ensure_directories (path : string) : prog smbE (storage_result unit) :=
  let* client := call ReadClient in
  let!? base := share_path in
  ensure_segments client base "" (split "/" path).

Definition ensure_root_prefix : prog smbE (storage_result unit) :=
  match smb_root_prefix config with
  | Some prefix => ensure_directories prefix
  | None => Ret (Ok tt)
  end.

Definition ensure_parent_directories (key : string) : prog smbE (storage_result unit) :=
  let!? mapped := mapped_key config key in
  match rsplit_once "/" mapped with
  | None => Ret (Ok tt)
  | Some (parent, _) => ensure_directories parent
  end.

Definition open_file (key : string) (access : Access) : prog smbE (storage_result File) :=
  let!? path := remote_path key in
  let* client := call ReadClient in
  let* first := with_timeout "open" (CreateFile client path (make_open_existing access)) in
  let*? resource :=
    match first with
    | Ok resource => Ret (Ok resource)
    | Err error =>
        if is_retryable error then
          let*? _ := reconnect_with_backoff in
          let* client := call ReadClient in
          with_timeout "open" (CreateFile client path (make_open_existing access))
        else Ret (Err error)
    end in
  match resource with
  | ResourceFile file => Ret (Ok file)
  | other =>
      let* _ := close_resource other in
      Ret (Err (remote_error Protocol "open" "remote key is not a file" false))
  end.

(** ** Writing *)

Definition close_file (file : File) : prog smbE (storage_result unit) :=
  with_timeout "close" (Close (ResourceFile file)).

Definition remove_file (key : string) : prog smbE (storage_result unit) :=
  let* r := open_file key delete_access in
  match r with
  | Err error => if is_not_found error then Ret (Ok tt) else Ret (Err error)
  | Ok file =>
      let* result := with_timeout "delete" (SetDisposition file) in
      let* close_result := close_file file in
      Ret (result_and result close_result)
  end.

Definition cleanup_failed_write (key : string) (file : File) : prog smbE unit :=
  let* _ := close_file file in
  let* _ := remove_file key in
  Ret tt.

(** A write that failed: clean up and return the error. *)
Definition fail_write {S A : Type} (key : string) (file : File) (error : StorageError) :
    prog smbE (S + storage_result A) :=
  let* _ := cleanup_failed_write key file in
  Break (Err error).

(** The loop over one chunk. *)
Definition block_step (key : string) (file : File) (chunk : bytes) '(written, offset) :
    prog smbE (Z * Z + storage_result Z) :=
  if Z.of_nat (length chunk) <=? written then Break (Ok offset)
  else
    let* result := call (Within operation_timeout
                     (WriteBlock file (drop (Z.to_nat written) chunk) offset)) in
    match result with
    | Some (Err error) => fail_write key file (map_io_error "write" error)
    | None => fail_write key file (timed_out "write")
    | Some (Ok count) =>
        if count =? 0 then
          fail_write key file
            (remote_error Protocol "write" "server accepted a zero-length write" false)
        else Continue (usize_add written count,
                       u64_saturating_add offset (default u64_MAX (u64_try_from count)))
    end.

(** The loop over the body, which drops the source when it leaves it. *)
Definition chunk_step (key : string) (file : File) (source : BoxedStorageStream smbE)
    '(st, offset, hasher) : prog smbE (bs_state source * Z * Sha256 +
                                       storage_result (Z * Sha256)) :=
  let* ' (chunk, st') := bs_next source st in
  match chunk with
  | None =>
      let* _ := bs_drop source st' in
      Break (Ok (offset, hasher))
  | Some (Err error) =>
      let* _ := cleanup_failed_write key file in
      let* _ := bs_drop source st' in
      Break (Err error)
  | Some (Ok chunk) =>
      let hasher := sha256_update hasher chunk in
      let* r := loop (block_step key file chunk) (0, offset) in
      match r with
      | Err error =>
          let* _ := bs_drop source st' in
          Break (Err error)
      | Ok offset => Continue (st', offset, hasher)
      end
  end.

(** The end of [write_file]: flush and close. *)
Definition finish_file (key : string) (file : File) (offset : Z) (hasher : Sha256) :
    prog smbE (storage_result BlobWriteOutcome) :=
  let* flushed := call (Within operation_timeout (Flush file)) in
  match flushed with
  | Some (Err error) =>
      let* _ := cleanup_failed_write key file in
      Ret (Err (map_io_error "flush" error))
  | None =>
      let* _ := cleanup_failed_write key file in
      Ret (Err (timed_out "flush"))
  | Some (Ok _) =>
      let* closed := close_file file in
      match closed with
      | Err error =>
          let* _ := (if is_retryable error then reconnect_with_backoff else Ret (Ok tt)) in
          let* _ := remove_file key in
          Ret (Err error)
      | Ok _ => Ret (Ok (mkBlobWriteOutcome offset (sha256_finalize_hex hasher)))
      end
  end.

(** The argument [body] goes out of scope unread. *)
Definition drop_body (body : StorageByteStream smbE) : prog smbE unit :=
  let inner := into_inner body in
  bs_drop inner (bs_cur inner).

(** [Ok] is the result once the body was taken, by the loop; before that an error
    drops the permit and then the body. *)
Definition write_body (key : string) (body : StorageByteStream smbE) (exclusive : bool) :
    prog smbE (storage_result (storage_result BlobWriteOutcome)) :=
  let*? _ := ensure_parent_directories key in
  let* client := call ReadClient in
  let!? path := remote_path key in
  let args := if exclusive then make_create_new else make_overwrite in
  let*? resource := with_timeout "create" (CreateFile client path args) in
  match resource with
  | ResourceFile file =>
      let source := into_inner body in
      let* r := (let*? (offset, hasher) :=
                   loop (chunk_step key file source) (bs_cur source, 0, sha256_new) in
                 finish_file key file offset hasher) in
      Ret (Ok r)
  | other =>
      let* _ := close_resource other in
      Ret (Err (remote_error Protocol "create" "remote key did not create a file" false))
  end.

Definition write_file (key : string) (body : StorageByteStream smbE) (exclusive : bool) :
    prog smbE (storage_result BlobWriteOutcome) :=
  let* r := with_permit (write_body key body exclusive) in
  match r with
  | Ok r => Ret r
  | Err error =>
      let* _ := drop_body body in
      Ret (Err error)
  end.

Definition rename (from to : string) (replace : bool) : prog smbE (storage_result unit) :=
  let*? _ := ensure_parent_directories to in
  let*? file := open_file from rename_access in
  let!? mapped := mapped_key config to in
  let destination := replace_char "/" BACKSLASH mapped in
  let* result := with_timeout "rename" (SetRename file replace destination) in
  let* close_result := close_file file in
  Ret (result_and result close_result).

Definition temp_key (key : string) : prog smbE (storage_result string) :=
  let* uuid := call SmbNewV4 in
  Ret (temp_key_with uuid key).

(** What [put_blob] does after a failure. *)
Definition discard_temp (temp : string) (error : StorageError) :
    prog smbE (storage_result BlobWriteOutcome) :=
  let* _ := (if is_retryable error then reconnect_with_backoff else Ret (Ok tt)) in
  let* _ := remove_file temp in
  Ret (Err error).

Definition put_blob (key : string) (body : StorageByteStream smbE) (_options : BlobPutOptions) :
    prog smbE (storage_result BlobWriteOutcome) :=
  let* temp := (let!? _ := validate_blob_key key in temp_key key) in
  match temp with
  | Err error =>
      let* _ := drop_body body in
      Ret (Err error)
  | Ok temp =>
      let* result := write_file temp body false in
      match result with
      | Err error => discard_temp temp error
      | Ok outcome =>
          let* renamed := rename temp key true in
          match renamed with
          | Err error => discard_temp temp error
          | Ok _ => Ret (Ok outcome)
          end
      end
  end.

Definition put_blob_if_not_exists (key : string) (body : StorageByteStream smbE)
    (_options : BlobPutOptions) : prog smbE (storage_result (option BlobWriteOutcome)) :=
  match validate_blob_key key with
  | Err error =>
      let* _ := drop_body body in
      Ret (Err error)
  | Ok _ =>
      let* r := write_file key body true in
      match r with
      | Ok outcome => Ret (Ok (Some outcome))
      | Err error =>
          if is_collision error then Ret (Ok None)
          else
            let* _ := (if is_retryable error then reconnect_with_backoff else Ret (Ok tt)) in
            Ret (Err error)
      end
  end.
End Backend.

(** ** Reading, listing and the rest of [BlobStore] *)

Section Store.
Context `{EX : Externals} `{SC : SmbCrate} `{SH : SmbHandles}.
Context (self : SmbStorageBackend).

(** A permit that goes out of scope with an error. *)
Definition release_err {A : Type} (error : StorageError) : prog smbE (storage_result A) :=
  let* _ := call ReleasePermit in
  Ret (Err error).

(** The closure of the stream of [get_blob], which owns the file and the
    permit; they go out of scope when it answers [None] or an error. *)
Definition read_step '(file, offset, size) :
    prog smbE (storage_result (option (bytes * (option File * Z * Z)))) :=
  match file with
  | None =>
      let* _ := call ReleasePermit in
      Ret (Ok None)
  | Some file =>
      if size <=? offset then
        let* r := close_file self file in
        let* _ := call ReleasePermit in
        Ret (result_map (λ _, None) r)
      else
        let chunk_len := default READ_CHUNK_SIZE
                           (usize_try_from (Z.min (size - offset) READ_CHUNK_SIZE)) in
        let* r := call (Within (operation_timeout self) (ReadBlock file chunk_len offset)) in
        match r with
        | None => release_err (timed_out "read")
        | Some (Err error) => release_err (map_io_error "read" error)
        | Some (Ok []) =>
            release_err (remote_error Protocol "read" "unexpected end of remote file" false)
        | Some (Ok buffer) =>
            let next := u64_saturating_add offset (u64_from_len buffer) in
            Ret (Ok (Some (buffer, (Some file, next, size))))
        end
  end.

Definition size_metadata (key : string) (size : Z) : BlobMetadata :=
  mkBlobMetadata key (Some size) None None None.

Definition query_size (file : File) : prog smbE (storage_result Z) :=
  with_timeout self "head" (QueryEndOfFile file).

Definition get_blob (key : string) : prog smbE (storage_result (BlobBody smbE)) :=
  let!? _ := validate_blob_key key in
  let*? _ := transfer_permit in
  let* r := (let*? file := open_file self key read_access in
             let*? size := query_size file in
             Ret (Ok (file, size))) in
  match r with
  | Err error => release_err error
  | Ok (file, size) =>
      Ret (Ok (mkBlobBody key (Some (size_metadata key size))
                 (with_size_hint
                    (try_unfold (Some file, 0, size) read_step (λ _, call ReleasePermit)) size)))
  end.

Definition blob_exists (key : string) : prog smbE (storage_result bool) :=
  let!? _ := validate_blob_key key in
  let* r := open_file self key read_access in
  match r with
  | Ok file =>
      let*? _ := close_file self file in
      Ret (Ok true)
  | Err error => if is_not_found error then Ret (Ok false) else Ret (Err error)
  end.

Definition head_blob (key : string) : prog smbE (storage_result (option BlobMetadata)) :=
  let!? _ := validate_blob_key key in
  let* r := open_file self key read_access in
  match r with
  | Ok file =>
      let*? size := query_size file in
      let*? _ := close_file self file in
      Ret (Ok (Some (size_metadata key size)))
  | Err error => if is_not_found error then Ret (Ok None) else Ret (Err error)
  end.

(** The loop over the entries of a directory. *)
Definition entry_step (directory_path : string) '(entries, stack, keys) :
    prog smbE (Entries * list string * list string +
               storage_result (list string * list string)) :=
  let* ' (entry, entries) := call (Await (NextEntry entries)) in
  match entry with
  | None => Break (Ok (stack, keys))
  | Some entry =>
      match map_err (map_smb_error "list") entry with
      | Err e => Break (Err e)
      | Ok entry =>
          let name := de_file_name entry in
          if String.eqb name "." || String.eqb name ".." then Continue (entries, stack, keys)
          else
            let child := if str_is_empty directory_path then name
                         else directory_path +:+ "/" +:+ name in
            if de_directory entry then Continue (entries, child :: stack, keys)
            else if is_temp_key child then Continue (entries, stack, keys)
            else Continue (entries, stack, keys ++ [entry_key (config self) child])
      end
  end.

(** The loop over the directories; the top of the stack is its head. *)
Definition collect_step (client : Client) (base : UncPath) '(stack, keys) :
    prog smbE (list string * list string + storage_result (list string)) :=
  match stack with
  | [] => Break (Ok (merge_sort String.le keys))
  | directory_path :: stack =>
      let target := with_path base directory_path in
      let* r := with_timeout self "list"
                  (CreateFile client target (make_open_existing directory_access)) in
      match r with
      | Err error => if is_not_found error then Continue (stack, keys) else Break (Err error)
      | Ok (ResourceDirectory directory) =>
          let* r := call (Await (QueryDirectory directory "*")) in
          match map_err (map_smb_error "list") r with
          | Err e => Break (Err e)
          | Ok entries =>
              let* r := loop (entry_step directory_path) (entries, stack, keys) in
              match r with
              | Err e => Break (Err e)
              | Ok (stack, keys) =>
                  let* r := with_timeout self "close" (Close (ResourceDirectory directory)) in
                  match r with
                  | Err e => Break (Err e)
                  | Ok _ => Continue (stack, keys)
                  end
              end
          end
      | Ok other =>
          let* _ := close_resource other in
          Continue (stack, keys)
      end
  end.

Definition collect_keys : prog smbE (storage_result (list string)) :=
  let* client := call ReadClient in
  let!? base := share_path self in
  let start := default "" (smb_root_prefix (config self)) in
  loop (collect_step client base) ([start], []).

(** The page of the collected keys. *)
Definition page_of_keys (prefix : string) (continuation : option string) (limit : Z)
    (keys : list string) : BlobListPage :=
  let keys := List.filter (λ key, starts_with prefix key &&
                match continuation with Some token => str_ltb token key | None => true end) keys in
  if limit <? Z.of_nat (length keys)
  then let keys := take (Z.to_nat limit) keys in mkBlobListPage keys (last keys)
  else mkBlobListPage keys None.

Definition list_blobs_page (prefix : string) (continuation : option string) (limit : Z) :
    prog smbE (storage_result BlobListPage) :=
  let!? _ := validate_blob_prefix prefix in
  if limit =? 0
  then Ret (Err (PreconditionFailed prefix "list limit must be greater than zero"))
  else
    let*? keys := collect_keys in
    Ret (Ok (page_of_keys prefix continuation limit keys)).

Definition delete_blob (key : string) : prog smbE (storage_result unit) :=
  let!? _ := validate_blob_key key in
  remove_file self key.

Definition copy_blob : string → string → prog smbE (storage_result unit) :=
  default_copy_blob get_blob (put_blob self).

Definition smb_blob_store : BlobStore smbE := {|
  bs_backend := Providers.Smb;
  BlobStore.put_blob := put_blob self;
  BlobStore.put_blob_if_not_exists := put_blob_if_not_exists self;
  BlobStore.get_blob := get_blob;
  BlobStore.get_blob_range := default_get_blob_range get_blob;
  BlobStore.blob_exists := blob_exists;
  BlobStore.head_blob := head_blob;
  BlobStore.list_blobs_page := list_blobs_page;
  BlobStore.list_blobs := default_list_blobs list_blobs_page;
  BlobStore.copy_blob := copy_blob;
  BlobStore.delete_blob := delete_blob;
|}.
End Store.

(** ** The probe *)

Record SmbProbeOptions : Type := mkProbeOptions { create_prefix : bool }.

Record SmbProbeResult : Type := mkProbeResult {
  negotiated_dialect : SmbDialect;
  signing_active : bool;
  encryption_active : bool;
  server_reachable : bool;
  share_reachable : bool;
  prefix_readable : bool;
  prefix_writable : bool;
}.

Section Probe.
Context `{EX : Externals} `{SC : SmbCrate} `{SH : SmbHandles}.

Definition probe (config : SmbStorageConfig) (options : SmbProbeOptions) :
    prog smbE (storage_result SmbProbeResult) :=
  let*? backend := connect config in
  let*? _ := if create_prefix options then ensure_root_prefix backend else Ret (Ok tt) in
  let* listed := default_list_blobs (list_blobs_page backend) "" in
  let prefix_readable := is_ok listed in
  let* uuid := call SmbNewV4 in
  let key := ".graphql-orm-probe-" +:+ uuid_to_string uuid in
  let* uuid := call SmbNewV4 in
  let expected := uuid_as_bytes uuid in
  let*? _ := put_blob backend key (from_bytes expected) default_put_options in
  let*? loaded := get_blob backend key in
  let*? actual := collect_storage_stream (bb_body loaded) in
  if negb (bool_decide (actual = expected)) then
    let* _ := delete_blob backend key in
    Ret (Err (remote_error Protocol "probe" "probe file contents did not match" false))
  else
    let*? _ := delete_blob backend key in
    let* client := call ReadClient in
    let* r := call (Await (GetConnection client (smb_server config))) in
    let!? info := map_err (map_smb_error "probe") r in
    match info with
    | None => Ret (Err (remote_error Protocol "probe"
                "negotiated connection information is unavailable" false))
    | Some dialect =>
        Ret (Ok (mkProbeResult (from_protocol dialect) true (smb_require_encryption config)
                   true true prefix_readable true))
    end.
End Probe.
