(* ===== verification/SmbFacts.v ===== *)
(** * The SMB provider: configuration, temporary names, error classes *)
From S2P Require Import Prelude Text Errors Providers Externals Keys Smb.
From Stdlib Require Import Ascii.

Lemma app_suffix_inj p a b : a +:+ p = b +:+ p → a = b.
Proof.
  intros E. pose proof (proj2 (strip_suffix_Some p _ a) eq_refl) as S1.
  pose proof (proj2 (strip_suffix_Some p _ b) eq_refl) as S2. congruence.
Qed.

(** The part after the last [c] is determined. *)
Lemma last_part_inj c a b u v :
  contains_char c u = false → contains_char c v = false →
  a +:+ String c u = b +:+ String c v → a = b ∧ u = v.
Proof.
  intros Hu Hv E. pose proof (proj2 (rsplit_once_Some c _ a u) (conj eq_refl Hu)) as R1.
  pose proof (proj2 (rsplit_once_Some c _ b v) (conj eq_refl Hv)) as R2.
  rewrite E, R2 in R1. by injection R1.
Qed.

(** ** Configuration *)

(** A name the validators accept: not empty, no space around it, one plain
    component. *)
Definition plain_field (s : string) : Prop :=
  s ≠ "" ∧ trim s = s ∧ has_separator s = false ∧ s ≠ "." ∧ s ≠ "..".

Lemma contains_str_char p c s :
  contains_char c p = true → contains_str p s = true → contains_char c s = true.
Proof.
  intros Hp. induction s as [|a s IH]; simpl; intros Hs.
  - rewrite orb_false_r in Hs. unfold starts_with in Hs.
    by destruct p.
  - apply orb_prop in Hs as [Hs|Hs]; [|rewrite IH by done; apply orb_true_r].
    unfold starts_with in Hs. destruct (strip_prefix p (String a s)) as [r|] eqn:E; [|done].
    apply strip_prefix_Some in E.
    change (contains_char c (String a s) = true). by rewrite E, contains_char_app, Hp.
Qed.

Lemma plain_field_bad s :
  str_is_empty s || negb (String.eqb (trim s) s) || has_separator s || String.eqb s "." ||
    String.eqb s ".." = false ↔ plain_field s.
Proof.
  unfold plain_field. rewrite !orb_false_iff, negb_false_iff, str_is_empty_false.
  rewrite String.eqb_eq, !String.eqb_neq. tauto.
Qed.

Lemma validate_component_iff name v : validate_component name v = Ok tt ↔ plain_field v.
Proof.
  rewrite <- plain_field_bad. unfold validate_component. by destruct (_ || _).
Qed.

(** The test for a scheme adds nothing to the test for separators. *)
Lemma validate_server_iff v : validate_server v = Ok tt ↔ plain_field v.
Proof.
  rewrite <- plain_field_bad. unfold validate_server.
  destruct (contains_str "://" v) eqn:E.
  - assert (has_separator v = true) as ->.
    { unfold has_separator. by rewrite (contains_str_char "://" "/" v). }
    by rewrite !orb_true_r.
  - rewrite orb_false_r. by destruct (_ || _).
Qed.

(** A configuration the backend accepts. *)
Record config_ok (c : SmbStorageConfig) : Prop := {
  ok_server : plain_field (smb_server c);
  ok_share : plain_field (smb_share c);
  ok_username : plain_field (smb_username c);
  ok_password : smb_password c ≠ "";
  ok_domain : ∀ d, smb_domain c = Some d → plain_field d;
  ok_prefix : ∀ p, smb_root_prefix c = Some p → key_safe p;
  ok_port : smb_port c ≠ 0;
  ok_connect_timeout : smb_connect_timeout c ≠ 0;
  ok_operation_timeout : smb_operation_timeout c ≠ 0;
  ok_concurrency : smb_max_transfer_concurrency c ≠ 0;
  ok_encryption : smb_require_encryption c = true →
    dialect_rank Smb3_0 ≤ dialect_rank (smb_min_dialect c);
}.

Definition config_error (c : SmbStorageConfig) (e : StorageError) : Prop :=
  (∃ m, e = invalid_config m) ∨
  ∃ p, smb_root_prefix c = Some p ∧ ¬ key_safe p ∧ e = InvalidStorageKey p.

Lemma validate_component_err name v e :
  validate_component name v = Err e → ¬ plain_field v ∧ ∃ m, e = invalid_config m.
Proof.
  intros E. split.
  - intros Hv. apply (validate_component_iff name) in Hv. congruence.
  - unfold validate_component in E. destruct (_ || _); [|done]. injection E as <-. eauto.
Qed.

Lemma validate_server_err v e :
  validate_server v = Err e → ¬ plain_field v ∧ ∃ m, e = invalid_config m.
Proof.
  intros E. split.
  - intros Hv. apply validate_server_iff in Hv. congruence.
  - unfold validate_server in E. destruct (_ || _); [|done]. injection E as <-. eauto.
Qed.

Lemma validate_cases c :
  match validate c with
  | Ok _ => config_ok c
  | Err e => ¬ config_ok c ∧ config_error c e
  end.
Proof.
  unfold validate, config_error.
  destruct (validate_server _) as [[]|e] eqn:E1; [apply validate_server_iff in E1|].
  2: { apply validate_server_err in E1 as [E1 ?]. split; [by intros []|by left]. }
  destruct (validate_component "share" _) as [[]|e] eqn:E2; [apply validate_component_iff in E2|].
  2: { apply validate_component_err in E2 as [E2 ?]. split; [by intros []|by left]. }
  destruct (validate_component "username" _) as [[]|e] eqn:E3;
    [apply validate_component_iff in E3|].
  2: { apply validate_component_err in E3 as [E3 ?]. split; [by intros []|by left]. }
  destruct (str_is_empty (smb_password c)) eqn:E4.
  { apply str_is_empty_true in E4. split; [by intros []|left; eauto]. }
  apply str_is_empty_false in E4.
  destruct (match smb_domain c with Some d => _ | None => _ end) as [[]|e] eqn:E5.
  2: { destruct (smb_domain c) as [d|] eqn:Ed; [|done].
       apply validate_component_err in E5 as [E5 ?]. split; [|by left]. intros []. by eapply E5, ok_domain0. }
  destruct (match smb_root_prefix c with Some p => _ | None => _ end) as [[]|e] eqn:E6.
  2: { destruct (smb_root_prefix c) as [p|] eqn:Ed; [|done].
       assert (Hp : ¬ key_safe p) by (intros Hp%validate_blob_key_safe; congruence).
       rewrite (validate_blob_key_unsafe _ Hp) in E6. injection E6 as <-.
       split; [|right; eauto]. intros []. by eapply Hp, ok_prefix0. }
  unfold is_zero.
  destruct (Z.eqb_spec (smb_port c) 0); [by split; [intros []|left; eauto]|].
  destruct (Z.eqb_spec (smb_connect_timeout c) 0); [by split; [intros []|left; eauto]|].
  destruct (Z.eqb_spec (smb_operation_timeout c) 0); [by split; [intros []|left; eauto]|].
  destruct (Z.eqb_spec (smb_max_transfer_concurrency c) 0); [by split; [intros []|left; eauto]|].
  simpl. destruct (smb_require_encryption c && _) eqn:E7.
  { apply andb_prop in E7 as [Hr Hd%Z.ltb_lt]. split; [|left; eauto]. intros [].
    specialize (ok_encryption0 Hr). simpl in *. lia. }
  constructor; try done.
  - intros d Hd. rewrite Hd in E5. by apply validate_component_iff in E5.
  - intros p Hp. rewrite Hp in E6. by apply validate_ok_iff.
  - intros Hr. rewrite Hr in E7. simpl in E7. apply Z.ltb_ge in E7. done.
Qed.

Lemma plain_field_no_backslash s : plain_field s → contains_char BACKSLASH s = false.
Proof. intros (_ & _ & H & _). by apply orb_false_iff in H as [[_ ?]%orb_false_iff _]. Qed.

(** The name that is sent determines the domain and the user. *)
Lemma authenticated_username_inj c c' :
  config_ok c → config_ok c' → authenticated_username c = authenticated_username c' →
  smb_domain c = smb_domain c' ∧ smb_username c = smb_username c'.
Proof.
  intros H H' E. pose proof (plain_field_no_backslash _ (ok_username _ H)) as U.
  pose proof (plain_field_no_backslash _ (ok_username _ H')) as U'.
  assert (D : ∀ d u, contains_char BACKSLASH (d +:+ char_str BACKSLASH +:+ u) = true)
    by (intros d u; by rewrite contains_char_app; simpl; rewrite orb_true_r).
  unfold authenticated_username in E.
  destruct (smb_domain c) as [d|], (smb_domain c') as [d'|].
  - destruct (last_part_inj BACKSLASH d d' _ _ U U' E) as [-> ->]. done.
  - rewrite <- E, D in U'. done.
  - rewrite E, D in U. done.
  - done.
Qed.

(** C39: [validate] accepts a configuration exactly when every name is a plain
    component, there is a password, the root prefix is a valid key, the
    numbers are not zero, and encryption is asked of SMB 3 only; any other is
    refused with an error that is not retryable.  The defaults of [new] pass for plain names and a password.  In an accepted
    configuration the name sent to the server determines domain and user, and
    the dialects survive the translation to the protocol and back. *)
Theorem smb_validate_spec c :
  (validate c = Ok tt ↔ config_ok c) ∧
  (∀ e, validate c = Err e → config_error c e ∧ is_retryable e = false) ∧
  (∀ server share username password, plain_field server → plain_field share →
     plain_field username → password ≠ "" →
     config_ok (config_new server share username password)) ∧
  (∀ c', config_ok c → config_ok c' → authenticated_username c = authenticated_username c' →
     smb_domain c = smb_domain c' ∧ smb_username c = smb_username c') ∧
  (∀ d, from_protocol (protocol d) = d) ∧ (∀ d, protocol (from_protocol d) = d).
Proof.
  pose proof (validate_cases c) as V. split_and!.
  - destruct (validate c) as [[]|e]; [done|]. destruct V as [V _]. by split.
  - intros e E. rewrite E in V. destruct V as [_ V]. split; [done|].
    by destruct V as [[m ->]|(p & _ & _ & ->)].
  - intros server share username password H1 H2 H3 H4. by constructor.
  - intros c'. apply authenticated_username_inj.
  - by intros [].
  - by intros [].
Qed.

(** ** Temporary names *)

Section TempKeys.
Context `{EX : Externals} `{XL : !ExternalsLaws}.

Definition temp_name (name : string) (uuid : Uuid) : string :=
  "." +:+ name +:+ "." +:+ uuid_to_string uuid +:+ TEMP_SUFFIX.

Lemma temp_name_eq name uuid :
  temp_name name uuid = (String "." name +:+ String "." (uuid_to_string uuid)) +:+ TEMP_SUFFIX.
Proof. unfold temp_name. by rewrite !app_assoc_str. Qed.

Lemma uuid_no_char uuid c : uuid_char c = false → contains_char c (uuid_to_string uuid) = false.
Proof. intros Hc. eapply all_chars_contains; [apply uuid_text_chars|done]. Qed.

Lemma temp_name_no_char name uuid c :
  c = "/"%char ∨ c = BACKSLASH ∨ c = NUL → contains_char c name = false →
  contains_char c (temp_name name uuid) = false.
Proof.
  intros Hc Hn. unfold temp_name. rewrite !contains_char_app, Hn, uuid_no_char
    by (by destruct Hc as [->|[->| ->]]). by destruct Hc as [->|[->| ->]].
Qed.

Lemma smb_temp_name_length name uuid :
  String.length (temp_name name uuid) = (String.length name + 48)%nat.
Proof. unfold temp_name. rewrite !length_app_str, uuid_text_length. simpl. lia. Qed.

Lemma temp_name_safe name uuid : safe_segment name → safe_segment (temp_name name uuid).
Proof.
  intros (_ & _ & _ & H1 & H2 & H3).
  assert (L : ∀ y, (String.length y < 48)%nat → temp_name name uuid ≠ y).
  { intros y Hy E. rewrite <- E, smb_temp_name_length in Hy. lia. }
  split_and!; try (apply L; simpl; lia); apply temp_name_no_char; auto.
Qed.

Lemma temp_name_inj name name' uuid uuid' :
  temp_name name uuid = temp_name name' uuid' → name = name' ∧ uuid = uuid'.
Proof.
  rewrite !temp_name_eq. intros E%app_suffix_inj.
  apply last_part_inj in E as [[= ->] Hu]; [|by apply uuid_no_char..].
  split; [done|by apply uuid_text_inj].
Qed.

(** A valid key is its directories and its name. *)
Lemma key_parts key :
  key_safe key → ∃ dirs name, split "/" key = dirs ++ [name] ∧ safe_segment name ∧
    Forall safe_segment dirs ∧ contains_char "/" name = false ∧
    default ("", key) (rsplit_once "/" key) = (join "/" dirs, name).
Proof.
  intros Hk. destruct (rsplit_once "/" key) as [[parent name]|] eqn:E.
  - apply rsplit_once_Some in E as [-> Hn].
    assert (Hs : split "/" (parent +:+ String "/" name) = split "/" parent ++ [name])
      by by rewrite split_app, (split_id _ name).
    exists (split "/" parent), name. unfold key_safe in Hk. rewrite Hs in Hk.
    apply Forall_app in Hk as [Hd Hname%Forall_inv].
    do 4 (split; [done|]). simpl. change "/" with (char_str "/"). by rewrite join_split.
  - apply rsplit_once_None in E. exists [], key. unfold key_safe in Hk.
    rewrite split_id in Hk |- * by done. apply Forall_inv in Hk.
    by do 4 (split; [done|]).
Qed.

Lemma join_nonempty dirs : Forall safe_segment dirs → dirs ≠ [] → join "/" dirs ≠ "".
Proof.
  intros Hd Hne E. destruct Hd as [|d dirs Hs Hd]; [done|]. destruct Hs as [Hs _].
  destruct dirs as [|d' dirs]; simpl in E; [done|]. by destruct d.
Qed.

Lemma temp_key_shape uuid key dirs name :
  key_safe key → split "/" key = dirs ++ [name] → contains_char "/" name = false →
  safe_segment name → Forall safe_segment dirs →
  default ("", key) (rsplit_once "/" key) = (join "/" dirs, name) →
  ∃ t, temp_key_with uuid key = Ok t ∧ split "/" t = dirs ++ [temp_name name uuid] ∧ key_safe t.
Proof.
  intros Hk Hs Hn Hname Hd Hr.
  assert (Hn' : contains_char "/" (temp_name name uuid) = false)
    by (apply temp_name_no_char; auto).
  set (t := if str_is_empty (join "/" dirs) then temp_name name uuid
            else join "/" dirs +:+ "/" +:+ temp_name name uuid).
  assert (Ht : split "/" t = dirs ++ [temp_name name uuid]).
  { subst t. destruct dirs as [|d dirs]; [by apply split_id|].
    rewrite (proj2 (str_is_empty_false _)) by (by apply join_nonempty).
    change (?a +:+ "/" +:+ ?b) with (a +:+ String "/" b).
    rewrite split_app, (split_id _ (temp_name name uuid)) by done. f_equal.
    change "/" with (char_str "/"). apply split_join; [done|].
    eapply Forall_impl; [exact Hd|]. by intros x (_ & _ & _ & ? & _). }
  assert (Ht' : key_safe t).
  { unfold key_safe. rewrite Ht. apply Forall_app. split; [done|].
    apply Forall_singleton. by apply temp_name_safe. }
  exists t. split_and!; [|done|done]. unfold temp_key_with. rewrite Hr. simpl.
  fold (temp_name name uuid). fold t. by rewrite (validate_blob_key_safe _ Ht').
Qed.
Lemma is_temp_key_shape dirs name uuid t :
  split "/" t = dirs ++ [temp_name name uuid] → is_temp_key t = true.
Proof.
  intros Ht. unfold is_temp_key. rewrite Ht, last_snoc, temp_name_eq.
  rewrite (proj2 (strip_suffix_Some TEMP_SUFFIX _ _) eq_refl).
  rewrite (proj2 (rsplit_once_Some "." _ _ _) (conj eq_refl (uuid_no_char uuid "." eq_refl))).
  apply uuid_parse_text.
Qed.

Lemma temp_key_good key uuid :
  key_safe key → ∃ t, temp_key_with uuid key = Ok t ∧ key_safe t ∧ is_temp_key t = true ∧
    t ≠ key ∧ removelast (split "/" t) = removelast (split "/" key) ∧
    ∀ key' uuid', key_safe key' → temp_key_with uuid' key' = Ok t → key' = key ∧ uuid' = uuid.
Proof.
  intros Hk. destruct (key_parts key Hk) as (dirs & name & Hs & Hname & Hd & Hn & Hr).
  destruct (temp_key_shape uuid key dirs name) as (t & Ht & Hst & Hkt); [done..|].
  exists t. split_and!; [done|done|by eapply is_temp_key_shape| | |].
  - intros ->. rewrite Hs in Hst. apply app_inj_tail in Hst as [_ E].
    apply (f_equal String.length) in E. rewrite smb_temp_name_length in E. lia.
  - by rewrite Hst, Hs, !removelast_last.
  - intros key' uuid' Hk' Ht'. destruct (key_parts key' Hk') as (dirs' & name' & Hs' & ? & ? & ? & ?).
    destruct (temp_key_shape uuid' key' dirs' name') as (t' & Ht2 & Hst' & _); [done..|].
    assert (t' = t) as -> by congruence. rewrite Hst in Hst'.
    apply app_inj_tail in Hst' as [-> E].
    apply temp_name_inj in E as [-> ->]. rewrite <- Hs in Hs'. by apply split_inj in Hs'.
Qed.

(** The temporary name of a write.  For every valid key it is a valid key
    too, in the directory of the key, it is not the key, listings recognise it,
    and it determines the key and the UUID, so two writes that draw different
    UUIDs never share a temporary file.  Conversely a name listings take for a
    temporary one ends in a dot, a UUID and [.uploading]: no other key is
    hidden. *)
Theorem smb_temp_key_spec key uuid :
  (key_safe key → ∃ t, temp_key_with uuid key = Ok t ∧ key_safe t ∧ is_temp_key t = true ∧
     t ≠ key ∧ removelast (split "/" t) = removelast (split "/" key) ∧
     ∀ key' uuid', key_safe key' → temp_key_with uuid' key' = Ok t → key' = key ∧ uuid' = uuid) ∧
  (is_temp_key key = true → ∃ stem u, uuid_parse_ok u = true ∧
     last (split "/" key) = Some (stem +:+ "." +:+ u +:+ TEMP_SUFFIX)).
Proof.
  split; [apply temp_key_good|].
  unfold is_temp_key. destruct (last _) as [name|]; [|done].
    destruct (strip_suffix TEMP_SUFFIX name) as [stem|] eqn:E1; [|done].
    destruct (rsplit_once "." stem) as [[a u]|] eqn:E2; [|done]. intros Hu.
    apply strip_suffix_Some in E1 as ->. apply rsplit_once_Some in E2 as [-> _].
    exists a, u. split; [done|]. f_equal.
    change (a +:+ String "." u) with (a +:+ "." +:+ u). by rewrite !app_assoc_str.
Qed.
End TempKeys.

(** ** Error classes *)

Section ErrorClasses.
Context `{SC : SmbCrate}.

(** The status codes are different. *)
Definition statuses : list Z :=
  [LogonFailure; AccessDenied; BadNetworkName; ObjectNameNotFound; ObjectPathNotFound;
   ObjectNameCollision; IoTimeout; NetworkNameDeleted; UserSessionDeleted; NetworkSessionExpired].

Definition smb_status (e : SmbError) : option Z :=
  match e with UnexpectedMessageStatus s | ReceivedErrorMessage s => Some s | _ => None end.

Definition transient (k : StorageProviderErrorKind) : Prop :=
  k = Connectivity ∨ k = Timeout ∨ k = ConnectionLost.

Definition error_of_kind (e : StorageError) (k : StorageProviderErrorKind) : Prop :=
  ∃ operation message retryable, e = RemoteProvider (backend_as_str Smb) k operation message retryable.

Lemma map_smb_error_kind operation e :
  ∃ k, error_of_kind (map_smb_error operation e) k ∧
    (is_retryable (map_smb_error operation e) = true ↔ transient k).
Proof.
  unfold map_smb_error, remote_error, error_of_kind, transient. eexists. split; [by do 3 eexists|].
  simpl. destruct (match _ with Some _ => _ | None => _ end); naive_solver.
Qed.

Lemma map_io_error_kind operation e :
  ∃ k, error_of_kind (map_io_error operation e) k ∧
    (is_retryable (map_io_error operation e) = true ↔ transient k).
Proof.
  unfold map_io_error, remote_error, error_of_kind, transient. eexists. split; [by do 3 eexists|].
  simpl. destruct (io_kind e); naive_solver.
Qed.
Lemma error_kind_plain e : error_kind e ≠ RemotePathNotFound ∧ error_kind e ≠ ConditionalCreateConflict.
Proof. destruct e as [| |[]| | |m| | | | | |]; simpl; try done. by destruct (contains_str _ m). Qed.

(** Case analysis on the comparisons of a status. *)
Ltac status_cases v :=
  repeat match goal with
  | |- context [v =? ?x] => destruct (Z.eqb_spec v x); simpl
  end.

Lemma map_smb_error_classes operation e :
  NoDup statuses →
  (is_not_found (map_smb_error operation e) = true ↔
     smb_status e = Some ObjectNameNotFound ∨ smb_status e = Some ObjectPathNotFound) ∧
  (is_collision (map_smb_error operation e) = true ↔ smb_status e = Some ObjectNameCollision).
Proof.
  intros N. pose proof (error_kind_plain e) as [K1 K2].
  unfold map_smb_error, remote_error, is_not_found, is_collision, smb_status.
  assert (Hnone : ∀ (k : StorageProviderErrorKind), k ≠ RemotePathNotFound → k ≠ ConditionalCreateConflict →
    (match k with RemotePathNotFound => true | _ => false end = false) ∧
    (match k with ConditionalCreateConflict => true | _ => false end = false)) by by intros [].
  destruct (match e with UnexpectedMessageStatus s | ReceivedErrorMessage s => Some s | _ => None end)
    as [v|]; [|destruct (Hnone _ K1 K2) as [-> ->]; naive_solver].
  unfold statuses in N. repeat (apply NoDup_cons in N as [? N]). clear N.
  repeat match goal with
  | H : _ ∉ [] |- _ => clear H
  | H : _ ∉ _ :: _ |- _ => apply not_elem_of_cons in H as [? H]
  end.
  status_cases v; try destruct (Hnone _ K1 K2) as [-> ->]; split; split; intros; destruct_or?;
    first [congruence | left; congruence | right; congruence].
Qed.
(** C38: the classes of errors the operations act on.  A failing request is a
    missing path exactly for the statuses [ObjectNameNotFound] and
    [ObjectPathNotFound], and a collision exactly for [ObjectNameCollision]; a
    block or a flush is never a collision.  The error is retryable exactly for
    the transient kinds, so a missing path or a collision is never retried. *)
Theorem smb_error_classes operation e io :
  NoDup statuses →
  (is_not_found (map_smb_error operation e) = true ↔
     smb_status e = Some ObjectNameNotFound ∨ smb_status e = Some ObjectPathNotFound) ∧
  (is_collision (map_smb_error operation e) = true ↔ smb_status e = Some ObjectNameCollision) ∧
  (is_not_found (map_io_error operation io) = true ↔ io_kind io = NotFound) ∧
  is_collision (map_io_error operation io) = false ∧
  (∀ err, err = map_smb_error operation e ∨ err = map_io_error operation io →
     ∃ k, error_of_kind err k ∧ (is_retryable err = true ↔ transient k) ∧
       (is_retryable err = true → is_not_found err = false ∧ is_collision err = false)).
Proof.
  intros N. destruct (map_smb_error_classes operation e N) as [H1 H2].
  split; [exact H1|]. split; [exact H2|]. split_and!.
  - unfold map_io_error, is_not_found. simpl. by destruct (io_kind io).
  - unfold map_io_error, is_collision. simpl. by destruct (io_kind io).
  - intros err Herr. assert (∃ k, error_of_kind err k ∧ (is_retryable err = true ↔ transient k))
      as (k & Hk & Ht).
    { destruct Herr as [->| ->]; [apply map_smb_error_kind|apply map_io_error_kind]. }
    exists k. split_and!; [done|done|]. intros Hr%Ht. destruct Hk as (o & m & r & ->).
    by destruct Hr as [->|[->| ->]].
Qed.
End ErrorClasses.
