(* ===== verification/Redaction.v ===== *)
(** * Debug output of configurations (src/src/s3.rs, azure.rs, smb.rs, blob.rs)

    An implementation of [fmt::Debug] hands the formatter a tree of named
    fields; the formatter prints what it is handed and nothing else.  The
    definitions are those trees, so that a secret that is not in the tree is in
    no text made of it, compact or pretty-printed. *)
From S2P Require Import Prelude Text Effects Streams S3 Azure Smb.

(** What [debug_struct], [field] and [finish] are called with. *)
Inductive DebugTree : Type :=
| DebugStr (s : string)
| DebugBool (b : bool)
| DebugInt (n : Z)
| DebugDuration (d : Duration)
| DebugName (name : string)
| DebugSome (t : DebugTree)
| DebugStruct (name : string) (fields : DebugFields)
with DebugFields : Type :=
| Field (name : string) (value : DebugTree) (rest : DebugFields)
| Finish
| FinishNonExhaustive.

(** [Option<T>]. *)
Definition debug_option {A} (f : A → DebugTree) (o : option A) : DebugTree :=
  match o with Some a => DebugSome (f a) | None => DebugName "None" end.

(** [option.as_ref().map(|_| "<redacted>")]. *)
Definition redacted (o : option string) : option string := (λ _, "<redacted>") <$> o.

Definition fmt_s3_config (self : S3StorageConfig) : DebugTree :=
  DebugStruct "S3StorageConfig"
    (Field "endpoint_url" (DebugStr (s3_endpoint_url self))
    (Field "region" (DebugStr (s3_region self))
    (Field "bucket" (DebugStr (s3_bucket self))
    (Field "key_prefix" (debug_option DebugStr (s3_key_prefix self))
    (Field "access_key_id" (DebugStr (s3_access_key_id self))
    (Field "secret_access_key" (DebugStr "<redacted>")
    (Field "path_style" (DebugBool (s3_path_style self)) Finish))))))).

Definition fmt_azure_config (self : AzureBlobStorageConfig) : DebugTree :=
  DebugStruct "AzureBlobStorageConfig"
    (Field "account" (debug_option DebugStr (az_account self))
    (Field "connection_string" (debug_option DebugStr (redacted (az_connection_string self)))
    (Field "container" (DebugStr (az_container self))
    (Field "key_prefix" (debug_option DebugStr (az_key_prefix self))
    (Field "credential" (debug_option DebugStr (redacted (az_credential self))) Finish))))).

(** Derived. *)
Definition fmt_azure_backend (self : AzureBlobStorageBackend) : DebugTree :=
  DebugStruct "AzureBlobStorageBackend" (Field "config" (fmt_azure_config (Azure.config self)) Finish).

Definition fmt_dialect (d : SmbDialect) : DebugTree :=
  DebugName match d with
            | Smb2_0_2 => "Smb2_0_2" | Smb2_1 => "Smb2_1" | Smb3_0 => "Smb3_0"
            | Smb3_0_2 => "Smb3_0_2" | Smb3_1_1 => "Smb3_1_1"
            end.

Definition fmt_smb_config (self : SmbStorageConfig) : DebugTree :=
  DebugStruct "SmbStorageConfig"
    (Field "server" (DebugStr (smb_server self))
    (Field "port" (DebugInt (smb_port self))
    (Field "share" (DebugStr (smb_share self))
    (Field "root_prefix" (debug_option DebugStr (smb_root_prefix self))
    (Field "username" (DebugStr (smb_username self))
    (Field "password" (DebugStr "[REDACTED]")
    (Field "domain" (debug_option DebugStr (smb_domain self))
    (Field "min_dialect" (fmt_dialect (smb_min_dialect self))
    (Field "require_signing" (DebugBool (smb_require_signing self))
    (Field "require_encryption" (DebugBool (smb_require_encryption self))
    (Field "connect_timeout" (DebugDuration (smb_connect_timeout self))
    (Field "operation_timeout" (DebugDuration (smb_operation_timeout self))
    (Field "max_transfer_concurrency" (DebugInt (smb_max_transfer_concurrency self)) Finish))))))))))))).

Definition fmt_smb_backend (config : SmbStorageConfig) : DebugTree :=
  DebugStruct "SmbStorageBackend" (Field "config" (fmt_smb_config config) FinishNonExhaustive).

Definition fmt_stream {E} (self : StorageByteStream E) : DebugTree :=
  DebugStruct "StorageByteStream" (Field "size_hint" (debug_option DebugInt (sbs_size_hint self)) FinishNonExhaustive).

(** ** What the output tells *)

(** The configurations without their secrets. *)
Definition s3_public (c : S3StorageConfig) : S3StorageConfig :=
  mkS3Config (s3_endpoint_url c) (s3_region c) (s3_bucket c) (s3_key_prefix c)
    (s3_access_key_id c) "" (s3_path_style c).

Definition azure_public (c : AzureBlobStorageConfig) : AzureBlobStorageConfig :=
  mkAzureConfig (az_account c) (redacted (az_connection_string c)) (az_container c)
    (az_key_prefix c) (redacted (az_credential c)).

Definition smb_public (c : SmbStorageConfig) : SmbStorageConfig :=
  mkSmbConfig (smb_server c) (smb_port c) (smb_share c) (smb_root_prefix c) (smb_username c) ""
    (smb_domain c) (smb_min_dialect c) (smb_require_signing c) (smb_require_encryption c)
    (smb_connect_timeout c) (smb_operation_timeout c) (smb_max_transfer_concurrency c).

#[export] Instance debug_option_inj {A} (f : A → DebugTree) : Inj (=) (=) f → Inj (=) (=) (debug_option f).
Proof. intros Hf [a|] [b|] E; try done. injection E as E. by apply Hf in E as ->. Qed.

#[export] Instance DebugStr_inj : Inj (=) (=) DebugStr.
Proof. by intros a b [= ->]. Qed.

#[export] Instance DebugInt_inj : Inj (=) (=) DebugInt.
Proof. by intros a b [= ->]. Qed.

#[export] Instance fmt_dialect_inj : Inj (=) (=) fmt_dialect.
Proof. by intros [] []. Qed.

(** C40: the debug output of a configuration shows all of it but the secrets:
    two configurations have the same output exactly when they agree on
    everything except the secret key (S3), the text of the connection string and
    of the credential (Azure, where it shows whether there is one), or the
    password (SMB).  So no text the output is printed as depends on a secret.
    The output of a backend or of a stream adds nothing to that of its
    configuration and its size hint. *)
Theorem debug_redacts :
  (∀ c c', fmt_s3_config c = fmt_s3_config c' ↔ s3_public c = s3_public c') ∧
  (∀ b b', fmt_azure_backend b = fmt_azure_backend b' ↔
     azure_public (Azure.config b) = azure_public (Azure.config b')) ∧
  (∀ c c', fmt_smb_backend c = fmt_smb_backend c' ↔ smb_public c = smb_public c') ∧
  (∀ E (s s' : StorageByteStream E), fmt_stream s = fmt_stream s' ↔ sbs_size_hint s = sbs_size_hint s').
Proof.
  split_and!.
  - intros [] []. unfold fmt_s3_config, s3_public. simpl. split; [|by intros [= -> -> -> -> -> ->]].
    intros [= -> -> -> E%(inj _) -> ->]. by rewrite E.
  - intros [[]] [[]]. unfold fmt_azure_backend, fmt_azure_config, azure_public. simpl.
    split; [|by intros [= -> -> -> -> ->]].
    intros [= E1%(inj _) E2%(inj _) -> E3%(inj _) E4%(inj _)]. by rewrite E1, E2, E3, E4.
  - intros [] []. unfold fmt_smb_backend, fmt_smb_config, smb_public. simpl.
    split; [|by intros [= -> -> -> -> -> -> -> -> -> -> -> ->]].
    intros [= -> -> -> E1%(inj _) -> E2%(inj _) E3 -> -> -> -> ->].
    assert (Ed : fmt_dialect smb_min_dialect = fmt_dialect smb_min_dialect0) by (unfold fmt_dialect; by rewrite E3).
    apply (inj _) in Ed. by rewrite E1, E2, Ed.
  - intros E s s'. unfold fmt_stream. split; [|by intros ->]. by intros [= Hs%(inj _)].
Qed.
