(* ===== verification/SmbServer.v ===== *)
(** * What the SMB provider relies on: the share

    [ShareView] is what a state holds: the names of files below the share and
    the file each names, the content of each file, the files marked for
    deletion, the directories, the entries a query has still to deliver, the
    open handles; and on the side of the backend the free
    permits, the lock of reconnections and the number of connections made so
    far.  [Share] is what the SMB protocol and the [smb] crate promise of each
    request.  A request that fails, or that the deadline cuts off, may have
    taken effect all the same. *)
From S2P Require Import Prelude Text Errors Providers Externals Keys Effects Streams BlobStore Smb SmbFacts SmbStore.
From Stdlib Require Import Ascii.

(** A name: the components of the path below the share. *)
Abbreviation share_name := (list string).

Class ShareView `{SH : SmbHandles} (W : Type) : Type := {
  names : W → gmap share_name positive;
  data : W → gmap positive bytes;
  doomed : W → gset positive;
  dirs : W → gset share_name;
  is_open : W → File → Prop;
  file_id : File → positive;
  dir_name : Directory → share_name;
  pending : W → Entries → list DirEntry;
  unc_name : UncPath → share_name;
  permits : W → Z;
  locked : W → bool;
  dials : W → nat;
}.

Section Share.
Context `{EX : Externals} `{SC : SmbCrate} `{SH : SmbHandles}.
Context {W : Type} `{H : !Handler smbE W} `{V : !ShareView W}.

(** A request with its answer: [None] when the deadline passed. *)
Definition served {X} (w : W) (r : smbR X) (a : option X) (w' : W) : Prop :=
  (∃ d, handle (Within d r) w = (a, w')) ∨
  (∃ x, a = Some x ∧ handle (Await r) w = (x, w')).

(** The request was answered with [Ok]. *)
Definition granted {A E} (a : option (result A E)) (x : A) : Prop := a = Some (Ok x).

Definition ungranted {A E} (a : option (result A E)) : Prop := ∀ x, a ≠ Some (Ok x).

(** Parts of the state that stay. *)
Definition files_kept (w w' : W) : Prop :=
  names w' = names w ∧ data w' = data w ∧ doomed w' = doomed w.

Definition cells_kept (w w' : W) : Prop :=
  permits w' = permits w ∧ locked w' = locked w.

Definition opens (w : W) (f : File) (w' : W) : Prop :=
  ¬ is_open w f ∧ (∀ g, (is_open w' g ↔ is_open w g ∨ g = f)).

Definition handles_grow (w w' : W) : Prop := ∀ g, is_open w g → is_open w' g.

Definition handles_kept (w w' : W) : Prop := ∀ g, (is_open w' g ↔ is_open w g).

(** A new empty file appears under a name. *)
Definition creates (w : W) (p : share_name) (i : positive) (w' : W) : Prop :=
  names w !! p = None ∧ (∀ q, names w !! q ≠ Some i) ∧ (i ∉ doomed w) ∧
  names w' = <[p:=i]> (names w) ∧ data w' = <[i:=[]]> (data w) ∧ doomed w' = doomed w.

(** The file under a name is cut to nothing. *)
Definition truncates (w : W) (p : share_name) (i : positive) (w' : W) : Prop :=
  names w !! p = Some i ∧ names w' = names w ∧ data w' = <[i:=[]]> (data w) ∧
  doomed w' = doomed w.

(** A marked file goes with its name. *)
Definition drops (w : W) (i : positive) (w' : W) : Prop :=
  i ∈ doomed w ∧ (∀ p, names w !! p = Some i → names w' = delete p (names w)) ∧
  ((∀ p, names w !! p ≠ Some i) → names w' = names w) ∧
  data w' = data w ∧ doomed w' ⊆ doomed w.

Definition moves (w : W) (p to : share_name) (i : positive) (w' : W) : Prop :=
  names w' = <[to:=i]> (delete p (names w)) ∧ data w' = data w ∧ doomed w' = doomed w.

Definition status_of {A} (a : option (result A SmbError)) : option Z :=
  match a with Some (Err e) => smb_status e | _ => None end.

(** The status of the answer to a request that reports one. *)
Definition request_status {X} (r : smbR X) : option X → option Z :=
  match r in smbR X return option X → option Z with
  | ShareConnect _ _ _ _ => status_of
  | CreateFile _ _ _ => status_of
  | Close _ => status_of
  | SetRename _ _ _ => status_of
  | SetDisposition _ => status_of
  | QueryEndOfFile _ => status_of
  | QueryDirectory _ _ => status_of
  | GetConnection _ _ => status_of
  | _ => λ _, None
  end.

(** The requests that change no file and open no handle of one. *)
Definition quiet {X} (r : smbR X) : bool :=
  match r with
  | ShareConnect _ _ _ _ | ReadBlock _ _ _ | QueryEndOfFile _ | QueryDirectory _ _
  | NextEntry _ | GetConnection _ _ | Flush _ | CreateFile _ _ (open_if_directory _)
  | Close (ResourceDirectory _) | Close (ResourcePipe _) => true
  | _ => false
  end.

(** The entries of a directory, as a query delivers them. *)
Record entries_of (w : W) (p : share_name) (l : list DirEntry) : Prop := {
  entries_nodup : NoDup l;
  entries_real : ∀ e, e ∈ l → de_file_name e ≠ "." → de_file_name e ≠ ".." →
    if de_directory e then p ++ [de_file_name e] ∈ dirs w
    else is_Some (names w !! (p ++ [de_file_name e]));
  entries_dirs : ∀ n, p ++ [n] ∈ dirs w → mkDirEntry n true ∈ l;
  entries_files : ∀ n, is_Some (names w !! (p ++ [n])) → mkDirEntry n false ∈ l;
}.

(** The requests of a listing. *)
Definition looks {X} (r : smbR X) : bool :=
  match r with
  | CreateFile _ _ (make_open_existing _) | QueryDirectory _ _ | NextEntry _ | Close _ => true
  | _ => false
  end.

(** The requests that can find a name taken. *)
Definition may_collide {X} (r : smbR X) : bool :=
  match r with CreateFile _ _ make_create_new | SetRename _ _ _ => true | _ => false end.

(** The calls to the server, and the others. *)
Definition remote {X} (e : smbE X) : bool :=
  match e with Within _ _ | Await _ => true | _ => false end.

Definition is_cell {X} (e : smbE X) : bool :=
  match e with
  | TryLockReconnect | UnlockReconnect | NewSemaphore _ | TryAcquire | ReleasePermit => true
  | _ => false
  end.

Definition is_dial {X} (e : smbE X) : bool :=
  match e with
  | Within _ (ShareConnect _ _ _ _) | Await (ShareConnect _ _ _ _) => true
  | _ => false
  end.

Definition not_found_status (s : Z) : Prop := s = ObjectNameNotFound ∨ s = ObjectPathNotFound.
End Share.

Section Laws.
Context `{EX : Externals} `{SC : SmbCrate} `{SH : SmbHandles}.

Class Share (W : Type) `{H : !Handler smbE W} `{V : !ShareView W} : Prop := {
  (** Names and paths. *)
  law_statuses : NoDup statuses;
  law_no_links : ∀ (w : W) p q i, names w !! p = Some i → names w !! q = Some i → p = q;
  law_data : ∀ (w : W) p i, names w !! p = Some i → is_Some (data w !! i);
  (** A component of a name has no separator and is no dot name; a file is in
      a directory, and is none. *)
  law_names : ∀ (w : W) p i, names w !! p = Some i → Forall safe_segment p ∧ p ∉ dirs w;
  law_dirs : ∀ (w : W) p, p ∈ dirs w → Forall safe_segment p;
  law_tree : ∀ (w : W) p n q i, names w !! (p ++ n :: q) = Some i → p ∈ dirs w;
  law_unc_root : ∀ base, unc_name (with_path base "") = [];
  law_unc_name : ∀ base s, key_safe s → unc_name (with_path base s) = split "/" s;
  law_unc_status : ∀ server share e,
    (unc_new server = Err e ∨ ∃ base, with_share base share = Err e) → smb_status e = None;
  (** The side of the backend. *)
  law_local : ∀ X (e : smbE X) w x w', handle e w = (x, w') → remote e = false →
    files_kept w w' ∧ handles_kept w w';
  law_cells : ∀ X (e : smbE X) w x w', handle e w = (x, w') → is_cell e = false →
    cells_kept w w';
  law_dial : ∀ X (e : smbE X) w x w', handle e w = (x, w') →
    dials w' = if is_dial e then S (dials w) else dials w;
  law_try_lock : ∀ w b w', handle TryLockReconnect w = (b, w') →
    b = negb (locked w) ∧ locked w' = true ∧ permits w' = permits w;
  law_unlock : ∀ w x w', handle UnlockReconnect w = (x, w') →
    locked w' = false ∧ permits w' = permits w;
  law_new_semaphore : ∀ n w x w', handle (NewSemaphore n) w = (x, w') →
    locked w' = locked w ∧ permits w' = n;
  law_try_acquire : ∀ w r w', handle TryAcquire w = (r, w') →
    locked w' = locked w ∧
    if decide (0 < permits w) then r = Some (Ok tt) ∧ permits w' = permits w - 1
    else r = None ∧ permits w' = permits w;
  law_release : ∀ w x w', handle ReleasePermit w = (x, w') →
    locked w' = locked w ∧ permits w' = permits w + 1;
  (** Requests. *)
  law_quiet : ∀ X (r : smbR X) w a w', served w r a w' → quiet r = true →
    files_kept w w' ∧ handles_kept w w';
  law_collision : ∀ X (r : smbR X) w a w', served w r a w' →
    request_status r a = Some ObjectNameCollision → may_collide r = true;
  law_directory : ∀ c path access w f w',
    ¬ served w (CreateFile c path (open_if_directory access)) (Some (Ok (ResourceFile f))) w';
  law_connect_status : ∀ cc share user password w a w' s,
    served w (ShareConnect cc share user password) a w' → status_of a = Some s →
    ¬ not_found_status s;
  law_open : ∀ c path access w a w',
    served w (CreateFile c path (make_open_existing access)) a w' →
    files_kept w w' ∧
    (∀ s, status_of a = Some s → not_found_status s →
       names w !! unc_name path = None ∧ unc_name path ∉ dirs w) ∧
    match a with
    | Some (Ok (ResourceFile f)) => names w !! unc_name path = Some (file_id f) ∧ opens w f w'
    | Some (Ok (ResourceDirectory h)) => dir_name h = unc_name path ∧ unc_name path ∈ dirs w ∧
        handles_grow w w'
    | Some (Ok (ResourcePipe _)) => (unc_name path ∉ dirs w) ∧ handles_grow w w'
    | _ => handles_grow w w'
    end;
  law_create_new : ∀ c path w a w', served w (CreateFile c path make_create_new) a w' →
    (status_of a = Some ObjectNameCollision →
     files_kept w w' ∧ (is_Some (names w !! unc_name path) ∨ unc_name path ∈ dirs w)) ∧
    match a with
    | Some (Ok (ResourceFile f)) => creates w (unc_name path) (file_id f) w' ∧ opens w f w'
    | _ => (files_kept w w' ∨ ∃ i, creates w (unc_name path) i w') ∧ handles_grow w w'
    end;
  law_overwrite : ∀ c path w a w', served w (CreateFile c path make_overwrite) a w' →
    match a with
    | Some (Ok (ResourceFile f)) =>
        (creates w (unc_name path) (file_id f) w' ∨ truncates w (unc_name path) (file_id f) w') ∧
        opens w f w'
    | _ => (files_kept w w' ∨ ∃ i, creates w (unc_name path) i w' ∨
                                    truncates w (unc_name path) i w') ∧ handles_grow w w'
    end;
  (** The last handle of a marked file takes the file with it. *)
  law_close : ∀ f w a w', served w (Close (ResourceFile f)) a w' →
    (files_kept w w' ∨ drops w (file_id f) w') ∧
    (∀ g, g ≠ f → (is_open w' g ↔ is_open w g)) ∧ (is_open w' f → is_open w f) ∧
    (∀ x, granted a x → ¬ is_open w' f ∧
       (file_id f ∈ doomed w → (∀ g, is_open w g → g ≠ f → file_id g ≠ file_id f) →
        drops w (file_id f) w'));
  (** A file is at most [2 ^ 63 - 1] bytes long. *)
  law_write : ∀ f b offset w a w', served w (WriteBlock f b offset) a w' →
    names w' = names w ∧ doomed w' = doomed w ∧ handles_kept w w' ∧
    (∀ i, i ≠ file_id f → data w' !! i = data w !! i) ∧
    (is_Some (data w !! file_id f) → is_Some (data w' !! file_id f)) ∧
    (∀ n, granted a n → 0 ≤ n ≤ Z.of_nat (length b) ∧ offset + n ≤ i64_MAX ∧
       ∀ d, data w !! file_id f = Some d → offset = Z.of_nat (length d) →
         data w' !! file_id f = Some (d ++ take (Z.to_nat n) b));
  law_rename : ∀ f to w a w', served w (SetRename f true to) a w' →
    handles_kept w w' ∧
    ((∀ p, names w !! p ≠ Some (file_id f)) → files_kept w w') ∧
    ∀ p, names w !! p = Some (file_id f) →
      (files_kept w w' ∨ moves w p (split BACKSLASH to) (file_id f) w') ∧
      (∀ x, granted a x → moves w p (split BACKSLASH to) (file_id f) w');
  law_disposition : ∀ f w a w', served w (SetDisposition f) a w' →
    names w' = names w ∧ data w' = data w ∧ handles_kept w w' ∧
    (doomed w' = doomed w ∨ doomed w' = {[file_id f]} ∪ doomed w) ∧
    (∀ x, granted a x → file_id f ∈ doomed w');
  (** Listing. *)
  law_looks : ∀ X (r : smbR X) w a w', served w r a w' → looks r = true → dirs w' = dirs w;
  law_read_client : ∀ w x w', handle ReadClient w = (x, w') → dirs w' = dirs w;
  law_query : ∀ h w es w', served w (QueryDirectory h "*") (Some (Ok es)) w' →
    dir_name h ∈ dirs w → entries_of w (dir_name h) (pending w' es);
  law_next : ∀ es w x es' w', served w (NextEntry es) (Some (x, es')) w' →
    match x with
    | None => pending w es = []
    | Some (Ok e) => pending w es = e :: pending w' es'
    | Some (Err _) => True
    end;
  (** Reading. *)
  law_size : ∀ f w n w', served w (QueryEndOfFile f) (Some (Ok n)) w' →
    ∀ d, data w !! file_id f = Some d → n = Z.of_nat (length d) ∧ n ≤ i64_MAX;
  law_read : ∀ f len offset w b w', served w (ReadBlock f len offset) (Some (Ok b)) w' →
    Z.of_nat (length b) ≤ len ∧
    ∀ d, data w !! file_id f = Some d → b `prefix_of` drop (Z.to_nat offset) d;
}.
End Laws.
