(* ===== verification/SmbCalls.v ===== *)
(** * The SMB provider: what the shared operations do

    Timeouts, reconnection, parent directories, opening and removing a file,
    against the share of SmbServer.v. *)
From S2P Require Import Prelude Text Errors Providers Externals Keys Effects Streams BlobStore Smb SmbFacts SmbStore SmbServer.
From Stdlib Require Import Ascii.

Section Calls.
Context `{EX : Externals} `{XL : !ExternalsLaws} `{SC : SmbCrate} `{SH : SmbHandles}.
Context {W : Type} `{H : !Handler smbE W} `{V : !ShareView W} `{S : !Share W}.

(** ** Kept parts *)

#[export] Instance files_kept_preorder : PreOrder (files_kept (W := W)).
Proof.
  split; [done|]. intros w1 w2 w3 (A1 & A2 & A3) (B1 & B2 & B3). unfold files_kept.
  by rewrite B1, B2, B3.
Qed.

#[export] Instance cells_kept_preorder : PreOrder (cells_kept (W := W)).
Proof.
  split; [done|]. intros w1 w2 w3 (A1 & A2) (B1 & B2). unfold cells_kept. by rewrite B1, B2.
Qed.

#[export] Instance handles_grow_preorder : PreOrder (handles_grow (W := W)).
Proof. split; [by intros w g|]. intros w1 w2 w3 A B g Hg. by apply B, A. Qed.

Lemma handles_kept_grow (w w' : W) : handles_kept w w' → handles_grow w w'.
Proof. intros Hk g Hg. by apply Hk. Qed.

(** Nothing of the share and of the cells changed, handles may be open. *)
Definition idle (w w' : W) : Prop := files_kept w w' ∧ cells_kept w w' ∧ handles_grow w w'.

#[export] Instance idle_preorder : PreOrder idle.
Proof.
  split; [by intros w|]. intros w1 w2 w3 (A1 & A2 & A3) (B1 & B2 & B3).
  split_and!; by etrans.
Qed.

Lemma idle_local {X} (e : smbE X) w x w' :
  handle e w = (x, w') → remote e = false → is_cell e = false → idle w w'.
Proof.
  intros E Hr Hc. destruct (law_local _ e w x w' E Hr) as [Hf Hh].
  split_and!; [done|by eapply law_cells|by apply handles_kept_grow].
Qed.

Lemma served_cells {X} (r : smbR X) w a w' : served w r a w' → cells_kept w w'.
Proof. intros [[d E]|(x & _ & E)]; by eapply law_cells. Qed.

Lemma idle_quiet {X} (r : smbR X) w a w' : served w r a w' → quiet r = true → idle w w'.
Proof.
  intros E Hq. destruct (law_quiet _ r w a w' E Hq) as [Hf Hh].
  split_and!; [done|by eapply served_cells|by apply handles_kept_grow].
Qed.

(** ** Single calls *)

Lemma local_twp {X} (e : smbE X) (Q : X → W → Prop) w :
  remote e = false → is_cell e = false → (∀ x w', idle w w' → Q x w') → twp (call e) Q w.
Proof.
  intros Hr Hc HQ. unfold call. wp_vis x w1 E. wp_ret. apply HQ. by eapply idle_local.
Qed.

Lemma local_dial_twp {X} (e : smbE X) (Q : X → W → Prop) w :
  remote e = false → is_cell e = false → (∀ x w', idle w w' → dials w' = dials w → Q x w') →
  twp (call e) Q w.
Proof.
  intros Hr Hc HQ. unfold call. wp_vis x w1 E. wp_ret. apply HQ; [by eapply idle_local|].
  pose proof (law_dial _ _ _ _ _ E) as D. by destruct e.
Qed.

Lemma await_twp {X} (r : smbR X) (Q : X → W → Prop) w :
  (∀ x w', served w r (Some x) w' → Q x w') → twp (call (Await r)) Q w.
Proof. intros HQ. unfold call. wp_vis x w1 E. wp_ret. apply HQ. right. eauto. Qed.

Lemma within_twp {X} d (r : smbR X) (Q : option X → W → Prop) w :
  (∀ a w', served w r a w' → Q a w') → twp (call (Within d r)) Q w.
Proof. intros HQ. unfold call. wp_vis x w1 E. wp_ret. apply HQ. left. eauto. Qed.

(** An error and the answer it was made of. *)
Definition error_of {A} (a : option (result A SmbError)) (e : StorageError) : Prop :=
  ungranted a ∧
  (is_not_found e = true → ∃ s, status_of a = Some s ∧ not_found_status s) ∧
  (is_collision e = true → status_of a = Some ObjectNameCollision).

Lemma error_of_map operation {A} (e : SmbError) :
  error_of (Some (Err e : result A SmbError)) (map_smb_error operation e).
Proof.
  destruct (map_smb_error_classes operation e law_statuses) as [H1 H2].
  split; [by intros x|]. split; [|apply H2]. intros Hs%H1. destruct Hs as [Hs|Hs]; simpl;
    (eexists; split; [exact Hs|]); [by left|by right].
Qed.

Lemma error_of_timeout operation {A} : error_of (None : option (result A SmbError)) (timed_out operation).
Proof. by split. Qed.

Lemma with_timeout_twp self {A} operation (r : smbR (result A SmbError))
    (Q : storage_result A → W → Prop) w :
  (∀ a w', served w r a w' → match a with
     | Some (Ok x) => Q (Ok x) w'
     | _ => ∀ e, error_of a e → Q (Err e) w'
     end) →
  twp (with_timeout self operation r) Q w.
Proof.
  intros HQ. unfold with_timeout. wp_bind. apply within_twp. intros a w' Hs. specialize (HQ a w' Hs).
  destruct a as [[x|e]|]; wp_ret; [done|apply HQ, error_of_map|apply HQ, error_of_timeout].
Qed.
(** ** Reconnection *)

Context (self : SmbStorageBackend).

(** An error that tells nothing of a path. *)
Definition pathless (e : StorageError) : Prop := is_not_found e = false ∧ is_collision e = false.

Lemma pathless_of {A} (r : smbR (result A SmbError)) w a w' e :
  served w r a w' → error_of a e → request_status r a = status_of a → may_collide r = false →
  (∀ s, status_of a = Some s → ¬ not_found_status s) → pathless e.
Proof.
  intros Hs (_ & H1 & H2) He Hc Hn. split.
  - destruct (is_not_found e); [|done]. destruct (H1 eq_refl) as (s & Hst & Hns). by destruct (Hn s Hst).
  - destruct (is_collision e); [|done]. specialize (H2 eq_refl).
    rewrite <- He in H2. rewrite (law_collision _ r w a w' Hs H2) in Hc. done.
Qed.

Lemma unc_share_err operation config e : unc_share operation config = Err e → pathless e.
Proof.
  unfold unc_share. intros E.
  assert (∃ x, e = map_smb_error operation x ∧ smb_status x = None) as (x & -> & Hx).
  { destruct (unc_new (smb_server config)) as [base|x] eqn:E1; simpl in E.
    - destruct (with_share base _) as [p|x] eqn:E2; [done|]. injection E as <-.
      exists x. split; [done|]. apply (law_unc_status (smb_server config) (smb_share config)). right. eauto.
    - injection E as <-. exists x. split; [done|]. apply (law_unc_status (smb_server config) (smb_share config)). by left. }
  destruct (map_smb_error_classes operation x law_statuses) as [H1 H2].
  rewrite Hx in H1, H2. split; apply not_true_is_false; [rewrite H1|rewrite H2]; naive_solver.
Qed.

(** A new connection: one dial at most, no other effect. *)
Lemma connect_client_twp config w :
  twp (connect_client config) (λ r w', idle w w' ∧ (dials w <= dials w' <= 1 + dials w)%nat ∧
    match r with Ok _ => (dials w < dials w')%nat | Err e => pathless e end) w.
Proof.
  unfold connect_client. destruct (unc_share "connect" config) as [share|e] eqn:Eu.
  2: { wp_ret. split; [done|]. split; [lia|by eapply unc_share_err]. }
  wp_bind. unfold call. wp_vis a w1 E.
  assert (Hd := law_dial _ _ _ _ _ E). simpl in Hd.
  match type of E with handle (Within _ ?r) _ = _ => assert (Hs : served w r a w1) by (left; eauto) end.
  assert (Hi : idle w w1) by by eapply idle_quiet. wp_ret.
  destruct a as [[c|x]|]; wp_ret; (split; [done|]; split; [lia|]); [simpl; lia| |done].
  eapply (pathless_of _ w _ w1); [exact Hs|apply error_of_map|done|done|].
  intros s Hst. by eapply law_connect_status.
Qed.

Lemma reconnect_attempts_twp delays last w :
  (∀ e, last = Some e → pathless e ∧ is_retryable e = true) →
  twp (reconnect_attempts self delays last) (λ r w', idle w w' ∧
    (dials w' <= length delays + dials w)%nat ∧
    match r with Ok _ => (dials w < dials w')%nat | Err e => pathless e end) w.
Proof.
  revert last w. induction delays as [|delay delays IH]; intros last w Hlast; cbn [reconnect_attempts].
  - wp_ret. split_and!; [done|simpl; lia|]. destruct last as [e|]; simpl; [by apply Hlast|done].
  - wp_bind. apply local_dial_twp; [done..|]. intros u w1 I1 D1.
    wp_bind. apply local_dial_twp; [done..|]. intros _ w2 I2 D2. wp_bind. eapply twp_mono; [apply connect_client_twp|].
    intros [client|e] w3 (I3 & D3 & Hr); assert (I : idle w w3) by (etrans; [done|by etrans]).
    + wp_bind. apply local_dial_twp; [done..|]. intros _ w4 I4 D4. wp_ret.
      split_and!; [by etrans|simpl; lia|simpl in *; lia].
    + destruct (is_retryable e) eqn:Er; simpl.
      * eapply twp_mono; [apply IH; by intros ? [= <-]|]. intros r w4 (I4 & D4 & Hr4).
        split_and!; [by etrans|lia|destruct r; [simpl in *; lia|done]].
      * wp_ret. split_and!; [done|simpl; lia|done].
Qed.

(** A lock that is free is granted at once. *)
Lemma lock_reconnect_twp w :
  locked w = false →
  twp lock_reconnect (λ _ w', files_kept w w' ∧ handles_grow w w' ∧ permits w' = permits w ∧
    locked w' = true ∧ dials w' = dials w) w.
Proof.
  intros Hl. unfold lock_reconnect, loop. apply twp_iter. wp_bind. unfold call. wp_vis b w1 E. wp_ret.
  destruct (law_try_lock _ _ _ E) as (-> & Hl1 & Hp). rewrite Hl. simpl.
  pose proof (law_dial _ _ _ _ _ E) as D. simpl in D.
  destruct (law_local _ _ _ _ _ E eq_refl) as [Hf Hh]. wp_ret. simpl. wp_ret.
  split_and!; [done|by apply handles_kept_grow|done..].
Qed.

Lemma reconnect_twp w :
  locked w = false →
  twp (reconnect_with_backoff self) (λ r w', idle w w' ∧ (dials w' <= 3 + dials w)%nat ∧
    match r with Ok _ => (dials w < dials w')%nat | Err e => pathless e end) w.
Proof.
  intros Hl. unfold reconnect_with_backoff. wp_bind.
  eapply twp_mono; [by apply lock_reconnect_twp|]. intros _ w1 (F1 & G1 & P1 & L1 & D1).
  wp_bind. eapply twp_mono; [by apply reconnect_attempts_twp|].
  intros r w2 ((F2 & [P2 L2] & G2) & D2 & Hr). wp_bind. unfold call. wp_vis x w3 E. wp_ret. wp_ret.
  destruct (law_unlock _ _ _ E) as [L3 P3]. pose proof (law_dial _ _ _ _ _ E) as D3. simpl in D3.
  destruct (law_local _ _ _ _ _ E eq_refl) as [F3 G3].
  split_and!; [|simpl in *; lia|destruct r; [simpl in *; lia|done]]. split_and!.
  - etrans; [done|by etrans].
  - split; congruence.
  - etrans; [done|]. etrans; [done|by apply handles_kept_grow].
Qed.

(** C24: [reconnect_with_backoff] ends.  When the lock is free it connects at
    most three times, succeeds only with a new connection, gives the lock back
    and changes nothing of the share; its error is never taken for a missing
    path or a collision.  While another task holds the lock it waits. *)
Theorem smb_reconnect_spec w :
  (locked w = false →
   twp (reconnect_with_backoff self) (λ r w', files_kept w w' ∧ cells_kept w w' ∧
     (dials w' <= 3 + dials w)%nat ∧
     match r with
     | Ok _ => (dials w < dials w')%nat
     | Err e => is_not_found e = false ∧ is_collision e = false
     end) w) ∧
  (locked w = true → ∀ r w', ¬ runs (reconnect_with_backoff self) w r w').
Proof.
  split.
  - intros Hl. eapply twp_mono; [by apply reconnect_twp|]. intros r w' ((F & Hc & _) & D & Hr). done.
  - intros Hl r w'. apply (iter_never (λ _ w, locked w = true)); [done|].
    intros [] w1 x w2 L1 Hx. apply runs_bind in Hx as (b & w3 & Hb & Hx). unfold call in Hb.
    apply runs_vis in Hb. destruct (handle TryLockReconnect w1) as [y w4] eqn:E.
    apply runs_ret in Hb as [-> ->]. simpl in *. destruct (law_try_lock _ _ _ E) as (-> & L & _).
    rewrite L1 in Hx. apply runs_ret in Hx as [-> ->]. by exists tt.
Qed.

(** ** Names on the share *)

(** The name of a key: the components of the root prefix and of the key. *)
Definition key_name (key : string) : share_name :=
  match smb_root_prefix (smb_config self) with
  | Some prefix => split "/" prefix ++ split "/" key
  | None => split "/" key
  end.

Lemma key_name_inj key key' : key_name key = key_name key' → key = key'.
Proof.
  unfold key_name. destruct (smb_root_prefix _) as [p|]; [intros E%app_inv_head|intros E];
    by apply split_inj in E.
Qed.

Context (C : config_ok (smb_config self)).

Lemma mapped_key_Ok key :
  key_safe key → ∃ m, mapped_key (config self) key = Ok m ∧ key_safe m ∧ split "/" m = key_name key.
Proof.
  intros Hk. unfold mapped_key, key_name, config. rewrite (validate_blob_key_safe _ Hk).
  destruct (smb_root_prefix (smb_config self)) as [p|] eqn:Ep; [|eauto].
  eexists. split; [done|]. change (p +:+ "/" +:+ key) with (p +:+ String "/" key).
  unfold key_safe. rewrite split_app. split; [|done]. apply Forall_app.
  split; [by eapply ok_prefix|done].
Qed.

Lemma remote_path_cases key :
  key_safe key →
  match remote_path self key with
  | Ok path => unc_name path = key_name key
  | Err e => pathless e
  end.
Proof.
  intros Hk. unfold remote_path, share_path.
  destruct (unc_share "path" (config self)) as [base|e] eqn:Eu; [|by eapply unc_share_err].
  destruct (mapped_key_Ok key Hk) as (m & -> & Hm & <-). by apply law_unc_name.
Qed.

(** A program that changes nothing of the share and reports what it does. *)
Definition idle_result {A} (w : W) (r : storage_result A) (w' : W) : Prop :=
  idle w w' ∧ match r with Ok _ => True | Err e => is_collision e = false end.

Lemma ensure_segments_twp client base current segments w :
  twp (ensure_segments self client base current segments) (idle_result w) w.
Proof.
  revert current w. induction segments as [|x segments IH]; intros current w; cbn [ensure_segments].
  { wp_ret. by split. }
  wp_bind. apply with_timeout_twp. intros a w1 Hs.
  assert (I1 : idle w w1) by by eapply idle_quiet.
  assert (Hcol : ∀ e, error_of a e → is_collision e = false).
  { intros e (_ & _ & Hc). destruct (is_collision e); [|done]. specialize (Hc eq_refl).
    pose proof (law_collision _ _ _ _ _ Hs Hc) as Hm. done. }
  destruct a as [[resource|x']|]; [|by intros e He; wp_ret; split; auto..].
  wp_bind. unfold close_resource. apply await_twp. intros r w2 Hs2.
  assert (I2 : idle w1 w2).
  { eapply idle_quiet; [exact Hs2|]. destruct resource as [f| |]; [|done..].
    by destruct (law_directory _ _ _ _ _ _ Hs). }
  destruct r as [[]|e]; simpl.
  - eapply twp_mono; [apply IH|]. intros r w3 [I3 Hr]. split; [|done]. etrans; [done|by etrans].
  - wp_ret. split; [by etrans|].
    destruct (is_collision (map_smb_error "close" e)) eqn:Ec; [|done].
    apply (proj2 (map_smb_error_classes "close" e law_statuses)) in Ec.
    pose proof (law_collision _ (Close resource) _ (Some (Err e)) _ Hs2 Ec) as Hm. done.
Qed.

Lemma ensure_parent_twp key w :
  key_safe key → twp (ensure_parent_directories self key) (idle_result w) w.
Proof.
  intros Hk. unfold ensure_parent_directories. destruct (mapped_key_Ok key Hk) as (m & -> & _).
  destruct (rsplit_once "/" m) as [[parent name]|]; [|by wp_ret].
  unfold ensure_directories. wp_bind. apply local_twp; [done..|]. intros client w1 I1.
  destruct (share_path self) as [base|e] eqn:Eu.
  2: { wp_ret. split; [done|]. by eapply unc_share_err in Eu as [_ ?]. }
  eapply twp_mono; [apply ensure_segments_twp|]. intros r w2 [I2 Hr]. split; [by etrans|done].
Qed.
(** ** Opening and removing *)

(** An attempt to open a file. *)
Definition attempted (p : share_name) (w : W) (r : storage_result Resource) (w' : W) : Prop :=
  idle w w' ∧
  match r with
  | Ok (ResourceFile f) => names w !! p = Some (file_id f) ∧ is_open w' f
  | Ok _ => True
  | Err e => is_collision e = false ∧ (is_not_found e = true → names w !! p = None)
  end.

Lemma attempt_twp client path access w :
  twp (with_timeout self "open" (CreateFile client path (make_open_existing access)))
    (attempted (unc_name path) w) w.
Proof.
  apply with_timeout_twp. intros a w1 Hs. pose proof (served_cells _ _ _ _ Hs) as Hc.
  destruct (law_open _ _ _ _ _ _ Hs) as (Hf & Hn & Hr).
  assert (Herr : ∀ e, handles_grow w w1 → error_of a e → attempted (unc_name path) w (Err e) w1).
  { intros e G (_ & H1 & H2). split; [done|]. split.
    - destruct (is_collision e); [|done]. specialize (H2 eq_refl).
      pose proof (law_collision _ _ _ _ _ Hs H2) as Hm. done.
    - intros Hnf. destruct (H1 Hnf) as (s & Hst & Hns). by apply (Hn s). }
  destruct a as [[[f|d|pi]|e]|]; [|by destruct Hr as (_ & _ & ?); split|by destruct Hr as [_ ?]; split|by intros; apply Herr..].
  destruct Hr as [Hname [Hno Hop]]. split.
  - split_and!; [done|done|]. intros g Hg. apply Hop. by left.
  - split; [done|]. apply Hop. by right.
Qed.

Lemma attempted_idle p w w1 r w2 : idle w w1 → attempted p w1 r w2 → attempted p w r w2.
Proof.
  intros I [I2 Hr]. split; [by etrans|]. destruct I as [(Hn & _) _]. by rewrite Hn in Hr.
Qed.

Definition opened (p : share_name) (w : W) (r : storage_result File) (w' : W) : Prop :=
  idle w w' ∧
  match r with
  | Ok f => names w !! p = Some (file_id f) ∧ is_open w' f
  | Err e => is_collision e = false ∧ (is_not_found e = true → names w !! p = None)
  end.

Lemma open_file_twp key access w :
  key_safe key → locked w = false →
  twp (open_file self key access) (opened (key_name key) w) w.
Proof.
  intros Hk Hl. unfold open_file. pose proof (remote_path_cases key Hk) as Hp.
  destruct (remote_path self key) as [path|e].
  2: { wp_ret. destruct Hp as [Hnf Hc]. split; [done|]. split; [done|]. by rewrite Hnf. }
  wp_bind. apply local_twp; [done..|]. intros client w1 I1. wp_bind.
  eapply twp_mono; [apply attempt_twp|]. intros first w2 A1.
  apply (attempted_idle _ w) in A1; [|done]. rewrite Hp in A1. wp_bind.
  apply (twp_mono _ (attempted (key_name key) w)).
  - destruct first as [resource|e]; [by wp_ret|].
    destruct (is_retryable e) eqn:Er; [|by wp_ret]. wp_bind.
    assert (Hl2 : locked w2 = false) by (destruct A1 as [(_ & [_ L] & _) _]; congruence).
    eapply twp_mono; [by apply reconnect_twp|]. intros [[]|e'] w3 (I3 & _ & Hr).
    + wp_bind. apply local_twp; [done..|]. intros client' w4 I4.
      eapply twp_mono; [apply attempt_twp|]. intros r w5 A2. rewrite Hp in A2.
      eapply attempted_idle; [|exact A2]. destruct A1 as [I _]. by do 2 (etrans; [done|]).
    + wp_ret. destruct Hr as [Hnf Hc], A1 as [I _]. split; [by etrans|]. split; [done|].
      by rewrite Hnf.
  - intros [resource|e] w3 [I A]; [|by wp_ret].
    destruct resource as [f|d|pi]; [by wp_ret| |]; wp_bind; apply await_twp; intros r w4 Hs; wp_ret;
      (split; [etrans; [done|by eapply idle_quiet]|done]).
Qed.

Lemma close_file_twp f (Q : storage_result unit → W → Prop) w :
  (∀ a w', served w (Close (ResourceFile f)) a w' → match a with
     | Some (Ok tt) => Q (Ok tt) w'
     | _ => ∀ e, is_collision e = false → Q (Err e) w'
     end) →
  twp (close_file self f) Q w.
Proof.
  intros HQ. unfold close_file. apply with_timeout_twp. intros a w1 Hs. specialize (HQ a w1 Hs).
  assert (Hc : ∀ e, error_of a e → is_collision e = false).
  { intros e (_ & _ & H2). destruct (is_collision e); [|done]. specialize (H2 eq_refl).
    pose proof (law_collision _ _ _ _ _ Hs H2) as Hm. done. }
  destruct a as [[[]|e]|]; [done|..]; intros e0 He0; apply HQ; by apply Hc.
Qed.
(** What the removal of the name [p] may do. *)
Definition removes (p : share_name) (w w' : W) : Prop :=
  cells_kept w w' ∧ data w' = data w ∧
  (names w' = names w ∨ names w' = delete p (names w)) ∧
  (∀ j, j ∈ doomed w' → j ∈ doomed w ∨ names w !! p = Some j).

Lemma removes_idle p w w' : idle w w' → removes p w w'.
Proof.
  intros ((Hn & Hd & Hdo) & Hc & _). split_and!; [done|done|by left|].
  rewrite Hdo. by left.
Qed.

Lemma removes_trans p w1 w2 w3 : removes p w1 w2 → removes p w2 w3 → removes p w1 w3.
Proof.
  intros (C1 & D1 & N1 & O1) (C2 & D2 & N2 & O2). split_and!.
  - by etrans.
  - congruence.
  - destruct N1 as [N1|N1], N2 as [N2|N2]; rewrite N2, N1; auto.
    right. by rewrite delete_delete_eq.
  - intros j [Hj|Hj]%O2; [by apply O1|]. destruct N1 as [N1|N1]; rewrite N1 in Hj; [by right|].
    by rewrite lookup_delete_eq in Hj.
Qed.

Lemma close_removes p f w a w' :
  served w (Close (ResourceFile f)) a w' → names w !! p = Some (file_id f) → removes p w w'.
Proof.
  intros Hs Hp. pose proof (served_cells _ _ _ _ Hs) as Hc.
  destruct (law_close _ _ _ _ Hs) as ([(Hn & Hd & Hdo)|(Hi & Hn & _ & Hd & Hdo)] & _).
  - split_and!; [done|done|by left|]. rewrite Hdo. by left.
  - split_and!; [done|done|right; by apply Hn|]. left. by apply Hdo.
Qed.

Lemma remove_file_twp key w :
  key_safe key → locked w = false →
  twp (remove_file self key) (λ r w', removes (key_name key) w w' ∧
    match r with
    | Ok _ => (∀ f, is_open w' f → names w !! key_name key ≠ Some (file_id f)) →
        names w' !! key_name key = None
    | Err e => is_not_found e = false ∨ names w !! key_name key ≠ None
    end) w.
Proof.
  intros Hk Hl. set (p := key_name key). unfold remove_file. wp_bind.
  eapply twp_mono; [by apply open_file_twp|]. intros [f|e] w1 [I1 Ho].
  2: { destruct Ho as [_ Hnf]. destruct (is_not_found e) eqn:En; wp_ret; split; [by apply removes_idle| |
         by apply removes_idle|by left].
       intros _. destruct I1 as [(-> & _) _]. by apply Hnf. }
  destruct Ho as [Hp Hop]. fold p in Hp. pose proof I1 as ((Hn1 & _) & _).
  assert (R1 : removes p w w1) by by apply removes_idle.
  wp_bind. apply with_timeout_twp. intros a w2 Hs2.
  destruct (law_disposition _ _ _ _ Hs2) as (Hn2 & Hd2 & Hh2 & Hdo2 & Hg2).
  assert (R2 : removes p w1 w2).
  { split_and!; [by eapply served_cells|done|by left|]. intros j Hj. rewrite Hn1.
    destruct Hdo2 as [Hdo2|Hdo2]; rewrite Hdo2 in Hj; [by left|].
    apply elem_of_union in Hj as [->%elem_of_singleton|Hj]; [by right|by left]. }
  assert (Hend : ∀ r : storage_result unit, (is_ok r = true → ∃ x, granted a x) →
    twp (let* close_result := close_file self f in Ret (result_and r close_result))
      (λ r w', removes p w w' ∧ match r with
        | Ok _ => (∀ g, is_open w' g → names w !! p ≠ Some (file_id g)) → names w' !! p = None
        | Err e => is_not_found e = false ∨ names w !! p ≠ None
        end) w2).
  { intros r Hr. wp_bind. apply close_file_twp. intros a3 w3 Hs3.
    assert (R3 : removes p w2 w3) by (eapply close_removes; [exact Hs3|by rewrite Hn2, Hn1]).
    assert (R : removes p w w3) by (eapply removes_trans; [done|by eapply removes_trans]).
    assert (Hne : names w !! p ≠ None) by congruence.
    destruct a3 as [[[]|x]|]; [|by intros; wp_ret; split; [|destruct r; right]..].
    wp_ret. split; [done|]. destruct r as [[]|e]; simpl; [|by right]. intros Hno.
    destruct (Hr eq_refl) as [x Hx]. specialize (Hg2 x Hx).
    destruct (law_close _ _ _ _ Hs3) as (_ & Hoth & _ & Hclose).
    destruct (Hclose tt eq_refl) as [_ Hdrop]. destruct Hdrop as (_ & Hdel & _); [done| |].
    - intros g Hg Hgf Hid. destruct (Hno g); [by apply Hoth|]. congruence.
    - rewrite (Hdel p) by congruence. apply lookup_delete_eq. }
  destruct a as [[[]|x]|]; [apply Hend; by eexists|..]; intros e He; by apply Hend.
Qed.
End Calls.
