(* ===== verification/SmbWrite.v ===== *)
(** * The SMB provider: writing a file

    [write_file] against the share of SmbServer.v: the loops, the clean-up after
    a failure, the permit, and what is left under the name. *)
From S2P Require Import Prelude Text Errors Providers Externals Keys Effects Streams BlobStore Smb SmbFacts SmbStore SmbServer SmbCalls.
From Stdlib Require Import Ascii.

Section Write.
Context `{EX : Externals} `{XL : !ExternalsLaws} `{SC : SmbCrate} `{SH : SmbHandles}.
Context {W : Type} `{H : !Handler smbE W} `{V : !ShareView W} `{S : !Share W}.
Context (self : SmbStorageBackend) (C : config_ok (smb_config self)).

(** What a write may have done to the permits and the lock: a relation that
    looks at the difference of the permits, and says that the lock is as
    before. *)
Class SideKept (K : W → W → Prop) : Prop := {
  side_shift : ∀ n w w1 w2 w3, permits w1 = permits w - n → locked w1 = locked w → K w1 w2 →
    permits w3 = permits w2 + n → locked w3 = locked w2 → K w w3;
  side_locked : ∀ a b, K a b → locked b = locked a;
}.

#[export] Instance side_cells : SideKept cells_kept.
Proof. split; [intros n w w1 w2 w3 ?? [??] ??; split; [lia|congruence]|by intros a b [_ ?]]. Qed.

(** A permit came back: that of a stream that ended or was dropped. *)
Definition given_back (w w' : W) : Prop := permits w' = permits w + 1 ∧ locked w' = locked w.

#[export] Instance side_given_back : SideKept given_back.
Proof. split; [intros n w w1 w2 w3 ?? [??] ??; split; [lia|congruence]|by intros a b [_ ?]]. Qed.

Lemma side_step K `{!SideKept K} a b c : K a b → cells_kept b c → K a c.
Proof. intros Hk [??]. eapply (side_shift 0); [..|exact Hk| |]; [lia|done|lia|done]. Qed.

Lemma side_after K `{!SideKept K} a b c : cells_kept a b → K b c → K a c.
Proof. intros [??] Hk. eapply (side_shift 0); [..|exact Hk| |]; [lia|done|lia|done]. Qed.

Section Own.
Context {K : W → W → Prop} `{SK : !SideKept K}.

(** Since [w0] only the name [p] and the file [i], new in it, were touched. *)
Record own_in (p : share_name) (i : positive) (w0 w : W) : Prop := {
  own_new : ∀ q, names w0 !! q ≠ Some i;
  own_cells : K w0 w;
  own_names : ∀ q, q ≠ p → names w !! q = names w0 !! q;
  own_name : names w !! p = None ∨ names w !! p = Some i;
  own_data : ∀ j, j ≠ i → data w !! j = data w0 !! j;
  own_doomed : ∀ j, j ∈ doomed w → j ∈ doomed w0 ∨ j = i;
}.

(** The file holds [d] under its name. *)
Definition holding_in (p : share_name) (i : positive) (w0 : W) (d : bytes) (w : W) : Prop :=
  own_in p i w0 w ∧ names w !! p = Some i ∧ data w !! i = Some d ∧ i ∉ doomed w.

Abbreviation own := own_in.
Abbreviation holding := holding_in.

Lemma own_removes p i w0 w w' : own p i w0 w → removes p w w' → own p i w0 w'.
Proof.
  intros [E0 C0 N0 M0 D0 O0] (C1 & D1 & N1 & O1). constructor; [done|..].
  - by eapply side_step.
  - intros q Hq. destruct N1 as [->| ->]; [by apply N0|]. rewrite lookup_delete_ne by done. by apply N0.
  - destruct N1 as [->| ->]; [done|left; apply lookup_delete_eq].
  - intros j Hj. rewrite D1. by apply D0.
  - intros j [Hj|Hj]%O1; [by apply O0|]. right. destruct M0; congruence.
Qed.

Lemma own_idle p i w0 w w' : own p i w0 w → idle w w' → own p i w0 w'.
Proof. intros O I. eapply own_removes; [done|by apply removes_idle]. Qed.

Lemma own_locked p i w0 w : own p i w0 w → locked w0 = false → locked w = false.
Proof. intros [_ L%side_locked]. congruence. Qed.

Lemma holding_idle p i w0 d w w' : holding p i w0 d w → idle w w' → holding p i w0 d w'.
Proof.
  intros (O & N & D & X) I. pose proof I as ((Hn & Hd & Hx) & _).
  split; [by eapply own_idle|]. by rewrite Hn, Hd, Hx.
Qed.

(** Closing leaves a file that is not marked alone. *)
Lemma holding_close p i w0 d w f a w' :
  holding p i w0 d w → file_id f = i → served w (Close (ResourceFile f)) a w' →
  holding p i w0 d w'.
Proof.
  intros (O & N & D & X) <- Hs.
  assert (R : removes p w w') by by eapply close_removes.
  split; [by eapply own_removes|].
  destruct (law_close _ _ _ _ Hs) as ([(Hn & Hd & Hx)|(Hi & _)] & _); [|done].
  by rewrite Hn, Hd, Hx.
Qed.

Lemma own_close p i w0 w f a w' :
  own p i w0 w → file_id f = i → served w (Close (ResourceFile f)) a w' → own p i w0 w'.
Proof.
  intros O <- Hs. pose proof (served_cells _ _ _ _ Hs) as Hc.
  destruct (law_close _ _ _ _ Hs) as ([Hf|(Hi & Hn1 & Hn2 & Hd & Hx)] & _).
  - destruct Hf as (Hn & Hd & Hx), O as [E0 C0 N0 M0 D0 O0].
    constructor; [done|by eapply side_step|by rewrite Hn|by rewrite Hn|by rewrite Hd|by rewrite Hx].
  - destruct (own_name _ _ _ _ O) as [Hp|Hp]; [|eapply own_removes; [exact O|by eapply close_removes]].
    destruct O as [E0 C0 N0 M0 D0 O0]. assert (Hn : names w' = names w).
    { apply Hn2. intros q Hq. destruct (decide (q = p)) as [->|Hne]; [congruence|].
      apply (E0 q). by rewrite <- N0. }
    constructor; [done|by eapply side_step|by rewrite Hn|by rewrite Hn|by rewrite Hd|].
    intros j Hj%Hx. by apply O0.
Qed.

(** ** Cleaning up *)

Lemma cleanup_twp key f i w0 w :
  key_safe key → locked w0 = false → file_id f = i → own (key_name self key) i w0 w →
  twp (cleanup_failed_write self key f) (λ _ w', own (key_name self key) i w0 w') w.
Proof.
  intros Hk Hl Hf O. unfold cleanup_failed_write. wp_bind.
  apply (twp_mono _ (λ _ w', own (key_name self key) i w0 w')).
  - apply close_file_twp. intros a w1 Hs. pose proof (own_close _ _ _ _ _ _ _ O Hf Hs) as O1.
    destruct a as [[[]|x]|]; [done|by intros..].
  - intros _ w1 O1. wp_bind. eapply twp_mono.
    + apply remove_file_twp; [done|done|by eapply own_locked].
    + intros _ w2 [R _]. wp_ret. by eapply own_removes.
Qed.

Lemma fail_write_twp {T A : Type} key f i w0 w e (Q : T + storage_result A → W → Prop) :
  key_safe key → locked w0 = false → file_id f = i → own (key_name self key) i w0 w →
  (∀ w', own (key_name self key) i w0 w' → Q (inr (Err e)) w') →
  twp (fail_write self key f e) Q w.
Proof.
  intros Hk Hl Hf O HQ. unfold fail_write. wp_bind. eapply twp_mono; [by apply cleanup_twp|].
  intros u w' O'. wp_ret. by apply HQ.
Qed.

(** ** The loops *)

(** What a step of a write leaves: the file with the content [d], or an error
    and whatever is left under the name. *)
Definition written {A} (p : share_name) (i : positive) (w0 : W) (r : storage_result A)
    (d : A → bytes) (ok_error : StorageError → Prop) (w : W) : Prop :=
  match r with
  | Ok x => holding p i w0 (d x) w
  | Err e => own p i w0 w ∧ ok_error e
  end.

(** The counters after a block do not wrap: a file is at most [i64_MAX] bytes
    long. *)
Lemma block_advance n len count :
  0 ≤ n → 0 ≤ len → 0 ≤ count → len + n + count ≤ i64_MAX →
  usize_add n count = n + count ∧
  u64_saturating_add (len + n) (default u64_MAX (u64_try_from count)) = len + (n + count).
Proof.
  unfold usize_add, u64_try_from, u64_saturating_add, i64_MAX. intros ????.
  rewrite Z.mod_small, (proj2 (Z.leb_le 0 count)), (proj2 (Z.leb_le count u64_MAX))
    by (unfold u64_MAX; lia). simpl. unfold u64_MAX. lia.
Qed.

Lemma block_loop key f i w0 chunk d w :
  key_safe key → locked w0 = false → file_id f = i → holding (key_name self key) i w0 d w →
  twp (loop (block_step self key f chunk) (0, Z.of_nat (length d))) (λ r w',
    written (key_name self key) i w0 r (λ _, d ++ chunk) (λ e, is_collision e = false) w' ∧
    ∀ off, r = Ok off → off = Z.of_nat (length (d ++ chunk))) w.
Proof.
  intros Hk Hl Hf Hh. set (p := key_name self key) in *. unfold loop.
  apply (twp_iter_inv (λ '(n, off) w, 0 ≤ n ≤ Z.of_nat (length chunk) ∧
      off = Z.of_nat (length d) + n ∧ holding p i w0 (d ++ take (Z.to_nat n) chunk) w)
    (λ '(n, _) _, Z.to_nat (Z.of_nat (length chunk) - n))).
  { split_and!; [lia|lia|lia|]. simpl. by rewrite app_nil_r. }
  clear Hh w. intros [n off] w (Hn & -> & Hh). unfold block_step.
  destruct (Z.leb_spec (Z.of_nat (length chunk)) n) as [Hle|Hlt].
  - wp_ret. wp_ret. rewrite take_ge in Hh by lia. split; [done|]. intros off [= <-].
    rewrite length_app. lia.
  - wp_bind. apply within_twp. intros a w1 Hs.
    pose proof (served_cells _ _ _ _ Hs) as Hc.
    destruct (law_write _ _ _ _ _ _ Hs) as (Hn1 & Hx1 & _ & Hd1 & Hsome & Hg).
    pose proof Hh as (O & N & D & X).
    assert (O1 : own p i w0 w1).
    { destruct O as [E0 C0 N0 M0 D0 O0].
      constructor; [done|by eapply side_step|by rewrite Hn1|by rewrite Hn1| |by rewrite Hx1].
      intros j Hj. rewrite Hd1 by congruence. by apply D0. }
    destruct a as [[count|x]|].
    + destruct (Hg count eq_refl) as (Hcount & Hmax & Hdata).
      rewrite Hf in Hdata. specialize (Hdata _ D). destruct (Z.eqb_spec count 0) as [->|Hne].
      { eapply fail_write_twp; [done..|]. intros w2 O2. wp_ret. by split. }
      assert (Hlen : Z.of_nat (length d) + n = Z.of_nat (length (d ++ take (Z.to_nat n) chunk)))
        by (rewrite length_app, length_take; lia).
      specialize (Hdata Hlen). rewrite length_drop in Hcount.
      destruct (block_advance n (Z.of_nat (length d)) count) as [-> ->]; [lia..|].
      wp_ret. split; [|lia]. split_and!; [lia|lia|done|].
      split; [done|]. rewrite Hn1, Hx1. split_and!; [done| |done].
      rewrite Hdata. f_equal. rewrite <- app_assoc. f_equal.
      rewrite Z2Nat.inj_add by lia. apply take_take_drop.
    + eapply fail_write_twp; [done..|]. intros w2 O2. wp_ret. split; [|done]. split; [done|].
      unfold map_io_error, is_collision. simpl. by destruct (io_kind x).
    + eapply fail_write_twp; [done..|]. intros w2 O2. wp_ret. by split.
Qed.

Lemma smb_body_loop key f i w0 source st cs oe :
  key_safe key → locked w0 = false → file_id f = i → supplies (bs_next source) st cs oe →
  (∀ st w, runs (bs_drop source st) w tt w) →
  ∀ d h w, holding (key_name self key) i w0 d w →
  twp (loop (chunk_step self key f source) (st, Z.of_nat (length d), h)) (λ r w',
    written (key_name self key) i w0 r (λ _, d ++ concat cs)
      (λ e, is_collision e = false ∨ oe = Some e) w' ∧
    ∀ off h', r = Ok (off, h') → oe = None ∧ off = Z.of_nat (length (d ++ concat cs)) ∧
      h' = foldl sha256_update h cs) w.
Proof.
  intros Hk Hl Hf Hs Hdrop.
  assert (Hend : ∀ st (x : bs_state source * Z * Sha256 + storage_result (Z * Sha256)) w (Q : _ → W → Prop),
    Q x w → twp (let* _ := bs_drop source st in Ret x) Q w).
  { intros st0 x w Q HQ. wp_bind. exists tt, w. split; [apply Hdrop|by wp_ret]. }
  induction Hs as [st st' Hn|st e st' Hn|st c st' cs oe Hn Hs IH];
    intros d h w Hh; apply twp_iter; unfold chunk_step; wp_bind;
    (eexists _, w; split; [exact (Hn w)|]); cbn beta iota.
  - apply Hend. wp_ret. simpl. rewrite app_nil_r. split; [done|]. by intros ? ? [= <- <-].
  - destruct Hh as [O _]. wp_bind. eapply twp_mono; [by apply cleanup_twp|]. intros u w' O'.
    apply Hend. wp_ret. split; [|done]. split; [done|by right].
  - wp_bind. eapply twp_mono; [by apply block_loop|]. intros [off|e] w1 [Hw Ho].
    + wp_ret. rewrite (Ho off eq_refl). simpl. rewrite app_assoc. by apply IH.
    + apply Hend. wp_ret. split; [|done]. destruct Hw as [O He]. split; [done|by left].
Qed.

Lemma finish_file_twp key f i w0 d off h w :
  key_safe key → locked w0 = false → file_id f = i → holding (key_name self key) i w0 d w →
  twp (finish_file self key f off h) (λ r w',
    written (key_name self key) i w0 r (λ _, d) (λ e, is_collision e = false) w' ∧
    ∀ o, r = Ok o → o = mkBlobWriteOutcome off (sha256_finalize_hex h)) w.
Proof.
  intros Hk Hl Hf Hh. unfold finish_file. wp_bind. apply within_twp. intros a w1 Hs.
  assert (H1 : holding (key_name self key) i w0 d w1)
    by (eapply holding_idle; [done|by eapply idle_quiet]).
  destruct a as [[u|e]|].
  - wp_bind. apply close_file_twp. intros a w2 Hs2.
    assert (H2 : holding (key_name self key) i w0 d w2) by by eapply holding_close.
    assert (Herr : ∀ e, is_collision e = false → twp
      (let* _ := (if is_retryable e then reconnect_with_backoff self else Ret (Ok tt)) in
       let* _ := remove_file self key in Ret (Err e)) (λ (r : storage_result BlobWriteOutcome) w',
        written (key_name self key) i w0 r (λ _, d) (λ e, is_collision e = false) w' ∧
        ∀ o, r = Ok o → o = mkBlobWriteOutcome off (sha256_finalize_hex h)) w2).
    { intros e He. wp_bind. destruct H2 as [O2 _].
      apply (twp_mono _ (λ _ w', own (key_name self key) i w0 w')).
      - destruct (is_retryable e); [|by wp_ret].
        eapply twp_mono; [by apply reconnect_twp; eapply own_locked|].
        intros r w3 [I _]. by eapply own_idle.
      - intros r w3 O3. wp_bind. eapply twp_mono; [apply remove_file_twp; [done|done|by eapply own_locked]|].
        intros r' w4 [R _]. wp_ret. split; [|done]. split; [by eapply own_removes|done]. }
    destruct a as [[[]|e]|]; [|by intros; apply Herr..].
    wp_ret. split; [done|by intros o [= <-]].
  - destruct H1 as [O1 _]. wp_bind. eapply twp_mono; [by apply cleanup_twp|]. intros u w2 O2. wp_ret.
    split; [|done]. split; [done|]. unfold map_io_error, is_collision. simpl. by destruct (io_kind e).
  - destruct H1 as [O1 _]. wp_bind. eapply twp_mono; [by apply cleanup_twp|]. intros u w2 O2. wp_ret.
    by split.
Qed.

End Own.

Abbreviation own := (own_in (K := cells_kept)).
Abbreviation holding := (holding_in (K := cells_kept)).

(** [own] and [holding] with the files of both ends as they were. *)
Lemma own_rebase {K K'} p i w w1 w2 w3 :
  files_kept w w1 → own_in (K := K) p i w1 w2 → files_kept w2 w3 → K' w w3 → own_in (K := K') p i w w3.
Proof.
  intros (N1 & D1 & X1) [E0 C0 N0 M0 D0 O0] (N3 & D3 & X3) Hc.
  rewrite N1 in E0, N0. rewrite D1 in D0. rewrite X1 in O0.
  constructor; [done|done|by rewrite N3|by rewrite N3|by rewrite D3|by rewrite X3].
Qed.

Lemma holding_rebase {K K'} p i d w w1 w2 w3 :
  files_kept w w1 → holding_in (K := K) p i w1 d w2 → files_kept w2 w3 → K' w w3 →
  holding_in (K := K') p i w d w3.
Proof.
  intros F1 (O & N & D & X) F3 Hc. split; [by eapply own_rebase|].
  destruct F3 as (N3 & D3 & X3). by rewrite N3, D3, X3.
Qed.

(** ** Permits *)

Lemma transfer_permit_twp w :
  0 < permits w →
  twp transfer_permit (λ r w', r = Ok tt ∧ files_kept w w' ∧ handles_grow w w' ∧
    locked w' = locked w ∧ permits w' = permits w - 1) w.
Proof.
  intros Hp. unfold transfer_permit, acquire_owned, loop. wp_bind. apply twp_iter. wp_bind.
  unfold call. wp_vis r w1 E. wp_ret. destruct (law_try_acquire _ _ _ E) as [Hl Hr].
  rewrite decide_True in Hr by done. destruct Hr as [-> Hp1].
  destruct (law_local _ _ _ _ _ E eq_refl) as [Hf Hh]. wp_ret. simpl. wp_ret. wp_ret.
  split; [done|]. split; [done|]. split; [by apply handles_kept_grow|by split].
Qed.

Lemma release_twp w (Q : unit → W → Prop) :
  (∀ w', files_kept w w' → handles_grow w w' → locked w' = locked w → permits w' = permits w + 1 →
   Q tt w') → twp (call ReleasePermit) Q w.
Proof.
  intros HQ. unfold call. wp_vis x w1 E. wp_ret. destruct x.
  destruct (law_release _ _ _ E) as [Hl Hp]. destruct (law_local _ _ _ _ _ E eq_refl) as [Hf Hh].
  apply HQ; [done|by apply handles_kept_grow|done..].
Qed.

(** A program in which a permit is in scope: the permit comes back. *)
Lemma with_permit_twp {A} (K : storage_result A → W → W → Prop) `{!∀ r, SideKept (K r)}
    (pr : prog smbE (storage_result A))
    (Q : storage_result A → W → Prop) w :
  0 < permits w →
  (∀ w1, files_kept w w1 → locked w1 = locked w →
     twp pr (λ r w2, K r w1 w2 ∧ ∀ w3, files_kept w2 w3 → K r w w3 → Q r w3) w1) →
  twp (with_permit pr) Q w.
Proof.
  intros Hp Hpr. unfold with_permit. wp_bind. eapply twp_mono; [by apply transfer_permit_twp|].
  intros r w1 (-> & F1 & _ & L1 & P1). wp_bind. eapply twp_mono; [by apply Hpr|].
  intros r w2 (K2 & HQ). wp_bind. apply release_twp. intros w3 F3 _ L3 P3. wp_ret.
  apply HQ; [done|]. eapply (side_shift 1); [exact P1|exact L1|exact K2|exact P3|exact L3].
Qed.

(** ** Creating the file *)

(** A write that failed: nothing changed, or the name was free and what is
    left is below it. *)
Definition undone_in (K : W → W → Prop) (p : share_name) (w w' : W) : Prop :=
  K w w' ∧ (files_kept w w' ∨ names w !! p = None ∧ ∃ i, own_in (K := K) p i w w').

Abbreviation undone := (undone_in cells_kept).

Lemma undone_rebase {K K'} p w w1 w2 w3 :
  files_kept w w1 → undone_in K p w1 w2 → files_kept w2 w3 → K' w w3 → undone_in K' p w w3.
Proof.
  intros F1 [_ U] F3 Hc. split; [done|]. destruct U as [F2|(Hn & i & O)].
  - left. by do 2 (etrans; [done|]).
  - right. split; [destruct F1 as [<- _]; done|]. exists i.
    by eapply own_rebase.
Qed.

Lemma undone_idle K p w w' : K w w' → idle w w' → undone_in K p w w'.
Proof. intros Hk (F & _). split; [done|by left]. Qed.

Lemma undone_own K p i w w' : names w !! p = None → own_in (K := K) p i w w' → undone_in K p w w'.
Proof. intros Hn O. split; [apply O|right; eauto]. Qed.

Lemma creates_holding w p i w' :
  cells_kept w w' → creates w p i w' → holding p i w [] w'.
Proof.
  intros Hc (Hn & Hi & Hx & Hn' & Hd' & Hx'). split; [constructor|rewrite Hn', Hd', Hx'].
  - done.
  - done.
  - intros q Hq. rewrite Hn'. by rewrite lookup_insert_ne.
  - right. rewrite Hn'. apply lookup_insert_eq.
  - intros j Hj. rewrite Hd'. by rewrite lookup_insert_ne.
  - rewrite Hx'. by left.
  - by rewrite !lookup_insert_eq.
Qed.

(** The errors with the class of a collision: the name was taken, or the body
    failed with one. *)
Definition collided (p : share_name) (exclusive : bool) (w : W) (of_body : StorageError → Prop)
    (e : StorageError) : Prop :=
  is_collision e = true → of_body e ∨
    exclusive = true ∧ (is_Some (names w !! p) ∨ ∃ w1, files_kept w w1 ∧ p ∈ dirs w1).

Lemma collided_after p exclusive w w1 of_body e :
  files_kept w w1 → collided p exclusive w1 of_body e → collided p exclusive w of_body e.
Proof.
  intros F1 Hc Hce. pose proof F1 as (N1 & _).
  destruct (Hc Hce) as [?|[? Ht]]; [by left|right]. split; [done|]. rewrite <- N1.
  destruct Ht as [?|(w4 & I4 & ?)]; [by left|right]. exists w4. split; [by etrans|done].
Qed.

Definition create_args (exclusive : bool) : FileCreateArgs :=
  if exclusive then make_create_new else make_overwrite.

(** Making the file: exclusively, or where there is none. *)
Lemma create_twp client path (exclusive : bool) w :
  (exclusive = false → names w !! unc_name path = None) →
  twp (with_timeout self "create" (CreateFile client path (create_args exclusive)))
    (λ r w', match r with
     | Ok (ResourceFile f) => names w !! unc_name path = None ∧
         holding (unc_name path) (file_id f) w [] w'
     | Ok _ => undone (unc_name path) w w'
     | Err e => undone (unc_name path) w w' ∧ (is_collision e = true → exclusive = true ∧
         (is_Some (names w !! unc_name path) ∨ unc_name path ∈ dirs w))
     end) w.
Proof.
  intros Hfree. apply with_timeout_twp. intros a w1 Hs. pose proof (served_cells _ _ _ _ Hs) as Hc.
  assert (Hmade : ∀ i, creates w (unc_name path) i w1 → undone (unc_name path) w w1).
  { intros i Hi. eapply undone_own; [apply Hi|by apply creates_holding]. }
  assert (Hsame : files_kept w w1 → undone (unc_name path) w w1) by by split; [|left].
  assert (Hcol : ∀ e, error_of a e → is_collision e = true →
    exclusive = true ∧ status_of a = Some ObjectNameCollision).
  { intros e (_ & _ & H2) He. specialize (H2 He).
    pose proof (law_collision _ _ _ _ _ Hs H2) as Hm. by destruct exclusive. }
  destruct exclusive; simpl in Hs.
  - destruct (law_create_new _ _ _ _ _ Hs) as [Hst Hr].
    destruct a as [[[f|d|pi]|e]|];
      [destruct Hr as [Hr _]; split; [apply Hr|by apply creates_holding]|..];
      destruct Hr as [[Hr|[i Hr]] _]; try solve [auto | by eapply Hmade].
    all: intros x Hx; (split; [solve [auto | by eapply Hmade]|]); intros Hcx;
      destruct (Hcol x Hx Hcx) as [? Hs']; split; [done|by apply Hst].
  - specialize (Hfree eq_refl). pose proof (law_overwrite _ _ _ _ _ Hs) as Hr.
    assert (Ht : ∀ i, ¬ truncates w (unc_name path) i w1) by (intros i [? _]; congruence).
    destruct a as [[[f|d|pi]|e]|];
      [destruct Hr as [[Hr|Hr] _]; [split; [done|by apply creates_holding]|by apply Ht in Hr]|..];
      destruct Hr as [[Hr|(i & [Hr|Hr])] _]; try solve [destruct (Ht i Hr)]; try solve [auto | by eapply Hmade].
    all: intros x Hx; (split; [solve [auto | by eapply Hmade]|]); intros Hcx;
      by destruct (Hcol x Hx Hcx) as [? _].
Qed.

(** ** [write_file]

    What a body does besides delivering its bytes is in [K]: the permits after
    it was read or dropped. *)
Section File.
Context (K : W → W → Prop) `{SK : !SideKept K}.

(** What the loop over a body leaves: [P] the chunks it read, or an error of
    the body or of the provider. *)
Definition looped (p : share_name) (i : positive) (w0 : W) (P : list bytes → Prop)
    (of_body : StorageError → Prop) (r : storage_result (Z * Sha256)) (w : W) : Prop :=
  match r with
  | Ok (off, h) => ∃ cs, P cs ∧ off = Z.of_nat (length (concat cs)) ∧
      h = foldl sha256_update sha256_new cs ∧ holding_in (K := K) p i w0 (concat cs) w
  | Err e => own_in (K := K) p i w0 w ∧ (is_collision e = false ∨ of_body e)
  end.

(** The body is dropped unread. *)
Definition dropped (body : StorageByteStream smbE) : Prop :=
  ∀ w, twp (drop_body body) (λ _ w', files_kept w w' ∧ K w w') w.

(** The body supplies the chunks, to a new file and in a state with the files
    of [w]. *)
Definition feeds (key : string) (body : StorageByteStream smbE) (w : W) (P : list bytes → Prop)
    (of_body : StorageError → Prop) : Prop :=
  ∀ f w1 w2, files_kept w w1 → locked w1 = false →
  holding (key_name self key) (file_id f) w1 [] w2 →
  twp (loop (chunk_step self key f (into_inner body)) (bs_cur (into_inner body), 0, sha256_new))
    (looped (key_name self key) (file_id f) w1 P of_body) w2.

Lemma feeds_after key body w w1 P of_body :
  files_kept w w1 → feeds key body w P of_body → feeds key body w1 P of_body.
Proof. intros F Hf f w2 w3 F2. apply Hf. by etrans. Qed.

Definition put_outcome (cs : list bytes) : BlobWriteOutcome :=
  mkBlobWriteOutcome (Z.of_nat (length (concat cs)))
    (sha256_finalize_hex (sha256_update sha256_new (concat cs))).

(** What a write leaves. *)
Definition wrote (p : share_name) (exclusive : bool) (P : list bytes → Prop)
    (of_body : StorageError → Prop) (w : W) (r : storage_result BlobWriteOutcome) (w' : W) : Prop :=
  match r with
  | Ok o => ∃ cs, P cs ∧ o = put_outcome cs ∧
      names w !! p = None ∧ ∃ i, holding_in (K := K) p i w (concat cs) w'
  | Err e => undone_in K p w w' ∧ collided p exclusive w of_body e
  end.

(** And before an unread body is dropped. *)
Definition wrote_body (p : share_name) (exclusive : bool) (P : list bytes → Prop)
    (of_body : StorageError → Prop) (w : W)
    (r : storage_result (storage_result BlobWriteOutcome)) (w' : W) : Prop :=
  match r with
  | Ok r => wrote p exclusive P of_body w r w'
  | Err e => undone p w w' ∧ collided p exclusive w of_body e
  end.

Lemma collided_free p exclusive w (of_body : StorageError → Prop) e :
  is_collision e = false ∨ of_body e → collided p exclusive w of_body e.
Proof. intros [He|He] Hc; [congruence|by left]. Qed.

(** The end of the write, from the loop on. *)
Lemma write_rest_twp key f exclusive body P of_body w w1 w2 :
  key_safe key → locked w1 = false → idle w w1 → feeds key body w P of_body →
  names w !! key_name self key = None → holding (key_name self key) (file_id f) w1 [] w2 →
  twp (let*? (offset, hasher) := loop (chunk_step self key f (into_inner body))
         (bs_cur (into_inner body), 0, sha256_new) in
       finish_file self key f offset hasher)
    (wrote (key_name self key) exclusive P of_body w) w2.
Proof.
  intros Hk Hl (F & C1 & _) Hb Hn Hh. set (p := key_name self key) in *.
  assert (Hend : ∀ w', own_in (K := K) p (file_id f) w1 w' → undone_in K p w w').
  { intros w' O. eapply (undone_own _ _ (file_id f)); [done|]. eapply own_rebase; [exact F|exact O|done|].
    apply (side_after _ _ _ _ C1), O. }
  wp_bind. eapply twp_mono; [by apply (Hb f w1 w2)|]. intros [[off h]|e] w3 Hw.
  2: { wp_ret. destruct Hw as [O He]. split; [by apply Hend|by apply collided_free]. }
  destruct Hw as (cs & HP & -> & -> & Hw).
  eapply twp_mono; [by eapply (finish_file_twp (K := K) key f (file_id f) w1 (concat cs))|].
  intros [o|e] w4 [Hw4 Ho4].
  - exists cs. split; [done|]. split; [rewrite (Ho4 o eq_refl); by rewrite sha256_incremental|].
    split; [done|]. exists (file_id f). eapply holding_rebase; [exact F|exact Hw4|done|].
    apply (side_after _ _ _ _ C1), Hw4.
  - destruct Hw4 as [O He]. split; [by apply Hend|apply collided_free; by left].
Qed.

(** The whole of [write_file] but the permit. *)
Lemma write_body_twp key (exclusive : bool) body P of_body w :
  key_safe key → locked w = false → feeds key body w P of_body →
  (exclusive = false → names w !! key_name self key = None) →
  twp (write_body self key body exclusive) (wrote_body (key_name self key) exclusive P of_body w) w.
Proof.
  intros Hk Hl Hb Hfree. set (p := key_name self key) in *. unfold write_body.
  change (if exclusive then make_create_new else make_overwrite) with (create_args exclusive).
  assert (Hidle : ∀ w', idle w w' → undone p w w') by (intros w' I; by apply undone_idle; [apply I|]).
  wp_bind. eapply twp_mono; [by apply ensure_parent_twp|]. intros [[]|e] w1 [I1 He].
  2: { wp_ret. split; [by apply Hidle|apply collided_free; by left]. }
  wp_bind. apply local_twp; [done..|]. intros client w2 I2.
  pose proof (remote_path_cases self C key Hk) as Hpath.
  destruct (remote_path self key) as [path|e].
  2: { wp_ret. split; [apply Hidle; by etrans|apply collided_free; left; apply Hpath]. }
  assert (I : idle w w2) by by etrans. clear I1 I2 He w1. pose proof I as ((N2 & D2 & X2) & [_ L2] & _).
  fold p in Hpath. wp_bind. eapply twp_mono; [apply create_twp; by rewrite Hpath, N2|]. rewrite Hpath.
  assert (Hun : ∀ w', undone p w2 w' → undone p w w').
  { intros w' U. destruct I as (F & Hc & _). eapply undone_rebase; [exact F|exact U|done|].
    etrans; [exact Hc|apply U]. }
  intros [resource|e] w3 Hr.
  2: { wp_ret. destruct Hr as [U Hcol]. split; [by apply Hun|]. intros Hce.
       destruct (Hcol Hce) as [-> Ht]. right. split; [done|]. rewrite <- N2.
       destruct Ht as [Ht|Ht]; [by left|right]. exists w2. split; [apply I|done]. }
  destruct resource as [f|d|pi].
  2-3: unfold close_resource; wp_bind; apply await_twp; intros r w4 Hs; wp_ret;
    (split; [|by apply collided_free; left]); apply (idle_quiet _ _ _ _) in Hs as (F4 & C4 & _); [|done];
    apply Hun; eapply undone_rebase; [done|exact Hr|exact F4|etrans; [apply Hr|done]].
  destruct Hr as [Hn Hh]. rewrite N2 in Hn. wp_bind.
  eapply twp_mono; [apply (write_rest_twp key f exclusive body P of_body w w2 w3); [done|congruence|done..]|].
  intros r w4 Hw. by wp_ret.
Qed.

Lemma wrote_rebase p exclusive P of_body w w1 r w2 w3 :
  files_kept w w1 → wrote p exclusive P of_body w1 r w2 → files_kept w2 w3 → K w w3 →
  wrote p exclusive P of_body w r w3.
Proof.
  intros F1 Hw F3 C3. pose proof F1 as (N1 & _). destruct r as [o|e].
  - destruct Hw as (cs & HP & -> & Hn & i & Hh). exists cs. do 2 (split; [done|]).
    split; [by rewrite <- N1|]. exists i. by eapply holding_rebase.
  - destruct Hw as [U Hc]. split; [by eapply undone_rebase|]. by eapply collided_after.
Qed.

(** The permits of the body are back once it was taken. *)
Definition taken {A} (r : storage_result A) : W → W → Prop := if is_ok r then K else cells_kept.

#[local] Instance side_taken {A} (r : storage_result A) : SideKept (taken r).
Proof. unfold taken. destruct (is_ok r); apply _. Qed.

Lemma write_file_twp key (exclusive : bool) body P of_body w :
  key_safe key → locked w = false → 0 < permits w → feeds key body w P of_body → dropped body →
  (exclusive = false → names w !! key_name self key = None) →
  twp (write_file self key body exclusive) (wrote (key_name self key) exclusive P of_body w) w.
Proof.
  intros Hk Hl Hp Hb Hd Hfree. unfold write_file. wp_bind.
  apply (twp_mono _ (wrote_body (key_name self key) exclusive P of_body w)).
  - apply (with_permit_twp taken); [done|].
    intros w1 F1 L1. pose proof F1 as (N1 & _).
    eapply twp_mono; [eapply (write_body_twp key exclusive body P of_body)|];
      [done|congruence|by eapply feeds_after|by rewrite N1|].
    intros [r|e] w2 Hw.
    + split; [by destruct r; [destruct Hw as (cs & _ & _ & _ & i & Hh); apply Hh|apply Hw]|].
      intros w3 F3 C3. by eapply wrote_rebase.
    + destruct Hw as [U Hc]. split; [apply U|]. intros w3 F3 C3.
      split; [by eapply undone_rebase|by eapply collided_after].
  - intros [r|e] w1 Hw; [by wp_ret|]. destruct Hw as [U Hc]. wp_bind.
    eapply twp_mono; [apply Hd|]. intros u w2 [F2 K2]. wp_ret. split; [|done].
    eapply undone_rebase; [done|exact U|exact F2|]. by apply (side_after _ _ _ _ (proj1 U)).
Qed.
End File.

(** A body that makes no calls of its own, read to its end. *)
Definition read_whole (cs : list bytes) (oe : option StorageError) (cs' : list bytes) : Prop :=
  oe = None ∧ cs' = cs.

Lemma feeds_body_of key body cs oe w :
  key_safe key → body_of body cs oe →
  feeds cells_kept key body w (read_whole cs oe) (λ e, oe = Some e).
Proof.
  intros Hk [Hb Hd] f w1 w2 _ Hl Hh.
  eapply twp_mono; [eapply (smb_body_loop (K := cells_kept) key f (file_id f) w1 _ _ cs oe Hk Hl eq_refl Hb Hd [] _ _ Hh)|].
  intros [[off h]|e] w3 [Hw Ho]; [|done].
  destruct (Ho off h eq_refl) as (-> & -> & ->). by exists cs.
Qed.

Lemma dropped_body_of body cs oe : body_of (W := W) body cs oe → dropped cells_kept body.
Proof. intros [_ Hd] w. exists tt, w. split; [apply Hd|done]. Qed.
End Write.
