(* ===== verification/SmbPut.v ===== *)
(** * The SMB provider: renaming, and the two puts

    [rename] moves the temporary file of [put_blob] to its key; the theorems
    about [put_blob] and [put_blob_if_not_exists]. *)
From S2P Require Import Prelude Text Errors Providers Externals Keys Effects Streams BlobStore Smb SmbFacts SmbStore SmbServer SmbCalls SmbWrite.
From Stdlib Require Import Ascii.

(** The name sent with a rename has the components of the key. *)
Lemma split_replace s :
  contains_char BACKSLASH s = false → split BACKSLASH (replace_char "/" BACKSLASH s) = split "/" s.
Proof.
  induction s as [|a s IH]; [done|]. cbn [contains_char replace_char split].
  intros [Ha Hs]%orb_false_iff. specialize (IH Hs). destruct (Ascii.eqb a "/") eqn:E.
  - rewrite Ascii.eqb_refl. by rewrite IH.
  - rewrite Ha, IH. done.
Qed.

Section Put.
Context `{EX : Externals} `{XL : !ExternalsLaws} `{SC : SmbCrate} `{SH : SmbHandles}.
Context {W : Type} `{H : !Handler smbE W} `{V : !ShareView W} `{S : !Share W}.
Context (self : SmbStorageBackend) (C : config_ok (smb_config self)).

(** The content stored under a name. *)
Definition content (w : W) (p : share_name) : option bytes := names w !! p ≫= λ i, data w !! i.

(** Taking away a name that is free does nothing. *)
Lemma removes_free t w w' :
  names w !! t = None → removes t w w' → cells_kept w w' ∧ names w' = names w ∧
    data w' = data w ∧ doomed w' ⊆ doomed w.
Proof.
  intros Ht (Hc & Hd & Hn & Hx). split; [done|]. split; [|split; [done|]].
  - destruct Hn as [Hn|Hn]; [done|]. by rewrite Hn, delete_id.
  - intros j [Hj|Hj]%Hx; [done|congruence].
Qed.

Section Moves.
Context {K : W → W → Prop} `{SK : !SideKept K}.
Abbreviation holding := (holding_in (K := K)).

Lemma holding_own p i w0 d w : holding p i w0 d w → own_in (K := K) p i w0 w.
Proof. by intros [? _]. Qed.

Lemma holding_removes p i w0 d t w w' :
  holding p i w0 d w → names w !! t = None → removes t w w' → holding p i w0 d w'.
Proof.
  intros ([E0 C0 N0 M0 D0 O0] & N & D & X) Ht (Hc & Hn & Hd & Hx)%removes_free; [|done].
  split; [constructor|rewrite Hn, Hd].
  - done.
  - by eapply side_step.
  - by rewrite Hn.
  - by rewrite Hn.
  - by rewrite Hd.
  - intros j Hj. by apply O0, Hx.
  - split; [done|]. split; [done|]. intros Hi. by apply X, Hx.
Qed.

(** The move of a file that is new: the name is there instead. *)
Lemma holding_moves t p i w0 d w w' :
  t ≠ p → names w0 !! t = None → holding t i w0 d w → cells_kept w w' → moves w t p i w' →
  holding p i w0 d w' ∧ names w' !! t = None.
Proof.
  intros Htp Ht ([E0 C0 N0 M0 D0 O0] & N & D & X) Hc (Hn & Hd & Hx).
  assert (Hq : ∀ q, q ≠ p → names w' !! q = names w0 !! q).
  { intros q Hq. rewrite Hn, lookup_insert_ne by done. destruct (decide (q = t)) as [->|Hqt].
    - by rewrite lookup_delete_eq.
    - rewrite lookup_delete_ne by done. by apply N0. }
  split; [|by rewrite Hq].
  assert (Hnp : names w' !! p = Some i) by (rewrite Hn; apply lookup_insert_eq).
  split; [constructor|split; [done|by rewrite Hd, Hx]].
  - done.
  - by eapply side_step.
  - done.
  - by right.
  - by rewrite Hd.
  - by rewrite Hx.
Qed.

(** The end of a put: what was staged is under the key. *)
Definition staged (t p : share_name) (i : positive) (w0 : W) (d : bytes) (w : W) : Prop :=
  holding t i w0 d w ∨ holding p i w0 d w ∧ names w !! t = None.

Lemma staged_idle t p i w0 d w w' : staged t p i w0 d w → idle w w' → staged t p i w0 d w'.
Proof.
  intros [Hh|[Hh Ht]] I; [left; by eapply holding_idle|right].
  split; [by eapply holding_idle|]. by destruct I as [[-> _] _].
Qed.

Lemma destination_split to :
  key_safe to → ∃ m, mapped_key (config self) to = Ok m ∧
    split BACKSLASH (replace_char "/" BACKSLASH m) = key_name self to.
Proof.
  intros Hk. destruct (mapped_key_Ok self C to Hk) as (m & -> & Hm & <-).
  exists m. split; [done|]. apply split_replace. apply key_safe_chars; [done|by left].
Qed.

Lemma rename_twp from to i w0 d w :
  key_safe from → key_safe to → from ≠ to → locked w0 = false →
  names w0 !! key_name self from = None → holding (key_name self from) i w0 d w →
  twp (rename self from to true) (λ r w',
    staged (key_name self from) (key_name self to) i w0 d w' ∧
    match r with Ok _ => holding (key_name self to) i w0 d w' | Err _ => True end) w.
Proof.
  intros Hf Ht Hne Hl Hn0 Hh. set (t := key_name self from) in *. set (p := key_name self to) in *.
  assert (Htp : t ≠ p) by by intros E%key_name_inj.
  unfold rename. wp_bind. eapply twp_mono; [by apply ensure_parent_twp|]. intros r w1 [I1 _].
  assert (H1 : holding t i w0 d w1) by by eapply holding_idle.
  destruct r as [[]|e]; [|wp_ret; split; [by left|done]].
  wp_bind. eapply twp_mono; [apply open_file_twp; [done|done|]|].
  { eapply own_locked; [by eapply holding_own|done]. }
  intros r w2 [I2 Ho]. assert (H2 : holding t i w0 d w2) by by eapply holding_idle.
  destruct r as [f|e]; [|wp_ret; split; [by left|done]].
  assert (Hfi : file_id f = i) by (destruct Ho as [Ho _]; destruct H1 as (_ & N1 & _); fold t in Ho; congruence).
  destruct (destination_split to Ht) as (m & -> & Hsplit).
  wp_bind. apply with_timeout_twp. intros a w3 Hs3. fold p in Hsplit.
  pose proof (served_cells _ _ _ _ Hs3) as Hc3. destruct (law_rename _ _ _ _ _ Hs3) as (_ & _ & Hren).
  destruct (Hren t) as [Hmay Hok]; [destruct H2 as (_ & N2 & _); congruence|]. rewrite Hsplit, Hfi in *.
  assert (H3 : staged t p i w0 d w3).
  { destruct Hmay as [Hk|Hm]; [left|right; by eapply holding_moves].
    destruct H2 as ([E0 C0 N0 M0 D0 O0] & N2 & D2 & X2), Hk as (Hn & Hd & Hx).
    split; [|by rewrite Hn, Hd, Hx].
    constructor; [done|by eapply side_step|by rewrite Hn|by rewrite Hn|by rewrite Hd|by rewrite Hx]. }
  assert (Hend : ∀ r : storage_result unit, (is_ok r = true → holding p i w0 d w3) →
    twp (let* close_result := close_file self f in Ret (result_and r close_result)) (λ r w',
      staged t p i w0 d w' ∧ match r with Ok _ => holding p i w0 d w' | Err _ => True end) w3).
  { intros r Hr. wp_bind. apply close_file_twp. intros a4 w4 Hs4.
    assert (Hold : ∀ q, holding q i w0 d w3 → holding q i w0 d w4) by (intros; by eapply holding_close).
    assert (H4 : staged t p i w0 d w4).
    { destruct H3 as [H3|[H3 Ht3]]; [left; by apply Hold|right]. split; [by apply Hold|].
      destruct (law_close _ _ _ _ Hs4) as ([(-> & _)|(Hi & _)] & _); [done|].
      destruct H3 as (_ & _ & _ & X3). congruence. }
    destruct a4 as [[[]|x]|]; [|by intros; wp_ret; split; [|by destruct r]..].
    wp_ret. split; [done|]. destruct r as [[]|]; simpl; [|done]. by apply Hold, Hr. }
  destruct a as [[[]|x]|]; [apply Hend; intros _; by eapply holding_moves; [..|by eapply Hok]|..];
    intros e He; by apply Hend.
Qed.

End Moves.

(** ** What a put leaves *)

(** The name, its file and its content stay. *)
Definition unharmed (w w' : W) (q : share_name) : Prop :=
  names w' !! q = names w !! q ∧ content w' q = content w q ∧
  ∀ j, names w !! q = Some j → j ∈ doomed w' → j ∈ doomed w.

(** The name has the content, and its file is not about to go. *)
Definition stored (w : W) (p : share_name) (d : bytes) : Prop :=
  content w p = Some d ∧ ∀ i, names w !! p = Some i → i ∉ doomed w.

Lemma unharmed_kept w w' q : files_kept w w' → unharmed w w' q.
Proof.
  intros (Hn & Hd & Hx). unfold unharmed, content. rewrite Hn, Hd, Hx.
  split; [done|]. by split.
Qed.

Lemma unharmed_trans w w1 w2 q : unharmed w w1 q → unharmed w1 w2 q → unharmed w w2 q.
Proof.
  intros (N1 & D1 & X1) (N2 & D2 & X2). split; [congruence|]. split; [congruence|].
  intros j Hj Hx. apply X1; [done|]. apply X2; congruence.
Qed.

Lemma own_unharmed {K} p i w w' q : own_in (K := K) p i w w' → q ≠ p → unharmed w w' q.
Proof.
  intros [E0 C0 N0 M0 D0 O0] Hq. unfold unharmed, content. rewrite N0 by done.
  split; [done|]. split.
  - destruct (names w !! q) as [j|] eqn:E; [|done]. simpl. apply D0. intros ->. by apply (E0 q).
  - intros j Hj [Hx| ->]%O0; [done|]. by destruct (E0 q).
Qed.

Lemma undone_unharmed {K} p w w' q :
  undone_in K p w w' → q ≠ p ∨ is_Some (names w !! p) → unharmed w w' q.
Proof.
  intros [_ [Hf|(Hn & i & O)]] Hq; [by apply unharmed_kept|].
  destruct Hq as [Hq|[j Hj]]; [by eapply own_unharmed|congruence].
Qed.

Lemma holding_stored {K} p i w d w' : holding_in (K := K) p i w d w' → stored w' p d.
Proof.
  intros (_ & N & D & X). unfold stored, content. rewrite N. split; [done|].
  by intros j [= <-].
Qed.

Lemma unharmed_removes t w w1 w2 q :
  q ≠ t → unharmed w w1 q → removes t w1 w2 → unharmed w w2 q.
Proof.
  intros Hq (Hn & Hc & Hx) (_ & Hd & Hn2 & Hx2).
  assert (Hnq : names w2 !! q = names w1 !! q)
    by (destruct Hn2 as [->| ->]; [done|by rewrite lookup_delete_ne]).
  split; [congruence|]. split.
  - rewrite <- Hc. unfold content. by rewrite Hnq, Hd.
  - intros j Hj [Hj2|Hj2]%Hx2; [by apply Hx|]. rewrite <- Hn in Hj.
    by destruct (Hq (law_no_links _ _ _ _ Hj Hj2)).
Qed.

(** The removal of the temporary file keeps what the removal of one name
    keeps. *)
Lemma discard_twp temp e (P : W → Prop) w :
  key_safe temp → locked w = false → P w →
  (∀ w1 w2, P w1 → removes (key_name self temp) w1 w2 → P w2) →
  twp (discard_temp self temp e) (λ r w', r = Err e ∧ P w') w.
Proof.
  intros Hk Hl Hp HP. unfold discard_temp. wp_bind. apply (twp_mono _ (λ _ w', P w' ∧ locked w' = false)).
  - destruct (is_retryable e); [|by wp_ret]. eapply twp_mono; [by apply reconnect_twp|].
    intros r w1 [I _]. split; [eapply HP; [done|by apply removes_idle]|].
    destruct I as (_ & [_ L] & _). congruence.
  - intros r w1 [P1 L1]. wp_bind. eapply twp_mono; [by apply remove_file_twp|].
    intros r' w2 [R _]. wp_ret. split; [done|]. by eapply HP.
Qed.

(** Nothing but the name [t] changed. *)
Definition below (K : W → W → Prop) (t : share_name) (w w' : W) : Prop :=
  K w w' ∧ ∀ q, q ≠ t → unharmed w w' q.

Lemma below_removes K `{!SideKept K} t w w1 w2 : below K t w w1 → removes t w1 w2 → below K t w w2.
Proof.
  intros [Hc Hu] R. split; [by eapply (side_step K), R|]. intros q Hq.
  by eapply unharmed_removes; [..|by apply Hu|].
Qed.

Lemma below_undone K t w w' : undone_in K t w w' → below K t w w'.
Proof.
  intros U. split; [apply U|]. intros q Hq. eapply undone_unharmed; [done|by left].
Qed.

Lemma below_own (K K' : W → W → Prop) t i w w' :
  own_in (K := K) t i w w' → K' w w' → below K' t w w'.
Proof.
  intros O Hk. split; [done|]. intros q Hq. by eapply own_unharmed.
Qed.

Lemma published_removes {K} `{!SideKept K} t p i w d w1 w2 :
  holding_in (K := K) p i w d w1 ∧ names w1 !! t = None → removes t w1 w2 →
  holding_in (K := K) p i w d w2 ∧ names w2 !! t = None.
Proof.
  intros [Hh Ht] R. split; [by eapply holding_removes|].
  by apply removes_free in R as (_ & -> & _).
Qed.

(** The UUID the put draws makes a name that is free. *)
Definition fresh_temp (key : string) (w : W) : Prop :=
  ∀ u w1 t, handle SmbNewV4 w = (u, w1) → temp_key_with u key = Ok t →
    names w !! key_name self t = None.

(** The name of a temporary file of the key. *)
Definition is_temp_of (key : string) (q : share_name) : Prop :=
  ∃ u t, temp_key_with u key = Ok t ∧ q = key_name self t.

(** What a put may leave behind when it fails. *)
Definition put_failed (key : string) (P : list bytes → Prop) (w w' : W) : Prop :=
  (unharmed w w' (key_name self key) ∨ ∃ cs, P cs ∧ stored w' (key_name self key) (concat cs)) ∧
  ∀ q, q ≠ key_name self key → ¬ is_temp_of key q → unharmed w w' q.

(** The result of a put of a valid key whose body is read to [P]; [K] tells
    what becomes of the permits. *)
Definition put_result (K : W → W → Prop) (key : string) (P : list bytes → Prop) (w : W)
    (r : storage_result BlobWriteOutcome) (w' : W) : Prop :=
  K w w' ∧
  match r with
  | Ok o => ∃ cs, P cs ∧ o = put_outcome cs ∧ stored w' (key_name self key) (concat cs) ∧
      ∀ q, q ≠ key_name self key → unharmed w w' q
  | Err e => put_failed key P w w'
  end.

Lemma unharmed_after w w1 w2 q : files_kept w w1 → unharmed w1 w2 q → unharmed w w2 q.
Proof. intros (Hn & Hd & Hx). unfold unharmed, content. by rewrite Hn, Hd, Hx. Qed.

(** ** [put_blob] *)

Section Temp.
Context (K : W → W → Prop) `{SK : !SideKept K}.

Lemma put_result_after key P w w1 r w2 :
  files_kept w w1 → cells_kept w w1 → put_result K key P w1 r w2 → put_result K key P w r w2.
Proof.
  intros F Hc [Hc2 Hr]. split; [by apply (side_after _ _ _ _ Hc)|]. destruct r as [o|e].
  - destruct Hr as (cs & ? & ? & ? & Hu). exists cs. do 3 (split; [done|]). intros q Hq.
    eapply unharmed_after; [done|by apply Hu].
  - destruct Hr as [Hk Hu]. split.
    + destruct Hk as [Hk|Hk]; [left; by eapply unharmed_after|by right].
    + intros q Hq Ht. eapply unharmed_after; [done|by apply Hu].
Qed.

Context (key temp : string) (Hkt : key_safe temp) (Hne : temp ≠ key).
Context (Htemp : is_temp_of key (key_name self temp)) (P : list bytes → Prop).

Lemma put_result_below w w' e :
  below K (key_name self temp) w w' → put_result K key P w (Err e) w'.
Proof.
  intros [Hc Hu]. split; [done|]. split.
  - left. apply Hu. by intros ?%key_name_inj.
  - intros q _ Hq. apply Hu. by intros ->.
Qed.

Lemma put_result_published cs w w' i e :
  P cs → holding_in (K := K) (key_name self key) i w (concat cs) w' →
  put_result K key P w (Err e) w'.
Proof.
  intros HP Hh. split; [apply Hh|].
  split; [right; exists cs; split; [done|by eapply holding_stored]|].
  intros q Hq _. eapply own_unharmed; [by eapply holding_own|done].
Qed.

(** The second half of the put. *)
Lemma publish_twp cs i w w1 :
  P cs → key_safe key → locked w = false → names w !! key_name self temp = None →
  holding_in (K := K) (key_name self temp) i w (concat cs) w1 →
  twp (let* renamed := rename self temp key true in
       match renamed with
       | Err error => discard_temp self temp error
       | Ok _ => Ret (Ok (put_outcome cs))
       end) (put_result K key P w) w1.
Proof.
  intros HP Hk Hl Hn Hh. wp_bind.
  eapply twp_mono; [by apply (rename_twp (K := K) temp key i w (concat cs))|].
  intros [[]|e] w2 [H2 Hr].
  - wp_ret. split; [apply Hr|]. exists cs. do 2 (split; [done|]). split; [by eapply holding_stored|].
    intros q Hq. eapply own_unharmed; [by eapply holding_own|done].
  - assert (Hl2 : locked w2 = false).
    { destruct H2 as [H2|[H2 _]]; eapply own_locked; [by eapply holding_own|done|by eapply holding_own|done]. }
    destruct H2 as [H2|H2].
    + eapply twp_mono; [apply (discard_twp temp e (below K (key_name self temp) w)); [done|done| |]|].
      * eapply below_own; [by eapply holding_own|]. apply H2.
      * intros w3 w4. by apply below_removes.
      * intros r w3 [-> B]. by apply put_result_below.
    + eapply twp_mono; [apply (discard_twp temp e (λ w', holding_in (K := K) (key_name self key) i w (concat cs) w' ∧
          names w' !! key_name self temp = None) _ Hkt Hl2 H2); intros w3 w4; by apply published_removes|].
      intros r w3 [-> [H3 _]]. by eapply put_result_published.
Qed.

(** The put from the temporary name on. *)
Lemma put_temp_twp body of_body w :
  key_safe key → feeds self K temp body w P of_body → dropped K body →
  locked w = false → 0 < permits w → names w !! key_name self temp = None →
  twp (let* result := write_file self temp body false in
       match result with
       | Err error => discard_temp self temp error
       | Ok outcome =>
           let* renamed := rename self temp key true in
           match renamed with
           | Err error => discard_temp self temp error
           | Ok _ => Ret (Ok outcome)
           end
       end) (put_result K key P w) w.
Proof.
  intros Hk Hb Hd Hl Hp Hn. wp_bind.
  eapply twp_mono; [by apply (write_file_twp self C K temp false body P of_body)|].
  intros [o|e] w1 Hw.
  - destruct Hw as (cs & HP & -> & _ & i & Hh). by eapply publish_twp.
  - destruct Hw as [U _].
    eapply twp_mono; [apply (discard_twp temp e (below K (key_name self temp) w)); [done|..]|].
    + pose proof (side_locked _ _ (proj1 U)). congruence.
    + by apply below_undone.
    + intros w3 w4. by apply below_removes.
    + intros r w3 [-> B]. by apply put_result_below.
Qed.
End Temp.

(** A put whose body is [feeds]. *)
Lemma put_blob_twp K `{!SideKept K} key body options P of_body w :
  key_safe key → locked w = false → 0 < permits w → fresh_temp key w → dropped K body →
  (∀ temp, key_safe temp → names w !! key_name self temp = None →
     feeds self K temp body w P of_body) →
  twp (put_blob self key body options) (put_result K key P w) w.
Proof.
  intros Hk Hl Hp Hfresh Hd Hb. unfold put_blob.
  rewrite (validate_blob_key_safe _ Hk). cbn beta iota.
  unfold temp_key. wp_bind. wp_bind. unfold call. wp_vis u w1 E. wp_ret. wp_ret.
  destruct (temp_key_good key u Hk) as (temp & Ht & Hkt & _ & Hne & _).
  pose proof (Hfresh _ _ _ E Ht) as Hn. rewrite Ht. cbn beta iota.
  destruct (idle_local _ _ _ _ E eq_refl eq_refl) as (F1 & C1 & _).
  assert (Htemp : is_temp_of key (key_name self temp)) by by exists u, temp.
  eapply twp_mono; [eapply (put_temp_twp K key temp Hkt Hne Htemp P); [done|..]|].
  - eapply feeds_after; [done|by apply Hb].
  - done.
  - destruct C1; congruence.
  - by destruct C1 as [-> _].
  - by destruct F1 as [-> _].
  - intros r w2. by apply put_result_after.
Qed.

(** A key that is refused: the body is dropped. *)
Lemma put_blob_refused key body options :
  ¬ key_safe key →
  put_blob self key body options =
    (let* _ := drop_body body in Ret (Err (InvalidStorageKey key))).
Proof. intros Hk. unfold put_blob. by rewrite validate_blob_key_unsafe. Qed.

(** C18: [put_blob] writes a temporary file and renames it over the key.  On
    success the key holds the whole body, the outcome is its size and digest,
    and no other name changed, so no temporary file is left.  When it fails,
    whatever the requests that failed did, the key holds what it held before or,
    if the body was complete, the whole new body; at most a temporary file of
    the key is left.  The permit is given back.  An invalid key is refused
    before any call but the drop of the body. *)
Theorem smb_put_blob_spec key body cs oe options w :
  body_of body cs oe → locked w = false → 0 < permits w → fresh_temp key w →
  if decide (key_safe key) then
    twp (put_blob self key body options) (put_result cells_kept key (read_whole cs oe) w) w
  else put_blob self key body options =
    (let* _ := drop_body body in Ret (Err (InvalidStorageKey key))).
Proof.
  intros Hb Hl Hp Hfresh. case_decide as Hk; [|by apply put_blob_refused].
  eapply (put_blob_twp cells_kept); [done..|by eapply dropped_body_of|].
  intros temp Ht _. by apply feeds_body_of.
Qed.

(** C19: [put_blob_if_not_exists] creates the file under its key.  A blob that
    is there is never changed, whatever the answer is, and no other name is.
    [Some] means that the name was free and now holds the whole body; [None]
    means that the name was taken, or that the body itself failed with the error
    of a collision; any other error is no collision.  The permit is given
    back. *)
Theorem smb_put_if_not_exists_spec key body cs oe options w :
  body_of body cs oe → locked w = false → 0 < permits w →
  let p := key_name self key in
  if decide (key_safe key) then
    twp (put_blob_if_not_exists self key body options) (λ r w', cells_kept w w' ∧
      (∀ q, q ≠ p ∨ is_Some (names w !! p) → unharmed w w' q) ∧
      match r with
      | Ok (Some o) => oe = None ∧ o = put_outcome cs ∧ names w !! p = None ∧
          stored w' p (concat cs)
      | Ok None => is_Some (names w !! p) ∨ (∃ w1, files_kept w w1 ∧ p ∈ dirs w1) ∨
          ∃ e, oe = Some e ∧ is_collision e = true
      | Err e => is_collision e = false
      end) w
  else put_blob_if_not_exists self key body options =
    (let* _ := drop_body body in Ret (Err (InvalidStorageKey key))).
Proof.
  intros Hb Hl Hp p. unfold put_blob_if_not_exists.
  case_decide as Hk; [|by rewrite validate_blob_key_unsafe].
  rewrite (validate_blob_key_safe _ Hk). cbn beta iota. wp_bind.
  eapply twp_mono; [eapply (write_file_twp self C cells_kept);
    [done..|by eapply feeds_body_of|by eapply dropped_body_of|done]|].
  fold p. intros [o|e] w1 Hw.
  - wp_ret. destruct Hw as (cs' & [-> ->] & -> & Hn & i & Hh). split; [apply Hh|]. split.
    + intros q [Hq|[j Hj]]; [|congruence]. eapply own_unharmed; [by eapply holding_own|done].
    + do 3 (split; [done|]). by eapply holding_stored.
  - destruct Hw as [U Hc]. destruct (is_collision e) eqn:He.
    + wp_ret. split; [apply U|]. split; [intros q; by eapply undone_unharmed|].
      destruct (Hc He) as [->|[_ [Ht|Ht]]]; [right; right; eauto|by left|by right; left].
    + wp_bind. apply (twp_mono _ (λ _ w2, undone_in cells_kept p w w2)).
      * destruct (is_retryable e); [|by wp_ret].
        eapply twp_mono; [apply reconnect_twp; destruct U as [[_ L] _]; congruence|].
        intros r w2 (I & _). destruct I as (F & Hc2 & _). eapply undone_rebase; [done|exact U|exact F|].
        etrans; [apply U|done].
      * intros r w2 U2. wp_ret. split; [apply U2|]. split; [intros q; by eapply undone_unharmed|done].
Qed.
End Put.
