(* ===== verification/SmbRead.v ===== *)
(** * The SMB provider: reading and deleting

    The stream of [get_blob], [blob_exists], [head_blob], [delete_blob], and
    puts that wait for a permit. *)
From S2P Require Import Prelude Text Errors Providers Externals Keys Effects Streams BlobStore Smb SmbFacts SmbStore SmbServer SmbCalls SmbWrite SmbPut.
From Stdlib Require Import Ascii.

Section Read.
Context `{EX : Externals} `{XL : !ExternalsLaws} `{SC : SmbCrate} `{SH : SmbHandles}.
Context {W : Type} `{H : !Handler smbE W} `{V : !ShareView W} `{S : !Share W}.
Context (self : SmbStorageBackend) (C : config_ok (smb_config self)).

(** The file under the name is not about to go. *)
Definition lasting (w : W) (p : share_name) : Prop :=
  ∀ i, names w !! p = Some i → i ∉ doomed w.

Lemma close_kept f w a w' :
  served w (Close (ResourceFile f)) a w' → file_id f ∉ doomed w → files_kept w w' ∧ cells_kept w w'.
Proof.
  intros Hs Hx. split; [|by eapply served_cells].
  destruct (law_close _ _ _ _ Hs) as ([Hf|(Hi & _)] & _); [done|by destruct Hx].
Qed.

(** The permit of the stream is back, and no file changed. *)
Definition drained (w w' : W) : Prop :=
  files_kept w w' ∧ locked w' = locked w ∧ permits w' = permits w + 1.

Lemma drained_release w w1 (Q : unit → W → Prop) :
  files_kept w w1 → cells_kept w w1 → (∀ w', drained w w' → Q tt w') → twp (call ReleasePermit) Q w1.
Proof.
  intros F [P L] HQ. apply release_twp. intros w' F' _ L' P'. apply HQ.
  split; [by etrans|]. split; congruence.
Qed.

(** What the stream of a file with the content [d] left to read delivers. *)
Definition delivered (d : bytes) (w : W) (cs : list bytes) (oe : option StorageError) (w' : W) :
    Prop :=
  concat cs `prefix_of` d ∧ (oe = None → concat cs = d) ∧ drained w w'.

Lemma delivered_after d w w1 cs oe w' :
  files_kept w w1 → cells_kept w w1 → delivered d w1 cs oe w' → delivered d w cs oe w'.
Proof.
  intros F [P L] (Hp & He & F2 & L2 & P2). split; [done|]. split; [done|].
  split; [by etrans|]. split; congruence.
Qed.

(** One poll. *)
Lemma read_poll f d n w :
  data w !! file_id f = Some d → file_id f ∉ doomed w → Z.of_nat (length d) ≤ i64_MAX →
  (n <= length d)%nat →
  twp (try_unfold_next (read_step self) (Some (Some f, Z.of_nat n, Z.of_nat (length d))))
    (λ r w1, match r with
     | (None, st') => drained w w1 ∧ st' = None ∧ n = length d
     | (Some (Err _), st') => drained w w1 ∧ st' = None
     | (Some (Ok c), st') => files_kept w w1 ∧ cells_kept w w1 ∧ (0 < length c)%nat ∧
         c `prefix_of` drop n d ∧
         st' = Some (Some f, Z.of_nat (n + length c), Z.of_nat (length d))
     end) w.
Proof.
  intros Hd Hx Hlen Hn. unfold try_unfold_next, read_step. wp_bind.
  destruct (Z.leb_spec (Z.of_nat (length d)) (Z.of_nat n)) as [Hle|Hlt].
  - wp_bind. apply close_file_twp. intros a w1 Hs.
    destruct (close_kept _ _ _ _ Hs Hx) as [F1 C1].
    destruct a as [[[]|x]|]; [|intros e _|intros e _]; wp_bind;
      (eapply drained_release; [done|done|]; intros w2 D2; wp_ret; wp_ret; try done).
    split; [done|]. split; [done|lia].
  - wp_bind. apply within_twp. intros a w1 Hs.
    pose proof (idle_quiet _ _ _ _ Hs eq_refl) as (F1 & C1 & _).
    destruct a as [[[|b buffer]|x]|].
    1,3,4: unfold release_err; wp_bind; (eapply drained_release; [done|done|]); intros w2 D2;
      wp_ret; by wp_ret.
    destruct (law_read _ _ _ _ _ _ Hs) as [_ Hp]. specialize (Hp _ Hd).
    rewrite Nat2Z.id in Hp. wp_ret. wp_ret. pose proof (prefix_length _ _ Hp) as Hl.
    rewrite length_drop in Hl. do 2 (split; [done|]). split; [simpl; lia|]. split; [done|].
    rewrite u64_from_len_min.
    by replace (u64_saturating_add _ _) with (Z.of_nat (n + length (b :: buffer))) by zbounds.
Qed.

(** What the stream of a file delivers from an offset on. *)
Lemma read_drains f d n w :
  data w !! file_id f = Some d → file_id f ∉ doomed w → Z.of_nat (length d) ≤ i64_MAX →
  (n <= length d)%nat →
  ∃ cs oe w', drains (try_unfold_next (read_step self))
      (Some (Some f, Z.of_nat n, Z.of_nat (length d))) w cs oe w' ∧
    delivered (drop n d) w cs oe w'.
Proof.
  remember (length d - n)%nat as m eqn:Hm. revert n w Hm.
  induction m as [m IH] using lt_wf_ind. intros n w -> Hd Hx Hlen Hn.
  apply drains_twp. eapply twp_mono; [by apply (read_poll f d n w)|].
  intros [[[c|e]|] st'] w1 Hr; cbn beta iota in Hr |- *.
  - destruct Hr as (F1 & C1 & Hc & [rest Hr] & ->). pose proof F1 as (_ & Hd1 & Hx1).
    pose proof (f_equal length Hr) as Hl. rewrite length_drop, length_app in Hl.
    destruct (IH (length d - (n + length c))%nat ltac:(lia) (n + length c)%nat w1) as (cs & oe & w2 & D & Hdel);
      [done|by rewrite Hd1|by rewrite Hx1|done|lia|].
    exists cs, oe, w2. split; [done|]. eapply delivered_after; [exact F1|exact C1|].
    rewrite <- drop_drop, Hr, drop_app_length in Hdel. rewrite Hr.
    destruct Hdel as (Hpre & Hend & Hdr). split; [by apply prefix_app|].
    split; [intros He; simpl; by rewrite (Hend He)|done].
  - split; [apply prefix_nil|]. by split; [|apply Hr].
  - destruct Hr as (Hr & _ & ->). rewrite drop_ge by lia. by split.
Qed.

(** ** [get_blob] *)

Lemma query_size_twp f (Q : storage_result Z → W → Prop) w :
  (∀ r w', idle w w' → (∀ n d, r = Ok n → data w !! file_id f = Some d →
     n = Z.of_nat (length d) ∧ n ≤ i64_MAX) → Q r w') → twp (query_size self f) Q w.
Proof.
  intros HQ. unfold query_size. apply with_timeout_twp. intros a w1 Hs.
  pose proof (idle_quiet _ _ _ _ Hs eq_refl) as I.
  destruct a as [[n|x]|]; [|intros e _|intros e _]; apply HQ; [done| |done|by intros|done|by intros].
  intros n' d [= <-]. by eapply law_size.
Qed.

(** Opening a file and asking for its size. *)
Lemma open_sized_twp key w :
  key_safe key → locked w = false →
  twp (let*? file := open_file self key read_access in
       let*? size := query_size self file in
       Ret (Ok (file, size)))
    (λ (r : storage_result (File * Z)) w', idle w w' ∧ match r with
     | Ok (f, n) => ∃ d, names w !! key_name self key = Some (file_id f) ∧
         data w !! file_id f = Some d ∧ n = Z.of_nat (length d) ∧ n ≤ i64_MAX
     | Err _ => True
     end) w.
Proof.
  intros Hk Hl. wp_bind. eapply twp_mono; [by apply open_file_twp|]. intros [f|e] w1 [I1 Ho]; [|by wp_ret].
  destruct Ho as [Hn _]. destruct (law_data _ _ _ Hn) as [d Hd]. pose proof I1 as ((_ & Hd1 & _) & _).
  wp_bind. apply query_size_twp. intros r w2 I2 Hsize. assert (I : idle w w2) by by etrans.
  destruct r as [n|e]; wp_ret; [|done]. split; [done|]. exists d. rewrite Hd1 in Hsize.
  destruct (Hsize n d eq_refl Hd). done.
Qed.

(** The body [get_blob] returns for an open file. *)
Definition file_body (key : string) (f : File) (size : Z) : BlobBody smbE :=
  mkBlobBody key (Some (size_metadata key size))
    (with_size_hint (try_unfold (Some f, 0, size) (read_step self) (λ _, call ReleasePermit)) size).

Lemma get_blob_twp key w :
  key_safe key → locked w = false → 0 < permits w →
  twp (get_blob self key) (λ r w', files_kept w w' ∧ locked w' = locked w ∧ match r with
    | Ok body => permits w' = permits w - 1 ∧ ∃ f d, names w !! key_name self key = Some (file_id f) ∧
        data w !! file_id f = Some d ∧ Z.of_nat (length d) ≤ i64_MAX ∧
        body = file_body key f (Z.of_nat (length d))
    | Err _ => permits w' = permits w
    end) w.
Proof.
  intros Hk Hl Hp. unfold get_blob. rewrite (validate_blob_key_safe _ Hk). cbn beta iota. wp_bind.
  eapply twp_mono; [by apply transfer_permit_twp|]. intros r w1 (-> & F1 & _ & L1 & P1).
  pose proof F1 as (N1 & D1 & X1). wp_bind.
  eapply twp_mono; [apply open_sized_twp; [done|congruence]|]. intros [[f n]|e] w2 [(F2 & [P2 L2] & _) Hr].
  - wp_ret. split; [by etrans|]. split; [congruence|]. split; [congruence|].
    destruct Hr as (d & Hn & Hd & -> & Hlen). exists f, d. by rewrite <- N1, <- D1.
  - unfold release_err. wp_bind. apply release_twp. intros w3 F3 _ L3 P3. wp_ret.
    split; [by do 2 (etrans; [done|])|]. split; [congruence|rewrite P3; lia].
Qed.

(** The stream of [get_blob] for a file that stays. *)
Lemma file_body_delivers key f d w :
  data w !! file_id f = Some d → file_id f ∉ doomed w → Z.of_nat (length d) ≤ i64_MAX →
  ∃ cs oe w', delivers (into_inner (bb_body (file_body key f (Z.of_nat (length d))))) w cs oe w' ∧
    delivered d w cs oe w'.
Proof. intros Hd Hx Hlen. apply (read_drains f d 0 w); [done..|lia]. Qed.

(** Reading the whole of it. *)
Lemma file_body_collect key f d w :
  data w !! file_id f = Some d → file_id f ∉ doomed w → Z.of_nat (length d) ≤ i64_MAX →
  twp (collect_storage_stream (bb_body (file_body key f (Z.of_nat (length d)))))
    (λ r w', drained w w' ∧ ∀ b, r = Ok b → b = d) w.
Proof.
  intros Hd Hx Hlen. destruct (file_body_delivers key f d w) as (cs & oe & w2 & D & _ & Hend & Hdr); [done..|].
  assert (Hcap : capacity_ok (Some (Z.of_nat (length d)))) by (simpl; zbounds).
  eexists _, w2. split; [exact (collect_runs _ w cs oe w2 D Hcap)|]. split; [done|].
  destruct oe; [done|]. intros b [= <-]. by apply Hend.
Qed.

Lemma get_blob_range_twp key s e w :
  key_safe key → locked w = false → 0 < permits w → lasting w (key_name self key) →
  u64_ok s → u64_ok e → s ≤ e →
  twp (default_get_blob_range (get_blob self) key (mkRange s e)) (λ r w1, ∀ body, r = Ok body →
    ∃ d r' w2, content w (key_name self key) = Some d ∧
      runs (collect_storage_stream (bb_body body)) w1 r' w2 ∧
      ∀ b, r' = Ok b → b = byte_range s (e - s) d) w.
Proof.
  intros Hk Hl Hp Hlast Hs He Hle. unfold default_get_blob_range. cbn [range_start range_end].
  rewrite (proj2 (Z.ltb_ge e s)) by lia. wp_bind.
  eapply twp_mono; [by apply get_blob_twp|]. intros [body|err] w1 (F1 & L1 & Hr); wp_ret; [|done].
  intros body' [= <-]. destruct Hr as (_ & f & d & Hn & Hd & Hlen & ->). pose proof F1 as (N1 & D1 & X1).
  destruct (file_body_delivers key f d w1) as (cs & oe & w2 & D & Hpre & Hend & _);
    [by rewrite D1|by rewrite X1; apply Hlast|done|].
  destruct (ranged_collect_runs (bb_body (file_body key f (Z.of_nat (length d)))) w1 cs oe w2 s (e - s) D)
    as (w3 & Hc).
  - apply Forall_forall. intros c Hc. unfold chunk_ok. apply prefix_length in Hpre.
    apply list_elem_of_split in Hc as (l1 & l2 & ->). rewrite concat_app in Hpre. cbn [concat] in Hpre.
    rewrite !length_app in Hpre. zbounds.
  - done.
  - unfold u64_ok in *. lia.
  - simpl. zbounds.
  - exists d. unfold content. rewrite Hn. eexists _, w3. split; [done|]. split; [exact Hc|].
    intros b Hb. destruct (range_error s (e - s) cs oe) eqn:Er; [done|]. injection Hb as <-.
    apply range_of_prefix with oe; [done|unfold u64_ok in *; lia|done..].
Qed.

(** C21: [get_blob] takes a permit and, when it succeeds, returns the metadata
    of the blob and a stream that delivers its content: a prefix before an
    error, all of it otherwise, so collecting it gives the content or the error.
    The permit comes back when the stream ends or fails, at once when
    [get_blob] fails, and no file changes.  A range of it collects to exactly
    the bytes the blob has in the range, or an error. *)
Theorem smb_get_blob_spec key w :
  locked w = false → 0 < permits w → lasting w (key_name self key) →
  if decide (key_safe key) then
    twp (get_blob self key) (λ r w1, files_kept w w1 ∧ match r with
      | Ok body => ∃ d, content w (key_name self key) = Some d ∧ bb_key body = key ∧
          bb_metadata body = Some (size_metadata key (Z.of_nat (length d))) ∧
          permits w1 = permits w - 1 ∧
          ∃ cs oe w2, delivers (into_inner (bb_body body)) w1 cs oe w2 ∧
            concat cs `prefix_of` d ∧ (oe = None → concat cs = d) ∧
            files_kept w w2 ∧ cells_kept w w2 ∧
            runs (collect_storage_stream (bb_body body)) w1
              (match oe with None => Ok d | Some e => Err e end) w2
      | Err _ => cells_kept w w1
      end) w ∧
    ∀ s e, u64_ok s → u64_ok e → s ≤ e →
      twp (get_blob_range (BlobStore := smb_blob_store self) key (mkRange s e)) (λ r w1,
        ∀ body, r = Ok body → ∃ d r' w2, content w (key_name self key) = Some d ∧
          runs (collect_storage_stream (bb_body body)) w1 r' w2 ∧
          ∀ b, r' = Ok b → b = byte_range s (e - s) d) w
  else get_blob self key = Ret (Err (InvalidStorageKey key)).
Proof.
  intros Hl Hp Hlast. case_decide as Hk; [|unfold get_blob; by rewrite validate_blob_key_unsafe].
  split; [|intros s e; by apply get_blob_range_twp].
  eapply twp_mono; [by apply get_blob_twp|]. intros [body|e] w1 (F1 & L1 & Hr).
  2: { split; [done|]. by split. }
  destruct Hr as (P1 & f & d & Hn & Hd & Hlen & ->). pose proof F1 as (N1 & D1 & X1).
  split; [done|]. exists d. unfold content. rewrite Hn. do 4 (split; [done|]).
  destruct (file_body_delivers key f d w1) as (cs & oe & w2 & D & Hpre & Hend & F2 & L2 & P2);
    [by rewrite D1|by rewrite X1; apply Hlast|done|].
  exists cs, oe, w2. do 3 (split; [done|]).
  split; [by etrans|]. split; [split; [rewrite P2; lia|congruence]|].
  pose proof (collect_runs (bb_body (file_body key f (Z.of_nat (length d)))) w1 cs oe w2 D) as Hc.
  assert (Hcap : capacity_ok (Some (Z.of_nat (length d)))) by (simpl; zbounds).
  specialize (Hc Hcap). destruct oe; [done|]. by rewrite (Hend eq_refl) in Hc.
Qed.

(** ** [blob_exists], [head_blob], [delete_blob] *)

(** Closing a file of the listing after the rest. *)
Lemma close_lasting_twp f (w0 w : W) (Q : storage_result unit → W → Prop) p :
  idle w0 w → names w0 !! p = Some (file_id f) → lasting w0 p →
  (∀ r w', files_kept w0 w' ∧ cells_kept w0 w' → Q r w') → twp (close_file self f) Q w.
Proof.
  intros (F & Hc & _) Hn Hlast HQ. apply close_file_twp. intros a w1 Hs.
  pose proof F as (_ & _ & Hx).
  destruct (close_kept _ _ _ _ Hs) as [F1 C1]; [rewrite Hx; by apply Hlast|].
  assert (Hboth : files_kept w0 w1 ∧ cells_kept w0 w1) by (split; by etrans).
  destruct a as [[[]|x]|]; [by apply HQ|by intros; apply HQ..].
Qed.

Lemma exists_head_twp key w :
  key_safe key → locked w = false → lasting w (key_name self key) →
    twp (blob_exists self key) (λ r w', files_kept w w' ∧ cells_kept w w' ∧
      ∀ b, r = Ok b → b = bool_decide (is_Some (names w !! key_name self key))) w ∧
    twp (head_blob self key) (λ r w', files_kept w w' ∧ cells_kept w w' ∧
      ∀ m, r = Ok m → m = (λ d, size_metadata key (Z.of_nat (length d))) <$>
                           content w (key_name self key)) w.
Proof.
  intros Hk Hl Hlast. unfold blob_exists, head_blob.
  rewrite (validate_blob_key_safe _ Hk). cbn beta iota.
  assert (Hsame : ∀ w', idle w w' → files_kept w w' ∧ cells_kept w w') by by intros w' (? & ? & _).
  split; wp_bind; (eapply twp_mono; [by apply open_file_twp|]); intros [f|e] w1 [I1 Ho].
  - destruct Ho as [Hn _]. wp_bind. eapply close_lasting_twp; [done..|]. intros r w2 [F2 C2].
    rewrite Hn. destruct r as [[]|e]; wp_ret; (split; [done|]); (split; [done|]); [|done].
    intros b [= <-]. by rewrite bool_decide_eq_true_2.
  - destruct Ho as [_ Hnf]. apply Hsame in I1 as [F1 C1].
    destruct (is_not_found e); wp_ret; (split; [done|]); (split; [done|]); [|done].
    intros b [= <-]. rewrite (Hnf eq_refl). by rewrite bool_decide_eq_false_2 by (by intros []).
  - destruct Ho as [Hn _]. wp_bind. apply query_size_twp. intros r w2 I2 Hsize.
    assert (I : idle w w2) by by etrans. destruct r as [n|e].
    2: { wp_ret. apply Hsame in I as [??]. split; [done|]. by split. }
    wp_bind. eapply close_lasting_twp; [done..|]. intros r w3 [F3 C3]. unfold content. rewrite Hn. simpl.
    destruct r as [[]|e]; wp_ret; (split; [done|]); (split; [done|]); [|done].
    intros m [= <-]. destruct (law_data _ _ _ Hn) as [d Hd]. rewrite Hd. simpl.
    destruct I1 as ((_ & Hd1 & _) & _). destruct (Hsize n d eq_refl) as [-> _]; [by rewrite Hd1|done].
  - destruct Ho as [_ Hnf]. apply Hsame in I1 as [F1 C1].
    destruct (is_not_found e); wp_ret; (split; [done|]); (split; [done|]); [|done].
    intros m [= <-]. unfold content. by rewrite (Hnf eq_refl).
Qed.

Lemma delete_blob_twp key w :
  key_safe key → locked w = false →
  twp (delete_blob self key) (λ r w', cells_kept w w' ∧
    (∀ q, q ≠ key_name self key → unharmed w w' q) ∧
    (names w' !! key_name self key = names w !! key_name self key ∨
     names w' !! key_name self key = None) ∧
    (r = Ok tt → (∀ f, is_open w' f → names w !! key_name self key ≠ Some (file_id f)) →
     names w' !! key_name self key = None)) w.
Proof.
  intros Hk Hl. unfold delete_blob. rewrite (validate_blob_key_safe _ Hk). cbn beta iota.
  eapply twp_mono; [by apply remove_file_twp|]. intros r w' [R Hr]. split; [apply R|]. split.
  - intros q Hq. eapply unharmed_removes; [exact Hq|by apply unharmed_kept|done].
  - split.
    + destruct R as (_ & _ & [->| ->] & _); [by left|right]. apply lookup_delete_eq.
    + by intros ->.
Qed.

(** C25: the other operations on one key.  [blob_exists] and [head_blob] tell
    whether there is a file under the key, and its size, or fail; a missing key
    is no error, and they change no file.  [delete_blob] touches no other name;
    when it succeeds the name is gone, as soon as no other handle is open on the
    file.  An invalid key is refused before any call. *)
Theorem smb_store_spec key w :
  locked w = false → lasting w (key_name self key) →
  if decide (key_safe key) then
    twp (blob_exists self key) (λ r w', files_kept w w' ∧ cells_kept w w' ∧
      ∀ b, r = Ok b → b = bool_decide (is_Some (names w !! key_name self key))) w ∧
    twp (head_blob self key) (λ r w', files_kept w w' ∧ cells_kept w w' ∧
      ∀ m, r = Ok m → m = (λ d, size_metadata key (Z.of_nat (length d))) <$>
                           content w (key_name self key)) w ∧
    twp (delete_blob self key) (λ r w', cells_kept w w' ∧
      (∀ q, q ≠ key_name self key → unharmed w w' q) ∧
      (names w' !! key_name self key = names w !! key_name self key ∨
       names w' !! key_name self key = None) ∧
      (r = Ok tt → (∀ f, is_open w' f → names w !! key_name self key ≠ Some (file_id f)) →
       names w' !! key_name self key = None)) w
  else
    blob_exists self key = Ret (Err (InvalidStorageKey key)) ∧
    head_blob self key = Ret (Err (InvalidStorageKey key)) ∧
    delete_blob self key = Ret (Err (InvalidStorageKey key)).
Proof.
  intros Hl Hlast. case_decide as Hk.
  - destruct (exists_head_twp key w Hk Hl Hlast) as [He Hh]. split; [exact He|].
    split; [exact Hh|by apply delete_blob_twp].
  - unfold blob_exists, head_blob, delete_blob. by rewrite validate_blob_key_unsafe.
Qed.

(** ** Permits and copies *)

Lemma acquire_never {A} (k : result unit unit → prog smbE A) w a w' :
  permits w ≤ 0 → ¬ runs (bind acquire_owned k) w a w'.
Proof.
  intros Hp. apply (iter_never (λ _ w, permits w ≤ 0)); [done|]. intros [] w1 r w2 H1 Hr.
  apply runs_bind in Hr as (x & w3 & Hx & Hr). unfold call in Hx. apply runs_vis in Hx.
  destruct (handle TryAcquire w1) as [y w4] eqn:E. apply runs_ret in Hx as [-> ->]. simpl in *.
  destruct (law_try_acquire _ _ _ E) as [_ Hy]. rewrite decide_False in Hy by lia.
  destruct Hy as [-> Hy]. apply runs_ret in Hr as [-> ->]. exists tt. split; [done|lia].
Qed.

(** Without a permit a put of a valid key never returns. *)
Lemma put_blob_never key body options w r w' :
  key_safe key → permits w ≤ 0 → ¬ runs (put_blob self key body options) w r w'.
Proof.
  intros Hk Hp Hr. unfold put_blob in Hr. rewrite (validate_blob_key_safe _ Hk) in Hr. cbn beta iota in Hr.
  apply runs_bind in Hr as (t & w1 & Ht & Hr). unfold temp_key in Ht.
  apply runs_bind in Ht as (u & w2 & Hu & Ht). apply runs_ret in Ht as [-> ->].
  unfold call in Hu. apply runs_vis in Hu. destruct (handle SmbNewV4 w) as [u' w3] eqn:E.
  apply runs_ret in Hu as [-> ->]. simpl in *.
  destruct (law_cells _ _ _ _ _ E eq_refl) as [P _].
  destruct (temp_key_good key u' Hk) as (temp & Ht & _). rewrite Ht in Hr. cbn beta iota in Hr.
  eapply (acquire_never _ w3); [|exact Hr]. lia.
Qed.
End Read.
