(* ===== verification/SmbCopy.v ===== *)
(** * The SMB provider: copies

    [copy_blob] writes the stream of [get_blob] to the new key.  The stream
    makes requests while the file is written, and it holds a permit until it
    has been read or is dropped: two permits are enough, one is not. *)
From S2P Require Import Prelude Text Errors Providers Externals Keys Effects Streams BlobStore Smb SmbFacts SmbStore SmbServer SmbCalls SmbWrite SmbPut SmbRead.
From Stdlib Require Import Ascii.

Section Copy.
Context `{EX : Externals} `{XL : !ExternalsLaws} `{SC : SmbCrate} `{SH : SmbHandles}.
Context {W : Type} `{H : !Handler smbE W} `{V : !ShareView W} `{S : !Share W}.
Context (self : SmbStorageBackend) (C : config_ok (smb_config self)).

Lemma drained_holding {K'} p i w0 d w w1 :
  holding_in (K := cells_kept) p i w0 d w → drained w w1 → K' w0 w1 →
  holding_in (K := K') p i w0 d w1.
Proof. intros Hh (F & _) Hk. by eapply holding_rebase. Qed.

(** The stream of [get_blob] for the open file [g] in its state [st]. *)
Abbreviation file_source from g d := (into_inner (bb_body (file_body self from g (Z.of_nat (length d))))).

(** Dropping the stream gives its permit back, unless it has ended. *)
Lemma drop_live from g (d : bytes) s (x : bs_state (file_source from g d) * Z * Sha256 + storage_result (Z * Sha256))
    w (Q : _ → W → Prop) :
  (∀ w', files_kept w w' → given_back w w' → Q x w') →
  twp (let* _ := bs_drop (file_source from g d) (Some s) in Ret x) Q w.
Proof.
  intros HQ. wp_bind. apply release_twp. intros w1 F _ L P. wp_ret. by apply HQ.
Qed.

(** The loop of the write over the stream of an open file [g]: from a state in
    which [n] bytes were copied. *)
Lemma copy_loop key f g d w0 :
  key_safe key → locked w0 = false → Z.of_nat (length d) ≤ i64_MAX →
  data w0 !! file_id g = Some d → file_id g ∉ doomed w0 → file_id g ≠ file_id f →
  ∀ from cs n w, (n <= length d)%nat → concat cs = take n d →
  holding_in (K := cells_kept) (key_name self key) (file_id f) w0 (take n d) w →
  twp (loop (chunk_step self key f (into_inner (bb_body (file_body self from g (Z.of_nat (length d))))))
         (Some (Some g, Z.of_nat n, Z.of_nat (length d)), Z.of_nat n, foldl sha256_update sha256_new cs))
    (looped given_back (key_name self key) (file_id f) w0 (λ cs, concat cs = d) (λ _, True)) w.
Proof.
  intros Hk Hl Hlen Hd Hx Hne from cs n. set (p := key_name self key).
  remember (length d - n)%nat as m eqn:Hm. revert n cs Hm.
  induction m as [m IH] using lt_wf_ind. intros n cs -> w Hn Hcs Hh.
  pose proof Hh as ([E0 [P0 L0] N0 M0 D0 O0] & _). apply twp_iter. unfold chunk_step. wp_bind.
  eapply twp_mono; [apply (read_poll self g d n w)|].
  { by rewrite D0. }
  { by intros [?|?]%O0. }
  { done. }
  { done. }
  intros [[[c|e]|] st'] w1 Hr; cbn beta iota in Hr |- *.
  - destruct Hr as (F1 & C1 & Hc & [rest Hr] & ->).
    pose proof (f_equal length Hr) as Hlr. rewrite length_drop, length_app in Hlr.
    assert (H1 : holding_in (K := cells_kept) p (file_id f) w0 (take n d) w1)
      by (eapply holding_rebase; [|exact Hh|..]; [done|done|by etrans; [|exact C1]]).
    wp_bind. replace (Z.of_nat n) with (Z.of_nat (length (take n d))) by (rewrite length_take; lia).
    eapply twp_mono; [eapply (block_loop self C (K := cells_kept) key f (file_id f) w0 c (take n d) w1); done|].
    intros [off|e] w2 [Hw Ho].
    + wp_ret. rewrite (Ho off eq_refl).
      assert (Ht : take n d ++ c = take (n + length c) d).
      { by rewrite <- (take_take_drop d n (length c)), Hr, take_app_length. }
      simpl in Hw. rewrite Ht in *. rewrite length_take, Nat.min_l by lia.
      replace (sha256_update _ c) with (foldl sha256_update sha256_new (cs ++ [c]))
        by by rewrite foldl_app.
      eapply (IH (length d - (n + length c))%nat); [lia|done|lia| |done].
      rewrite concat_app, Hcs. simpl. by rewrite app_nil_r.
    + destruct Hw as [O _]. apply drop_live. intros w3 F3 C3. wp_ret. split; [|by right].
      eapply own_rebase; [|exact O|exact F3|]; [done|]. by apply (side_after _ _ _ _ (own_cells _ _ _ _ O)).
  - destruct Hr as ((F1 & L1 & P1) & ->). wp_bind.
    eapply twp_mono; [eapply (cleanup_twp self C (K := given_back)); [done..|]|].
    + eapply own_rebase; [|by eapply holding_own|exact F1|]; [done|]. split; [lia|congruence].
    + intros u w2 O. wp_bind. wp_ret. wp_ret. wp_ret. split; [done|by right].
  - destruct Hr as ((F1 & L1 & P1) & -> & ->). wp_bind. wp_ret. wp_ret. wp_ret.
    exists cs. rewrite take_ge in * by lia.
    split; [done|]. split; [by rewrite Hcs|]. split; [done|]. rewrite Hcs.
    eapply holding_rebase; [|exact Hh|exact F1|]; [done|]. split; [lia|congruence].
Qed.
Lemma feeds_file key from g d q w :
  key_safe key → Z.of_nat (length d) ≤ i64_MAX → names w !! q = Some (file_id g) →
  data w !! file_id g = Some d → file_id g ∉ doomed w →
  feeds self given_back key (bb_body (file_body self from g (Z.of_nat (length d)))) w
    (λ cs, concat cs = d) (λ _, True).
Proof.
  intros Hk Hlen Hn Hd Hx f w1 w2 (N1 & D1 & X1) Hl Hh.
  apply (copy_loop key f g d w1 Hk Hl Hlen) with (cs := []) (n := 0%nat); [|..|lia|done|done].
  - by rewrite D1.
  - by rewrite X1.
  - intros E. destruct Hh as ([E0 _] & _). apply (E0 q). by rewrite N1, Hn, E.
Qed.

Lemma dropped_file from g (d : bytes) :
  dropped given_back (bb_body (file_body self from g (Z.of_nat (length d)))).
Proof. intros w. apply release_twp. intros w1 F _ L P. by split. Qed.

(** What a copy leaves. *)
Definition copied (from to : string) (w : W) (r : storage_result unit) (w' : W) : Prop :=
  let p := key_name self to in
  cells_kept w w' ∧
  match r with
  | Ok _ =>
      (∃ d, content w (key_name self from) = Some d ∧ stored w' p d) ∧
      ∀ q, q ≠ p → unharmed w w' q
  | Err _ =>
      (unharmed w w' p ∨ ∃ d, content w (key_name self from) = Some d ∧ stored w' p d) ∧
      ∀ q, q ≠ p → ¬ is_temp_of self to q → unharmed w w' q
  end.

Lemma copied_kept from to w w' e : files_kept w w' → cells_kept w w' → copied from to w (Err e) w'.
Proof. intros F L. split; [done|]. split; [left|intros q _ _]; by apply unharmed_kept. Qed.

Lemma copied_put from to d w w1 r w2 :
  files_kept w w1 → locked w1 = locked w → permits w1 = permits w - 1 →
  content w (key_name self from) = Some d →
  put_result self given_back to (λ cs, concat cs = d) w1 r w2 →
  copied from to w (result_map (λ _, tt) r) w2.
Proof.
  intros F L P Hd [[P2 L2] Hr]. split; [split; [lia|congruence]|]. destruct r as [o|e]; simpl in *.
  - destruct Hr as (cs & <- & _ & Hst & Hu). split; [by eexists|].
    intros q Hq. eapply unharmed_after; [done|by apply Hu].
  - destruct Hr as [Hk Hu]. split.
    + destruct Hk as [Hk|(cs & <- & Hk)]; [left; by eapply unharmed_after|right; by eexists].
    + intros q Hq Ht. eapply unharmed_after; [done|by apply Hu].
Qed.

(** The copy of a blob with two permits. *)
Lemma copy_blob_twp from to w :
  key_safe from → locked w = false → 2 ≤ permits w → lasting w (key_name self from) →
  (∀ body w1, runs (get_blob self from) w (Ok body) w1 → fresh_temp self to w1) →
  twp (copy_blob self from to) (copied from to w) w.
Proof.
  intros Hf Hl Hp Hlast Hfresh. unfold copy_blob, default_copy_blob. wp_bind.
  pose proof (get_blob_twp self C from w Hf Hl ltac:(lia)) as (r & w1 & Hr & F1 & L1 & Hb).
  exists r, w1. split; [exact Hr|]. destruct r as [body|e]; [|wp_ret; by apply copied_kept; [|split]].
  destruct Hb as (P1 & g & d & Hn & Hd & Hlen & ->). specialize (Hfresh _ _ Hr).
  pose proof F1 as (N1 & D1 & X1). wp_bind. destruct (decide (key_safe to)) as [Ht|Ht].
  - eapply twp_mono; [apply (put_blob_twp self C given_back) with (P := λ cs, concat cs = d)
      (of_body := λ _, True); [done|congruence|lia|done|apply dropped_file|]|].
    + intros temp Hk _. eapply (feeds_file temp from g d (key_name self from)); [done|done|..].
      * by rewrite N1.
      * by rewrite D1.
      * rewrite X1. by apply Hlast.
    + intros r w2 Hput. pose proof (copied_put from to d w w1 r w2 F1 L1 P1) as Hc.
      unfold content in Hc. rewrite Hn in Hc. specialize (Hc Hd Hput).
      destruct r; wp_ret; exact Hc.
  - rewrite put_blob_refused by done. wp_bind. eapply twp_mono; [apply dropped_file|].
    intros u w2 [F2 [P2 L2]]. wp_ret. wp_ret.
    apply copied_kept; [by etrans|]. split; [lia|congruence].
Qed.

(** With one permit the put of a copy waits for the permit the stream holds. *)
Lemma copy_single_permit from to w :
  key_safe from → key_safe to → locked w = false → permits w = 1 →
  ∀ body w1, runs (get_blob self from) w (Ok body) w1 →
  ∀ r w', ¬ runs (copy_blob self from to) w r w'.
Proof.
  intros Hf Ht Hl Hp body w1 Hg r w' Hr.
  assert (Hg' : twp (get_blob self from) (λ r w', match r with Ok _ => permits w' = 0 | Err _ => True end) w).
  { eapply twp_mono; [apply (get_blob_twp self C); [done|done|lia]|]. intros [b|e] w2 (_ & _ & Hb); [|done].
    destruct Hb as [-> _]. lia. }
  pose proof (twp_runs _ _ _ _ _ Hg' Hg) as H0. cbn beta iota in H0.
  unfold copy_blob, default_copy_blob in Hr. apply runs_bind in Hr as (x & w2 & Hx & Hr).
  destruct (runs_det _ _ _ _ _ _ Hg Hx) as [<- <-].
  apply runs_bind in Hr as (y & w3 & Hy & _). eapply (put_blob_never self); [exact Ht| |exact Hy]. lia.
Qed.

(** C22: [copy_blob] with at least two permits returns, with all permits free
    again whatever the outcome, as a stream that is dropped before its end gives
    its permit back: on success the target holds what the source held and no
    other name changed; on an error the target holds what it held before, or the
    whole content of the source, and at most a temporary file of the target is
    left.  With one permit a copy of a blob that can be read never returns: the
    stream of [get_blob] holds the permit the put of the default [copy_blob]
    waits for, and gives it back only when it has been read or dropped. *)
Theorem smb_copy_blob_spec from to w :
  key_safe from → key_safe to → locked w = false →
  (2 ≤ permits w → lasting w (key_name self from) →
   (∀ body w1, runs (get_blob self from) w (Ok body) w1 → fresh_temp self to w1) →
   twp (copy_blob self from to) (copied from to w) w) ∧
  (permits w = 1 → ∀ body w1, runs (get_blob self from) w (Ok body) w1 →
   ∀ r w', ¬ runs (copy_blob self from to) w r w').
Proof.
  intros Hf Ht Hl. split; [by apply copy_blob_twp|by apply copy_single_permit].
Qed.
End Copy.
