(* ===== verification/SmbRace.v ===== *)
(** * Concurrent conditional creates on SMB (src/src/smb.rs)

    [put_blob_if_not_exists] creates the file of the key exclusively, writes
    it in place and, when the write fails, deletes it {e by its name}.  That is
    safe as long as nobody else takes the name in between.  The token of a
    program (Tokens.v) is the file it created, with its name and what has been
    written to it; with any number of conditional creates and readers at once,
    nobody touches the file of another.  (An unconditional put renames its
    file over the name, and a failing create then deletes that: see
    SmbWitnesses.v.) *)
From S2P Require Import Prelude Text Errors Providers Externals Paths Keys Effects Streams BlobStore Smb SmbFacts SmbStore SmbServer SmbCalls SmbWrite SmbPut Tokens.
From Stdlib Require Import Ascii.

(** A created file: its name, its number and its content. *)
Record Created : Type := mkCreated {
  c_name : share_name;
  c_file : positive;
  c_data : bytes;
}.

Section Files.
Context `{EX : Externals} `{SC : SmbCrate} `{SH : SmbHandles}.
Context {W : Type} `{H : !Handler smbE W} `{V : !ShareView W} `{S : !Share W}.

Definition keeps (t : option Created) (w : W) : Prop :=
  match t with
  | None => True
  | Some c => names w !! c_name c = Some (c_file c) ∧ data w !! c_file c = Some (c_data c) ∧
              c_file c ∉ doomed w
  end.

Definition disjoint_files (t u : option Created) : Prop :=
  match t, u with Some c, Some d => c_name c ≠ c_name d | _, _ => True end.

(** The requests a program may make: it creates one file, and writes and
    deletes that one only. *)
Definition may {X} (t : option Created) (r : smbR X) : Prop :=
  match r with
  | CreateFile _ _ make_create_new => t = None
  | CreateFile _ _ make_overwrite => False
  | SetRename _ _ _ => False
  | WriteBlock f _ _ => ∃ c, t = Some c ∧ c_file c = file_id f
  | SetDisposition f => ∃ c, t = Some c ∧ c_file c = file_id f
  | _ => True
  end.

(** The token after an answer ([None]: the deadline passed). *)
Definition after_request {X} (t : option Created) (r : smbR X) :
    option X → option Created → Prop :=
  match r in smbR X return option X → option Created → Prop with
  | CreateFile _ path make_create_new => λ a t', t' =
      match a with
      | Some (Ok (ResourceFile f)) => Some (mkCreated (unc_name path) (file_id f) [])
      | _ => t
      end
  | CreateFile _ path (make_open_existing _) => λ a t', t' = t ∧
      ∀ f c, a = Some (Ok (ResourceFile f)) → t = Some c → c_name c = unc_name path →
        c_file c = file_id f
  | WriteBlock f b offset => λ a t', ∃ c d, t = Some c ∧ t' = Some (mkCreated (c_name c) (c_file c) d) ∧
      ∀ n, a = Some (Ok n) → 0 ≤ n ≤ Z.of_nat (length b) ∧ offset + n ≤ i64_MAX ∧
        (offset = Z.of_nat (length (c_data c)) → d = c_data c ++ take (Z.to_nat n) b)
  | SetDisposition _ => λ _ t', t' = None
  | _ => λ _ t', t' = t
  end.

Definition files : Protocol smbE W :=
  mkProtocol smbE W (option Created) keeps disjoint_files
    (λ X t e, match e with Within _ r => may t r | Await r => may t r | _ => True end)
    (λ X t e, match e in smbE X return X → option Created → Prop with
              | Within _ r => λ a t', after_request t r a t'
              | Await r => λ x t', after_request t r (Some x) t'
              | _ => λ _ t', t' = t
              end).

(** ** The requests keep the files of others *)

Lemma kept_keeps w w' t : files_kept w w' → keeps t w → keeps t w'.
Proof. intros (N & D & X). destruct t as [c|]; [|done]. simpl. by rewrite N, D, X. Qed.

Lemma drops_keeps w w' i t : drops w i w' → keeps t w → keeps t w'.
Proof.
  intros (Hi & Hp & Hn & Hd & Hx). destruct t as [c|]; [|done]. intros (N & D & X). simpl.
  rewrite Hd. split_and!; [|done|set_solver].
  destruct (decide (map_Exists (λ _ j, j = i) (names w))) as [(p & j & Ej & ->)|Hno].
  - rewrite (Hp p Ej), lookup_delete_ne; [done|]. intros ->. congruence.
  - rewrite Hn; [done|]. intros p Ep. apply Hno. by exists p, i.
Qed.

Lemma creates_keeps w w' p i t : creates w p i w' → keeps t w → keeps t w'.
Proof.
  intros (Hp & Hi & Hx & N' & D' & X'). destruct t as [c|]; [|done]. intros (N & D & X). simpl.
  rewrite N', D', X', !lookup_insert_ne; [done|intros E; by rewrite E in Hi; eapply Hi|congruence].
Qed.

Lemma creates_disjoint w p i w' t :
  creates w p i w' → keeps t w → disjoint_files (Some (mkCreated p i [])) t.
Proof. intros (Hp & _). destruct t as [c|]; [|done]. intros (N & _). simpl. congruence. Qed.

Lemma creates_created w p i w' : creates w p i w' → keeps (Some (mkCreated p i [])) w'.
Proof.
  intros (_ & _ & Hx & N' & D' & X'). simpl. by rewrite N', D', X', !lookup_insert_eq.
Qed.

(** Tokens that are disjoint have different files. *)
Lemma disjoint_ids w c d :
  keeps (Some c) w → keeps (Some d) w → disjoint_files (Some c) (Some d) → c_file c ≠ c_file d.
Proof. intros (Nc & _) (Nd & _) Hne E. rewrite E in Nc. by eapply Hne, law_no_links. Qed.

(** The step of one program, for its own token and any other. *)
Definition moves_on (t t' : option Created) (w w' : W) : Prop :=
  keeps t' w' ∧ ∀ u, disjoint_files t u → keeps u w → keeps u w' ∧ disjoint_files t' u.

Lemma moves_on_kept t w w' : files_kept w w' → keeps t w → moves_on t t w w'.
Proof. intros F Ht. split; [by eapply kept_keeps|]. intros u Hu Hk. split; [by eapply kept_keeps|done]. Qed.

Lemma moves_on_close t f w a w' :
  served w (Close (ResourceFile f)) a w' → keeps t w → moves_on t t w w'.
Proof.
  intros [[F|D] _]%law_close Ht; [by apply moves_on_kept|].
  split; [by eapply drops_keeps|]. intros u Hu Hk. split; [by eapply drops_keeps|done].
Qed.

Lemma moves_on_create c path w a w' :
  served w (CreateFile c path make_create_new) a w' →
  moves_on None (match a with
                 | Some (Ok (ResourceFile f)) => Some (mkCreated (unc_name path) (file_id f) [])
                 | _ => None
                 end) w w'.
Proof.
  intros [_ Hr]%law_create_new.
  assert (Hnone : files_kept w w' ∨ (∃ i, creates w (unc_name path) i w') → moves_on None None w w').
  { intros [F|[i C]]; [by apply moves_on_kept|]. split; [done|]. intros u _ Hk.
    split; [by eapply creates_keeps|done]. }
  destruct a as [[[f|h|h]|e]|]; try by destruct Hr; apply Hnone.
  destruct Hr as [C _]. split; [by eapply creates_created|]. intros u _ Hk.
  split; [by eapply creates_keeps|by eapply creates_disjoint].
Qed.

Lemma moves_on_write c f b offset w a w' :
  served w (WriteBlock f b offset) a w' → keeps (Some c) w → c_file c = file_id f →
  ∃ d, moves_on (Some c) (Some (mkCreated (c_name c) (c_file c) d)) w w' ∧
    ∀ n, a = Some (Ok n) → 0 ≤ n ≤ Z.of_nat (length b) ∧ offset + n ≤ i64_MAX ∧
      (offset = Z.of_nat (length (c_data c)) → d = c_data c ++ take (Z.to_nat n) b).
Proof.
  intros (N & X & _ & D & Hs & Hg)%law_write (Nc & Dc & Xc) Hf. rewrite <- Hf in D, Hs, Hg.
  destruct Hs as [d Hd]; [by eexists|]. exists d. split.
  - split; [by simpl; rewrite N, X|]. intros [u|] Hu; [|done]. intros Hk. split; [|done].
    assert (c_file c ≠ c_file u) by by eapply disjoint_ids.
    destruct Hk as (Nu & Du & Xu). simpl. by rewrite N, X, D.
  - intros n Hn. destruct (Hg n Hn) as (? & ? & Hw). split_and!; [lia..|].
    intros Ho. specialize (Hw _ Dc Ho). congruence.
Qed.

Lemma moves_on_dispose c f w a w' :
  served w (SetDisposition f) a w' → keeps (Some c) w → c_file c = file_id f →
  moves_on (Some c) None w w'.
Proof.
  intros (N & D & _ & X & _)%law_disposition Hc Hf. split; [done|]. intros [u|] Hu; [|done].
  intros Hk. split; [|done]. assert (c_file c ≠ c_file u) by by eapply disjoint_ids.
  destruct Hk as (Nu & Du & Xu). simpl. rewrite N, D. split_and!; [done..|].
  destruct X as [-> | ->]; [done|]. apply not_elem_of_union. split; [|done].
  apply not_elem_of_singleton. congruence.
Qed.

Lemma request_moves {X} (r : smbR X) t w a w' :
  served w r a w' → may t r → keeps t w → ∃ t', after_request t r a t' ∧ moves_on t t' w w'.
Proof.
  intros Hs Hm Ht.
  assert (Hq : quiet r = true → moves_on t t w w').
  { intros Hq. destruct (law_quiet _ _ _ _ _ Hs Hq). by apply moves_on_kept. }
  destruct r; simpl in Hm; try (by exists t; split; [done|by apply Hq]); try done.
  - destruct args; try done.
    + exists t. pose proof (law_open _ _ _ _ _ _ Hs) as (F & _ & Ho). split; [|by apply moves_on_kept].
      split; [done|]. intros f c -> -> Hn. destruct Ho as [Hi _], Ht as [Nc _]. congruence.
    + subst t. eexists. split; [done|]. by eapply moves_on_create.
    + exists t. split; [done|by apply Hq].
  - destruct resource as [f|h|h]; exists t; (split; [done|]);
      [by eapply moves_on_close|by apply Hq..].
  - destruct Hm as (c & -> & Hf). destruct (moves_on_write c file b offset w a w' Hs Ht Hf) as (d & M & Hd).
    eexists. split; [|exact M]. by exists c, d.
  - destruct Hm as (c & -> & Hf). exists None. split; [done|]. by eapply moves_on_dispose.
Qed.

#[export] Instance files_lawful : Lawful files.
Proof.
  split.
  - by intros [c|] [d|].
  - intros X e t w Ha Ht. destruct (handle e w) as [x w'] eqn:E.
    assert (Hl : remote e = false → moves_on t t w w').
    { intros Hr. destruct (law_local _ _ _ _ _ E Hr). by apply moves_on_kept. }
    destruct e; simpl in Ha; try (by exists t; split; [done|by apply Hl]).
    + apply (request_moves r t w x w'); [left; eauto|done..].
    + apply (request_moves r t w (Some x) w'); [right; eauto|done..].
Qed.
End Files.

(** ** The operations of the provider *)

Section Operations.
Context `{EX : Externals} `{SC : SmbCrate} `{SH : SmbHandles}.
Context {W : Type} `{H : !Handler smbE W} `{V : !ShareView W} `{S : !Share W}.
Context (self : SmbStorageBackend) (Hc : config_ok (config self)).

Abbreviation passive := (passive (files (W := W))).
Abbreviation guards := (guards (files (W := W))).

(** Requests that leave the token alone. *)
Definition calm_request {X} (r : smbR X) : bool :=
  match r with
  | CreateFile _ _ make_create_new | CreateFile _ _ make_overwrite | SetRename _ _ _
  | WriteBlock _ _ _ | SetDisposition _ => false
  | _ => true
  end.

Lemma calm_requests {X} (r : smbR X) t :
  calm_request r = true → may t r ∧ ∀ a u, after_request t r a u → u = t.
Proof. destruct r; try done. destruct args; try done. intros _. split; [done|]. by intros a u [-> _]. Qed.

Lemma passive_within {X} d (r : smbR X) : calm_request r = true → passive (call (Within d r)).
Proof. intros Hr. apply passive_call. intros t. by apply calm_requests. Qed.

Lemma passive_await {X} (r : smbR X) : calm_request r = true → passive (call (Await r)).
Proof.
  intros Hr. apply passive_call. intros t. destruct (calm_requests r t Hr) as [Hm Ha].
  split; [done|]. intros x u. apply Ha.
Qed.

Lemma passive_local {X} (e : smbE X) : remote e = false → passive (call e).
Proof. intros He. apply passive_call. intros t. destruct e; try done; by split; [|intros x u]. Qed.

Lemma passive_with_timeout {A} op (r : smbR (result A SmbError)) :
  calm_request r = true → passive (with_timeout self op r).
Proof. intros Hr. apply passive_bind; [by apply passive_within|]. by intros [x|]. Qed.

Lemma passive_close_file f : passive (close_file self f).
Proof. by apply passive_with_timeout. Qed.

Lemma passive_close_resource h : passive (close_resource h).
Proof. by apply passive_await. Qed.

Lemma passive_permit : passive transfer_permit.
Proof.
  apply passive_bind; [|done]. apply passive_loop. intros s.
  apply passive_bind; [by apply passive_local|]. by intros [r|].
Qed.

Lemma passive_connect_client cfg : passive (connect_client cfg).
Proof.
  unfold connect_client. destruct (unc_share "connect" cfg); [|done].
  apply passive_bind; [by apply passive_within|]. by intros [x|].
Qed.

Lemma passive_attempts delays e : passive (reconnect_attempts self delays e).
Proof.
  revert e. induction delays as [|d ds IH]; intros e; simpl; [done|].
  apply (passive_bind _ (call SmbNewV4)); [by apply passive_local|]. intros u.
  apply (passive_bind _ (call _)); [by apply passive_local|]. intros _.
  apply passive_bind; [apply passive_connect_client|]. intros [c|e'].
  - apply (passive_bind _ (call _)); [by apply passive_local|done].
  - by destruct (negb _).
Qed.

Lemma passive_reconnect : passive (reconnect_with_backoff self).
Proof.
  unfold reconnect_with_backoff. apply passive_bind.
  - apply passive_loop. intros s. apply passive_bind; [by apply passive_local|]. by intros [].
  - intros _. apply passive_bind; [apply passive_attempts|]. intros r.
    apply passive_bind; [by apply passive_local|done].
Qed.

Lemma passive_ensure_parents key : passive (ensure_parent_directories self key).
Proof.
  unfold ensure_parent_directories, ensure_directories. destruct (mapped_key _ key) as [m|]; [|done].
  destruct (rsplit_once "/" m) as [[parent name]|]; [|done].
  apply (passive_bind _ (call _)); [by apply passive_local|]. intros client.
  destruct (share_path self) as [base|]; [|done]. generalize "" as current.
  induction (split "/" parent) as [|s ss IH]; intros current; cbn [ensure_segments]; [done|].
  apply passive_bind; [by apply passive_with_timeout|]. intros [h|e]; [|done].
  apply passive_bind; [apply passive_close_resource|]. intros [[]|e]; [|done]. apply IH.
Qed.

(** ** The file of a conditional create *)

Lemma guards_open t client path access :
  guards t (with_timeout self "open" (CreateFile client path (make_open_existing access)))
    (λ r u, u = t ∧ ∀ f c, r = Ok (ResourceFile f) → t = Some c → c_name c = unc_name path →
       c_file c = file_id f).
Proof.
  split; [done|]. intros a u [-> Ha]. destruct a as [[h|e]|]; (split; [done|]); try done.
  intros f c [= ->]. by apply Ha.
Qed.

(** Opening the key by its name opens the program's own file. *)
Lemma guards_open_file t key access :
  key_safe key →
  guards t (open_file self key access)
    (λ r u, u = t ∧ ∀ f c, r = Ok f → t = Some c → c_name c = key_name self key →
       c_file c = file_id f).
Proof.
  intros Hk. pose proof (remote_path_cases self Hc key Hk) as Hp. unfold open_file.
  destruct (remote_path self key) as [path|e]; [|done]. rewrite <- Hp.
  apply (guards_passive _ _ (call _)); [by apply passive_local|]. intros client.
  eapply guards_then; [apply guards_open|]. intros first u [-> Hfirst].
  apply (guards_then _ _ _ _ (λ r u, u = t ∧ ∀ f c, r = Ok (ResourceFile f) → t = Some c →
    c_name c = unc_name path → c_file c = file_id f)).
  - destruct first as [h|e]; [done|]. destruct (is_retryable e); [|done].
    apply guards_passive; [apply passive_reconnect|]. intros [[]|e']; [|done].
    apply (guards_passive _ _ (call _)); [by apply passive_local|]. intros c'. apply guards_open.
  - intros [[f|h|h]|e] u [-> Hr]; [|apply guards_passive; [apply passive_close_resource|done]..|done].
    split; [done|]. intros g c [= <-]. by apply Hr.
Qed.

Section Own.
Context (key : string) (Hk : key_safe key).

(** Deleting the key deletes the program's own file. *)
Lemma guards_remove_file c :
  c_name c = key_name self key → guards (Some c) (remove_file self key) (λ _ _, True).
Proof.
  intros Hn. eapply guards_then; [by apply guards_open_file|].
  intros [f|e] u [-> Ho]; [|by destruct (is_not_found e)].
  split; [by exists c; split; [|by apply (Ho f c)]|]. intros a u ->.
  apply (guards_then _ _ _ _ (λ _ _, True)); [by destruct a|]. intros r u _.
  by apply guards_passive; [apply passive_close_file|].
Qed.

Lemma guards_cleanup c f :
  c_name c = key_name self key → guards (Some c) (cleanup_failed_write self key f) (λ _ _, True).
Proof.
  intros Hn. apply guards_passive; [apply passive_close_file|]. intros r.
  by eapply guards_then; [apply guards_remove_file|].
Qed.

Lemma guards_fail_write {T A} c f e (Q : T + storage_result A → option Created → Prop) :
  c_name c = key_name self key → (∀ u, Q (inr (Err e)) u) →
  guards (Some c) (fail_write self key f e) Q.
Proof. intros Hn HQ. eapply guards_then; [by apply guards_cleanup|]. intros r u _. apply HQ. Qed.

(** The file after some chunks. *)
Definition with_data (c : Created) (d : bytes) : Created := mkCreated (c_name c) (c_file c) d.

Lemma guards_block_loop c f chunk :
  c_name c = key_name self key → c_file c = file_id f →
  guards (Some c) (loop (block_step self key f chunk) (0, Z.of_nat (length (c_data c))))
    (λ r u, ∀ off, r = Ok off → u = Some (with_data c (c_data c ++ chunk)) ∧
       off = Z.of_nat (length (c_data c ++ chunk))).
Proof.
  intros Hn Hf.
  apply (guards_loop files (Some c) (block_step self key f chunk) _ (λ '(n, off) u, 0 ≤ n ≤ Z.of_nat (length chunk) ∧
    off = Z.of_nat (length (c_data c)) + n ∧
    u = Some (with_data c (c_data c ++ take (Z.to_nat n) chunk)))).
  { split_and!; [lia..|]. simpl. rewrite app_nil_r. by destruct c. }
  intros [n off] u (Hb & -> & ->). unfold block_step.
  destruct (Z.leb_spec (Z.of_nat (length chunk)) n) as [Hle|Hlt].
  - intros off [= <-]. rewrite take_ge by lia. split; [done|]. rewrite length_app. lia.
  - split; [by eexists|]. intros a u (c' & d & [= <-] & -> & Ha). simpl in Ha.
    destruct a as [[count|e]|]; [|by apply guards_fail_write..].
    destruct (Ha count eq_refl) as (Hcount & Hmax & Hd). cbn [bind]. destruct (Z.eqb_spec count 0) as [->|Hne].
    { by apply guards_fail_write. }
    rewrite length_drop in Hcount. rewrite Hd by (rewrite length_app, length_take; lia).
    destruct (block_advance n (Z.of_nat (length (c_data c))) count) as [-> ->]; [lia..|].
    split_and!; [lia..|]. unfold with_data. simpl. rewrite <- app_assoc. do 3 f_equal.
    rewrite Z2Nat.inj_add by lia. apply take_take_drop.
Qed.

(** The token, the offset and the digest while the body is written. *)
Definition hashed (c : Created) (off : Z) (h : Sha256) (u : option Created) : Prop :=
  ∃ cs, u = Some (with_data c (concat cs)) ∧ off = Z.of_nat (length (concat cs)) ∧
    h = foldl sha256_update sha256_new cs.

Definition passive_body (body : StorageByteStream smbE) : Prop :=
  ∀ st, passive (bs_next (into_inner body) st) ∧ passive (bs_drop (into_inner body) st).

Lemma guards_body_loop c f source st :
  c_name c = key_name self key → c_file c = file_id f → c_data c = [] →
  (∀ st, passive (bs_next source st) ∧ passive (bs_drop source st)) →
  guards (Some c) (loop (chunk_step self key f source) (st, 0, sha256_new))
    (λ r u, ∀ off h, r = Ok (off, h) → hashed c off h u).
Proof.
  intros Hn Hf Hd Hb.
  apply (guards_loop files (Some c) (chunk_step self key f source) _
    (λ '(st, off, h) u, hashed c off h u)).
  { exists []. split; [|done]. by destruct c; simpl in Hd; subst. }
  clear st. intros [[st off] h] u (cs & -> & -> & ->). unfold chunk_step.
  apply guards_passive; [apply Hb|]. intros [[[chunk|e]|] st'].
  - eapply guards_then; [by apply guards_block_loop|]. intros [off|e] u Hr.
    + destruct (Hr off eq_refl) as [-> ->]. exists (cs ++ [chunk]).
      rewrite concat_snoc, foldl_app. done.
    + by apply guards_passive; [apply Hb|].
  - eapply guards_then; [by apply guards_cleanup|]. intros _ u _.
    by apply guards_passive; [apply Hb|].
  - apply guards_passive; [apply Hb|]. intros _ off h [= <- <-]. by exists cs.
Qed.

Context `{XL : !ExternalsLaws}.

(** What a conditional create that returns [Some] has made: its file holds a
    content of the reported size and digest. *)
Definition created (o : BlobWriteOutcome) (u : option Created) : Prop :=
  ∃ c, u = Some c ∧ c_name c = key_name self key ∧
    o = mkBlobWriteOutcome (Z.of_nat (length (c_data c))) (sha256_hex (c_data c)).

Lemma hashed_created c off h u :
  c_name c = key_name self key → hashed c off h u →
  created (mkBlobWriteOutcome off (sha256_finalize_hex h)) u.
Proof.
  intros Hn (cs & -> & -> & ->). exists (with_data c (concat cs)). split_and!; [done..|].
  simpl. by rewrite <- sha256_of_concat.
Qed.

Lemma guards_finish_file c f off h u :
  c_name c = key_name self key → hashed c off h u →
  guards u (finish_file self key f off h) (λ r u, ∀ o, r = Ok o → created o u).
Proof.
  intros Hn Hh. pose proof (hashed_created _ _ _ _ Hn Hh) as Hcr. destruct Hh as (cs & -> & _).
  unfold finish_file. apply (guards_passive _ _ (call _)); [by apply passive_within|].
  intros [[[]|e]|]; [|by eapply guards_then; [apply guards_cleanup|]..].
  apply guards_passive; [apply passive_close_file|]. intros [[]|e]; [by intros o [= <-]|].
  apply guards_passive; [destruct (is_retryable e); [apply passive_reconnect|done]|]. intros r.
  by eapply guards_then; [apply guards_remove_file|].
Qed.

Lemma guards_write_body body :
  passive_body body →
  guards None (write_body self key body true) (λ r u, ∀ o, r = Ok (Ok o) → created o u).
Proof.
  intros Hb. pose proof (remote_path_cases self Hc key Hk) as Hp. unfold write_body.
  apply guards_passive; [apply passive_ensure_parents|]. intros [[]|e]; [|done].
  apply (guards_passive _ _ (call _)); [by apply passive_local|]. intros client.
  destruct (remote_path self key) as [path|e]; [|done]. split; [done|].
  intros a u ->. destruct a as [[[f|h|h]|e]|]; cbn [bind map_err]; [|by
    (apply guards_passive; [apply passive_close_resource|])..|done|done].
  eapply guards_then with (Q := λ r u, ∀ o, r = Ok o → created o u).
  - eapply guards_then; [by apply (guards_body_loop (mkCreated (unc_name path) (file_id f) []))|].
    intros [[off h]|e] u Hr; [|done]. by eapply guards_finish_file, Hr.
  - intros r u Hr o [= ->]. by apply Hr.
Qed.

Lemma passive_drop_body body : passive_body body → passive (drop_body body).
Proof. intros Hb. apply Hb. Qed.

Lemma guards_write_file body :
  passive_body body →
  guards None (write_file self key body true) (λ r u, ∀ o, r = Ok o → created o u).
Proof.
  intros Hb. unfold write_file, with_permit.
  eapply guards_then with (Q := λ r u, ∀ o, r = Ok (Ok o) → created o u).
  - apply guards_passive; [apply passive_permit|]. intros [[]|e]; [|done].
    eapply guards_then; [by apply guards_write_body|].
    intros r u Hr. apply guards_passive; [by apply passive_local|]. intros _. exact Hr.
  - intros [r|e] u Hr; [intros o ->; by apply Hr|].
    apply guards_passive; [by apply passive_drop_body|]. done.
Qed.

Lemma guards_create body options :
  passive_body body →
  guards None (put_blob_if_not_exists self key body options)
    (λ r u, ∀ o, r = Ok (Some o) → created o u).
Proof.
  intros Hb. unfold put_blob_if_not_exists. destruct (validate_blob_key key) as [[]|].
  2: { apply guards_passive; [by apply passive_drop_body|]. done. }
  eapply guards_then; [by apply guards_write_file|]. intros [o|e] u Hr.
  - intros o' [= <-]. by apply Hr.
  - destruct (is_collision e); [done|].
    apply guards_passive; [destruct (is_retryable e); [apply passive_reconnect|done]|]. done.
Qed.
End Own.

(** ** Readers *)

Lemma passive_open_file key access : key_safe key → passive (open_file self key access).
Proof. intros Hk t. eapply guards_mono; [|by apply guards_open_file]. by intros r u [-> _]. Qed.

Lemma passive_query_size f : passive (query_size self f).
Proof. by apply passive_with_timeout. Qed.

Lemma passive_release_err {A} e : passive (release_err (A := A) e).
Proof. apply passive_bind; [by apply passive_local|done]. Qed.

Lemma passive_get_blob key : passive (get_blob self key).
Proof.
  unfold get_blob. destruct (decide (key_safe key)) as [Hk|Hk];
    [rewrite validate_blob_key_safe by done|by rewrite validate_blob_key_unsafe].
  apply passive_bind; [apply passive_permit|]. intros [[]|e]; [|done].
  apply passive_bind; [|by intros [[f n]|e]; [|apply passive_release_err]].
  apply passive_bind; [by apply passive_open_file|]. intros [f|e]; [|done].
  apply passive_bind; [apply passive_query_size|]. by intros [n|e].
Qed.

(** The polls of the stream of a read. *)
Lemma passive_read_step s : passive (read_step self s).
Proof.
  destruct s as [[[f|] offset] size]; unfold read_step.
  - destruct (size <=? offset).
    + apply passive_bind; [apply passive_close_file|]. intros r.
      apply passive_bind; [by apply passive_local|done].
    + apply passive_bind; [by apply passive_within|].
      intros [[[|b bs]|e]|]; [apply passive_release_err|done|apply passive_release_err..].
  - apply passive_bind; [by apply passive_local|done].
Qed.

Lemma passive_blob_exists key : passive (blob_exists self key).
Proof.
  unfold blob_exists. destruct (decide (key_safe key)) as [Hk|Hk];
    [rewrite validate_blob_key_safe by done|by rewrite validate_blob_key_unsafe].
  apply passive_bind; [by apply passive_open_file|].
  intros [f|e]; [|by destruct (is_not_found e)].
  apply passive_bind; [apply passive_close_file|]. by intros [[]|e].
Qed.

Lemma passive_entry_step dir s : passive (entry_step self dir s).
Proof.
  destruct s as [[es stack] keys]. unfold entry_step.
  apply passive_bind; [by apply passive_await|]. intros [[e|] es']; [|done].
  destruct (map_err _ e) as [e'|]; [|done]. cbn zeta. repeat case_match; done.
Qed.

Lemma passive_collect_step client base s : passive (collect_step self client base s).
Proof.
  destruct s as [[|dir stack] keys]; [done|]. unfold collect_step.
  apply passive_bind; [by apply passive_with_timeout|].
  intros [[f|h|h]|e]; [|..|by destruct (is_not_found e)];
    [apply passive_bind; [apply passive_close_resource|done]|
    |apply passive_bind; [apply passive_close_resource|done]].
  apply passive_bind; [by apply passive_await|]. intros [es|e]; [|done]. cbn [map_err].
  apply passive_bind; [apply passive_loop, passive_entry_step|]. intros [[stack' keys']|e]; [|done].
  apply passive_bind; [by apply passive_with_timeout|]. by intros [[]|e].
Qed.

Lemma passive_list_blobs_page prefix continuation limit :
  passive (list_blobs_page self prefix continuation limit).
Proof.
  unfold list_blobs_page. destruct (validate_blob_prefix prefix); [|done]. destruct (limit =? 0); [done|].
  apply passive_bind; [|by intros [ks|e]]. unfold collect_keys.
  apply (passive_bind _ (call _)); [by apply passive_local|]. intros client.
  destruct (share_path self) as [base|]; [|done]. apply passive_loop, passive_collect_step.
Qed.

(** ** Interleavings *)

Context `{XL : !ExternalsLaws}.

Lemma body_of_bytes_passive b : passive_body (from_bytes b).
Proof. intros st. unfold from_bytes, into_inner. simpl. by destruct st. Qed.

(** C6: conditional creates of any keys run interleaved with each other and
    with readers, on one share, where any request may fail or time out, before
    or after it took effect.  A create that returns [Some] has stored under its
    key, undamaged by all others, a content with the size and the SHA-256 it
    reports; so at most one create of a key ever returns [Some], also while
    other creates fail and delete what they wrote by its name. *)
Theorem smb_concurrent_creates (keys : nat → option string)
    (ps ps' : list (prog smbE (storage_result (option BlobWriteOutcome)))) (w w' : W) :
  (∀ i p, ps !! i = Some p →
     match keys i with
     | Some key => ∃ body options, passive_body body ∧ p = put_blob_if_not_exists self key body options
     | None => passive p
     end) →
  rtc pool_step (ps, w) (ps', w') →
  let won i key o := keys i = Some key ∧ ps' !! i = Some (Ret (Ok (Some o))) in
  (∀ i key o, won i key o → ∃ d, stored w' (key_name self key) d ∧
     o = mkBlobWriteOutcome (Z.of_nat (length d)) (sha256_hex d)) ∧
  (∀ i j key o o', won i key o → won j key o' → i = j).
Proof.
  intros Hps Hr won.
  destruct (pool_ok_steps files (λ i a u, ∀ key o, keys i = Some key → a = Ok (Some o) → created key o u)
    (replicate (length ps) None) (ps, w) (ps', w')) as [ts Hok]; [|done|].
  { apply pool_ok_start; [done..|]. intros i p Hi. specialize (Hps i p Hi).
    destruct (keys i) as [key|]; [|by eapply guards_mono; [|apply Hps]].
    destruct Hps as (body & options & Hb & ->).
    apply (guards_mono files _ _ (λ r u, ∀ o, r = Ok (Some o) → created key o u)).
    - intros a u Hr' key' o [= <-]. apply Hr'.
    - destruct (decide (key_safe key)) as [Hk|Hk]; [by apply guards_create|].
      unfold put_blob_if_not_exists. rewrite validate_blob_key_unsafe by done.
      apply guards_passive; [by apply passive_drop_body|]. done. }
  assert (Win : ∀ i key o, won i key o → ∃ c, ts !! i = Some (Some c) ∧ keeps (Some c) w' ∧
    c_name c = key_name self key ∧
    o = mkBlobWriteOutcome (Z.of_nat (length (c_data c))) (sha256_hex (c_data c))).
  { intros i key o [Ek Hi]. destruct (pool_returned _ _ _ _ _ i _ Hok Hi) as (t & Ht & Hq & Hh).
    destruct (Hq key o Ek eq_refl) as (c & -> & Hn & Ho). by exists c. }
  split.
  - intros i key o Hw. destruct (Win i key o Hw) as (c & _ & (N & D & X) & Hn & Ho).
    exists (c_data c). split; [|done]. rewrite <- Hn. split; [by unfold content; rewrite N|].
    intros j Hj. congruence.
  - intros i j key o o' Hi Hj. destruct (decide (i = j)) as [|Hne]; [done|].
    destruct (Win i key o Hi) as (c & Tc & _ & Nc & _), (Win j key o' Hj) as (d & Td & _ & Nd & _).
    pose proof (po_apart _ _ _ _ _ Hok i j _ _ Hne Tc Td) as Hd. simpl in Hd. congruence.
Qed.
End Operations.
