(* ===== verification/SmbList.v ===== *)
(** * The SMB provider: listing

    [collect_keys] walks the directories below the root prefix; its result is
    the sorted list of the keys of all files but the temporary ones, and
    [list_blobs] pages through it. *)
From S2P Require Import Prelude Text Errors Providers Externals Keys Effects Streams BlobStore Smb SmbFacts SmbStore SmbServer SmbCalls SmbWrite SmbPut SmbRead.
From Stdlib Require Import Ascii.

Section Listing.
Context `{EX : Externals} `{XL : !ExternalsLaws} `{SC : SmbCrate} `{SH : SmbHandles}.
Context {W : Type} `{H : !Handler smbE W} `{V : !ShareView W} `{S : !Share W}.
Context (self : SmbStorageBackend) (C : config_ok (smb_config self)).

(** ** Names of directories and keys *)

(** The name of a directory path; the empty one is the share. *)
Definition path_name (s : string) : share_name := if str_is_empty s then [] else split "/" s.

Definition root_name : share_name := path_name (default "" (smb_root_prefix (smb_config self))).

Lemma path_name_nonempty s : s ≠ "" → path_name s = split "/" s.
Proof. intros Hs. unfold path_name. by rewrite (proj2 (str_is_empty_false s)). Qed.

Lemma key_name_root key : key_name self key = root_name ++ split "/" key.
Proof.
  unfold key_name, root_name. destruct (smb_root_prefix (smb_config self)) as [p|] eqn:Ep; [|done].
  simpl. rewrite path_name_nonempty; [done|]. apply key_safe_nonempty. by eapply ok_prefix.
Qed.

Lemma unc_path_name base s : Forall safe_segment (path_name s) → unc_name (with_path base s) = path_name s.
Proof.
  unfold path_name. destruct (str_is_empty s) eqn:E.
  - apply str_is_empty_true in E as ->. intros _. apply law_unc_root.
  - intros Hs. by apply law_unc_name.
Qed.

(** The path of an entry of a directory. *)
Definition child_path (directory_path name : string) : string :=
  if str_is_empty directory_path then name else directory_path +:+ "/" +:+ name.

Lemma child_name dir n : safe_segment n → split "/" (child_path dir n) = path_name dir ++ [n].
Proof.
  intros (_ & _ & _ & Hn & _). unfold child_path, path_name. destruct (str_is_empty dir).
  - by apply split_id.
  - change (dir +:+ "/" +:+ n) with (dir +:+ String "/" n). by rewrite split_app, (split_id _ n).
Qed.

Lemma child_path_name dir n : safe_segment n → path_name (child_path dir n) = path_name dir ++ [n].
Proof.
  intros Hn. rewrite path_name_nonempty; [by apply child_name|]. intros E.
  pose proof (child_name dir n Hn) as Hs. rewrite E in Hs.
  destruct (path_name dir) as [|x q]; injection Hs as Hs; [|by destruct q].
  destruct Hn as [Hn _]. congruence.
Qed.

Lemma join_cons_ne (x : string) l : l ≠ [] → join "/" (x :: l) = x +:+ String "/" (join "/" l).
Proof. by destruct l. Qed.

Lemma join_app_ne (a b : list string) :
  a ≠ [] → b ≠ [] → join "/" (a ++ b) = join "/" a +:+ String "/" (join "/" b).
Proof.
  intros Ha Hb. induction a as [|x a IH]; [done|]. destruct a as [|y a].
  - by apply join_cons_ne.
  - rewrite (join_cons_ne x (y :: a)) by done. change ((x :: y :: a) ++ b) with (x :: (y :: a) ++ b).
    rewrite join_cons_ne by done. rewrite IH by done. by rewrite app_assoc_str.
Qed.

(** The key of a file below the root: its name is the name of the file. *)
Lemma entry_key_name c rest :
  split "/" c = root_name ++ rest → rest ≠ [] → Forall safe_segment rest →
  split "/" (entry_key (config self) c) = rest.
Proof.
  unfold root_name, entry_key, config. intros Hs Hne Hsafe.
  destruct (smb_root_prefix (smb_config self)) as [p|] eqn:Ep; [|done]. simpl in Hs.
  assert (Hp : key_safe p) by by eapply ok_prefix.
  rewrite path_name_nonempty in Hs by by apply key_safe_nonempty.
  assert (Hc : c = p +:+ String "/" (join "/" rest)).
  { rewrite <- (join_split "/" c), Hs. change (char_str "/") with "/".
    rewrite join_app_ne by (done || apply split_not_nil).
    f_equal. apply (join_split "/"). }
  rewrite Hc, strip_prefix_app. simpl. change (strip_prefix "" ?x) with (Some x). simpl.
  change "/" with (char_str "/"). apply split_join; [done|].
  eapply Forall_impl; [exact Hsafe|]. by intros x (_ & _ & _ & ? & _).
Qed.

(** ** One directory *)

(** Nothing a listing looks at changed. *)
Definition still (w w' : W) : Prop := files_kept w w' ∧ cells_kept w w' ∧ dirs w' = dirs w.

#[export] Instance still_preorder : PreOrder still.
Proof.
  split; [by intros w|]. intros w1 w2 w3 (A1 & A2 & A3) (B1 & B2 & B3).
  split; [by etrans|]. split; [by etrans|congruence].
Qed.

Lemma still_served {X} (r : smbR X) w a w' :
  served w r a w' → quiet r = true → looks r = true → still w w'.
Proof.
  intros Hs Hq Hk. destruct (idle_quiet _ _ _ _ Hs Hq) as (? & ? & _).
  split; [done|]. split; [done|]. by eapply law_looks.
Qed.

Definition is_dot (e : DirEntry) : bool :=
  String.eqb (de_file_name e) "." || String.eqb (de_file_name e) "..".

(** The subdirectories of a directory, and the keys of its files. *)
Definition subdirectories (dir : string) (l : list DirEntry) : list string :=
  flat_map (λ e, if is_dot e then [] else
    if de_directory e then [child_path dir (de_file_name e)] else []) l.

Definition file_keys (dir : string) (l : list DirEntry) : list string :=
  flat_map (λ e, if is_dot e then [] else if de_directory e then [] else
    if is_temp_key (child_path dir (de_file_name e)) then []
    else [entry_key (config self) (child_path dir (de_file_name e))]) l.

Lemma entries_twp dir l es stack keys w :
  pending w es = l →
  twp (loop (entry_step self dir) (es, stack, keys)) (λ r w', still w w' ∧
    ∀ x, r = Ok x → x = (reverse (subdirectories dir l) ++ stack, keys ++ file_keys dir l)) w.
Proof.
  revert es stack keys w. induction l as [|e l IH]; intros es stack keys w Hl;
    apply twp_iter; unfold entry_step; wp_bind; apply await_twp;
    intros [[[e'|x]|] es'] w1 Hs; pose proof (still_served _ _ _ _ Hs eq_refl eq_refl) as S1;
    pose proof (law_next _ _ _ _ _ Hs) as Hnext; cbn beta iota in Hnext; cbn beta iota.
  1,6: congruence.
  1,4: wp_ret; simpl; wp_ret; by split.
  - wp_ret. simpl. wp_ret. split; [done|]. intros x [= <-]. simpl. by rewrite app_nil_r.
  - rewrite Hl in Hnext. injection Hnext as <- Hl'. simpl.
    assert (Hgo : ∀ stack' keys', reverse (subdirectories dir l) ++ stack' =
        reverse (subdirectories dir (e :: l)) ++ stack →
      keys' ++ file_keys dir l = keys ++ file_keys dir (e :: l) →
      twp (Iter (entry_step self dir) (es', stack', keys') Ret) (λ r w', still w w' ∧
        ∀ x, r = Ok x → x = (reverse (subdirectories dir (e :: l)) ++ stack,
          keys ++ file_keys dir (e :: l))) w1).
    { intros stack' keys' Es Ek. eapply twp_mono; [by apply IH|]. intros r w2 [S2 Hr].
      split; [by etrans|]. intros x Hx. rewrite (Hr x Hx). by rewrite Es, Ek. }
    fold (child_path dir (de_file_name e)). fold (is_dot e).
    unfold subdirectories, file_keys in Hgo; cbn [flat_map] in Hgo.
    destruct (is_dot e); [wp_ret; by apply Hgo|]. destruct (de_directory e).
    { wp_ret. apply Hgo; [|done]. cbn [app]. by rewrite reverse_cons, <- app_assoc. }
    destruct (is_temp_key _); wp_ret; apply Hgo; try done. simpl. by rewrite <- app_assoc.
Qed.

(** ** The walk *)

Lemma path_name_inj a b : path_name a = path_name b → a = b.
Proof.
  unfold path_name. destruct (str_is_empty a) eqn:Ea, (str_is_empty b) eqn:Eb;
    rewrite ?str_is_empty_true in *; intros E; subst; try done.
  - by destruct (split_not_nil "/" b).
  - by destruct (split_not_nil "/" a).
  - by apply split_inj in E.
Qed.

(** The keys of a complete listing. *)
Definition listed (w : W) (k : string) : Prop :=
  key_safe k ∧ is_Some (names w !! key_name self k) ∧ is_temp_key k = false.

Section Directory.
Context (w : W) (dir : string) (l : list DirEntry).
Context (He : entries_of w (path_name dir) l).

Lemma entry_safe e : e ∈ l → is_dot e = false → safe_segment (de_file_name e) ∧
  if de_directory e then path_name dir ++ [de_file_name e] ∈ dirs w
  else is_Some (names w !! (path_name dir ++ [de_file_name e])).
Proof.
  intros Hl [H1%String.eqb_neq H2%String.eqb_neq]%orb_false_iff.
  pose proof (entries_real _ _ _ He e Hl H1 H2) as Hr. split; [|done].
  assert (Forall safe_segment (path_name dir ++ [de_file_name e])) as [_ Hs]%Forall_app.
  { destruct (de_directory e); [by eapply law_dirs|]. destruct Hr as [i Hi]. by eapply law_names. }
  by apply Forall_inv in Hs.
Qed.

Lemma safe_not_dot n b : safe_segment n → is_dot (mkDirEntry n b) = false.
Proof. intros (_ & H1 & H2 & _). apply orb_false_iff. split; by apply String.eqb_neq. Qed.

Lemma elem_of_subdirectories c :
  c ∈ subdirectories dir l ↔
  ∃ n, safe_segment n ∧ c = child_path dir n ∧ path_name dir ++ [n] ∈ dirs w.
Proof.
  unfold subdirectories. rewrite elem_of_flat_map. split.
  - intros (e & Hl & Hc). destruct (is_dot e) eqn:Ed; [by apply not_elem_of_nil in Hc|].
    destruct (entry_safe e Hl Ed) as [Hs Hr]. destruct (de_directory e); [|by apply not_elem_of_nil in Hc].
    apply list_elem_of_singleton in Hc as ->. eauto.
  - intros (n & Hn & -> & Hd). exists (mkDirEntry n true). split; [by apply (entries_dirs _ _ _ He)|].
    rewrite safe_not_dot by done. by left.
Qed.

Lemma subdirectories_nodup : NoDup (subdirectories dir l).
Proof.
  unfold subdirectories. apply NoDup_flat_map; [apply He| |].
  - intros e _. destruct (is_dot e), (de_directory e); repeat constructor; apply not_elem_of_nil.
  - intros e e' c Hl Hl' Hc Hc'. destruct (is_dot e) eqn:Ed; [by apply not_elem_of_nil in Hc|].
    destruct (is_dot e') eqn:Ed'; [by apply not_elem_of_nil in Hc'|].
    destruct (entry_safe e Hl Ed) as [Hs _], (entry_safe e' Hl' Ed') as [Hs' _].
    destruct e as [n []], e' as [n' []]; simpl in *; try by apply not_elem_of_nil in Hc || by apply not_elem_of_nil in Hc'.
    apply list_elem_of_singleton in Hc as ->. apply list_elem_of_singleton in Hc'.
    apply (f_equal path_name) in Hc'. rewrite !child_path_name in Hc' by done.
    apply app_inj_tail in Hc' as [_ ->]. done.
Qed.

Context (Hroot : root_name `prefix_of` path_name dir).

(** The key of a file of the directory. *)
Lemma entry_key_child n :
  safe_segment n → Forall safe_segment (path_name dir) →
  let k := entry_key (config self) (child_path dir n) in
  key_safe k ∧ key_name self k = path_name dir ++ [n] ∧ is_temp_key k = is_temp_key (child_path dir n).
Proof.
  intros Hn Hd k. destruct Hroot as [q Hq].
  assert (Hk : split "/" k = q ++ [n]).
  { apply (entry_key_name (child_path dir n) (q ++ [n])).
    - rewrite child_name by done. by rewrite Hq, <- app_assoc.
    - by destruct q.
    - rewrite Hq in Hd. apply Forall_app in Hd as [_ Hd]. apply Forall_app. by rewrite Forall_singleton. }
  split; [|split].
  - unfold key_safe. rewrite Hk, Hq in *. apply Forall_app in Hd as [_ Hd].
    apply Forall_app. by rewrite Forall_singleton.
  - by rewrite key_name_root, Hk, Hq, <- app_assoc.
  - unfold is_temp_key. by rewrite Hk, child_name, !last_snoc.
Qed.

Lemma elem_of_file_keys k :
  Forall safe_segment (path_name dir) →
  k ∈ file_keys dir l ↔ listed w k ∧ ∃ n, key_name self k = path_name dir ++ [n].
Proof.
  intros Hd. unfold file_keys. rewrite elem_of_flat_map. split.
  - intros (e & Hl & Hc). destruct (is_dot e) eqn:Ed; [by apply not_elem_of_nil in Hc|].
    destruct (entry_safe e Hl Ed) as [Hs Hr]. destruct (de_directory e); [by apply not_elem_of_nil in Hc|].
    destruct (entry_key_child _ Hs Hd) as (K1 & K2 & K3). rewrite <- K3 in Hc.
    destruct (is_temp_key _) eqn:Et; [by apply not_elem_of_nil in Hc|].
    apply list_elem_of_singleton in Hc as ->. split; [|eauto]. split; [done|]. by rewrite K2.
  - intros ((Hk & Hi & Ht) & n & Hn). rewrite Hn in Hi.
    assert (Hs : safe_segment n).
    { destruct Hi as [i Hi]. apply law_names in Hi as [Hi _].
      apply Forall_app in Hi as [_ Hi]. by apply Forall_inv in Hi. }
    exists (mkDirEntry n false). split; [by apply (entries_files _ _ _ He)|].
    rewrite safe_not_dot by done. simpl. destruct (entry_key_child _ Hs Hd) as (K1 & K2 & K3).
    assert (entry_key (config self) (child_path dir n) = k) as Ek
      by (apply (key_name_inj self); congruence).
    rewrite <- K3, Ek, Ht. by left.
Qed.

Lemma file_keys_nodup : Forall safe_segment (path_name dir) → NoDup (file_keys dir l).
Proof.
  intros Hd. unfold file_keys. apply NoDup_flat_map; [apply He| |].
  - intros e _. destruct (is_dot e), (de_directory e), (is_temp_key (child_path dir (de_file_name e)));
      repeat constructor; apply not_elem_of_nil.
  - intros e e' c Hl Hl' Hc Hc'. destruct (is_dot e) eqn:Ed; [by apply not_elem_of_nil in Hc|].
    destruct (is_dot e') eqn:Ed'; [by apply not_elem_of_nil in Hc'|].
    destruct (entry_safe e Hl Ed) as [Hs _], (entry_safe e' Hl' Ed') as [Hs' _].
    destruct e as [n []], e' as [n' []]; simpl in *; try by apply not_elem_of_nil in Hc || by apply not_elem_of_nil in Hc'.
    destruct (entry_key_child _ Hs Hd) as (_ & K & _), (entry_key_child _ Hs' Hd) as (_ & K' & _).
    destruct (is_temp_key (child_path dir n)); [by apply not_elem_of_nil in Hc|].
    destruct (is_temp_key (child_path dir n')); [by apply not_elem_of_nil in Hc'|].
    apply list_elem_of_singleton in Hc as ->. apply list_elem_of_singleton in Hc'.
    rewrite Hc', K' in K. apply app_inj_tail in K as [_ ->]. done.
Qed.
End Directory.

(** The stack and the keys of the walk: what is not below the stack has been
    listed, and the directories of the stack are apart. *)
Record walk (w : W) (stack : list string) (keys : list string) : Prop := {
  walk_safe : ∀ s, s ∈ stack → Forall safe_segment (path_name s);
  walk_root : ∀ s, s ∈ stack → root_name `prefix_of` path_name s;
  walk_dirs : ∀ s, s ∈ stack → path_name s ∈ dirs w ∨ path_name s = root_name;
  walk_stack : NoDup stack;
  walk_apart : ∀ s s', s ∈ stack → s' ∈ stack → path_name s `prefix_of` path_name s' → s = s';
  walk_nodup : NoDup keys;
  walk_keys : ∀ k, k ∈ keys ↔
    listed w k ∧ ∀ s, s ∈ stack → ¬ path_name s `prefix_of` key_name self k;
}.

Lemma root_safe : Forall safe_segment root_name.
Proof.
  unfold root_name. destruct (smb_root_prefix (smb_config self)) as [p|] eqn:Ep; simpl; [|constructor].
  pose proof (ok_prefix _ C p Ep) as Hp. by rewrite path_name_nonempty by by apply key_safe_nonempty.
Qed.

Lemma walk_start w : walk w [default "" (smb_root_prefix (smb_config self))] [].
Proof.
  constructor.
  - intros s ->%list_elem_of_singleton. apply root_safe.
  - by intros s ->%list_elem_of_singleton.
  - intros s ->%list_elem_of_singleton. by right.
  - apply NoDup_singleton.
  - by intros s s' ->%list_elem_of_singleton ->%list_elem_of_singleton.
  - constructor.
  - intros k. split; [by intros ?%not_elem_of_nil|]. intros [_ Hk].
    destruct (Hk (default "" (smb_root_prefix (smb_config self)))); [by left|].
    rewrite key_name_root. by apply prefix_app_r.
Qed.

(** A directory that is not there has no files. *)
Lemma walk_skip w s stack keys :
  path_name s ∉ dirs w → walk w (s :: stack) keys → walk w stack keys.
Proof.
  intros Hs [Wsafe Wroot Wdirs Wstack Wapart Wnodup Wkeys]. apply NoDup_cons in Wstack as [_ Wstack].
  constructor; [by intros; apply Wsafe; right|by intros; apply Wroot; right|
    by intros; apply Wdirs; right|done|by intros; apply Wapart; [right..|]|done|].
  intros k. rewrite Wkeys. split; intros [Hl Hk]; (split; [done|]).
  - intros s' Hs'. apply Hk. by right.
  - intros s' [->|Hs']%elem_of_cons; [|by apply Hk]. intros [q Hq].
    destruct Hl as (_ & [i Hi] & _). destruct q as [|n q].
    + rewrite app_nil_r, key_name_root in Hq. destruct (Wdirs s) as [Hd|Hr]; [by left|done|].
      rewrite Hr in Hq. apply (f_equal length) in Hq. rewrite length_app in Hq.
      pose proof (split_not_nil "/" k). destruct (split "/" k); simpl in *; [done|lia].
    + rewrite Hq in Hi. by apply law_tree in Hi.
Qed.

Section Descend.
Context (w : W) (s : string) (stack keys : list string) (l : list DirEntry).
Context (Hs : path_name s ∈ dirs w) (He : entries_of w (path_name s) l).
Context (Hw : walk w (s :: stack) keys).

Abbreviation next := (reverse (subdirectories s l) ++ stack).

Lemma elem_of_next c : c ∈ next ↔ c ∈ subdirectories s l ∨ c ∈ stack.
Proof. by rewrite elem_of_app, elem_of_reverse. Qed.

Lemma child_below c :
  c ∈ subdirectories s l → ∃ n, path_name c = path_name s ++ [n] ∧ path_name c ∈ dirs w.
Proof.
  intros (n & Hn & -> & Hd)%(elem_of_subdirectories w); [|done]. exists n. by rewrite child_path_name.
Qed.

(** What is a prefix of an entry of [s] and on the stack is [s], or the entry. *)
Lemma stack_prefix s' n :
  s' ∈ s :: stack → path_name s' `prefix_of` path_name s ++ [n] →
  s' = s ∨ path_name s' = path_name s ++ [n].
Proof.
  intros Hs' [Hp|Hp]%prefix_app_cases; [left|by right]. by apply (walk_apart _ _ _ Hw); [|left|].
Qed.

Lemma next_child_apart c s' :
  c ∈ subdirectories s l → s' ∈ stack →
  ¬ path_name c `prefix_of` path_name s' ∧ ¬ path_name s' `prefix_of` path_name c.
Proof.
  intros (n & Hn & _)%child_below Hs'. pose proof (walk_stack _ _ _ Hw) as [Hns _]%NoDup_cons.
  assert (Hne : path_name s `prefix_of` path_name s' → False).
  { intros Hp. assert (s = s') as ->; [|done]. apply (walk_apart _ _ _ Hw); [by left|by right|done]. }
  split; intros Hp; rewrite Hn in Hp.
  - apply Hne. etrans; [|exact Hp]. by apply prefix_app_r.
  - apply stack_prefix in Hp as [->|Hp]; [done| |by right]. apply Hne. rewrite Hp. by apply prefix_app_r.
Qed.

Lemma next_apart c c' : c ∈ next → c' ∈ next → path_name c `prefix_of` path_name c' → c = c'.
Proof.
  intros [Hc|Hc]%elem_of_next [Hc'|Hc']%elem_of_next Hp.
  - apply child_below in Hc as (n & Hn & _). apply child_below in Hc' as (n' & Hn' & _).
    apply path_name_inj. rewrite Hn, Hn' in *. apply prefix_app_inv in Hp.
    apply prefix_cons_inv_1 in Hp. by subst.
  - by destruct (next_child_apart c c' Hc Hc') as [[] _].
  - by destruct (next_child_apart c' c Hc' Hc) as [_ []].
  - by apply (walk_apart _ _ _ Hw); [right..|].
Qed.

(** A key of the directory or listed before is not below the new stack. *)
Lemma next_listed k c :
  k ∈ keys ++ file_keys s l → c ∈ next → ¬ path_name c `prefix_of` key_name self k.
Proof.
  intros Hk Hc Hp. assert (Hroot : root_name `prefix_of` path_name s) by (apply (walk_root _ _ _ Hw); by left).
  assert (Hsafe : Forall safe_segment (path_name s)) by (apply (walk_safe _ _ _ Hw); by left).
  apply elem_of_next in Hc. apply elem_of_app in Hk as [Hk|Hk].
  - apply (walk_keys _ _ _ Hw) in Hk as [_ Hk]. destruct Hc as [(n & Hn & _)%child_below|Hc].
    + apply (Hk s); [by left|]. etrans; [|exact Hp]. rewrite Hn. by apply prefix_app_r.
    + apply (Hk c); [by right|done].
  - apply (elem_of_file_keys w) in Hk as [(_ & [i Hi] & _) (n & Hn)]; [|done..]. rewrite Hn in Hi, Hp.
    destruct Hc as [(n' & Hn' & Hd)%child_below|Hc].
    + rewrite Hn' in Hp, Hd. apply prefix_app_inv in Hp. apply prefix_cons_inv_1 in Hp as ->.
      by apply law_names in Hi as [_ []].
    + apply stack_prefix in Hp as [->|Hp]; [by pose proof (walk_stack _ _ _ Hw) as [Hns _]%NoDup_cons| |by right].
      destruct (walk_dirs _ _ _ Hw c) as [Hd|Hr]; [by right|rewrite Hp in Hd; by apply law_names in Hi as [_ []]|].
      rewrite Hr in Hp. apply prefix_length in Hroot. rewrite Hp, length_app in Hroot. simpl in Hroot. lia.
Qed.

(** A key that is not below the new stack has been listed. *)
Lemma next_complete k :
  listed w k → (∀ c, c ∈ next → ¬ path_name c `prefix_of` key_name self k) →
  k ∈ keys ++ file_keys s l.
Proof.
  intros Hl Hk. apply elem_of_app.
  assert (Hroot : root_name `prefix_of` path_name s) by (apply (walk_root _ _ _ Hw); by left).
  assert (Hsafe : Forall safe_segment (path_name s)) by (apply (walk_safe _ _ _ Hw); by left).
  destruct (decide (path_name s `prefix_of` key_name self k)) as [[q Hq]|Hp].
  2: { left. apply (walk_keys _ _ _ Hw). split; [done|]. intros s' [->|Hs']%elem_of_cons; [done|].
       apply Hk, elem_of_next. by right. }
  right. apply (elem_of_file_keys w); [done..|]. split; [done|]. destruct Hl as (_ & [i Hi] & _).
  rewrite Hq in Hi. destruct q as [|n [|n' q]].
  - rewrite app_nil_r in Hi. by apply law_names in Hi as [_ []].
  - eauto.
  - exfalso. change (n :: n' :: q) with ([n] ++ n' :: q) in Hi, Hq. rewrite app_assoc in Hi, Hq.
    pose proof (law_tree _ _ _ _ _ Hi) as Hd.
    assert (Hn : safe_segment n)
      by (apply law_dirs in Hd; apply Forall_app in Hd as [_ Hd]; by apply Forall_inv in Hd).
    apply (Hk (child_path s n)).
    + apply elem_of_next. left. apply (elem_of_subdirectories w); [done|]. eauto.
    + rewrite child_path_name, Hq by done. by apply prefix_app_r.
Qed.

(** A directory gives way to its subdirectories. *)
Lemma walk_descend : walk w next (keys ++ file_keys s l).
Proof.
  pose proof Hw as [Wsafe Wroot Wdirs Wstack _ Wnodup Wkeys]. apply NoDup_cons in Wstack as [Hns Wstack].
  constructor.
  - intros c [(n & _ & Hd)%child_below|Hc]%elem_of_next; [by eapply law_dirs|by apply Wsafe; right].
  - intros c [(n & -> & _)%child_below|Hc]%elem_of_next; [|by apply Wroot; right].
    apply prefix_app_r, Wroot. by left.
  - intros c [(n & _ & Hd)%child_below|Hc]%elem_of_next; [by left|by apply Wdirs; right].
  - apply NoDup_app. split; [rewrite reverse_Permutation; by apply (subdirectories_nodup w)|].
    split; [|done]. intros c Hc Hc'. rewrite elem_of_reverse in Hc.
    by destruct (next_child_apart c c Hc Hc') as [[] _].
  - apply next_apart.
  - apply NoDup_app. split; [done|]. split.
    + intros k [_ Hk]%Wkeys (_ & n & Hn)%(elem_of_file_keys w); [|done|apply Wroot; by left|apply Wsafe; by left].
      apply (Hk s); [by left|]. rewrite Hn. by apply prefix_app_r.
    + apply (file_keys_nodup w); [done|apply Wroot; by left|apply Wsafe; by left].
  - intros k. split; [|intros [Hl Hk]; by apply next_complete]. intros Hk.
    split; [|intros c Hc; by apply next_listed]. apply elem_of_app in Hk as [Hk|Hk]; [by apply Wkeys|].
    apply (elem_of_file_keys w) in Hk as [Hl _]; [done|done|apply Wroot; by left|apply Wsafe; by left].
Qed.
End Descend.

(** ** Termination *)

(** The directories still to visit, and the entries of the stack that are
    none. *)
Definition to_visit (w : W) (stack : list string) : gset share_name :=
  filter (λ d, Exists (λ s, path_name s `prefix_of` d) stack) (dirs w).

Definition walk_measure (w : W) (stack : list string) : nat :=
  size (to_visit w stack) + length (filter (λ s, path_name s ∉ dirs w) stack).

Lemma elem_of_to_visit w stack d :
  d ∈ to_visit w stack ↔ d ∈ dirs w ∧ ∃ s, s ∈ stack ∧ path_name s `prefix_of` d.
Proof. unfold to_visit. rewrite elem_of_filter, Exists_exists. tauto. Qed.

Lemma measure_skip w s stack :
  path_name s ∉ dirs w → (walk_measure w stack < walk_measure w (s :: stack))%nat.
Proof.
  intros Hs. unfold walk_measure. rewrite filter_cons_True by done. cbn [length].
  assert (size (to_visit w stack) <= size (to_visit w (s :: stack)))%nat; [|lia].
  apply subseteq_size. intros d (Hd & s' & Hs' & Hp)%elem_of_to_visit. apply elem_of_to_visit.
  split; [done|]. exists s'. split; [by right|done].
Qed.

Lemma measure_descend w s stack keys l :
  path_name s ∈ dirs w → entries_of w (path_name s) l → walk w (s :: stack) keys →
  (walk_measure w (reverse (subdirectories s l) ++ stack) < walk_measure w (s :: stack))%nat.
Proof.
  intros Hs He Hw. unfold walk_measure. rewrite filter_cons_False by tauto.
  assert (Hnil : filter (λ s, path_name s ∉ dirs w) (reverse (subdirectories s l)) = []).
  { apply elem_of_nil_inv. intros c [Hc Hin]%list_elem_of_filter. rewrite elem_of_reverse in Hin.
    apply (child_below w) in Hin as (n & _ & Hd); done. }
  rewrite filter_app, Hnil. cbn [app].
  assert (size (to_visit w (reverse (subdirectories s l) ++ stack)) < size (to_visit w (s :: stack)))%nat; [|lia].
  apply subset_size. split.
  - intros d (Hd & c & Hc & Hp)%elem_of_to_visit. apply elem_of_to_visit. split; [done|].
    apply elem_of_next in Hc as [Hc|Hc]; [|exists c; split; [by right|done]].
    apply (child_below w) in Hc as (n & Hn & _); [|done]. exists s. split; [by left|].
    etrans; [|exact Hp]. rewrite Hn. by apply prefix_app_r.
  - intros Hsub. assert (Hin : path_name s ∈ to_visit w (reverse (subdirectories s l) ++ stack)).
    { apply Hsub, elem_of_to_visit. split; [done|]. exists s. split; [by left|done]. }
    apply elem_of_to_visit in Hin as (_ & c & [Hc|Hc]%elem_of_next & Hp).
    + apply (child_below w) in Hc as (n & Hn & _); [|done]. apply prefix_length in Hp.
      rewrite Hn, length_app in Hp. simpl in Hp. lia.
    + pose proof (walk_stack _ _ _ Hw) as [Hns _]%NoDup_cons.
      assert (c = s) as ->; [|done]. apply (walk_apart _ _ _ Hw); [by right|by left|done].
Qed.

(** ** The walk of a share *)

Lemma entries_still w0 w p l : still w0 w → entries_of w p l → entries_of w0 p l.
Proof.
  intros ((Hn & _) & _ & Hd) [E1 E2 E3 E4]. rewrite Hn in E2, E4. rewrite Hd in E2, E3. by constructor.
Qed.

(** Opening a directory of the stack. *)
Lemma open_directory_twp client path w :
  twp (with_timeout self "list" (CreateFile client path (make_open_existing directory_access)))
    (λ r w', still w w' ∧ match r with
     | Ok (ResourceDirectory h) => dir_name h = unc_name path ∧ unc_name path ∈ dirs w
     | Ok (ResourceFile f) => names w !! unc_name path = Some (file_id f)
     | Ok (ResourcePipe _) => unc_name path ∉ dirs w
     | Err e => is_not_found e = true → unc_name path ∉ dirs w
     end) w.
Proof.
  apply with_timeout_twp. intros a w1 Hs. pose proof (served_cells _ _ _ _ Hs) as Hc.
  pose proof (law_looks _ _ _ _ _ Hs eq_refl) as Hd.
  destruct (law_open _ _ _ _ _ _ Hs) as (Hf & Hn & Hr). assert (S1 : still w w1) by done.
  assert (Herr : ∀ e, error_of a e → is_not_found e = true → unc_name path ∉ dirs w).
  { intros e (_ & H1 & _) He. destruct (H1 He) as (s & Hst & Hns). by apply (Hn s). }
  destruct a as [[[f|h|pi]|e]|]; [by destruct Hr|by destruct Hr as (? & ? & _)|by destruct Hr| |];
    intros e' He; (split; [done|by apply Herr]).
Qed.

(** Reading one directory: its entries take the place of its path. *)
Lemma directory_twp (h : Directory) dir stack keys w :
  dir_name h = path_name dir → path_name dir ∈ dirs w →
  twp (let* r := call (Await (QueryDirectory h "*")) in
       match map_err (map_smb_error "list") r with
       | Err e => Break (Err e)
       | Ok entries =>
           let* r := loop (entry_step self dir) (entries, stack, keys) in
           match r with
           | Err e => Break (Err e)
           | Ok (stack, keys) =>
               let* r := with_timeout self "close" (Close (ResourceDirectory h)) in
               match r with
               | Err e => Break (Err e)
               | Ok _ => Continue (stack, keys)
               end
           end
       end)
    (λ (r : list string * list string + storage_result (list string)) w', still w w' ∧ match r with
     | inl (stack', keys') => ∃ l, entries_of w (path_name dir) l ∧
         stack' = reverse (subdirectories dir l) ++ stack ∧ keys' = keys ++ file_keys dir l
     | inr r => ∃ e, r = Err e
     end) w.
Proof.
  intros Hh Hd. wp_bind. apply await_twp. intros r w1 Hs.
  pose proof (still_served _ _ _ _ Hs eq_refl eq_refl) as S1. destruct r as [es|e].
  2: { wp_ret. split; [done|by eexists]. }
  assert (He : entries_of w (path_name dir) (pending w1 es)).
  { rewrite <- Hh. eapply law_query; [exact Hs|]. by rewrite Hh. }
  cbn [map_err]. wp_bind. eapply twp_mono; [by apply entries_twp|]. intros [[stack' keys']|e] w2 [S2 Hx].
  2: { wp_ret. split; [by etrans|by eexists]. }
  injection (Hx _ eq_refl) as -> ->. wp_bind. apply with_timeout_twp. intros a w3 Hs3.
  pose proof (still_served _ _ _ _ Hs3 eq_refl eq_refl) as S3.
  assert (S4 : still w w3) by (do 2 (etrans; [done|]); done).
  destruct a as [[u|x]|]; [|intros e _; wp_ret; split; [done|by eexists]..].
  wp_ret. split; [done|]. eauto.
Qed.

(** Something that is no directory is closed and left. *)
Lemma leave_twp resource w0 w (Q : result unit SmbError → W → Prop) :
  still w0 w → (∀ f, resource = ResourceFile f → file_id f ∉ doomed w0) →
  (∀ h, resource ≠ ResourceDirectory h) → (∀ r w', still w0 w' → Q r w') →
  twp (close_resource resource) Q w.
Proof.
  intros S0 Hf Hh HQ. unfold close_resource. apply await_twp. intros r w1 Hs. apply HQ.
  assert (D1 : dirs w1 = dirs w) by by eapply law_looks.
  destruct resource as [f|h|pi]; [|by destruct (Hh h)|].
  - destruct (close_kept f w _ w1 Hs) as [F1 C1].
    { destruct S0 as ((_ & _ & ->) & _). by apply Hf. }
    etrans; [done|]. by split.
  - etrans; [done|by eapply still_served].
Qed.

Lemma collect_keys_twp w0 :
  lasting w0 root_name →
  twp (collect_keys self) (λ r w, still w0 w ∧ ∀ ks, r = Ok ks →
    sorted_keys ks ∧ ∀ k, k ∈ ks ↔ listed w0 k) w0.
Proof.
  intros Hlast. unfold collect_keys. wp_bind. unfold call. wp_vis client w1 E. wp_ret.
  assert (S1 : still w0 w1).
  { destruct (idle_local _ _ _ _ E eq_refl eq_refl) as (? & ? & _).
    split; [done|]. split; [done|]. by eapply law_read_client. }
  destruct (share_path self) as [base|e]; [|by wp_ret]. unfold loop.
  apply (twp_iter_inv (λ '(stack, keys) w, still w0 w ∧ walk w0 stack keys)
    (λ '(stack, keys) _, walk_measure w0 stack)).
  { split; [done|]. apply walk_start. }
  clear w1 E S1. intros [[|dir stack] keys] w [Sw Hw]; cbn [collect_step].
  { wp_ret. wp_ret. split; [done|]. intros ks [= <-]. split; [by apply sorted_keys_sort, Hw|].
    intros k. rewrite merge_sort_Permutation, (walk_keys _ _ _ Hw). split; [by intros []|].
    intros Hk. split; [done|]. by intros s ?%not_elem_of_nil. }
  assert (Hu : unc_name (with_path base dir) = path_name dir)
    by (apply unc_path_name, (walk_safe _ _ _ Hw); by left).
  assert (Hskip : ∀ w1, still w0 w1 → path_name dir ∉ dirs w0 →
    (still w0 w1 ∧ walk w0 stack keys) ∧ (walk_measure w0 stack < walk_measure w0 (dir :: stack))%nat).
  { intros w1 S1 Hd. split; [split; [done|by eapply walk_skip]|by apply measure_skip]. }
  pose proof Sw as ((Hn0 & _) & _ & Hd0).
  wp_bind. eapply twp_mono; [apply open_directory_twp|]. rewrite Hu, Hd0, Hn0. intros r w1 [S1 Hr].
  assert (S01 : still w0 w1) by by etrans. destruct r as [resource|e].
  2: { destruct (is_not_found e); wp_ret; [apply Hskip; auto|]. by wp_ret. }
  destruct resource as [f|h|pi].
  - wp_bind. eapply leave_twp; [done| |done|].
    + intros f' [= <-]. apply Hlast. pose proof (law_names _ _ _ Hr) as [_ Hnd].
      destruct (walk_dirs _ _ _ Hw dir) as [Hd|Hd]; [by left|done|]. by rewrite <- Hd.
    + intros r w2 S2. wp_ret. apply Hskip; [done|]. by apply law_names in Hr as [_ ?].
  - destruct Hr as [Hh Hd]. eapply twp_mono; [apply directory_twp; [done|]|].
    { destruct S01 as (_ & _ & ->). done. }
    intros [[stack' keys']|r] w2 [S2 Hl]; assert (S02 : still w0 w2) by by etrans.
    + destruct Hl as (l & He & -> & ->). apply (entries_still w0) in He; [|done].
      split; [split; [done|by apply walk_descend]|by eapply measure_descend].
    + destruct Hl as [e ->]. by wp_ret.
  - wp_bind. eapply leave_twp; [done|done|done|]. intros r w2 S2. wp_ret. by apply Hskip.
Qed.

(** ** Pages *)

#[export] Instance listed_dec w k : Decision (listed w k).
Proof. unfold listed. apply _. Defined.

(** The keys of the files of a share, as a strictly increasing list. *)
Definition all_keys (w : W) : list string :=
  merge_sort String.le (remove_dups (filter (listed w)
    ((λ p, join "/" (drop (length root_name) p)) <$> elements (dom (names w))))).

Lemma all_keys_sorted w : sorted_keys (all_keys w).
Proof. apply sorted_keys_sort, NoDup_remove_dups. Qed.

Lemma elem_of_all_keys w k : k ∈ all_keys w ↔ listed w k.
Proof.
  unfold all_keys. rewrite merge_sort_Permutation, elem_of_remove_dups, list_elem_of_filter.
  split; [by intros []|]. intros Hl. split; [done|]. apply list_elem_of_fmap.
  exists (key_name self k). split.
  - rewrite key_name_root, drop_app_length. symmetry. apply (join_split "/").
  - apply elem_of_elements, elem_of_dom. by destruct Hl as (_ & ? & _).
Qed.

Lemma page_of_keys_eq prefix c limit ks :
  0 < limit → page_of_keys prefix c limit ks =
  page_of (Z.to_nat limit) (List.filter (after_token c) (List.filter (starts_with prefix) ks)).
Proof.
  intros Hl. unfold page_of_keys, page_of. rewrite filter_and. fold (after_token c).
  set (l := List.filter _ (List.filter _ ks)).
  destruct (Z.ltb_spec limit (Z.of_nat (length l))), (Nat.ltb_spec (Z.to_nat limit) (length l)); done || lia.
Qed.

Lemma list_page_twp prefix c limit w :
  validate_blob_prefix prefix = Ok tt → 0 < limit → lasting w root_name →
  twp (list_blobs_page self prefix c limit) (λ r w', still w w' ∧ ∀ p, r = Ok p →
    p = page_of (Z.to_nat limit)
          (List.filter (after_token c) (List.filter (starts_with prefix) (all_keys w)))) w.
Proof.
  intros Hp Hl Hlast. unfold list_blobs_page. rewrite Hp. cbn beta iota.
  rewrite (proj2 (Z.eqb_neq limit 0)) by lia. wp_bind.
  eapply twp_mono; [by apply collect_keys_twp|]. intros [ks|e] w1 [S1 Hks]; wp_ret; [|done].
  split; [done|]. intros p [= <-]. rewrite page_of_keys_eq by done.
  destruct (Hks ks eq_refl) as [Hs Hin].
  rewrite (sorted_keys_unique ks (all_keys w)); [done|done|apply all_keys_sorted|].
  intros k. by rewrite Hin, elem_of_all_keys.
Qed.

Lemma list_blobs_twp prefix w :
  validate_blob_prefix prefix = Ok tt → lasting w root_name →
  twp (default_list_blobs (list_blobs_page self) prefix) (λ r w', still w w' ∧
    ∀ l, r = Ok l → l = List.filter (starts_with prefix) (all_keys w)) w.
Proof.
  intros Hp Hlast. apply (sorted_pages_twp (list_blobs_page self) (still w));
    [apply sorted_keys_filter, all_keys_sorted| |done].
  intros c w1 S1. eapply twp_mono; [apply (list_page_twp prefix c 1000)|]; [done|lia| |].
  - intros i. destruct S1 as ((-> & _ & ->) & _). apply Hlast.
  - intros r w2 [S2 Hr]. split; [by etrans|].
    assert (Ek : all_keys w1 = all_keys w); [|by rewrite <- Ek].
    apply sorted_keys_unique; [apply all_keys_sorted..|]. intros k. rewrite !elem_of_all_keys.
    unfold listed. by destruct S1 as ((-> & _) & _).
Qed.

(** C20: [list_blobs] and its pages.  A walk that meets no error finds the key of
    every file below the root prefix that is not a temporary one, in order and
    once: a page holds the first [limit] of those with the prefix after the
    token, and the pages together are all of them.  A directory that is missing
    or is none is left out without an error.  Nothing changes. *)
Theorem smb_list_blobs_spec prefix w :
  lasting w root_name →
  match validate_blob_prefix prefix with
  | Ok _ => ∃ ks, sorted_keys ks ∧
      (∀ k, k ∈ ks ↔ starts_with prefix k = true ∧ key_safe k ∧
         is_Some (names w !! key_name self k) ∧ is_temp_key k = false) ∧
      (∀ c limit, 0 < limit → twp (list_blobs_page self prefix c limit) (λ r w', still w w' ∧
         ∀ p, r = Ok p → p = page_of (Z.to_nat limit) (List.filter (after_token c) ks)) w) ∧
      twp (list_blobs (BlobStore := smb_blob_store self) prefix) (λ r w', still w w' ∧
         ∀ l, r = Ok l → l = ks) w
  | Err e => ∀ c limit, list_blobs_page self prefix c limit = Ret (Err e)
  end.
Proof.
  intros Hlast. destruct (validate_blob_prefix prefix) as [[]|e] eqn:Hp.
  2: { intros c limit. unfold list_blobs_page. by rewrite Hp. }
  exists (List.filter (starts_with prefix) (all_keys w)).
  split; [apply sorted_keys_filter, all_keys_sorted|]. split; [|split].
  - intros k. rewrite list_elem_of_In, filter_In, <- list_elem_of_In, elem_of_all_keys.
    unfold listed. tauto.
  - intros c limit Hl. by apply list_page_twp.
  - by apply list_blobs_twp.
Qed.
End Listing.
