(* ===== verification/SmbProbe.v ===== *)
(** * The probe of SMB (src/src/smb.rs)

    [probe] connects, makes the root prefix when it is asked to, lists it, and
    then writes, reads and deletes a file of its own.  It composes nearly all
    operations of the provider, and so do the proofs. *)
From S2P Require Import Prelude Text Errors Providers Externals Paths Keys Effects Streams BlobStore Smb SmbFacts SmbStore SmbServer SmbCalls SmbWrite SmbPut SmbRead SmbList.
From Stdlib Require Import Ascii.

Definition probe_key `{EX : Externals} (u : Uuid) : string :=
  ".graphql-orm-probe-" +:+ uuid_to_string u.

(** ** What a probe checks

    In any environment: nothing is assumed of what the calls answer. *)
Section Checks.
Context `{EX : Externals} `{SC : SmbCrate} `{SH : SmbHandles}.
Context {W : Type} `{H : !Handler smbE W}.
Context (cfg : SmbStorageConfig) (options : SmbProbeOptions).

(** The stages of a probe up to the bytes it read back: a connection, the root
    prefix, a listing, and a file of 16 new bytes that is written and read. *)
Definition read_back (backend : SmbStorageBackend) (key : string)
    (listed : storage_result (list string)) (expected actual : bytes) (w w' : W) : Prop :=
  ∃ w1 w2 w3 u w4 u' w5 o w6 body w7,
    runs (connect cfg) w (Ok backend) w1 ∧
    runs (if create_prefix options then ensure_root_prefix backend else Ret (Ok tt)) w1 (Ok tt) w2 ∧
    runs (default_list_blobs (list_blobs_page backend) "") w2 listed w3 ∧
    handle SmbNewV4 w3 = (u, w4) ∧ key = probe_key u ∧
    handle SmbNewV4 w4 = (u', w5) ∧ expected = uuid_as_bytes u' ∧
    runs (put_blob backend key (from_bytes expected) default_put_options) w5 (Ok o) w6 ∧
    runs (get_blob backend key) w6 (Ok body) w7 ∧
    runs (collect_storage_stream (bb_body body)) w7 (Ok actual) w'.

(** A probe that succeeds: the bytes were read back unchanged, and the file was
    deleted. *)
Definition checked (w : W) (res : SmbProbeResult) (w' : W) : Prop :=
  ∃ backend key listed expected w1 w2 client w3 dialect,
    read_back backend key listed expected expected w w1 ∧
    runs (delete_blob backend key) w1 (Ok tt) w2 ∧
    handle ReadClient w2 = (client, w3) ∧
    handle (Await (GetConnection client (smb_server cfg))) w3 = (Ok (Some dialect), w') ∧
    res = mkProbeResult (from_protocol dialect) true (smb_require_encryption cfg) true true
            (is_ok listed) true.

Lemma runs_call {X} (e : smbE X) w x w' : runs (call e) w x w' ↔ handle e w = (x, w').
Proof.
  unfold call. rewrite runs_vis, runs_ret. destruct (handle e w) as [y w1]. simpl.
  split; [by intros [-> ->]|by intros [= -> ->]].
Qed.

Lemma bind_ok {A B} (p : prog smbE (storage_result A)) (k : A → prog smbE (storage_result B)) w b w' :
  runs (let*? x := p in k x) w (Ok b) w' ↔ ∃ a w1, runs p w (Ok a) w1 ∧ runs (k a) w1 (Ok b) w'.
Proof.
  rewrite runs_bind. split.
  - intros ([a|e] & w1 & Hp & Hk); [eauto|]. by apply runs_ret in Hk as [? _].
  - intros (a & w1 & Hp & Hk). by exists (Ok a), w1.
Qed.

(** What the probe does with the bytes it read. *)
Definition compared (backend : SmbStorageBackend) (key : string)
    (listed : storage_result (list string)) (expected actual : bytes) :
    prog smbE (storage_result SmbProbeResult) :=
  if negb (bool_decide (actual = expected)) then
    let* _ := delete_blob backend key in
    Ret (Err (remote_error Protocol "probe" "probe file contents did not match" false))
  else
    let*? _ := delete_blob backend key in
    let* client := call ReadClient in
    let* r := call (Await (GetConnection client (smb_server cfg))) in
    let!? info := map_err (map_smb_error "probe") r in
    match info with
    | None => Ret (Err (remote_error Protocol "probe"
                "negotiated connection information is unavailable" false))
    | Some dialect =>
        Ret (Ok (mkProbeResult (from_protocol dialect) true (smb_require_encryption cfg)
                   true true (is_ok listed) true))
    end.

Lemma probe_from_read_back backend key listed expected actual w w1 r w' :
  read_back backend key listed expected actual w w1 →
  runs (compared backend key listed expected actual) w1 r w' → runs (probe cfg options) w r w'.
Proof.
  intros (v1 & v2 & v3 & u & v4 & u' & v5 & o & v6 & body & v7 & Hc & He & Hl & Eu & -> & Eu' & -> &
    Hp & Hg & Hcol) Hr.
  unfold probe. apply runs_bind. exists (Ok backend), v1. split; [done|].
  apply runs_bind. exists (Ok tt), v2. split; [done|]. apply runs_bind. exists listed, v3. split; [done|].
  apply runs_bind. exists u, v4. split; [by apply runs_call|].
  apply runs_bind. exists u', v5. split; [by apply runs_call|].
  apply runs_bind. exists (Ok o), v6. split; [done|]. apply runs_bind. exists (Ok body), v7. split; [done|].
  apply runs_bind. exists (Ok actual), w1. split; [done|]. exact Hr.
Qed.

Lemma probe_read_back w res w' :
  runs (probe cfg options) w (Ok res) w' → ∃ backend key listed expected actual w1,
    read_back backend key listed expected actual w w1 ∧
    runs (compared backend key listed expected actual) w1 (Ok res) w'.
Proof.
  unfold probe. intros (backend & w1 & Hc & Hr)%bind_ok.
  apply bind_ok in Hr as ([] & w2 & He & Hr). apply runs_bind in Hr as (listed & w3 & Hl & Hr).
  apply runs_bind in Hr as (u & w4 & Eu%runs_call & Hr).
  apply runs_bind in Hr as (u' & w5 & Eu'%runs_call & Hr). cbn zeta in Hr.
  apply bind_ok in Hr as (o & w6 & Hp & Hr). apply bind_ok in Hr as (body & w7 & Hg & Hr).
  apply bind_ok in Hr as (actual & w8 & Hcol & Hr).
  exists backend, (probe_key u), listed, (uuid_as_bytes u'), actual, w8. split; [|exact Hr].
  by exists w1, w2, w3, u, w4, u', w5, o, w6, body, w7.
Qed.

Lemma probe_checked w res w' : runs (probe cfg options) w (Ok res) w' ↔ checked w res w'.
Proof.
  split.
  - intros (backend & key & listed & expected & actual & w1 & Hb & Hr)%probe_read_back.
    unfold compared in Hr. destruct (bool_decide_reflect (actual = expected)) as [->|Hne]; cbn [negb] in Hr.
    2: { by apply runs_bind in Hr as (x & w2 & _ & [? _]%runs_ret). }
    apply bind_ok in Hr as ([] & w2 & Hd & Hr). apply runs_bind in Hr as (client & w3 & Ec%runs_call & Hr).
    apply runs_bind in Hr as (r & w4 & Er%runs_call & Hr).
    destruct r as [[dialect|]|e]; simpl in Hr; apply runs_ret in Hr as [Hr ->]; [|done..].
    injection Hr as ->. by exists backend, key, listed, expected, w1, w2, client, w3, dialect.
  - intros (backend & key & listed & expected & w1 & w2 & client & w3 & dialect & Hb & Hd & Ec & Er & ->).
    eapply probe_from_read_back; [exact Hb|]. unfold compared. rewrite bool_decide_eq_true_2 by done.
    apply bind_ok. exists tt, w2. split; [done|]. apply runs_bind. exists client, w3.
    split; [by apply runs_call|]. apply runs_bind. eexists _, _. split; [by apply runs_call|].
    by apply runs_ret.
Qed.

(** Other bytes: the file is deleted, and the probe fails. *)
Lemma probe_mismatch backend key listed expected actual w w1 r w2 :
  read_back backend key listed expected actual w w1 → actual ≠ expected →
  runs (delete_blob backend key) w1 r w2 →
  runs (probe cfg options) w
    (Err (remote_error Protocol "probe" "probe file contents did not match" false)) w2.
Proof.
  intros Hb Hne Hd. eapply probe_from_read_back; [exact Hb|]. unfold compared.
  rewrite bool_decide_eq_false_2 by done. apply runs_bind. exists r, w2. split; [done|]. by apply runs_ret.
Qed.
End Checks.

Section Probe.
Context `{EX : Externals} `{XL : !ExternalsLaws} `{SC : SmbCrate} `{SH : SmbHandles}.
Context {W : Type} `{H : !Handler smbE W} `{V : !ShareView W} `{S : !Share W}.

Lemma probe_key_char u c :
  c = "/"%char ∨ c = BACKSLASH ∨ c = NUL → contains_char c (probe_key u) = false.
Proof.
  intros Hc. unfold probe_key. rewrite contains_char_app, (all_chars_contains uuid_char c _ (uuid_text_chars u))
    by (by destruct Hc as [->|[->| ->]]). by destruct Hc as [->|[->| ->]].
Qed.

Lemma probe_key_split u : split "/" (probe_key u) = [probe_key u].
Proof. apply split_id, probe_key_char. auto. Qed.

Lemma probe_key_safe u : key_safe (probe_key u).
Proof.
  assert (Hlen : String.length (probe_key u) = 55%nat)
    by (unfold probe_key; by rewrite length_app_str, uuid_text_length).
  unfold key_safe. rewrite probe_key_split. constructor; [|done].
  split_and!; [..|by apply probe_key_char; auto|by apply probe_key_char; auto|by apply probe_key_char; auto];
    intros E; by rewrite E in Hlen.
Qed.

Context (cfg : SmbStorageConfig) (options : SmbProbeOptions).

Abbreviation self := (mkSmb cfg).

(** The names of probe files, and of their temporary files. *)
Definition probe_file (q : share_name) : Prop := ∃ u, q = key_name self (probe_key u).

Definition probe_temp (q : share_name) : Prop := ∃ u, is_temp_of self (probe_key u) q.

(** No put of a probe has left a temporary file. *)
Definition no_probe_temps (w : W) : Prop := ∀ q, probe_temp q → names w !! q = None.

Lemma probe_fresh u w w' : no_probe_temps w → files_kept w w' → fresh_temp self (probe_key u) w'.
Proof. intros Hw (N & _) u' w1 t _ Ht. rewrite N. apply Hw. exists u, u', t. done. Qed.

(** What a probe leaves: an error, at most files of probes; success, none of
    them, and all permits of the new connection. *)
Definition probed (w : W) (r : storage_result SmbProbeResult) (w' : W) : Prop :=
  locked w' = locked w ∧
  (∀ q, ¬ probe_file q → ¬ probe_temp q → unharmed w w' q) ∧
  ∀ res, r = Ok res →
    permits w' = smb_max_transfer_concurrency cfg ∧
    ∃ p, probe_file p ∧ (∀ q, q ≠ p → unharmed w w' q) ∧
      ((∀ f, is_open w' f → names w' !! p ≠ Some (file_id f)) → names w' !! p = None).

Lemma probed_kept w w' e : files_kept w w' → locked w' = locked w → probed w (Err e) w'.
Proof. intros F L. split; [done|]. split; [|done]. intros q _ _. by apply unharmed_kept. Qed.

(** One name of a probe and nothing else changed. *)
Lemma probed_one w w' e p :
  probe_file p → (∀ q, q ≠ p → unharmed w w' q) → locked w' = locked w → probed w (Err e) w'.
Proof. intros Hp Hu L. split; [done|]. split; [|done]. intros q Hq _. apply Hu. by intros ->. Qed.

(** ** The steps *)

Lemma ensure_root_twp w : twp (ensure_root_prefix self) (idle_result w) w.
Proof.
  unfold ensure_root_prefix. destruct (smb_root_prefix (config self)) as [p|]; [|by wp_ret].
  unfold ensure_directories. wp_bind. apply local_twp; [done..|]. intros client w1 I1.
  destruct (share_path self) as [base|e] eqn:Eu.
  2: { wp_ret. split; [done|]. by eapply unc_share_err in Eu as [_ ?]. }
  eapply twp_mono; [apply ensure_segments_twp|]. intros r w2 [I2 Hr]. split; [by etrans|done].
Qed.

(** A connection: the permits are new, nothing else changes. *)
Definition connected (w : W) (r : storage_result SmbStorageBackend) (w' : W) : Prop :=
  files_kept w w' ∧ locked w' = locked w ∧
  ∀ b, r = Ok b → b = self ∧ permits w' = smb_max_transfer_concurrency cfg.

Lemma connect_twp w : twp (connect cfg) (connected w) w.
Proof.
  unfold connect. destruct (validate cfg) as [[]|e]; [|by wp_ret].
  wp_bind. eapply twp_mono; [apply connect_client_twp|].
  intros [client|e] w1 ((F1 & [_ L1] & _) & _); [|wp_ret; split; [done|]; by split].
  wp_bind. apply local_twp; [done..|]. intros [] w2 (F2 & [_ L2] & _).
  wp_bind. unfold call. wp_vis x w3 E. wp_ret. wp_ret.
  destruct (law_new_semaphore _ _ _ _ E) as [L3 P3]. destruct (law_local _ _ _ _ _ E eq_refl) as [F3 _].
  split; [by do 2 (etrans; [done|])|]. split; [congruence|]. by intros b [= <-].
Qed.

(** The file of the probe is there. *)
Definition written_at (p : share_name) (b : bytes) (w w' : W) : Prop :=
  locked w' = false ∧ permits w' = smb_max_transfer_concurrency cfg ∧ stored w' p b ∧
  ∀ q, q ≠ p → unharmed w w' q.

Lemma written_kept p b w w1 w2 :
  written_at p b w w1 → files_kept w1 w2 → cells_kept w1 w2 → written_at p b w w2.
Proof.
  intros (L & P & [Hc Hx] & Hu) (N & D & X) [P2 L2]. split; [congruence|]. split; [congruence|].
  split; [split; [unfold content in *; by rewrite N, D|by rewrite N, X]|].
  intros q Hq. destruct (Hu q Hq) as (U1 & U2 & U3). unfold unharmed, content. by rewrite N, D, X.
Qed.

(** What the result says. *)
Definition facts (readable : bool) (res : SmbProbeResult) : Prop :=
  encryption_active res = smb_require_encryption cfg ∧ signing_active res = true ∧
  server_reachable res = true ∧ share_reachable res = true ∧ prefix_writable res = true ∧
  prefix_readable res = readable.

(** Deleting it and asking for the dialect. *)
Definition probe_end (key : string) (readable : bool) : prog smbE (storage_result SmbProbeResult) :=
  let*? _ := delete_blob self key in
  let* client := call ReadClient in
  let* r := call (Await (GetConnection client (smb_server cfg))) in
  let!? info := map_err (map_smb_error "probe") r in
  match info with
  | None => Ret (Err (remote_error Protocol "probe"
              "negotiated connection information is unavailable" false))
  | Some dialect =>
      Ret (Ok (mkProbeResult (from_protocol dialect) true (smb_require_encryption cfg)
                 true true readable true))
  end.

Section Accepted.
Context (C : config_ok cfg).

Lemma probe_end_twp u b readable w w1 :
  locked w = false → written_at (key_name self (probe_key u)) b w w1 →
  twp (probe_end (probe_key u) readable) (λ r w', probed w r w' ∧
    ∀ res, r = Ok res → facts readable res) w1.
Proof.
  intros L (L1 & P1 & Hst & Hu). set (p := key_name self (probe_key u)) in *.
  assert (Hp : probe_file p) by by exists u.
  unfold probe_end. wp_bind. eapply twp_mono; [apply (delete_blob_twp self C); [apply probe_key_safe|done]|].
  fold p. intros r w2 ([P2 L2] & U2 & Hgone & Hok).
  assert (Hu2 : ∀ q, q ≠ p → unharmed w w2 q).
  { intros q Hq. eapply unharmed_trans; [by apply Hu|by apply U2]. }
  destruct r as [[]|e]; [|wp_ret; split; [|done]; eapply probed_one; [done..|congruence]].
  wp_bind. apply local_twp; [done..|]. intros client w3 I3.
  wp_bind. apply await_twp. intros a w4 Hs. pose proof (idle_quiet _ _ _ _ Hs eq_refl) as I4.
  assert (I : idle w2 w4) by by etrans. destruct I as ((N4 & D4 & X4) & [P4 L4] & H4).
  assert (Hu4 : ∀ q, q ≠ p → unharmed w w4 q).
  { intros q Hq. eapply unharmed_trans; [by apply Hu2|]. by apply unharmed_kept. }
  assert (Hl : locked w4 = locked w) by congruence.
  destruct a as [[dialect|]|e]; wp_ret; (split; [|done || by intros res [= <-]]);
    [|by eapply probed_one..].
  split; [done|]. split; [intros q Hq _; apply Hu4; by intros ->|]. intros res _. split; [congruence|].
  exists p. do 2 (split; [done|]). rewrite N4. intros Hf. destruct Hgone as [E|E]; [|done].
  apply (Hok eq_refl). intros f Hof. rewrite <- E. by apply Hf, H4.
Qed.

(** Writing, reading back and the rest. *)
Definition probe_file_io (u : Uuid) (expected : bytes) (readable : bool) :
    prog smbE (storage_result SmbProbeResult) :=
  let*? _ := put_blob self (probe_key u) (from_bytes expected) default_put_options in
  let*? loaded := get_blob self (probe_key u) in
  let*? actual := collect_storage_stream (bb_body loaded) in
  if negb (bool_decide (actual = expected)) then
    let* _ := delete_blob self (probe_key u) in
    Ret (Err (remote_error Protocol "probe" "probe file contents did not match" false))
  else probe_end (probe_key u) readable.

Lemma put_probe_twp u b w w1 :
  no_probe_temps w → locked w = false → files_kept w w1 → locked w1 = false →
  permits w1 = smb_max_transfer_concurrency cfg → 0 < permits w1 →
  twp (put_blob self (probe_key u) (from_bytes b) default_put_options) (λ r w', match r with
    | Ok _ => written_at (key_name self (probe_key u)) b w w'
    | Err e => probed w (Err e) w'
    end) w1.
Proof.
  intros Ht L F1 L1 P1 Hp. set (p := key_name self (probe_key u)).
  eapply twp_mono; [apply (put_blob_twp self C cells_kept) with (P := read_whole [b] None)
    (of_body := λ e, None = Some e); [apply probe_key_safe|done|done|by eapply probe_fresh|
    eapply dropped_body_of, body_of_from_bytes|]|].
  { intros temp Hk _. by apply feeds_body_of, body_of_from_bytes. }
  intros [o|e] w2 [[P2 L2] Hr].
  - destruct Hr as (cs & [_ ->] & _ & Hst & Hu). cbn [concat] in Hst. rewrite app_nil_r in Hst.
    split; [congruence|]. split; [congruence|]. split; [done|]. intros q Hq.
    eapply unharmed_after; [done|by apply Hu].
  - destruct Hr as [_ Hu]. split; [congruence|]. split; [|done]. intros q Hq Hq'.
    eapply unharmed_after; [done|]. apply Hu; [intros ->; apply Hq; by exists u|].
    intros Hn. apply Hq'. by exists u.
Qed.

Lemma probe_io_twp u b readable w w1 :
  no_probe_temps w → locked w = false → files_kept w w1 → locked w1 = false →
  permits w1 = smb_max_transfer_concurrency cfg → 0 < permits w1 →
  twp (probe_file_io u b readable) (λ r w', probed w r w' ∧
    ∀ res, r = Ok res → facts readable res) w1.
Proof.
  intros Ht L F1 L1 P1 Hp. set (p := key_name self (probe_key u)).
  unfold probe_file_io. wp_bind. eapply twp_mono; [by apply (put_probe_twp u b w)|].
  intros [o|e] w2 H2; [|wp_ret; by split]. pose proof H2 as (L2 & P2 & [Hc Hx] & Hu).
  assert (Hone : ∀ e w3, written_at p b w w3 → probed w (Err e) w3).
  { intros e w3 (L3 & _ & _ & Hu3). eapply (probed_one _ _ _ p); [by exists u|done|congruence]. }
  wp_bind. eapply twp_mono; [apply (get_blob_twp self C); [apply probe_key_safe|done|congruence]|].
  intros [body|e] w3 (F3 & L3 & Hr).
  2: { wp_ret. split; [|done]. apply Hone. by eapply written_kept. }
  destruct Hr as (P3 & f & d & Hn & Hd & Hlen & ->). pose proof F3 as (N3 & D3 & X3). fold p in Hn, Hc, Hx.
  assert (d = b) as ->. { unfold content in Hc. rewrite Hn in Hc. simpl in Hc. congruence. }
  wp_bind. eapply twp_mono; [apply (file_body_collect self)|].
  { by rewrite D3. } { rewrite X3. by apply Hx. } { done. }
  intros r w4 [(F4 & L4 & P4) Hr].
  assert (H4 : written_at p b w w4).
  { eapply written_kept; [exact H2|by etrans|]. split; [lia|congruence]. }
  destruct r as [actual|e]; [|wp_ret; split; [by apply Hone|done]].
  rewrite (Hr actual eq_refl), bool_decide_eq_true_2 by done. cbn [negb].
  by eapply probe_end_twp.
Qed.

(** With the listing that the result speaks of. *)
Definition reported (w : W) (res : SmbProbeResult) : Prop :=
  ∃ w1 listed w2, files_kept w w1 ∧
    runs (default_list_blobs (list_blobs_page self) "") w1 listed w2 ∧ facts (is_ok listed) res.

Lemma probe_twp w :
  0 ≤ smb_max_transfer_concurrency cfg → locked w = false → no_probe_temps w →
  lasting w (root_name self) →
  twp (probe cfg options) (λ r w', probed w r w' ∧ ∀ res, r = Ok res → reported w res) w.
Proof.
  intros H0 L Ht Hlast. pose proof (ok_concurrency _ C) as Hne.
  assert (Hkept : ∀ e w', files_kept w w' → locked w' = locked w →
    probed w (Err e) w' ∧ ∀ res, Err e = Ok res → reported w res) by (intros; split; [by apply probed_kept|done]).
  unfold probe. wp_bind. eapply twp_mono; [apply connect_twp|].
  intros [b|e] w1 (F1 & L1 & Hb); [|wp_ret; by apply Hkept].
  destruct (Hb b eq_refl) as [-> P1]. clear Hb.
  wp_bind. apply (twp_mono _ (λ r w2, files_kept w w2 ∧ cells_kept w1 w2)).
  { destruct (create_prefix options); [|by wp_ret].
    eapply twp_mono; [apply ensure_root_twp|]. intros r w2 [(F2 & C2 & _) _]. split; [by etrans|done]. }
  intros [[]|e] w2 [F2 [P2 L2]]; [|wp_ret; apply Hkept; [done|congruence]].
  wp_bind. destruct (list_blobs_twp self C "" w2) as (listed & w3 & Hlist & (F3 & [P3 L3] & _) & _).
  { reflexivity. }
  { intros i. destruct F2 as (-> & _ & ->). apply Hlast. }
  exists listed, w3. split; [exact Hlist|].
  wp_bind. apply local_twp; [done..|]. intros u w4 (F4 & [P4 L4] & _).
  wp_bind. apply local_twp; [done..|]. intros u' w5 (F5 & [P5 L5] & _).
  eapply twp_mono; [apply (probe_io_twp u (uuid_as_bytes u') (is_ok listed) w w5)|]; [done|done| |..].
  - do 3 (etrans; [eassumption|]). done.
  - congruence.
  - congruence.
  - lia.
  - intros r w6 [Hp Hr]. split; [done|]. intros res Hres. exists w2, listed, w3.
    do 2 (split; [done|]). by apply Hr.
Qed.
End Accepted.

(** C23: [probe] always returns.  An invalid configuration is refused before any
    call.  In any environment, whatever the server answers, it succeeds exactly
    when each of its stages did and the 16 bytes it wrote under its own key were
    read back unchanged and deleted; other bytes are an error, and the file is
    deleted.  On a share, a probe that succeeds leaves nothing: its file is gone
    (as soon as nobody has it open), nothing else changed, all permits of the new
    connection are free, and [prefix_readable] says whether the listing of the
    prefix succeeded.  When it fails, at most files of probes and their temporary
    files are left behind. *)
Theorem smb_probe_spec w :
  0 ≤ smb_max_transfer_concurrency cfg → locked w = false → no_probe_temps w →
  lasting w (root_name self) →
  match validate cfg with
  | Ok _ => twp (probe cfg options)
      (λ r w', probed w r w' ∧ ∀ res, r = Ok res → reported w res ∧ checked cfg options w res w') w
  | Err e => probe cfg options = Ret (Err e)
  end ∧
  ∀ (W' : Type) `{!Handler smbE W'} (v : W'),
    (∀ res v', runs (probe cfg options) v (Ok res) v' ↔ checked cfg options v res v') ∧
    (∀ backend key listed expected actual v1 r v2,
       read_back cfg options backend key listed expected actual v v1 → actual ≠ expected →
       runs (delete_blob backend key) v1 r v2 →
       runs (probe cfg options) v
         (Err (remote_error Protocol "probe" "probe file contents did not match" false)) v2).
Proof.
  intros H0 L Ht Hlast. split.
  - pose proof (validate_cases cfg) as Hv. destruct (validate cfg) as [[]|e] eqn:E.
    + destruct (probe_twp Hv w) as (r & w' & Hr & Hp & Hrep); [done..|].
      exists r, w'. split; [done|]. split; [done|]. intros res ->. split; [by apply Hrep|].
      by apply probe_checked.
    + unfold probe, connect. by rewrite E.
  - intros W' HW v. split; [intros; apply probe_checked|intros; by eapply probe_mismatch].
Qed.
End Probe.
