(* ===== verification/SmbMemory.v ===== *)
(** * A share in memory

    A concrete share that keeps the promises of SmbServer.v, on which the
    theorems about the SMB provider are applied.  Requests are numbered, and the
    state says which of them are not answered: such a request has no effect.  A
    write takes at most four bytes and only appends.  A request whose result
    would break the shape of a disk is refused. *)
From S2P Require Import Prelude Text Errors Providers Externals Keys Effects Streams BlobStore Smb SmbFacts SmbStore SmbServer SmbList.
From Stdlib Require Import Ascii.

#[export] Instance safe_segment_dec x : Decision (safe_segment x).
Proof. unfold safe_segment. apply _. Defined.

(** The [NTSTATUS] values. *)
#[export] Instance memory_crate : SmbCrate := {|
  LogonFailure := 3221225581;
  AccessDenied := 3221225506;
  BadNetworkName := 3221225676;
  ObjectNameNotFound := 3221225524;
  ObjectPathNotFound := 3221225530;
  ObjectNameCollision := 3221225525;
  IoTimeout := 3221225653;
  NetworkNameDeleted := 3221225673;
  UserSessionDeleted := 3221225987;
  NetworkSessionExpired := 3221226332;
  smb_error_to_string := λ e, match e with
    | UnexpectedMessageStatus _ => "unexpected message status"
    | _ => "error"
    end;
|}.

(** A path is its text, a file handle its number and its file, a directory
    handle its name, a query its entries. *)
#[export] Instance memory_handles : SmbHandles := {|
  UncPath := string;
  unc_new := λ _, Ok "";
  with_share := λ p _, Ok p;
  with_path := λ _ s, s;
  Client := unit;
  File := positive * positive;
  Directory := share_name;
  Pipe := unit;
  Entries := list DirEntry;
|}.

(** ** Disks *)

Record Disk : Type := mkDisk {
  d_names : gmap share_name positive;
  d_data : gmap positive bytes;
  d_doomed : gset positive;
  d_dirs : gset share_name;
}.

Definition disk_ok (d : Disk) : Prop :=
  map_Forall (λ p i, map_Forall (λ q j, i = j → p = q) (d_names d)) (d_names d) ∧
  map_Forall (λ _ i, is_Some (d_data d !! i)) (d_names d) ∧
  map_Forall (λ p _, Forall safe_segment p ∧ p ∉ d_dirs d) (d_names d) ∧
  map_Forall (λ p _, Forall (λ n, take n p ∈ d_dirs d) (seq 0 (length p))) (d_names d) ∧
  set_Forall (Forall safe_segment) (d_dirs d) ∧
  map_Forall (λ _ b, Z.of_nat (length b) ≤ i64_MAX) (d_data d).

#[export] Instance disk_ok_dec d : Decision (disk_ok d).
Proof. unfold disk_ok. apply _. Defined.

Record SmbMemory : Type := mkSmbMemory {
  m_disk : Disk;
  m_disk_ok : bool_decide (disk_ok m_disk) = true;
  m_open : gset (positive * positive);
  m_permits : Z;
  m_locked : bool;
  m_dials : nat;
  m_clock : nat;
  m_down : list nat;
}.

Definition set_open (o : gset (positive * positive)) (w : SmbMemory) : SmbMemory :=
  mkSmbMemory (m_disk w) (m_disk_ok w) o (m_permits w) (m_locked w) (m_dials w) (m_clock w) (m_down w).
Definition set_cells (permits : Z) (locked : bool) (w : SmbMemory) : SmbMemory :=
  mkSmbMemory (m_disk w) (m_disk_ok w) (m_open w) permits locked (m_dials w) (m_clock w) (m_down w).
Definition set_clock (dials clock : nat) (w : SmbMemory) : SmbMemory :=
  mkSmbMemory (m_disk w) (m_disk_ok w) (m_open w) (m_permits w) (m_locked w) dials clock (m_down w).

(** The new disk with one answer, or the old one with the other. *)
Definition commit {A} (d : Disk) (x y : A) (w : SmbMemory) : A * SmbMemory :=
  match decide (bool_decide (disk_ok d) = true) with
  | left ok => (x, mkSmbMemory d ok (m_open w) (m_permits w) (m_locked w) (m_dials w) (m_clock w) (m_down w))
  | right _ => (y, w)
  end.

Definition set_names (names : gmap share_name positive) (d : Disk) : Disk :=
  mkDisk names (d_data d) (d_doomed d) (d_dirs d).
Definition set_data (data : gmap positive bytes) (d : Disk) : Disk :=
  mkDisk (d_names d) data (d_doomed d) (d_dirs d).

(** ** Answers *)

Definition denied : SmbError := UnexpectedMessageStatus AccessDenied.
Definition no_answer : IoError := mkIoError TimedOut "no answer".

(** The answer to a request that fails. *)
Definition refuse {X} `{EX : Externals} (r : smbR X) : X :=
  match r in smbR X return X with
  | ShareConnect _ _ _ _ => Err OperationTimeout
  | CreateFile _ _ _ => Err denied
  | Close _ => Err denied
  | WriteBlock _ _ _ => Err no_answer
  | Flush _ => Err no_answer
  | ReadBlock _ _ _ => Err no_answer
  | SetRename _ _ _ => Err denied
  | SetDisposition _ => Err denied
  | QueryEndOfFile _ => Err denied
  | QueryDirectory _ _ => Err denied
  | NextEntry es => (Some (Err denied), es)
  | GetConnection _ _ => Err denied
  end.

(** A new handle on a file. *)
Definition open_handle (i : positive) (w : SmbMemory) : result Resource SmbError * SmbMemory :=
  let f := (fresh (set_map (D := gset positive) fst (m_open w)), i) in
  (Ok (ResourceFile f), set_open ({[f]} ∪ m_open w) w).

(** A number no file has. *)
Definition fresh_file (d : Disk) : positive :=
  fresh (dom (d_data d) ∪ d_doomed d ∪ map_img (d_names d) : gset positive).

(** A change of the disk, and what follows when it is accepted. *)
Definition change {A} (d : Disk) (y : A) (k : SmbMemory → A * SmbMemory) (w : SmbMemory) :
    A * SmbMemory :=
  match commit d true false w with
  | (true, w') => k w'
  | (false, _) => (y, w)
  end.

Definition create_file (p : share_name) (w : SmbMemory) : result Resource SmbError * SmbMemory :=
  let d := m_disk w in
  let i := fresh_file d in
  change (set_data (<[i:=[]]> (d_data d)) (set_names (<[p:=i]> (d_names d)) d)) (Err denied)
    (open_handle i) w.

(** The subdirectories and files of a directory. *)
Definition below_name (l : list share_name) (p : share_name) : list string :=
  omap (λ q, match q with
             | [] => None
             | _ => if decide (removelast q = p) then last q else None
             end) l.

Definition dir_entries (d : Disk) (p : share_name) : list DirEntry :=
  [mkDirEntry "." true; mkDirEntry ".." true] ++
  ((λ n, mkDirEntry n true) <$> below_name (elements (d_dirs d)) p) ++
  ((λ n, mkDirEntry n false) <$> below_name (elements (dom (d_names d))) p).

Definition WRITE_MAX : nat := 4.

Section Serve.
Context `{EX : Externals}.

Definition serve {X} (r : smbR X) (w : SmbMemory) : X * SmbMemory :=
  let d := m_disk w in
  match r in smbR X return X * SmbMemory with
  | ShareConnect _ _ _ _ => (Ok tt, w)
  | CreateFile _ path args =>
      let p := path_name path in
      match args with
      | make_open_existing _ =>
          match d_names d !! p with
          | Some i => open_handle i w
          | None => if decide (p ∈ d_dirs d) then (Ok (ResourceDirectory p), w)
                    else (Err (UnexpectedMessageStatus ObjectNameNotFound), w)
          end
      | make_create_new =>
          if decide (is_Some (d_names d !! p) ∨ p ∈ d_dirs d)
          then (Err (UnexpectedMessageStatus ObjectNameCollision), w)
          else create_file p w
      | make_overwrite =>
          match d_names d !! p with
          | Some i => change (set_data (<[i:=[]]> (d_data d)) d) (Err denied) (open_handle i) w
          | None => create_file p w
          end
      | open_if_directory _ =>
          if decide (p ∈ d_dirs d) then (Ok (ResourceDirectory p), w)
          else change (mkDisk (d_names d) (d_data d) (d_doomed d) ({[p]} ∪ d_dirs d)) (Err denied)
                 (λ w, (Ok (ResourceDirectory p), w)) w
      end
  | Close (ResourceFile f) =>
      let rest := m_open w ∖ {[f]} in
      if decide (f.2 ∈ d_doomed d ∧ f.2 ∉ (set_map snd rest : gset positive)) then
        change (mkDisk (filter (λ x, x.2 ≠ f.2) (d_names d)) (d_data d) (d_doomed d ∖ {[f.2]}) (d_dirs d))
          (Err denied) (λ w, (Ok tt, set_open rest w)) w
      else (Ok tt, set_open rest w)
  | Close _ => (Ok tt, w)
  | WriteBlock f b offset =>
      match d_data d !! f.2 with
      | Some c =>
          if decide (offset = Z.of_nat (length c)) then
            change (set_data (<[f.2:=c ++ take WRITE_MAX b]> (d_data d)) d) (Err no_answer)
              (λ w, (Ok (Z.of_nat (length (take WRITE_MAX b))), w)) w
          else (Err no_answer, w)
      | None => (Err no_answer, w)
      end
  | Flush _ => (Ok tt, w)
  | ReadBlock f len offset =>
      match d_data d !! f.2 with
      | Some c => if 0 <=? len then (Ok (take (Z.to_nat len) (drop (Z.to_nat offset) c)), w)
                  else (Err no_answer, w)
      | None => (Err no_answer, w)
      end
  | SetRename f replace to =>
      let q := split BACKSLASH to in
      match List.find (λ x, bool_decide (x.2 = f.2)) (map_to_list (d_names d)) with
      | Some (p, i) =>
          if negb replace && bool_decide (is_Some (d_names d !! q))
          then (Err (UnexpectedMessageStatus ObjectNameCollision), w)
          else change (set_names (<[q:=i]> (delete p (d_names d))) d) (Err denied) (λ w, (Ok tt, w)) w
      | None => (Err denied, w)
      end
  | SetDisposition f =>
      change (mkDisk (d_names d) (d_data d) ({[f.2]} ∪ d_doomed d) (d_dirs d)) (Err denied)
        (λ w, (Ok tt, w)) w
  | QueryEndOfFile f =>
      match d_data d !! f.2 with
      | Some c => (Ok (Z.of_nat (length c)), w)
      | None => (Err denied, w)
      end
  | QueryDirectory p _ => (Ok (dir_entries d p), w)
  | NextEntry [] => ((None, []), w)
  | NextEntry (e :: es) => ((Some (Ok e), es), w)
  | GetConnection _ _ => (Ok (Some Smb0311), w)
  end.

Definition dial {X} (r : smbR X) : nat := match r with ShareConnect _ _ _ _ => 1 | _ => 0 end.

(** A request takes a tick, and an attempt to connect counts as one. *)
Definition tick {X} (r : smbR X) (w : SmbMemory) : SmbMemory :=
  set_clock (dial r + m_dials w) (S (m_clock w)) w.

Definition unanswered (w : SmbMemory) : bool := bool_decide (m_clock w ∈ m_down w).

Context (new_v4_text : Uuid).

#[export] Instance memory_handler : Handler smbE SmbMemory :=
  λ X e w,
    match e in smbE X return X * SmbMemory with
    | Within _ r =>
        if unanswered w then (None, tick r w)
        else let '(x, w') := serve r (tick r w) in (Some x, w')
    | Await r => if unanswered w then (refuse r, tick r w) else serve r (tick r w)
    | Sleep _ => (tt, w)
    | SmbNewV4 => (new_v4_text, w)
    | ReadClient => (tt, w)
    | WriteClient _ => (tt, w)
    | TryLockReconnect => (negb (m_locked w), set_cells (m_permits w) true w)
    | UnlockReconnect => (tt, set_cells (m_permits w) false w)
    | NewSemaphore n => (tt, set_cells n (m_locked w) w)
    | TryAcquire =>
        if decide (0 < m_permits w)
        then (Some (Ok tt), set_cells (m_permits w - 1) (m_locked w) w) else (None, w)
    | ReleasePermit => (tt, set_cells (m_permits w + 1) (m_locked w) w)
    end.

#[export] Instance memory_view : ShareView SmbMemory := {|
  names := λ w, d_names (m_disk w);
  data := λ w, d_data (m_disk w);
  doomed := λ w, d_doomed (m_disk w);
  dirs := λ w, d_dirs (m_disk w);
  is_open := λ w f, f ∈ m_open w;
  file_id := λ f, f.2;
  dir_name := λ p, p;
  pending := λ _ es, es;
  unc_name := path_name;
  permits := m_permits;
  locked := m_locked;
  dials := m_dials;
|}.

(** ** What the answers do *)

(** The parts no request touches. *)
Definition side (w : SmbMemory) : Z * bool * nat := (m_permits w, m_locked w, m_dials w).

Lemma change_cases {A} (d : Disk) (y : A) k w x w' :
  change d y k w = (x, w') →
  (x = y ∧ w' = w) ∨
  ∃ w1, m_disk w1 = d ∧ m_open w1 = m_open w ∧ side w1 = side w ∧ k w1 = (x, w').
Proof.
  unfold change, commit. destruct (decide _) as [ok|]; intros E; [right|left; by simplify_eq].
  eexists. split; [|split; [|split; [|exact E]]]; done.
Qed.

Lemma open_handle_eq i w x w' :
  open_handle i w = (x, w') →
  m_disk w' = m_disk w ∧ side w' = side w ∧
  ∃ f, x = Ok (ResourceFile f) ∧ f.2 = i ∧ (f ∉ m_open w) ∧ m_open w' = {[f]} ∪ m_open w.
Proof.
  unfold open_handle. intros [= <- <-]. split; [done|]. split; [done|]. eexists. split; [done|].
  split; [done|]. split; [|done]. intros Hf.
  eapply (is_fresh (set_map (D := gset positive) fst (m_open w))).
  apply elem_of_map. eexists. split; [|exact Hf]. done.
Qed.

Lemma create_file_cases p w x w' :
  create_file p w = (x, w') →
  (x = Err denied ∧ w' = w) ∨
  ∃ f, x = Ok (ResourceFile f) ∧ f.2 = fresh_file (m_disk w) ∧ (f ∉ m_open w) ∧
    m_open w' = {[f]} ∪ m_open w ∧ side w' = side w ∧
    m_disk w' = set_data (<[f.2:=[]]> (d_data (m_disk w)))
                  (set_names (<[p:=f.2]> (d_names (m_disk w))) (m_disk w)).
Proof.
  unfold create_file. intros [[-> ->]|(w1 & Hd & Ho & Hs & E)]%change_cases; [by left|right].
  apply open_handle_eq in E as (Hd' & Hs' & f & -> & Hf & Hno & Ho').
  exists f. rewrite Ho in Hno, Ho'. rewrite Hd', Hs', Hd, Hf. done.
Qed.

(** Case analysis on an answer. *)
Ltac serve_cases E :=
  repeat first
    [ progress simplify_eq/=
    | match type of E with
      | change _ _ _ _ = _ =>
          apply change_cases in E as [[? ?]|(? & ? & ? & ? & E)]
      | create_file _ _ = _ =>
          apply create_file_cases in E as [[? ?]|(? & ? & ? & ? & ? & ? & ?)]
      | open_handle _ _ = _ =>
          apply open_handle_eq in E as (? & ? & ? & ? & ? & ? & ?)
      | context [match ?x with _ => _ end] =>
          lazymatch x with context [match _ with _ => _ end] => fail | _ => destruct x eqn:? end
      end ].

Lemma serve_side {X} (r : smbR X) w x w' : serve r w = (x, w') → side w' = side w.
Proof.
  intros E. destruct r as [| |r| | | | | | | |es|]; [|destruct args|destruct r|..|destruct es|]; simpl in E; serve_cases E; try done.
  all: unfold side in *; simpl in *; congruence.
Qed.

(** A request is refused, or answered by [serve]; the tick changes nothing a
    promise is about but the count of connections. *)
Lemma served_cases {X} (r : smbR X) w a w' :
  served w r a w' →
  ((a = None ∨ a = Some (refuse r)) ∧ w' = tick r w) ∨
  ∃ x, a = Some x ∧ serve r (tick r w) = (x, w').
Proof.
  unfold served, handle. simpl. unfold memory_handler.
  intros [[d E]|(x & -> & E)]; destruct (unanswered w).
  - injection E as <- <-. left. split; [by left|done].
  - destruct (serve r (tick r w)) as [x w1]. injection E as <- <-. right. eauto.
  - injection E as <- <-. left. split; [by right|done].
  - right. eauto.
Qed.

Lemma tick_kept {X} (r : smbR X) w : files_kept w (tick r w) ∧ handles_kept w (tick r w).
Proof. done. Qed.

(** A law about a request, from one about [serve]. *)
Lemma served_serve {X} (r : smbR X) (P : SmbMemory → option X → SmbMemory → Prop) :
  (∀ w, P w None (tick r w)) → (∀ w, P w (Some (refuse r)) (tick r w)) →
  (∀ w x w', serve r (tick r w) = (x, w') → P w (Some x) w') →
  ∀ w a w', served w r a w' → P w a w'.
Proof.
  intros H1 H2 H3 w a w' [[[->| ->] ->]|(x & -> & E)]%served_cases; [done..|]. by apply H3.
Qed.

Lemma serve_quiet {X} (r : smbR X) w x w' :
  serve r w = (x, w') → quiet r = true → files_kept w w' ∧ m_open w' = m_open w.
Proof.
  intros E Hq. destruct r as [|client path args|r| | | | | | | |es|]; try done;
    [|destruct args; try done|destruct r; try done|..|destruct es|];
    simpl in E; serve_cases E; try done.
  all: unfold files_kept; simpl; by repeat match goal with H : m_disk _ = _ |- _ => rewrite H; clear H end.
Qed.

Lemma serve_dirs {X} (r : smbR X) w x w' :
  serve r w = (x, w') → looks r = true → d_dirs (m_disk w') = d_dirs (m_disk w).
Proof.
  intros E Hq. destruct r as [|client path args|r| | | | | | | |es|]; try done;
    [destruct args; try done|destruct r|..|destruct es];
    simpl in E; serve_cases E; try done.
  all: simpl; by repeat match goal with H : m_disk _ = _ |- _ => rewrite H; clear H end.
Qed.

Lemma serve_collision {X} (r : smbR X) w x w' :
  serve r w = (x, w') → request_status r (Some x) = Some ObjectNameCollision → may_collide r = true.
Proof.
  intros E Hs. destruct r as [|client path args|r| | | | | | | |es|]; try done;
    [|destruct args; try done|destruct r|..]; simpl in E; serve_cases E; done.
Qed.

Lemma refuse_collision {X} (r : smbR X) :
  request_status r (Some (refuse r)) = Some ObjectNameCollision → may_collide r = true.
Proof. by destruct r. Qed.

(** *** The disk *)

Lemma disk_facts (w : SmbMemory) : disk_ok (m_disk w).
Proof. by eapply bool_decide_eq_true_1, m_disk_ok. Qed.

Lemma elem_of_below_name l p n : n ∈ below_name l p ↔ p ++ [n] ∈ l.
Proof.
  unfold below_name. rewrite list_elem_of_omap. split.
  - intros (q & Hq & E). destruct q as [|a q]; [done|].
    destruct (decide (removelast (a :: q) = p)) as [<-|]; [|done].
    assert (a :: q = removelast (a :: q) ++ [n]) as <-; [|done].
    apply last_Some in E as [l' ->]. by rewrite removelast_last.
  - intros Hn. exists (p ++ [n]). split; [done|].
    assert (∃ a q, p ++ [n] = a :: q) as (a & q & E) by (destruct p; simpl; eauto).
    rewrite E. rewrite <- E, removelast_last, decide_True by done. by rewrite last_snoc.
Qed.

Lemma below_name_nodup l p : NoDup l → NoDup (below_name l p).
Proof.
  intros N. apply NoDup_omap; [done|].
  intros q q' n. destruct q as [|a q], q' as [|a' q']; try done.
  destruct (decide (removelast (a :: q) = p)) as [E1|]; [|done].
  destruct (decide (removelast (a' :: q') = p)) as [E2|]; [|done].
  intros L1 L2. apply last_Some in L1 as [l1 L1]. apply last_Some in L2 as [l2 L2].
  rewrite L1 in E1 |- *. rewrite L2 in E2 |- *. rewrite removelast_last in E1, E2. by subst.
Qed.

Lemma elem_of_dir_entries d p e :
  e ∈ dir_entries d p ↔ e = mkDirEntry "." true ∨ e = mkDirEntry ".." true ∨
    if de_directory e then p ++ [de_file_name e] ∈ d_dirs d
    else is_Some (d_names d !! (p ++ [de_file_name e])).
Proof.
  unfold dir_entries. rewrite !elem_of_app, !list_elem_of_fmap, !elem_of_cons, elem_of_nil.
  setoid_rewrite elem_of_below_name. setoid_rewrite elem_of_elements. setoid_rewrite elem_of_dom.
  destruct e as [n []]; simpl; naive_solver.
Qed.

Lemma dir_entries_of (w : SmbMemory) p : entries_of w p (dir_entries (m_disk w) p).
Proof.
  destruct (disk_facts w) as (_ & _ & Hnames & _ & Hdirs & _).
  assert (Hdot : ∀ n, p ++ [n] ∈ d_dirs (m_disk w) → n ≠ "." ∧ n ≠ "..").
  { intros n Hn. apply Hdirs in Hn as Hn'. apply Forall_app in Hn' as [_ Hn'].
    apply Forall_inv in Hn' as (_ & ? & ? & _). done. }
  constructor.
  - unfold dir_entries. simpl. repeat rewrite NoDup_cons.
    rewrite !elem_of_cons, !elem_of_app, !list_elem_of_fmap. setoid_rewrite elem_of_below_name.
    setoid_rewrite elem_of_elements. split; [|split].
    + intros [?|[(n & [= <-] & Hn%Hdot)|(n & ? & _)]]; naive_solver.
    + intros [(n & [= <-] & Hn%Hdot)|(n & ? & _)]; naive_solver.
    + apply NoDup_app. split; [|split].
      * apply NoDup_fmap_2; [by intros ?? [=]|]. apply below_name_nodup, NoDup_elements.
      * by intros e (n & -> & _)%list_elem_of_fmap (n' & ? & _)%list_elem_of_fmap.
      * apply NoDup_fmap_2; [by intros ?? [=]|]. apply below_name_nodup, NoDup_elements.
  - intros e He H1 H2. apply elem_of_dir_entries in He as [->|[->|He]]; done.
  - intros n Hn. apply elem_of_dir_entries. by right; right.
  - intros n Hn. apply elem_of_dir_entries. by right; right.
Qed.

Lemma fresh_file_facts (d : Disk) :
  d_data d !! fresh_file d = None ∧ (fresh_file d ∉ d_doomed d) ∧ ∀ q, d_names d !! q ≠ Some (fresh_file d).
Proof.
  pose proof (is_fresh (dom (d_data d) ∪ d_doomed d ∪ map_img (d_names d) : gset positive)) as Hf.
  fold (fresh_file d) in Hf. rewrite !elem_of_union in Hf. split; [|split].
  - apply not_elem_of_dom. tauto.
  - tauto.
  - intros q Hq. apply Hf. right. by eapply elem_of_map_img_2.
Qed.

Lemma create_file_creates p w x w' :
  create_file p w = (x, w') → d_names (m_disk w) !! p = None →
  (x = Err denied ∧ w' = w) ∨ ∃ f, x = Ok (ResourceFile f) ∧ creates w p (file_id f) w' ∧ opens w f w'.
Proof.
  intros [?|(f & -> & Hf & Hno & Ho & _ & Hd)]%create_file_cases Hp; [by left|right].
  destruct (fresh_file_facts (m_disk w)) as (_ & F1 & F2). rewrite <- Hf in F1, F2.
  exists f. split; [done|]. split.
  - unfold creates. simpl. by rewrite Hd.
  - split; [done|]. intros g. simpl. rewrite Ho. set_solver.
Qed.

(** *** Files *)

Lemma memory_open c path access w a w' :
  served w (CreateFile c path (make_open_existing access)) a w' →
  files_kept w w' ∧
  (∀ s, status_of a = Some s → not_found_status s →
     names w !! unc_name path = None ∧ unc_name path ∉ dirs w) ∧
  match a with
  | Some (Ok (ResourceFile f)) => names w !! unc_name path = Some (file_id f) ∧ opens w f w'
  | Some (Ok (ResourceDirectory h)) => dir_name h = unc_name path ∧ unc_name path ∈ dirs w ∧
      handles_grow w w'
  | Some (Ok (ResourcePipe _)) => (unc_name path ∉ dirs w) ∧ handles_grow w w'
  | _ => handles_grow w w'
  end.
Proof.
  revert w a w'. apply served_serve.
  - intros w. split; [done|]. split; [done|]. by intros g.
  - intros w. split; [done|]. split; [|by intros g]. intros s [= <-] [Hs|Hs]; done.
  - intros w x w' E. simpl in E. destruct (d_names (m_disk w) !! path_name path) as [i|] eqn:En.
    + apply open_handle_eq in E as (Hd & _ & f & -> & Hf & Hno & Ho). simpl in *. subst i.
      split; [unfold files_kept; simpl; by rewrite Hd|]. split; [done|]. split; [done|].
      split; [done|]. intros g. simpl. rewrite Ho. set_solver.
    + destruct (decide _) as [Hp|Hp]; simplify_eq/=; (split; [done|]); split.
      * done.
      * split; [done|]. split; [done|by intros g].
      * done.
      * by intros g.
Qed.

Lemma memory_create_new c path w a w' :
  served w (CreateFile c path make_create_new) a w' →
  (status_of a = Some ObjectNameCollision →
   files_kept w w' ∧ (is_Some (names w !! unc_name path) ∨ unc_name path ∈ dirs w)) ∧
  match a with
  | Some (Ok (ResourceFile f)) => creates w (unc_name path) (file_id f) w' ∧ opens w f w'
  | _ => (files_kept w w' ∨ ∃ i, creates w (unc_name path) i w') ∧ handles_grow w w'
  end.
Proof.
  revert w a w'. apply served_serve.
  - intros w. split; [done|]. split; [by left|by intros g].
  - intros w. split; [done|]. split; [by left|by intros g].
  - intros w x w' E. simpl in E. destruct (decide _) as [Hp|Hp]; [simplify_eq/=; split; [done|split; [by left|by intros g]]|].
    apply create_file_creates in E as [[-> ->]|(f & -> & Hc & Ho)]; [..|by split|].
    + split; [done|]. split; [by left|by intros g].
    + apply eq_None_not_Some. simpl. tauto.
Qed.

Lemma memory_overwrite c path w a w' :
  served w (CreateFile c path make_overwrite) a w' →
  match a with
  | Some (Ok (ResourceFile f)) =>
      (creates w (unc_name path) (file_id f) w' ∨ truncates w (unc_name path) (file_id f) w') ∧
      opens w f w'
  | _ => (files_kept w w' ∨ ∃ i, creates w (unc_name path) i w' ∨
                                  truncates w (unc_name path) i w') ∧ handles_grow w w'
  end.
Proof.
  revert w a w'. apply served_serve; [by intros w; split; [left|intros g]..|].
  intros w x w' E. simpl in E. destruct (d_names (m_disk w) !! path_name path) as [i|] eqn:En.
  - apply change_cases in E as [[-> ->]|(w1 & Hd & Ho & _ & E)]; [by split; [left|intros g]|].
    apply open_handle_eq in E as (Hd' & _ & f & -> & Hf & Hno & Ho'). rewrite Ho in Hno, Ho'.
    simpl in *. subst i. split.
    + right. unfold truncates. simpl. by rewrite Hd', Hd.
    + split; [done|]. intros g. simpl. rewrite Ho'. set_solver.
  - apply create_file_creates in E as [[-> ->]|(f & -> & Hc & Ho)]; [..|done].
    + by split; [left|intros g].
    + split; [by left|done].
Qed.

Lemma memory_close f w a w' :
  served w (Close (ResourceFile f)) a w' →
  (files_kept w w' ∨ drops w (file_id f) w') ∧
  (∀ g, g ≠ f → (is_open w' g ↔ is_open w g)) ∧ (is_open w' f → is_open w f) ∧
  (∀ x, granted a x → ¬ is_open w' f ∧
     (file_id f ∈ doomed w → (∀ g, is_open w g → g ≠ f → file_id g ≠ file_id f) →
      drops w (file_id f) w')).
Proof.
  revert w a w'. apply served_serve; [by intros w; split; [by left|]..|].
  intros w x w' E. simpl in E.
  assert (Hset : ∀ o : gset (positive * positive), o = m_open w ∖ {[f]} →
    (∀ g, g ≠ f → (g ∈ o ↔ g ∈ m_open w)) ∧ (f ∈ o → f ∈ m_open w) ∧ f ∉ o).
  { intros o ->. set_solver. }
  destruct (decide _) as [[Hx Hnone]|Hno].
  - apply change_cases in E as [[-> ->]|(w1 & Hd & Ho & _ & [= <- <-])]; [by split; [by left|]|].
    simpl in *. destruct (Hset _ eq_refl) as (S1 & S2 & S3).
    assert (Hdrop : drops w f.2 (set_open (m_open w ∖ {[f]}) w1)).
    { destruct (disk_facts w) as (Hlinks & _). unfold drops. simpl. rewrite Hd. simpl.
      split; [done|]. split; [|split; [|split; [done|set_solver]]].
      - intros p Hp. apply map_eq. intros q. destruct (decide (q = p)) as [->|Hq].
        + rewrite lookup_delete_eq, map_lookup_filter, Hp. simpl. by rewrite option_guard_False by naive_solver.
        + rewrite lookup_delete_ne, map_lookup_filter by done.
          destruct (d_names (m_disk w) !! q) as [j|] eqn:Ej; simpl; [|done].
          rewrite option_guard_True; [done|]. intros ->. apply Hq. symmetry.
          eapply (Hlinks p f.2 Hp q f.2 Ej). done.
      - intros Hp. apply map_eq. intros q. rewrite map_lookup_filter.
        destruct (d_names (m_disk w) !! q) as [j|] eqn:Ej; simpl; [|done].
        rewrite option_guard_True; [done|]. intros ->. by apply (Hp q). }
    split; [by right|]. split; [done|]. split; [done|]. intros [] _. by split.
  - simplify_eq/=. destruct (Hset _ eq_refl) as (S1 & S2 & S3).
    split; [by left|]. split; [done|]. split; [done|]. intros [] _. split; [done|].
    intros Hx Hg. destruct Hno. split; [done|]. intros (g & Hg2 & Hin)%elem_of_map.
    apply (Hg g); set_solver.
Qed.

Lemma memory_write f b offset w a w' :
  served w (WriteBlock f b offset) a w' →
  names w' = names w ∧ doomed w' = doomed w ∧ handles_kept w w' ∧
  (∀ i, i ≠ file_id f → data w' !! i = data w !! i) ∧
  (is_Some (data w !! file_id f) → is_Some (data w' !! file_id f)) ∧
  (∀ n, granted a n → 0 ≤ n ≤ Z.of_nat (length b) ∧ offset + n ≤ i64_MAX ∧
     ∀ d, data w !! file_id f = Some d → offset = Z.of_nat (length d) →
       data w' !! file_id f = Some (d ++ take (Z.to_nat n) b)).
Proof.
  revert w a w'. apply served_serve; [by intros w; do 5 (split; [done|])..|].
  intros w x w' E. simpl in E.
  assert (Hsame : x = Err no_answer → w' = tick (WriteBlock f b offset) w →
    names w' = names w ∧ doomed w' = doomed w ∧ handles_kept w w' ∧
    (∀ i, i ≠ file_id f → data w' !! i = data w !! i) ∧
    (is_Some (data w !! file_id f) → is_Some (data w' !! file_id f)) ∧
    (∀ n, granted (Some x) n → 0 ≤ n ≤ Z.of_nat (length b) ∧ offset + n ≤ i64_MAX ∧
     ∀ d, data w !! file_id f = Some d → offset = Z.of_nat (length d) →
       data w' !! file_id f = Some (d ++ take (Z.to_nat n) b))).
  { intros -> ->. by do 5 (split; [done|]). }
  destruct (d_data (m_disk w) !! f.2) as [c|] eqn:Ec; [|by simplify_eq/=; apply Hsame].
  destruct (decide _) as [->|]; [|by simplify_eq/=; apply Hsame].
  apply change_cases in E as [[-> ->]|(w1 & Hd & Ho & _ & [= <- <-])]; [by apply Hsame|].
  pose proof (disk_facts w1) as (_ & _ & _ & _ & _ & Hlen). simpl in *. rewrite Hd in *. simpl in *.
  pose proof (Hlen f.2 (c ++ take WRITE_MAX b) (lookup_insert_eq _ _ _)) as Hb. cbn beta in Hb.
  rewrite length_app in Hb.
  split; [done|]. split; [done|]. split; [intros g; simpl; by rewrite Ho|].
  split; [intros i Hi; by rewrite lookup_insert_ne|]. split; [intros _; rewrite lookup_insert_eq; by eexists|].
  intros n [= <-]. split; [rewrite length_take; lia|]. split; [lia|].
  intros d Hd' _. rewrite Ec in Hd'. injection Hd' as ->. rewrite lookup_insert_eq, Nat2Z.id, length_take.
  do 2 f_equal. destruct (Nat.min_spec WRITE_MAX (length b)) as [[_ ->]|[? ->]]; [done|].
  by rewrite firstn_all, take_ge.
Qed.

(** The name of a file. *)
Lemma find_name (d : gmap share_name positive) i p j :
  List.find (λ x, bool_decide (x.2 = i)) (map_to_list d) = Some (p, j) → j = i ∧ d !! p = Some i.
Proof.
  intros [Hin Hi]%find_some. apply list_elem_of_In, elem_of_map_to_list in Hin.
  apply bool_decide_eq_true in Hi. simpl in Hi. by subst.
Qed.

Lemma memory_rename f to w a w' :
  served w (SetRename f true to) a w' →
  handles_kept w w' ∧
  ((∀ p, names w !! p ≠ Some (file_id f)) → files_kept w w') ∧
  ∀ p, names w !! p = Some (file_id f) →
    (files_kept w w' ∨ moves w p (split BACKSLASH to) (file_id f) w') ∧
    (∀ x, granted a x → moves w p (split BACKSLASH to) (file_id f) w').
Proof.
  revert w a w'. apply served_serve; [by intros w; split; [done|split; [done|by split; [left|]]]..|].
  intros w x w' E. simpl in E.
  destruct (List.find _ _) as [[p i]|] eqn:Ef.
  2: { simplify_eq/=. split; [done|]. split; [done|]. by split; [left|]. }
  apply find_name in Ef as [-> Hp]. apply change_cases in E as [[-> ->]|(w1 & Hd & Ho & _ & [= <- <-])].
  { split; [done|]. split; [done|]. by split; [left|]. }
  split; [intros g; simpl; by rewrite Ho|]. split; [intros Hn; by destruct (Hn p)|].
  intros q Hq. destruct (disk_facts w) as (Hlinks & _). simpl in *.
  assert (q = p) as -> by by eapply (Hlinks q f.2 Hq p f.2 Hp).
  assert (moves w p (split BACKSLASH to) f.2 w1); [|by split; [right|]].
  unfold moves. simpl. by rewrite Hd.
Qed.

Lemma memory_disposition f w a w' :
  served w (SetDisposition f) a w' →
  names w' = names w ∧ data w' = data w ∧ handles_kept w w' ∧
  (doomed w' = doomed w ∨ doomed w' = {[file_id f]} ∪ doomed w) ∧
  (∀ x, granted a x → file_id f ∈ doomed w').
Proof.
  revert w a w'. apply served_serve; [by intros w; do 3 (split; [done|]); split; [left|]..|].
  intros w x w' E. simpl in E. apply change_cases in E as [[-> ->]|(w1 & Hd & Ho & _ & [= <- <-])].
  { do 3 (split; [done|]). by split; [left|]. }
  simpl. rewrite Hd. simpl. do 2 (split; [done|]). split; [intros g; simpl; by rewrite Ho|].
  split; [by right|]. intros _ _. set_solver.
Qed.

(** *** The share *)

Lemma memory_side {X} (e : smbE X) w x w' :
  handle e w = (x, w') → is_cell e = false →
  m_permits w' = m_permits w ∧ m_locked w' = m_locked w ∧
  m_dials w' = if is_dial e then S (m_dials w) else m_dials w.
Proof.
  intros E Hc. unfold handle, memory_handler in E.
  assert (G : ∀ Y (r : smbR Y) (y : Y) w1, serve r (tick r w) = (y, w1) →
    side w1 = (m_permits w, m_locked w, dial r + m_dials w)%nat)
    by (intros Y r y w1 Es; exact (serve_side r _ y w1 Es)).
  assert (D : ∀ Y (r : smbR Y) d, is_dial (Within d r) = is_dial (Await r) ∧
    (dial r + m_dials w)%nat = if is_dial (Await r) then S (m_dials w) else m_dials w) by by intros Y [].
  destruct e as [Y d r|Y r| | | | | | | | |]; try done; try (by simplify_eq/=).
  - destruct (D _ r d) as [-> Dr]. destruct (unanswered w); [simplify_eq/=; by rewrite Dr|].
    destruct (serve r (tick r w)) as [y w1] eqn:Es. apply G in Es. injection E as <- <-.
    unfold side in Es. injection Es as -> -> ->. by rewrite Dr.
  - destruct (D _ r 0) as [_ Dr]. destruct (unanswered w); [simplify_eq/=; by rewrite Dr|].
    apply G in E. unfold side in E. injection E as -> -> ->. by rewrite Dr.
Qed.

Lemma memory_quiet {X} (r : smbR X) w a w' :
  served w r a w' → quiet r = true → files_kept w w' ∧ handles_kept w w'.
Proof.
  intros [[_ ->]|(x & -> & E)]%served_cases Hq; [done|].
  destruct (serve_quiet r _ x w' E Hq) as [F Ho]. split; [done|]. intros g. simpl. by rewrite Ho.
Qed.

Lemma memory_collision {X} (r : smbR X) w a w' :
  served w r a w' → request_status r a = Some ObjectNameCollision → may_collide r = true.
Proof.
  intros [[[->| ->] _]|(x & -> & E)]%served_cases.
  - by destruct r.
  - apply refuse_collision.
  - by eapply serve_collision.
Qed.

Lemma memory_looks {X} (r : smbR X) w a w' :
  served w r a w' → looks r = true → dirs w' = dirs w.
Proof.
  intros [[_ ->]|(x & -> & E)]%served_cases Hq; [done|]. exact (serve_dirs r _ x w' E Hq).
Qed.

Lemma memory_directory c path access w f w' :
  ¬ served w (CreateFile c path (open_if_directory access)) (Some (Ok (ResourceFile f))) w'.
Proof.
  intros [[[?|?] _]|(x & [= <-] & E)]%served_cases; [done..|]. simpl in E. serve_cases E.
Qed.

Lemma memory_size f w n w' :
  served w (QueryEndOfFile f) (Some (Ok n)) w' →
  ∀ d, data w !! file_id f = Some d → n = Z.of_nat (length d) ∧ n ≤ i64_MAX.
Proof.
  intros [[[?|?] _]|(x & [= <-] & E)]%served_cases d Hd; [done..|]. simpl in E, Hd. rewrite Hd in E.
  injection E as <- _. split; [done|]. destruct (disk_facts w) as (_ & _ & _ & _ & _ & Hlen).
  exact (Hlen _ _ Hd).
Qed.

Lemma memory_read f len offset w b w' :
  served w (ReadBlock f len offset) (Some (Ok b)) w' →
  Z.of_nat (length b) ≤ len ∧
  ∀ d, data w !! file_id f = Some d → b `prefix_of` drop (Z.to_nat offset) d.
Proof.
  intros [[[?|?] _]|(x & [= <-] & E)]%served_cases; [done..|]. simpl in E |- *.
  destruct (d_data (m_disk w) !! f.2) as [c|]; [|done].
  destruct (Z.leb_spec 0 len) as [Hl|]; [|done]. injection E as <- _. split.
  - rewrite length_take. lia.
  - intros d [= ->]. apply prefix_take.
Qed.

#[export] Instance memory_share : Share SmbMemory.
Proof.
  constructor.
  - unfold statuses. simpl. repeat constructor; rewrite ?elem_of_cons, ?elem_of_nil; lia.
  - intros w p q i Hp Hq. destruct (disk_facts w) as (Hl & _). by eapply (Hl p i Hp q i Hq).
  - intros w p i Hp. destruct (disk_facts w) as (_ & Hd & _). by eapply Hd.
  - intros w p i Hp. destruct (disk_facts w) as (_ & _ & Hn & _). by eapply Hn.
  - intros w p Hp. destruct (disk_facts w) as (_ & _ & _ & _ & Hd & _). by apply Hd.
  - intros w p n q i Hp. destruct (disk_facts w) as (_ & _ & _ & Ht & _).
    pose proof (Ht _ _ Hp) as Hf. rewrite Forall_forall in Hf.
    rewrite <- (take_app_length p (n :: q)). apply Hf, elem_of_seq. rewrite length_app. simpl. lia.
  - done.
  - intros base s Hs. by apply path_name_nonempty, key_safe_nonempty.
  - intros server share e [?|[base ?]]; done.
  - intros X e w x w' E Hr. destruct e; try done; unfold handle, memory_handler in E;
      simpl in E; serve_cases E; done.
  - intros X e w x w' E Hc. destruct (memory_side e w x w' E Hc) as (? & ? & _). done.
  - intros X e w x w' E. destruct (is_cell e) eqn:Hc; [|by apply (memory_side e w x w' E)].
    destruct e; try done; unfold handle, memory_handler in E; simpl in E; serve_cases E; done.
  - by intros w b w' [= <- <-].
  - by intros w b w' [= <- <-].
  - by intros n w b w' [= <- <-].
  - intros w r w' E. unfold handle, memory_handler in E. simpl in *.
    destruct (decide (0 < m_permits w)); by simplify_eq/=.
  - by intros w b w' [= <- <-].
  - intros X r w a w'. apply memory_quiet.
  - intros X r w a w'. apply memory_collision.
  - intros c path access w f w'. apply memory_directory.
  - intros cc share user password w a w' s [[[->| ->] _]|(x & -> & [= <- _])]%served_cases; done.
  - intros c path access w a w'. apply memory_open.
  - intros c path w a w'. apply memory_create_new.
  - intros c path w a w'. apply memory_overwrite.
  - intros f w a w'. apply memory_close.
  - intros f b offset w a w'. apply memory_write.
  - intros f to w a w'. apply memory_rename.
  - intros f w a w'. apply memory_disposition.
  - intros X r w a w'. apply memory_looks.
  - by intros w x w' [= <- <-].
  - intros h w es w' [[[?|?] _]|(x & [= <-] & [= <- <-])]%served_cases _; [done..|]. apply (dir_entries_of w).
  - intros es w x es' w' [[[?|[= -> ->]] _]|(y & [= <-] & E)]%served_cases; [done|done|].
    destruct es as [|e es]; simpl in E; by simplify_eq/=.
  - intros f w n w'. apply memory_size.
  - intros f len offset w b w'. apply memory_read.
Qed.
End Serve.
