(* ===== verification/Witnesses.v ===== *)
(** * Concrete runs of the theorems

    Each lemma applies a theorem of the development to a concrete input at
    which its hypotheses hold. *)
From S2P Require Import Prelude Text Errors Providers Externals Paths Keys Effects Streams BlobStore Objects Service Fs FsFacts FsFrame FsCalls Local LocalObjects LocalBlob LocalRead ServiceFacts History LocalService LocalHistory Tree LocalList LocalSweep Race LocalRace.
From Stdlib Require Import Ascii.
Import Concrete.

(** An empty storage root, two UUIDs to come, no failures. *)
Definition uuids (n : nat) : uuid := match n with 0%nat => uuid1 | _ => uuid2 end.

Definition w0 : World := mkWorld ∅ ∅ 0 [] uuids 0 100 (4096, 7).

Definition store : LocalStorageBackend := mkLocal ["srv"].

Definition hello : bytes := [Byte.x68; Byte.x69].

Lemma wf_w0 : wf w0.
Proof.
  constructor; simpl; [done|by intros p e ?|by intros p i ?|].
  intros i [nd Hi]. by rewrite lookup_empty in Hi.
Qed.

Lemma fresh_w0 : fresh 2 w0.
Proof.
  constructor; simpl.
  - intros n m Hn Hm. assert (n = 0%nat ∨ n = 1%nat) as [->| ->] by lia;
      assert (m = 0%nat ∨ m = 1%nat) as [->| ->] by lia; simpl; try done;
      intros E; by apply (f_equal Concrete.text) in E.
  - intros n p i _ Hf. unfold file_at in Hf. simpl in Hf. by rewrite lookup_empty in Hf.
Qed.

Lemma fresh1_w0 : fresh 1 w0.
Proof. eapply fresh_weaken; [apply fresh_w0|lia]. Qed.

Lemma no_faults_w0 : no_faults w0.
Proof. constructor. Qed.

(** The state after storing [a.txt], and a directory [d] with a file. *)
Definition after {A} (p : prog osE A) (w : World) : World :=
  match run 60 p w with Some (_, w') => w' | None => w end.

Definition put (key : string) : prog osE (storage_result BlobWriteOutcome) :=
  put_blob store key (from_bytes hello) default_put_options.

Definition w1 : World := after (put "docs/a.txt") w0.

Lemma wf_after {A} (p : prog osE A) w : wf w → wf (after p w).
Proof.
  intros Hw. unfold after. destruct (run 60 p w) as [[a w']|] eqn:E; [|done].
  eapply wf_runs; [by exists 60%nat|done].
Qed.

Lemma plain_a : plain_key "docs/a.txt".
Proof. refine (bool_decide_unpack _ _). by vm_compute. Qed.

Lemma plain_b : plain_key "docs/b.txt".
Proof. refine (bool_decide_unpack _ _). by vm_compute. Qed.

(** What a specification says of the state after a run. *)
Lemma twp_after {A} (p : prog osE A) w (Q : A → World → Prop) :
  match run 60 p w with Some _ => true | None => false end = true →
  twp p Q w → ∃ a, Q a (after p w).
Proof.
  unfold after. destruct (run 60 p w) as [[a w']|] eqn:E; [|done]. intros _ Hp.
  exists a. eapply twp_runs; [exact Hp|by exists 60%nat].
Qed.

Lemma wf_w1 : wf w1.
Proof. apply wf_after, wf_w0. Qed.

Lemma w1_content : content w1 (key_path store "docs/a.txt") = Some hello.
Proof. by vm_compute. Qed.

Lemma no_faults_w1 : no_faults w1.
Proof. vm_compute. constructor. Qed.

Lemma fresh_w1 : fresh 1 w1.
Proof.
  destruct (twp_after (put "docs/a.txt") w0 _ eq_refl
    (put_blob_spec store "docs/a.txt" (from_bytes hello) [hello] None default_put_options
       w0 wf_w0 fresh1_w0 (body_of_from_bytes hello) plain_a)) as [r [Hw _]].
  apply (wr_fresh _ _ _ Hw), fresh_w0.
Qed.

(** ** Streams and pages *)

Lemma collect_storage_stream_spec_witness :
  runs (collect_storage_stream (from_bytes (E := osE) hello)) w0 (Ok hello) w0.
Proof.
  apply (collect_storage_stream_spec (from_bytes hello) w0 [hello] None w0).
  - apply (drains_iter_ok [hello]).
  - split; vm_compute; discriminate.
Defined.

Lemma ranged_storage_stream_spec_witness :
  ∃ w'', runs (collect_storage_stream (ranged_storage_stream (from_bytes (E := osE) hello) 1 5)) w0
           (Ok [Byte.x69]) w''.
Proof.
  destruct (ranged_storage_stream_spec (from_bytes (E := osE) hello) w0 [hello] None w0 1 5)
    as [[w'' H] _].
  - apply (drains_iter_ok [hello]).
  - repeat constructor. vm_compute. discriminate.
  - split; vm_compute; discriminate.
  - split; vm_compute; discriminate.
  - split; vm_compute; discriminate.
  - exists w''. exact H.
Defined.

Lemma list_blobs_drains_witness :
  runs (default_list_blobs (E := osE) (λ _ _ _, Ret (Ok (mkBlobListPage ["a"] None))) "") w0
    (Ok ["a"]) w0.
Proof.
  apply (list_blobs_drains (E := osE) (λ _ _ _, Ret (Ok (mkBlobListPage ["a"] None))) "" w0
           ["a"] None w0).
  apply pages_last. by apply runs_ret.
Defined.

(** ** The local provider *)

Lemma put_blob_atomic_witness :
  ∃ r w', runs (put "docs/a.txt") w0 r w' ∧ wrote w0 w' (key_path store "docs/a.txt").
Proof.
  destruct (put_blob_atomic store "docs/a.txt" (from_bytes hello) [hello] None default_put_options
    w0 wf_w0 fresh1_w0 (body_of_from_bytes hello)) as [_ H].
  destruct (H plain_a) as (r & w' & Hr & Hw & _).
  exists r, w'. split; [exact Hr|exact Hw].
Defined.

Lemma put_blob_if_not_exists_spec_witness :
  ∃ r w', runs (put_blob_if_not_exists store "docs/a.txt" (from_bytes hello) default_put_options)
            w0 r w' ∧ wrote w0 w' (key_path store "docs/a.txt").
Proof.
  destruct (put_blob_if_not_exists_spec store "docs/a.txt" (from_bytes hello) [hello] None
    default_put_options w0 wf_w0 fresh1_w0 (body_of_from_bytes hello)) as [_ H].
  destruct (H plain_a) as (r & w' & Hr & Hw & _).
  exists r, w'. split; [exact Hr|exact Hw].
Defined.

Lemma get_blob_snapshot_witness :
  ∃ body w', runs (get_blob store "docs/a.txt") w1 (Ok body) w' ∧
    ∀ w2, later w' w2 → reads (bb_body body) w2 hello.
Proof.
  destruct (get_blob_snapshot store "docs/a.txt" w1 wf_w1) as [_ H].
  destruct (H (proj1 plain_a)) as (r & w' & Hr & _ & Hp). destruct r as [body|e].
  - exists body, w'. split; [exact Hr|]. destruct Hp as (_ & _ & Hp). by apply Hp.
  - exfalso. destruct Hp as [_ Hp]. pose proof w1_content as E.
    rewrite (Hp no_faults_w1) in E. discriminate E.
Defined.

Lemma get_blob_range_spec_witness :
  ∃ body w', runs (get_blob_range store "docs/a.txt" (mkRange 1 9)) w1 (Ok body) w' ∧
    ∀ w2, later w' w2 → reads (bb_body body) w2 [Byte.x69].
Proof.
  destruct (get_blob_range_spec store "docs/a.txt" (mkRange 1 9) w1 wf_w1 (proj1 plain_a))
    as (r & w' & Hr & _ & Hp); [split; vm_compute; discriminate..|].
  destruct r as [body|e].
  - exists body, w'. split; [exact Hr|]. destruct Hp as (_ & _ & _ & Hp & _).
    apply (Hp ltac:(vm_compute; discriminate) hello w1_content).
  - exfalso. destruct Hp as (_ & _ & Hp). pose proof w1_content as E.
    destruct (Hp no_faults_w1) as [Hn|[Hn|Hn]]; [rewrite Hn in E; discriminate E| |];
      vm_compute in Hn; discriminate Hn.
Defined.

Lemma exists_head_spec_witness :
  ∃ r w', runs (blob_exists store "docs/a.txt") w1 r w' ∧ reached w1 w'.
Proof.
  destruct (exists_head_spec store "docs/a.txt" w1 wf_w1 (proj1 plain_a))
    as ((r & w' & Hr & R & _) & _).
  by exists r, w'.
Defined.

Lemma delete_blob_spec_witness :
  ∃ r w', runs (delete_blob store "docs/a.txt") w1 r w' ∧
    content w' (key_path store "docs/a.txt") = None.
Proof.
  destruct (delete_blob_spec store "docs/a.txt" w1 wf_w1) as [_ H].
  destruct (H (proj1 plain_a)) as (r & w' & Hr & _ & _ & _ & _ & Hc & _).
  exists r, w'. split; [exact Hr|]. apply Hc, no_faults_w1.
Defined.


(** Two conditional creates of one key and a deletion of another, taking
    turns: the first creator wins. *)
Definition race : list (prog osE (storage_result (option BlobWriteOutcome))) :=
  [put_blob_if_not_exists store "docs/a.txt" (from_bytes hello) default_put_options;
   put_blob_if_not_exists store "docs/a.txt" (from_bytes hello) default_put_options;
   let* _ := delete_blob store "docs/b.txt" in Ret (Ok None)].

Definition race_turns : list nat := concat (replicate 30 [0; 1; 2]%nat).

Lemma concurrent_creates_one_winner_witness :
  let ps := (schedule race_turns (race, w0)).1 in
  match ps !! 0%nat with Some (Ret (Ok (Some _))) => true | _ => false end = true ∧
  match ps !! 1%nat with Some (Ret (Ok None)) => true | _ => false end = true ∧
  ∀ j o', (j < 2)%nat → ps !! j = Some (Ret (Ok (Some o'))) → 0%nat = j.
Proof.
  split; [by vm_compute|]. split; [by vm_compute|].
  pose proof (schedule_steps race_turns (race, w0)) as Hr.
  assert (E0 : match (schedule race_turns (race, w0)).1 !! 0%nat with
    Some (Ret (Ok (Some _))) => true | _ => false end = true) by by vm_compute.
  destruct (schedule race_turns (race, w0)) as [ps w'].
  destruct (concurrent_creates_one_winner store "docs/a.txt" race ps w0 w' plain_a) as [H _].
  - intros i p Hi. destruct i as [|[|[|i]]]; [| | |done].
    + left. exists (from_bytes hello), default_put_options. split; [apply quiet_from_bytes|done].
    + left. exists (from_bytes hello), default_put_options. split; [apply quiet_from_bytes|done].
    + right. assert (p = let* _ := delete_blob store "docs/b.txt" in Ret (Ok None)) as ->
        by by injection Hi as <-.
      exact (respects_then _ (delete_blob store "docs/b.txt") (Ok None)
               (respects_delete_blob store "docs/a.txt" "docs/b.txt" (proj1 plain_b) ltac:(done))).
  - exact Hr.
  - intros j o' Hj Ho. simpl in E0, Ho.
    destruct (ps !! 0%nat) as [[[[o|]|]| | |]|] eqn:Ep; try done.
    apply (H 0%nat j o o'); [| |exact Ep|exact Ho].
    + exists (from_bytes hello), default_put_options. split; [apply quiet_from_bytes|done].
    + exists (from_bytes hello), default_put_options. split; [apply quiet_from_bytes|].
      destruct j as [|[|j]]; [done|done|lia].
Defined.

(** ** The service on the local provider *)

Definition upload : StoragePutStreamRequest osE :=
  mkStoragePutStreamRequest Originals (Some "photo.JPG") (Some "image/jpeg") (from_bytes hello).

Lemma upload_name : good_name (ok_key := plain_key) Originals (Some "photo.JPG").
Proof. apply generated_plain. by intros e [= <-]. Qed.

Lemma service_put_stream_witness :
  ∃ r w', runs (StorageService.put_object_stream (OS := local_object_storage store) upload) w0 r w' ∧
    sound 0 w'.
Proof.
  destruct (service_put_stream (OS := local_object_storage store)
    (BS := local_blob_store_spec store) 0 upload [hello] None w0
    (conj wf_w0 fresh_w0) upload_name (body_of_from_bytes hello)) as (r & w' & Hr & Hs & _).
  by exists r, w'.
Defined.

(** ** Listing and sweeping *)

Lemma list_blobs_page_spec_witness :
  ∃ r w', runs (list_blobs_page store "" None 10) w1 r w' ∧ reached w1 w'.
Proof.
  destruct (list_blobs_page_spec store "" None 10 w1 wf_w1 ltac:(discriminate)
    ltac:(vm_compute; discriminate)) as (_ & _ & H).
  destruct (H ltac:(reflexivity) (or_introl eq_refl)) as (r & w' & Hr & R & _).
  by exists r, w'.
Defined.

Lemma list_blobs_complete_witness :
  ∃ w', runs (BlobStore.list_blobs (BlobStore := local_blob_store store) "") w1
          (Ok (all_keys store w1 "")) w' ∧ "docs/a.txt" ∈ all_keys store w1 "".
Proof.
  destruct (list_blobs_complete store "" w1 wf_w1 no_faults_w1 eq_refl) as (w' & Hr & _ & _ & H & _).
  - intros [He _]. vm_compute in He. discriminate He.
  - by vm_compute.
  - exists w'. split; [exact Hr|]. apply H.
    + exact plain_a.
    + by vm_compute.
    + by exists ["docs"; "a.txt"].
    + rewrite w1_content. by exists hello.
Defined.

Lemma sweep_temp_files_spec_witness :
  ∃ r w', runs (sweep_temp_files store 0) w1 r w' ∧ ∃ S, swept S w1 w'.
Proof.
  destruct (sweep_temp_files_spec store 0 w1 wf_w1) as (r & w' & Hr & S & HS & _).
  exists r, w'. split; [exact Hr|]. by exists S.
Defined.

(** ** Where the order of paths is not the order of keys *)

(** Paging a listing can lose keys: with the blobs [a/b] and [a.txt], the
    page of one key is [a/b] with a continuation, and the page after it is
    empty and the last one, although [a.txt] exists; so draining pages misses
    it. *)
Theorem list_pages_lose_keys :
  let w := after (put "a.txt") (after (put "a/b") w0) in
  content w (key_path store "a.txt") = Some hello ∧
  (fst <$> run 60 (list_blobs_page store "" None 1) w)
    = Some (Ok (mkBlobListPage ["a/b"] (Some "a/b"))) ∧
  (fst <$> run 60 (list_blobs_page store "" (Some "a/b") 1) w) = Some (Ok (mkBlobListPage [] None)) ∧
  (fst <$> run 60 (list_blobs_page store "" None 9) w)
    = Some (Ok (mkBlobListPage ["a/b"; "a.txt"] None)).
Proof. by vm_compute. Qed.

(** A blob whose key ends in [.uploading] is taken for a temporary file: a
    file named [movie.uploading] stored through the service gets such a key, is
    readable, is not listed, and is deleted by the next sweep. *)
Theorem uploading_name_is_swept :
  let request := mkStoragePutStreamRequest Originals (Some "movie.uploading") None
                   (from_bytes (E := osE) hello) in
  let p := StorageService.put_object_stream (OS := local_object_storage store) request in
  let key := "originals/6c/57/6c57a6cc-09e6-4a7f-a320-2f2bde4cfd86.uploading" in
  let w := after p w0 in
  (so_storage_key <$> ((fst <$> run 60 p w0) ≫= result_ok)) = Some key ∧
  content w (key_path store key) = Some hello ∧
  (fst <$> run 60 (BlobStore.list_blobs (BlobStore := local_blob_store store) "") w) = Some (Ok []) ∧
  (fst <$> run 60 (sweep_temp_files store 0) w) = Some (Ok 1) ∧
  content (after (sweep_temp_files store 0) w) (key_path store key) = None.
Proof. by vm_compute. Qed.

(** ** Histories *)

Definition put_and_read : list request := [Put "docs/a.txt" [hello; hello] None; Get "docs/a.txt"].

Lemma local_history_refines_witness :
  ∃ answers w' m', runs (perform_all (BS := local_blob_store store) put_and_read) w0 answers w' ∧
    steps False True ∅ put_and_read answers m' ∧
    content w' (key_path store "docs/a.txt") = m' !! "docs/a.txt".
Proof.
  destruct (local_history_refines store 0 ∅ put_and_read w0 wf_w0 fresh_w0)
    as (answers & w' & Hr & _ & _ & m' & Hs & Hm & _).
  - do 2 (apply Forall_cons_2; [apply plain_a|]). by apply Forall_nil.
  - intros key _. unfold content, file_at. simpl. by rewrite !lookup_empty.
  - exists answers, w', m'. split; [exact Hr|]. split; [exact Hs|]. apply Hm, plain_a.
Defined.

(** A longer history: its answers are those of the reference. *)
Definition history : list request :=
  [Create "docs/a.txt" [hello] None; Create "docs/a.txt" [[]] None; GetRange "docs/a.txt" 1 9;
   Copy "docs/a.txt" "docs/b.txt"; Delete "docs/a.txt"; Get "docs/a.txt"; Get "docs/b.txt";
   Put "docs/b.txt" [hello] (Some (MissingBlob "source")); Exists "docs/b.txt"; Exists "docs/a.txt"].

Example history_answers :
  (fst <$> run 60 (perform_all (BS := local_blob_store store) history) w0)
    = Some (effects ∅ history).1.
Proof. by vm_compute. Qed.
