(* ===== verification/ObjectWitnesses.v ===== *)
(** * Concrete runs of the object theorems

    A JSON instance for examples, the theorems on bucket objects at concrete
    inputs, and runs that show where the object API falls short. *)
From S2P Require Import Prelude Text Errors Providers Externals Paths Keys Effects Streams BlobStore Objects Service Fs FsFacts FsFrame FsCalls Local LocalObjects LocalBlob LocalRead Tree LocalList LocalUpload LocalObjectRead LocalObjectList Witnesses.
From Stdlib Require Import Ascii.
Import Concrete.

(** ** A serialization that is read back *)

Fixpoint bits (p : positive) : bytes :=
  match p with
  | xH => []
  | xO p => Byte.x00 :: bits p
  | xI p => Byte.x01 :: bits p
  end.

Fixpoint of_bits (b : bytes) : positive :=
  match b with
  | [] => xH
  | Byte.x00 :: b => xO (of_bits b)
  | _ :: b => xI (of_bits b)
  end.

Lemma of_bits_bits p : of_bits (bits p) = p.
Proof. induction p as [p IH|p IH|]; simpl; by rewrite ?IH. Qed.

Definition fields_to_bytes (ps : list positive) : bytes :=
  concat (map (λ p, bits p ++ [Byte.x02]) ps).

Fixpoint fields_of_bytes (b acc : bytes) : list positive :=
  match b with
  | [] => []
  | Byte.x02 :: b => of_bits (rev acc) :: fields_of_bytes b []
  | c :: b => fields_of_bytes b (c :: acc)
  end.

Lemma fields_of_field p b acc :
  fields_of_bytes (bits p ++ Byte.x02 :: b) acc =
  of_bits (rev acc ++ bits p) :: fields_of_bytes b [].
Proof.
  revert acc. induction p as [p IH|p IH|]; intros acc; simpl.
  - rewrite IH. simpl. by rewrite <- app_assoc.
  - rewrite IH. simpl. by rewrite <- app_assoc.
  - by rewrite app_nil_r.
Qed.

Lemma fields_of_to_bytes ps : fields_of_bytes (fields_to_bytes ps) [] = ps.
Proof.
  induction ps as [|p ps IH]; [done|]. unfold fields_to_bytes in *. simpl.
  rewrite <- app_assoc. cbn [app]. by rewrite fields_of_field, IH; simpl; rewrite of_bits_bits.
Qed.

Definition info_to_bytes (o : ObjectInfo) : bytes :=
  fields_to_bytes
    [encode (oi_bucket o); encode (oi_key o); encode (oi_content_type o);
     encode (map_to_list (oi_metadata o)); encode (oi_size_bytes o); encode (oi_sha256_hex o);
     encode (oi_etag o); encode (oi_last_modified o : Z)].

Definition info_of_fields (ps : list positive) : option ObjectInfo :=
  match ps with
  | [bucket; key; ct; md; size; sha; etag; t] =>
      bucket ← decode bucket; key ← decode key; ct ← decode ct; md ← decode md;
      size ← decode size; sha ← decode sha; etag ← decode etag; t ← decode t;
      Some (mkObjectInfo bucket key ct (list_to_map md) size sha etag (t : Z))
  | _ => None
  end.

#[export] Instance json : SerdeJson (EX := Concrete.externals) := {|
  json_to_vec o := Ok (info_to_bytes o);
  json_from_slice b :=
    match info_of_fields (fields_of_bytes b []) with
    | Some o => Ok o
    | None => Err "not a record"
    end;
|}.

Lemma json_of_info o : json_from_slice (info_to_bytes o) = Ok o.
Proof.
  unfold json_from_slice, json, info_to_bytes. rewrite fields_of_to_bytes.
  assert (info_of_fields
    [encode (oi_bucket o); encode (oi_key o); encode (oi_content_type o);
     encode (map_to_list (oi_metadata o)); encode (oi_size_bytes o); encode (oi_sha256_hex o);
     encode (oi_etag o); encode (oi_last_modified o : Z)] = Some o) as ->; [|done].
  unfold info_of_fields. rewrite !decode_encode. cbn [mbind option_bind].
  rewrite list_to_map_to_list. by destruct o.
Qed.

#[export] Instance json_laws : SerdeJsonLaws.
Proof. constructor. intros o. exists (info_to_bytes o). split; [done|apply json_of_info]. Qed.

(** ** Uploads *)

Definition upload_object (key : string) (b : bytes) : prog osE (storage_result ObjectInfo) :=
  put_object_stream store "media" key (Some "text/plain") ∅ (from_bytes b).

Lemma media_ok : safe_segment "media".
Proof. by split_and!. Qed.

Lemma plain_media key : plain_key key → plain_object "media" key.
Proof. split; [apply media_ok|done]. Qed.

Lemma put_object_stream_spec_witness :
  ∃ r w', runs (upload_object "docs/a.txt" hello) w0 r w' ∧
    uploaded store "media" "docs/a.txt" w0 w'.
Proof.
  destruct (put_object_stream_spec store "media" "docs/a.txt" (Some "text/plain") ∅
    (from_bytes hello) [hello] None w0 wf_w0 fresh_w0 (body_of_from_bytes hello)) as [_ H].
  destruct (H (plain_media _ plain_a)) as (r & w' & Hr & Hu & _). by exists r, w'.
Defined.

Definition w2 : World := after (upload_object "docs/a.txt" hello) w0.

Lemma wf_w2 : wf w2.
Proof. apply wf_after, wf_w0. Qed.

Definition info2 : ObjectInfo :=
  default (mkObjectInfo "" "" None ∅ 0 "" None 0)
    ((fst <$> run 60 (upload_object "docs/a.txt" hello) w0) ≫= result_ok).

Lemma stored_w2 : object_stored store w2 "media" "docs/a.txt" info2 hello.
Proof.
  split; [by vm_compute|].
  exists (info_to_bytes info2). split; [by vm_compute|apply json_of_info].
Qed.

(** An empty session, to which [multipart_upload_spec] applies. *)
Lemma multipart_upload_spec_witness :
  ∃ m w', runs (create_multipart_object store "media" "docs/a.txt" None ∅) w0 (Ok m) w' ∧
    ∃ writer, m = local_writer writer ∧
      session store "media" "docs/a.txt" None ∅ w' writer [] ∧
      ∃ r' w'', runs (complete writer) w' r' w'' ∧ wf w''.
Proof.
  destruct (multipart_upload_spec store "media" "docs/a.txt" None ∅ w0 wf_w0 fresh_w0
    (plain_media _ plain_a)) as [(r & w' & Hr & _ & Hc) H].
  destruct r as [m|e].
  - exists m, w'. split; [exact Hr|]. destruct Hc as (writer & Hm & HS). exists writer.
    split_and!; [exact Hm|exact HS|].
    destruct (H w' writer [] HS) as (_ & _ & (r' & w'' & Hr' & Hw & _) & _).
    by exists r', w''.
  - exfalso. destruct Hr as [n Hn]. apply (run_le _ _ (n + 60)) in Hn; [|lia].
    set (p := create_multipart_object store "media" "docs/a.txt" None ∅) in *.
    assert (E : match run 60 p w0 with Some (Ok _, _) => true | _ => false end = true)
      by by vm_compute.
    destruct (run 60 p w0) as [[[m|] w3]|] eqn:E'; [|done..].
    apply (run_le _ _ (n + 60)) in E'; [|lia]. congruence.
Defined.

Lemma get_object_range_spec_witness :
  ∃ r w', runs (get_object_range store "media" "docs/a.txt" (mkRange 1 9)) w2 r w' ∧
    ∀ body, r = Ok body → orb_content_length body = 1.
Proof.
  destruct (get_object_range_spec store "media" "docs/a.txt" (mkRange 1 9) info2 hello w2 wf_w2
    media_ok (proj1 plain_a)) as (r & w' & Hr & _ & Hp);
    [split; vm_compute; discriminate..|exact stored_w2|].
  exists r, w'. split; [exact Hr|]. intros body ->. apply Hp.
Defined.

Lemma delete_object_spec_witness :
  ∃ r w', runs (delete_object store "media" "docs/a.txt") w2 r w' ∧ wf w'.
Proof.
  destruct (delete_object_spec store "media" "docs/a.txt" w2 wf_w2) as [_ H].
  destruct (H media_ok (proj1 plain_a)) as (r & w' & Hr & Hw & _). by exists r, w'.
Defined.

Lemma list_objects_spec_witness :
  (∃ r w', runs (list_objects store "media" "") w2 r w' ∧ reached w2 w') ∧
  info2 ∈ all_objects store "media" "" w2.
Proof.
  destruct (list_objects_spec store "media" "" w2 wf_w2 eq_refl eq_refl)
    as ((r & w' & Hr & R & _) & _ & H).
  split; [by exists r, w'|]. apply (H "docs/a.txt" info2 hello).
  - apply plain_media, plain_a.
  - by vm_compute.
  - by exists ["docs"; "a.txt"].
  - exact stored_w2.
Defined.

(** ** Where the object API falls short *)

(** Listing a prefix misses objects whose keys start with it: the walk
    starts at the directory that the prefix names, so [report] does not list
    [report.txt], which the empty prefix does. *)
Theorem list_objects_prefix_gap :
  let w := after (upload_object "report.txt" hello) w0 in
  starts_with "report" "report.txt" = true ∧
  (map oi_key <$> (fst <$> run 60 (list_objects store "media" "") w) ≫= result_ok)
    = Some ["report.txt"] ∧
  (map oi_key <$> (fst <$> run 60 (list_objects store "media" "report") w) ≫= result_ok) = Some [].
Proof. by vm_compute. Qed.

(** A call that fails with an I/O error after [n] calls that succeed. *)
Definition failing_at (n : nat) (w : World) : World :=
  mkWorld (w_names w) (w_inodes w) (w_next w)
    (replicate n no_fault ++ [mkChoice (Some (mkIoError Other "EIO")) 0 1])
    (w_uuids w) (w_uuid_next w) (w_clock w) (w_dir_stat w).

Definition bye : bytes := [Byte.x62; Byte.x79; Byte.x65].

(** A failing second rename leaves the new content under the old record:
    overwriting an object of two bytes with one of three reports an error, and
    then the content is the new one while reads deliver only the two bytes the
    old record admits. *)
Theorem failed_upload_mixes_versions :
  let w := failing_at 7 w2 in
  let w' := after (upload_object "docs/a.txt" bye) w in
  (is_ok <$> (fst <$> run 60 (upload_object "docs/a.txt" bye) w)) = Some false ∧
  content w' (object_path store "media" "docs/a.txt") = Some bye ∧
  (oi_size_bytes <$> info_at store w' "media" "docs/a.txt") = Some 2 ∧
  (orb_content_length <$>
    ((fst <$> run 60 (get_object_range store "media" "docs/a.txt" (mkRange 0 3)) w') ≫= result_ok))
    = Some 2.
Proof. by vm_compute. Qed.

(** An upload whose metadata cannot be written leaves its temporary file
    behind: [complete] has consumed the writer, so nobody can abort it. *)
Theorem failed_metadata_leaves_temp_file :
  let w := failing_at 5 w0 in
  let w' := after (upload_object "docs/a.txt" hello) w in
  (is_ok <$> (fst <$> run 60 (upload_object "docs/a.txt" hello) w)) = Some false ∧
  content w' (object_path store "media" "docs/a.txt") = None ∧
  content w' (temp_at 0 w0 (object_path store "media" "docs/a.txt")) = Some hello.
Proof. by vm_compute. Qed.
