(* ===== verification/S3Witnesses.v ===== *)
(** * Concrete instances of the theorems about S3

    The service of S3Memory.v, a backend with a key prefix, and small bodies. *)
From S2P Require Import Prelude Text Errors Providers Externals Paths Keys Effects Streams BlobStore Objects Service S3 S3Errors S3Server S3Put S3Content S3Read S3List ServiceFacts History S3Service S3History S3Memory Race S3Race Tokens S3Integrity.
From Stdlib Require Import Ascii.
Import Concrete.

#[local] Instance handler : Handler s3E Memory := memory_handler uuid1 0.

Definition debug_path (p : PathBuf) : string := join "/" p.

#[local] Instance service : S3Service Memory := memory_service uuid1 0.

Definition config (prefix : option string) : S3StorageConfig :=
  mkS3Config "http://localhost:9000" "us-east-1" "media" prefix "id" "secret" true.

Definition app : S3StorageBackend := mkS3 (config (Some "/app/")).

Definition hello : bytes := [Byte.x68; Byte.x65; Byte.x6c; Byte.x6c; Byte.x6f].

(** A bucket with two blobs of the backend and one of a neighbour. *)
Definition bucket : Memory :=
  mkMemory {[ ("media", "app/docs/a.txt") := hello; ("media", "app/docs/b.txt") := [];
              ("media", "app2/c.txt") := hello ]} ∅ 0 [].

Lemma app_prefix : prefix_ok app.
Proof. right. apply validate_ok_safe. by vm_compute. Qed.

Lemma put_blob_inner_whole_witness :
  body_of (from_bytes hello : StorageByteStream s3E) [hello] None ∧
  same_runs (put_blob_inner debug_path app "docs/a.txt" (from_bytes hello) default_put_options false)
    (put_whole debug_path app "docs/a.txt" hello default_put_options false).
Proof.
  split; [apply body_of_from_bytes|].
  exact (proj1 (put_blob_inner_whole debug_path app "docs/a.txt" (from_bytes hello) [hello] None
    default_put_options false (body_of_from_bytes hello))).
Defined.

Lemma s3_put_spec_witness :
  ∃ r w', runs (put_blob_if_not_exists debug_path app "docs/a.txt" (from_bytes hello)
                  default_put_options) bucket r w' ∧
    put_effect app "docs/a.txt" hello None true bucket r w'.
Proof.
  exact (proj2 (s3_put_spec debug_path app "docs/a.txt" (from_bytes hello) [hello] None
    default_put_options bucket (body_of_from_bytes hello))).
Defined.

Lemma s3_get_spec_witness :
  ∃ r w', runs (get_blob_range app "docs/a.txt" (mkRange 1 3)) bucket r w' ∧
    ∀ body, r = Ok body → serves (bb_body body) [Byte.x65; Byte.x6c].
Proof.
  destruct (s3_get_spec app "docs/a.txt" (mkRange 1 3) bucket) as (_ & _ & Hr);
    [by split|by split|].
  destruct (Hr ltac:(done)) as (r & w' & Hruns & _ & _ & Hbody). exists r, w'. split; [done|].
  intros body ->. destruct Hbody as (c & -> & Hs & _). exact Hs.
Defined.


Lemma s3_list_blobs_spec_witness :
  ∃ r w', runs (default_list_blobs (list_blobs_page app) "docs") bucket r w' ∧
    ∀ ks, r = Ok ks → "docs/a.txt" ∈ ks ∧ sorted_keys ks.
Proof.
  destruct (s3_list_blobs_spec app "docs" bucket) as (r & w' & Hr & _ & H).
  exists r, w'. split; [done|]. intros ks Hks. destruct (H ks Hks) as [H1 H2]. split.
  - apply H1; [apply validate_ok_safe|exists hello|]; by vm_compute.
  - by apply H2; left.
Defined.

(** A body of 8 MiB that fails. *)
Definition big : bytes := replicate (Z.to_nat MULTIPART_PART_SIZE) Byte.x00.

Definition failing_body : StorageByteStream s3E :=
  stream_new (stream_iter [Ok big; Err (MissingBlob "source")]).

Lemma failing_body_of : body_of failing_body [big] (Some (MissingBlob "source")).
Proof.
  split; [|intros st w; by apply runs_ret].
  eapply supplies_chunk; [intros w; by apply runs_ret|].
  eapply supplies_err. intros w. by apply runs_ret.
Qed.

Lemma big_length : MULTIPART_PART_SIZE ≤ Z.of_nat (length (concat [big])).
Proof.
  cbn [concat]. rewrite app_nil_r. unfold big. rewrite length_replicate, Z2Nat.id; [done|].
  pose proof PART_Z. lia.
Qed.

Lemma s3_failed_body_leaves_upload_witness :
  ∃ r w', runs (put_blob_inner debug_path app "docs/a.txt" failing_body default_put_options false)
      bucket r w' ∧
    (r = Err (MissingBlob "source") → ∃ id, uploads bucket !! id = None ∧ is_Some (uploads w' !! id)).
Proof.
  exact (s3_failed_body_leaves_upload debug_path app "docs/a.txt" failing_body [big]
    (MissingBlob "source") default_put_options false bucket failing_body_of big_length
    (validate_ok_safe "docs/a.txt" eq_refl) app_prefix ltac:(discriminate)).
Defined.

(** Listing everything lists the blob of a neighbour whose key prefix starts
    with the configured one, under a key that names no blob. *)
Example neighbours_are_listed :
  (fst <$> run 20 (default_list_blobs (list_blobs_page app) "") bucket)
    = Some (Ok ["docs/a.txt"; "docs/b.txt"; "app2/c.txt"]) ∧
  (fst <$> run 20 (blob_exists app "app2/c.txt") bucket) = Some (Ok false).
Proof. by vm_compute. Qed.

(** An empty range of a missing blob is an empty body, a range of one byte is
    an error. *)
Example empty_range_of_missing_blob :
  (is_ok ∘ fst <$> run 20 (get_blob_range app "none" (mkRange 0 0)) bucket) = Some true ∧
  (is_ok ∘ fst <$> run 20 (get_blob_range app "none" (mkRange 0 1)) bucket) = Some false.
Proof. by vm_compute. Qed.

(** A key that holds an error word: an answer that repeats the name of the
    object, such as a 503 of a busy service, is taken for a missing object,
    though the object is there. *)
Definition odd : string := "docs/NotFound.txt".

Definition odd_bucket (down : list nat) : Memory :=
  mkMemory {[ ("media", "app/docs/NotFound.txt") := hello ]} ∅ 0 down.

Definition missing {A} (r : storage_result A) : option string :=
  match r with Err (MissingBlob key) => Some key | _ => None end.

Example busy_service_looks_empty :
  (is_ok ∘ fst <$> run 20 (get_blob app odd) (odd_bucket [])) = Some true ∧
  (missing ∘ fst <$> run 20 (get_blob app odd) (odd_bucket [0%nat])) = Some (Some odd) ∧
  (fst <$> run 20 (blob_exists app odd) (odd_bucket [0%nat])) = Some (Ok false) ∧
  plain_name (object_name app odd) = false.
Proof. by vm_compute. Qed.

(** A missing blob under a plain key, and a busy service. *)
Example plain_errors_are_told_apart :
  (missing ∘ fst <$> run 20 (get_blob app "docs/none") (odd_bucket [])) = Some (Some "docs/none") ∧
  (missing ∘ fst <$> run 20 (get_blob app "docs/none") (odd_bucket [0%nat])) = Some None ∧
  plain_name (object_name app "docs/none") = true.
Proof. by vm_compute. Qed.

(** ** Histories *)

Definition history : list request :=
  [Create "docs/a.txt" [hello] None; Create "docs/a.txt" [[]] None; GetRange "docs/a.txt" 1 9;
   Copy "docs/a.txt" "docs/b.txt"; Delete "docs/a.txt"; Get "docs/a.txt"; Get "docs/b.txt";
   Put "docs/b.txt" [hello] (Some (MissingBlob "source")); Exists "docs/b.txt"; Exists "docs/a.txt"].

Definition empty_bucket : Memory := mkMemory ∅ ∅ 0 [].

Lemma copy_key_a : copy_key app "docs/a.txt".
Proof.
  split; [|by split]. split; [by apply validate_ok_safe|]. split; [apply app_prefix|].
  split; by vm_compute.
Qed.

Lemma copy_key_b : copy_key app "docs/b.txt".
Proof.
  split; [|by split]. split; [by apply validate_ok_safe|]. split; [apply app_prefix|].
  split; by vm_compute.
Qed.

Lemma s3_history_refines_witness :
  ∃ answers w' m', runs (perform_all (BS := s3_blob_store debug_path app) history) empty_bucket answers w' ∧
    steps True False ∅ history answers m' ∧ objects w' !! object_at app "docs/b.txt" = m' !! "docs/b.txt".
Proof.
  destruct (s3_history_refines debug_path app ltac:(by split_and!) ∅ history empty_bucket)
    as (answers & w' & Hr & m' & Hs & Hm & _).
  - repeat (apply Forall_cons_2;
      [first [apply copy_key_a | apply copy_key_b | split; [apply copy_key_a|done || apply copy_key_b]]|]).
    by apply Forall_nil.
  - intros key _. simpl. by rewrite !lookup_empty.
  - exists answers, w', m'. split; [exact Hr|]. split; [exact Hs|]. apply Hm, copy_key_b.
Defined.

Example s3_history_answers :
  (fst <$> run 60 (perform_all (BS := s3_blob_store debug_path app) history) empty_bucket)
    = Some (effects ∅ history).1.
Proof. by vm_compute. Qed.

(** ** Two conditional creates of one key, interleaved, while another
    blob is deleted *)

Definition creates : list (prog s3E (storage_result (option BlobWriteOutcome))) :=
  [ put_blob_if_not_exists debug_path app "docs/a.txt" (from_bytes hello) default_put_options;
    put_blob_if_not_exists debug_path app "docs/a.txt" (from_bytes []) default_put_options;
    let* _ := delete_blob app "docs/b.txt" in Ret (Ok None) ].

Definition turns : list nat := concat (replicate 12 [2; 0; 1]%nat).

Lemma s3_concurrent_creates_one_winner_witness :
  let ps := (schedule turns (creates, empty_bucket)).1 in
  match ps !! 0%nat with Some (Ret (Ok (Some _))) => true | _ => false end = true ∧
  match ps !! 1%nat with Some (Ret (Ok None)) => true | _ => false end = true ∧
  ∀ j o', (j < 2)%nat → ps !! j = Some (Ret (Ok (Some o'))) → 0%nat = j.
Proof.
  split; [by vm_compute|]. split; [by vm_compute|].
  pose proof (schedule_steps turns (creates, empty_bucket)) as Hr.
  assert (E0 : match (schedule turns (creates, empty_bucket)).1 !! 0%nat with
    Some (Ret (Ok (Some _))) => true | _ => false end = true) by by vm_compute.
  destruct (schedule turns (creates, empty_bucket)) as [ps w'].
  assert (C : ∀ i, (i < 2)%nat → ∃ body options, quiet_body (W := Memory) app "docs/a.txt" body ∧
    creates !! i = Some (put_blob_if_not_exists debug_path app "docs/a.txt" body options)).
  { intros [|[|i]] Hi; [..|lia]; eexists _, _;
      (split; [apply quiet_body_from_bytes|reflexivity]). }
  destruct (s3_concurrent_creates_one_winner debug_path app "docs/a.txt" creates ps empty_bucket w')
    as [One _].
  - intros i p Hi. destruct (Nat.lt_ge_cases i 2) as [Hlt|Hge].
    + left. by apply C.
    + right. destruct i as [|[|[|i]]]; [lia..| |done].
      assert (p = let* _ := delete_blob app "docs/b.txt" in Ret (Ok None)) as -> by by injection Hi.
      exact (respects_then _ (delete_blob app "docs/b.txt") (Ok None)
               (s3_respects_delete_blob app "docs/a.txt" "docs/b.txt"
                  (validate_ok_safe "docs/a.txt" eq_refl) ltac:(done))).
  - exact Hr.
  - intros j o' Hj Ho. simpl in E0, Ho.
    destruct (ps !! 0%nat) as [[[[o|]|]| | |]|] eqn:Ep; try done.
    by apply (One 0%nat j o o'); [apply C; lia|apply C| |].
Defined.

Definition create_keys (i : nat) : option string :=
  match i with 0%nat | 1%nat => Some "docs/a.txt" | _ => None end.

Lemma s3_concurrent_creates_stored_witness :
  let start := [ put_blob_if_not_exists debug_path app "docs/a.txt" (from_bytes hello) default_put_options;
                 put_blob_if_not_exists debug_path app "docs/a.txt" (from_bytes []) default_put_options;
                 let* _ := head_blob app "docs/a.txt" in Ret (Ok None) ] in
  let c := schedule turns (start, empty_bucket) in
  ∃ o, c.1 !! 0%nat = Some (Ret (Ok (Some o))) ∧
    ∃ d, objects c.2 !! ("media", "app/docs/a.txt") = Some d ∧
      o = mkBlobWriteOutcome (Z.min (Z.of_nat (length d)) u64_MAX) (sha256_hex d).
Proof.
  intros start. pose proof (schedule_steps turns (start, empty_bucket)) as Hr.
  assert (E0 : match (schedule turns (start, empty_bucket)).1 !! 0%nat with
    Some (Ret (Ok (Some _))) => true | _ => false end = true) by by vm_compute.
  destruct (schedule turns (start, empty_bucket)) as [ps w'].
  destruct (s3_concurrent_creates_stored debug_path app create_keys start ps empty_bucket w') as [Hw _].
  - intros i p Hi. destruct i as [|[|[|i]]]; [| | |done].
    + exists (from_bytes hello), default_put_options. split; [apply passive_from_bytes|by injection Hi].
    + exists (from_bytes []), default_put_options. split; [apply passive_from_bytes|by injection Hi].
    + assert (p = let* _ := head_blob app "docs/a.txt" in Ret (Ok None)) as -> by by injection Hi.
      change (passive (stages (W := Memory))
        (let* _ := head_blob app "docs/a.txt" in
         Ret (Ok None) : prog s3E (storage_result (option BlobWriteOutcome)))).
      apply passive_bind; [apply s3_passive_head_blob|done].
  - exact Hr.
  - simpl in E0 |- *. destruct (ps !! 0%nat) as [[[[o|]|]| | |]|] eqn:Ep; try done.
    exists o. split; [done|]. exact (Hw 0%nat "docs/a.txt" o (conj eq_refl Ep)).
Defined.
