(* ===== verification/SmbWitnesses.v ===== *)
(** * Concrete instances of the theorems about SMB

    The share of SmbMemory.v with a root prefix, a blob, an abandoned temporary
    file and a file outside the prefix. *)
From S2P Require Import Prelude Text Errors Providers Externals Keys Effects Streams BlobStore Smb SmbFacts SmbStore SmbServer SmbCalls SmbWrite SmbPut SmbRead SmbCopy SmbList SmbMemory SmbProbe Tokens SmbRace.
From Stdlib Require Import Ascii.
Import Concrete.

#[local] Instance handler : Handler smbE SmbMemory := memory_handler uuid1.

#[local] Instance share : Share SmbMemory := memory_share uuid1.

Definition settings : SmbStorageConfig :=
  mkSmbConfig "nas.local" 445 "data" (Some "media") "backup" "secret" (Some "CORP") Smb3_1_1 true
    true (from_secs 10) (from_secs 60) 2.

Definition nas : SmbStorageBackend := mkSmb settings.

Lemma settings_ok : config_ok settings.
Proof.
  pose proof (validate_cases settings) as V.
  destruct (validate settings) as [[]|e] eqn:E; [done|by vm_compute in E].
Qed.

Definition hello : bytes := [Byte.x68; Byte.x65; Byte.x6c; Byte.x6c; Byte.x6f].

Definition abandoned : string := ".b.txt." +:+ uuid_to_string uuid2 +:+ ".uploading".

Definition disk : Disk :=
  mkDisk {[ ["media"; "docs"; "a.txt"] := 1%positive; ["media"; "docs"; abandoned] := 2%positive;
            ["other"; "c.txt"] := 3%positive ]}
    {[ 1%positive := hello; 2%positive := []; 3%positive := hello ]} ∅
    {[ []; ["media"]; ["media"; "docs"]; ["media"; "empty"]; ["other"] ]}.

Lemma disk_is_ok : bool_decide (disk_ok disk) = true.
Proof. by vm_compute. Qed.

(** The share with so many free permits; the third request gets no answer. *)
Definition nas_share (permits : Z) (down : list nat) : SmbMemory :=
  mkSmbMemory disk disk_is_ok ∅ permits false 1 0 down.

Definition start : SmbMemory := nas_share 2 [].

Lemma key_a : key_safe "docs/a.txt".
Proof. refine (bool_decide_unpack _ _). by vm_compute. Qed.

Lemma key_new : key_safe "docs/new.txt".
Proof. refine (bool_decide_unpack _ _). by vm_compute. Qed.

Lemma fresh_a : fresh_temp nas "docs/a.txt" (nas_share 2 [2%nat]).
Proof.
  intros u w1 t [= <- <-] Ht. vm_compute in Ht. injection Ht as <-. by vm_compute.
Qed.

Lemma lasting_start p permits down : lasting (nas_share permits down) p.
Proof. by intros i _. Qed.

(** A program that ends within 100 rounds of every loop. *)
Lemma runs_within {A} (p : prog smbE A) w (P : A → bool) :
  match run 100 p w with Some (a, _) => P a | None => false end = true →
  ∃ a w', runs p w a w' ∧ P a = true.
Proof.
  destruct (run 100 p w) as [[a w']|] eqn:E; [|done]. intros HP. exists a, w'.
  split; [by exists 100%nat|done].
Qed.

Lemma smb_put_blob_spec_witness :
  ∃ r w', runs (put_blob nas "docs/a.txt" (from_bytes hello) default_put_options)
            (nas_share 2 [2%nat]) r w' ∧
    put_result nas cells_kept "docs/a.txt" (read_whole [hello] None) (nas_share 2 [2%nat]) r w'.
Proof.
  pose proof (smb_put_blob_spec nas settings_ok "docs/a.txt" (from_bytes hello) [hello] None
    default_put_options (nas_share 2 [2%nat]) (body_of_from_bytes hello) eq_refl eq_refl fresh_a) as H.
  rewrite decide_True in H by apply key_a. exact H.
Defined.

Lemma smb_put_if_not_exists_spec_witness :
  ∃ r w', runs (put_blob_if_not_exists nas "docs/a.txt" (from_bytes hello) default_put_options)
            start r w' ∧ unharmed start w' (key_name nas "docs/a.txt").
Proof.
  pose proof (smb_put_if_not_exists_spec nas settings_ok "docs/a.txt" (from_bytes hello) [hello] None
    default_put_options start (body_of_from_bytes hello) eq_refl eq_refl) as H.
  cbn zeta in H. rewrite decide_True in H by apply key_a. destruct H as (r & w' & Hr & _ & Hu & _).
  exists r, w'. split; [done|]. apply Hu. right. by vm_compute; eexists.
Defined.

Lemma smb_get_blob_spec_witness :
  ∃ r w1, runs (get_blob_range (BlobStore := smb_blob_store nas) "docs/a.txt" (mkRange 1 3)) start r w1 ∧
    ∀ body, r = Ok body → ∃ r' w2, runs (collect_storage_stream (bb_body body)) w1 r' w2 ∧
      ∀ b, r' = Ok b → b = [Byte.x65; Byte.x6c].
Proof.
  pose proof (smb_get_blob_spec nas settings_ok "docs/a.txt" start eq_refl eq_refl
    (lasting_start _ _ _)) as H.
  rewrite decide_True in H by apply key_a. destruct H as [_ H].
  destruct (H 1 3) as (r & w1 & Hr & Hb); [by split|by split|done|].
  exists r, w1. split; [exact Hr|]. intros body E. destruct (Hb body E) as (d & r' & w2 & Hd & Hc & Hx).
  exists r', w2. split; [exact Hc|]. vm_compute in Hd. injection Hd as <-. exact Hx.
Defined.

Lemma smb_store_spec_witness :
  ∃ r w', runs (delete_blob nas "docs/a.txt") start r w' ∧
    unharmed start w' ["other"; "c.txt"].
Proof.
  pose proof (smb_store_spec nas settings_ok "docs/a.txt" start eq_refl
    (lasting_start _ _ _)) as H.
  rewrite decide_True in H by apply key_a. destruct H as (_ & _ & r & w' & Hr & _ & Hu & _).
  exists r, w'. split; [done|]. by apply Hu.
Defined.

(** The names of temporary files are free, and stay so. *)
Lemma fresh_after_get permits down body w1 :
  0 < permits →
  runs (get_blob nas "docs/a.txt") (nas_share permits down) (Ok body) w1 →
  fresh_temp nas "docs/new.txt" w1.
Proof.
  intros Hp Hr u w2 t [= <- <-] Ht. vm_compute in Ht. injection Ht as <-.
  assert (Hg := get_blob_twp nas settings_ok "docs/a.txt" (nas_share permits down) key_a eq_refl Hp).
  apply (twp_runs _ _ _ _ _ Hg) in Hr as [[-> _] _]. by vm_compute.
Qed.

Lemma smb_copy_blob_spec_witness :
  (∃ r w', runs (copy_blob nas "docs/a.txt" "docs/new.txt") (nas_share 2 []) r w' ∧
     permits w' = 2 ∧ (r = Ok tt → stored w' (key_name nas "docs/new.txt") hello)) ∧
  ∃ body w1, runs (get_blob nas "docs/a.txt") (nas_share 1 []) (Ok body) w1 ∧
    ∀ r w', ¬ runs (copy_blob nas "docs/a.txt" "docs/new.txt") (nas_share 1 []) r w'.
Proof.
  split.
  - pose proof (smb_copy_blob_spec nas settings_ok "docs/a.txt" "docs/new.txt" (nas_share 2 [])
      key_a key_new eq_refl) as [H _].
    destruct H as (r & w' & Hr & [Hp _] & Hc); [done|apply lasting_start| |].
    { intros body w1. by apply fresh_after_get. }
    exists r, w'. split; [exact Hr|]. split; [exact Hp|]. intros ->. destruct Hc as ((d & Hd & Hs) & _).
    vm_compute in Hd. injection Hd as <-. exact Hs.
  - destruct (runs_within (get_blob nas "docs/a.txt") (nas_share 1 []) is_ok) as (r & w1 & Hr & Hok);
      [by vm_compute|].
    destruct r as [body|e]; [|done]. exists body, w1. split; [exact Hr|].
    pose proof (smb_copy_blob_spec nas settings_ok "docs/a.txt" "docs/new.txt" (nas_share 1 [])
      key_a key_new eq_refl) as [_ H]. exact (H eq_refl body w1 Hr).
Defined.

(** Wherever a request of the copy is not answered, the permits are free again
    at its end: also where the target cannot be created or written, and the
    stream is dropped unread or half read. *)
Example failed_copies_free_permits :
  forallb (λ n, match run 100 (copy_blob nas "docs/a.txt" "docs/new.txt") (nas_share 2 [n]) with
                | Some (_, w') => permits w' =? 2
                | None => false
                end) (seq 0 40) = true ∧
  existsb (λ n, match run 100 (copy_blob nas "docs/a.txt" "docs/new.txt") (nas_share 2 [n]) with
                | Some (r, _) => negb (is_ok r)
                | None => false
                end) (seq 0 40) = true.
Proof. by vm_compute. Qed.

(** With two permits the copy succeeds and they are free again. *)
Example copied_on_share :
  match run 100 (let*? _ := copy_blob nas "docs/a.txt" "docs/new.txt" in
                 let*? body := get_blob nas "docs/new.txt" in
                 collect_storage_stream (bb_body body)) start with
  | Some (r, w') => (r, permits w')
  | None => (Err (timed_out "test"), 0)
  end = (Ok hello, 2).
Proof. by vm_compute. Qed.

Lemma smb_list_blobs_spec_witness :
  ∃ ks r w', "docs/a.txt" ∈ ks ∧
    runs (list_blobs (BlobStore := smb_blob_store nas) "docs") start r w' ∧
    ∀ l, r = Ok l → l = ks.
Proof.
  pose proof (smb_list_blobs_spec nas settings_ok "docs" start (lasting_start _ _ _)) as H.
  destruct (validate_blob_prefix "docs") as [[]|e] eqn:E; [|by vm_compute in E].
  destruct H as (ks & _ & Hin & _ & r & w' & Hr & _ & Hl). exists ks, r, w'.
  split; [|by split]. apply Hin. split; [done|]. split; [apply key_a|]. split; [by vm_compute; eexists|].
  by vm_compute.
Defined.

Lemma smb_reconnect_spec_witness :
  ∃ r w', runs (reconnect_with_backoff nas) start r w' ∧ (dials w' <= 4)%nat.
Proof.
  pose proof (proj1 (smb_reconnect_spec nas start)) as H.
  destruct (H eq_refl) as (r & w' & Hr & _ & _ & D & _).
  exists r, w'. split; [exact Hr|exact D].
Defined.

Lemma smb_error_classes_witness :
  is_collision (map_smb_error "create" (UnexpectedMessageStatus 3221225525)) = true.
Proof.
  apply (smb_error_classes "create" (UnexpectedMessageStatus 3221225525) no_answer law_statuses).
  done.
Defined.

Lemma smb_temp_key_spec_witness :
  ∃ t, temp_key_with uuid1 "docs/a.txt" = Ok t ∧ is_temp_key t = true.
Proof.
  destruct (proj1 (smb_temp_key_spec (EX := externals) "docs/a.txt" uuid1) key_a) as (t & Ht & _ & Hi & _).
  exists t. split; [exact Ht|exact Hi].
Defined.

(** The listing of the share: the abandoned file, the file outside the prefix
    and the directories are not listed. *)
Example listing_of_share :
  match run 100 (list_blobs (BlobStore := smb_blob_store nas) "") start with
  | Some (r, _) => r
  | None => Err (timed_out "test")
  end = Ok ["docs/a.txt"].
Proof. by vm_compute. Qed.

(** A file in two blocks of four bytes, read back. *)
Example written_and_read :
  match run 100 (let*? _ := put_blob nas "docs/new.txt" (from_bytes hello) default_put_options in
                 let*? body := get_blob nas "docs/new.txt" in
                 collect_storage_stream (bb_body body)) start with
  | Some (r, _) => r
  | None => Err (timed_out "test")
  end = Ok hello.
Proof. by vm_compute. Qed.

(** ** Interleavings *)

(** A body that fails after its first chunk. *)
Definition broken : StorageByteStream smbE :=
  stream_new (stream_iter [Ok hello; Err (MissingBlob "source")]).

Definition create (body : StorageByteStream smbE) : prog smbE (storage_result (option BlobWriteOutcome)) :=
  put_blob_if_not_exists nas "docs/new.txt" body default_put_options.

(** A create whose body fails, one that does not, and a reader; the second
    create runs when the first has ended. *)
Definition race : list (prog smbE (storage_result (option BlobWriteOutcome))) :=
  [create broken; create (from_bytes hello);
   let* _ := blob_exists nas "docs/new.txt" in Ret (Ok None)].

Definition race_keys (i : nat) : option string :=
  match i with 0%nat | 1%nat => Some "docs/new.txt" | _ => None end.

Definition race_turns : list nat :=
  concat (replicate 25 [0; 2]%nat) ++ concat (replicate 40 [1; 2]%nat).

Lemma broken_passive : passive_body (W := SmbMemory) broken.
Proof. intros [|[c|e] l]; done. Qed.

Lemma smb_concurrent_creates_witness :
  let c := schedule race_turns (race, start) in
  match c.1 !! 0%nat with Some (Ret (Err (MissingBlob _))) => true | _ => false end = true ∧
  ∃ o, c.1 !! 1%nat = Some (Ret (Ok (Some o))) ∧
    ∃ d, stored c.2 (key_name nas "docs/new.txt") d ∧
      o = mkBlobWriteOutcome (Z.of_nat (length d)) (sha256_hex d).
Proof.
  split; [by vm_compute|].
  pose proof (schedule_steps race_turns (race, start)) as Hr.
  assert (E1 : match (schedule race_turns (race, start)).1 !! 1%nat with
    Some (Ret (Ok (Some _))) => true | _ => false end = true) by by vm_compute.
  destruct (schedule race_turns (race, start)) as [ps w'].
  destruct (smb_concurrent_creates nas settings_ok race_keys race ps start w') as [Hw _].
  - intros i p Hi. destruct i as [|[|[|i]]]; [| | |done].
    + exists broken, default_put_options. split; [apply broken_passive|by injection Hi].
    + exists (from_bytes hello), default_put_options.
      split; [apply body_of_bytes_passive|by injection Hi].
    + assert (p = let* _ := blob_exists nas "docs/new.txt" in Ret (Ok None)) as -> by by injection Hi.
      change (passive (files (W := SmbMemory))
        (let* _ := blob_exists nas "docs/new.txt" in
         Ret (Ok None) : prog smbE (storage_result (option BlobWriteOutcome)))).
      apply passive_bind; [apply (passive_blob_exists nas settings_ok)|done].
  - exact Hr.
  - simpl in E1 |- *. destruct (ps !! 1%nat) as [[[[o|]|]| | |]|] eqn:Ep; try done.
    exists o. split; [done|]. exact (Hw 1%nat "docs/new.txt" o (conj eq_refl Ep)).
Defined.

(** With an unconditional put of the same key in between, the create that
    fails deletes what the put has stored: the put returned [Ok], nobody deleted
    the key, and it is gone.  The failing create has closed its file when the
    put renames over it, and deletes the name afterwards. *)
Definition put_turns : list nat := replicate 18 0%nat ++ replicate 60 1%nat ++ replicate 20 0%nat.

Example failed_create_deletes_put :
  let c := schedule put_turns
    ([create broken;
      let*? o := put_blob nas "docs/new.txt" (from_bytes hello) default_put_options in
      Ret (Ok (Some o))], start) in
  match c.1 !! 0%nat with Some (Ret (Err (MissingBlob _))) => true | _ => false end = true ∧
  match c.1 !! 1%nat with Some (Ret (Ok (Some _))) => true | _ => false end = true ∧
  names c.2 !! key_name nas "docs/new.txt" = None.
Proof. by vm_compute. Qed.

(** ** The probe *)

(** The files of probes are right below the root prefix, where the share has
    none. *)
Lemma no_probe_temps_start : no_probe_temps settings start.
Proof.
  intros q (u & u' & t & Ht & ->).
  destruct (temp_key_good (probe_key u) u' (probe_key_safe u)) as (t' & Ht' & _ & _ & _ & Hd & _).
  rewrite Ht in Ht'. injection Ht' as <-.
  assert (Hl : (length (split "/" t) <= 1)%nat).
  { rewrite probe_key_split in Hd. by destruct (split "/" t) as [|a [|b l]]; simpl; [lia..|]. }
  destruct (names start !! key_name nas t) as [i|] eqn:E; [|done]. exfalso.
  assert (N : map_Forall (λ (p : share_name) _, ¬ (head p = Some "media" ∧ (length p <= 2)%nat)) (names start)).
  { refine (bool_decide_unpack _ _). by vm_compute. }
  apply (N _ _ E). split; [done|]. change (key_name nas t) with ("media" :: split "/" t). simpl. lia.
Qed.

Lemma smb_probe_spec_witness :
  ∃ r w', runs (probe settings (mkProbeOptions true)) start r w' ∧
    ∀ res, r = Ok res → permits w' = 2 ∧ content w' ["media"; "docs"; "a.txt"] = Some hello ∧
      checked settings (mkProbeOptions true) start res w'.
Proof.
  pose proof (smb_probe_spec settings (mkProbeOptions true) start ltac:(done) eq_refl
    no_probe_temps_start (lasting_start _ _ _)) as [H _].
  destruct (validate settings) as [[]|e] eqn:Ev; [|by vm_compute in Ev].
  destruct H as (r & w' & Hr & (_ & _ & Hok) & Hrep). exists r, w'. split; [exact Hr|].
  intros res ->. destruct (Hok res eq_refl) as (Hp & p & (u & ->) & Hu & _). split; [exact Hp|].
  assert (Hne : ["media"; "docs"; "a.txt"] ≠ key_name nas (probe_key u)).
  { intros E. apply (f_equal length) in E.
    change (key_name nas (probe_key u)) with ("media" :: split "/" (probe_key u)) in E.
    by rewrite probe_key_split in E. }
  destruct (Hu _ Hne) as (_ & -> & _). split; [by vm_compute|]. by apply Hrep.
Defined.

(** When the probe file cannot be read back, it stays: here the question for
    its size is not answered. *)
Example failed_probe_leaves_file :
  match run 100 (probe settings (mkProbeOptions true)) (nas_share 2 [36%nat]) with
  | Some (r, w') => negb (is_ok r) &&
      bool_decide (is_Some (names w' !! key_name nas (probe_key uuid1)))
  | None => false
  end = true.
Proof. by vm_compute. Qed.
